(* ===== verification/_CoqProject ===== *)
-Q . S2P
Prelude.v
GoStd.v
Crypto.v
Models.v
Float64.v
Float64Facts.v
Interfaces.v
GoStrings.v
Db.v
Effects.v
Config.v
Auth.v
Samples.v
Store.v
Accounts.v
Stats.v
Migrate.v
WorkerMetrics.v
Queue.v
Schedules.v
Enqueue.v
Registry.v
Worker.v
Scheduler.v
Http.v
JobsApi.v
AuthApi.v
KeysApi.v
AdminApi.v
ApiMetrics.v
Routes.v
Lifecycle.v
QueueFacts.v
QueueSpec.v
StoreFacts.v
AccountsFacts.v
AuthFacts.v
KeysApiFacts.v
AuthApiFacts.v
JobStore.v
EnqueueFacts.v
RegistryFacts.v
HttpFacts.v
ConfigFacts.v
JobsApiFacts.v
SchedulerFacts.v
WorkerFacts.v
Rely.v
Safety.v
SafetyApi.v
System.v
Processes.v
Demo.v
MigrateFacts.v
AdminFacts.v
Guarantees.v
Responses.v
Liveness.v
EndToEnd.v
Retries.v
Stranded.v
Custody.v
Balance.v
Settling.v
Passes.v
Fires.v
Runs.v
Shutdown.v
Keeps.v
Confined.v
Isolation.v
