(* ===== verification/Prelude.v ===== *)
(** * dispatch-go: a verification library for a job queue

    dispatch-go keeps jobs in Postgres and job ids in Redis. The API ([cmd/api]) and the
    scheduler ([cmd/scheduler]) produce jobs: they insert the row, then push its id. Workers
    ([cmd/worker]) pop ids, claim the row, run a handler and record the outcome: completed,
    retried after a backoff through a delayed set, or failed and dead-lettered. A poller moves
    due ids back onto the work lists. Tenants own jobs; people sign up, log in with a session
    cookie and mint API keys; the job endpoints act for the tenant of a key.

    ** The program as a model

    A Go function that talks to the outside is a [prog] ([Effects]): it returns, panics, or
    makes a request (a SQL statement, a transaction, a Redis command, a clock reading, a UUID,
    random bytes, a bcrypt computation, a context test, a wait, a metric) and goes on with the
    answer. A [reply] is what the outside decides about one request: that it succeeds, fails
    without effect, or takes effect while the caller sees an error; what the clock says; which
    UUID or bytes are drawn; the faults of BEGIN, each statement and COMMIT. A TEXT value the
    server cannot store is one of these failures.

    [exec] runs a program alone on a list of replies; a list that ends early is a crash. [wp]
    is a weakest precondition over all replies and all crash points, [twp] is total correctness
    over replies without faults, [answers] looks only at the values a program can return. A
    transaction body runs atomically, as its row locks make it.

    SQL texts are translated to functions on tables ([Db]), Redis is a class of observations
    and commands with their documented laws, and so are the UUID, cron, text, bcrypt and router
    libraries and what SQL leaves to the server ([Interfaces]); each class has a concrete
    instance, with its laws proved, used by the witnesses. Go's 64-bit integers, shifts, times,
    errors and JSON values are in [GoStd], strings in [GoStrings], binary64 in [Float64]
    (computed), SHA-256, HMAC, hex and base64 in [Crypto] (computed).

    ** Files: the model

    - [Prelude], [GoStd], [Crypto], [Float64], [GoStrings], [Interfaces], [Db], [Effects],
      [Samples]: notation and automation; Go values; third-party services; the schema
      ([migrations/]) and SQL; programs, requests and their semantics; concrete inputs.
    - [Models]: [internal/models], the rows and the statuses. [Config]: [internal/config].
    - [Store], [Schedules], [Accounts], [Stats], [Migrate]: [internal/store]: [store.go] and
      [list.go]; [schedules.go]; [users.go], [sessions.go], [tenants.go] and [apikeys.go];
      [stats.go]; [migrate.go]. For each method its SQL statements ([.._stmt]), transactions
      ([.._tx]) and the program.
    - [Queue]: [internal/queue]. [Enqueue]: [internal/enqueue]. [Auth]: [internal/auth].
      [Registry]: [internal/jobs].
    - [Worker]: the loops of [cmd/worker/main.go]; [WorkerMetrics]: the instruments of
      [internal/metrics/worker.go]. [Scheduler]: the loops of [cmd/scheduler/main.go].
    - [Http], [JobsApi], [AuthApi], [KeysApi], [AdminApi], [Routes]: [internal/handlers]:
      requests, responses, parameters and the tenant seam; [jobs.go]; [auth.go]; [keys.go];
      [admin.go]; the routing table with its guards and CORS. [ApiMetrics]: the collector of
      [internal/metrics/api.go] over the interface [Source], and the source of
      [cmd/api/metrics.go].
    - [Processes]: the three [main] functions: startup and the services they run. [Shutdown]
      (its module [ApiServer]): [runServer] from [ListenAndServe] on, as two goroutines.

    ** Files: the theorems

    - [Lifecycle]: the abstract specification: the legal changes of a job row ([edge]), the
      retry budget, the table invariant ([db_inv]), and what one process may do to the tables
      while others run ([guar]).
    - [QueueFacts], [StoreFacts], [AccountsFacts], [JobStore], [EnqueueFacts], [RegistryFacts],
      [AuthFacts], [KeysApiFacts], [AuthApiFacts], [HttpFacts], [JobsApiFacts], [ConfigFacts],
      [SchedulerFacts], [WorkerFacts], [MigrateFacts], [AdminFacts]: what each component does,
      branch by branch. [StoreFacts] computes every statement to its effect on one row.
    - [Rely]: a rely-guarantee logic for programs that share the world. [Safety], [SafetyApi]:
      every program keeps the invariant and the lifecycle at each of its requests.
    - [System]: any number of worker loops, pollers, heartbeats, schedulers, scrapes and HTTP
      requests over one world, interleaved request by request, starting and stopping at any
      time, while the surroundings may edit accounts and schedules within the constraints of
      their tables and Redis may lose entries. [Demo]: a concrete run. [Guarantees]: theorems
      about every reachable configuration.
    - [QueueSpec]: the queue as an abstract data type, which [Queue] refines.
    - [Responses]: the type of each route's answers. [Liveness], [EndToEnd], [Retries]: progress
      when no request fails. [Stranded]: the job no process can reach. [Custody],
      [Balance]: a logic of what each process has in hand, and where every job is, with failures
      counted. [Settling]: rounds of a poller and a worker end every job that is queued.
      [Passes]: a pass of the scheduler and the jobs it fires. [Fires], [Runs]: a logic of the
      runs a scheduler has won, and the system watched for what became of them.
      [Shutdown]: how the loops and the server stop. [Keeps], [Confined], [Isolation]: a request
      acts and tells only within the tenants it has a credential of.

    ** What the theorems show

    - The running system: a queued id always names a stored job of that queue (persist before
      enqueue); rows follow the lifecycle; a processing job is changed only by its claimer;
      completed and cancelled are final; failed is the same as dead-lettered; attempts stay
      within the budget; credentials stay unique and references intact. And its limits: a job
      whose worker stops in the middle stays in processing for ever, and a pending job whose id
      is on no queue is never run. Each of these takes a failure: with [n] failed requests and
      killed processes all but [n] of the jobs to be run are once on their queue or in the hands
      of one process, none is ever doubled, and the worker's counter of completed jobs agrees
      with the table up to as many.
    - Stopping: a loop that is told to stop makes a bounded number of further requests; the
      server answers what it accepted and its goroutines do not wait for each other for ever.
    - Progress: a submitted job is run and shown with its result; a worker without faults
      empties its queues and attempts every pending job in them. After any failures, rounds of
      polling and working settle every pending job whose id is queued, in no more rounds than
      these jobs have attempts left, that is, all jobs but one for each failure; a job that
      always fails is given up after exactly its budget; counting workers by SCAN ends. Handlers
      are assumed to come to an end ([finishing]), which is proved of the built-in ones.
    - Isolation: without a credential of a tenant no route changes or shows anything of it.
    - Accounts: a signup opens a session and its credentials log in again; a session admits
      requests until it expires or is ended; a minted key works until its own tenant deletes
      it; login takes the same steps for unknown emails and wrong passwords.
    - Producers: what [Submit] leaves behind at each failure; what the endpoints answer; the
      answers of every route have the route's type.
    - Worker: the backoff is min(2^n s, 1 h) without overflow; the retry policy; completion.
    - Queue: a refinement of an abstract queue that loses and duplicates nothing; first in first
      out, promotion of exactly the due ids, removal, liveness keys.
    - Store: claims are exclusive, dead-lettering and manual retry are all or nothing, listing
      answers the page with placeholders that line up, reads and writes respect the tenant.
    - Scheduler: in every interleaving of any number of schedulers with everything else, with
      failures and crashes, a run of a schedule is won at most once and makes at most one job of
      its template; without failures a pass fires the due schedules that can be read, once
      each, moves their cursors and leaves the rest alone, and the jobs it fires are settled by
      rounds of polling and working; and its limit: an expression that never matches fires at
      every tick.
    - Statistics: the endpoints and the gauges report what the tables and Redis hold, and a
      failed read is an error and not a zero; the failure rate, computed in float64, is finite,
      between 0 and 1 and the ratio rounded to four decimals ([Float64Facts]: the error of one
      operation in the normal range is below one unit in the last place).
    - Configuration and migrations: defaults fill every gap, lists are read back as written;
      migrations run once, whole, in order of name, over any number of interrupted runs.

    ** Bounds

    The loops of the processes take the number of passes they are watched for, which is
    arbitrary in every theorem. [exec] and [wp] are structural in the program, and every program
    is over after finitely many replies ([exec_terminates]). The SCAN loop takes a number of
    rounds; running out of them is a [Panic], which stands for a scan that goes on, and enough
    rounds are shown to exist. SHA-256 constants are computed from the primes. Redis scores are
    float64: exact up to 2^53 seconds, which the theorems on delays assume.

    ** Not modelled

    Logging, sockets, the delivery of signals, connection pools and closing them; the HTTP
    server of the worker's metrics and the Prometheus registry with its text format (the
    vectors are parameters with their documented behaviour); [net/http] and chi below the route
    table (path cleaning, redirects, and the RequestID, RealIP, Logger and Recoverer
    middlewares); the contents of the migration scripts, which are the schema of [Db]. The rows
    of a query are read in one go: a failure while they are read ([rows.Scan], [rows.Err]) is
    reported like one of the query itself. A request's body is the JSON value it decodes to. A
    handler registered by the worker is assumed to leave the tables and Redis alone, which is
    proved of the built-in ones. *)
From Stdlib Require Export ZArith Lia.
From stdpp Require Export base tactics option list list_numbers gmap strings sorting.

#[export] Set Default Goal Selector "!".

(** ** Shared automation *)

Create HintDb dispatch discriminated.
Create Rewrite HintDb dispatch.

(** Destructs the tuples and pairs bound by a [let '(..)] in the goal or in a hypothesis. *)
Ltac break_let :=
  repeat match goal with
         | |- context [let '(_, _) := ?p in _] => destruct p eqn:?
         | H : context [let '(_, _) := ?p in _] |- _ => destruct p eqn:?
         end.

(** Case analysis on every [match] and [if] of the goal and the hypotheses, with the
    contradictory branches closed. *)
Ltac break_match :=
  match goal with
  | |- context [match ?x with _ => _ end] => destruct x eqn:?
  | H : context [match ?x with _ => _ end] |- _ => destruct x eqn:?
  end; simplify_eq.

(** ** Ordering by an integer key *)

Definition key_le {A} (f : A → Z) : relation A := λ x y, (f x ≤ f y)%Z.

#[export] Instance key_le_dec {A} (f : A → Z) : RelDecision (key_le f).
Proof. intros x y. unfold key_le. apply _. Defined.

(** ** Lemmas on options and lists *)

Lemma merge_sort_key_sorted {A} (f : A → Z) (l : list A) :
  StronglySorted (key_le f) (merge_sort (key_le f) l).
Proof.
  apply StronglySorted_merge_sort; unfold key_le; [intros ???; lia|].
  intros x y. destruct (decide (f x ≤ f y)%Z); [by left|right; lia].
Qed.

Lemma from_option_match {A B} (f : A → B) (b : B) (o : option A) :
  from_option f b o = match o with Some a => f a | None => b end.
Proof. by destruct o. Qed.

Lemma omap_snd_filter_singleton {A} (P : A → bool) (x : A) :
  filter (λ a, P a = true) [x] = if P x then [x] else [].
Proof. rewrite filter_cons, filter_nil. by destruct (P x). Qed.

Lemma list_sorted_app_singleton {A} (R : relation A) (l : list A) (x : A) :
  StronglySorted R l → (∀ y, y ∈ l → R y x) → StronglySorted R (l ++ [x]).
Proof.
  induction 1 as [|y l Hs IH Hall]; simpl; intros Hx.
  - repeat constructor.
  - constructor; [apply IH; set_solver|].
    rewrite Forall_app. split; [done|]. repeat constructor. apply Hx. set_solver.
Qed.

Lemma elem_of_take_drop {A} (n m : nat) (l : list A) (x : A) : x ∈ take n (drop m l) → x ∈ l.
Proof.
  intros (i & Hi)%list_elem_of_lookup. apply lookup_take_Some in Hi as [Hi _].
  rewrite lookup_drop in Hi. by eapply list_elem_of_lookup_2.
Qed.

Section FilterIn.
Context {A : Type} (P Q : A → Prop) `{!∀ x, Decision (P x), !∀ x, Decision (Q x)}.
Implicit Types l : list A.

Lemma filter_iff_in l : (∀ x, x ∈ l → P x ↔ Q x) → filter P l = filter Q l.
Proof.
  induction l as [|x l IH]; intros E; [done|]. rewrite !filter_cons, IH by set_solver.
  specialize (E x ltac:(by left)). repeat case_decide; naive_solver.
Qed.

Lemma filter_all_in l : (∀ x, x ∈ l → P x) → filter P l = l.
Proof.
  induction l as [|x l IH]; intros E; [done|].
  rewrite filter_cons_True, IH; [done|set_solver..].
Qed.

Lemma filter_none_in l : (∀ x, x ∈ l → ¬ P x) → filter P l = [].
Proof.
  induction l as [|x l IH]; intros E; [done|].
  rewrite filter_cons_False, IH; [done|set_solver..].
Qed.
End FilterIn.
