(* ===== verification/GoStd.v ===== *)
(** * The Go values the program computes with

    The pieces of the Go language and its standard library that the source uses: 64-bit
    integers, [time.Duration] and Unix times, [float64] conversion of integers, [error]
    values with [errors.Is], byte strings, and decoded JSON values. *)
From S2P Require Import Prelude.
Open Scope Z_scope.

(** ** Integers *)

(** Two's complement wrap-around of Go's 64-bit [int] and [int64]. *)
Definition wrap64 (z : Z) : Z := (z + 2 ^ 63) mod 2 ^ 64 - 2 ^ 63.

(** The values an [int] holds, and the values a Postgres INTEGER column holds. *)
Definition in_int64 (z : Z) : bool := (- 2 ^ 63 <=? z) && (z <? 2 ^ 63).
Definition in_int32 (z : Z) : bool := (- 2 ^ 31 <=? z) && (z <? 2 ^ 31).

(** [x << n]: a negative shift count panics ([None]). *)
Definition shl64 (x n : Z) : option Z :=
  if n <? 0 then None else Some (wrap64 (Z.shiftl x n)).

(** [float64(z)] for an integer, as the integer it denotes: exact up to 2^53, otherwise
    rounded to 53 significant bits, ties to even. *)
Definition float64_of_int (z : Z) : Z :=
  let a := Z.abs z in
  if a <=? 2 ^ 53 then z
  else
    let e := Z.log2 a - 52 in
    let q := Z.shiftr a e in
    let r := a - Z.shiftl q e in
    let half := 2 ^ (e - 1) in
    let q' := if (half <? r) || ((half =? r) && Z.odd q) then q + 1 else q in
    Z.sgn z * Z.shiftl q' e.

(** ** Time

    A [time.Time] is its offset from the Unix epoch in nanoseconds, a [time.Duration] a
    number of nanoseconds. *)
Definition Second : Z := 1000000000.
Definition Minute : Z := 60 * Second.
Definition Hour : Z := 60 * Minute.

(** [t.Unix()]: whole seconds, rounded down. *)
Definition Unix (t : Z) : Z := t / Second.

(** ** Error values *)

(** The values made once by [errors.New] and compared by identity: the program's own, then
    the third-party ones it tests for. *)
Inductive sentinel :=
| ErrJobNotFound | ErrJobNotClaimable | ErrJobNotRetryable | ErrJobNotCancellable
| ErrEnqueueAfterPersist | ErrMissingTenant
| ErrSessionInvalid | ErrTenantNotFound | ErrEmailTaken | ErrUserNotFound | ErrAPIKeyNotFound
| PgxErrNoRows | RedisNil | ContextCanceled.

#[export] Instance sentinel_eq_dec : EqDecision sentinel.
Proof. solve_decision. Defined.

(** A Go [error]: a sentinel; a Postgres error with its SQLSTATE; any other error, known by
    its text; [fmt.Errorf("<prefix>: %w", e)]; [fmt.Errorf("%w: %v", s, e)], which wraps the
    sentinel and only prints [e]. *)
Inductive error :=
| ESentinel (s : sentinel)
| EPg (code : string)
| EText (msg : string)
| EWrap (prefix : string) (e : error)
| EWrapV (s : sentinel) (e : error).

(** [errors.Is(e, s)]: walks the chain of wrapped errors. *)
Fixpoint errors_Is (e : error) (s : sentinel) : bool :=
  match e with
  | ESentinel s' => bool_decide (s' = s)
  | EPg _ | EText _ => false
  | EWrap _ e' => errors_Is e' s
  | EWrapV s' _ => bool_decide (s' = s)
  end.

(** [errors.As] at a [*pgconn.PgError]. *)
Fixpoint errors_As_Pg (e : error) : option string :=
  match e with
  | EPg code => Some code
  | EWrap _ e' => errors_As_Pg e'
  | _ => None
  end.

(** The texts given to [errors.New]. *)
Definition sentinel_text (s : sentinel) : string :=
  match s with
  | ErrJobNotFound => "job not found"
  | ErrJobNotClaimable => "job is not pending (cannot be claimed)"
  | ErrJobNotRetryable => "job is not failed (cannot be retried)"
  | ErrJobNotCancellable => "job is not pending (cannot be cancelled)"
  | ErrEnqueueAfterPersist => "job persisted but enqueue failed"
  | ErrMissingTenant => "job has no tenant"
  | ErrSessionInvalid => "session invalid or expired"
  | ErrTenantNotFound => "tenant not found"
  | ErrEmailTaken => "email already registered"
  | ErrUserNotFound => "user not found"
  | ErrAPIKeyNotFound => "api key not found"
  | PgxErrNoRows => "no rows in result set"
  | RedisNil => "redis: nil"
  | ContextCanceled => "context canceled"
  end%string.

(** [e.Error()]. *)
Fixpoint Error (e : error) : string :=
  match e with
  | ESentinel s => sentinel_text s
  | EPg code => "SQLSTATE " +:+ code
  | EText msg => msg
  | EWrap p e' => p +:+ ": " +:+ Error e'
  | EWrapV s e' => sentinel_text s +:+ ": " +:+ Error e'
  end%string.

(** A [(T, error)] result: the error, or the value when the error is nil. *)
Abbreviation result A := (error + A)%type.

(** ** Strings: [strings.HasPrefix] and [strings.TrimPrefix] *)

Fixpoint HasPrefix (s prefix : string) : bool :=
  match prefix, s with
  | EmptyString, _ => true
  | String c p, String d s' => if Ascii.eqb c d then HasPrefix s' p else false
  | String _ _, EmptyString => false
  end.

Fixpoint drop_string (n : nat) (s : string) : string :=
  match n, s with
  | S n', String _ s' => drop_string n' s'
  | _, _ => s
  end.

Definition TrimPrefix (s prefix : string) : string :=
  if HasPrefix s prefix then drop_string (String.length prefix) s else s.

(** ** JSON values and raw messages *)

(** A JSON value as [encoding/json] decodes it into an [interface{}]; a number is its
    literal. *)
Inductive json :=
| JNull
| JBool (b : bool)
| JNum (lit : string)
| JStr (s : string)
| JArr (l : list json)
| JObj (kvs : list (string * json)).

(** A [json.RawMessage]: empty, the text of a value, or text that is not JSON. *)
Inductive RawMessage :=
| RawNil
| RawJSON (j : json)
| RawBad (s : string).

(** ** Lemmas *)

Lemma wrap64_id z : - 2 ^ 63 ≤ z < 2 ^ 63 → wrap64 z = z.
Proof. intros H. unfold wrap64. rewrite Z.mod_small; lia. Qed.

Lemma float64_of_int_exact z : Z.abs z ≤ 2 ^ 53 → float64_of_int z = z.
Proof. intros H. unfold float64_of_int. by rewrite (proj2 (Z.leb_le _ _) H). Qed.

Lemma in_int32_spec z : in_int32 z = true ↔ - 2 ^ 31 ≤ z < 2 ^ 31.
Proof. unfold in_int32. lia. Qed.

Lemma HasPrefix_app p s : HasPrefix (p +:+ s) p = true.
Proof. induction p as [|c p IH]; simpl; [by destruct s|]. by rewrite Ascii.eqb_refl. Qed.

Lemma drop_string_app p s : drop_string (String.length p) (p +:+ s) = s.
Proof. induction p as [|c p IH]; simpl; [by destruct s|done]. Qed.

Lemma TrimPrefix_app p s : TrimPrefix (p +:+ s) p = s.
Proof. unfold TrimPrefix. by rewrite HasPrefix_app, drop_string_app. Qed.

Lemma HasPrefix_split s p : HasPrefix s p = true → ∃ t, s = p +:+ t.
Proof.
  revert s. induction p as [|c p IH]; intros s; [by exists s|]. destruct s as [|d s]; [done|].
  simpl. destruct (Ascii.eqb_spec c d) as [->|]; [|done]. intros [t ->]%IH. by exists t.
Qed.

Lemma string_app_inj_l (p s1 s2 : string) : p +:+ s1 = p +:+ s2 → s1 = s2.
Proof. induction p; simpl; intros H; [done|]. by simplify_eq; auto. Qed.

#[export] Hint Rewrite HasPrefix_app TrimPrefix_app : dispatch.
