(* ===== verification/Crypto.v ===== *)
(** * The hashes and encodings the authentication code uses

    Go's [crypto/sha256], [crypto/hmac], [encoding/hex] and [base64.RawURLEncoding], on byte
    strings as lists of integers from 0 to 255. *)
From S2P Require Import Prelude.
From Stdlib Require Import Ascii.
Open Scope Z_scope.

Abbreviation bytes := (list Z).

(** [[]byte(s)]. *)
Fixpoint bytes_of (s : string) : bytes :=
  match s with
  | EmptyString => []
  | String c s' => Z.of_N (N_of_ascii c) :: bytes_of s'
  end.

Definition char_of (b : Z) : ascii := ascii_of_N (Z.to_N b).

Fixpoint string_of (l : bytes) : string :=
  match l with
  | [] => EmptyString
  | b :: l' => String (char_of b) (string_of l')
  end.

(** ** SHA-256 *)

Module SHA256.
Definition mask : Z := 2 ^ 32 - 1.
Definition add (x y : Z) : Z := Z.land (x + y) mask.
Definition rotr (n x : Z) : Z := Z.lor (Z.shiftr x n) (Z.land (Z.shiftl x (32 - n)) mask).

Definition Ch (x y z : Z) : Z := Z.lxor (Z.land x y) (Z.land (Z.lxor x mask) z).
Definition Maj (x y z : Z) : Z := Z.lxor (Z.lxor (Z.land x y) (Z.land x z)) (Z.land y z).
Definition bsig0 (x : Z) : Z := Z.lxor (Z.lxor (rotr 2 x) (rotr 13 x)) (rotr 22 x).
Definition bsig1 (x : Z) : Z := Z.lxor (Z.lxor (rotr 6 x) (rotr 11 x)) (rotr 25 x).
Definition ssig0 (x : Z) : Z := Z.lxor (Z.lxor (rotr 7 x) (rotr 18 x)) (Z.shiftr x 3).
Definition ssig1 (x : Z) : Z := Z.lxor (Z.lxor (rotr 17 x) (rotr 19 x)) (Z.shiftr x 10).

(** The constants are the leading 32 bits of the fractional parts of the cube roots (the round
    keys) and the square roots (the initial state) of the first primes, as the standard defines
    them; they are evaluated once, here. *)
Definition is_prime (n : nat) : bool :=
  forallb (λ k, negb (Nat.modulo n k =? 0)%nat) (seq 2 (n - 2)).
Definition primes : list Z := Z.of_nat <$> filter (λ n, is_prime n = true) (seq 2 310).

(** The largest [r] below [acc + 2 ^ bits] with [r ^ 3 <= n], one bit at a time. *)
Fixpoint cube_root (bits : nat) (acc n : Z) : Z :=
  match bits with
  | O => acc
  | S b =>
      let r := acc + 2 ^ Z.of_nat b in
      cube_root b (if r ^ 3 <=? n then r else acc) n
  end.

Definition K : list Z :=
  Eval vm_compute in (λ p, Z.land (cube_root 36 0 (p * 2 ^ 96)) mask) <$> primes.
Definition H0 : list Z :=
  Eval vm_compute in (λ p, Z.land (Z.sqrt (p * 2 ^ 64)) mask) <$> take 8 primes.

Record state := mkState { a : Z; b : Z; c : Z; d : Z; e : Z; f : Z; g : Z; h : Z }.

Definition init : state :=
  let at_ i := nth i H0 0 in
  mkState (at_ 0%nat) (at_ 1%nat) (at_ 2%nat) (at_ 3%nat) (at_ 4%nat) (at_ 5%nat) (at_ 6%nat) (at_ 7%nat).

(** The message followed by a one bit, zeros, and its length in bits as 64 bits. *)
Definition be_bytes (n : nat) (z : Z) : bytes :=
  (λ i : nat, Z.land (Z.shiftr z (8 * Z.of_nat (n - 1 - i))) 255) <$> seq 0 n.

Definition pad (m : bytes) : bytes :=
  let len := Z.of_nat (length m) in
  m ++ 128 :: replicate (Z.to_nat ((55 - len) mod 64)) 0 ++ be_bytes 8 (8 * len).

Fixpoint words (n : nat) (l : bytes) : list Z :=
  match n with
  | O => []
  | S n' =>
      let w := foldl (λ acc b, Z.lor (Z.shiftl acc 8) b) 0 (take 4 l) in
      w :: words n' (drop 4 l)
  end.

(** The message schedule, newest word first. *)
Fixpoint expand (n : nat) (rev_w : list Z) : list Z :=
  match n with
  | O => rev_w
  | S n' =>
      let at_ i := nth i rev_w 0 in
      let w := add (add (ssig1 (at_ 1%nat)) (at_ 6%nat)) (add (ssig0 (at_ 14%nat)) (at_ 15%nat)) in
      expand n' (w :: rev_w)
  end.

Definition round (s : state) (kw : Z * Z) : state :=
  let t1 := add (add (add (h s) (bsig1 (e s))) (Ch (e s) (f s) (g s))) (add kw.1 kw.2) in
  let t2 := add (bsig0 (a s)) (Maj (a s) (b s) (c s)) in
  mkState (add t1 t2) (a s) (b s) (c s) (add (d s) t1) (e s) (f s) (g s).

Definition block (s : state) (l : bytes) : state :=
  let w := reverse (expand 48 (reverse (words 16 l))) in
  let s' := foldl round s (zip K w) in
  mkState (add (a s) (a s')) (add (b s) (b s')) (add (c s) (c s')) (add (d s) (d s'))
          (add (e s) (e s')) (add (f s) (f s')) (add (g s) (g s')) (add (h s) (h s')).

Fixpoint blocks (n : nat) (s : state) (l : bytes) : state :=
  match n with
  | O => s
  | S n' => blocks n' (block s (take 64 l)) (drop 64 l)
  end.

(** [sha256.Sum256]. *)
Definition sum (m : bytes) : bytes :=
  let p := pad m in
  let s := blocks (Nat.div (length p) 64) init p in
  be_bytes 4 (a s) ++ be_bytes 4 (b s) ++ be_bytes 4 (c s) ++ be_bytes 4 (d s)
  ++ be_bytes 4 (e s) ++ be_bytes 4 (f s) ++ be_bytes 4 (g s) ++ be_bytes 4 (h s).
End SHA256.

(** ** HMAC-SHA256: [hmac.New(sha256.New, key)], written to and summed. *)
Definition hmac_sha256 (key msg : bytes) : bytes :=
  let key := if (64 <? length key)%nat then SHA256.sum key else key in
  let k := resize 64 0 key in
  SHA256.sum ((Z.lxor 0x5c <$> k) ++ SHA256.sum ((Z.lxor 0x36 <$> k) ++ msg)).

(** ** Encodings *)

Definition hex_digit (n : Z) : ascii := char_of (if n <? 10 then 48 + n else 87 + n).

(** [hex.EncodeToString]. *)
Fixpoint hex_EncodeToString (l : bytes) : string :=
  match l with
  | [] => EmptyString
  | b :: l' => String (hex_digit (Z.shiftr b 4)) (String (hex_digit (Z.land b 15))
                 (hex_EncodeToString l'))
  end.

(** The character of a six-bit value in the URL alphabet. *)
Definition base64_char (n : Z) : ascii :=
  char_of (if n <? 26 then 65 + n
           else if n <? 52 then 71 + n
           else if n <? 62 then n - 4
           else if n =? 62 then 45 else 95).

(** [base64.RawURLEncoding.EncodeToString]: three bytes at a time, no padding. *)
Fixpoint base64_EncodeToString (l : bytes) : string :=
  match l with
  | [] => EmptyString
  | [x] => String (base64_char (Z.shiftr x 2))
             (String (base64_char (Z.shiftl (Z.land x 3) 4)) EmptyString)
  | [x; y] => String (base64_char (Z.shiftr x 2))
                (String (base64_char (Z.lor (Z.shiftl (Z.land x 3) 4) (Z.shiftr y 4)))
                  (String (base64_char (Z.shiftl (Z.land y 15) 2)) EmptyString))
  | x :: y :: z :: l' =>
      String (base64_char (Z.shiftr x 2))
        (String (base64_char (Z.lor (Z.shiftl (Z.land x 3) 4) (Z.shiftr y 4)))
          (String (base64_char (Z.lor (Z.shiftl (Z.land y 15) 2) (Z.shiftr z 6)))
            (String (base64_char (Z.land z 63)) (base64_EncodeToString l'))))
  end.

(** ** Published test vectors *)

Example sha256_abc :
  hex_EncodeToString (SHA256.sum (bytes_of "abc"))
  = "ba7816bf8f01cfea414140de5dae2223b00361a396177a9cb410ff61f20015ad"%string.
Proof. vm_compute. reflexivity. Qed.

Example sha256_two_blocks :
  hex_EncodeToString (SHA256.sum
    (bytes_of "abcdbcdecdefdefgefghfghighijhijkijkljklmklmnlmnomnopnopq"))
  = "248d6a61d20638b8e5c026930c3e6039a33ce45964ff2167f6ecedd419db06c1"%string.
Proof. vm_compute. reflexivity. Qed.

Example hmac_jefe :
  hex_EncodeToString (hmac_sha256 (bytes_of "Jefe") (bytes_of "what do ya want for nothing?"))
  = "5bdcc146bf60754e6a042426089575c75a003f089d2739839dec58b964ec3843"%string.
Proof. vm_compute. reflexivity. Qed.

Example base64_vectors :
  (base64_EncodeToString (bytes_of "fo"), base64_EncodeToString (bytes_of "foobar"),
   base64_EncodeToString [251; 255])
  = ("Zm8", "Zm9vYmFy", "-_8")%string.
Proof. vm_compute. reflexivity. Qed.

(** ** Lemmas *)

Lemma bytes_of_length s : length (bytes_of s) = String.length s.
Proof. induction s as [|c s IH]; simpl; [done|by rewrite IH]. Qed.

Lemma bytes_of_inj s s' : bytes_of s = bytes_of s' → s = s'.
Proof.
  revert s'. induction s as [|c s IH]; intros [|c' s']; simpl; try done.
  intros [= Hc Hs]. rewrite (IH s' Hs). f_equal.
  rewrite <- (ascii_N_embedding c), <- (ascii_N_embedding c'). f_equal. lia.
Qed.

Lemma hex_length l : String.length (hex_EncodeToString l) = (2 * length l)%nat.
Proof. induction l as [|b l IH]; simpl; [done|]. rewrite IH. lia. Qed.

Lemma sha256_length m : length (SHA256.sum m) = 32%nat.
Proof. unfold SHA256.sum. by rewrite !length_app. Qed.

Lemma base64_length l :
  String.length (base64_EncodeToString l) = Nat.div (4 * length l + 2) 3.
Proof.
  assert (∀ n l, (length l ≤ n)%nat →
            String.length (base64_EncodeToString l) = Nat.div (4 * length l + 2) 3) as Hn; [|by eapply Hn].
  induction n as [|n IH]; intros [|x [|y [|z l']]] Hl; simpl in Hl; try lia; try done.
  cbn [base64_EncodeToString String.length length]. rewrite IH by lia.
  replace (4 * S (S (S (length l'))) + 2)%nat with (4 * length l' + 2 + 4 * 3)%nat by lia.
  rewrite Nat.div_add by lia. lia.
Qed.

(** *** Base64 text is printable *)

Definition is_byte_value (b : Z) : Prop := 0 ≤ b < 256.

Lemma six_bits_char n : 0 ≤ n < 64 → 32 < Z.of_N (N_of_ascii (base64_char n)) < 128.
Proof.
  intros Hn.
  assert (∀ m : nat, (m < 64)%nat →
    (32 <? Z.of_N (N_of_ascii (base64_char (Z.of_nat m))))
    && (Z.of_N (N_of_ascii (base64_char (Z.of_nat m))) <? 128) = true) as Hm.
  { assert (forallb (λ m : nat,
      (32 <? Z.of_N (N_of_ascii (base64_char (Z.of_nat m))))
      && (Z.of_N (N_of_ascii (base64_char (Z.of_nat m))) <? 128)) (seq 0 64) = true) as Hf
      by (vm_compute; reflexivity).
    rewrite forallb_forall in Hf. intros m Hlt. apply Hf, in_seq. lia. }
  specialize (Hm (Z.to_nat n) ltac:(lia)). rewrite Z2Nat.id in Hm by lia. lia.
Qed.

Lemma lor_bound a b n : 0 ≤ n → 0 ≤ a < 2 ^ n → 0 ≤ b < 2 ^ n → 0 ≤ Z.lor a b < 2 ^ n.
Proof.
  intros Hn [Ha Ha'] [Hb Hb']. split; [by apply Z.lor_nonneg|].
  destruct (decide (Z.lor a b = 0)) as [->|Hne]; [by apply Z.pow_pos_nonneg|].
  apply Z.log2_lt_pow2; [pose proof (proj2 (Z.lor_nonneg a b) (conj Ha Hb)); lia|].
  rewrite Z.log2_lor by done. apply Z.max_lub_lt.
  - destruct (decide (a = 0)) as [->|]; [|apply Z.log2_lt_pow2; lia].
    destruct (decide (n = 0)) as [->|]; [|simpl; lia]. assert (b = 0) as -> by lia. done.
  - destruct (decide (b = 0)) as [->|]; [|apply Z.log2_lt_pow2; lia].
    destruct (decide (n = 0)) as [->|]; [|simpl; lia]. assert (a = 0) as -> by lia. done.
Qed.

Lemma land_shiftl_bound x m k :
  0 ≤ m → 0 ≤ k → is_byte_value x → 0 ≤ Z.shiftl (Z.land x (Z.ones m)) k < 2 ^ (m + k).
Proof.
  intros Hm Hk [Hx _]. rewrite Z.land_ones, Z.shiftl_mul_pow2 by done.
  assert (0 < 2 ^ m) by by apply Z.pow_pos_nonneg. assert (0 < 2 ^ k) by by apply Z.pow_pos_nonneg.
  pose proof (Z.mod_pos_bound x (2 ^ m)). rewrite Z.pow_add_r by done. nia.
Qed.

Definition printable (s : string) : Prop := Forall (λ b, 32 < b < 128) (bytes_of s).

Lemma base64_printable l : Forall is_byte_value l → printable (base64_EncodeToString l).
Proof.
  assert (∀ x k, is_byte_value x → 2 ≤ k ≤ 8 → 0 ≤ Z.shiftr x k < 64) as Hshr.
  { intros x k Hx Hk. unfold is_byte_value in Hx. rewrite Z.shiftr_div_pow2 by lia.
    split; [apply Z.div_pos; [lia|apply Z.pow_pos_nonneg; lia]|].
    assert (2 ^ 2 ≤ 2 ^ k) by (apply Z.pow_le_mono_r; lia).
    apply Z.div_lt_upper_bound; [apply Z.pow_pos_nonneg; lia|]. change (2 ^ 2) with 4 in *. lia. }
  assert (∀ x, is_byte_value x → 0 ≤ Z.shiftl (Z.land x 3) 4 < 2 ^ 6) as H3.
  { intros x Hx. apply (land_shiftl_bound x 2 4); [lia|lia|done]. }
  assert (∀ x, is_byte_value x → 0 ≤ Z.shiftl (Z.land x 15) 2 < 2 ^ 6) as H15.
  { intros x Hx. apply (land_shiftl_bound x 4 2); [lia|lia|done]. }
  assert (∀ x, is_byte_value x → 0 ≤ Z.land x 63 < 64) as H63.
  { intros x Hx. pose proof (land_shiftl_bound x 6 0 ltac:(lia) ltac:(lia) Hx) as Hb.
    rewrite Z.shiftl_0_r in Hb. exact Hb. }
  assert (∀ a b, 0 ≤ a < 2 ^ 6 → 0 ≤ b < 64 → 0 ≤ Z.lor a b < 64) as Hlor.
  { intros a b Ha Hb. apply (lor_bound a b 6); [lia|done|done]. }
  assert (∀ n l, (length l ≤ n)%nat → Forall is_byte_value l → printable (base64_EncodeToString l))
    as Hn; [|by eapply Hn].
  unfold printable. induction n as [|n IH]; intros [|x [|y [|z l']]] Hl Hb; simpl in Hl; try lia.
  all: decompose_Forall_hyps; cbn [base64_EncodeToString bytes_of].
  all: repeat (apply Forall_cons; split; [apply six_bits_char; auto with lia|]).
  all: try by apply Forall_nil.
  all: try (apply IH; [lia|done]).
Qed.
