(* ===== verification/Models.v ===== *)
(** * Domain types ([internal/models]) *)
From S2P Require Import Prelude GoStd.
Open Scope Z_scope.

(** ** UUIDs: the 16 bytes of a [uuid.UUID], read as a number; [uuid.Nil] is zero. *)
Definition uuid : Type := N.
Definition uuid_Nil : uuid := 0%N.

#[export] Instance uuid_eq_dec : EqDecision uuid := N.eq_dec.
#[export] Instance uuid_countable : Countable uuid := _.
#[export] Instance uuid_inhabited : Inhabited uuid := populate uuid_Nil.

(** ** Job status *)

Definition Status : Type := string.
Definition StatusPending : Status := "pending".
Definition StatusProcessing : Status := "processing".
Definition StatusCompleted : Status := "completed".
Definition StatusFailed : Status := "failed".
Definition StatusCancelled : Status := "cancelled".
Definition StatusDeadLetter : Status := "dead_letter".

#[export] Instance Status_eq_dec : EqDecision Status := String.eq_dec.

Definition AllStatuses : list Status :=
  [StatusPending; StatusProcessing; StatusCompleted; StatusFailed; StatusCancelled].

(** [Status.Valid]: the loop over [AllStatuses]. *)
Definition Valid (s : Status) : bool :=
  existsb (λ v, bool_decide (s = v)) AllStatuses.

(** ** Records: one per table. A nil pointer is [None]. *)

Module Job.
Record Job := mkJob {
  ID : uuid;
  TenantID : uuid;
  QueueName : string;
  JobType : string;
  Payload : RawMessage;
  Status : Status;
  Result : RawMessage;
  ErrorMessage : option string;
  RetryCount : Z;
  MaxRetries : Z;
  ScheduledAt : option Z;
  StartedAt : option Z;
  CompletedAt : option Z;
  CreatedAt : Z;
  UpdatedAt : Z;
}.
End Job.
Abbreviation Job := Job.Job.

Module JobSchedule.
Record JobSchedule := mkJobSchedule {
  ID : uuid;
  TenantID : uuid;
  JobType : string;
  Payload : RawMessage;
  CronExpression : string;
  Enabled : bool;
  LastRunAt : option Z;
  NextRunAt : Z;
  CreatedAt : Z;
}.
End JobSchedule.
Abbreviation JobSchedule := JobSchedule.JobSchedule.

Module Tenant.
Record Tenant := mkTenant { ID : uuid; Name : string; CreatedAt : Z }.
End Tenant.
Abbreviation Tenant := Tenant.Tenant.

Module User.
Record User := mkUser {
  ID : uuid; TenantID : uuid; Email : string; PasswordHash : string; CreatedAt : Z
}.
End User.
Abbreviation User := User.User.

Module APIKey.
Record APIKey := mkAPIKey {
  ID : uuid; TenantID : uuid; Name : string; KeyHash : string; KeyPrefix : string;
  LastUsedAt : option Z; CreatedAt : Z
}.
End APIKey.
Abbreviation APIKey := APIKey.APIKey.

