(* ===== verification/Float64.v ===== *)
(** * Go's [float64] where it is computed with

    IEEE 754 binary64 arithmetic, from the Standard Library's specification of floating point
    on integers; used for the two rates of the statistics endpoint and for
    the latencies of the metrics. *)
From S2P Require Import Prelude.
From Stdlib Require Import SpecFloat.
Open Scope Z_scope.

Definition float64 : Type := spec_float.

(** [float64(n)], [x + y], [x * y], [x / y], rounded to nearest, ties to even; [x < y],
    [x <= y]. *)
Definition f64_of_Z (n : Z) : float64 := binary_normalize 53 1024 n 0 false.
Definition f64_mul : float64 → float64 → float64 := SFmul 53 1024.
Definition f64_div : float64 → float64 → float64 := SFdiv 53 1024.
Definition f64_add : float64 → float64 → float64 := SFadd 53 1024.
Definition f64_ltb : float64 → float64 → bool := SFltb.
Definition f64_leb : float64 → float64 → bool := SFleb.
Definition f64_zero : float64 := S754_zero false.

(** [math.Round]: to the nearest integer, halves away from zero; the sign of a zero stays. *)
Definition math_Round (x : float64) : float64 :=
  match x with
  | S754_finite s m e =>
      if 0 <=? e then x
      else
        let n := Z.shiftr (Z.pos m + Z.shiftl 1 (- e - 1)) (- e) in
        if n =? 0 then S754_zero s else f64_of_Z (if s then - n else n)
  | _ => x
  end.

(** [math.Pow(10, float64(places))] for the small [places] it is called with: exact. *)
Definition math_Pow10 (places : Z) : float64 := f64_of_Z (10 ^ places).

(** The value of a finite number, times [10 ^ places], when that is an integer. *)
Definition f64_scaled (x : float64) (places : Z) : option Z :=
  match x with
  | S754_zero _ => Some 0
  | S754_finite s m e =>
      let n := (if s then - Z.pos m else Z.pos m) * 10 ^ places in
      if 0 <=? e then Some (Z.shiftl n e)
      else if Z.land n (Z.ones (- e)) =? 0 then Some (Z.shiftr n (- e)) else None
  | _ => None
  end.

Example math_Round_examples :
  (math_Round (f64_div (f64_of_Z 1) (f64_of_Z 2)), math_Round (f64_div (f64_of_Z (-5)) (f64_of_Z 2)),
   math_Round (f64_div (f64_of_Z 7) (f64_of_Z 3)))
  = (f64_of_Z 1, f64_of_Z (-3), f64_of_Z 2).
Proof. vm_compute. reflexivity. Qed.
