(* ===== verification/Float64Facts.v ===== *)
(** * Rounding: the operations of [Float64] in range

    A result in the normal range has 53 bits and is less than one unit in the last place from
    the exact value; an integer of at most 53 bits is exact. *)
From S2P Require Import Prelude Float64.
From Stdlib Require Import SpecFloat.
Open Scope Z_scope.

(** A positive number with all its 53 bits, its exponent far from the ends of the range. *)
Definition normal (m e : Z) : Prop := 2 ^ 52 ≤ m < 2 ^ 53 ∧ -1000 ≤ e ≤ 900.

(** ** Digits and shifts *)

Lemma digits2_log2 p : Zpos (digits2_pos p) = Z.log2 (Zpos p) + 1.
Proof.
  induction p as [p IH|p IH|]; [| |done]; cbn [digits2_pos]; rewrite Pos2Z.inj_succ, IH.
  - rewrite (Pos2Z.inj_xI p), Z.log2_succ_double by lia. lia.
  - rewrite (Pos2Z.inj_xO p), Z.log2_double by lia. lia.
Qed.

Lemma Zdigits2_log2 m : 0 < m → Zdigits2 m = Z.log2 m + 1.
Proof. destruct m; [lia| |lia]. intros _. apply digits2_log2. Qed.

Lemma log2_53 m : 2 ^ 52 ≤ m < 2 ^ 53 → Z.log2 m = 52.
Proof. intros Hm. apply Z.log2_unique; [lia|]. exact Hm. Qed.

Lemma fexp_normal e : -1021 ≤ e → fexp 53 1024 e = e - 53.
Proof. intros He. unfold fexp, emin. lia. Qed.

Lemma shr_1_m mrs : 0 ≤ shr_m mrs → shr_m (shr_1 mrs) = shr_m mrs / 2.
Proof.
  destruct mrs as [[|p|p] r s]; cbn [shr_m]; intros Hm; [done| |lia].
  destruct p as [p|p|]; cbn [shr_1 shr_m].
  - rewrite Pos2Z.inj_xI, Z.add_comm, Z.mul_comm, Z.div_add by done. done.
  - by rewrite Pos2Z.inj_xO, Z.mul_comm, Z.div_mul.
  - done.
Qed.

Lemma iter_pos_shr n mrs :
  0 ≤ shr_m mrs → shr_m (iter_pos shr_1 n mrs) = shr_m mrs / 2 ^ Zpos n.
Proof.
  assert (∀ a n, 0 ≤ a → 0 ≤ a / 2 ^ Zpos n) as Hpos.
  { intros. apply Z.div_pos; [done|]. by apply Z.pow_pos_nonneg. }
  revert mrs. induction n as [n IH|n IH|]; intros mrs Hm; cbn [iter_pos].
  - pose proof (shr_1_m mrs Hm) as E. assert (0 ≤ shr_m (shr_1 mrs)) by (rewrite E; by apply (Hpos _ xH)).
    rewrite IH; rewrite IH; auto. rewrite E, !Z.div_div by lia. f_equal.
    rewrite Pos2Z.inj_xI, Z.pow_add_r, (Z.mul_comm 2 (Zpos n)), Z.pow_mul_r, Z.pow_2_r by lia. lia.
  - rewrite IH; rewrite IH; auto. rewrite Z.div_div by lia.
    f_equal. rewrite <- Z.pow_add_r by lia. f_equal. lia.
  - by apply shr_1_m.
Qed.

Lemma shr_spec mrs e n :
  0 ≤ shr_m mrs → 0 ≤ n → shr_m (shr mrs e n).1 = shr_m mrs / 2 ^ n ∧ (shr mrs e n).2 = e + n.
Proof.
  intros Hm Hn. destruct n as [|n|n]; cbn [shr fst snd]; [|split; [by apply iter_pos_shr|done]|lia].
  rewrite Z.pow_0_r, Z.div_1_r. lia.
Qed.

Lemma shr_record_m m l : shr_m (shr_record_of_loc m l) = m.
Proof. by destruct l as [|[]]. Qed.

(** The shift that leaves 53 digits. *)
Lemma shr_fexp_spec m e l :
  0 < m → 52 ≤ Z.log2 m → -1021 ≤ Z.log2 m + 1 + e →
  shr_m (shr_fexp 53 1024 m e l).1 = m / 2 ^ (Z.log2 m - 52)
  ∧ (shr_fexp 53 1024 m e l).2 = e + (Z.log2 m - 52).
Proof.
  intros Hm Hlog He. unfold shr_fexp. rewrite Zdigits2_log2, fexp_normal by lia.
  replace (Z.log2 m + 1 + e - 53 - e) with (Z.log2 m - 52) by lia.
  destruct (shr_spec (shr_record_of_loc m l) e (Z.log2 m - 52)) as [E ?]; [rewrite shr_record_m; lia|lia|].
  by rewrite E, shr_record_m.
Qed.

(** The shift of a number of 53 digits moves nothing. *)
Lemma shr_fexp_53 m e l :
  normal m e → shr_fexp 53 1024 m e l = (shr_record_of_loc m l, e).
Proof.
  intros [Hm He]. unfold shr_fexp. rewrite Zdigits2_log2, log2_53, fexp_normal by lia.
  by replace (52 + 1 + e - 53 - e) with 0 by lia.
Qed.

Lemma round_nearest_even_le m l :
  round_nearest_even m l = m ∨ round_nearest_even m l = m + 1.
Proof. destruct l as [|[]]; simpl; auto. destruct (Z.even m); auto. Qed.

(** ** Rounding *)

(** The nearest of the two neighbours, or the other one: [m 2^n] is less than one unit [2^n] away
    from [v], and is [v] when [n] is 0 and [v] exact. *)
Definition rounds_to (v n m : Z) : Prop := (m - 1) * 2 ^ n ≤ v ∧ v + 1 ≤ (m + 1) * 2 ^ n.

Lemma binary_round_aux_spec v e l :
  2 ^ 52 ≤ v → -900 ≤ e → e + Z.log2 v ≤ 900 →
  ∃ m n, binary_round_aux 53 1024 false v e l = S754_finite false m (e + n)
    ∧ 0 ≤ n ∧ normal (Zpos m) (e + n) ∧ rounds_to v n (Zpos m).
Proof.
  intros Hv He Htop. assert (52 ≤ Z.log2 v) as Hlog by (apply Z.log2_le_pow2; lia).
  pose proof (Z.log2_spec v ltac:(lia)) as Hpow.
  set (n := Z.log2 v - 52) in *. assert (0 < 2 ^ n) as Hn by (apply Z.pow_pos_nonneg; lia).
  assert (2 ^ Z.log2 v = 2 ^ 52 * 2 ^ n) as E1 by (rewrite <- Z.pow_add_r by lia; f_equal; lia).
  assert (2 ^ Z.succ (Z.log2 v) = 2 ^ 53 * 2 ^ n) as E2 by (rewrite <- Z.pow_add_r by lia; f_equal; lia).
  set (q := v / 2 ^ n). assert (2 ^ 52 ≤ q < 2 ^ 53) as Hq.
  { split; [apply Z.div_le_lower_bound|apply Z.div_lt_upper_bound]; lia. }
  pose proof (Z.mul_div_le v (2 ^ n) Hn) as Hlow. pose proof (Z.mul_succ_div_gt v (2 ^ n) Hn) as Hup.
  fold q in Hlow, Hup.
  unfold binary_round_aux. destruct (shr_fexp_spec v e l) as [Em Ee]; [lia..|].
  destruct (shr_fexp 53 1024 v e l) as [mrs e1]. cbn [fst snd] in Em, Ee. subst e1.
  change (shr_m mrs = q) in Em. fold n.
  rewrite Em. set (q' := round_nearest_even q _).
  assert (q' = q ∨ q' = q + 1) as Hq' by apply round_nearest_even_le. clearbody q'.
  destruct (decide (q' = 2 ^ 53)) as [->|Hne].
  - exists (2 ^ 52)%positive, (n + 1). assert (q = 2 ^ 53 - 1) as Eq by lia.
    assert (shr_fexp 53 1024 (2 ^ 53) (e + n) loc_Exact
            = (shr (shr_record_of_loc (2 ^ 53) loc_Exact) (e + n) 1)) as ->.
    { unfold shr_fexp. rewrite Zdigits2_log2, Z.log2_pow2, fexp_normal by lia. f_equal. lia. }
    cbn [shr iter_pos shr_record_of_loc]. change (shr_m (shr_1 _)) with (2 ^ 52). cbn -[Z.pow Z.add Z.leb Pos.pow].
    rewrite (proj2 (Z.leb_le _ _)) by lia. split_and!; [f_equal; lia|lia|split; lia|].
    unfold rounds_to. rewrite Z.pow_add_r by lia. change (Zpos (2 ^ 52)) with (2 ^ 52).
    rewrite Eq in *. nia.
  - rewrite shr_fexp_53 by (split; lia). rewrite shr_record_m. destruct q' as [|m|m]; [lia| |lia].
    rewrite (proj2 (Z.leb_le _ _)) by lia. exists m, n. split_and!; [done|lia|split; lia|].
    unfold rounds_to. nia.
Qed.

(** ** The operations *)

Lemma iter_xO m d : Zpos (Pos.iter xO m d) = Zpos m * 2 ^ Zpos d.
Proof.
  induction d as [|d IH] using Pos.peano_ind.
  - change (Pos.iter xO m 1) with (xO m). rewrite Pos2Z.inj_xO. lia.
  - rewrite Pos.iter_succ, Pos2Z.inj_xO, IH, Pos2Z.inj_succ, Z.pow_succ_r by lia. lia.
Qed.

(** An integer of at most 53 bits. *)
Lemma f64_of_Z_spec z :
  0 < z < 2 ^ 53 →
  ∃ m a, f64_of_Z z = S754_finite false m (- a) ∧ 0 ≤ a ≤ 52 ∧ Zpos m = z * 2 ^ a
       ∧ 2 ^ 52 ≤ Zpos m < 2 ^ 53.
Proof.
  intros Hz. destruct z as [|p|p]; [lia| |lia]. unfold f64_of_Z. cbn [binary_normalize].
  unfold binary_round. rewrite digits2_log2.
  assert (0 ≤ Z.log2 (Zpos p) ≤ 52) as Hlog.
  { split; [apply Z.log2_nonneg|]. apply Z.lt_succ_r, Z.log2_lt_pow2; lia. }
  pose proof (Z.log2_spec (Zpos p) ltac:(lia)) as Hpow.
  rewrite fexp_normal by lia. remember (52 - Z.log2 (Zpos p)) as a eqn:Ea.
  replace (Z.log2 (Zpos p) + 1 + 0 - 53) with (- a) by lia.
  assert (∃ m, shl_align p 0 (- a) = (m, - a) ∧ Zpos m = Zpos p * 2 ^ a) as (m & -> & Em).
  { unfold shl_align. rewrite Z.sub_0_r. destruct a as [|a|a]; [exists p|exists (Pos.iter xO p a)|lia].
    - split; [done|lia].
    - split; [done|apply iter_xO]. }
  assert (2 ^ 52 ≤ Zpos m < 2 ^ 53) as Hm.
  { assert (2 ^ Z.log2 (Zpos p) * 2 ^ a = 2 ^ 52) as E1 by (rewrite <- Z.pow_add_r by lia; f_equal; lia).
    rewrite Z.pow_succ_r in Hpow by lia. assert (0 < 2 ^ a) by (apply Z.pow_pos_nonneg; lia). nia. }
  exists m, a. split; [|split_and!; lia].
  assert (normal (Zpos m) (- a)) as Hn by (split; lia).
  unfold binary_round_aux. rewrite shr_fexp_53 by done. cbn [shr_record_of_loc shr_m loc_of_shr_record round_nearest_even].
  rewrite shr_fexp_53 by done. cbn [shr_record_of_loc shr_m]. by rewrite (proj2 (Z.leb_le _ _)) by lia.
Qed.

(** Less than [2 ^ -51] of relative error. *)
Definition near (x y : Z) : Prop := Z.abs (x - y) * 2 ^ 51 ≤ y.

Lemma near_ulp m u y :
  2 ^ 52 ≤ m → 0 ≤ u → (m - 1) * u ≤ y → y ≤ (m + 1) * u → near (m * u) y.
Proof.
  intros Hm Hu Hl Hr. unfold near. assert (2 ^ 51 * u ≤ y) by nia.
  assert (Z.abs (m * u - y) ≤ u) by lia. nia.
Qed.

Lemma f64_mul_spec m1 e1 m2 e2 :
  normal (Zpos m1) e1 → normal (Zpos m2) e2 → -900 ≤ e1 + e2 ≤ 700 →
  ∃ m n, f64_mul (S754_finite false m1 e1) (S754_finite false m2 e2) = S754_finite false m (e1 + e2 + n)
    ∧ 0 ≤ n ∧ normal (Zpos m) (e1 + e2 + n) ∧ near (Zpos m * 2 ^ n) (Zpos m1 * Zpos m2).
Proof.
  intros [Hm1 _] [Hm2 _] He. unfold f64_mul. cbn [SFmul xorb].
  assert (Z.log2 (Zpos m1 * Zpos m2) ≤ 105) as Hlog.
  { apply Z.lt_succ_r, Z.log2_lt_pow2; [lia|]. change (2 ^ Z.succ 105) with (2 ^ 53 * 2 ^ 53). nia. }
  rewrite Pos2Z.inj_mul.
  destruct (binary_round_aux_spec (Zpos m1 * Zpos m2) (e1 + e2) loc_Exact) as (m & n & -> & Hn & Hnorm & Hr & Hr');
    [nia|lia..|].
  exists m, n. split_and!; [done..|]. destruct Hnorm. apply near_ulp; lia.
Qed.

Lemma f64_div_spec m1 e1 m2 e2 :
  normal (Zpos m1) e1 → normal (Zpos m2) e2 → -800 ≤ e1 - e2 ≤ 700 →
  ∃ m n, f64_div (S754_finite false m1 e1) (S754_finite false m2 e2)
         = S754_finite false m (e1 - e2 - 53 + n)
    ∧ 0 ≤ n ∧ normal (Zpos m) (e1 - e2 - 53 + n)
    ∧ near (Zpos m * (2 ^ n * Zpos m2)) (Zpos m1 * 2 ^ 53).
Proof.
  intros [Hm1 _] [Hm2 _] He. unfold f64_div. cbn [SFdiv xorb]. unfold SFdiv_core_binary.
  rewrite !Zdigits2_log2, !log2_53, fexp_normal by lia.
  replace (Z.min _ _) with (e1 - e2 - 53) by lia.
  replace (e1 - e2 - (e1 - e2 - 53)) with 53 by lia. rewrite Z.shiftl_mul_pow2 by lia.
  set (v := Zpos m1 * 2 ^ 53).
  pose proof (Z.div_eucl_eq v (Zpos m2) ltac:(lia)) as Ev.
  pose proof (Z.mod_pos_bound v (Zpos m2) ltac:(lia)) as Hr. unfold Z.modulo in Hr.
  destruct (Z.div_eucl v (Zpos m2)) as [q r]. set (l := new_location _ _).
  assert (2 ^ 52 ≤ q < 2 ^ 54) as Hq by (subst v; nia).
  assert (Z.log2 q ≤ 53) as Hlog by (apply Z.lt_succ_r, Z.log2_lt_pow2; lia).
  destruct (binary_round_aux_spec q (e1 - e2 - 53) l) as (m & n & -> & Hn & Hnorm & Hlow & Hup); [lia..|].
  exists m, n. split_and!; [done..|]. destruct Hnorm.
  assert (0 < 2 ^ n) by (apply Z.pow_pos_nonneg; lia). apply near_ulp; [lia|nia|nia|nia].
Qed.

(** [math.Round] of a number that is not an integer of itself: half a unit away at most. *)
Lemma math_Round_spec m e :
  e < 0 →
  ∃ k, math_Round (S754_finite false m e) = f64_of_Z k ∧ 0 ≤ k
     ∧ 2 * Z.abs (k * 2 ^ (- e) - Zpos m) ≤ 2 ^ (- e).
Proof.
  intros He. unfold math_Round. rewrite (proj2 (Z.leb_gt _ _)) by lia. cbv zeta.
  assert (0 < 2 ^ (- e)) as Hp by (apply Z.pow_pos_nonneg; lia).
  assert (2 ^ (- e) = 2 * 2 ^ (- e - 1)) as E by (rewrite <- Z.pow_succ_r by lia; f_equal; lia).
  rewrite Z.shiftl_mul_pow2, Z.mul_1_l, Z.shiftr_div_pow2 by lia.
  set (k := (Zpos m + 2 ^ (- e - 1)) / 2 ^ (- e)). exists k. split_and!.
  - destruct (Z.eqb_spec k 0) as [->|]; done.
  - apply Z.div_pos; lia.
  - pose proof (Z.mul_div_le (Zpos m + 2 ^ (- e - 1)) (2 ^ (- e)) Hp) as Hl.
    pose proof (Z.mul_succ_div_gt (Zpos m + 2 ^ (- e - 1)) (2 ^ (- e)) Hp) as Hu.
    fold k in Hl, Hu. lia.
Qed.

(** Errors add up; a common factor does not matter. *)
Lemma near_scale c x y : 0 < c → near (x * c) (y * c) ↔ near x y.
Proof.
  intros Hc. unfold near. rewrite <- Z.mul_sub_distr_r, Z.abs_mul, (Z.abs_eq c) by lia.
  rewrite (Z.mul_comm y). split; nia.
Qed.

Lemma near_trans x y z : 0 ≤ z → near x y → near y z → Z.abs (x - z) * 2 ^ 49 ≤ z.
Proof. unfold near. lia. Qed.

(** ** A ratio, scaled and rounded *)

Lemma nearest_integer s y z F k :
  0 < F → 0 ≤ z ≤ 2 ^ 47 → 0 ≤ y → Z.abs (s * y - z * F) * 2 ^ 49 ≤ z * F →
  2 * Z.abs (k * F - s) ≤ F → 2 * Z.abs (k * y - z) ≤ y.
Proof.
  intros HF Hz Hy Hs Hk. set (D := Z.abs (s * y - z * F)) in *.
  assert (4 * D ≤ F) as HD by nia.
  assert (2 * Z.abs (k * F * y - s * y) ≤ F * y) as H1.
  { rewrite <- Z.mul_sub_distr_r, Z.abs_mul, (Z.abs_eq y) by done. nia. }
  assert (2 * (Z.abs (k * y - z) * F) ≤ F * y + 2 * D) as H2.
  { rewrite <- (Z.abs_eq F) at 1 by lia. rewrite <- Z.abs_mul. subst D.
    replace ((k * y - z) * F) with (k * F * y - s * y + (s * y - z * F)) by lia. lia. }
  nia.
Qed.

Lemma ratio_in_range s x y c u k :
  0 < x ≤ y → 0 < c ≤ 2 ^ 15 → 1 ≤ u → 0 < k → 2 ^ 52 ≤ s →
  ¬ Z.abs (s * y * (u * k) - c * x * k) * 2 ^ 49 ≤ c * x * k.
Proof.
  intros Hx Hc Hu Hk Hs Hle. assert (c * x ≤ 2 ^ 15 * y) as H1 by (apply Z.mul_le_mono_nonneg; lia).
  assert (c * x * k ≤ 2 ^ 15 * y * k) as H2 by (apply Z.mul_le_mono_nonneg_r; lia).
  assert (2 ^ 52 * 1 ≤ s * u) as H3 by (apply Z.mul_le_mono_nonneg; lia).
  assert (0 < y * k) as H4 by (apply Z.mul_pos_pos; lia).
  assert (2 ^ 52 * 1 * (y * k) ≤ s * u * (y * k)) as H5 by (apply Z.mul_le_mono_nonneg_r; lia).
  lia.
Qed.

(** [math.Round] of [x / y * c]: an integer [k] nearest to [c x / y]. *)
Lemma rounded_ratio x y c :
  0 < x ≤ y → y ≤ 2 ^ 32 → 0 < c ≤ 2 ^ 15 →
  ∃ k, math_Round (f64_mul (f64_div (f64_of_Z x) (f64_of_Z y)) (f64_of_Z c)) = f64_of_Z k
     ∧ 0 ≤ k ∧ 2 * Z.abs (k * y - c * x) ≤ y.
Proof.
  intros Hx Hy Hc.
  destruct (f64_of_Z_spec x) as (m1 & a & -> & Ha & Em1 & Hm1); [lia|].
  destruct (f64_of_Z_spec y) as (m2 & b & -> & Hb & Em2 & Hm2); [lia|].
  destruct (f64_of_Z_spec c) as (m3 & g & -> & Hg & Em3 & Hm3); [lia|].
  destruct (f64_div_spec m1 (- a) m2 (- b)) as (r & n & -> & Hn & Hr & Hnear); [split; lia..|lia|].
  set (er := - a - - b - 53 + n) in *.
  assert (n ≤ 2) as Hn2.
  { destruct (Z.le_gt_cases n 2) as [|Hgt]; [done|]. exfalso. unfold near in Hnear.
    assert (2 ^ 3 ≤ 2 ^ n) by (apply Z.pow_le_mono_r; lia). destruct Hr as [Hr _]. nia. }
  destruct (f64_mul_spec r er m3 (- g)) as (s & n' & -> & Hn' & Hs & Hnear'); [done|split; lia|lia|].
  set (es := er + - g + n') in *. set (K := a + 53 + g).
  assert (Z.abs (Zpos s * y * 2 ^ (es + K) - c * x * 2 ^ K) * 2 ^ 49 ≤ c * x * 2 ^ K) as Hratio.
  { assert (0 < 2 ^ n * Zpos m2) as Hf by (apply Z.mul_pos_pos; [apply Z.pow_pos_nonneg|]; lia).
    apply (near_scale (2 ^ n * Zpos m2)) in Hnear'; [|done].
    apply (near_scale (Zpos m3)) in Hnear; [|lia].
    replace (Zpos s * y * 2 ^ (es + K)) with (Zpos s * 2 ^ n' * (2 ^ n * Zpos m2)).
    2: { rewrite Em2. replace (es + K) with (n' + n + b) by lia. rewrite !Z.pow_add_r by lia. lia. }
    replace (c * x * 2 ^ K) with (Zpos m1 * 2 ^ 53 * Zpos m3).
    2: { rewrite Em1, Em3. subst K. rewrite !Z.pow_add_r by lia. lia. }
    eapply near_trans; [lia|exact Hnear'|].
    by replace (Zpos r * Zpos m3 * (2 ^ n * Zpos m2)) with (Zpos r * (2 ^ n * Zpos m2) * Zpos m3) by lia. }
  assert (0 < 2 ^ K) as HK by (apply Z.pow_pos_nonneg; lia).
  assert (0 ≤ c * x ≤ 2 ^ 47) as Hcx by nia.
  assert (es < 0) as Hes.
  { destruct (Z.lt_ge_cases es 0) as [|Hge]; [done|]. exfalso. destruct Hs as [Hs _].
    rewrite Z.pow_add_r in Hratio by lia. assert (1 ≤ 2 ^ es) by (apply (Z.pow_le_mono_r 2 0); lia).
    eapply (ratio_in_range (Zpos s) x y c (2 ^ es) (2 ^ K)); [..|exact Hratio]; lia. }
  destruct (math_Round_spec s es Hes) as (k & -> & Hk & Hround). exists k. split_and!; [done..|].
  apply (nearest_integer (Zpos s) y (c * x) (2 ^ (- es)) k); [by apply Z.pow_pos_nonneg; lia|lia..| |done].
  assert (0 < 2 ^ (es + K)) as HE by (apply Z.pow_pos_nonneg; lia).
  apply (Zmult_le_reg_r _ _ (2 ^ (es + K))); [lia|].
  assert (2 ^ K = 2 ^ (- es) * 2 ^ (es + K)) as EK by (rewrite <- Z.pow_add_r by lia; f_equal; lia).
  rewrite EK in Hratio.
  replace (Zpos s * y * 2 ^ (es + K) - c * x * (2 ^ (- es) * 2 ^ (es + K)))
    with ((Zpos s * y - c * x * 2 ^ (- es)) * 2 ^ (es + K)) in Hratio by lia.
  rewrite Z.abs_mul, (Z.abs_eq (2 ^ (es + K))) in Hratio by lia. lia.
Qed.

(** A ratio below 1 is a float64 between 0 and 1. *)
Lemma proper_ratio x y :
  0 < x < y → y ≤ 2 ^ 32 →
  let r := f64_div (f64_of_Z x) (f64_of_Z y) in
  f64_leb f64_zero r = true ∧ f64_leb r (f64_of_Z 1) = true.
Proof.
  intros Hx Hy.
  destruct (f64_of_Z_spec x) as (m1 & a & -> & Ha & Em1 & Hm1); [lia|].
  destruct (f64_of_Z_spec y) as (m2 & b & -> & Hb & Em2 & Hm2); [lia|].
  destruct (f64_div_spec m1 (- a) m2 (- b)) as (r & n & -> & Hn & [Hr _] & Hnear); [split; lia..|lia|].
  set (e := - a - - b - 53 + n).
  assert (e < -52) as He.
  { destruct (Z.lt_ge_cases e (-52)) as [|Hge]; [done|]. exfalso. unfold near in Hnear.
    assert (0 < 2 ^ a) as Hp by (apply Z.pow_pos_nonneg; lia).
    assert (Zpos r * (2 ^ n * Zpos m2) = Zpos r * y * 2 ^ (n + b)) as E1
      by (rewrite Em2, Z.pow_add_r by lia; lia).
    assert (2 ^ (a + 1) ≤ 2 ^ (n + b)) as H1 by (apply Z.pow_le_mono_r; lia).
    rewrite Z.pow_add_r in H1 by lia.
    assert (2 ^ 52 * y * (2 ^ a * 2 ^ 1) ≤ Zpos r * y * 2 ^ (n + b)) as H2.
    { apply Z.mul_le_mono_nonneg; [lia|apply Z.mul_le_mono_nonneg_r; lia|lia|done]. }
    rewrite E1, Em1 in Hnear. assert (2 ^ 51 * (y - x) * 2 ^ a ≤ x * 2 ^ a) as H3 by lia.
    apply Z.mul_le_mono_pos_r in H3; lia. }
  split; [done|]. change (f64_of_Z 1) with (S754_finite false (2 ^ 52) (-52)).
  unfold f64_leb, SFleb. cbn [SFcompare]. by rewrite (proj2 (Z.compare_lt_iff e (-52))).
Qed.
