(* ===== verification/Interfaces.v ===== *)
(** * The services and libraries the program calls

    Code that is not part of the repository is a parameter of the model: one class per
    service or library, holding the operations the source calls, and a second class with the
    documented behaviour the theorems rely on. The [Ref] modules are concrete instances, used
    by the witnesses. *)
From S2P Require Import Prelude GoStd Models Float64.
From Stdlib Require Import HexString Ascii.
Open Scope Z_scope.

(** ** github.com/google/uuid *)

Class UUIDLib := {
  uuid_String : uuid → string;
  uuid_Parse : string → result uuid;
}.

Class UUIDLaws `{UUIDLib} : Prop := {
  uuid_Parse_String u : uuid_Parse (uuid_String u) = inr u;
}.

Lemma uuid_String_inj `{UUIDLaws} u u' : uuid_String u = uuid_String u' → u = u'.
Proof.
  intros E. pose proof (uuid_Parse_String u) as Hp. rewrite E, uuid_Parse_String in Hp.
  by injection Hp.
Qed.

(** ** Text functions of the Go library whose output depends on Unicode tables or on the
    shortest decimal form of a float: [strconv.Quote] (the [%q] verb), [strings.ToLower] of
    text that is not ASCII, and the text [encoding/json] prints for the float64 it read a
    number literal into ([None]: out of range). *)
Class GoText := {
  strconv_Quote : string → string;
  unicode_ToLower : string → string;
  float64_text : string → option string;
}.

(** ** golang.org/x/crypto/bcrypt

    [GenerateFromPassword] at the default cost, given the 16 bytes of salt it reads from
    crypto/rand, and [CompareHashAndPassword] ([None]: the password matches). *)
Class Bcrypt := {
  bcrypt_GenerateFromPassword : list Z → string → result string;
  bcrypt_CompareHashAndPassword : string → string → option error;
}.

Class BcryptLaws `{Bcrypt} : Prop := {
  bcrypt_accepts salt pw h :
    bcrypt_GenerateFromPassword salt pw = inr h → bcrypt_CompareHashAndPassword h pw = None;
}.

(** ** Postgres and pgx: what SQL text leaves to the server

    [pg_ts]: the TIMESTAMPTZ stored for an instant; [pg_jsonb]: the JSONB value stored for a
    JSON value ([None]: rejected); [pg_order_by key rows]: the rows in ascending order of the
    key; [pg_order_text]: text in the order of the database's collation; [pg_lower]: SQL's
    [lower]; [pg_day_start]: [date_trunc('day', ..)] in the session's time zone;
    [pg_avg_seconds]: the average of durations, in seconds, as pgx scans it into a float64. *)
Class Postgres := {
  pg_ts : Z → Z;
  pg_jsonb : json → option json;
  pg_order_by : ∀ {A : Type}, (A → Z) → list A → list A;
  pg_order_text : list string → list string;
  pg_lower : string → string;
  pg_day_start : Z → Z;
  pg_avg_seconds : list Z → float64;
}.

Class PostgresLaws `{Postgres} : Prop := {
  pg_ts_le t : pg_ts t ≤ t;
  pg_ts_mono t t' : t ≤ t' → pg_ts t ≤ pg_ts t';
  pg_ts_seconds n : pg_ts (n * Second) = n * Second;
  pg_ts_idemp t : pg_ts (pg_ts t) = pg_ts t;
  pg_order_by_perm {A} (f : A → Z) l : pg_order_by f l ≡ₚ l;
  pg_order_by_sorted {A} (f : A → Z) l :
    StronglySorted (key_le f) (pg_order_by f l);
  pg_order_text_perm l : pg_order_text l ≡ₚ l;
  pg_day_start_le t : pg_day_start t ≤ t;
}.

(** ** github.com/robfig/cron/v3

    [Next] returns the first activation after the given time, or the zero [time.Time] when
    it finds none; activations are whole seconds. *)
Definition time_Zero : Z := -62135596800 * Second.

Class Cron (Sch : Type) := {
  cron_ParseStandard : string → result Sch;
  cron_Next : Sch → Z → Z;
}.

Class CronLaws (Sch : Type) `{Cron Sch} : Prop := {
  cron_Next_after s t : cron_Next s t = time_Zero ∨ t < cron_Next s t;
  cron_Next_seconds s t : ∃ n, cron_Next s t = n * Second;
}.

(** ** github.com/go-chi/chi/v5

    [chi_route table method path]: the entry of the route table (method and pattern) that
    serves the request, with the parameters of its pattern, or how the routing misses. *)
Inductive routing :=
| RouteTo (n : nat) (param : string → string)
| RouteNotFound
| RouteMethodNotAllowed.

Class Router := {
  chi_route : list (string * string) → string → string → routing;
}.

Class RouterLaws `{Router} : Prop := {
  chi_route_method table m path n param :
    chi_route table m path = RouteTo n param → ∃ pattern, table !! n = Some (m, pattern);
}.

(** ** Redis: lists, sorted sets and expiring string keys

    The observations [rd_list] (left end first), [rd_zset] (member to score) and
    [rd_deadline] (expiry of a string key) describe the state; the commands are those the
    source issues. [SCAN cursor prefix now r]: the next cursor and the keys with the prefix
    found on the way. *)
Class Redis (R : Type) := {
  rd_list : R → string → list string;
  rd_zset : R → string → gmap string Z;
  rd_deadline : R → string → option Z;
  LPUSH : string → string → R → R;
  BRPOP : list string → R → option (string * string) * R;
  LLEN : string → R → Z;
  LREM : string → string → R → R;
  ZADD : string → Z → string → R → R;
  ZREM : string → string → R → R;
  ZCARD : string → R → Z;
  ZRANGEBYSCORE : string → Z → Z → R → list string;
  SETEX : string → Z → R → R;
  DEL : string → R → R;
  SCAN : Z → string → Z → R → Z * list string;
}.

(** A key is there while its list or sorted set is not empty, or until its deadline. *)
Definition key_exists {R} `{Redis R} (now : Z) (r : R) (k : string) : Prop :=
  rd_list r k ≠ [] ∨ rd_zset r k ≠ ∅ ∨ ∃ t, rd_deadline r k = Some t ∧ now < t.

(** An iteration from a cursor until the cursor is 0 again, with all the keys it returned. *)
Inductive scan_run {R} `{Redis R} (prefix : string) (now : Z) (r : R)
    : Z → nat → list string → Prop :=
| scan_last c ks : SCAN c prefix now r = (0, ks) → scan_run prefix now r c 1 ks
| scan_more c c' n ks ks' :
    SCAN c prefix now r = (c', ks) → c' ≠ 0 → scan_run prefix now r c' n ks' →
    scan_run prefix now r c (S n) (ks ++ ks').

(** The first of the keys whose list is not empty, with that list less its right end. *)
Fixpoint first_nonempty (f : string → list string) (ks : list string)
    : option (string * list string * string) :=
  match ks with
  | [] => None
  | k :: ks' =>
      match reverse (f k) with
      | [] => first_nonempty f ks'
      | m :: l => Some (k, reverse l, m)
      end
  end.

(** The members of a sorted set with a score of at most [max]. *)
Definition due_entries (z : gmap string Z) (max : Z) : list (string * Z) :=
  filter (λ e, e.2 ≤ max) (map_to_list z).

Definition limit_take {A} (lim : Z) (l : list A) : list A :=
  if lim <? 0 then l else take (Z.to_nat lim) l.

Class RedisLaws (R : Type) `{Redis R} : Prop := {
  list_LPUSH k m r k' :
    rd_list (LPUSH k m r) k' = if decide (k = k') then m :: rd_list r k else rd_list r k';
  zset_LPUSH k m r k' : rd_zset (LPUSH k m r) k' = rd_zset r k';
  deadline_LPUSH k m r k' : rd_deadline (LPUSH k m r) k' = rd_deadline r k';
  BRPOP_spec ks r :
    match first_nonempty (rd_list r) ks with
    | None => BRPOP ks r = (None, r)
    | Some (k, l, m) =>
        ∃ r', BRPOP ks r = (Some (k, m), r')
          ∧ (∀ k', rd_list r' k' = if decide (k = k') then l else rd_list r k')
          ∧ (∀ k', rd_zset r' k' = rd_zset r k')
          ∧ (∀ k', rd_deadline r' k' = rd_deadline r k')
    end;
  LLEN_spec k r : LLEN k r = Z.of_nat (length (rd_list r k));
  list_LREM k m r k' :
    rd_list (LREM k m r) k'
    = if decide (k = k') then filter (λ x, x ≠ m) (rd_list r k) else rd_list r k';
  zset_LREM k m r k' : rd_zset (LREM k m r) k' = rd_zset r k';
  deadline_LREM k m r k' : rd_deadline (LREM k m r) k' = rd_deadline r k';
  list_ZADD k s m r k' : rd_list (ZADD k s m r) k' = rd_list r k';
  zset_ZADD k s m r k' :
    rd_zset (ZADD k s m r) k' = if decide (k = k') then <[m := s]> (rd_zset r k) else rd_zset r k';
  deadline_ZADD k s m r k' : rd_deadline (ZADD k s m r) k' = rd_deadline r k';
  list_ZREM k m r k' : rd_list (ZREM k m r) k' = rd_list r k';
  zset_ZREM k m r k' :
    rd_zset (ZREM k m r) k' = if decide (k = k') then delete m (rd_zset r k) else rd_zset r k';
  deadline_ZREM k m r k' : rd_deadline (ZREM k m r) k' = rd_deadline r k';
  ZCARD_spec k r : ZCARD k r = Z.of_nat (size (rd_zset r k));
  ZRANGEBYSCORE_spec k max lim r :
    ∃ l, l ≡ₚ due_entries (rd_zset r k) max
       ∧ StronglySorted (key_le snd) l
       ∧ ZRANGEBYSCORE k max lim r = (limit_take lim l).*1;
  list_SETEX k d r k' : rd_list (SETEX k d r) k' = rd_list r k';
  zset_SETEX k d r k' : rd_zset (SETEX k d r) k' = rd_zset r k';
  deadline_SETEX k d r k' :
    rd_deadline (SETEX k d r) k' = if decide (k = k') then Some d else rd_deadline r k';
  list_DEL k r k' : rd_list (DEL k r) k' = if decide (k = k') then [] else rd_list r k';
  zset_DEL k r k' : rd_zset (DEL k r) k' = if decide (k = k') then ∅ else rd_zset r k';
  deadline_DEL k r k' :
    rd_deadline (DEL k r) k' = if decide (k = k') then None else rd_deadline r k';
  SCAN_full pre now r :
    ∃ n ks, scan_run pre now r 0 n ks
          ∧ ∀ k, k ∈ ks ↔ HasPrefix k pre = true ∧ key_exists now r k;
}.

(** ** Concrete instances *)

Module RefUUID.
Definition lib : UUIDLib := {|
  uuid_String := λ u, HexString.of_N u;
  uuid_Parse := λ s,
    let u := HexString.to_N s in
    if decide (HexString.of_N u = s) then inr u else inl (EText "invalid UUID format");
|}.
End RefUUID.

Module RefText.
Definition lib : GoText := {|
  strconv_Quote := λ s, String (Ascii.ascii_of_nat 34) (s +:+ String (Ascii.ascii_of_nat 34) EmptyString);
  unicode_ToLower := λ s, s;
  float64_text := λ s, Some s;
|}.
End RefText.

(** A stand-in for bcrypt with its contract: the "hash" is the salted password itself. *)
Module RefBcrypt.
Definition lib : Bcrypt := {|
  bcrypt_GenerateFromPassword := λ _ pw,
    if (72 <? String.length pw)%nat then inl (EText "bcrypt: password length exceeds 72 bytes")
    else inr ("$2a$10$" +:+ pw)%string;
  bcrypt_CompareHashAndPassword := λ h pw,
    if decide (h = "$2a$10$" +:+ pw)%string then None
    else Some (EText "crypto/bcrypt: hashedPassword is not the hash of the given password");
|}.
End RefBcrypt.

Module RefPostgres.
Definition lib : Postgres := {|
  pg_ts := λ t, t / 1000 * 1000;
  pg_jsonb := λ j, Some j;
  pg_order_by := λ A f l, merge_sort (key_le f) l;
  pg_order_text := λ l, l;
  pg_lower := λ s, s;
  pg_day_start := λ t, t / (24 * Hour) * (24 * Hour);
  pg_avg_seconds := λ l,
    f64_div (f64_of_Z (foldr Z.add 0 l)) (f64_of_Z (Z.of_nat (length l) * Second));
|}.
End RefPostgres.

(** A cron library whose only schedules are "every [n] minutes" (spec ["* * * * *"] is one
    minute) and one that never fires (spec ["0 0 30 2 *"], February 30). *)
Module RefCron.
Definition lib : Cron Z := {|
  cron_ParseStandard := λ s,
    if decide (s = "* * * * *"%string) then inr 1
    else if decide (s = "0 0 30 2 *"%string) then inr 0
    else inl (EText "expected exactly 5 fields");
  cron_Next := λ n t, if n <=? 0 then time_Zero else (t / (n * Minute) + 1) * (n * Minute);
|}.
End RefCron.

(** Patterns matched segment by segment; a segment in braces is a parameter. *)
Module RefRouter.
Fixpoint segments (s : string) : list string :=
  match s with
  | EmptyString => [EmptyString]
  | String c s' =>
      if decide (c = "/"%char) then EmptyString :: segments s'
      else match segments s' with
           | [] => [String c EmptyString]
           | p :: ps => String c p :: ps
           end
  end.

Fixpoint match_pattern (pat path : list string) : option (list (string * string)) :=
  match pat, path with
  | [], [] => Some []
  | p :: pat', s :: path' =>
      if HasPrefix p "{" then
        if decide (s = EmptyString) then None else cons (p, s) <$> match_pattern pat' path'
      else if decide (p = s) then match_pattern pat' path' else None
  | _, _ => None
  end.

Definition param_of (ps : list (string * string)) (name : string) : string :=
  match list_find (λ p : string * string, p.1 = "{" +:+ name +:+ "}")%string ps with
  | Some (_, p) => p.2
  | None => EmptyString
  end.

Fixpoint route (i : nat) (table : list (string * string)) (m path : string) : routing :=
  match table with
  | [] => RouteNotFound
  | (m', pat) :: table' =>
      match match_pattern (segments pat) (segments path) with
      | None => route (S i) table' m path
      | Some ps =>
          if decide (m' = m) then RouteTo i (param_of ps)
          else match route (S i) table' m path with
               | RouteNotFound => RouteMethodNotAllowed
               | r => r
               end
      end
  end.

Definition lib : Router := {| chi_route := route 0 |}.
End RefRouter.

Module RefRedis.
Record store := mkStore {
  lists : gmap string (list string);
  zsets : gmap string (gmap string Z);
  deadlines : gmap string Z;
}.

Definition empty : store := mkStore ∅ ∅ ∅.

Definition get_list (r : store) (k : string) : list string := default [] (lists r !! k).
Definition get_zset (r : store) (k : string) : gmap string Z := default ∅ (zsets r !! k).

Definition set_list (k : string) (l : list string) (r : store) : store :=
  mkStore (<[k := l]> (lists r)) (zsets r) (deadlines r).
Definition set_zset (k : string) (z : gmap string Z) (r : store) : store :=
  mkStore (lists r) (<[k := z]> (zsets r)) (deadlines r).

Definition range (z : gmap string Z) (max : Z) : list (string * Z) :=
  merge_sort (key_le snd) (due_entries z max).

Definition live (now : Z) (r : store) : list string :=
  filter (λ k, get_list r k ≠ []) (map_to_list (lists r)).*1
  ++ filter (λ k, get_zset r k ≠ ∅) (map_to_list (zsets r)).*1
  ++ (filter (λ kt, now < kt.2) (map_to_list (deadlines r))).*1.

Definition lib : Redis store := {|
  rd_list := get_list;
  rd_zset := get_zset;
  rd_deadline := λ r k, deadlines r !! k;
  LPUSH := λ k m r, set_list k (m :: get_list r k) r;
  BRPOP := λ ks r,
    match first_nonempty (get_list r) ks with
    | None => (None, r)
    | Some (k, l, m) => (Some (k, m), set_list k l r)
    end;
  LLEN := λ k r, Z.of_nat (length (get_list r k));
  LREM := λ k m r, set_list k (filter (λ x, x ≠ m) (get_list r k)) r;
  ZADD := λ k s m r, set_zset k (<[m := s]> (get_zset r k)) r;
  ZREM := λ k m r, set_zset k (delete m (get_zset r k)) r;
  ZCARD := λ k r, Z.of_nat (size (get_zset r k));
  ZRANGEBYSCORE := λ k max lim r, (limit_take lim (range (get_zset r k) max)).*1;
  SETEX := λ k d r, mkStore (lists r) (zsets r) (<[k := d]> (deadlines r));
  DEL := λ k r, mkStore (delete k (lists r)) (delete k (zsets r)) (delete k (deadlines r));
  SCAN := λ _ prefix now r, (0, filter (λ k, HasPrefix k prefix = true) (live now r));
|}.

Lemma elem_of_live now r k :
  k ∈ live now r ↔ @key_exists store lib now r k.
Proof.
  unfold live, key_exists. simpl.
  rewrite !elem_of_app, !list_elem_of_filter, !list_elem_of_fmap. split.
  - intros [[? _]|[[? _]|([k' t] & -> & [? ?%elem_of_map_to_list]%list_elem_of_filter)]]; [by left|by right; left|].
    right; right. simpl in *. eauto.
  - intros [Hl|[Hz|(t & Ht & ?)]].
    + left. split; [done|]. unfold get_list in Hl. destruct (lists r !! k) as [l|] eqn:E; [|done].
      exists (k, l). by rewrite elem_of_map_to_list.
    + right; left. split; [done|]. unfold get_zset in Hz.
      destruct (zsets r !! k) as [z|] eqn:E; [|done].
      exists (k, z). by rewrite elem_of_map_to_list.
    + right; right. exists (k, t). rewrite list_elem_of_filter, elem_of_map_to_list. done.
Qed.
End RefRedis.

(** ** Lemmas *)

Lemma first_nonempty_Some f ks k l m :
  first_nonempty f ks = Some (k, l, m) → k ∈ ks ∧ f k = l ++ [m].
Proof.
  induction ks as [|k' ks IH]; simpl; [done|].
  destruct (reverse (f k')) as [|m' l'] eqn:E; intros H.
  - destruct (IH H). set_solver.
  - simplify_eq. split; [set_solver|].
    rewrite <- (reverse_involutive (f k)), E, reverse_cons. done.
Qed.

Lemma first_nonempty_None f ks : first_nonempty f ks = None → ∀ k, k ∈ ks → f k = [].
Proof.
  induction ks as [|k' ks IH]; simpl; [set_solver|].
  destruct (reverse (f k')) as [|m' l'] eqn:E; [|done].
  intros H k [->|?]%elem_of_cons; [|auto].
  by rewrite <- (reverse_involutive (f k')), E.
Qed.

Lemma due_entries_elem z max m s :
  (m, s) ∈ due_entries z max ↔ z !! m = Some s ∧ s ≤ max.
Proof.
  unfold due_entries. rewrite list_elem_of_filter, elem_of_map_to_list. naive_solver.
Qed.

Lemma due_entries_NoDup z max : NoDup (due_entries z max).*1.
Proof.
  unfold due_entries. eapply sublist_NoDup; [apply (NoDup_fst_map_to_list z)|].
  apply fmap_sublist, sublist_filter.
Qed.

#[export] Instance RefUUID_laws : @UUIDLaws RefUUID.lib.
Proof.
  constructor. intros u. simpl. rewrite HexString.to_N_of_N. by rewrite decide_True.
Qed.

#[export] Instance RefBcrypt_laws : @BcryptLaws RefBcrypt.lib.
Proof.
  constructor. simpl. intros salt pw h. destruct (72 <? _)%nat; [done|].
  intros [= <-]. by rewrite decide_True.
Qed.

#[export] Instance RefPostgres_laws : @PostgresLaws RefPostgres.lib.
Proof.
  constructor; simpl.
  - intros t. pose proof (Z.mul_div_le t 1000). lia.
  - intros t t' ?. pose proof (Z.div_le_mono t t' 1000). lia.
  - intros n. unfold Second. replace (n * 1000000000) with (n * 1000000 * 1000) by lia.
    rewrite Z.div_mul; lia.
  - intros t. rewrite Z.div_mul; lia.
  - intros A f l. apply merge_sort_Permutation.
  - intros A f l. apply merge_sort_key_sorted.
  - done.
  - intros t. pose proof (Z.mul_div_le t (24 * Hour)). unfold Hour, Minute, Second in *. lia.
Qed.

Lemma RefRouter_method i table m path n param :
  RefRouter.route i table m path = RouteTo n param →
  ∃ k pattern, n = (i + k)%nat ∧ table !! k = Some (m, pattern).
Proof.
  revert i. induction table as [|[m' pat] table IH]; intros i; simpl; [done|].
  assert (RefRouter.route (S i) table m path = RouteTo n param →
          ∃ k pattern, n = (i + k)%nat ∧ ((m', pat) :: table) !! k = Some (m, pattern)) as IH'.
  { intros (k & pattern & -> & Hk)%IH. exists (S k), pattern. split; [lia|done]. }
  destruct (RefRouter.match_pattern _ _); [|exact IH'].
  case_decide as E; [intros [= <- <-]; exists 0%nat, pat; rewrite E; split; [lia|done]|].
  destruct (RefRouter.route (S i) table m path); naive_solver.
Qed.

#[export] Instance RefRouter_laws : @RouterLaws RefRouter.lib.
Proof.
  constructor. intros table m path n param (k & pattern & -> & Hk)%RefRouter_method. eauto.
Qed.

#[export] Instance RefCron_laws : @CronLaws Z RefCron.lib.
Proof.
  constructor; simpl; intros n t; destruct (Z.leb_spec n 0).
  - by left.
  - right. pose proof (Z.mul_succ_div_gt t (n * Minute)). unfold Minute, Second in *. lia.
  - by exists (-62135596800).
  - exists ((t / (n * Minute) + 1) * (n * 60)). unfold Minute. lia.
Qed.

#[export] Instance RefRedis_laws : @RedisLaws RefRedis.store RefRedis.lib.
Proof.
  constructor; simpl; intros; unfold RefRedis.get_list, RefRedis.get_zset; simpl;
    rewrite ?lookup_insert, ?lookup_delete; repeat case_decide; subst; try done.
  - destruct (first_nonempty _ _) as [[[k l] m]|] eqn:E; [|done].
    eexists. split; [done|]. split; [|done].
    intros k'. simpl. unfold RefRedis.get_list. simpl. rewrite lookup_insert.
    by case_decide.
  - eexists (RefRedis.range (default ∅ (RefRedis.zsets r !! k)) max).
    split_and!; [apply merge_sort_Permutation|apply merge_sort_key_sorted|done].
  - exists 1%nat, (filter (λ k, HasPrefix k pre = true) (RefRedis.live now r)).
    split; [by apply scan_last|]. intros k. by rewrite list_elem_of_filter, RefRedis.elem_of_live.
Qed.
