(* ===== verification/GoStrings.v ===== *)
(** * Strings as the Go library handles them

    The functions of [strings], [strconv] and [encoding/json] on byte strings that the HTTP
    layer and the configuration use. Only the case mapping of non-ASCII text is left to
    [GoText]. *)
From S2P Require Import Prelude GoStd Models Interfaces Crypto.
From Stdlib Require Import Ascii.
Open Scope Z_scope.

(** The key folding of [encoding/json]: ASCII letters in lower case, and the two non-ASCII
    letters that fold to ASCII, U+017F to [s] and U+212A to [k]. *)
Definition lower_ascii (c : Ascii.ascii) : Ascii.ascii :=
  let n := Ascii.N_of_ascii c in
  if (65 <=? n)%N && (n <=? 90)%N then Ascii.ascii_of_N (n + 32) else c.

Definition is_byte (n : N) (c : Ascii.ascii) : bool := (Ascii.N_of_ascii c =? n)%N.

Fixpoint fold_name (s : string) : string :=
  match s with
  | EmptyString => EmptyString
  | String c s' =>
      match s' with
      | String c1 s1 =>
          if is_byte 197 c && is_byte 191 c1 then String (Ascii.ascii_of_N 115) (fold_name s1)
          else
            match s1 with
            | String c2 s2 =>
                if is_byte 226 c && is_byte 132 c1 && is_byte 170 c2
                then String (Ascii.ascii_of_N 107) (fold_name s2)
                else String (lower_ascii c) (fold_name s')
            | EmptyString => String (lower_ascii c) (fold_name s')
            end
      | EmptyString => String (lower_ascii c) EmptyString
      end
  end.

(** ** [strings.ToLower]: ASCII text byte by byte, other text by the Unicode tables *)

Fixpoint string_map (f : ascii → ascii) (s : string) : string :=
  match s with
  | EmptyString => EmptyString
  | String c s' => String (f c) (string_map f s')
  end.

Fixpoint string_all (p : ascii → bool) (s : string) : bool :=
  match s with
  | EmptyString => true
  | String c s' => p c && string_all p s'
  end.

Definition is_ascii (c : ascii) : bool := (N_of_ascii c <? 128)%N.

Definition ToLower `{GoText} (s : string) : string :=
  if string_all is_ascii s then string_map lower_ascii s else unicode_ToLower s.

(** [strings.EqualFold] with a text whose letters have no non-ASCII case variant. *)
Definition EqualFold_ascii (s t : string) : bool :=
  bool_decide (string_map lower_ascii s = string_map lower_ascii t).

(** ** [strings.TrimSpace]: the UTF-8 encodings of the code points [unicode.IsSpace] accepts *)

Definition space_codes : list bytes :=
  [[9]; [10]; [11]; [12]; [13]; [32]; [194; 133]; [194; 160]; [225; 154; 128];
   [226; 128; 128]; [226; 128; 129]; [226; 128; 130]; [226; 128; 131]; [226; 128; 132];
   [226; 128; 133]; [226; 128; 134]; [226; 128; 135]; [226; 128; 136]; [226; 128; 137];
   [226; 128; 138]; [226; 128; 168]; [226; 128; 169]; [226; 128; 175]; [226; 129; 159];
   [227; 128; 128]].

Fixpoint strip_one (codes : list bytes) (l : bytes) : option bytes :=
  match codes with
  | [] => None
  | c :: codes' =>
      if decide (c = take (length c) l) then Some (drop (length c) l) else strip_one codes' l
  end.

(** Each round removes at least one byte, so [length l] rounds are enough. *)
Fixpoint strip_all (fuel : nat) (codes : list bytes) (l : bytes) : bytes :=
  match fuel with
  | O => l
  | S fuel' =>
      match strip_one codes l with
      | None => l
      | Some l' => strip_all fuel' codes l'
      end
  end.

Definition trim_left (codes : list bytes) (l : bytes) : bytes := strip_all (length l) codes l.

Definition TrimSpace (s : string) : string :=
  let left := trim_left space_codes (bytes_of s) in
  string_of (reverse (trim_left (reverse <$> space_codes) (reverse left))).

(** ** Searching and splitting *)

(** [strings.IndexByte]: the offset of the first occurrence ([None]: -1). *)
Fixpoint IndexByte (s : string) (c : ascii) : option nat :=
  match s with
  | EmptyString => None
  | String d s' => if decide (d = c) then Some O else S <$> IndexByte s' c
  end.

(** [strings.Contains] of a one-byte text. *)
Definition ContainsByte (s : string) (c : ascii) : bool := negb (string_all (λ d, negb (Ascii.eqb d c)) s).

(** [strings.Split] at a one-byte separator. *)
Fixpoint Split (s : string) (sep : ascii) : list string :=
  match s with
  | EmptyString => [EmptyString]
  | String c s' =>
      if decide (c = sep) then EmptyString :: Split s' sep
      else match Split s' sep with
           | [] => [String c EmptyString]
           | p :: ps => String c p :: ps
           end
  end.

Fixpoint take_string (n : nat) (s : string) : string :=
  match n, s with
  | S n', String c s' => String c (take_string n' s')
  | _, _ => EmptyString
  end.

(** [strings.HasSuffix] and [strings.TrimSuffix]. *)
Definition HasSuffix (s suffix : string) : bool :=
  bool_decide (drop_string (String.length s - String.length suffix) s = suffix).

Definition TrimSuffix (s suffix : string) : string :=
  if HasSuffix s suffix then take_string (String.length s - String.length suffix) s else s.

(** ** [strconv.Atoi] *)

Definition digit_value (c : ascii) : option Z :=
  let n := Z.of_nat (nat_of_ascii c) - 48 in
  if (0 <=? n) && (n <=? 9) then Some n else None.

Fixpoint parse_digits (s : string) (acc : Z) : option Z :=
  match s with
  | EmptyString => Some acc
  | String c s' => d ← digit_value c; parse_digits s' (acc * 10 + d)
  end.

Definition parse_unsigned (s : string) : option Z :=
  match s with EmptyString => None | _ => parse_digits s 0 end.

(** An optional sign and at least one digit; [None]: a syntax or range error. *)
Definition Atoi (s : string) : option Z :=
  n ← match s with
      | String c s' =>
          if decide (c = "-"%char) then Z.opp <$> parse_unsigned s'
          else if decide (c = "+"%char) then parse_unsigned s'
          else parse_unsigned s
      | EmptyString => None
      end;
  if in_int64 n then Some n else None.

(** ** [strconv.ParseBool] *)

Definition ParseBool (s : string) : option bool :=
  if decide (s ∈ ["1"; "t"; "T"; "TRUE"; "true"; "True"]%string) then Some true
  else if decide (s ∈ ["0"; "f"; "F"; "FALSE"; "false"; "False"]%string) then Some false
  else None.

(** ** The order of [sort.Strings]: bytewise *)

Definition string_le : relation string := λ a b, String.leb a b = true.

#[export] Instance string_le_dec : RelDecision string_le.
Proof. intros a b. unfold string_le. apply _. Defined.

Example TrimSpace_examples :
  TrimSpace "  a b	 " = "a b"%string
  ∧ TrimSpace (string_of [194; 160; 97; 227; 128; 128; 32]) = "a"%string
  ∧ TrimSpace (string_of [97; 133]) = string_of [97; 133].
Proof. vm_compute. done. Qed.

Example Split_example : Split "default,,emails" "," = ["default"; EmptyString; "emails"]%string.
Proof. reflexivity. Qed.

(** ** Lemmas *)

Lemma string_length_app (s t : string) :
  String.length (s +:+ t) = (String.length s + String.length t)%nat.
Proof. induction s as [|c s IH]; simpl; [done|by rewrite IH]. Qed.

Lemma take_drop_string n s : take_string n s +:+ drop_string n s = s.
Proof. revert s. induction n as [|n IH]; intros [|c s]; simpl; [done..|]. change (String c (take_string n s +:+ drop_string n s) = String c s). by rewrite IH. Qed.

Lemma take_string_length n s : (n ≤ String.length s)%nat → String.length (take_string n s) = n.
Proof.
  revert s. induction n as [|n IH]; intros [|c s]; simpl; intros ?; [done|done|lia|].
  rewrite IH by lia. done.
Qed.

Lemma lower_ascii_idemp c : lower_ascii (lower_ascii c) = lower_ascii c.
Proof. destruct c as [[] [] [] [] [] [] [] []]; reflexivity. Qed.

Lemma lower_ascii_is_ascii c : is_ascii (lower_ascii c) = is_ascii c.
Proof. destruct c as [[] [] [] [] [] [] [] []]; reflexivity. Qed.

(** On ASCII text lower-casing is idempotent. *)
Lemma ToLower_idemp `{GoText} s :
  string_all is_ascii s = true → ToLower (ToLower s) = ToLower s.
Proof.
  intros Hs. unfold ToLower. rewrite Hs.
  assert (string_all is_ascii (string_map lower_ascii s) = true) as ->.
  { clear - Hs. induction s as [|c s IH]; simpl in *; [done|].
    apply andb_true_iff in Hs as [? ?]. rewrite lower_ascii_is_ascii. by rewrite IH, andb_true_r. }
  clear. induction s as [|c s IH]; simpl; [done|]. by rewrite lower_ascii_idemp, IH.
Qed.

Lemma string_le_cons c d s t :
  string_le (String c s) (String d t)
  ↔ (N_of_ascii c < N_of_ascii d)%N ∨ (c = d ∧ string_le s t).
Proof.
  unfold string_le, String.leb. cbn [String.compare]. unfold Ascii.compare.
  destruct (N.compare_spec (N_of_ascii c) (N_of_ascii d)) as [E|E|E].
  - assert (c = d) as -> by (by rewrite <- (ascii_N_embedding c), E, ascii_N_embedding).
    split; [auto|]. intros [?|[_ ?]]; [lia|done].
  - split; [by left|done].
  - split; [done|]. intros [?|[-> _]]; lia.
Qed.

#[export] Instance string_le_order : PartialOrder string_le.
Proof.
  split; [split|].
  - intros s. induction s as [|c s IH]; [done|]. apply string_le_cons. by right.
  - intros a. induction a as [|c a IH]; intros [|d b] [|f t]; try done.
    rewrite !string_le_cons. intros [?|[-> ?]] [?|[-> ?]]; [left; lia|by left..|right; eauto].
  - intros a. induction a as [|c a IH]; intros [|d b]; try done.
    rewrite !string_le_cons. intros [?|[-> ?]] [?|[E ?]]; [lia|subst; lia|lia|]. by rewrite (IH b).
Qed.

#[export] Instance string_le_total : Total string_le.
Proof.
  intros a b. unfold string_le. destruct (String.leb_total a b); [by left|by right].
Qed.

(** *** Trimming printable ASCII text changes nothing *)

Lemma string_of_bytes_of s : string_of (bytes_of s) = s.
Proof.
  induction s as [|c s IH]; [done|]. cbn [bytes_of string_of]. rewrite IH. f_equal.
  unfold char_of. by rewrite N2Z.id, ascii_N_embedding.
Qed.

(** No code starts with a byte of printable ASCII. *)
Definition no_printable_head (codes : list bytes) : bool :=
  forallb (λ c, match c with [] => false | x :: _ => negb ((32 <? x) && (x <? 128)) end) codes.

Lemma strip_one_printable codes b l :
  no_printable_head codes = true → 32 < b < 128 → strip_one codes (b :: l) = None.
Proof.
  induction codes as [|c codes IH]; [done|]. simpl. intros [Hc Hcs]%andb_true_iff Hb.
  destruct c as [|x c]; [done|]. rewrite decide_False; [by apply IH|].
  cbn [length take]. intros [= -> _]. lia.
Qed.

Lemma trim_left_printable codes l :
  no_printable_head codes = true → Forall (λ b, 32 < b < 128) l → trim_left codes l = l.
Proof.
  intros Hc Hl. unfold trim_left. destruct l as [|b l]; [done|]. cbn [length strip_all].
  apply Forall_cons in Hl as [Hb _]. by rewrite strip_one_printable.
Qed.

Lemma TrimSpace_printable s : printable s → TrimSpace s = s.
Proof.
  intros Hs. unfold TrimSpace. rewrite (trim_left_printable space_codes) by done.
  rewrite trim_left_printable; [|done|by apply Forall_reverse].
  by rewrite reverse_involutive, string_of_bytes_of.
Qed.

Lemma take_string_app (s t : string) : take_string (String.length s) (s +:+ t) = s.
Proof.
  induction s as [|c s IH]; simpl; [by destruct t|].
  change (String c (take_string (String.length s) (s +:+ t)) = String c s). by rewrite IH.
Qed.

Lemma printable_app s t : printable s → printable t → printable (s +:+ t).
Proof.
  unfold printable. intros Hs Ht. induction s as [|c s IH]; [done|].
  change (bytes_of (String c s +:+ t)) with (Z.of_N (N_of_ascii c) :: bytes_of (s +:+ t)).
  apply Forall_cons in Hs as [? ?]. constructor; auto.
Qed.
