(* ===== verification/Db.v ===== *)
(** * The Postgres schema and the meaning of SQL statements

    The tables the migrations create, as finite maps from primary key to row, and the
    set-oriented operations SQL text is translated to: SELECT .. WHERE, UPDATE .. WHERE,
    DELETE .. WHERE over the whole table, [RETURNING] and [QueryRow.Scan] on the rows a
    statement yields. A [Query] and the loop over its rows are one request: a failure while the
    rows are read is reported like one of the query. *)
From S2P Require Import Prelude GoStd Models Interfaces.
Open Scope Z_scope.

(** ** Tables *)

Module DLQRow.
Record DLQRow := mkDLQRow {
  JobID : uuid; TenantID : uuid; Reason : string; Attempts : Z; CreatedAt : Z
}.
End DLQRow.
Abbreviation DLQRow := DLQRow.DLQRow.

Module Session.
Record Session := mkSession {
  ID : uuid; UserID : uuid; TokenHash : string; CreatedAt : Z; ExpiresAt : Z
}.
End Session.
Abbreviation Session := Session.Session.

Record DB := mkDB {
  tbl_jobs : gmap uuid Job;
  tbl_dead_letter_queue : gmap uuid DLQRow;
  tbl_job_schedules : gmap uuid JobSchedule;
  tbl_tenants : gmap uuid Tenant;
  tbl_users : gmap uuid User;
  tbl_sessions : gmap uuid Session;
  tbl_api_keys : gmap uuid APIKey;
  tbl_schema_migrations : option (gmap string Z);
}.

Definition empty_db : DB := mkDB ∅ ∅ ∅ ∅ ∅ ∅ ∅ None.

(** ** Statements

    A statement runs at the server's [now()], with a value for [gen_random_uuid()]; it
    answers an error, with the tables unchanged, or its result. *)
Definition sql (X : Type) : Type := Z → uuid → DB → result X * DB.

Section Relational.
Context {A : Type}.

Definition rows (t : gmap uuid A) : list A := (map_to_list t).*2.

Definition select_where (p : A → bool) (t : gmap uuid A) : list A :=
  filter (λ a, p a = true) (rows t).

Definition update_where (p : A → bool) (f : A → A) (t : gmap uuid A) : gmap uuid A :=
  (λ a, if p a then f a else a) <$> t.

(** [RETURNING]: the rows an UPDATE changed, after the change. *)
Definition update_returning (p : A → bool) (f : A → A) (t : gmap uuid A) : list A :=
  f <$> select_where p t.

Definition delete_where (p : A → bool) (t : gmap uuid A) : gmap uuid A :=
  filter (λ ka, p ka.2 = false) t.

(** Every row is stored under its primary key. *)
Definition keyed (key : A → uuid) (t : gmap uuid A) : Prop :=
  ∀ k a, t !! k = Some a → key a = k.
End Relational.

(** [QueryRow(..).Scan(..)]: the first row, or [pgx.ErrNoRows]. *)
Definition query_row {X} (rs : list X) : result X :=
  match rs with
  | [] => inl (ESentinel PgxErrNoRows)
  | r :: _ => inr r
  end.

(** ** Parameters and columns *)

(** SQLSTATE codes of the constraint errors a statement can raise. *)
Definition pg_not_null_violation : error := EPg "23502".
Definition pg_foreign_key_violation : error := EPg "23503".
Definition pg_unique_violation : error := EPg "23505".
Definition pg_invalid_text : error := EPg "22P02".
Definition pg_undefined_table : error := EPg "42P01".
Definition pg_untranslatable : error := EPg "22P05".

(** The error pgx returns when a Go int does not fit an INTEGER parameter. *)
Definition pgx_int4_range : error := EText "unable to encode: value is not in range for int4".

(** A [json.RawMessage] sent to a JSONB column: an empty message is NULL. *)
Definition jsonb_param `{Postgres} (raw : RawMessage) : result RawMessage :=
  match raw with
  | RawNil => inr RawNil
  | RawBad _ => inl pg_invalid_text
  | RawJSON j =>
      match pg_jsonb j with
      | Some j' => inr (RawJSON j')
      | None => inl pg_untranslatable
      end
  end.

(** ** Lemmas *)

Section RelationalFacts.
Context {A : Type}.

Lemma lookup_update_where (p : A → bool) f t k :
  update_where p f t !! k = (λ a, if p a then f a else a) <$> t !! k.
Proof. unfold update_where. by rewrite lookup_fmap. Qed.

Lemma lookup_delete_where (p : A → bool) t k a :
  delete_where p t !! k = Some a ↔ t !! k = Some a ∧ p a = false.
Proof. unfold delete_where. apply map_lookup_filter_Some. Qed.

Lemma elem_of_select_where (p : A → bool) t a :
  a ∈ select_where p t ↔ p a = true ∧ ∃ k, t !! k = Some a.
Proof.
  unfold select_where, rows. rewrite list_elem_of_filter, list_elem_of_fmap.
  split.
  - intros [? [[k b] [-> Hk%elem_of_map_to_list]]]. eauto.
  - intros [? [k Hk]]. split; [done|]. exists (k, a). by rewrite elem_of_map_to_list.
Qed.

Lemma select_where_none (p : A → bool) t :
  (∀ k a, t !! k = Some a → p a = false) → select_where p t = [].
Proof.
  intros Hp. apply elem_of_nil_inv. intros a [Ha [k Hk]]%elem_of_select_where.
  rewrite (Hp k a Hk) in Ha. done.
Qed.

(** A condition that fixes the primary key selects at most the row under that key. *)
Lemma select_where_key (key : A → uuid) (p : A → bool) t k :
  keyed key t → (∀ a, p a = true → key a = k) →
  select_where p t = match t !! k with Some a => if p a then [a] else [] | None => [] end.
Proof.
  intros Hkey Hp.
  assert (∀ k' a, k' ≠ k → t !! k' = Some a → p a = false) as Hne.
  { intros k' a Hk' Ha. destruct (p a) eqn:E; [|done].
    by rewrite <- (Hkey _ _ Ha), (Hp _ E) in Hk'. }
  destruct (t !! k) as [a|] eqn:Hk.
  2: { apply select_where_none. intros k' a Ha. apply (Hne k'); congruence. }
  assert (select_where p (delete k t) = []) as Hrest.
  { apply select_where_none. intros k' a' [? ?]%lookup_delete_Some. by apply (Hne k'). }
  unfold select_where, rows in *.
  assert (filter (λ a, p a = true) (map_to_list t).*2 ≡ₚ if p a then [a] else []) as Hperm.
  { rewrite <- (insert_delete_id _ _ _ Hk).
    rewrite (map_to_list_insert _ _ _ (lookup_delete_eq t k)).
    rewrite fmap_cons, filter_cons, Hrest. simpl. by destruct (p a). }
  destruct (p a); [by apply Permutation_singleton_r in Hperm|by apply Permutation_nil_r in Hperm].
Qed.

Lemma keyed_insert (key : A → uuid) t k a :
  keyed key t → key a = k → keyed key (<[k := a]> t).
Proof. intros Ht Ha k' a' [[<- <-]|[_ ?]]%lookup_insert_Some; auto. Qed.

Lemma keyed_update_where (key : A → uuid) p f t :
  keyed key t → (∀ a, key (f a) = key a) → keyed key (update_where p f t).
Proof.
  intros Ht Hf k a. rewrite lookup_update_where. intros (b & Hb & ->)%fmap_Some.
  destruct (p b); rewrite ?Hf; eauto.
Qed.

Lemma keyed_delete_where (key : A → uuid) p t :
  keyed key t → keyed key (delete_where p t).
Proof. intros Ht k a [? _]%lookup_delete_where. eauto. Qed.
End RelationalFacts.

#[export] Hint Resolve keyed_insert keyed_update_where keyed_delete_where : dispatch.
