(* ===== verification/Effects.v ===== *)
(** * Programs, requests and their outcomes

    A Go function that talks to the outside world is a [prog]: it returns, or it makes one
    request and continues with the answer. A request is atomic: one SQL statement or
    transaction, one Redis command (or Lua script), a clock reading, a fresh UUID. What the
    outside world decides about it (failure, time, UUID) is a [reply]; every theorem about a
    program ranges over all replies, and a list of replies that ends early is a process that
    crashes between two requests. *)
From S2P Require Import Prelude GoStd Models Interfaces Db.
Open Scope Z_scope.

(** ** Transactions

    The statements of a pgx transaction body: commit and return a value, return an error
    (the deferred Rollback runs), or execute a statement and look at its answer. *)
Inductive tx (X : Type) : Type :=
| TxCommit (x : X)
| TxFail (e : error)
| TxStmt {Y : Type} (q : sql Y) (k : result Y → tx X).
Arguments TxCommit {X} x.
Arguments TxFail {X} e.
Arguments TxStmt {X Y} q k.

(** ** Faults

    A request succeeds, fails without having had an effect, or takes effect although the
    caller sees an error (the reply was lost). *)
Inductive fault :=
| FOk
| FLost (e : error)
| FUnknown (e : error).

(** The outcome of BEGIN, of each statement and of COMMIT, in order; a missing entry
    succeeds. A failed statement has no effect that outlives the transaction. *)
Fixpoint run_stmts {X} (b : tx X) (fs : list fault) (now : Z) (us : list uuid) (d0 d : DB)
    : result X * DB :=
  match b with
  | TxCommit x =>
      match default FOk (head fs) with
      | FOk => (inr x, d)
      | FLost e => (inl e, d0)
      | FUnknown e => (inl e, d)
      end
  | TxFail e => (inl e, d0)
  | TxStmt q k =>
      match default FOk (head fs) with
      | FOk =>
          let '(y, d') := q now (default uuid_Nil (head us)) d in
          run_stmts (k y) (tail fs) now (tail us) d0 d'
      | FLost e | FUnknown e => run_stmts (k (inl e)) (tail fs) now (tail us) d0 d
      end
  end.

Definition run_tx {X} (b : tx X) (fs : list fault) (now : Z) (us : list uuid) (d : DB)
    : result X * DB :=
  match default FOk (head fs) with
  | FOk => run_stmts b (tail fs) now us d d
  | FLost e | FUnknown e => (inl e, d)
  end.

(** Every statement of the body relates the tables before and after it by [P]. *)
Fixpoint tx_keeps {X} (P : DB → DB → Prop) (b : tx X) : Prop :=
  match b with
  | TxCommit _ | TxFail _ => True
  | TxStmt q k => (∀ now u d, P d (q now u d).2) ∧ ∀ y, tx_keeps P (k y)
  end.

(** ** Requests *)

(** What the worker's Prometheus instruments record. *)
Inductive metric :=
| ObservedLatency (jobType : string) (d : Z)
| IncrementedProcessed (status : string).

#[export] Instance metric_eq_dec : EqDecision metric.
Proof. solve_decision. Defined.

Inductive op (R : Type) : Type → Type :=
| OSql {X : Type} (q : sql X) : op R (result X)
| OTx {X : Type} (b : tx X) : op R (result X)
| ORedis {X : Type} (c : Z → R → X * R) : op R (result X)
| ONow : op R Z
| OUUID : op R uuid
| OCtxErr : op R bool
| OWait (d : Z) : op R bool
| OMetric (m : metric) : op R unit
| ORand (n : nat) : op R (result (list Z))
| OBcrypt : op R unit.
Arguments OSql {R X} q.
Arguments OTx {R X} b.
Arguments ORedis {R X} c.
Arguments ONow {R}.
Arguments OUUID {R}.
Arguments OCtxErr {R}.
Arguments OWait {R} d.
Arguments OMetric {R} m.
Arguments ORand {R} n.
Arguments OBcrypt {R}.

(** [Panic]: a Go run-time panic; the process stops. *)
Inductive prog (R A : Type) : Type :=
| Ret (a : A)
| Panic (msg : string)
| Call {X : Type} (o : op R X) (k : X → prog R A).
Arguments Ret {R A} a.
Arguments Panic {R A} msg.
Arguments Call {R A X} o k.

Fixpoint bind {R A B} (p : prog R A) (f : A → prog R B) : prog R B :=
  match p with
  | Ret a => f a
  | Panic msg => Panic msg
  | Call o k => Call o (λ x, bind (k x) f)
  end.

Notation "'let!' x ':=' p 'in' q" := (bind p (λ x, q))
  (at level 10, x name, p at level 200, q at level 200).

Definition request {R X} (o : op R X) : prog R X := Call o Ret.

(** The requests as Go calls. *)
Definition exec_sql {R X} (q : sql X) : prog R (result X) := request (OSql q).
Definition exec_tx {R X} (b : tx X) : prog R (result X) := request (OTx b).
Definition redis_cmd {R X} (c : Z → R → X * R) : prog R (result X) := request (ORedis c).
Definition time_Now {R} : prog R Z := request ONow.
Definition uuid_New {R} : prog R uuid := request OUUID.
Definition ctx_Err {R} : prog R bool := request OCtxErr.
Definition rand_Read {R} (n : nat) : prog R (result (list Z)) := request (ORand n).
(** The time one bcrypt computation takes, which a client can measure. *)
Definition bcrypt_work {R} : prog R unit := request OBcrypt.

(** A call's result of type [error]: [None] is nil. *)
Definition err_of {X} (r : result X) : option error :=
  match r with inl e => Some e | inr _ => None end.

(** [n] passes of a loop body; [false]: the loop returns. *)
Fixpoint loop {R} (n : nat) (body : prog R bool) : prog R unit :=
  match n with
  | O => Ret tt
  | S n' => let! go := body in if (go : bool) then loop n' body else Ret tt
  end.

(** ** The shared world *)

Record world (R : Type) := mkWorld {
  w_db : DB;
  w_redis : R;
  w_metrics : list metric;
}.
Arguments mkWorld {R} w_db w_redis w_metrics.
Arguments w_db {R} w.
Arguments w_redis {R} w.
Arguments w_metrics {R} w.

(** The world with other tables, with another Redis state, with one more sample. *)
Definition with_db {R} (d : DB) (w : world R) : world R := mkWorld d (w_redis w) (w_metrics w).
Definition with_redis {R} (s : R) (w : world R) : world R := mkWorld (w_db w) s (w_metrics w).
Definition with_metric {R} (m : metric) (w : world R) : world R :=
  mkWorld (w_db w) (w_redis w) (m :: w_metrics w).

(** What the outside decides for one request: the fault, the clock, the UUIDs generated, the
    answer to a context test, the faults inside a transaction, and the random bytes. *)
Record reply := mkReply {
  r_fault : fault;
  r_now : Z;
  r_uuid : uuid;
  r_done : bool;
  r_faults : list fault;
  r_uuids : list uuid;
  r_rand : list Z;
}.

Definition faulty {S X} (f : fault) (s : S) (run : result X * S) : result X * S :=
  match f with
  | FOk => run
  | FLost e => (inl e, s)
  | FUnknown e => (inl e, run.2)
  end.

(** [n] random bytes. *)
Definition random_bytes (n : nat) (l : list Z) : list Z :=
  (λ i, nth i l 0 `mod` 256) <$> seq 0 n.

Definition interp {R X} (o : op R X) (e : reply) (w : world R) : X * world R :=
  match o in op _ X return X * world R with
  | OSql q =>
      let '(x, d) := faulty (r_fault e) (w_db w) (q (r_now e) (r_uuid e) (w_db w)) in
      (x, mkWorld d (w_redis w) (w_metrics w))
  | OTx b =>
      let '(x, d) := run_tx b (r_faults e) (r_now e) (r_uuids e) (w_db w) in
      (x, mkWorld d (w_redis w) (w_metrics w))
  | ORedis c =>
      let '(x, r) := c (r_now e) (w_redis w) in
      let '(y, r') := faulty (r_fault e) (w_redis w) (inr x, r) in
      (y, mkWorld (w_db w) r' (w_metrics w))
  | ONow => (r_now e, w)
  | OUUID => (r_uuid e, w)
  | OCtxErr => (r_done e, w)
  | OWait _ => (r_done e, w)
  | OMetric m => (tt, mkWorld (w_db w) (w_redis w) (m :: w_metrics w))
  | ORand n =>
      (match r_fault e with
       | FOk => inr (random_bytes n (r_rand e))
       | FLost err | FUnknown err => inl err
       end, w)
  | OBcrypt => (tt, w)
  end.

(** ** Running a program alone

    One reply per request. The result is the program's value with the replies left over, or
    [None] when they ran out: the process stopped there. *)
Fixpoint exec {R A} (es : list reply) (p : prog R A) (w : world R) {struct p}
    : option (A * list reply) * world R :=
  match p with
  | Ret a => (Some (a, es), w)
  | Panic _ => (None, w)
  | Call o k =>
      match es with
      | [] => (None, w)
      | e :: es' => let '(x, w') := interp o e w in exec es' (k x) w'
      end
  end.

(** ** Weakest preconditions over all replies allowed by [E]

    [Q (Some a) w]: on returning [a]; [Q None w]: at every point where the process may stop. *)
Fixpoint wp {R A} (E : reply → Prop) (p : prog R A) (Q : option A → world R → Prop)
    (w : world R) : Prop :=
  match p with
  | Ret a => Q (Some a) w
  | Panic _ => Q None w
  | Call o k =>
      Q None w ∧ ∀ e, E e → let '(x, w') := interp o e w in wp E (k x) Q w'
  end.

(** Total correctness: every run with replies allowed by [E], each long enough, returns a value
    that satisfies [Q]; it does not panic. *)
Fixpoint twp {R A} (E : reply → Prop) (p : prog R A) (Q : A → world R → Prop)
    (w : world R) : Prop :=
  match p with
  | Ret a => Q a w
  | Panic _ => False
  | Call o k => ∀ e, E e → let '(x, w') := interp o e w in twp E (k x) Q w'
  end.

(** ** One step of a program among others *)
Definition step {R A} (e : reply) (p : prog R A) (w : world R) : prog R A * world R :=
  match p with
  | Ret a => (Ret a, w)
  | Panic msg => (Panic msg, w)
  | Call o k => let '(x, w') := interp o e w in (k x, w')
  end.

(** A reply without faults. *)
Definition reliable (e : reply) : Prop :=
  r_fault e = FOk ∧ r_faults e = [] ∧ r_done e = false.

(** Replies that are without faults, and perhaps restricted further. *)
Class Reliably (E : reply → Prop) : Prop := reliably e : E e → reliable e.
#[export] Instance reliable_reliably : Reliably reliable.
Proof. by intros e. Qed.

(** The errors of the database, the network and the context are not the program's own. *)
Definition own_sentinel (s : sentinel) : bool :=
  match s with PgxErrNoRows | RedisNil | ContextCanceled => false | _ => true end.

Definition foreign_error (e : error) : Prop :=
  ∀ s, own_sentinel s = true → errors_Is e s = false.

Definition foreign_fault (f : fault) : Prop :=
  match f with FOk => True | FLost e | FUnknown e => foreign_error e end.

Definition foreign (e : reply) : Prop :=
  foreign_fault (r_fault e) ∧ Forall foreign_fault (r_faults e).

(** ** Lemmas *)

Section Facts.
Context {R : Type}.
Implicit Types (w : world R) (e : reply).

Lemma exec_bind {A B} es (p : prog R A) (f : A → prog R B) w :
  exec es (bind p f) w
  = match exec es p w with
    | (Some (a, es'), w') => exec es' (f a) w'
    | (None, w') => (None, w')
    end.
Proof.
  revert es w. induction p as [a|msg|X o k IH]; intros es w; simpl; [done|done|].
  destruct es as [|e es]; [done|]. destruct (interp o e w). apply IH.
Qed.

Lemma wp_bind {A B} E (p : prog R A) (f : A → prog R B) Q w :
  wp E p (λ o w', match o with Some a => wp E (f a) Q w' | None => Q None w' end) w →
  wp E (bind p f) Q w.
Proof.
  revert w. induction p as [a|msg|X o k IH]; intros w; simpl; [done|done|].
  intros [? H]. split; [done|]. intros e He. specialize (H e He).
  destruct (interp o e w). by apply IH.
Qed.

Lemma wp_mono {A} E (p : prog R A) (Q Q' : option A → world R → Prop) w :
  (∀ o w', Q o w' → Q' o w') → wp E p Q w → wp E p Q' w.
Proof.
  intros HQ. revert w. induction p as [a|msg|X o k IH]; intros w; simpl; [by auto|by auto|].
  intros [? H]. split; [by auto|]. intros e He. specialize (H e He).
  destruct (interp o e w). by apply IH.
Qed.

(** The precondition covers every run, complete or cut short. *)
Lemma wp_sound {A} E (p : prog R A) Q w es :
  wp E p Q w → Forall E es →
  let '(o, w') := exec es p w in Q (fst <$> o) w'.
Proof.
  revert w es. induction p as [a|msg|X o k IH]; intros w es; simpl; [done|done|].
  intros [? H] Hes. destruct es as [|e es]; [done|].
  apply Forall_cons in Hes as [He Hes]. specialize (H e He).
  destruct (interp o e w). by apply IH.
Qed.

(** So does the transaction, whichever way it ends. *)
Lemma run_tx_keeps {X} (P : DB → DB → Prop) (b : tx X) fs now us d :
  PreOrder P → tx_keeps P b → P d (run_tx b fs now us d).2.
Proof.
  intros HP Hb. unfold run_tx.
  assert (∀ fs us d', P d d' → P d (run_stmts b fs now us d d').2) as Hs.
  { clear fs us. induction b as [x|err|Y q k IH]; intros fs us d' Hd; simpl.
    - by destruct (default FOk (head fs)).
    - done.
    - destruct Hb as [Hq Hk].
      destruct (default FOk (head fs)); [|by apply IH..].
      specialize (Hq now (default uuid_Nil (head us)) d').
      destruct (q _ _ d') as [y d'']. simpl in Hq. apply IH; [done|]. by transitivity d'. }
  destruct (default FOk (head fs)); [by apply Hs|done..].
Qed.

(** Every program is over, returned or panicked, after finitely many replies. *)
Fixpoint panics {A} (es : list reply) (p : prog R A) (w : world R) {struct p} : Prop :=
  match p with
  | Ret _ => False
  | Panic _ => True
  | Call o k =>
      match es with
      | [] => False
      | e :: es' => let '(x, w') := interp o e w in panics es' (k x) w'
      end
  end.

Lemma exec_terminates {A} (p : prog R A) (s : nat → reply) w :
  ∃ n, (∃ r w', exec (s <$> seq 0 n) p w = (Some r, w')) ∨ panics (s <$> seq 0 n) p w.
Proof.
  cut (∀ m, ∃ n, (∃ r w', exec (s <$> seq m n) p w = (Some r, w')) ∨ panics (s <$> seq m n) p w);
    [by auto|].
  revert w. induction p as [a|msg|X o k IH]; intros w m; simpl.
  - exists 0%nat. left. eauto.
  - exists 0%nat. by right.
  - destruct (interp o (s m) w) as [x w1] eqn:E.
    destruct (IH x w1 (S m)) as [n Hn]. exists (S n). simpl. by rewrite E.
Qed.

(** Requests that succeed. *)
Lemma sql_ok {X} (q : sql X) e w :
  reliable e →
  interp (OSql q) e w
  = ((q (r_now e) (r_uuid e) (w_db w)).1, with_db (q (r_now e) (r_uuid e) (w_db w)).2 w).
Proof. intros (E & _). simpl. rewrite E. simpl. by destruct (q _ _ _). Qed.

Lemma tx_ok {X} (b : tx X) e w :
  reliable e →
  interp (OTx b) e w
  = ((run_tx b [] (r_now e) (r_uuids e) (w_db w)).1,
     with_db (run_tx b [] (r_now e) (r_uuids e) (w_db w)).2 w).
Proof. intros (_ & E & _). simpl. rewrite E. by destruct (run_tx _ _ _ _ _). Qed.

Lemma redis_ok {X} (c : Z → R → X * R) e w :
  reliable e →
  interp (ORedis c) e w
  = (inr (c (r_now e) (w_redis w)).1, with_redis (c (r_now e) (w_redis w)).2 w).
Proof. intros (E & _). simpl. rewrite E. by destruct (c _ _). Qed.

(** *** Total correctness *)

Lemma twp_bind {A B} E (p : prog R A) (f : A → prog R B) Q w :
  twp E p (λ a w', twp E (f a) Q w') w → twp E (bind p f) Q w.
Proof.
  revert w. induction p as [a|msg|X o k IH]; intros w; simpl; [done|done|].
  intros H e He. specialize (H e He). destruct (interp o e w). by apply IH.
Qed.

Lemma twp_mono {A} E (p : prog R A) (Q Q' : A → world R → Prop) w :
  (∀ a w', Q a w' → Q' a w') → twp E p Q w → twp E p Q' w.
Proof.
  intros HQ. revert w. induction p as [a|msg|X o k IH]; intros w; simpl; [by auto|done|].
  intros H e He. specialize (H e He). destruct (interp o e w). by apply IH.
Qed.

Lemma twp_weaken {A} (E E' : reply → Prop) (p : prog R A) Q w :
  (∀ e, E' e → E e) → twp E p Q w → twp E' p Q w.
Proof.
  intros HE. revert w. induction p as [a|msg|X o k IH]; intros w; simpl; [done|done|].
  intros H e He. specialize (H e (HE e He)). destruct (interp o e w). by apply IH.
Qed.

(** A stream of allowed replies: some prefix of it is what the program uses. *)
Lemma twp_sound {A} E (p : prog R A) Q w (s : nat → reply) :
  (∀ i, E (s i)) → twp E p Q w →
  ∃ n a w', exec (s <$> seq 0 n) p w = (Some (a, []), w') ∧ Q a w'.
Proof.
  intros Hs Hp.
  cut (∀ m, ∃ n a w', exec (s <$> seq m n) p w = (Some (a, []), w') ∧ Q a w'); [by auto|].
  revert w Hp. induction p as [a|msg|X o k IH]; intros w Hp m; simpl in *; [|done|].
  - exists 0%nat. eauto.
  - specialize (Hp (s m) (Hs m)). destruct (interp o (s m) w) as [x w1] eqn:Ei.
    destruct (IH x w1 Hp (S m)) as (n & a & w' & Hx & Ha). exists (S n), a, w'.
    simpl. by rewrite Ei.
Qed.

(** What happens in one run. *)
Lemma twp_exec {A} E (p : prog R A) Q w es a es' w' :
  twp E p Q w → Forall E es → exec es p w = (Some (a, es'), w') → Q a w'.
Proof.
  revert w es. induction p as [b|msg|X o k IH]; intros w es; simpl; [by intros ? _ [= <- _ <-]|done|].
  intros H Hes Hx. destruct es as [|e es]; [done|]. apply Forall_cons in Hes as [He Hes].
  specialize (H e He). destruct (interp o e w). by eapply IH.
Qed.

Section Reliably.
Context (E : reply → Prop) `{!Reliably E}.

Lemma twp_sql {X} (q : sql X) Q w :
  (∀ now u, Q (q now u (w_db w)).1 (with_db (q now u (w_db w)).2 w)) →
  twp E (exec_sql q) Q w.
Proof. intros HQ e He. rewrite sql_ok by (by apply reliably). apply HQ. Qed.

Lemma twp_tx {X} (b : tx X) Q w :
  (∀ now us, let r := run_tx b [] now us (w_db w) in Q r.1 (with_db r.2 w)) →
  twp E (exec_tx b) Q w.
Proof. intros HQ e He. rewrite tx_ok by (by apply reliably). apply HQ. Qed.

Lemma twp_redis {X} (c : Z → R → X * R) Q w :
  (∀ now, Q (inr (c now (w_redis w)).1) (with_redis (c now (w_redis w)).2 w)) →
  twp E (redis_cmd c) Q w.
Proof. intros HQ e He. rewrite redis_ok by (by apply reliably). apply HQ. Qed.

Lemma twp_ctx (Q : bool → world R → Prop) w : Q false w → twp E ctx_Err Q w.
Proof. intros HQ e (_ & _ & Hd)%reliably. simpl. by rewrite Hd. Qed.

Lemma twp_wait d (Q : bool → world R → Prop) w : Q false w → twp E (request (OWait d)) Q w.
Proof. intros HQ e (_ & _ & Hd)%reliably. simpl. by rewrite Hd. Qed.

Lemma twp_now (Q : Z → world R → Prop) w : (∀ e, E e → Q (r_now e) w) → twp E time_Now Q w.
Proof. intros HQ e He. by apply HQ. Qed.
End Reliably.

(** A run of a request followed by its continuation. *)
Lemma exec_call {X A} (op : op R X) (k : X → prog R A) e es w :
  exec (e :: es) (Call op k) w = exec es (k (interp op e w).1) (interp op e w).2.
Proof. simpl. by destruct (interp op e w). Qed.

Lemma exec_request {X A} (op : op R X) (f : X → prog R A) e es w :
  exec (e :: es) (bind (request op) f) w = exec es (f (interp op e w).1) (interp op e w).2.
Proof. apply exec_call. Qed.
End Facts.

(** ** Programs by the values they can return

    [answers F P p]: whatever is answered to its requests, [p] returns a value in [P] or panics
    with a message in [F]. *)
Fixpoint answers {R A} (F : string → Prop) (P : A → Prop) (p : prog R A) : Prop :=
  match p with
  | Ret a => P a
  | Panic msg => F msg
  | Call o k => ∀ x, answers F P (k x)
  end.

Section Answers.
Context {R : Type} (F : string → Prop).

Lemma answers_bind {A B} (Q : A → Prop) (P : B → Prop) (p : prog R A) (f : A → prog R B) :
  answers F Q p → (∀ a, Q a → answers F P (f a)) → answers F P (bind p f).
Proof. intros Hp Hf. induction p as [a|msg|X o k IH]; simpl in *; auto. Qed.

(** The value of the first part does not matter. *)
Lemma answers_any {A B} (P : B → Prop) (p : prog R A) (f : A → prog R B) :
  answers F (λ _, True) p → (∀ a, answers F P (f a)) → answers F P (bind p f).
Proof. intros Hp Hf. eapply answers_bind; [exact Hp|auto]. Qed.

Lemma answers_mono {A} (F' : string → Prop) (P P' : A → Prop) (p : prog R A) :
  (∀ a, P a → P' a) → (∀ msg, F msg → F' msg) → answers F P p → answers F' P' p.
Proof. intros HP HF. induction p as [a|msg|X o k IH]; simpl; auto. Qed.

Lemma answers_sound {A} (P : A → Prop) (p : prog R A) es w :
  answers F P p →
  (∀ a es' w', exec es p w = (Some (a, es'), w') → P a)
  ∧ (panics es p w → ∃ msg, F msg).
Proof.
  revert es w. induction p as [a|msg|X o k IH]; intros es w Hp; simpl in *.
  - split; [by intros ??? [= <- <- <-]|done].
  - split; [done|eauto].
  - destruct es as [|e es]; [done|]. destruct (interp o e w). by apply IH.
Qed.
End Answers.

(** Steps through a [wp] goal: sequencing, requests, and the case analysis of replies. *)
Ltac wp_step :=
  match goal with
  | |- wp _ (bind _ _) _ _ => apply wp_bind
  | |- wp _ (Call _ _) _ _ => split; [|intros ?e ?He]
  | |- wp _ (request _) _ _ => split; [|intros ?e ?He]
  end; simpl.

(** The name a program or a statement is an application of, to unfold it. *)
Ltac program_of p := lazymatch p with ?f _ => program_of f | _ => p end.
