(* ===== verification/Auth.v ===== *)
(** * Credential cryptography ([internal/auth])

    Passwords go through bcrypt (a library), API keys through SHA-256, session tokens through
    HMAC-SHA256 under the server's secret; keys and tokens are 32 random bytes in base64url. *)
From S2P Require Import Prelude GoStd Models Interfaces Effects Crypto GoStrings.
Open Scope Z_scope.

Definition APIKeyPrefix : string := "dk_".
Definition tokenBytes : nat := 32.
Definition prefixDisplayLen : nat := 8.

(** The salt [bcrypt.GenerateFromPassword] draws. *)
Definition bcrypt_salt_bytes : nat := 16.

Section Auth.
Context `{Bcrypt} {R : Type}.

Definition HashPassword (plaintext : string) : prog R (result string) :=
  let! salt := rand_Read bcrypt_salt_bytes in
  match salt with
  | inl e => Ret (inl (EWrap "hash password" e))
  | inr salt =>
      let! _ := bcrypt_work in
      Ret match bcrypt_GenerateFromPassword salt plaintext with
          | inl e => inl (EWrap "hash password" e)
          | inr h => inr h
          end
  end.

Definition CheckPassword (hash plaintext : string) : prog R (option error) :=
  let! _ := bcrypt_work in Ret (bcrypt_CompareHashAndPassword hash plaintext).

(** Compares with a hash made at startup; the answer is thrown away, the time is spent. *)
Definition CheckDummyPassword (plaintext : string) : prog R unit := bcrypt_work.

Definition randomToken : prog R (result string) :=
  let! b := rand_Read tokenBytes in
  Ret match b with
      | inl e => inl (EWrap "generate token" e)
      | inr b => inr (base64_EncodeToString b)
      end.

Definition GenerateSessionToken : prog R (result string) := randomToken.

(** The key and its display prefix. *)
Definition GenerateAPIKey : prog R (result (string * string)) :=
  let! tok := randomToken in
  Ret match tok with
      | inl e => inl e
      | inr tok => inr (APIKeyPrefix +:+ tok, APIKeyPrefix +:+ take_string prefixDisplayLen tok)%string
      end.
End Auth.

Definition HashAPIKey (full : string) : string :=
  hex_EncodeToString (SHA256.sum (bytes_of full)).

Definition HashSessionToken (secret : bytes) (token : string) : string :=
  hex_EncodeToString (hmac_sha256 secret (bytes_of token)).
