(* ===== verification/Samples.v ===== *)
(** * Sample data

    The reference instances of the libraries, and small tables and replies: the concrete
    inputs at which the theorems are instantiated. *)
From S2P Require Import Prelude GoStd Models Interfaces Db Effects Crypto Auth.
Open Scope Z_scope.

#[export] Existing Instances RefUUID.lib RefText.lib RefBcrypt.lib RefRouter.lib RefPostgres.lib RefCron.lib RefRedis.lib.

Definition demo_tenant : uuid := 1%N.

(** An API key of the tenant, and its stored hash. *)
Definition demo_key : string := "dk_demo".
Definition demo_key_hash : string := Eval vm_compute in HashAPIKey demo_key.
Definition demo_key_row : APIKey :=
  APIKey.mkAPIKey 100%N demo_tenant "ci" demo_key_hash "dk_demo" None 0.

(** One tenant with its key, nothing else. *)
Definition demo_db : DB :=
  {| empty_db with
     tbl_tenants := {[demo_tenant := Tenant.mkTenant demo_tenant "acme" 0]};
     tbl_api_keys := {[100%N := demo_key_row]} |}.

Definition demo_world : world RefRedis.store := mkWorld demo_db RefRedis.empty [].

(** A request answered at time [t] without a fault; [u] is the UUID it may generate. *)
Definition ok_at (t : Z) (u : uuid) : reply := mkReply FOk t u false [] [] [].

Lemma ok_at_reliable t u : reliable (ok_at t u).
Proof. done. Qed.

(** Job 7 of the tenant, on the default queue. *)
Definition sample_job (st : Status) (retryCount maxRetries : Z) : Job := {|
  Job.ID := 7%N;
  Job.TenantID := demo_tenant;
  Job.QueueName := "default";
  Job.JobType := "echo";
  Job.Payload := RawJSON (JObj [("n", JStr "one")]%string);
  Job.Status := st;
  Job.Result := RawNil;
  Job.ErrorMessage := None;
  Job.RetryCount := retryCount;
  Job.MaxRetries := maxRetries;
  Job.ScheduledAt := None;
  Job.StartedAt := None;
  Job.CompletedAt := None;
  Job.CreatedAt := 0;
  Job.UpdatedAt := 0;
|}.

Definition sample_db (j : Job) : DB := {| demo_db with tbl_jobs := {[Job.ID j := j]} |}.

Definition sample_world (j : Job) : world RefRedis.store :=
  mkWorld (sample_db j) RefRedis.empty [].

Lemma sample_lookup_Some j k a :
  tbl_jobs (sample_db j) !! k = Some a → a = j ∧ k = Job.ID j.
Proof. unfold sample_db. simpl. intros [? ?]%lookup_singleton_Some. done. Qed.

Lemma sample_keyed j : keyed Job.ID (tbl_jobs (sample_db j)).
Proof. intros k a Ha. apply sample_lookup_Some in Ha as [-> ->]. done. Qed.

Lemma sample_lookup j : tbl_jobs (sample_db j) !! Job.ID j = Some j.
Proof. unfold sample_db. simpl. apply lookup_singleton_eq. Qed.

Lemma sample_dlq_keyed j : keyed DLQRow.JobID (tbl_dead_letter_queue (sample_db j)).
Proof. intros k a Ha. simpl in Ha. by rewrite lookup_empty in Ha. Qed.
