(* ===== verification/Store.v ===== *)
(** * The Postgres persistence layer for jobs ([internal/store/store.go], [list.go])

    Each SQL text is a statement of type [sql]; each exported method is the program that
    sends it and maps the outcome to the package's sentinel errors. *)
From S2P Require Import Prelude GoStd Models Interfaces Db Effects.
Open Scope Z_scope.

(** ** Shared pieces of the statements on [jobs] *)

(** The trigger [trg_jobs_set_updated_at]. *)
Definition set_updated_at (now : Z) (r : Job) : Job := {| r with Job.UpdatedAt := now |}.

(** [UPDATE jobs SET set WHERE cond RETURNING *]: the updated rows and the new tables. *)
Definition update_jobs (cond : Job → bool) (set : Job → Job) (now : Z) (d : DB) : list Job * DB :=
  let upd := λ r, set_updated_at now (set r) in
  (update_returning cond upd (tbl_jobs d),
   {| d with tbl_jobs := update_where cond upd (tbl_jobs d) |}).

Definition id_is (id : uuid) (r : Job) : bool := bool_decide (Job.ID r = id).
Definition status_is (s : Status) (r : Job) : bool := bool_decide (Job.Status r = s).
Definition tenant_is (t : uuid) (r : Job) : bool := bool_decide (Job.TenantID r = t).

Section Store.
Context `{Postgres} {R : Type}.

(** ** CreateJob *)

(** The row an INSERT of [job] stores: the listed columns from the parameters, the others
    from the column defaults. *)
Definition inserted_row (job : Job) (payload : RawMessage) (now : Z) : Job := {|
  Job.ID := Job.ID job;
  Job.TenantID := Job.TenantID job;
  Job.QueueName := Job.QueueName job;
  Job.JobType := Job.JobType job;
  Job.Payload := payload;
  Job.Status := Job.Status job;
  Job.Result := RawNil;
  Job.ErrorMessage := None;
  Job.RetryCount := 0;
  Job.MaxRetries := Job.MaxRetries job;
  Job.ScheduledAt := pg_ts <$> Job.ScheduledAt job;
  Job.StartedAt := None;
  Job.CompletedAt := None;
  Job.CreatedAt := now;
  Job.UpdatedAt := now;
|}.

(** The parameters are encoded, then the NOT NULL, primary key and foreign key constraints
    are checked. *)
Definition insert_job_stmt (job : Job) : sql Job := λ now _ d,
  if negb (in_int32 (Job.MaxRetries job)) then (inl pgx_int4_range, d)
  else match jsonb_param (Job.Payload job) with
  | inl e => (inl e, d)
  | inr RawNil => (inl pg_not_null_violation, d)
  | inr payload =>
      match tbl_jobs d !! Job.ID job, tbl_tenants d !! Job.TenantID job with
      | Some _, _ => (inl pg_unique_violation, d)
      | None, None => (inl pg_foreign_key_violation, d)
      | None, Some _ =>
          let r := inserted_row job payload now in
          (inr r, {| d with tbl_jobs := <[Job.ID job := r]> (tbl_jobs d) |})
      end
  end.

(** On success the caller's struct becomes the inserted row. *)
Definition CreateJob (job : Job) : prog R (result Job) := exec_sql (insert_job_stmt job).

(** ** GetJob *)

Definition get_job_stmt (tenantID id : uuid) : sql Job := λ _ _ d,
  (query_row (select_where (λ r, id_is id r && tenant_is tenantID r) (tbl_jobs d)), d).

Definition GetJob (tenantID id : uuid) : prog R (result Job) :=
  let! r := exec_sql (get_job_stmt tenantID id) in
  Ret match r with
      | inl e => if errors_Is e PgxErrNoRows then inl (ESentinel ErrJobNotFound)
                 else inl (EWrap "get job" e)
      | inr job => inr job
      end.

(** ** ClaimJob *)

Definition claim_job_stmt (id : uuid) : sql Job := λ now _ d,
  let '(rs, d') :=
    update_jobs (λ r, id_is id r && status_is StatusPending r)
      (λ r, {| r with Job.Status := StatusProcessing; Job.StartedAt := Some now |}) now d in
  (query_row rs, d').

Definition ClaimJob (id : uuid) : prog R (result Job) :=
  let! r := exec_sql (claim_job_stmt id) in
  Ret match r with
      | inl e => if errors_Is e PgxErrNoRows then inl (ESentinel ErrJobNotClaimable)
                 else inl (EWrap "claim job" e)
      | inr job => inr job
      end.

(** ** MarkCompleted *)

Definition mark_completed_stmt (id : uuid) (res : RawMessage) : sql unit := λ now _ d,
  match jsonb_param res with
  | inl e => (inl e, d)
  | inr res' =>
      (inr tt, (update_jobs (id_is id)
                  (λ r, {| r with Job.Status := StatusCompleted; Job.Result := res';
                           Job.ErrorMessage := None; Job.CompletedAt := Some now |}) now d).2)
  end.

Definition MarkCompleted (id : uuid) (res : RawMessage) : prog R (option error) :=
  let! r := exec_sql (mark_completed_stmt id res) in Ret (err_of r).

(** ** MarkForRetry *)

Definition mark_for_retry_stmt (id : uuid) (retryCount : Z) (errMsg : string) : sql unit :=
  λ now _ d,
  if negb (in_int32 retryCount) then (inl pgx_int4_range, d)
  else (inr tt, (update_jobs (id_is id)
                   (λ r, {| r with Job.Status := StatusPending; Job.RetryCount := retryCount;
                            Job.ErrorMessage := Some errMsg |}) now d).2).

Definition MarkForRetry (id : uuid) (retryCount : Z) (errMsg : string) : prog R (option error) :=
  let! r := exec_sql (mark_for_retry_stmt id retryCount errMsg) in Ret (err_of r).

(** ** DeadLetter *)

Definition fail_job_stmt (id : uuid) (attempts : Z) (reason : string) : sql unit := λ now _ d,
  if negb (in_int32 attempts) then (inl pgx_int4_range, d)
  else (inr tt, (update_jobs (id_is id)
                   (λ r, {| r with Job.Status := StatusFailed; Job.RetryCount := attempts;
                            Job.ErrorMessage := Some reason; Job.CompletedAt := Some now |})
                   now d).2).

(** [INSERT INTO dead_letter_queue .. SELECT .. FROM jobs WHERE id = $1 ON CONFLICT (job_id)
    DO UPDATE SET reason, attempts]. *)
Definition upsert_dlq (reason : string) (attempts now : Z) (t : gmap uuid DLQRow) (r : Job)
    : gmap uuid DLQRow :=
  <[Job.ID r :=
      match t !! Job.ID r with
      | Some old => {| old with DLQRow.Reason := reason; DLQRow.Attempts := attempts |}
      | None => {| DLQRow.JobID := Job.ID r; DLQRow.TenantID := Job.TenantID r;
                   DLQRow.Reason := reason; DLQRow.Attempts := attempts;
                   DLQRow.CreatedAt := now |}
      end]> t.

Definition insert_dlq_stmt (id : uuid) (reason : string) (attempts : Z) : sql unit := λ now _ d,
  if negb (in_int32 attempts) then (inl pgx_int4_range, d)
  else (inr tt, {| d with tbl_dead_letter_queue :=
                     foldl (upsert_dlq reason attempts now) (tbl_dead_letter_queue d)
                       (select_where (id_is id) (tbl_jobs d)) |}).

Definition dead_letter_tx (id : uuid) (attempts : Z) (reason : string) : tx unit :=
  TxStmt (fail_job_stmt id attempts reason) (λ r,
  match r with
  | inl e => TxFail e
  | inr _ =>
      TxStmt (insert_dlq_stmt id reason attempts) (λ r',
      match r' with inl e => TxFail e | inr _ => TxCommit tt end)
  end).

Definition DeadLetter (id : uuid) (attempts : Z) (reason : string) : prog R (option error) :=
  let! r := exec_tx (dead_letter_tx id attempts reason) in Ret (err_of r).

(** ** ListJobs

    The WHERE clause is assembled as text with numbered placeholders next to the argument
    list; a condition is kept as its column and the placeholder's number. *)
Record JobFilter := mkJobFilter { Queue : string; StatusF : string; Limit : Z; Offset : Z }.

Inductive arg := ArgUUID (u : uuid) | ArgText (s : string) | ArgInt (z : Z).
Inductive column := col_tenant_id | col_queue_name | col_status.

Definition column_is (c : column) (a : option arg) (r : Job) : bool :=
  match c, a with
  | col_tenant_id, Some (ArgUUID u) => bool_decide (Job.TenantID r = u)
  | col_queue_name, Some (ArgText s) => bool_decide (Job.QueueName r = s)
  | col_status, Some (ArgText s) => bool_decide (Job.Status r = s)
  | _, _ => false
  end.

(** Placeholder [$n] is the [n]-th argument, counting from 1. *)
Definition placeholder (args : list arg) (n : nat) : option arg :=
  match n with O => None | S i => args !! i end.

Definition add_cond (c : column) (v : string) (ac : list arg * list (column * nat))
    : list arg * list (column * nat) :=
  if decide (v = EmptyString) then ac
  else let args := ac.1 ++ [ArgText v] in (args, ac.2 ++ [(c, length args)]).

Definition list_where (tenantID : uuid) (f : JobFilter) : list arg * list (column * nat) :=
  add_cond col_status (StatusF f)
    (add_cond col_queue_name (Queue f) ([ArgUUID tenantID], [(col_tenant_id, 1%nat)])).

Definition where_holds (args : list arg) (conds : list (column * nat)) (r : Job) : bool :=
  forallb (λ cn : column * nat, column_is cn.1 (placeholder args cn.2) r) conds.

Definition count_stmt (args : list arg) (conds : list (column * nat)) : sql Z := λ _ _ d,
  (inr (Z.of_nat (length (select_where (where_holds args conds) (tbl_jobs d)))), d).

Definition pg_invalid_limit : error := EPg "2201W".
Definition pg_invalid_offset : error := EPg "2201X".

Definition page_stmt (args : list arg) (conds : list (column * nat)) (lim off : nat)
    : sql (list Job) := λ _ _ d,
  match placeholder args lim, placeholder args off with
  | Some (ArgInt l), Some (ArgInt o) =>
      if l <? 0 then (inl pg_invalid_limit, d)
      else if o <? 0 then (inl pg_invalid_offset, d)
      else (inr (take (Z.to_nat l) (drop (Z.to_nat o)
                   (pg_order_by (λ r, - Job.CreatedAt r)
                      (select_where (where_holds args conds) (tbl_jobs d))))), d)
  | _, _ => (inl (EPg "42P02"), d)
  end.

Definition ListJobs (tenantID : uuid) (f : JobFilter) : prog R (result (list Job * Z)) :=
  let '(args, conds) := list_where tenantID f in
  let! total := exec_sql (count_stmt args conds) in
  match total with
  | inl e => Ret (inl (EWrap "count jobs" e))
  | inr n =>
      let args' := args ++ [ArgInt (Limit f); ArgInt (Offset f)] in
      let! page := exec_sql (page_stmt args' conds (length args' - 1) (length args')) in
      Ret match page with
          | inl e => inl (EWrap "list jobs" e)
          | inr jobs => inr (jobs, n)
          end
  end.

(** ** RetryJob *)

Definition select_status_stmt (tenantID id : uuid) : sql Status := λ _ _ d,
  (query_row (Job.Status <$> select_where (λ r, id_is id r && tenant_is tenantID r)
                               (tbl_jobs d)), d).

Definition reset_job_stmt (id : uuid) : sql Job := λ now _ d,
  let '(rs, d') :=
    update_jobs (id_is id)
      (λ r, {| r with Job.Status := StatusPending; Job.RetryCount := 0;
               Job.ErrorMessage := None; Job.Result := RawNil;
               Job.StartedAt := None; Job.CompletedAt := None |}) now d in
  (query_row rs, d').

Definition delete_dlq_stmt (id : uuid) : sql unit := λ _ _ d,
  (inr tt, {| d with tbl_dead_letter_queue :=
                delete_where (λ r, bool_decide (DLQRow.JobID r = id)) (tbl_dead_letter_queue d) |}).

Definition retry_job_tx (tenantID id : uuid) : tx Job :=
  TxStmt (select_status_stmt tenantID id) (λ st,
  match st with
  | inl e => if errors_Is e PgxErrNoRows then TxFail (ESentinel ErrJobNotFound)
             else TxFail (EWrap "load job for retry" e)
  | inr status =>
      if negb (bool_decide (status = StatusFailed)) then TxFail (ESentinel ErrJobNotRetryable)
      else
        TxStmt (reset_job_stmt id) (λ rj,
        match rj with
        | inl e => TxFail (EWrap "reset job for retry" e)
        | inr job =>
            TxStmt (delete_dlq_stmt id) (λ rd,
            match rd with
            | inl e => TxFail (EWrap "clear dead-letter row" e)
            | inr _ => TxCommit job
            end)
        end)
  end).

Definition RetryJob (tenantID id : uuid) : prog R (result Job) :=
  exec_tx (retry_job_tx tenantID id).

(** ** CancelJob *)

Definition cancel_job_stmt (tenantID id : uuid) : sql Job := λ now _ d,
  let '(rs, d') :=
    update_jobs (λ r, id_is id r && tenant_is tenantID r && status_is StatusPending r)
      (λ r, {| r with Job.Status := StatusCancelled; Job.CompletedAt := Some now |}) now d in
  (query_row rs, d').

Definition job_exists_stmt (tenantID id : uuid) : sql bool := λ _ _ d,
  (inr (match select_where (λ r, id_is id r && tenant_is tenantID r) (tbl_jobs d) with
        | [] => false | _ => true end), d).

Definition jobExists (tenantID id : uuid) : prog R (result bool) :=
  let! r := exec_sql (job_exists_stmt tenantID id) in
  Ret match r with
      | inl e => inl (EWrap "check job exists" e)
      | inr b => inr b
      end.

Definition CancelJob (tenantID id : uuid) : prog R (result Job) :=
  let! r := exec_sql (cancel_job_stmt tenantID id) in
  match r with
  | inr job => Ret (inr job)
  | inl e =>
      if errors_Is e PgxErrNoRows then
        let! ex := jobExists tenantID id in
        Ret match ex with
            | inl e' => inl e'
            | inr false => inl (ESentinel ErrJobNotFound)
            | inr true => inl (ESentinel ErrJobNotCancellable)
            end
      else Ret (inl (EWrap "cancel job" e))
  end.
End Store.
