(* ===== verification/Accounts.v ===== *)
(** * Tenants, users, sessions and API keys in Postgres
    ([internal/store/users.go], [sessions.go], [tenants.go], [apikeys.go]) *)
From S2P Require Import Prelude GoStd Models Interfaces Db Effects.
Open Scope Z_scope.

Section Accounts.
Context `{Postgres} {R : Type}.

(** ** Users *)

(** SQLSTATE 23505 anywhere in the chain. *)
Definition isUniqueViolation (err : error) : bool :=
  match errors_As_Pg err with
  | Some code => bool_decide (code = "23505"%string)
  | None => false
  end.

Definition insert_tenant_stmt (name : string) : sql Tenant := λ now u d,
  match tbl_tenants d !! u with
  | Some _ => (inl pg_unique_violation, d)
  | None =>
      let t := Tenant.mkTenant u name now in
      (inr t, {| d with tbl_tenants := <[u := t]> (tbl_tenants d) |})
  end.

(** [lower(email) = lower($1)]. *)
Definition email_is (email : string) (r : User) : bool :=
  bool_decide (pg_lower (User.Email r) = pg_lower email).

(** The primary key and the unique index on [lower(email)] are checked, then the foreign
    key. *)
Definition insert_user_stmt (tenantID : uuid) (email passwordHash : string) : sql User :=
  λ now u d,
  match tbl_users d !! u, select_where (email_is email) (tbl_users d) with
  | None, [] =>
      match tbl_tenants d !! tenantID with
      | None => (inl pg_foreign_key_violation, d)
      | Some _ =>
          let r := User.mkUser u tenantID email passwordHash now in
          (inr r, {| d with tbl_users := <[u := r]> (tbl_users d) |})
      end
  | _, _ => (inl pg_unique_violation, d)
  end.

Definition create_account_tx (email passwordHash : string) : tx (Tenant * User) :=
  TxStmt (insert_tenant_stmt email) (λ rt,
  match rt with
  | inl e => TxFail (EWrap "create tenant" e)
  | inr t =>
      TxStmt (insert_user_stmt (Tenant.ID t) email passwordHash) (λ ru,
      match ru with
      | inl e =>
          if isUniqueViolation e then TxFail (ESentinel ErrEmailTaken)
          else TxFail (EWrap "create user" e)
      | inr u => TxCommit (t, u)
      end)
  end).

Definition CreateAccount (email passwordHash : string) : prog R (result (Tenant * User)) :=
  exec_tx (create_account_tx email passwordHash).

Definition select_users_stmt (cond : User → bool) : sql User := λ _ _ d,
  (query_row (select_where cond (tbl_users d)), d).

Definition scanUser (cond : User → bool) : prog R (result User) :=
  let! r := exec_sql (select_users_stmt cond) in
  Ret match r with
      | inl e => if errors_Is e PgxErrNoRows then inl (ESentinel ErrUserNotFound)
                 else inl (EWrap "get user" e)
      | inr u => inr u
      end.

Definition GetUserByEmail (email : string) : prog R (result User) := scanUser (email_is email).
Definition GetUserByID (id : uuid) : prog R (result User) :=
  scanUser (λ r, bool_decide (User.ID r = id)).

(** ** Sessions *)

Definition token_is (tokenHash : string) (s : Session) : bool :=
  bool_decide (Session.TokenHash s = tokenHash).

Definition insert_session_stmt (userID : uuid) (tokenHash : string) (expiresAt : Z) : sql unit :=
  λ now u d,
  match tbl_sessions d !! u, select_where (token_is tokenHash) (tbl_sessions d) with
  | None, [] =>
      match tbl_users d !! userID with
      | None => (inl pg_foreign_key_violation, d)
      | Some _ =>
          let s := Session.mkSession u userID tokenHash now (pg_ts expiresAt) in
          (inr tt, {| d with tbl_sessions := <[u := s]> (tbl_sessions d) |})
      end
  | _, _ => (inl pg_unique_violation, d)
  end.

Definition CreateSession (userID : uuid) (tokenHash : string) (expiresAt : Z)
    : prog R (option error) :=
  let! r := exec_sql (insert_session_stmt userID tokenHash expiresAt) in
  Ret match r with inl e => Some (EWrap "create session" e) | inr _ => None end.

(** [sessions s JOIN users u ON u.id = s.user_id WHERE s.token_hash = $1 AND s.expires_at >
    now()]. *)
Definition session_user_stmt (tokenHash : string) : sql User := λ now _ d,
  (query_row
     (s ← select_where (λ s, token_is tokenHash s && (now <? Session.ExpiresAt s)) (tbl_sessions d);
      select_where (λ u, bool_decide (User.ID u = Session.UserID s)) (tbl_users d)), d).

Definition SessionUser (tokenHash : string) : prog R (result User) :=
  let! r := exec_sql (session_user_stmt tokenHash) in
  Ret match r with
      | inl e => if errors_Is e PgxErrNoRows then inl (ESentinel ErrSessionInvalid)
                 else inl (EWrap "session user" e)
      | inr u => inr u
      end.

Definition delete_session_stmt (tokenHash : string) : sql unit := λ _ _ d,
  (inr tt, {| d with tbl_sessions := delete_where (token_is tokenHash) (tbl_sessions d) |}).

Definition DeleteSession (tokenHash : string) : prog R (option error) :=
  let! r := exec_sql (delete_session_stmt tokenHash) in
  Ret match r with inl e => Some (EWrap "delete session" e) | inr _ => None end.

(** ** Tenants *)

Definition get_tenant_stmt (id : uuid) : sql Tenant := λ _ _ d,
  (query_row (select_where (λ t, bool_decide (Tenant.ID t = id)) (tbl_tenants d)), d).

Definition GetTenant (id : uuid) : prog R (result Tenant) :=
  let! r := exec_sql (get_tenant_stmt id) in
  Ret match r with
      | inl e => if errors_Is e PgxErrNoRows then inl (ESentinel ErrTenantNotFound)
                 else inl (EWrap "get tenant" e)
      | inr t => inr t
      end.

(** ** API keys *)

Definition hash_is (keyHash : string) (k : APIKey) : bool :=
  bool_decide (APIKey.KeyHash k = keyHash).

Definition insert_key_stmt (tenantID : uuid) (name keyHash keyPrefix : string) : sql APIKey :=
  λ now u d,
  match tbl_api_keys d !! u, select_where (hash_is keyHash) (tbl_api_keys d) with
  | None, [] =>
      match tbl_tenants d !! tenantID with
      | None => (inl pg_foreign_key_violation, d)
      | Some _ =>
          let k := APIKey.mkAPIKey u tenantID name keyHash keyPrefix None now in
          (inr k, {| d with tbl_api_keys := <[u := k]> (tbl_api_keys d) |})
      end
  | _, _ => (inl pg_unique_violation, d)
  end.

Definition CreateAPIKey (tenantID : uuid) (name keyHash keyPrefix : string)
    : prog R (result APIKey) :=
  let! r := exec_sql (insert_key_stmt tenantID name keyHash keyPrefix) in
  Ret match r with inl e => inl (EWrap "create api key" e) | inr k => inr k end.

(** [key_hash] is not selected: the field stays empty. *)
Definition list_keys_stmt (tenantID : uuid) : sql (list APIKey) := λ _ _ d,
  (inr ((λ k, {| k with APIKey.KeyHash := EmptyString |})
          <$> pg_order_by (λ k, - APIKey.CreatedAt k)
                (select_where (λ k, bool_decide (APIKey.TenantID k = tenantID))
                   (tbl_api_keys d))), d).

Definition ListAPIKeys (tenantID : uuid) : prog R (result (list APIKey)) :=
  let! r := exec_sql (list_keys_stmt tenantID) in
  Ret match r with inl e => inl (EWrap "list api keys" e) | inr ks => inr ks end.

Definition own_key (tenantID id : uuid) (k : APIKey) : bool :=
  bool_decide (APIKey.ID k = id) && bool_decide (APIKey.TenantID k = tenantID).

(** The command tag's count of deleted rows. *)
Definition delete_key_stmt (tenantID id : uuid) : sql nat := λ _ _ d,
  (inr (length (select_where (own_key tenantID id) (tbl_api_keys d))),
   {| d with tbl_api_keys := delete_where (own_key tenantID id) (tbl_api_keys d) |}).

Definition DeleteAPIKey (tenantID id : uuid) : prog R (option error) :=
  let! r := exec_sql (delete_key_stmt tenantID id) in
  Ret match r with
      | inl e => Some (EWrap "delete api key" e)
      | inr O => Some (ESentinel ErrAPIKeyNotFound)
      | inr (S _) => None
      end.

Definition auth_key_stmt (keyHash : string) : sql (uuid * uuid) := λ _ _ d,
  (query_row ((λ k, (APIKey.TenantID k, APIKey.ID k))
                <$> select_where (hash_is keyHash) (tbl_api_keys d)), d).

Definition AuthenticateAPIKey (keyHash : string) : prog R (result (uuid * uuid)) :=
  let! r := exec_sql (auth_key_stmt keyHash) in
  Ret match r with
      | inl e => if errors_Is e PgxErrNoRows then inl (ESentinel ErrAPIKeyNotFound)
                 else inl (EWrap "authenticate api key" e)
      | inr ids => inr ids
      end.

Definition touch_key_stmt (keyID : uuid) : sql unit := λ now _ d,
  (inr tt, {| d with tbl_api_keys :=
                update_where (λ k, bool_decide (APIKey.ID k = keyID))
                  (λ k, {| k with APIKey.LastUsedAt := Some now |}) (tbl_api_keys d) |}).

Definition TouchAPIKey (keyID : uuid) : prog R (option error) :=
  let! r := exec_sql (touch_key_stmt keyID) in
  Ret match r with inl e => Some (EWrap "touch api key" e) | inr _ => None end.
End Accounts.
