(* ===== verification/Stats.v ===== *)
(** * Statistics over the jobs of a tenant ([internal/store/stats.go], queue names of [list.go]) *)
From S2P Require Import Prelude GoStd Models Interfaces Float64 Db Effects Store.
Open Scope Z_scope.

Module Metrics.
Record Metrics := mkMetrics {
  CompletedLastMinute : Z; CompletedLastHour : Z; FailedLastHour : Z;
  AvgLatencySeconds : float64
}.
End Metrics.
Abbreviation Metrics := Metrics.Metrics.

Section Stats.
Context `{Postgres} {R : Type}.

(** ** [JobMetrics] *)

(** [status = s AND completed_at >= now() - window]; a NULL compares as false. *)
Definition ended_within (s : Status) (window now : Z) (r : Job) : bool :=
  status_is s r
  && match Job.CompletedAt r with None => false | Some t => now - window <=? t end.

Definition count_where (p : Job → bool) (rs : list Job) : Z :=
  Z.of_nat (length (filter (λ r, p r = true) rs)).

(** [completed_at - started_at] of the rows where both are set. *)
Definition latency (r : Job) : option Z :=
  c ← Job.CompletedAt r; s ← Job.StartedAt r; Some (c - s).

(** [coalesce(avg(..), 0)]: the average of no rows is NULL. *)
Definition coalesce_avg (l : list Z) : float64 :=
  match l with [] => f64_zero | _ => pg_avg_seconds l end.

Definition job_metrics_stmt (tenantID : uuid) : sql Metrics := λ now _ d,
  let rs := select_where (tenant_is tenantID) (tbl_jobs d) in
  let recent := filter (λ r, ended_within StatusCompleted Hour now r = true) rs in
  (inr (Metrics.mkMetrics
          (count_where (ended_within StatusCompleted Minute now) rs)
          (count_where (ended_within StatusCompleted Hour now) rs)
          (count_where (ended_within StatusFailed Hour now) rs)
          (coalesce_avg (omap latency recent))), d).

Definition JobMetrics (tenantID : uuid) : prog R (result Metrics) :=
  let! r := exec_sql (job_metrics_stmt tenantID) in
  Ret match r with inl e => inl (EWrap "job metrics" e) | inr m => inr m end.

(** ** [StatusCounts] *)

(** One row per status that occurs: the status, its jobs, and those created today. *)
Definition status_counts_stmt (tenantID : uuid) : sql (list (Status * Z * Z)) := λ now _ d,
  let rs := select_where (tenant_is tenantID) (tbl_jobs d) in
  (inr ((λ st, (st, count_where (status_is st) rs,
                count_where (λ r, status_is st r && (pg_day_start now <=? Job.CreatedAt r)) rs))
          <$> remove_dups (Job.Status <$> rs)), d).

(** The loop over the rows. *)
Definition collect_counts (rows : list (Status * Z * Z)) : gmap string Z * Z :=
  foldl (λ acc row, (<[row.1.1 := row.1.2]> acc.1, acc.2 + row.2)) (∅, 0) rows.

Definition StatusCounts (tenantID : uuid) : prog R (result (gmap string Z * Z)) :=
  let! r := exec_sql (status_counts_stmt tenantID) in
  Ret match r with
      | inl e => inl (EWrap "status counts" e)
      | inr rows => inr (collect_counts rows)
      end.

(** ** Queue names *)

Definition queue_names_stmt (cond : Job → bool) : sql (list string) := λ _ _ d,
  (inr (pg_order_text (remove_dups (Job.QueueName <$> select_where cond (tbl_jobs d)))), d).

Definition scanQueueNames (cond : Job → bool) : prog R (result (list string)) :=
  let! r := exec_sql (queue_names_stmt cond) in
  Ret match r with inl e => inl (EWrap "queue names" e) | inr ns => inr ns end.

Definition QueueNames (tenantID : uuid) : prog R (result (list string)) :=
  scanQueueNames (tenant_is tenantID).
Definition AllQueueNames : prog R (result (list string)) := scanQueueNames (λ _, true).

(** ** [Ping] *)
Definition Ping : prog R (option error) :=
  let! r := exec_sql (λ _ _ d, (inr tt, d)) in Ret (err_of r).
End Stats.
