(* ===== verification/Migrate.v ===== *)
(** * The migration runner ([internal/store/migrate.go])

    Applies each migration file that is not recorded in [schema_migrations], in order of name,
    each in one transaction with its record. *)
From S2P Require Import Prelude GoStd Models Interfaces Db Effects GoStrings.
Open Scope Z_scope.

(** What the server does with the text of a migration file. *)
Class SqlScripts := { exec_script : string → sql unit }.

(** The scripts leave the runner's own table alone. *)
Class SqlScriptsLaws `{SqlScripts} : Prop := {
  script_keeps_record text now u d :
    tbl_schema_migrations (exec_script text now u d).2 = tbl_schema_migrations d;
}.

(** An [fs.FS] without directories: file names and their contents. *)
Definition FS : Type := gmap string string.

Definition up_suffix : string := ".up.sql".

(** [fs.Glob(fsys, "*.up.sql")], sorted. *)
Definition migration_names (fsys : FS) : list string :=
  merge_sort string_le (filter (λ n, HasSuffix n up_suffix = true) (map_to_list fsys).*1).

Section Migrate.
Context `{SqlScripts} {R : Type}.

Definition create_migrations_stmt : sql unit := λ _ _ d,
  (inr tt, {| d with tbl_schema_migrations := Some (default ∅ (tbl_schema_migrations d)) |}).

Definition is_applied_stmt (version : string) : sql bool := λ _ _ d,
  (match tbl_schema_migrations d with
   | None => inl pg_undefined_table
   | Some t => inr (bool_decide (is_Some (t !! version)))
   end, d).

Definition record_version_stmt (version : string) : sql unit := λ now _ d,
  match tbl_schema_migrations d with
  | None => (inl pg_undefined_table, d)
  | Some t =>
      match t !! version with
      | Some _ => (inl pg_unique_violation, d)
      | None => (inr tt, {| d with tbl_schema_migrations := Some (<[version := now]> t) |})
      end
  end.

Definition apply_migration_tx (version sqlText : string) : tx unit :=
  TxStmt (exec_script sqlText) (λ r,
  match r with
  | inl e => TxFail e
  | inr _ =>
      TxStmt (record_version_stmt version) (λ r,
      match r with inl e => TxFail e | inr _ => TxCommit tt end)
  end).

Definition applyMigration (version sqlText : string) : prog R (option error) :=
  let! r := exec_tx (apply_migration_tx version sqlText) in Ret (err_of r).

(** The loop over the file names. *)
Fixpoint migrate_files (fsys : FS) (names : list string) : prog R (option error) :=
  match names with
  | [] => Ret None
  | name :: names' =>
      let version := TrimSuffix name up_suffix in
      let! applied := exec_sql (is_applied_stmt version) in
      match applied with
      | inl e => Ret (Some (EWrap ("check migration " +:+ version) e))
      | inr true => migrate_files fsys names'
      | inr false =>
          match fsys !! name with
          | None => Ret (Some (EWrap ("read migration " +:+ name) (EText "file does not exist")))
          | Some sqlText =>
              let! err := applyMigration version sqlText in
              match err with
              | Some e => Ret (Some (EWrap ("apply migration " +:+ version) e))
              | None => migrate_files fsys names'
              end
          end
      end
  end.

Definition Migrate (fsys : FS) : prog R (option error) :=
  let! r := exec_sql create_migrations_stmt in
  match r with
  | inl e => Ret (Some (EWrap "create schema_migrations" e))
  | inr _ => migrate_files fsys (migration_names fsys)
  end.
End Migrate.
