(* ===== verification/WorkerMetrics.v ===== *)
(** * The worker's Prometheus instruments ([internal/metrics/worker.go])

    A counter per outcome and a latency histogram per job type, in the worker's own registry.
    The client library's vectors are parameters with their documented behaviour. *)
From S2P Require Import Prelude GoStd Models Interfaces Float64 Db Effects.
Open Scope Z_scope.

(** ** [client_golang]

    [NewHistogramVec] panics ([None]) unless the bucket bounds increase. [counter_value c l]
    is the series labelled [l] as a scrape shows it, absent until it is created;
    [bucket_value h l b] the cumulative bucket with upper bound [b]. *)
Class Prometheus := {
  CounterVec : Type;
  HistogramVec : Type;
  NewCounterVec : CounterVec;
  counter_WithLabelValues : string → CounterVec → CounterVec;
  counter_Inc : string → CounterVec → CounterVec;
  counter_value : CounterVec → string → option nat;
  NewHistogramVec : list float64 → option HistogramVec;
  histogram_Observe : string → float64 → HistogramVec → HistogramVec;
  bucket_value : HistogramVec → string → float64 → option nat;
}.

Definition increasing (bounds : list float64) : Prop :=
  Sorted (λ x y, f64_ltb x y = true) bounds.

(** [counts_of h bounds obs]: the buckets of [h] count the observations [obs] of each label. *)
Definition counts_of `{Prometheus} (h : HistogramVec) (bounds : list float64)
    (obs : string → list float64) : Prop := ∀ l b, b ∈ bounds →
  bucket_value h l b
  = if decide (obs l = []) then None
    else Some (length (filter (λ x, f64_leb x b = true) (obs l))).

Class PrometheusLaws `{Prometheus} : Prop := {
  counter_new l : counter_value NewCounterVec l = None;
  counter_created l c l' :
    counter_value (counter_WithLabelValues l c) l'
    = if decide (l = l') then Some (default 0%nat (counter_value c l)) else counter_value c l';
  counter_incremented l c l' :
    counter_value (counter_Inc l c) l'
    = if decide (l = l') then Some (S (default 0%nat (counter_value c l))) else counter_value c l';
  histogram_new bounds :
    increasing bounds → ∃ h, NewHistogramVec bounds = Some h ∧ counts_of h bounds (λ _, []);
  histogram_observed bounds h obs l x :
    counts_of h bounds obs →
    counts_of (histogram_Observe l x h) bounds
      (λ l', if decide (l = l') then x :: obs l else obs l');
}.

(** [time.Duration.Seconds]. *)
Definition duration_Seconds (d : Z) : float64 :=
  f64_add (f64_of_Z (Z.quot d Second)) (f64_div (f64_of_Z (Z.rem d Second)) (f64_of_Z 1000000000)).

(** 0.005, 0.01, 0.025, 0.05, 0.1, 0.25, 0.5, 1, 2.5, 5, 10, 30, 60, 120: each the float64
    nearest to the decimal, which a correctly rounded division gives. *)
Definition latencyBuckets : list float64 :=
  (λ ms, f64_div (f64_of_Z ms) (f64_of_Z 1000))
    <$> [5; 10; 25; 50; 100; 250; 500; 1000; 2500; 5000; 10000; 30000; 60000; 120000].

Module Instruments.
Section Instruments.
Context `{Prometheus}.

Record Worker := mkWorker { latency : HistogramVec; processed : CounterVec }.

(** [None]: the panic of the library on bad bucket bounds. *)
Definition NewWorker : option Worker :=
  latency ← NewHistogramVec latencyBuckets;
  let processed := NewCounterVec in
  Some (mkWorker latency
          (foldl (λ c s, counter_WithLabelValues s c) processed ["completed"; "failed"]%string)).

Definition ObserveLatency (w : Worker) (jobType : string) (d : Z) : Worker :=
  mkWorker (histogram_Observe jobType (duration_Seconds d) (latency w)) (processed w).

Definition IncProcessed (w : Worker) (status : string) : Worker :=
  mkWorker (latency w) (counter_Inc status (processed w)).

(** The instruments after the samples a worker recorded, the latest first in the list. *)
Definition record (m : metric) (w : Worker) : Worker :=
  match m with
  | ObservedLatency jobType d => ObserveLatency w jobType d
  | IncrementedProcessed status => IncProcessed w status
  end.
Definition after (ms : list metric) (w : Worker) : Worker := foldr record w ms.
End Instruments.
End Instruments.

(** ** What a scrape of the worker shows *)

(** How often a status was counted, and the run times of a job type. *)
Definition processed_total (status : string) (ms : list metric) : nat :=
  length (filter (λ m, m = IncrementedProcessed status) ms).
Definition run_times (jobType : string) (ms : list metric) : list float64 :=
  omap (λ m, match m with
             | ObservedLatency ty d =>
                 if decide (ty = jobType) then Some (duration_Seconds d) else None
             | IncrementedProcessed _ => None
             end) ms.

Section Scrape.
Context `{Prometheus} `{!PrometheusLaws}.

Lemma latencyBuckets_increasing : increasing latencyBuckets.
Proof. repeat constructor; vm_compute; reflexivity. Qed.

(** The bounds are sharp at a nanosecond: a run of exactly the bound falls into the bucket, one
    a nanosecond longer does not. *)
Lemma latencyBuckets_sharp :
  Forall2 (λ ms b, f64_leb (duration_Seconds (ms * 1000000)) b = true
                 ∧ f64_leb (duration_Seconds (ms * 1000000 + 1)) b = false)
    [5; 10; 25; 50; 100; 250; 500; 1000; 2500; 5000; 10000; 30000; 60000; 120000] latencyBuckets.
Proof. repeat constructor; vm_compute; reflexivity. Qed.

Lemma after_counts ms w l :
  counter_value (Instruments.processed (Instruments.after ms w)) l
  = if decide (processed_total l ms = 0%nat) then counter_value (Instruments.processed w) l
    else Some (processed_total l ms + default 0%nat (counter_value (Instruments.processed w) l))%nat.
Proof.
  induction ms as [|[ty d|s] ms IH]; [by rewrite decide_True| |]; simpl.
  - rewrite IH. unfold processed_total. by rewrite filter_cons_False by done.
  - rewrite counter_incremented. unfold processed_total in *. rewrite filter_cons.
    destruct (decide (s = l)) as [->|Hne].
    + rewrite (decide_True (P := IncrementedProcessed l = _)) by done. simpl. rewrite IH.
      by case_decide as E; rewrite ?E.
    + rewrite (decide_False (P := IncrementedProcessed s = _)) by congruence. exact IH.
Qed.

Lemma after_buckets ms w :
  counts_of (Instruments.latency w) latencyBuckets (λ _, []) →
  counts_of (Instruments.latency (Instruments.after ms w)) latencyBuckets (λ ty, run_times ty ms).
Proof.
  intros Hw. induction ms as [|[ty d|s] ms IH]; simpl; [exact Hw| |exact IH].
  intros l b Hb. rewrite (histogram_observed _ _ _ ty (duration_Seconds d) IH l b Hb).
  unfold run_times. simpl. destruct (decide (ty = l)) as [->|]; done.
Qed.
End Scrape.

(** ** A concrete client library *)

Module RefPrometheus.
Definition observed (h : gmap string (list float64)) (l : string) (b : float64) : option nat :=
  obs ← h !! l; Some (length (filter (λ x, f64_leb x b = true) obs)).

Definition lib : Prometheus := {|
  CounterVec := gmap string nat;
  HistogramVec := gmap string (list float64);
  NewCounterVec := ∅;
  counter_WithLabelValues := λ l c, <[l := default 0%nat (c !! l)]> c;
  counter_Inc := λ l c, <[l := S (default 0%nat (c !! l))]> c;
  counter_value := λ c l, c !! l;
  NewHistogramVec := λ bounds,
    if decide (Sorted (λ x y, f64_ltb x y = true) bounds) then Some ∅ else None;
  histogram_Observe := λ l x h, <[l := x :: default [] (h !! l)]> h;
  bucket_value := observed;
|}.

Lemma laws : PrometheusLaws (H := lib).
Proof.
  constructor; simpl.
  - intros l. apply lookup_empty.
  - intros l c l'. by rewrite lookup_insert.
  - intros l c l'. by rewrite lookup_insert.
  - intros bounds Hb. exists ∅. rewrite decide_True by exact Hb. split; [done|].
    intros l b _. simpl. unfold observed. by rewrite lookup_empty.
  - intros bounds h obs l x Hh l' b Hb. specialize (Hh l' b Hb). simpl in *. unfold observed in *.
    rewrite lookup_insert. destruct (decide (l = l')) as [<-|Hne]; [|exact Hh].
    rewrite decide_False by done. simpl. rewrite !filter_cons.
    destruct (h !! l) as [stored|]; simpl in *; destruct (decide (obs l = [])) as [E|E]; try done.
    + injection Hh as Hh. case_decide; simpl; congruence.
    + rewrite E. by case_decide.
Qed.
End RefPrometheus.

Section Exported.
Context `{Prometheus} `{!PrometheusLaws}.

Lemma NewWorker_no_panic :
  ∃ h, counts_of h latencyBuckets (λ _, [])
    ∧ Instruments.NewWorker = Some (Instruments.mkWorker h
        (counter_WithLabelValues "failed" (counter_WithLabelValues "completed" NewCounterVec))).
Proof.
  destruct (histogram_new latencyBuckets latencyBuckets_increasing) as (h & Hnew & Hh).
  exists h. split; [done|]. unfold Instruments.NewWorker. by rewrite Hnew.
Qed.

(** What a scrape of the worker shows: the instruments can be built (the bucket bounds
    increase, so registering them does not panic), and after whatever the worker recorded the
    two series of [jobs_processed_total] are there from the start, at 0, and count every
    recorded outcome, while each bucket of [job_latency_seconds] counts the runs of its job type
    that took at most its bound. *)
Theorem worker_metrics_show_what_was_recorded :
  ∃ w, Instruments.NewWorker = Some w ∧ ∀ ms,
    counter_value (Instruments.processed (Instruments.after ms w)) "completed"
      = Some (processed_total "completed" ms)
    ∧ counter_value (Instruments.processed (Instruments.after ms w)) "failed"
      = Some (processed_total "failed" ms)
    ∧ counts_of (Instruments.latency (Instruments.after ms w)) latencyBuckets
        (λ ty, run_times ty ms).
Proof.
  destruct NewWorker_no_panic as (h & Hh & ->). eexists. split; [reflexivity|].
  intros ms. split_and!; [..|by apply after_buckets].
  all: rewrite after_counts; simpl; rewrite !counter_created, !counter_new; simpl.
  all: destruct (decide _) as [E|_]; [by rewrite E|by rewrite Nat.add_0_r].
Qed.
End Exported.

Lemma worker_metrics_show_what_was_recorded_witness :
  ∃ w, Instruments.NewWorker (H := RefPrometheus.lib) = Some w
    ∧ counter_value (Prometheus := RefPrometheus.lib)
        (Instruments.processed (H := RefPrometheus.lib)
          (Instruments.after (H := RefPrometheus.lib)
             [IncrementedProcessed "completed"; ObservedLatency "echo" 7]%string w)) "completed"
      = Some 1%nat.
Proof.
  destruct (worker_metrics_show_what_was_recorded (H := RefPrometheus.lib)
              (H0 := RefPrometheus.laws)) as (w & Hw & Hs).
  exists w. split; [exact Hw|]. exact (proj1 (Hs [IncrementedProcessed "completed"; ObservedLatency "echo" 7]%string)).
Defined.
