(* ===== verification/Queue.v ===== *)
(** * The Redis work queue ([internal/queue/queue.go])

    A work list and a delayed set per queue, and one expiring heartbeat key per worker. *)
From S2P Require Import Prelude GoStd Models Interfaces Db Effects.
Open Scope Z_scope.

Definition keyPrefix : string := "dispatch:queue:".
Definition delayedKeyPrefix : string := "dispatch:delayed:".
Definition workerKeyPrefix : string := "dispatch:worker:".

Definition HeartbeatInterval : Z := 10 * Second.
Definition WorkerTTL : Z := 30 * Second.

(** The Redis keys the package uses. *)
Definition queue_key (queueName : string) : string := keyPrefix +:+ queueName.
Definition delayed_key (queueName : string) : string := delayedKeyPrefix +:+ queueName.
Definition worker_key (workerID : string) : string := workerKeyPrefix +:+ workerID.

(** A Redis error wrapped by [fmt.Errorf("<prefix>: %w", err)]; nil otherwise. *)
Definition wrap_err {X} (prefix : string) (r : result X) : option error :=
  match r with inl e => Some (EWrap prefix e) | inr _ => None end.

Section Queue.
Context `{GoText} {R : Type} `{Redis R}.

Definition Enqueue (queueName jobID : string) : prog R (option error) :=
  let! r := redis_cmd (λ _ s, (tt, LPUSH (keyPrefix +:+ queueName) jobID s)) in
  Ret (wrap_err ("lpush " +:+ strconv_Quote queueName) r).

(** Answers the id and the name of the queue it came from; [redis.Nil] on timeout. The
    command is evaluated at the instant it is answered. *)
Definition Dequeue (queueNames : list string) : prog R (result (string * string)) :=
  let keys := (λ name, keyPrefix +:+ name) <$> queueNames in
  let! r := redis_cmd (λ _ s, BRPOP keys s) in
  Ret match r with
      | inl e => inl e
      | inr None => inl (ESentinel RedisNil)
      | inr (Some (key, value)) => inr (value, TrimPrefix key keyPrefix)
      end.

Definition Len (queueName : string) : prog R (result Z) :=
  redis_cmd (λ _ s, (LLEN (keyPrefix +:+ queueName) s, s)).

Definition EnqueueDelayed (queueName jobID : string) (runAt : Z) : prog R (option error) :=
  let! r := redis_cmd (λ _ s,
      (tt, ZADD (delayedKeyPrefix +:+ queueName) (float64_of_int (Unix runAt)) jobID s)) in
  Ret (wrap_err ("zadd " +:+ strconv_Quote queueName) r).

(** The Lua script: for each due member, LPUSH it and ZREM it; the count moved. The numeric
    argument reaches Redis as text and is read back as a double. *)
Definition promoteScript (k1 k2 : string) (now limit : Z) (s : R) : Z * R :=
  let due := ZRANGEBYSCORE k1 (float64_of_int now) limit s in
  (Z.of_nat (length due), foldl (λ s m, ZREM k1 m (LPUSH k2 m s)) s due).

Definition PromoteDue (queueName : string) (now limit : Z) : prog R (result Z) :=
  let! r := redis_cmd (λ _ s,
      promoteScript (delayedKeyPrefix +:+ queueName) (keyPrefix +:+ queueName)
        (Unix now) limit s) in
  Ret match r with
      | inl e => inl (EWrap ("promote due " +:+ strconv_Quote queueName) e)
      | inr n => inr n
      end.

Definition DelayedLen (queueName : string) : prog R (result Z) :=
  redis_cmd (λ _ s, (ZCARD (delayedKeyPrefix +:+ queueName) s, s)).

Definition Remove (queueName jobID : string) : prog R (option error) :=
  let! r := redis_cmd (λ _ s, (tt, LREM (keyPrefix +:+ queueName) jobID s)) in
  match r with
  | inl e => Ret (Some (EWrap ("lrem " +:+ strconv_Quote queueName) e))
  | inr _ =>
      let! r' := redis_cmd (λ _ s, (tt, ZREM (delayedKeyPrefix +:+ queueName) jobID s)) in
      Ret (wrap_err ("zrem " +:+ strconv_Quote queueName) r')
  end.

Definition Heartbeat (workerID : string) : prog R (option error) :=
  let! r := redis_cmd (λ now s, (tt, SETEX (workerKeyPrefix +:+ workerID) (now + WorkerTTL) s)) in
  Ret (wrap_err "worker heartbeat" r).

Definition RemoveWorker (workerID : string) : prog R (option error) :=
  let! r := redis_cmd (λ _ s, (tt, DEL (workerKeyPrefix +:+ workerID) s)) in
  Ret (wrap_err "remove worker" r).

(** The SCAN loop, for at most [fuel] rounds; a panic stands for a scan that goes on. *)
Fixpoint scan_workers (fuel : nat) (cursor : Z) (seen : gset string) : prog R (result Z) :=
  match fuel with
  | O => Panic "still scanning"
  | S fuel' =>
      let! r := redis_cmd (λ now s, (SCAN cursor workerKeyPrefix now s, s)) in
      match r with
      | inl e => Ret (inl (EWrap "count active workers" e))
      | inr (next, keys) =>
          let seen := list_to_set keys ∪ seen in
          if next =? 0 then Ret (inr (Z.of_nat (size seen))) else scan_workers fuel' next seen
      end
  end.

Definition CountActiveWorkers (fuel : nat) : prog R (result Z) := scan_workers fuel 0 ∅.

(** [Ping]. *)
Definition Ping : prog R (option error) :=
  let! r := redis_cmd (λ _ s, (tt, s)) in Ret (err_of r).
End Queue.
