(* ===== verification/Schedules.v ===== *)
(** * Recurring schedules in Postgres ([internal/store/schedules.go]) *)
From S2P Require Import Prelude GoStd Models Interfaces Db Effects.
Open Scope Z_scope.

Section Schedules.
Context `{Postgres} {R : Type}.

Definition is_due (now : Z) (sc : JobSchedule) : bool :=
  JobSchedule.Enabled sc && (JobSchedule.NextRunAt sc <=? pg_ts now).

Definition due_schedules_stmt (now : Z) : sql (list JobSchedule) := λ _ _ d,
  (inr (pg_order_by JobSchedule.NextRunAt (select_where (is_due now) (tbl_job_schedules d))), d).

Definition DueSchedules (now : Z) : prog R (result (list JobSchedule)) :=
  let! r := exec_sql (due_schedules_stmt now) in
  Ret match r with
      | inl e => inl (EWrap "query due schedules" e)
      | inr scs => inr scs
      end.

Definition claimable (id : uuid) (expectedNextRunAt : Z) (sc : JobSchedule) : bool :=
  bool_decide (JobSchedule.ID sc = id) && JobSchedule.Enabled sc
  && (JobSchedule.NextRunAt sc =? pg_ts expectedNextRunAt).

(** The compare-and-swap: answers the number of rows it updated. *)
Definition claim_schedule_stmt (id : uuid) (expectedNextRunAt lastRunAt nextRunAt : Z) : sql Z :=
  λ _ _ d,
  let set := λ sc, {| sc with JobSchedule.LastRunAt := Some (pg_ts lastRunAt);
                      JobSchedule.NextRunAt := pg_ts nextRunAt |} in
  let hit := claimable id expectedNextRunAt in
  (inr (Z.of_nat (length (select_where hit (tbl_job_schedules d)))),
   {| d with tbl_job_schedules := update_where hit set (tbl_job_schedules d) |}).

Definition ClaimScheduleRun (id : uuid) (expectedNextRunAt lastRunAt nextRunAt : Z)
    : prog R (result bool) :=
  let! r := exec_sql (claim_schedule_stmt id expectedNextRunAt lastRunAt nextRunAt) in
  Ret match r with
      | inl e => inl (EWrap "claim schedule run" e)
      | inr n => inr (n =? 1)
      end.
End Schedules.
