(* ===== verification/Enqueue.v ===== *)
(** * The shared producer path ([internal/enqueue/enqueue.go])

    Persist the job in Postgres, then push its id onto the Redis work list. *)
From S2P Require Import Prelude GoStd Models Interfaces Db Effects Store Queue.
Open Scope Z_scope.

Definition DefaultMaxRetries : Z := 3.

Section Enqueue.
Context `{Postgres} `{UUIDLib} `{GoText} {R : Type} `{Redis R}.

Definition applyDefaults (job : Job) : prog R Job :=
  let! job := (if decide (Job.ID job = uuid_Nil) then
                 let! id := uuid_New in Ret {| job with Job.ID := id |}
               else Ret job) in
  let job := if decide (Job.QueueName job = EmptyString)
             then {| job with Job.QueueName := "default" |} else job in
  let job := match Job.Payload job with
             | RawNil => {| job with Job.Payload := RawJSON (JObj []) |}
             | _ => job
             end in
  let job := if decide (Job.Status job = EmptyString)
             then {| job with Job.Status := StatusPending |} else job in
  Ret job.

(** The error, and the caller's struct as [Submit] leaves it. *)
Definition Submit (job : Job) : prog R (option error * Job) :=
  let! job := applyDefaults job in
  if decide (Job.TenantID job = uuid_Nil) then Ret (Some (ESentinel ErrMissingTenant), job)
  else
    let! r := CreateJob job in
    match r with
    | inl e => Ret (Some (EWrap "persist job" e), job)
    | inr job =>
        let! e := Queue.Enqueue (Job.QueueName job) (uuid_String (Job.ID job)) in
        Ret (match e with
             | Some e => Some (EWrapV ErrEnqueueAfterPersist e)
             | None => None
             end, job)
    end.
End Enqueue.
