(* ===== verification/Registry.v ===== *)
(** * Job handlers and their registry ([internal/jobs]) *)
From S2P Require Import Prelude GoStd Models Interfaces Db Effects GoStrings.
Open Scope Z_scope.

(** ** Decoded payloads

    A [map[string]interface{}]: an association list sorted by key without duplicates, the
    order in which [encoding/json] prints a map. *)
Abbreviation object := (list (string * json)).

Fixpoint obj_insert (k : string) (v : json) (o : object) : object :=
  match o with
  | [] => [(k, v)]
  | (k', v') :: o' =>
      match String.compare k k' with
      | Lt => (k, v) :: o
      | Eq => (k, v) :: o'
      | Gt => (k', v') :: obj_insert k v o'
      end
  end.

Fixpoint obj_get (k : string) (o : object) : option json :=
  match o with
  | [] => None
  | (k', v) :: o' => if decide (k = k') then Some v else obj_get k o'
  end.

(** [v, _ := payload[k].(string)]: the empty string when absent or of another type. *)
Definition get_string (k : string) (o : object) : string :=
  match obj_get k o with Some (JStr s) => s | _ => EmptyString end.

(** What a handler returns: a value [json.Marshal] encodes, or one it rejects. *)
Inductive value := VJson (j : json) | VUnsupported.

Definition exportPDFDuration : Z := 3 * Second.

Section Registry.
Context `{UUIDLib} `{GoText} {R : Type}.

(** Decoding into [interface{}]: numbers become float64, a repeated key keeps its last
    value. [None]: a number out of range. *)
Fixpoint decode_value (j : json) : option json :=
  match j with
  | JNull | JBool _ | JStr _ => Some j
  | JNum lit => JNum <$> float64_text lit
  | JArr l =>
      JArr <$> (fix go (l : list json) : option (list json) :=
        match l with
        | [] => Some []
        | x :: l' => x' ← decode_value x; r ← go l'; Some (x' :: r)
        end) l
  | JObj kvs =>
      JObj <$> (fix go (kvs : object) (acc : object) : option object :=
        match kvs with
        | [] => Some acc
        | (k, v) :: kvs' => v' ← decode_value v; go kvs' (obj_insert k v' acc)
        end) kvs []
  end.

Definition json_Marshal (v : value) : result RawMessage :=
  match v with
  | VJson j => inr (RawJSON j)
  | VUnsupported => inl (EText "json: unsupported type")
  end.

Definition JobHandler : Type := object → prog R (result value).

(** ** Registry *)

Record Registry := mkRegistry { handlers : gmap string JobHandler }.

Definition NewRegistry : Registry := mkRegistry ∅.

(** [None]: the duplicate-registration panic. *)
Definition Register (r : Registry) (jobType : string) (h : JobHandler) : option Registry :=
  match handlers r !! jobType with
  | Some _ => None
  | None => Some (mkRegistry (<[jobType := h]> (handlers r)))
  end.

Definition Get (r : Registry) (jobType : string) : result JobHandler :=
  match handlers r !! jobType with
  | None => inl (EText ("no handler registered for job_type " +:+ strconv_Quote jobType))
  | Some h => inr h
  end.

(** The map's keys in any order, sorted. *)
Definition Types (r : Registry) : list string :=
  merge_sort string_le (map_to_list (handlers r)).*1.

Definition decodePayload (raw : RawMessage) : result object :=
  let invalid := λ msg, EWrap "invalid payload (expected a JSON object)" (EText msg) in
  match raw with
  | RawNil => inr []
  | RawBad _ => inl (invalid "invalid character")
  | RawJSON JNull => inr []
  | RawJSON (JObj kvs) =>
      match decode_value (JObj kvs) with
      | Some (JObj o) => inr o
      | _ => inl (invalid "cannot unmarshal number")
      end
  | RawJSON _ => inl (invalid "cannot unmarshal into Go value of type map[string]interface {}")
  end.

Definition Dispatch (r : Registry) (jobType : string) (rawPayload : RawMessage)
    : prog R (result RawMessage) :=
  match Get r jobType with
  | inl e => Ret (inl e)
  | inr handler =>
      match decodePayload rawPayload with
      | inl e => Ret (inl e)
      | inr payload =>
          let! res := handler payload in
          Ret match res with
              | inl e => inl e
              | inr v =>
                  match json_Marshal v with
                  | inl e => inl (EWrap ("encode result for job_type " +:+ strconv_Quote jobType) e)
                  | inr encoded => inr encoded
                  end
              end
      end
  end.

(** ** Built-in handlers *)

Definition echoHandler : JobHandler := λ payload, Ret (inr (VJson (JObj payload))).

Definition alwaysFailHandler : JobHandler := λ _,
  Ret (inl (EText "always_fail: deliberate failure for testing retries")).

Definition quoted_to : string :=
  String (Ascii.ascii_of_nat 34) ("to" +:+ String (Ascii.ascii_of_nat 34) EmptyString).

Definition SendEmailHandler : JobHandler := λ payload,
  let to := get_string "to" payload in
  if decide (to = EmptyString) then
    Ret (inl (EText ("send_email: payload field " +:+ quoted_to +:+ " is required")))
  else
    let! u := uuid_New in
    Ret (inr (VJson (JObj [("message_id", JStr ("msg_" +:+ uuid_String u));
                           ("status", JStr "sent"); ("to", JStr to)]%string))).

Definition ExportPDFHandler : JobHandler := λ payload,
  let! done := request (OWait exportPDFDuration) in
  if (done : bool) then Ret (inl (ESentinel ContextCanceled))
  else
    let docID := get_string "document_id" payload in
    let! docID := (if decide (docID = EmptyString)
                   then let! u := uuid_New in Ret (uuid_String u) else Ret docID) in
    Ret (inr (VJson (JObj
      [("document_id", JStr docID); ("status", JStr "ready");
       ("url", JStr ("https://files.example.com/exports/" +:+ docID +:+ ".pdf"))]%string))).

Definition DefaultRegistry : option Registry :=
  r ← Register NewRegistry "echo" echoHandler;
  r ← Register r "always_fail" alwaysFailHandler;
  r ← Register r "send_email" SendEmailHandler;
  Register r "export_pdf" ExportPDFHandler.

(** ** Lemmas *)

Lemma Register_Some r ty h r' :
  Register r ty h = Some r' → handlers r !! ty = None ∧ handlers r' = <[ty := h]> (handlers r).
Proof. unfold Register. destruct (handlers r !! ty); intros E; [done|]. by simplify_eq. Qed.

Lemma DefaultRegistry_map r :
  DefaultRegistry = Some r →
  handlers r = <["export_pdf"%string := ExportPDFHandler]>
                 (<["send_email"%string := SendEmailHandler]>
                   (<["always_fail"%string := alwaysFailHandler]>
                     (<["echo"%string := echoHandler]> ∅))).
Proof.
  unfold DefaultRegistry.
  intros (r1 & [_ E1]%Register_Some & (r2 & [_ E2]%Register_Some &
          (r3 & [_ E3]%Register_Some & [_ E4]%Register_Some)%bind_Some)%bind_Some)%bind_Some.
  by rewrite E4, E3, E2, E1.
Qed.

Lemma DefaultRegistry_handlers r ty h :
  DefaultRegistry = Some r →
  handlers r !! ty = Some h ↔
  (ty = "echo"%string ∧ h = echoHandler) ∨ (ty = "always_fail"%string ∧ h = alwaysFailHandler)
  ∨ (ty = "send_email"%string ∧ h = SendEmailHandler)
  ∨ (ty = "export_pdf"%string ∧ h = ExportPDFHandler).
Proof.
  intros Hr. rewrite (DefaultRegistry_map r Hr), !lookup_insert_Some, lookup_empty.
  naive_solver.
Qed.
End Registry.
Arguments JobHandler : clear implicits.
Arguments Registry : clear implicits.
