(* ===== verification/Worker.v ===== *)
(** * The worker ([cmd/worker/main.go])

    Each loop takes the number of iterations it is watched for; one iteration is the body of
    the Go loop, and an iteration that returns ends the loop. *)
From S2P Require Import Prelude GoStd Models Interfaces Db Effects Store Queue Registry.
Open Scope Z_scope.

Definition pollInterval : Z := 1 * Second.
Definition promoteBatch : Z := 100.
Definition maxBackoff : Z := 1 * Hour.

(** [None]: the panic of a negative shift. *)
Definition backoffFor (attempt : Z) : option Z :=
  if 30 <=? attempt then Some maxBackoff
  else
    p ← shl64 1 attempt;
    let d := wrap64 (p * Second) in
    if d <? maxBackoff then Some d else Some maxBackoff.

Section Worker.
Context `{Postgres} `{UUIDLib} `{GoText} {R : Type} `{Redis R}.

Definition ObserveLatency (jobType : string) (d : Z) : prog R unit :=
  request (OMetric (ObservedLatency jobType d)).

Definition IncProcessed (status : string) : prog R unit :=
  request (OMetric (IncrementedProcessed status)).

Definition handleFailure (job : Job) (handlerErr : error) : prog R (option error) :=
  let attempts := wrap64 (Job.RetryCount job + 1) in
  if Job.MaxRetries job <=? attempts then
    let! err := DeadLetter (Job.ID job) attempts (Error handlerErr) in
    match err with
    | Some e => Ret (Some e)
    | None => let! _ := IncProcessed StatusFailed in Ret None
    end
  else
    match backoffFor attempts with
    | None => Panic "runtime error: negative shift amount"
    | Some backoff =>
        let! err := MarkForRetry (Job.ID job) attempts (Error handlerErr) in
        match err with
        | Some e => Ret (Some e)
        | None =>
            let! now := time_Now in
            let! err := EnqueueDelayed (Job.QueueName job) (uuid_String (Job.ID job))
                          (now + backoff) in
            Ret err
        end
    end.

Definition process (registry : Registry R) (jobID : string) : prog R (option error) :=
  match uuid_Parse jobID with
  | inl e => Ret (Some e)
  | inr id =>
      let! claimed := ClaimJob id in
      match claimed with
      | inl e => if errors_Is e ErrJobNotClaimable then Ret None else Ret (Some e)
      | inr job =>
          let! start := time_Now in
          let! res := Dispatch registry (Job.JobType job) (Job.Payload job) in
          let! stop := time_Now in
          let! _ := ObserveLatency (Job.JobType job) (stop - start) in
          match res with
          | inl handlerErr => handleFailure job handlerErr
          | inr res =>
              let! err := MarkCompleted id res in
              match err with
              | Some e => Ret (Some e)
              | None => let! _ := IncProcessed StatusCompleted in Ret None
              end
          end
      end
  end.

(** One pass of the consume loop; [false]: the loop returns. *)
Definition consume_once (registry : Registry R) (queues : list string) : prog R bool :=
  let! done := ctx_Err in
  if (done : bool) then Ret false
  else
    let! r := Dequeue queues in
    match r with
    | inl e =>
        if errors_Is e RedisNil then Ret true
        else
          let! done := ctx_Err in
          if (done : bool) then Ret false
          else let! _ := request (OWait Second) in Ret true
    | inr (jobID, _) => let! _ := process registry jobID in Ret true
    end.

(** One tick of the poll loop: promote each queue in turn; [false]: the loop returns. *)
Fixpoint poll_queues (now : Z) (queues : list string) : prog R bool :=
  match queues with
  | [] => Ret true
  | name :: queues' =>
      let! r := PromoteDue name now promoteBatch in
      match r with
      | inl _ =>
          let! done := ctx_Err in
          if (done : bool) then Ret false else poll_queues now queues'
      | inr _ => poll_queues now queues'
      end
  end.

Definition poll_once (queues : list string) : prog R bool :=
  let! done := request (OWait pollInterval) in
  if (done : bool) then Ret false
  else let! now := time_Now in poll_queues now queues.

(** One pass of the heartbeat loop: wait for the ticker and beat, or deregister. *)
Definition beat (workerID : string) : prog R unit :=
  let! err := Heartbeat workerID in
  match err with
  | Some _ => let! _ := ctx_Err in Ret tt
  | None => Ret tt
  end.

Definition heartbeat_once (workerID : string) : prog R bool :=
  let! done := request (OWait HeartbeatInterval) in
  if (done : bool) then let! _ := RemoveWorker workerID in Ret false
  else let! _ := beat workerID in Ret true.

Definition consume (n : nat) (registry : Registry R) (queues : list string) : prog R unit :=
  loop n (consume_once registry queues).

Definition poll (n : nat) (queues : list string) : prog R unit := loop n (poll_once queues).

Definition heartbeat (n : nat) (workerID : string) : prog R unit :=
  let! _ := beat workerID in loop n (heartbeat_once workerID).
End Worker.
