(* ===== verification/Scheduler.v ===== *)
(** * The scheduler ([cmd/scheduler/main.go]) *)
From S2P Require Import Prelude GoStd Models Interfaces Db Effects Store Queue Schedules.
From S2P Require Import Enqueue.
Open Scope Z_scope.

Definition tickInterval : Z := 1 * Minute.

Section Scheduler.
Context `{Postgres} `{UUIDLib} `{GoText} {R : Type} `{Redis R} {Sch : Type} `{Cron Sch}.

(** The job fired from a schedule's template; every other field is the zero value. *)
Definition fired_job (sc : JobSchedule) : Job := {|
  Job.ID := uuid_Nil;
  Job.TenantID := JobSchedule.TenantID sc;
  Job.QueueName := EmptyString;
  Job.JobType := JobSchedule.JobType sc;
  Job.Payload := JobSchedule.Payload sc;
  Job.Status := EmptyString;
  Job.Result := RawNil;
  Job.ErrorMessage := None;
  Job.RetryCount := 0;
  Job.MaxRetries := DefaultMaxRetries;
  Job.ScheduledAt := None;
  Job.StartedAt := None;
  Job.CompletedAt := None;
  Job.CreatedAt := time_Zero;
  Job.UpdatedAt := time_Zero;
|}.

Definition fireSchedule (now : Z) (sc : JobSchedule) : prog R unit :=
  match cron_ParseStandard (JobSchedule.CronExpression sc) with
  | inl _ => Ret tt
  | inr schedule =>
      let nextRunAt := cron_Next schedule now in
      let! won := ClaimScheduleRun (JobSchedule.ID sc) (JobSchedule.NextRunAt sc) now nextRunAt in
      match won with
      | inl _ => let! _ := ctx_Err in Ret tt
      | inr false => Ret tt
      | inr true => let! _ := Submit (fired_job sc) in Ret tt
      end
  end.

Fixpoint fire_all (now : Z) (due : list JobSchedule) : prog R unit :=
  match due with
  | [] => Ret tt
  | sc :: due' =>
      let! done := ctx_Err in
      if (done : bool) then Ret tt
      else let! _ := fireSchedule now sc in fire_all now due'
  end.

Definition handleSchedules : prog R unit :=
  let! now := time_Now in
  let! due := DueSchedules now in
  match due with
  | inl _ => let! _ := ctx_Err in Ret tt
  | inr scs => fire_all now scs
  end.

(** The process's loop, watched for [ticks] ticks: one pass at once, then one per tick. *)
Definition scheduler_tick : prog R bool :=
  let! done := request (OWait tickInterval) in
  if (done : bool) then Ret false else let! _ := handleSchedules in Ret true.

Definition scheduler (ticks : nat) : prog R unit :=
  let! _ := handleSchedules in loop ticks scheduler_tick.
End Scheduler.
