(* ===== verification/Http.v ===== *)
(** * HTTP requests, responses and the request-scoped identity
    ([internal/handlers/tenant.go], [respond.go], [params.go]) *)
From S2P Require Import Prelude GoStd Models Interfaces Float64 Db Effects GoStrings.
From Stdlib Require Import Ascii.
Open Scope Z_scope.

(** ** Requests and responses *)

(** The request context, less cancellation: the identity the auth middleware injects. *)
Record Context := mkContext {
  ctx_tenant : option uuid;
  ctx_user : option User;
}.

Definition Background : Context := mkContext None None.

(** A request as the handlers see it. [Query] is [r.URL.Query().Get]: the first value of a
    parameter or the empty string; the body is the decoded JSON value, [None] when the body
    is not JSON. *)
Record Request := mkRequest {
  Method : string;
  Path : string;
  Authorization : string;
  Cookie : string → option string;
  URLParam : string → string;
  Query : string → string;
  Body : option json;
  Ctx : Context;
}.

Record jobListResponse := mkJobList { Jobs : list Job; Total : Z; ListLimit : Z; ListOffset : Z }.

(** A [models.User] and a [models.APIKey] as [encoding/json] writes them: the fields tagged
    ["-"] are left out. *)
Record UserJSON := mkUserJSON { uID : uuid; uTenantID : uuid; uEmail : string; uCreatedAt : Z }.
Definition json_user (u : User) : UserJSON :=
  mkUserJSON (User.ID u) (User.TenantID u) (User.Email u) (User.CreatedAt u).

Record KeyJSON := mkKeyJSON {
  kID : uuid; kTenantID : uuid; kName : string; kKeyPrefix : string; kLastUsedAt : option Z;
  kCreatedAt : Z }.
Definition json_key (k : APIKey) : KeyJSON :=
  mkKeyJSON (APIKey.ID k) (APIKey.TenantID k) (APIKey.Name k) (APIKey.KeyPrefix k)
    (APIKey.LastUsedAt k) (APIKey.CreatedAt k).

Record createKeyResponse := mkCreateKeyResponse {
  ckID : uuid; ckName : string; ckKey : string; ckKeyPrefix : string; ckCreatedAt : Z }.

Record queueDepth := mkQueueDepth { qdQueue : string; qdDepth : Z; qdDelayed : Z }.

Record statsResponse := mkStatsResponse {
  Queues : list queueDepth; ProcessingRatePerMin : Z; AvgLatencyMs : float64;
  FailureRate : float64; ActiveWorkers : Z }.

Record dashboardResponse := mkDashboardResponse {
  TotalsByStatus : gmap string Z; JobsToday : Z; RecentJobs : list Job }.

Inductive RespBody :=
| BError (msg : string)
| BJob (j : Job)
| BJobList (l : jobListResponse)
| BUser (u : UserJSON)
| BMe (u : UserJSON) (t : Tenant)
| BKeyList (ks : list KeyJSON)
| BKeyCreated (k : createKeyResponse)
| BStats (s : statsResponse)
| BDashboard (d : dashboardResponse)
| BHealth (status postgres redis : string)
| BEmpty.

(** The [http.Cookie] a handler sets; [MaxAge] as in the struct (-1: delete now). *)
Record SetCookie := mkSetCookie {
  cName : string; cValue : string; cPath : string; cExpires : option Z; cMaxAge : Z;
  cHttpOnly : bool; cSecure : bool; cSameSiteLax : bool }.

Record Response := mkResponse {
  StatusCode : Z; Headers : list (string * string); SetCookies : list SetCookie;
  RespBody_ : RespBody }.

Definition StatusOK : Z := 200.
Definition StatusCreated : Z := 201.
Definition StatusAccepted : Z := 202.
Definition StatusNoContent : Z := 204.
Definition StatusBadRequest : Z := 400.
Definition StatusUnauthorized : Z := 401.
Definition StatusNotFound : Z := 404.
Definition StatusMethodNotAllowed : Z := 405.
Definition StatusConflict : Z := 409.
Definition StatusInternalServerError : Z := 500.
Definition StatusServiceUnavailable : Z := 503.

Definition writeJSON (status : Z) (v : RespBody) : Response :=
  mkResponse status [("Content-Type", "application/json")%string] [] v.
Definition writeError (status : Z) (msg : string) : Response := writeJSON status (BError msg).

(** A handler that only calls [WriteHeader]. *)
Definition no_content : Response := mkResponse StatusNoContent [] [] BEmpty.

Definition with_cookie (c : SetCookie) (resp : Response) : Response :=
  {| resp with SetCookies := c :: SetCookies resp |}.

(** ** The identity seam *)

Definition WithTenant (ctx : Context) (tenantID : uuid) : Context :=
  {| ctx with ctx_tenant := Some tenantID |}.
Definition tenantFromContext (ctx : Context) : option uuid := ctx_tenant ctx.
Definition WithUser (ctx : Context) (u : User) : Context := {| ctx with ctx_user := Some u |}.
Definition userFromContext (ctx : Context) : option User := ctx_user ctx.

(** The tenant, or the 500 response the handler ends with. *)
Definition tenantID (r : Request) : Response + uuid :=
  match tenantFromContext (Ctx r) with
  | None => inl (writeError StatusInternalServerError "no tenant in request context")
  | Some id => inr id
  end.

(** The user, or the 500 response the handler ends with. *)
Definition user (r : Request) : Response + User :=
  match userFromContext (Ctx r) with
  | None => inl (writeError StatusInternalServerError "no user in request context")
  | Some u => inr u
  end.

(** ** List parameters *)

Definition defaultListLimit : Z := 20.
Definition maxListLimit : Z := 100.
Definition maxQueueNameLen : nat := 100.

Record listParams := mkListParams { pQueue : string; pStatus : string; pLimit : Z; pOffset : Z }.

Definition statusNames : list string := AllStatuses.

Definition parse_queue (q : string → string) (p : listParams) : result listParams :=
  let v := q "queue"%string in
  if decide (v = EmptyString) then inr p
  else if (maxQueueNameLen <? String.length v)%nat
  then inl (EText "queue must be at most 100 characters")
  else inr {| p with pQueue := v |}.

Definition parse_status `{GoText} (q : string → string) (p : listParams) : result listParams :=
  let v := q "status"%string in
  if decide (v = EmptyString) then inr p
  else if negb (Valid v)
  then inl (EText ("invalid status " +:+ strconv_Quote v +:+ " (allowed: "
                   +:+ String.concat ", " statusNames +:+ ")"))
  else inr {| p with pStatus := v |}.

Definition parse_limit (q : string → string) (p : listParams) : result listParams :=
  let v := q "limit"%string in
  if decide (v = EmptyString) then inr p
  else match Atoi v with
  | None => inl (EText "limit must be an integer")
  | Some n =>
      if (n <? 1) || (maxListLimit <? n)
      then inl (EText "limit must be between 1 and 100")
      else inr {| p with pLimit := n |}
  end.

Definition parse_offset (q : string → string) (p : listParams) : result listParams :=
  let v := q "offset"%string in
  if decide (v = EmptyString) then inr p
  else match Atoi v with
  | None => inl (EText "offset must be an integer")
  | Some n => if n <? 0 then inl (EText "offset must be >= 0") else inr {| p with pOffset := n |}
  end.

Definition and_then {A B} (r : result A) (f : A → result B) : result B :=
  match r with inl e => inl e | inr a => f a end.

Definition parseListParams `{GoText} (r : Request) : result listParams :=
  let q := Query r in
  let p := mkListParams EmptyString EmptyString defaultListLimit 0 in
  and_then (parse_queue q p) (λ p,
  and_then (parse_status q p) (λ p,
  and_then (parse_limit q p) (λ p,
  parse_offset q p))).
