(* ===== verification/JobsApi.v ===== *)
(** * The job endpoints ([internal/handlers/jobs.go]) *)
From S2P Require Import Prelude GoStd Models Interfaces Db Effects Store Queue Enqueue Http.
From S2P Require Import GoStrings.
Open Scope Z_scope.

(** ** Decoding the enqueue body *)

Record enqueueRequest := mkEnqueueRequest {
  eqQueueName : string;
  eqJobType : string;
  eqPayload : RawMessage;
  eqMaxRetries : option Z;
}.

(** One member of the body's object: a null leaves strings alone, clears the pointer and
    gives the raw message the text [null]; a value of the wrong type is an error. *)
Definition decode_member (req : enqueueRequest) (k : string) (v : json) : result enqueueRequest :=
  let key := fold_name k in
  let bad := inl (EText "json: cannot unmarshal") in
  if decide (key = "queue_name"%string) then
    match v with
    | JStr s => inr {| req with eqQueueName := s |}
    | JNull => inr req
    | _ => bad
    end
  else if decide (key = "job_type"%string) then
    match v with
    | JStr s => inr {| req with eqJobType := s |}
    | JNull => inr req
    | _ => bad
    end
  else if decide (key = "payload"%string) then inr {| req with eqPayload := RawJSON v |}
  else if decide (key = "max_retries"%string) then
    match v with
    | JNum lit =>
        match Atoi lit with
        | Some n => inr {| req with eqMaxRetries := Some n |}
        | None => bad
        end
    | JNull => inr {| req with eqMaxRetries := None |}
    | _ => bad
    end
  else inr req.

Fixpoint decode_members (req : enqueueRequest) (kvs : list (string * json))
    : result enqueueRequest :=
  match kvs with
  | [] => inr req
  | (k, v) :: kvs' => and_then (decode_member req k v) (λ req', decode_members req' kvs')
  end.

Definition decode_enqueueRequest (body : option json) : result enqueueRequest :=
  let zero := mkEnqueueRequest EmptyString EmptyString RawNil None in
  match body with
  | None => inl (EText "invalid character")
  | Some JNull => inr zero
  | Some (JObj kvs) => decode_members zero kvs
  | Some _ => inl (EText "json: cannot unmarshal")
  end.

Section JobsApi.
Context `{Postgres} `{UUIDLib} `{GoText} {R : Type} `{Redis R}.

Definition listJobs (r : Request) : prog R Response :=
  match tenantID r with
  | inl resp => Ret resp
  | inr tenantID =>
      match parseListParams r with
      | inl err => Ret (writeError StatusBadRequest (Error err))
      | inr p =>
          let! res := ListJobs tenantID (mkJobFilter (pQueue p) (pStatus p) (pLimit p) (pOffset p)) in
          Ret match res with
              | inl _ => writeError StatusInternalServerError "failed to list jobs"
              | inr (jobs, total) =>
                  writeJSON StatusOK (BJobList (mkJobList jobs total (pLimit p) (pOffset p)))
              end
      end
  end.

(** The job a request asks for; the fields [applyDefaults] and Postgres fill are zero. *)
Definition requested_job (tenantID : uuid) (req : enqueueRequest) : Job := {|
  Job.ID := uuid_Nil;
  Job.TenantID := tenantID;
  Job.QueueName := eqQueueName req;
  Job.JobType := eqJobType req;
  Job.Payload := eqPayload req;
  Job.Status := EmptyString;
  Job.Result := RawNil;
  Job.ErrorMessage := None;
  Job.RetryCount := 0;
  Job.MaxRetries := default DefaultMaxRetries (eqMaxRetries req);
  Job.ScheduledAt := None;
  Job.StartedAt := None;
  Job.CompletedAt := None;
  Job.CreatedAt := time_Zero;
  Job.UpdatedAt := time_Zero;
|}.

Definition enqueueJob (r : Request) : prog R Response :=
  match tenantID r with
  | inl resp => Ret resp
  | inr tenantID =>
      match decode_enqueueRequest (Body r) with
      | inl _ => Ret (writeError StatusBadRequest "invalid JSON body")
      | inr req =>
          if decide (eqJobType req = EmptyString)
          then Ret (writeError StatusBadRequest "job_type is required")
          else
            let! res := Submit (requested_job tenantID req) in
            Ret match res with
                | (Some err, _) =>
                    if errors_Is err ErrEnqueueAfterPersist
                    then writeError StatusInternalServerError "job persisted but failed to enqueue"
                    else writeError StatusInternalServerError "failed to persist job"
                | (None, job) => writeJSON StatusAccepted (BJob job)
                end
      end
  end.

(** The id in the URL, or the 400 response. *)
Definition url_job_id (r : Request) : Response + uuid :=
  match uuid_Parse (URLParam r "id") with
  | inl _ => inl (writeError StatusBadRequest "invalid job id")
  | inr id => inr id
  end.

Definition getJob (r : Request) : prog R Response :=
  match tenantID r with
  | inl resp => Ret resp
  | inr tenantID =>
      match url_job_id r with
      | inl resp => Ret resp
      | inr id =>
          let! res := GetJob tenantID id in
          Ret match res with
              | inl err =>
                  if errors_Is err ErrJobNotFound then writeError StatusNotFound "job not found"
                  else writeError StatusInternalServerError "failed to load job"
              | inr job => writeJSON StatusOK (BJob job)
              end
      end
  end.

Definition retryJob (r : Request) : prog R Response :=
  match tenantID r with
  | inl resp => Ret resp
  | inr tenantID =>
      match url_job_id r with
      | inl resp => Ret resp
      | inr id =>
          let! res := RetryJob tenantID id in
          match res with
          | inl err =>
              Ret (if errors_Is err ErrJobNotFound then writeError StatusNotFound "job not found"
                   else if errors_Is err ErrJobNotRetryable
                   then writeError StatusConflict "only failed jobs can be retried"
                   else writeError StatusInternalServerError "failed to retry job")
          | inr job =>
              let! err := Queue.Enqueue (Job.QueueName job) (uuid_String (Job.ID job)) in
              Ret match err with
                  | Some _ => writeError StatusInternalServerError "job reset but failed to re-enqueue"
                  | None => writeJSON StatusOK (BJob job)
                  end
          end
      end
  end.

Definition cancelJob (r : Request) : prog R Response :=
  match tenantID r with
  | inl resp => Ret resp
  | inr tenantID =>
      match url_job_id r with
      | inl resp => Ret resp
      | inr id =>
          let! res := CancelJob tenantID id in
          match res with
          | inl err =>
              Ret (if errors_Is err ErrJobNotFound then writeError StatusNotFound "job not found"
                   else if errors_Is err ErrJobNotCancellable
                   then writeError StatusConflict "only pending jobs can be cancelled"
                   else writeError StatusInternalServerError "failed to cancel job")
          | inr job =>
              let! _ := Remove (Job.QueueName job) (uuid_String (Job.ID job)) in
              Ret (writeJSON StatusOK (BJob job))
          end
      end
  end.
End JobsApi.
