(* ===== verification/AuthApi.v ===== *)
(** * Accounts and authentication over HTTP ([internal/handlers/auth.go])

    The signup, login, logout and me endpoints, and the two middlewares that turn a session
    cookie or a bearer key into the tenant of the request. *)
From S2P Require Import Prelude GoStd Models Interfaces Db Effects Crypto GoStrings.
From S2P Require Import Accounts Auth Http.
From Stdlib Require Import Ascii.
Open Scope Z_scope.

(** ** Session configuration ([handlers.go]) *)

Record SessionConfig := mkSessionConfig {
  Secret : bytes; Secure : bool; TTL : Z; CookieName : string }.

Definition DefaultSessionTTL : Z := 7 * 24 * Hour.
Definition defaultCookieName : string := "dispatch_session".

(** What [New] fills in. *)
Definition New_sessions (c : SessionConfig) : SessionConfig :=
  mkSessionConfig (Secret c) (Secure c)
    (if TTL c =? 0 then DefaultSessionTTL else TTL c)
    (if decide (CookieName c = EmptyString) then defaultCookieName else CookieName c).

(** ** Credentials *)

Definition minPasswordLen : nat := 8.
Definition maxPasswordLen : nat := 72.
Definition maxEmailLen : nat := 254.

Record credentialsRequest := mkCredentials { crEmail : string; crPassword : string }.

Definition validEmail (email : string) : bool :=
  if decide (email = EmptyString) then false
  else if (maxEmailLen <? String.length email)%nat then false
  else match IndexByte email "@"%char with
  | None | Some O => false
  | Some at_ =>
      if (at_ =? String.length email - 1)%nat then false
      else
        let domain := drop_string (S at_) email in
        ContainsByte domain "."%char && negb (ContainsByte domain " "%char)
  end.

(** One member of the body's object; null leaves a string field alone. *)
Definition decode_credential (req : credentialsRequest) (k : string) (v : json)
    : result credentialsRequest :=
  let key := fold_name k in
  if decide (key = "email"%string) then
    match v with
    | JStr s => inr {| req with crEmail := s |}
    | JNull => inr req
    | _ => inl (EText "json: cannot unmarshal")
    end
  else if decide (key = "password"%string) then
    match v with
    | JStr s => inr {| req with crPassword := s |}
    | JNull => inr req
    | _ => inl (EText "json: cannot unmarshal")
    end
  else inr req.

(** The members of an object, in order, into a struct. *)
Fixpoint decode_object {S} (member : S → string → json → result S) (s : S)
    (kvs : list (string * json)) : result S :=
  match kvs with
  | [] => inr s
  | (k, v) :: kvs' => and_then (member s k v) (λ s', decode_object member s' kvs')
  end.

(** [json.NewDecoder(r.Body).Decode] into a struct. *)
Definition decode_body {S} (member : S → string → json → result S) (zero : S)
    (body : option json) : result S :=
  match body with
  | None => inl (EText "invalid character")
  | Some JNull => inr zero
  | Some (JObj kvs) => decode_object member zero kvs
  | Some _ => inl (EText "json: cannot unmarshal")
  end.

Definition bearer_prefix : string := "bearer ".

(** The token of an [Authorization: Bearer <token>] header. *)
Definition bearerToken (header : string) : option string :=
  let n := String.length bearer_prefix in
  if (String.length header <? n)%nat || negb (EqualFold_ascii (take_string n header) bearer_prefix)
  then None
  else
    let token := TrimSpace (drop_string n header) in
    if decide (token = EmptyString) then None else Some token.

(** [int(d.Seconds())]: towards zero; exact for durations below 2^23 seconds, 97 days. *)
Definition seconds_of (d : Z) : Z := Z.quot d Second.

Section AuthApi.
Context `{Postgres} `{GoText} `{Bcrypt} {R : Type} (sessions : SessionConfig).

Definition decodeCredentials (r : Request) : Response + credentialsRequest :=
  match decode_body decode_credential (mkCredentials EmptyString EmptyString) (Body r) with
  | inl _ => inl (writeError StatusBadRequest "invalid JSON body")
  | inr req =>
      let req := {| req with crEmail := ToLower (TrimSpace (crEmail req)) |} in
      if negb (validEmail (crEmail req))
      then inl (writeError StatusBadRequest "a valid email is required")
      else if (String.length (crPassword req) <? minPasswordLen)%nat
      then inl (writeError StatusBadRequest "password must be at least 8 characters")
      else if (maxPasswordLen <? String.length (crPassword req))%nat
      then inl (writeError StatusBadRequest "password must be at most 72 characters")
      else inr req
  end.

(** ** Sessions and their cookie *)

Definition setSessionCookie (token : string) (expiresAt : Z) : prog R SetCookie :=
  let! now := time_Now in
  Ret (mkSetCookie (CookieName sessions) token "/" (Some expiresAt)
         (seconds_of (expiresAt - now)) true (Secure sessions) true).

Definition clearSessionCookie : SetCookie :=
  mkSetCookie (CookieName sessions) EmptyString "/" None (-1) true (Secure sessions) true.

(** The cookie the response will carry, or the error. *)
Definition startSession (userID : uuid) : prog R (result SetCookie) :=
  let! tok := GenerateSessionToken in
  match tok with
  | inl e => Ret (inl e)
  | inr token =>
      let! now := time_Now in
      let expiresAt := now + TTL sessions in
      let! err := CreateSession userID (HashSessionToken (Secret sessions) token) expiresAt in
      match err with
      | Some e => Ret (inl e)
      | None => let! c := setSessionCookie token expiresAt in Ret (inr c)
      end
  end.

(** ** Endpoints *)

Definition signup (r : Request) : prog R Response :=
  match decodeCredentials r with
  | inl resp => Ret resp
  | inr req =>
      let! hash := HashPassword (crPassword req) in
      match hash with
      | inl _ => Ret (writeError StatusInternalServerError "failed to process password")
      | inr hash =>
          let! acc := CreateAccount (crEmail req) hash in
          match acc with
          | inl err =>
              Ret (if errors_Is err ErrEmailTaken
                   then writeError StatusConflict "email already registered"
                   else writeError StatusInternalServerError "failed to create account")
          | inr (_, user) =>
              let! s := startSession (User.ID user) in
              Ret match s with
                  | inl _ => writeError StatusInternalServerError
                               "account created but failed to start session"
                  | inr c => with_cookie c (writeJSON StatusCreated (BUser (json_user user)))
                  end
          end
      end
  end.

Definition login (r : Request) : prog R Response :=
  match decodeCredentials r with
  | inl resp => Ret resp
  | inr req =>
      let! found := GetUserByEmail (crEmail req) in
      match found with
      | inl err =>
          if errors_Is err ErrUserNotFound then
            let! _ := CheckDummyPassword (crPassword req) in
            Ret (writeError StatusUnauthorized "invalid email or password")
          else Ret (writeError StatusInternalServerError "failed to load user")
      | inr user =>
          let! err := CheckPassword (User.PasswordHash user) (crPassword req) in
          match err with
          | Some _ => Ret (writeError StatusUnauthorized "invalid email or password")
          | None =>
              let! s := startSession (User.ID user) in
              Ret match s with
                  | inl _ => writeError StatusInternalServerError "failed to start session"
                  | inr c => with_cookie c (writeJSON StatusOK (BUser (json_user user)))
                  end
          end
      end
  end.

Definition logout (r : Request) : prog R Response :=
  let done := with_cookie clearSessionCookie no_content in
  match Cookie r (CookieName sessions) with
  | None => Ret done
  | Some value =>
      let! err := DeleteSession (HashSessionToken (Secret sessions) value) in
      Ret match err with
          | Some _ => writeError StatusInternalServerError "failed to end session"
          | None => done
          end
  end.

Definition me (r : Request) : prog R Response :=
  match user r with
  | inl resp => Ret resp
  | inr user =>
      let! tenant := GetTenant (User.TenantID user) in
      Ret match tenant with
          | inl _ => writeError StatusInternalServerError "failed to load tenant"
          | inr t => writeJSON StatusOK (BMe (json_user user) t)
          end
  end.

(** ** Middlewares *)

Definition RequireSession (next : Request → prog R Response) (r : Request) : prog R Response :=
  match Cookie r (CookieName sessions) with
  | None => Ret (writeError StatusUnauthorized "authentication required")
  | Some value =>
      let! found := SessionUser (HashSessionToken (Secret sessions) value) in
      match found with
      | inl err =>
          if errors_Is err ErrSessionInvalid
          then Ret (writeError StatusUnauthorized "authentication required")
          else Ret (writeError StatusInternalServerError "authentication error")
      | inr user =>
          next {| r with Ctx := WithUser (WithTenant (Ctx r) (User.TenantID user)) user |}
      end
  end.

Definition RequireAPIKey (next : Request → prog R Response) (r : Request) : prog R Response :=
  let unauthorized := writeError StatusUnauthorized "invalid or missing API key" in
  match bearerToken (Authorization r) with
  | None => Ret unauthorized
  | Some key =>
      if negb (HasPrefix key APIKeyPrefix) then Ret unauthorized
      else
        let! found := AuthenticateAPIKey (HashAPIKey key) in
        match found with
        | inl err =>
            if errors_Is err ErrAPIKeyNotFound then Ret unauthorized
            else Ret (writeError StatusInternalServerError "authentication error")
        | inr (tenantID, keyID) =>
            let! _ := TouchAPIKey keyID in
            next {| r with Ctx := WithTenant (Ctx r) tenantID |}
        end
  end.
End AuthApi.
