(* ===== verification/KeysApi.v ===== *)
(** * API-key management over HTTP ([internal/handlers/keys.go]) *)
From S2P Require Import Prelude GoStd Models Interfaces Db Effects Crypto GoStrings.
From S2P Require Import Accounts Auth Http AuthApi.
Open Scope Z_scope.

Definition maxKeyNameLen : nat := 100.

Record createKeyRequest := mkCreateKeyRequest { ckrName : string }.

Definition decode_key_member (req : createKeyRequest) (k : string) (v : json)
    : result createKeyRequest :=
  if decide (fold_name k = "name"%string) then
    match v with
    | JStr s => inr (mkCreateKeyRequest s)
    | JNull => inr req
    | _ => inl (EText "json: cannot unmarshal")
    end
  else inr req.

Section KeysApi.
Context `{Postgres} `{UUIDLib} {R : Type}.

Definition listKeys (r : Request) : prog R Response :=
  match tenantID r with
  | inl resp => Ret resp
  | inr tenantID =>
      let! res := ListAPIKeys tenantID in
      Ret match res with
          | inl _ => writeError StatusInternalServerError "failed to list API keys"
          | inr keys => writeJSON StatusOK (BKeyList (json_key <$> keys))
          end
  end.

Definition createKey (r : Request) : prog R Response :=
  match tenantID r with
  | inl resp => Ret resp
  | inr tenantID =>
      match decode_body decode_key_member (mkCreateKeyRequest EmptyString) (Body r) with
      | inl _ => Ret (writeError StatusBadRequest "invalid JSON body")
      | inr req =>
          let name := TrimSpace (ckrName req) in
          if decide (name = EmptyString) then Ret (writeError StatusBadRequest "name is required")
          else if (maxKeyNameLen <? String.length name)%nat
          then Ret (writeError StatusBadRequest "name must be at most 100 characters")
          else
            let! gen := GenerateAPIKey in
            match gen with
            | inl _ => Ret (writeError StatusInternalServerError "failed to generate key")
            | inr (full, prefix) =>
                let! res := CreateAPIKey tenantID name (HashAPIKey full) prefix in
                Ret match res with
                    | inl _ => writeError StatusInternalServerError "failed to create key"
                    | inr key =>
                        writeJSON StatusCreated (BKeyCreated
                          (mkCreateKeyResponse (APIKey.ID key) (APIKey.Name key) full
                             (APIKey.KeyPrefix key) (APIKey.CreatedAt key)))
                    end
            end
      end
  end.

Definition deleteKey (r : Request) : prog R Response :=
  match tenantID r with
  | inl resp => Ret resp
  | inr tenantID =>
      match uuid_Parse (URLParam r "id") with
      | inl _ => Ret (writeError StatusBadRequest "invalid key id")
      | inr id =>
          let! res := DeleteAPIKey tenantID id in
          Ret match res with
              | Some err =>
                  if errors_Is err ErrAPIKeyNotFound then writeError StatusNotFound "key not found"
                  else writeError StatusInternalServerError "failed to delete key"
              | None => no_content
              end
      end
  end.
End KeysApi.
