(* ===== verification/AdminApi.v ===== *)
(** * Statistics over HTTP ([internal/handlers/admin.go]) *)
From S2P Require Import Prelude GoStd Models Interfaces Float64 Db Effects.
From S2P Require Import GoStrings Store Stats Queue Http.
Open Scope Z_scope.

Definition recentJobsLimit : Z := 10.

(** The names of the lists in order, each once, without the empty name; then sorted. *)
Definition add_unique (out : list string) (v : string) : list string :=
  if decide (v ≠ EmptyString ∧ v ∉ out) then out ++ [v] else out.

Definition mergeUnique (a b : list string) : list string :=
  merge_sort string_le (foldl add_unique (foldl add_unique [] a) b).

Definition round (f : float64) (places : Z) : float64 :=
  let pow := math_Pow10 places in f64_div (math_Round (f64_mul f pow)) pow.

(** Failed over ended in the last hour; 0 when nothing ended. *)
Definition failureRate (m : Metrics) : float64 :=
  let terminal := Metrics.CompletedLastHour m + Metrics.FailedLastHour m in
  if 0 <? terminal then f64_div (f64_of_Z (Metrics.FailedLastHour m)) (f64_of_Z terminal)
  else f64_zero.

Section AdminApi.
Context `{Postgres} `{GoText} {R : Type} `{Redis R} (queues : list string) (scan_rounds : nat).

(** The loop over the queues: their depths, or the message of the response. *)
Fixpoint read_depths (names : list string) : prog R (string + list queueDepth) :=
  match names with
  | [] => Ret (inr [])
  | name :: names' =>
      let! depth := Len name in
      match depth with
      | inl _ => Ret (inl "failed to read queue depth"%string)
      | inr depth =>
          let! delayed := DelayedLen name in
          match delayed with
          | inl _ => Ret (inl "failed to read delayed depth"%string)
          | inr delayed =>
              let! rest := read_depths names' in
              Ret match rest with
                  | inl msg => inl msg
                  | inr depths => inr (mkQueueDepth name depth delayed :: depths)
                  end
          end
      end
  end.

Definition stats (r : Request) : prog R Response :=
  match tenantID r with
  | inl resp => Ret resp
  | inr tenantID =>
      let! names := QueueNames tenantID in
      match names with
      | inl _ => Ret (writeError StatusInternalServerError "failed to load queues")
      | inr dbQueues =>
          let! depths := read_depths (mergeUnique queues dbQueues) in
          match depths with
          | inl msg => Ret (writeError StatusInternalServerError msg)
          | inr depths =>
              let! m := JobMetrics tenantID in
              match m with
              | inl _ => Ret (writeError StatusInternalServerError "failed to load metrics")
              | inr m =>
                  let! workers := CountActiveWorkers scan_rounds in
                  Ret match workers with
                      | inl _ => writeError StatusInternalServerError "failed to count workers"
                      | inr workers =>
                          writeJSON StatusOK (BStats
                            (mkStatsResponse depths (Metrics.CompletedLastMinute m)
                               (round (f64_mul (Metrics.AvgLatencySeconds m) (f64_of_Z 1000)) 2)
                               (round (failureRate m) 4) workers))
                      end
              end
          end
      end
  end.

(** Every status of the program with its count, 0 if there is none. *)
Definition totals_by_status (counts : gmap string Z) : gmap string Z :=
  foldl (λ totals st, <[st := default 0 (counts !! st)]> totals) ∅ AllStatuses.

Definition dashboard (r : Request) : prog R Response :=
  match tenantID r with
  | inl resp => Ret resp
  | inr tenantID =>
      let! counts := StatusCounts tenantID in
      match counts with
      | inl _ => Ret (writeError StatusInternalServerError "failed to load status counts")
      | inr (counts, today) =>
          let! recent :=
            ListJobs tenantID (mkJobFilter EmptyString EmptyString recentJobsLimit 0) in
          Ret match recent with
              | inl _ => writeError StatusInternalServerError "failed to load recent jobs"
              | inr (recent, _) =>
                  writeJSON StatusOK
                    (BDashboard (mkDashboardResponse (totals_by_status counts) today recent))
              end
      end
  end.

(** ** [health] ([handlers.go]) *)
Definition health (r : Request) : prog R Response :=
  let! pg := Stats.Ping in
  let! rd := Queue.Ping in
  let up (e : option error) := match e with None => "ok" | Some _ => "down" end%string in
  Ret match pg, rd with
      | None, None => writeJSON StatusOK (BHealth "ok" "ok" "ok")
      | _, _ => writeJSON StatusServiceUnavailable (BHealth "degraded" (up pg) (up rd))
      end.
End AdminApi.
