(* ===== verification/ApiMetrics.v ===== *)
(** * The API's Prometheus gauges ([cmd/api/metrics.go], [internal/metrics/api.go])

    Read at scrape time: the depth of every queue and the number of live workers. The registry
    and the text format are the Prometheus library's. *)
From S2P Require Import Prelude GoStd Models Interfaces Db Effects.
From S2P Require Import Store Stats Queue AdminApi.
Open Scope Z_scope.

(** What a scrape can get: a gauge sample, or an invalid metric that marks the scrape as
    failed. *)
Inductive gauge := job_queue_depth | workers_active.
Inductive sample :=
| Gauge (g : gauge) (label : option string) (value : Z)
| InvalidMetric (g : gauge) (err : error).

(** The unique, non-empty names of the two lists. *)
Definition mergeQueues (a b : list string) : list string :=
  foldl add_unique (foldl add_unique [] a) b.

(** [metrics.Source]: what the collector asks of whoever wires it. *)
Class Source (S R : Type) := {
  src_QueueDepths : S → prog R (result (gmap string Z));
  src_ActiveWorkers : S → prog R (result Z);
}.

(** ** The collector, over any source ([internal/metrics/api.go]) *)

(** [apiCollector]'s descriptors, and [Describe]. *)
Definition Describe : list gauge := [job_queue_depth; workers_active].

Definition described (s : sample) : gauge :=
  match s with Gauge g _ _ | InvalidMetric g _ => g end.

Section Collector.
Context {S R : Type} `{!Source S R}.

(** The samples are sent in the order Go ranges over the map, which is unspecified. *)
Definition Collect (src : S) : prog R (list sample) :=
  let! depths := src_QueueDepths src in
  let! n := src_ActiveWorkers src in
  Ret (match depths with
       | inl err => [InvalidMetric job_queue_depth err]
       | inr depths =>
           (λ kv, Gauge job_queue_depth (Some kv.1) (float64_of_int kv.2)) <$> map_to_list depths
       end
       ++ match n with
          | inl err => [InvalidMetric workers_active err]
          | inr n => [Gauge workers_active None (float64_of_int n)]
          end).

(** What the registry checks of a collector: each sample belongs to a described metric, has its
    label, and no two samples are of the same series. *)
Definition well_described (l : list sample) : Prop :=
  Forall (λ s, described s ∈ Describe
     ∧ match s with
       | Gauge job_queue_depth label _ => is_Some label
       | Gauge workers_active label _ => label = None
       | InvalidMetric _ _ => True
       end) l
  ∧ NoDup (omap (λ s, match s with Gauge g label _ => Some (g, label) | _ => None end) l).

(** Whatever the source answers. *)
Lemma Collect_well_described (src : S) (F : string → Prop) :
  answers F (λ _, True) (src_QueueDepths src) → answers F (λ _, True) (src_ActiveWorkers src) →
  answers F well_described (Collect src).
Proof.
  intros Hd Ha. apply (answers_any _ _ _ _ Hd). intros depths.
  apply (answers_any _ _ _ _ Ha). intros n. simpl. split.
  - apply Forall_app. split; [destruct depths as [e|m]|destruct n; repeat constructor].
    + repeat constructor.
    + apply Forall_fmap, Forall_true. intros [k v]. split; [by left|by eexists].
  - rewrite omap_app. apply NoDup_app. split_and!.
    + destruct depths as [e|m]; [constructor|].
      assert (omap (λ s, match s with Gauge g label _ => Some (g, label) | _ => None end)
                ((λ kv : string * Z, Gauge job_queue_depth (Some kv.1) (float64_of_int kv.2)) <$> map_to_list m)
              = (λ k, (job_queue_depth, Some k)) <$> (map_to_list m).*1) as ->.
      { induction (map_to_list m) as [|kv l IH]; [done|]. simpl. f_equal. exact IH. }
      apply NoDup_fmap_2; [intros ?? [= ?]; done|]. apply NoDup_fst_map_to_list.
    + intros x Hx Hx'. destruct n; simpl in Hx'; [by apply elem_of_nil in Hx'|].
      apply list_elem_of_singleton in Hx' as ->.
      apply list_elem_of_omap in Hx as (s & Hs & E). destruct depths as [e|m].
      * apply list_elem_of_singleton in Hs as ->. done.
      * apply list_elem_of_fmap in Hs as (kv & -> & _). done.
    + destruct n; simpl; [constructor|apply NoDup_singleton].
Qed.
End Collector.

(** ** The source of the API ([cmd/api/metrics.go]) *)

(** The configured queues, and how many SCAN rounds are watched. *)
Record metricsSource := mkMetricsSource { configured : list string; rounds : nat }.

Section MetricsSource.
Context `{Postgres} {R : Type} `{Redis R}.

Fixpoint read_lens (names : list string) (depths : gmap string Z) : prog R (result (gmap string Z)) :=
  match names with
  | [] => Ret (inr depths)
  | name :: names' =>
      let! n := Len name in
      match n with
      | inl e => Ret (inl e)
      | inr n => read_lens names' (<[name := n]> depths)
      end
  end.

Definition QueueDepths (s : metricsSource) : prog R (result (gmap string Z)) :=
  let! dbQueues := AllQueueNames in
  match dbQueues with
  | inl e => Ret (inl e)
  | inr dbQueues => read_lens (mergeQueues (configured s) dbQueues) ∅
  end.

Definition ActiveWorkers (s : metricsSource) : prog R (result Z) := CountActiveWorkers (rounds s).

#[export] Instance metricsSource_Source : Source metricsSource R := {|
  src_QueueDepths := QueueDepths;
  src_ActiveWorkers := ActiveWorkers;
|}.
End MetricsSource.
