(* ===== verification/Routes.v ===== *)
(** * The API router ([internal/handlers/handlers.go], [middleware.go])

    Which endpoint serves which route, behind which middleware. *)
From S2P Require Import Prelude GoStd Models Interfaces Db Effects.
From S2P Require Import Http JobsApi AuthApi KeysApi AdminApi.
Open Scope Z_scope.

(** What [New] is given: the session settings and the configured queues; the origin given to
    [CORS]; and for how many rounds a SCAN is watched. *)
Record ApiConfig := mkApiConfig {
  sessions : SessionConfig; configured_queues : list string; allowedOrigin : string;
  scan_rounds : nat }.

Definition session_config (api : ApiConfig) : SessionConfig := New_sessions (sessions api).

Section Routes.
Context `{Postgres} `{UUIDLib} `{GoText} `{Bcrypt} `{Router} {R : Type} `{Redis R}.
Context (api : ApiConfig).

Record Route := mkRoute { rMethod : string; rPattern : string; rHandler : Request → prog R Response }.

Definition Routes : list Route :=
  let cfg := session_config api in [
  mkRoute "GET" "/healthz" health;
  mkRoute "POST" "/auth/signup" (signup cfg);
  mkRoute "POST" "/auth/login" (login cfg);
  mkRoute "POST" "/auth/logout" (RequireSession cfg (logout cfg));
  mkRoute "GET" "/auth/me" (RequireSession cfg me);
  mkRoute "GET" "/api/v1/jobs" (RequireAPIKey listJobs);
  mkRoute "POST" "/api/v1/jobs/enqueue" (RequireAPIKey enqueueJob);
  mkRoute "GET" "/api/v1/jobs/{id}" (RequireAPIKey getJob);
  mkRoute "POST" "/api/v1/jobs/{id}/retry" (RequireAPIKey retryJob);
  mkRoute "POST" "/api/v1/jobs/{id}/cancel" (RequireAPIKey cancelJob);
  mkRoute "GET" "/api/v1/keys" (RequireSession cfg listKeys);
  mkRoute "POST" "/api/v1/keys" (RequireSession cfg createKey);
  mkRoute "DELETE" "/api/v1/keys/{id}" (RequireSession cfg deleteKey);
  mkRoute "GET" "/api/v1/admin/stats"
    (RequireSession cfg (stats (configured_queues api) (scan_rounds api)));
  mkRoute "GET" "/api/v1/admin/dashboard" (RequireSession cfg dashboard)
].

Definition notFound : Response := writeError StatusNotFound "resource not found".
Definition methodNotAllowed : Response := writeError StatusMethodNotAllowed "method not allowed".

(** The router: the request's own context carries no identity. *)
Definition route_request (r : Request) : prog R Response :=
  let table := (λ rt, (rMethod rt, rPattern rt)) <$> Routes in
  match chi_route table (Method r) (Path r) with
  | RouteTo n param =>
      match Routes !! n with
      | Some rt => rHandler rt {| r with URLParam := param; Ctx := Background |}
      | None => Ret notFound
      end
  | RouteNotFound => Ret notFound
  | RouteMethodNotAllowed => Ret methodNotAllowed
  end.

(** [CORS]: the headers on every response; a preflight is answered at once. *)
Definition cors_headers (origin : string) : list (string * string) := [
  ("Access-Control-Allow-Origin", origin); ("Vary", "Origin");
  ("Access-Control-Allow-Methods", "GET, POST, DELETE, OPTIONS");
  ("Access-Control-Allow-Headers", "Content-Type, Authorization");
  ("Access-Control-Allow-Credentials", "true")]%string.

Definition CORS (origin : string) (next : Request → prog R Response) (r : Request)
    : prog R Response :=
  if decide (Method r = "OPTIONS"%string)
  then Ret {| no_content with Headers := cors_headers origin |}
  else
    let! resp := next r in
    Ret {| resp with Headers := cors_headers origin ++ Headers resp |}.

(** A request through the API's middleware and router. *)
Definition ServeHTTP (r : Request) : prog R Response :=
  CORS (allowedOrigin api) route_request r.
End Routes.
