(* ===== verification/Lifecycle.v ===== *)
(** * The life of a job: abstract specification and database invariant

    What the components promise about job rows, independently of who changes them: the
    transitions a row may take, the fields that never change, the retry budget, and the
    agreement between [jobs] and [dead_letter_queue]. *)
From S2P Require Import Prelude GoStd Models Interfaces Db.
Open Scope Z_scope.

(** ** Abstract transitions *)

(** The columns fixed at creation. *)
Definition same_identity (j j' : Job) : Prop :=
  Job.ID j' = Job.ID j ∧ Job.TenantID j' = Job.TenantID j ∧ Job.QueueName j' = Job.QueueName j
  ∧ Job.JobType j' = Job.JobType j ∧ Job.Payload j' = Job.Payload j
  ∧ Job.MaxRetries j' = Job.MaxRetries j ∧ Job.CreatedAt j' = Job.CreatedAt j.

(** One legal change of a row. *)
Inductive edge (j j' : Job) : Prop :=
| edge_same : j' = j → edge j j'
| edge_claim :
    Job.Status j = StatusPending → Job.Status j' = StatusProcessing →
    Job.RetryCount j' = Job.RetryCount j → edge j j'
| edge_cancel :
    Job.Status j = StatusPending → Job.Status j' = StatusCancelled →
    Job.RetryCount j' = Job.RetryCount j → edge j j'
| edge_complete :
    Job.Status j = StatusProcessing → Job.Status j' = StatusCompleted →
    Job.RetryCount j' = Job.RetryCount j → edge j j'
| edge_retry :
    Job.Status j = StatusProcessing → Job.Status j' = StatusPending →
    Job.RetryCount j' = Job.RetryCount j + 1 → Job.RetryCount j' < Job.MaxRetries j → edge j j'
| edge_fail :
    Job.Status j = StatusProcessing → Job.Status j' = StatusFailed →
    Job.RetryCount j' = Job.RetryCount j + 1 → Job.MaxRetries j ≤ Job.RetryCount j' → edge j j'
| edge_reset :
    Job.Status j = StatusFailed → Job.Status j' = StatusPending →
    Job.RetryCount j' = 0 → edge j j'.

(** A row as it is created. *)
Definition fresh_row (j : Job) : Prop :=
  Job.Status j = StatusPending ∧ Job.RetryCount j = 0 ∧ - 2 ^ 31 ≤ Job.MaxRetries j < 2 ^ 31.

(** ** Budget: how many failed attempts a row has recorded *)
Definition budget_ok (j : Job) : Prop :=
  - 2 ^ 31 ≤ Job.MaxRetries j < 2 ^ 31
  ∧ 0 ≤ Job.RetryCount j
  ∧ (Job.Status j = StatusFailed → Job.RetryCount j = Z.max 1 (Job.MaxRetries j))
  ∧ (Job.Status j ≠ StatusFailed → Job.RetryCount j < Z.max 1 (Job.MaxRetries j)).

(** ** The constraints on the account tables: primary keys, the unique indexes on
    [lower(email)], on token hashes and on key hashes, and the foreign keys *)
Definition unique_on {A B} (f : A → B) (t : gmap uuid A) : Prop := ∀ k k' a a',
  t !! k = Some a → t !! k' = Some a' → f a = f a' → k = k'.

Definition references {A B} (f : A → uuid) (t : gmap uuid A) (t' : gmap uuid B) : Prop :=
  ∀ k a, t !! k = Some a → is_Some (t' !! f a).

Record accounts_ok `{Postgres} (tenants : gmap uuid Tenant) (users : gmap uuid User)
    (sessions : gmap uuid Session) (api_keys : gmap uuid APIKey) : Prop := {
  acc_tenants_keyed : keyed Tenant.ID tenants;
  acc_users_keyed : keyed User.ID users;
  acc_sessions_keyed : keyed Session.ID sessions;
  acc_keys_keyed : keyed APIKey.ID api_keys;
  acc_email : unique_on (λ u, pg_lower (User.Email u)) users;
  acc_token : unique_on Session.TokenHash sessions;
  acc_hash : unique_on APIKey.KeyHash api_keys;
  acc_user_tenant : references User.TenantID users tenants;
  acc_session_user : references Session.UserID sessions users;
  acc_key_tenant : references APIKey.TenantID api_keys tenants;
}.

(** ** Invariant of the tables *)
Record db_inv `{Postgres} (d : DB) : Prop := {
  inv_jobs_keyed : keyed Job.ID (tbl_jobs d);
  inv_dlq_keyed : keyed DLQRow.JobID (tbl_dead_letter_queue d);
  inv_status : ∀ id j, tbl_jobs d !! id = Some j → Valid (Job.Status j) = true;
  inv_budget : ∀ id j, tbl_jobs d !! id = Some j → budget_ok j;
  inv_tenant : ∀ id j, tbl_jobs d !! id = Some j → is_Some (tbl_tenants d !! Job.TenantID j);
  inv_failed : ∀ id j, tbl_jobs d !! id = Some j → Job.Status j = StatusFailed →
    ∃ q, tbl_dead_letter_queue d !! id = Some q
       ∧ DLQRow.TenantID q = Job.TenantID j ∧ DLQRow.Attempts q = Job.RetryCount j
       ∧ Job.ErrorMessage j = Some (DLQRow.Reason q);
  inv_dlq : ∀ id q, tbl_dead_letter_queue d !! id = Some q →
    ∃ j, tbl_jobs d !! id = Some j ∧ Job.Status j = StatusFailed;
  inv_accounts : accounts_ok (tbl_tenants d) (tbl_users d) (tbl_sessions d) (tbl_api_keys d);
}.

(** ** What one thread may do to the tables

    [o] says which thread claimed each job. Rows are never deleted, change along [edge]s, and
    a row being processed is changed only by the thread that claimed it. *)
Definition owner : Type := uuid → option nat.

Definition row_change (t : nat) (o : option nat) (r r' : option Job) : Prop :=
  match r, r' with
  | None, None => True
  | None, Some j' => fresh_row j'
  | Some _, None => False
  | Some j, Some j' =>
      edge j j' ∧ same_identity j j'
      ∧ (Job.Status j = StatusProcessing → o ≠ Some t → j' = j)
  end.

Definition guar (t : nat) (o : owner) (d d' : DB) : Prop :=
  ∀ id, row_change t (o id) (tbl_jobs d !! id) (tbl_jobs d' !! id).

(** Who claimed each job after a change made by [t]: the thread that moved it to
    processing. *)
Definition claim_owner (t : nat) (d d' : DB) (o : owner) : owner := λ id,
  match tbl_jobs d' !! id with
  | Some j' =>
      if decide (Job.Status j' = StatusProcessing) then
        match tbl_jobs d !! id with
        | Some j => if decide (Job.Status j = StatusProcessing) then o id else Some t
        | None => Some t
        end
      else None
  | None => None
  end.

(** ** Lemmas *)

Ltac status_neq :=
  repeat match goal with
         | H : Job.Status ?j = ?s, H' : Job.Status ?j = ?s' |- _ =>
             tryif constr_eq s s' then clear H' else (rewrite H in H'; discriminate H')
         end.

Lemma same_identity_refl j : same_identity j j.
Proof. by split_and!. Qed.

Lemma same_identity_trans j1 j2 j3 :
  same_identity j1 j2 → same_identity j2 j3 → same_identity j1 j3.
Proof. unfold same_identity. intuition congruence. Qed.

#[export] Instance same_identity_preorder : PreOrder same_identity.
Proof. split; [exact same_identity_refl|exact same_identity_trans]. Qed.

#[export] Hint Resolve same_identity_refl : dispatch.

Lemma edge_valid j j' : edge j j' → Valid (Job.Status j) = true → Valid (Job.Status j') = true.
Proof.
  destruct 1 as [->|_ H|_ H|_ H|_ H|_ H|_ H]; intros; [done|..]; rewrite H; reflexivity.
Qed.

Lemma edge_budget j j' :
  edge j j' → Job.MaxRetries j' = Job.MaxRetries j → budget_ok j → budget_ok j'.
Proof.
  unfold budget_ok. intros He Hm (Hr & H0 & Hf & Hn). rewrite Hm.
  destruct He as [->|Hs Hs' Hc|Hs Hs' Hc|Hs Hs' Hc|Hs Hs' Hc Hlt|Hs Hs' Hc Hle|Hs Hs' Hc];
    [done|..]; rewrite Hs in *; rewrite Hs' in *.
  all: try specialize (Hn ltac:(discriminate)); try specialize (Hf eq_refl).
  all: split_and!; try done; try lia; intros _; lia.
Qed.

Lemma fresh_budget j : fresh_row j → budget_ok j.
Proof.
  intros (Hs & Hc & Hm). unfold budget_ok. rewrite Hs, Hc.
  split_and!; try lia. done.
Qed.

Lemma guar_refl t o d : guar t o d d.
Proof.
  intros id. unfold row_change. destruct (tbl_jobs d !! id) as [j|]; [|done].
  split_and!; [by apply edge_same|apply same_identity_refl|done].
Qed.

Lemma guar_same_jobs t o d d' : tbl_jobs d' = tbl_jobs d → guar t o d d'.
Proof. unfold guar. intros ->. apply guar_refl. Qed.

Lemma guar_persist t o d d' id j :
  guar t o d d' → tbl_jobs d !! id = Some j →
  ∃ j', tbl_jobs d' !! id = Some j' ∧ edge j j' ∧ same_identity j j'
      ∧ (Job.Status j = StatusProcessing → o id ≠ Some t → j' = j).
Proof.
  intros Hg Hj. specialize (Hg id). rewrite Hj in Hg. unfold row_change in Hg.
  destruct (tbl_jobs d' !! id) as [j'|]; [eauto|done].
Qed.

#[export] Hint Resolve guar_refl guar_same_jobs : dispatch.

(** *** Preservation of the invariant by an update of job rows that neither enters nor leaves
    [failed]. *)
Section UpdateRows.
Context `{Postgres}.
Context (d d' : DB) (cond : Job → bool) (upd : Job → Job).
Hypothesis Hd' : d' = {| d with tbl_jobs := update_where cond upd (tbl_jobs d) |}.
Hypothesis Hupd : ∀ id j, tbl_jobs d !! id = Some j → cond j = true →
  edge j (upd j) ∧ same_identity j (upd j)
  ∧ Job.Status j ≠ StatusFailed ∧ Job.Status (upd j) ≠ StatusFailed.

Lemma update_row_inv id j' :
  tbl_jobs d' !! id = Some j' →
  ∃ j, tbl_jobs d !! id = Some j ∧ edge j j' ∧ same_identity j j'
     ∧ (j' = j ∨ (Job.Status j ≠ StatusFailed ∧ Job.Status j' ≠ StatusFailed)).
Proof.
  rewrite Hd'. simpl. rewrite lookup_update_where.
  intros (j & Hj & ->)%fmap_Some. exists j. split; [done|].
  destruct (cond j) eqn:Hc; [|split_and!; auto using edge_same, same_identity_refl].
  destruct (Hupd id j Hj Hc) as (? & ? & ? & ?). auto.
Qed.

Lemma update_row_fwd id j :
  tbl_jobs d !! id = Some j →
  ∃ j', tbl_jobs d' !! id = Some j'
      ∧ (j' = j ∨ (Job.Status j ≠ StatusFailed ∧ Job.Status j' ≠ StatusFailed)).
Proof.
  intros Hj. rewrite Hd'. simpl. rewrite lookup_update_where, Hj. simpl.
  eexists. split; [done|]. destruct (cond j) eqn:Hc; [|by left].
  right. destruct (Hupd id j Hj Hc) as (_ & _ & ? & ?). done.
Qed.

Lemma update_preserves_inv : db_inv d → db_inv d'.
Proof.
  intros Hinv.
  assert (tbl_dead_letter_queue d' = tbl_dead_letter_queue d) as Edlq by (by rewrite Hd').
  assert (tbl_tenants d' = tbl_tenants d) as Eten by (by rewrite Hd').
  constructor; rewrite ?Edlq, ?Eten.
  - intros id j' (j & Hj & _ & (E & _) & _)%update_row_inv.
    rewrite E. by eapply inv_jobs_keyed.
  - by apply inv_dlq_keyed.
  - intros id j' (j & Hj & He & _ & _)%update_row_inv.
    eapply edge_valid; [done|]. by eapply inv_status.
  - intros id j' (j & Hj & He & (_&_&_&_&_&Hm&_) & _)%update_row_inv.
    eapply edge_budget; [done|done|]. by eapply inv_budget.
  - intros id j' (j & Hj & _ & (_ & Ht & _) & _)%update_row_inv.
    rewrite Ht. by eapply inv_tenant.
  - intros id j' (j & Hj & _ & _ & [->|[? ?]])%update_row_inv Hf; [|done].
    by eapply inv_failed.
  - intros id q (j & Hj & Hf)%(inv_dlq d Hinv).
    destruct (update_row_fwd _ _ Hj) as (j' & Hj' & [->|[? _]]); [eauto|done].
  - rewrite Hd'. apply (inv_accounts d Hinv).
Qed.

Lemma update_guar t (o : owner) :
  (∀ id j, tbl_jobs d !! id = Some j → cond j = true →
     Job.Status j = StatusProcessing → o id = Some t) →
  guar t o d d'.
Proof.
  intros Ho id. rewrite Hd'. simpl. rewrite lookup_update_where.
  destruct (tbl_jobs d !! id) as [j|] eqn:Hj; simpl; [|done].
  destruct (cond j) eqn:Hc; [|split_and!; auto using edge_same, same_identity_refl].
  destruct (Hupd id j Hj Hc) as (? & ? & _ & _). split_and!; [done..|].
  intros Hp Hne. destruct Hne. eauto.
Qed.
End UpdateRows.
