(* ===== verification/QueueFacts.v ===== *)
(** * The work queue: order, promotion, removal, liveness *)
From S2P Require Import Prelude GoStd Models Interfaces Db Effects Samples Queue.
Open Scope Z_scope.

Section QueueFacts.
Context `{GoText} {R : Type} `{Redis R} `{!RedisLaws R}.
Implicit Types (w : world R) (e : reply) (s : R).

(** The ids waiting on a queue, the next to be served first. *)
Definition waiting (q : string) (s : R) : list string := reverse (rd_list s (queue_key q)).

(** ** Runs of one operation *)

Lemma exec_Enqueue q m e es w :
  reliable e →
  exec (e :: es) (Queue.Enqueue q m) w
  = (Some (None, es), with_redis (LPUSH (queue_key q) m (w_redis w)) w).
Proof. intros He. unfold Queue.Enqueue, redis_cmd. by rewrite exec_request, redis_ok. Qed.

Lemma exec_Dequeue qs e es w :
  reliable e →
  exec (e :: es) (Dequeue qs) w
  = (Some (match (BRPOP (queue_key <$> qs) (w_redis w)).1 with
           | None => inl (ESentinel RedisNil)
           | Some (key, value) => inr (value, TrimPrefix key keyPrefix)
           end, es),
     with_redis (BRPOP (queue_key <$> qs) (w_redis w)).2 w).
Proof. intros He. unfold Dequeue, redis_cmd. by rewrite exec_request, redis_ok. Qed.

Lemma waiting_LPUSH q m s q' :
  waiting q' (LPUSH (queue_key q) m s)
  = if decide (q = q') then waiting q s ++ [m] else waiting q' s.
Proof.
  unfold waiting. rewrite list_LPUSH. case_decide as E.
  - apply string_app_inj_l in E as ->. by rewrite decide_True, reverse_cons.
  - by rewrite decide_False by congruence.
Qed.

Lemma BRPOP_one q s m l :
  waiting q s = m :: l →
  ∃ s', BRPOP [queue_key q] s = (Some (queue_key q, m), s')
      ∧ waiting q s' = l
      ∧ (∀ k, k ≠ queue_key q → rd_list s' k = rd_list s k)
      ∧ (∀ k, rd_zset s' k = rd_zset s k).
Proof.
  intros Hw. pose proof (BRPOP_spec [queue_key q] s) as Hs.
  unfold waiting in *. simpl in Hs. rewrite Hw in Hs.
  destruct Hs as (s' & Es & Hl & Hz & _). exists s'. split_and!; [done| | |done].
  - rewrite Hl, decide_True by done. apply reverse_involutive.
  - intros k Hk. by rewrite Hl, decide_False.
Qed.

(** The ids waiting on several queues, in the order in which [Dequeue] serves them. *)
Definition backlog (qs : list string) (s : R) : list string := qs ≫= λ q, waiting q s.

Lemma backlog_elem qs s m : m ∈ backlog qs s ↔ ∃ q, q ∈ qs ∧ m ∈ waiting q s.
Proof. unfold backlog. rewrite list_elem_of_bind. naive_solver. Qed.

Lemma backlog_ext qs s s' :
  (∀ q, q ∈ qs → rd_list s' (queue_key q) = rd_list s (queue_key q)) → backlog qs s' = backlog qs s.
Proof.
  intros Hl. induction qs as [|q qs IH]; [done|]. unfold backlog in *. rewrite !bind_cons.
  f_equal; [unfold waiting; rewrite Hl; [done|by left]|]. apply IH. intros q' ?. apply Hl. by right.
Qed.

Lemma first_nonempty_backlog qs s :
  NoDup qs →
  match backlog qs s with
  | [] => first_nonempty (rd_list s) (queue_key <$> qs) = None
  | m :: l =>
      ∃ q rest, first_nonempty (rd_list s) (queue_key <$> qs) = Some (queue_key q, rest, m)
        ∧ q ∈ qs ∧ m ∈ waiting q s
        ∧ ∀ s', (∀ k, rd_list s' k = if decide (queue_key q = k) then rest else rd_list s k) →
            backlog qs s' = l
  end.
Proof.
  induction qs as [|q qs IH]; intros Hnd; [done|]. apply NoDup_cons in Hnd as [Hq Hnd].
  specialize (IH Hnd). unfold backlog in *. rewrite bind_cons. cbn [fmap list_fmap first_nonempty].
  fold (waiting q s). destruct (waiting q s) as [|m l] eqn:E.
  - cbn [app]. destruct (mbind _ qs) as [|m l]; [done|].
    destruct IH as (q' & rest & -> & Hin & Hm & Hs'). exists q', rest.
    split_and!; [done|by right|done|]. intros s' Hl. rewrite bind_cons, (Hs' s' Hl).
    unfold waiting at 1. rewrite Hl, decide_False; [by fold (waiting q s); rewrite E|].
    intros Ek%string_app_inj_l. by subst q'.
  - cbn [app]. exists q, (reverse l). split_and!; [done|by left|rewrite E; by left|].
    intros s' Hl. rewrite bind_cons. unfold waiting at 1. rewrite Hl, decide_True, reverse_involutive by done.
    f_equal. apply (backlog_ext qs s s'). intros q' Hq'. rewrite Hl, decide_False; [done|].
    intros Ek%string_app_inj_l. by subst q'.
Qed.

Lemma BRPOP_backlog qs s :
  NoDup qs →
  match backlog qs s with
  | [] => BRPOP (queue_key <$> qs) s = (None, s)
  | m :: l =>
      ∃ q s', BRPOP (queue_key <$> qs) s = (Some (queue_key q, m), s')
        ∧ q ∈ qs ∧ m ∈ waiting q s ∧ backlog qs s' = l ∧ (∀ k, rd_zset s' k = rd_zset s k)
  end.
Proof.
  intros Hnd. pose proof (first_nonempty_backlog qs s Hnd) as Hf.
  pose proof (BRPOP_spec (queue_key <$> qs) s) as Hs.
  destruct (backlog qs s) as [|m l]; [by rewrite Hf in Hs|].
  destruct Hf as (q & rest & Ef & Hq & Hm & Hl). rewrite Ef in Hs.
  destruct Hs as (s' & Es & Hl' & Hz & _). exists q, s'. split_and!; auto.
Qed.

(** ** First in, first out *)

Fixpoint enqueue_all (q : string) (ids : list string) : prog R unit :=
  match ids with
  | [] => Ret tt
  | m :: ids' => let! _ := Queue.Enqueue q m in enqueue_all q ids'
  end.

Fixpoint dequeue_all (n : nat) (q : string) : prog R (list (string * string)) :=
  match n with
  | O => Ret []
  | S n' =>
      let! r := Dequeue [q] in
      let! rest := dequeue_all n' q in
      Ret (match r with inr x => x :: rest | inl _ => rest end)
  end.

Lemma enqueue_all_run q ids es es' w :
  Forall reliable es → length es = length ids →
  ∃ s, exec (es ++ es') (enqueue_all q ids) w = (Some (tt, es'), with_redis s w)
     ∧ waiting q s = waiting q (w_redis w) ++ ids.
Proof.
  intros Hes. revert w ids. induction Hes as [|e es He _ IH]; intros w [|m ids] Hlen; try done.
  - exists (w_redis w). rewrite app_nil_r. split; [by destruct w|done].
  - cbn [enqueue_all app]. rewrite exec_bind, exec_Enqueue by done.
    destruct (IH (with_redis (LPUSH (queue_key q) m (w_redis w)) w) ids) as (s & -> & Hs);
      [simpl in Hlen; lia|].
    exists s. split; [done|]. rewrite Hs. simpl.
    rewrite waiting_LPUSH, decide_True by done. by rewrite <- app_assoc.
Qed.

Lemma dequeue_all_run q ids es es' w :
  Forall reliable es → length es = length ids → waiting q (w_redis w) = ids →
  ∃ s, exec (es ++ es') (dequeue_all (length ids) q) w
       = (Some ((λ m, (m, q)) <$> ids, es'), with_redis s w)
     ∧ waiting q s = [].
Proof.
  intros Hes. revert w ids. induction Hes as [|e es He _ IH]; intros w [|m ids] Hlen Hw; try done.
  - exists (w_redis w). split; [by destruct w|done].
  - cbn [dequeue_all app length]. rewrite exec_bind, exec_Dequeue by done. cbn [fmap list_fmap].
    destruct (BRPOP_one q (w_redis w) m ids Hw) as (s1 & -> & Hs1 & _). cbn [fst snd].
    rewrite exec_bind.
    destruct (IH (with_redis s1 w) ids) as (s & -> & Hs); [simpl in Hlen; lia|done|].
    exists s. split; [|done]. cbn [exec fmap list_fmap]. unfold queue_key.
    by rewrite TrimPrefix_app.
Qed.

(** First in, first out: the ids put on a queue come off it in the order they were put
    on, after those already waiting, each with the queue's name; and nothing is left. *)
Theorem queue_is_fifo q old ids es1 es2 w :
  waiting q (w_redis w) = old →
  Forall reliable es1 → length es1 = length ids →
  Forall reliable es2 → length es2 = (length old + length ids)%nat →
  ∃ s, exec (es1 ++ es2) (let! _ := enqueue_all q ids in
                          dequeue_all (length old + length ids) q) w
       = (Some ((λ m, (m, q)) <$> (old ++ ids), []), with_redis s w)
     ∧ waiting q s = [].
Proof.
  intros Hold He1 Hl1 He2 Hl2. rewrite exec_bind.
  destruct (enqueue_all_run q ids es1 es2 w He1 Hl1) as (s1 & -> & Hs1).
  rewrite Hold in Hs1. rewrite <- length_app in *.
  destruct (dequeue_all_run q (old ++ ids) es2 [] (with_redis s1 w) He2 Hl2 Hs1) as (s & Hs & ?).
  rewrite app_nil_r in Hs. by exists s.
Qed.

(** ** Promotion *)

(** The effect of moving the ids [ms] from [k1] to [k2], one by one. *)
Lemma move_all k1 k2 ms s :
  let s' := foldl (λ s m, ZREM k1 m (LPUSH k2 m s)) s ms in
  (∀ k, rd_list s' k = if decide (k = k2) then reverse ms ++ rd_list s k else rd_list s k)
  ∧ (∀ k m, rd_zset s' k !! m
            = if decide (k = k1 ∧ m ∈ ms) then None else rd_zset s k !! m)
  ∧ (∀ k, rd_deadline s' k = rd_deadline s k).
Proof.
  revert s. induction ms as [|m ms IH]; intros s s'.
  - split_and!; intros; [by case_decide| |done]. rewrite decide_False; set_solver.
  - destruct (IH (ZREM k1 m (LPUSH k2 m s))) as (Hl & Hz & Hd). subst s'. simpl.
    split_and!.
    + intros k. rewrite Hl, list_ZREM, list_LPUSH, reverse_cons. case_decide as E.
      * subst. by rewrite decide_True, <- app_assoc.
      * by rewrite decide_False by congruence.
    + intros k m'. rewrite Hz, zset_ZREM, zset_LPUSH.
      destruct (decide (k1 = k)) as [<-|Hk].
      * rewrite lookup_delete. destruct (decide (m' ∈ ms)) as [Hin|Hin].
        { by rewrite !decide_True by (split; [done|set_solver]). }
        rewrite (decide_False (P := _ ∧ m' ∈ ms)) by tauto.
        destruct (decide (m = m')) as [->|Hne].
        { rewrite decide_True; [done|]. split; [done|by left]. }
        rewrite decide_False; [done|]. rewrite elem_of_cons. naive_solver.
      * rewrite !(decide_False (P := _ ∧ _)) by (intros [-> _]; done).
        by rewrite zset_LPUSH.
    + intros k. by rewrite Hd, deadline_ZREM, deadline_LPUSH.
Qed.

(** C27. Promotion moves exactly the due ids: up to the limit, those with the earliest times
    first, each leaves the delayed set and joins the end of the work list, in that order; the
    answer is their number, and every other id and key stays. *)
Theorem PromoteDue_moves_the_due_ids q now lim e es w :
  reliable e → 0 ≤ lim →
  let s := w_redis w in
  let nowS := float64_of_int (Unix now) in
  ∃ moved left s',
    exec (e :: es) (PromoteDue q now lim) w
    = (Some (inr (Z.of_nat (length moved)), es), with_redis s' w)
    ∧ moved ++ left ≡ₚ due_entries (rd_zset s (delayed_key q)) nowS
    ∧ StronglySorted (key_le snd) (moved ++ left)
    ∧ length moved = Nat.min (Z.to_nat lim) (length (moved ++ left))
    ∧ waiting q s' = waiting q s ++ moved.*1
    ∧ (∀ k, k ≠ queue_key q → rd_list s' k = rd_list s k)
    ∧ (∀ k m, rd_zset s' k !! m
              = if decide (k = delayed_key q ∧ m ∈ moved.*1) then None else rd_zset s k !! m).
Proof.
  intros He Hlim s nowS.
  destruct (ZRANGEBYSCORE_spec (delayed_key q) nowS lim s) as (l & Hperm & Hsort & Hrange).
  exists (take (Z.to_nat lim) l), (drop (Z.to_nat lim) l).
  eexists. split.
  { unfold PromoteDue, redis_cmd. rewrite exec_request, redis_ok by done.
    unfold promoteScript. fold s nowS (delayed_key q) (queue_key q). rewrite Hrange.
    unfold limit_take. destruct (Z.ltb_spec lim 0); [lia|]. cbn [exec fst snd].
    rewrite length_fmap. reflexivity. }
  rewrite take_drop, length_take.
  destruct (move_all (delayed_key q) (queue_key q) (take (Z.to_nat lim) l).*1 s) as (Hl & Hz & _).
  split_and!; [done..| | |].
  - unfold waiting. rewrite Hl, decide_True by done. by rewrite reverse_app, reverse_involutive.
  - intros k Hk. by rewrite Hl, decide_False.
  - intros k m. by rewrite Hz.
Qed.

(** ** Removal *)

(** Removal clears an id from both structures of its queue and leaves every other id, in
    its order, and every other queue alone. *)
Theorem Remove_clears_the_id q m e1 e2 es w :
  reliable e1 → reliable e2 →
  let s := w_redis w in
  ∃ s', exec (e1 :: e2 :: es) (Remove q m) w = (Some (None, es), with_redis s' w)
    ∧ rd_list s' (queue_key q) = filter (λ x, x ≠ m) (rd_list s (queue_key q))
    ∧ rd_zset s' (delayed_key q) = delete m (rd_zset s (delayed_key q))
    ∧ (∀ q', q' ≠ q → rd_list s' (queue_key q') = rd_list s (queue_key q')
                     ∧ rd_zset s' (delayed_key q') = rd_zset s (delayed_key q')).
Proof.
  intros He1 He2 s. eexists. split.
  { unfold Remove, redis_cmd. rewrite exec_request, redis_ok by done. cbn [fst snd].
    rewrite exec_request, redis_ok by done. reflexivity. }
  simpl. fold (queue_key q) (delayed_key q).
  rewrite list_ZREM, list_LREM, zset_ZREM, zset_LREM, !decide_True by done.
  split_and!; [done|done|]. intros q' Hq.
  rewrite list_ZREM, list_LREM, zset_ZREM, !zset_LREM.
  rewrite !decide_False; [done|..]; intros E; by apply string_app_inj_l in E.
Qed.

(** ** Liveness keys *)

(** The worker's key exists at time [t]. *)
Definition alive (wid : string) (t : Z) (s : R) : bool :=
  match rd_deadline s (worker_key wid) with Some d => t <? d | None => false end.

(** Heartbeats: after a beat the worker counts as active for [WorkerTTL], which covers a
    missed beat, and then no longer; deregistration ends it at once; and no other worker's key
    changes. *)
Theorem Heartbeat_keeps_the_worker_alive wid e es w :
  reliable e →
  ∃ s', exec (e :: es) (Heartbeat wid) w = (Some (None, es), with_redis s' w)
    ∧ (∀ t, alive wid t s' = (t <? r_now e + WorkerTTL))
    ∧ alive wid (r_now e + 2 * HeartbeatInterval) s' = true
    ∧ (∀ wid' t, wid' ≠ wid → alive wid' t s' = alive wid' t (w_redis w))
    ∧ ∃ s2, exec (e :: es) (RemoveWorker wid) (with_redis s' w) = (Some (None, es), with_redis s2 w)
        ∧ ∀ t, alive wid t s2 = false.
Proof.
  intros He. eexists. split.
  { unfold Heartbeat, redis_cmd. rewrite exec_request, redis_ok by done. reflexivity. }
  unfold alive. cbn [snd]. fold (worker_key wid). split_and!.
  - intros t. by rewrite deadline_SETEX, decide_True.
  - rewrite deadline_SETEX, decide_True by done.
    unfold WorkerTTL, HeartbeatInterval, Second. lia.
  - intros wid' t Hw. rewrite deadline_SETEX, decide_False; [done|].
    intros E. by apply string_app_inj_l in E.
  - eexists. split.
    { unfold RemoveWorker, redis_cmd. rewrite exec_request, redis_ok by done. reflexivity. }
    intros t. simpl. fold (worker_key wid). by rewrite deadline_DEL, decide_True.
Qed.
End QueueFacts.

(** ** When a delayed id is due *)

(** Delays: an id parked until [runAt] is due at [now] when [now] has reached [runAt]; it
    may be due before, because both times are cut to whole seconds, but by less than one. *)
Theorem delayed_id_is_due_on_time runAt now :
  Z.abs (Unix runAt) ≤ 2 ^ 53 → Z.abs (Unix now) ≤ 2 ^ 53 →
  (runAt ≤ now → float64_of_int (Unix runAt) ≤ float64_of_int (Unix now))
  ∧ (float64_of_int (Unix runAt) ≤ float64_of_int (Unix now) → runAt - 1 * Second < now).
Proof.
  intros H1 H2. rewrite !float64_of_int_exact by done. unfold Unix in *. split; intros Hle.
  - apply Z.div_le_mono; [|done]. unfold Second. lia.
  - assert (0 < Second) as Hs by (unfold Second; lia).
    pose proof (Z.mul_div_le now Second Hs). pose proof (Z.mul_succ_div_gt runAt Second Hs). nia.
Qed.

(** ** Instances *)

Definition sample_queue : RefRedis.store :=
  ZADD (delayed_key "default") 5 "c"
    (ZADD (delayed_key "default") 3 "b" (LPUSH (queue_key "default") "a" RefRedis.empty)).

Lemma queue_is_fifo_witness :
  ∃ s, exec ([ok_at 1 0%N] ++ [ok_at 2 0%N; ok_at 3 0%N])
         (let! _ := enqueue_all "default" ["b"%string] in dequeue_all (1 + 1) "default")
         (mkWorld demo_db sample_queue [])
       = (Some ([("a", "default"); ("b", "default")]%string, []), mkWorld demo_db s []).
Proof.
  destruct (queue_is_fifo "default" ["a"%string] ["b"%string] [ok_at 1 0%N]
              [ok_at 2 0%N; ok_at 3 0%N] (mkWorld demo_db sample_queue [])) as (s & Hs & _).
  - vm_compute. reflexivity.
  - repeat constructor.
  - reflexivity.
  - repeat constructor.
  - reflexivity.
  - exists s. exact Hs.
Defined.

Lemma PromoteDue_moves_the_due_ids_witness :
  ∃ n s', exec [ok_at 1 0%N] (PromoteDue "default" (4 * Second) 100) (mkWorld demo_db sample_queue [])
          = (Some (inr n, []), mkWorld demo_db s' []).
Proof.
  destruct (PromoteDue_moves_the_due_ids "default" (4 * Second) 100 (ok_at 1 0%N) []
              (mkWorld demo_db sample_queue [])) as (moved & left & s' & Hs & _).
  - apply ok_at_reliable.
  - lia.
  - eexists _, s'. exact Hs.
Defined.

Lemma Remove_clears_the_id_witness :
  ∃ s', exec [ok_at 1 0%N; ok_at 2 0%N] (Remove "default" "a") (mkWorld demo_db sample_queue [])
        = (Some (None, []), mkWorld demo_db s' []).
Proof.
  destruct (Remove_clears_the_id "default" "a" (ok_at 1 0%N) (ok_at 2 0%N) []
              (mkWorld demo_db sample_queue [])) as (s' & Hs & _).
  - apply ok_at_reliable.
  - apply ok_at_reliable.
  - exists s'. exact Hs.
Defined.

Lemma Heartbeat_keeps_the_worker_alive_witness :
  ∃ s', exec [ok_at 1 0%N] (Heartbeat "w1") (mkWorld demo_db sample_queue [])
        = (Some (None, []), mkWorld demo_db s' []).
Proof.
  destruct (Heartbeat_keeps_the_worker_alive "w1" (ok_at 1 0%N) []
              (mkWorld demo_db sample_queue [])) as (s' & Hs & _).
  - apply ok_at_reliable.
  - exists s'. exact Hs.
Defined.

Lemma delayed_id_is_due_on_time_witness :
  3500000000 - 1 * Second < 3000000000
  ∧ float64_of_int (Unix 3500000000) ≤ float64_of_int (Unix 3000000000).
Proof.
  split; [|vm_compute; discriminate].
  apply (delayed_id_is_due_on_time 3500000000 3000000000); vm_compute; discriminate.
Defined.
