(* ===== verification/QueueSpec.v ===== *)
(** * The work queue as an abstract data type

    A specification of [internal/queue] without Redis: a first-in first-out list and a set of
    parked ids per queue, and the workers' deadlines. Every operation of [Queue] refines one
    step of it, whatever fails; and no step but a removal loses an id, nor duplicates one. *)
From stdpp Require Import functions list.
From S2P Require Import Prelude GoStd Models Interfaces Db Effects Samples Queue QueueFacts.
Open Scope Z_scope.

(** ** The abstract state *)

Record queues := mkQueues {
  ready : string → list string;
  parked : string → gmap string Z;
  beats : string → option Z;
}.

(** Two states are the same when they agree on every queue and every worker. *)
#[export] Instance queues_equiv : Equiv queues := λ a b,
  (∀ q, ready a q = ready b q) ∧ (∀ q, parked a q = parked b q) ∧ ∀ i, beats a i = beats b i.

#[export] Instance queues_equivalence : Equivalence (≡@{queues}).
Proof.
  split.
  - by intros a.
  - intros a b (? & ? & ?). by split_and!.
  - intros a b c (H1 & H2 & H3) (H4 & H5 & H6).
    split_and!; intros; [by rewrite H1|by rewrite H2|by rewrite H3].
Qed.

#[export] Instance ready_proper : Proper ((≡) ==> (=) ==> (=)) ready.
Proof. intros a b (Hr & _) q ? <-. apply Hr. Qed.
#[export] Instance parked_proper : Proper ((≡) ==> (=) ==> (=)) parked.
Proof. intros a b (_ & Hp & _) q ? <-. apply Hp. Qed.
#[export] Instance beats_proper : Proper ((≡) ==> (=) ==> (=)) beats.
Proof. intros a b (_ & _ & Hb) q ? <-. apply Hb. Qed.

(** ** The abstract operations and their answers *)

Inductive qop : Type → Type :=
| Push (q m : string) : qop unit
| Pop (qs : list string) : qop (option (string * string))
| Park (q m : string) (due : Z) : qop unit
| Promote (q : string) (now lim : Z) : qop Z
| Withdraw (q m : string) : qop unit
| Unpark (q m : string) : qop unit
| Beat (i : string) : qop unit
| Leave (i : string) : qop unit
| CountReady (q : string) : qop Z
| CountParked (q : string) : qop Z.

Definition set_ready (q : string) (l : list string) (a : queues) : queues :=
  mkQueues (<[q := l]> (ready a)) (parked a) (beats a).
Definition set_parked (q : string) (z : gmap string Z) (a : queues) : queues :=
  mkQueues (ready a) (<[q := z]> (parked a)) (beats a).
Definition set_beat (i : string) (d : option Z) (a : queues) : queues :=
  mkQueues (ready a) (parked a) (<[i := d]> (beats a)).

(** [spec t o a x a']: at time [t] the operation [o] can answer [x] and lead from [a] to [a']. *)
Definition spec (t : Z) {X} (o : qop X) (a : queues) : X → queues → Prop :=
  match o in qop X return X → queues → Prop with
  | Push q m => λ _ a', a' ≡ set_ready q (ready a q ++ [m]) a
  | Pop qs => λ x a',
      match x with
      | None => (∀ q, q ∈ qs → ready a q = []) ∧ a' ≡ a
      | Some (m, q) => ∃ qs1 qs2 l,
          qs = qs1 ++ q :: qs2 ∧ (∀ q', q' ∈ qs1 → ready a q' = [])
          ∧ ready a q = m :: l ∧ a' ≡ set_ready q l a
      end
  | Park q m due => λ _ a', a' ≡ set_parked q (<[m := due]> (parked a q)) a
  | Promote q now lim => λ n a', ∃ moved left,
      moved ++ left ≡ₚ due_entries (parked a q) now
      ∧ StronglySorted (key_le snd) (moved ++ left)
      ∧ length moved = Nat.min (Z.to_nat lim) (length (moved ++ left))
      ∧ n = Z.of_nat (length moved)
      ∧ a' ≡ set_ready q (ready a q ++ moved.*1)
               (set_parked q (filter (λ e, e.1 ∉ moved.*1) (parked a q)) a)
  | Withdraw q m => λ _ a', a' ≡ set_ready q (filter (λ x, x ≠ m) (ready a q)) a
  | Unpark q m => λ _ a', a' ≡ set_parked q (delete m (parked a q)) a
  | Beat i => λ _ a', a' ≡ set_beat i (Some (t + WorkerTTL)) a
  | Leave i => λ _ a', a' ≡ set_beat i None a
  | CountReady q => λ n a', n = Z.of_nat (length (ready a q)) ∧ a' ≡ a
  | CountParked q => λ n a', n = Z.of_nat (size (parked a q)) ∧ a' ≡ a
  end.

#[export] Instance set_ready_proper : Proper ((=) ==> (=) ==> (≡) ==> (≡)) set_ready.
Proof.
  intros q ? <- l ? <- a b (Hr & Hp & Hb). split_and!; [|done..]. intros q'. simpl.
  unfold insert, fn_insert. by case_decide.
Qed.
#[export] Instance set_parked_proper : Proper ((=) ==> (=) ==> (≡) ==> (≡)) set_parked.
Proof.
  intros q ? <- z ? <- a b (Hr & Hp & Hb). split_and!; [done| |done]. intros q'. simpl.
  unfold insert, fn_insert. by case_decide.
Qed.
#[export] Instance set_beat_proper : Proper ((=) ==> (=) ==> (≡) ==> (≡)) set_beat.
Proof.
  intros i ? <- d ? <- a b (Hr & Hp & Hb). split_and!; [done|done|]. intros i'. simpl.
  unfold insert, fn_insert. by case_decide.
Qed.

Lemma spec_equiv t {X} (o : qop X) a b x a' b' :
  a ≡ b → a' ≡ b' → spec t o a x a' → spec t o b x b'.
Proof.
  intros Ha Ha'. destruct o; simpl; try (by rewrite <- Ha, <- Ha').
  - destruct x as [[m q]|].
    + intros (qs1 & qs2 & l & -> & Hq & Hl & E). exists qs1, qs2, l.
      split_and!; [done|intros ??; rewrite <- Ha; auto|by rewrite <- Ha|by rewrite <- Ha, <- Ha'].
    + intros [Hq E]. split; [intros ??; rewrite <- Ha; auto|by rewrite <- Ha, <- Ha'].
  - intros (moved & left & ? & ? & ? & ? & E). exists moved, left.
    rewrite <- Ha, <- Ha'. by split_and!.
Qed.

#[export] Instance spec_proper t {X} (o : qop X) :
  Proper ((≡) ==> (=) ==> (≡) ==> iff) (spec t o).
Proof. intros a b Ha x ? <- a' b' Ha'. split; by apply spec_equiv. Qed.

(** ** Conservation *)

(** The ids a queue holds. *)
Definition held (a : queues) (q : string) : list string :=
  ready a q ++ (map_to_list (parked a q)).*1.

(** What an operation may change of the ids held. *)
Definition conserves {X} (o : qop X) (a : queues) : X → queues → Prop :=
  match o in qop X return X → queues → Prop with
  | Push q m => λ _ a', held a' q ≡ₚ m :: held a q
      ∧ ∀ q', q' ≠ q → held a' q' = held a q'
  | Pop _ => λ x a',
      match x with
      | None => ∀ q, held a' q = held a q
      | Some (m, q) => held a q = m :: held a' q ∧ ∀ q', q' ≠ q → held a' q' = held a q'
      end
  | Park q m _ => λ _ a', (m ∉ held a q → held a' q ≡ₚ m :: held a q)
      ∧ ∀ q', q' ≠ q → held a' q' = held a q'
  | Withdraw q m | Unpark q m => λ _ a',
      (∀ m', m' ≠ m → m' ∈ held a' q ↔ m' ∈ held a q) ∧ ∀ q', q' ≠ q → held a' q' = held a q'
  | _ => λ _ a', ∀ q, held a' q ≡ₚ held a q
  end.

Lemma held_equiv a b q : a ≡ b → held a q = held b q.
Proof. intros E. unfold held. by rewrite E. Qed.

Lemma held_ready_ne q l a q' : q' ≠ q → held (set_ready q l a) q' = held a q'.
Proof. intros Hq. unfold held. simpl. by rewrite fn_lookup_insert_ne. Qed.
Lemma held_ready_eq q l a : held (set_ready q l a) q = l ++ (map_to_list (parked a q)).*1.
Proof. unfold held. simpl. by rewrite fn_lookup_insert. Qed.
Lemma held_parked_ne q z a q' : q' ≠ q → held (set_parked q z a) q' = held a q'.
Proof. intros Hq. unfold held. simpl. by rewrite fn_lookup_insert_ne. Qed.
Lemma held_parked_eq q z a : held (set_parked q z a) q = ready a q ++ (map_to_list z).*1.
Proof. unfold held. simpl. by rewrite fn_lookup_insert. Qed.

(** Taking parked entries out and keeping the rest loses none and repeats none. *)
Lemma split_parked (z : gmap string Z) moved left now :
  moved ++ left ≡ₚ due_entries z now →
  moved.*1 ++ (map_to_list (filter (λ e, e.1 ∉ moved.*1) z)).*1 ≡ₚ (map_to_list z).*1.
Proof.
  intros Hperm.
  assert (∀ e, e ∈ moved → z !! e.1 = Some e.2) as Hin.
  { intros [m d] He. apply elem_of_map_to_list.
    assert ((m, d) ∈ due_entries z now) as Hd by (rewrite <- Hperm; set_solver).
    unfold due_entries in Hd. by apply list_elem_of_filter in Hd as [_ Hd]. }
  assert (NoDup (moved.*1)) as Hnd.
  { pose proof (due_entries_NoDup z now) as Hd.
    rewrite <- Hperm, fmap_app in Hd. by apply NoDup_app in Hd as [? _]. }
  apply NoDup_Permutation.
  - apply NoDup_app. split_and!; [done| |apply NoDup_fst_map_to_list].
    intros m Hm Hm'. apply list_elem_of_fmap in Hm' as ([m' d] & -> & He).
    apply elem_of_map_to_list, map_lookup_filter_Some in He as [_ He]. by apply He.
  - apply NoDup_fst_map_to_list.
  - intros m. rewrite elem_of_app, !list_elem_of_fmap. split.
    + intros [([m' d] & -> & He)|([m' d] & -> & He)]; exists (m', d); split; try done.
      * by apply elem_of_map_to_list, (Hin (m', d)).
      * apply elem_of_map_to_list, map_lookup_filter_Some in He as [He _].
        by apply elem_of_map_to_list.
    + intros ([m' d] & -> & He%elem_of_map_to_list).
      destruct (decide (m' ∈ moved.*1)) as [Hm|Hm].
      * left. by apply list_elem_of_fmap.
      * right. exists (m', d). split; [done|].
        by apply elem_of_map_to_list, map_lookup_filter_Some.
Qed.

Lemma elem_of_keys_delete (z : gmap string Z) m m' :
  m' ≠ m → m' ∈ (map_to_list (delete m z)).*1 ↔ m' ∈ (map_to_list z).*1.
Proof.
  intros Hm. rewrite !list_elem_of_fmap.
  split; intros ([k d] & -> & He%elem_of_map_to_list); exists (k, d); (split; [done|]);
    apply elem_of_map_to_list; simpl in *.
  - by rewrite lookup_delete_ne in He.
  - by rewrite lookup_delete_ne.
Qed.

Lemma spec_conserves t {X} (o : qop X) a x a' : spec t o a x a' → conserves o a x a'.
Proof.
  destruct o as [q m|qs|q m due|q now lim|q m|q m|i|i|q|q]; simpl.
  - intros E. split; [|intros q' Hq]; rewrite (held_equiv _ _ _ E).
    + rewrite held_ready_eq, <- app_assoc. symmetry. apply Permutation_middle.
    + by apply held_ready_ne.
  - destruct x as [[m q]|].
    + intros (qs1 & qs2 & l & _ & _ & Hl & E). split; [|intros q' Hq]; rewrite (held_equiv _ _ _ E).
      * rewrite held_ready_eq. unfold held. by rewrite Hl.
      * by apply held_ready_ne.
    + intros [_ E] q. by apply held_equiv.
  - intros E. split; [intros Hm|intros q' Hq]; rewrite (held_equiv _ _ _ E).
    + rewrite held_parked_eq. unfold held in *. rewrite elem_of_app in Hm.
      rewrite map_to_list_insert; [simpl; by rewrite Permutation_middle|].
      apply eq_None_not_Some. intros [d Hd]. apply Hm. right.
      apply list_elem_of_fmap. exists (m, d). by rewrite elem_of_map_to_list.
    + by apply held_parked_ne.
  - intros (moved & left & Hperm & _ & _ & _ & E) q'. rewrite (held_equiv _ _ _ E).
    destruct (decide (q' = q)) as [->|Hq].
    + rewrite held_ready_eq. cbn [parked set_parked]. rewrite fn_lookup_insert, <- app_assoc.
      by rewrite (split_parked _ _ _ _ Hperm).
    + by rewrite held_ready_ne, held_parked_ne.
  - intros E. split; [intros m' Hm|intros q' Hq]; rewrite (held_equiv _ _ _ E).
    + rewrite held_ready_eq. unfold held. rewrite !elem_of_app, list_elem_of_filter. tauto.
    + by apply held_ready_ne.
  - intros E. split; [intros m' Hm|intros q' Hq]; rewrite (held_equiv _ _ _ E).
    + rewrite held_parked_eq. unfold held. rewrite !elem_of_app.
      by rewrite elem_of_keys_delete.
    + by apply held_parked_ne.
  - intros E q. by rewrite (held_equiv _ _ _ E).
  - intros E q. by rewrite (held_equiv _ _ _ E).
  - intros [_ E] q'. by rewrite (held_equiv _ _ _ E).
  - intros [_ E] q'. by rewrite (held_equiv _ _ _ E).
Qed.

(** ** Refinement *)

(** What becomes of an operation under a fault: done and answered; not done; or done while the
    caller sees an error. *)
Definition attempt (e : reply) {X} (o : qop X) (a : queues) (r : result X) (a' : queues) : Prop :=
  match r_fault e with
  | FOk => ∃ x, r = inr x ∧ spec (r_now e) o a x a'
  | FLost err => r = inl err ∧ a' ≡ a
  | FUnknown err => r = inl err ∧ ∃ x, spec (r_now e) o a x a'
  end.

Section Refinement.
Context `{GoText} {R : Type} `{Redis R} `{!RedisLaws R}.
Implicit Types (w : world R) (e : reply) (s : R).

(** The abstract state Redis stands for. *)
Definition abstract (s : R) : queues := {|
  ready := λ q, waiting q s;
  parked := λ q, rd_zset s (delayed_key q);
  beats := λ i, rd_deadline s (worker_key i);
|}.

(** [p] is one attempt at [o], whose result it reports through [ret]; it leaves the tables and
    the metrics alone. *)
Definition implements {A X} (p : prog R A) (o : qop X) (ret : result X → A) : Prop :=
  ∀ e es w, ∃ r s',
    exec (e :: es) p w = (Some (ret r, es), with_redis s' w)
    ∧ attempt e o (abstract (w_redis w)) r (abstract s').

(** The result of a command, as the answer of an operation. *)
Definition map_result {X Y} (f : Y → X) (r : result Y) : result X :=
  match r with inl e => inl e | inr y => inr (f y) end.

(** A command that does what the specification says, under each fault. *)
Lemma attempt_command {X Y} (c : Z → R → Y * R) (f : Y → X) (o : qop X) e w :
  (∀ now s, spec now o (abstract s) (f (c now s).1) (abstract (c now s).2)) →
  ∃ r s', interp (ORedis c) e w = (r, with_redis s' w)
    ∧ attempt e o (abstract (w_redis w)) (map_result f r) (abstract s').
Proof.
  intros Hc. simpl. specialize (Hc (r_now e) (w_redis w)).
  destruct (c (r_now e) (w_redis w)) as [y s'].
  unfold attempt. destruct (r_fault e) as [|err|err]; simpl in *.
  - exists (inr y), s'. split; [done|]. by exists (f y).
  - exists (inl err), (w_redis w). by split.
  - exists (inl err), s'. split; [done|]. split; [done|]. by exists (f y).
Qed.

Lemma implements_command {A X Y} (c : Z → R → Y * R) (f : Y → X) (k : result Y → prog R A)
    (o : qop X) (ret : result X → A) :
  (∀ now s, spec now o (abstract s) (f (c now s).1) (abstract (c now s).2)) →
  (∀ r, k r = Ret (ret (map_result f r))) →
  implements (bind (redis_cmd c) k) o ret.
Proof.
  intros Hc Hk e es w. destruct (attempt_command c f o e w Hc) as (r & s' & Hr & Ha).
  exists (map_result f r), s'. split; [|done]. unfold redis_cmd. by rewrite exec_request, Hr, Hk.
Qed.

(** *** The commands on the abstract state *)

Lemma worker_key_not_queue i q : worker_key i ≠ queue_key q.
Proof. by intros E. Qed.
Lemma worker_key_not_delayed i q : worker_key i ≠ delayed_key q.
Proof. by intros E. Qed.

Lemma abstract_LPUSH q m s :
  abstract (LPUSH (queue_key q) m s) ≡ set_ready q (waiting q s ++ [m]) (abstract s).
Proof.
  split_and!; intros k; simpl.
  - rewrite waiting_LPUSH. unfold insert, fn_insert. by case_decide.
  - apply zset_LPUSH.
  - apply deadline_LPUSH.
Qed.

Lemma abstract_ZADD q d m s :
  abstract (ZADD (delayed_key q) d m s)
  ≡ set_parked q (<[m := d]> (rd_zset s (delayed_key q))) (abstract s).
Proof.
  split_and!; intros k; simpl.
  - unfold waiting. by rewrite list_ZADD.
  - rewrite zset_ZADD. unfold insert, fn_insert. case_decide as E.
    + apply string_app_inj_l in E as ->. by rewrite decide_True.
    + by rewrite decide_False by congruence.
  - apply deadline_ZADD.
Qed.

Lemma abstract_LREM q m s :
  abstract (LREM (queue_key q) m s)
  ≡ set_ready q (filter (λ x, x ≠ m) (waiting q s)) (abstract s).
Proof.
  split_and!; intros k; simpl.
  - unfold waiting. rewrite list_LREM. unfold insert, fn_insert. case_decide as E.
    + apply string_app_inj_l in E as ->. rewrite decide_True by done. symmetry. apply filter_reverse.
    + by rewrite decide_False by congruence.
  - apply zset_LREM.
  - apply deadline_LREM.
Qed.

Lemma abstract_ZREM q m s :
  abstract (ZREM (delayed_key q) m s)
  ≡ set_parked q (delete m (rd_zset s (delayed_key q))) (abstract s).
Proof.
  split_and!; intros k; simpl.
  - unfold waiting. by rewrite list_ZREM.
  - rewrite zset_ZREM. unfold insert, fn_insert. case_decide as E.
    + apply string_app_inj_l in E as ->. by rewrite decide_True.
    + by rewrite decide_False by congruence.
  - apply deadline_ZREM.
Qed.

Lemma abstract_SETEX i d s :
  abstract (SETEX (worker_key i) d s) ≡ set_beat i (Some d) (abstract s).
Proof.
  split_and!; intros k; simpl.
  - unfold waiting. by rewrite list_SETEX.
  - apply zset_SETEX.
  - rewrite deadline_SETEX. unfold insert, fn_insert. case_decide as E.
    + apply string_app_inj_l in E as ->. by rewrite decide_True.
    + by rewrite decide_False by congruence.
Qed.

Lemma abstract_DEL i s : abstract (DEL (worker_key i) s) ≡ set_beat i None (abstract s).
Proof.
  split_and!; intros k; simpl.
  - unfold waiting. by rewrite list_DEL, decide_False by apply worker_key_not_queue.
  - by rewrite zset_DEL, decide_False by apply worker_key_not_delayed.
  - rewrite deadline_DEL. unfold insert, fn_insert. case_decide as E.
    + apply string_app_inj_l in E as ->. by rewrite decide_True.
    + by rewrite decide_False by congruence.
Qed.

(** The key a pop takes from is that of the first queue with something ready. *)
Lemma first_nonempty_ready qs s :
  match first_nonempty (rd_list s) (queue_key <$> qs) with
  | None => ∀ q, q ∈ qs → waiting q s = []
  | Some (k, l, m) => ∃ q qs1 qs2, k = queue_key q ∧ qs = qs1 ++ q :: qs2
      ∧ (∀ q', q' ∈ qs1 → waiting q' s = []) ∧ waiting q s = m :: reverse l
  end.
Proof.
  induction qs as [|q qs IH]; simpl; [intros q' []%elem_of_nil|].
  destruct (reverse (rd_list s (queue_key q))) as [|m l] eqn:E.
  - destruct (first_nonempty _ _) as [[[k l] m]|].
    + destruct IH as (q' & qs1 & qs2 & -> & -> & Hq & Hl). exists q', (q :: qs1), qs2.
      split_and!; [done|done| |done]. intros q2 [->|?]%elem_of_cons; [done|auto].
    + intros q' [->|?]%elem_of_cons; [done|auto].
  - exists q, [], qs. split_and!; [done|done|intros ? []%elem_of_nil|].
    unfold waiting. by rewrite E, reverse_involutive.
Qed.

Definition popped (r : option (string * string)) : option (string * string) :=
  match r with Some (key, value) => Some (value, TrimPrefix key keyPrefix) | None => None end.

Lemma spec_BRPOP now qs s :
  spec now (Pop qs) (abstract s) (popped (BRPOP (queue_key <$> qs) s).1)
    (abstract (BRPOP (queue_key <$> qs) s).2).
Proof.
  pose proof (first_nonempty_ready qs s) as Hq. pose proof (BRPOP_spec (queue_key <$> qs) s) as Hs.
  destruct (first_nonempty _ _) as [[[k l] m]|]; [|by rewrite Hs].
  destruct Hq as (q & qs1 & qs2 & -> & -> & Hqs & Hl), Hs as (s' & -> & Hl' & Hz & Hd).
  unfold popped, queue_key. cbn [fst snd]. rewrite TrimPrefix_app.
  exists qs1, qs2, (reverse l). split_and!; [done..|]. split_and!; intros k; simpl.
  - unfold waiting. rewrite Hl'. unfold insert, fn_insert. case_decide as E.
    + apply string_app_inj_l in E as ->. by rewrite decide_True.
    + by rewrite decide_False by (intros ->; done).
  - apply Hz.
  - apply Hd.
Qed.

Lemma spec_promote now q t lim s :
  0 ≤ lim →
  let r := promoteScript (delayed_key q) (queue_key q) (Unix t) lim s in
  spec now (Promote q (float64_of_int (Unix t)) lim) (abstract s) r.1 (abstract r.2).
Proof.
  intros Hlim r.
  destruct (ZRANGEBYSCORE_spec (delayed_key q) (float64_of_int (Unix t)) lim s)
    as (l & Hperm & Hsort & Hrange).
  unfold limit_take in Hrange. destruct (Z.ltb_spec lim 0); [lia|].
  exists (take (Z.to_nat lim) l), (drop (Z.to_nat lim) l).
  rewrite take_drop, length_take. subst r. unfold promoteScript. rewrite Hrange. cbn [fst snd].
  destruct (move_all (delayed_key q) (queue_key q) (take (Z.to_nat lim) l).*1 s) as (Hl & Hz & Hd).
  split_and!; [exact Hperm|exact Hsort|reflexivity|by rewrite length_fmap, length_take|].
  split_and!; intros k; simpl.
  - unfold waiting. rewrite Hl. unfold insert, fn_insert. case_decide as E.
    + apply string_app_inj_l in E as ->. rewrite decide_True by done.
      by rewrite reverse_app, reverse_involutive.
    + by rewrite decide_False by (intros ->; done).
  - apply map_eq. intros m. rewrite Hz. unfold insert, fn_insert.
    set (ms := (take (Z.to_nat lim) l).*1). clearbody ms.
    destruct (decide (q = k)) as [->|Hk].
    + rewrite map_lookup_filter. destruct (decide (m ∈ ms)) as [Hm|Hm].
      * rewrite decide_True by done. destruct (rd_zset _ _ !! m); [|done]. simpl.
        by rewrite option_guard_False by (simpl; tauto).
      * rewrite decide_False by tauto. destruct (rd_zset _ _ !! m); [|done]. simpl.
        by rewrite option_guard_True.
    + rewrite decide_False; [done|]. intros [E _]. by apply string_app_inj_l in E.
  - apply Hd.
Qed.
(** *** The operations *)

Lemma Dequeue_implements qs :
  implements (Dequeue qs) (Pop qs)
    (λ r, match r with
          | inl e => inl e
          | inr None => inl (ESentinel RedisNil)
          | inr (Some x) => inr x
          end).
Proof.
  apply (implements_command _ popped); [intros now s; apply spec_BRPOP|].
  by intros [|[[k m]|]].
Qed.

Lemma PromoteDue_implements q now lim :
  0 ≤ lim →
  implements (PromoteDue q now lim) (Promote q (float64_of_int (Unix now)) lim)
    (λ r, match r with
          | inl e => inl (EWrap ("promote due " +:+ strconv_Quote q) e)
          | inr n => inr n
          end).
Proof.
  intros Hlim. apply (implements_command _ id); [intros t s; by apply spec_promote|].
  by intros [|].
Qed.

(** [Remove] is two commands: the second is issued when the first succeeded. *)
Definition implements_Remove (q m : string) : Prop := ∀ e1 e2 es w, ∃ r1 s1,
  attempt e1 (Withdraw q m) (abstract (w_redis w)) r1 (abstract s1)
  ∧ match r1 with
    | inl err =>
        exec (e1 :: es) (Remove q m) w
        = (Some (Some (EWrap ("lrem " +:+ strconv_Quote q) err), es), with_redis s1 w)
    | inr _ => ∃ r2 s2,
        attempt e2 (Unpark q m) (abstract s1) r2 (abstract s2)
        ∧ exec (e1 :: e2 :: es) (Remove q m) w
          = (Some (wrap_err ("zrem " +:+ strconv_Quote q) r2, es), with_redis s2 w)
    end.

Lemma Remove_implements q m : implements_Remove q m.
Proof.
  intros e1 e2 es w. unfold Remove, redis_cmd. fold (queue_key q) (delayed_key q).
  destruct (attempt_command (λ _ s, (tt, LREM (queue_key q) m s)) id (Withdraw q m) e1 w)
    as (r1 & s1 & Hr1 & Ha1); [intros now s; apply abstract_LREM|].
  exists (map_result id r1), s1. split; [exact Ha1|].
  destruct r1 as [err|[]]; cbn [map_result]; [by rewrite exec_request, Hr1|].
  destruct (attempt_command (λ _ s, (tt, ZREM (delayed_key q) m s)) id (Unpark q m) e2
              (with_redis s1 w)) as (r2 & s2 & Hr2 & Ha2); [intros now s; apply abstract_ZREM|].
  exists (map_result id r2), s2. split; [exact Ha2|].
  rewrite exec_request, Hr1. cbn [fst snd]. rewrite exec_request, Hr2. by destruct r2 as [|[]].
Qed.

(** C15. The queue refines its specification: each operation, whatever fails, is one attempt
    at one step of the abstract queue (a push at the end, a pop of the oldest id of the first
    queue that has one, parking with a due time, promotion of the due ids in order of their
    times up to the limit, withdrawal, a worker's beat and leave, the two lengths), reports its
    answer or the wrapped error, and touches nothing but Redis; a removal is two such steps. And
    a step never loses or duplicates an id: a pop takes out what it answers, promotion and the
    rest keep what each queue holds, and only a removal drops its own id. *)
Theorem Queue_refines_its_specification :
  (∀ q m, implements (Queue.Enqueue q m) (Push q m) (wrap_err ("lpush " +:+ strconv_Quote q)))
  ∧ (∀ qs, implements (Dequeue qs) (Pop qs)
       (λ r, match r with
             | inl e => inl e
             | inr None => inl (ESentinel RedisNil)
             | inr (Some x) => inr x
             end))
  ∧ (∀ q m runAt, implements (EnqueueDelayed q m runAt) (Park q m (float64_of_int (Unix runAt)))
       (wrap_err ("zadd " +:+ strconv_Quote q)))
  ∧ (∀ q now lim, 0 ≤ lim →
       implements (PromoteDue q now lim) (Promote q (float64_of_int (Unix now)) lim)
         (λ r, match r with
               | inl e => inl (EWrap ("promote due " +:+ strconv_Quote q) e)
               | inr n => inr n
               end))
  ∧ (∀ i, implements (Heartbeat i) (Beat i) (wrap_err "worker heartbeat"))
  ∧ (∀ i, implements (RemoveWorker i) (Leave i) (wrap_err "remove worker"))
  ∧ (∀ q, implements (Len q) (CountReady q) id ∧ implements (DelayedLen q) (CountParked q) id)
  ∧ (∀ q m, implements_Remove q m)
  ∧ ∀ t X (o : qop X) a x a', spec t o a x a' → conserves o a x a'.
Proof.
  split_and!.
  - intros q m. apply (implements_command _ id); [intros now s; apply abstract_LPUSH|by intros [|[]]].
  - apply Dequeue_implements.
  - intros q m t. apply (implements_command _ id); [intros now s; apply abstract_ZADD|by intros [|[]]].
  - apply PromoteDue_implements.
  - intros i. apply (implements_command _ id); [intros now s; apply abstract_SETEX|by intros [|[]]].
  - intros i. apply (implements_command _ id); [intros now s; apply abstract_DEL|by intros [|[]]].
  - intros q. split.
    + apply (implements_command _ id Ret); [intros now s|by intros [|]]. split; [|done].
      unfold id. simpl. rewrite LLEN_spec. unfold waiting. by rewrite length_reverse.
    + apply (implements_command _ id Ret); [intros now s|by intros [|]]. split; [|done].
      apply ZCARD_spec.
  - apply Remove_implements.
  - intros t X o a x a'. apply spec_conserves.
Qed.
End Refinement.

(** Promotion on the sample queue: one run, and nothing is lost. *)
Lemma Queue_refines_its_specification_witness :
  ∃ r s', exec [ok_at 1 0%N] (PromoteDue "default" (4 * Second) 100) (mkWorld demo_db sample_queue [])
          = (Some (r, []), mkWorld demo_db s' [])
    ∧ held (abstract s') "default" ≡ₚ held (abstract sample_queue) "default".
Proof.
  destruct (Queue_refines_its_specification (R := RefRedis.store))
    as (_ & _ & _ & Hp & _ & _ & _ & _ & Hc).
  destruct (Hp "default"%string (4 * Second) 100 ltac:(lia) (ok_at 1 0%N) []
              (mkWorld demo_db sample_queue [])) as (r & s' & Hx & Ha).
  eexists _, s'. split; [exact Hx|]. destruct Ha as (n & _ & Hs).
  exact (Hc _ _ _ _ _ _ Hs "default"%string).
Defined.
