(* ===== verification/StoreFacts.v ===== *)
(** * What each statement on [jobs] does

    Under the table invariant a statement with [WHERE id = $1] touches at most the row stored
    under that id: each statement is computed to that form here, and shown to keep the
    invariant and to follow the job lifecycle. *)
From S2P Require Import Prelude GoStd Models Interfaces Db Effects Store Lifecycle.
Open Scope Z_scope.

(** The tables with the row of [id] replaced. *)
Definition put_job (id : uuid) (j : Job) (d : DB) : DB :=
  {| d with tbl_jobs := <[id := j]> (tbl_jobs d) |}.

(** The rows the statements write. *)
Definition claimed_row (now : Z) (j : Job) : Job :=
  set_updated_at now {| j with Job.Status := StatusProcessing; Job.StartedAt := Some now |}.
Definition completed_row (now : Z) (res : RawMessage) (j : Job) : Job :=
  set_updated_at now {| j with Job.Status := StatusCompleted; Job.Result := res;
                        Job.ErrorMessage := None; Job.CompletedAt := Some now |}.
Definition retried_row (now n : Z) (msg : string) (j : Job) : Job :=
  set_updated_at now {| j with Job.Status := StatusPending; Job.RetryCount := n;
                        Job.ErrorMessage := Some msg |}.
Definition failed_row (now n : Z) (msg : string) (j : Job) : Job :=
  set_updated_at now {| j with Job.Status := StatusFailed; Job.RetryCount := n;
                        Job.ErrorMessage := Some msg; Job.CompletedAt := Some now |}.
Definition reset_row (now : Z) (j : Job) : Job :=
  set_updated_at now {| j with Job.Status := StatusPending; Job.RetryCount := 0;
                        Job.ErrorMessage := None; Job.Result := RawNil;
                        Job.StartedAt := None; Job.CompletedAt := None |}.
Definition cancelled_row (now : Z) (j : Job) : Job :=
  set_updated_at now {| j with Job.Status := StatusCancelled; Job.CompletedAt := Some now |}.

(** The dead-letter row an exhausted job gets. *)
Definition dlq_row (now n : Z) (msg : string) (j : Job) (old : option DLQRow) : DLQRow :=
  match old with
  | Some q => {| q with DLQRow.Reason := msg; DLQRow.Attempts := n |}
  | None => {| DLQRow.JobID := Job.ID j; DLQRow.TenantID := Job.TenantID j;
               DLQRow.Reason := msg; DLQRow.Attempts := n; DLQRow.CreatedAt := now |}
  end.

Lemma same_tables d : {| d with tbl_jobs := tbl_jobs d |} = d.
Proof. by destruct d. Qed.

Section Rows.
Context {A : Type}.
Implicit Types (t : gmap uuid A) (p : A → bool).

Lemma update_where_none p f t :
  (∀ k a, t !! k = Some a → p a = false) → update_where p f t = t.
Proof.
  intros Hp. apply map_eq. intros k. rewrite lookup_update_where.
  destruct (t !! k) as [a|] eqn:Hk; [|done]. simpl. by rewrite (Hp _ _ Hk).
Qed.

Lemma update_where_key (key : A → uuid) p f t k a :
  keyed key t → (∀ a, p a = true → key a = k) → t !! k = Some a → p a = true →
  update_where p f t = <[k := f a]> t.
Proof.
  intros Hkey Hp Hk Ha. apply map_eq. intros k'. rewrite lookup_update_where, lookup_insert.
  case_decide as E; [subst; rewrite Hk; simpl; by rewrite Ha|].
  destruct (t !! k') as [b|] eqn:Hb; [|done]. simpl.
  destruct (p b) eqn:Hpb; [|done].
  destruct E. by rewrite <- (Hp _ Hpb), (Hkey _ _ Hb).
Qed.
End Rows.

Section Statements.
Context `{Postgres}.
Implicit Types d : DB.

Lemma id_is_true id r : id_is id r = true ↔ Job.ID r = id.
Proof. apply bool_decide_eq_true. Qed.

Lemma id_is_of d id j : keyed Job.ID (tbl_jobs d) → tbl_jobs d !! id = Some j → id_is id j = true.
Proof. intros Hk Hj. apply id_is_true. by eapply Hk. Qed.

(** An UPDATE whose condition fixes the id, computed. *)
Lemma update_jobs_point cond set now d id :
  keyed Job.ID (tbl_jobs d) → (∀ r, cond r = true → Job.ID r = id) →
  update_jobs cond set now d
  = match tbl_jobs d !! id with
    | Some j =>
        if cond j then ([set_updated_at now (set j)], put_job id (set_updated_at now (set j)) d)
        else ([], d)
    | None => ([], d)
    end.
Proof.
  intros Hk Hc. unfold update_jobs, update_returning, put_job.
  rewrite (select_where_key Job.ID _ _ id Hk Hc).
  assert (∀ id' j, tbl_jobs d !! id' = Some j → cond j = true → id' = id) as Hid.
  { intros id' j Hj Hcj. by rewrite <- (Hk _ _ Hj), (Hc _ Hcj). }
  destruct (tbl_jobs d !! id) as [j|] eqn:Hj; [destruct (cond j) eqn:Hcj|].
  - by rewrite (update_where_key Job.ID _ _ _ id j Hk Hc Hj Hcj).
  - rewrite update_where_none, same_tables; [done|].
    intros k a Ha. destruct (cond a) eqn:E; [|done].
    pose proof (Hid _ _ Ha E). congruence.
  - rewrite update_where_none, same_tables; [done|].
    intros k a Ha. destruct (cond a) eqn:E; [|done].
    pose proof (Hid _ _ Ha E). congruence.
Qed.

Ltac fixes_id :=
  intros r; unfold id_is; rewrite ?andb_true_iff, ?bool_decide_eq_true; tauto.

(** Rewrites an UPDATE by id under [keyed]. *)
Ltac point Hk id :=
  rewrite (update_jobs_point _ _ _ _ id Hk); [|fixes_id].

Lemma claim_job_stmt_spec id now u d :
  keyed Job.ID (tbl_jobs d) →
  claim_job_stmt id now u d
  = match tbl_jobs d !! id with
    | Some j =>
        if decide (Job.Status j = StatusPending)
        then (inr (claimed_row now j), put_job id (claimed_row now j) d)
        else (inl (ESentinel PgxErrNoRows), d)
    | None => (inl (ESentinel PgxErrNoRows), d)
    end.
Proof.
  intros Hk. unfold claim_job_stmt. point Hk id.
  destruct (tbl_jobs d !! id) as [j|] eqn:Hj; [|done].
  rewrite (id_is_of d id j Hk Hj). simpl. unfold status_is.
  case_decide; [by rewrite bool_decide_true|by rewrite bool_decide_false].
Qed.

Lemma mark_completed_stmt_spec id res now u d :
  keyed Job.ID (tbl_jobs d) →
  mark_completed_stmt id res now u d
  = match jsonb_param res with
    | inl e => (inl e, d)
    | inr res' =>
        (inr tt, match tbl_jobs d !! id with
                 | Some j => put_job id (completed_row now res' j) d
                 | None => d
                 end)
    end.
Proof.
  intros Hk. unfold mark_completed_stmt. destruct (jsonb_param res) as [e|res']; [done|].
  point Hk id.
  destruct (tbl_jobs d !! id) as [j|] eqn:Hj; [|done].
  by rewrite (id_is_of d id j Hk Hj).
Qed.

Lemma mark_for_retry_stmt_spec id n msg now u d :
  keyed Job.ID (tbl_jobs d) →
  mark_for_retry_stmt id n msg now u d
  = if in_int32 n then
      (inr tt, match tbl_jobs d !! id with
               | Some j => put_job id (retried_row now n msg j) d
               | None => d
               end)
    else (inl pgx_int4_range, d).
Proof.
  intros Hk. unfold mark_for_retry_stmt. destruct (in_int32 n); cbn [negb]; [|done].
  point Hk id.
  destruct (tbl_jobs d !! id) as [j|] eqn:Hj; [|done].
  by rewrite (id_is_of d id j Hk Hj).
Qed.

Lemma fail_job_stmt_spec id n msg now u d :
  keyed Job.ID (tbl_jobs d) →
  fail_job_stmt id n msg now u d
  = if in_int32 n then
      (inr tt, match tbl_jobs d !! id with
               | Some j => put_job id (failed_row now n msg j) d
               | None => d
               end)
    else (inl pgx_int4_range, d).
Proof.
  intros Hk. unfold fail_job_stmt. destruct (in_int32 n); cbn [negb]; [|done].
  point Hk id.
  destruct (tbl_jobs d !! id) as [j|] eqn:Hj; [|done].
  by rewrite (id_is_of d id j Hk Hj).
Qed.

Lemma insert_dlq_stmt_spec id msg n now u d :
  keyed Job.ID (tbl_jobs d) →
  insert_dlq_stmt id msg n now u d
  = if in_int32 n then
      (inr tt, match tbl_jobs d !! id with
               | Some j => {| d with tbl_dead_letter_queue :=
                              <[id := dlq_row now n msg j (tbl_dead_letter_queue d !! id)]>
                                (tbl_dead_letter_queue d) |}
               | None => d
               end)
    else (inl pgx_int4_range, d).
Proof.
  intros Hk. unfold insert_dlq_stmt. destruct (in_int32 n); [simpl|done].
  rewrite (select_where_key Job.ID _ _ id Hk) by fixes_id.
  destruct (tbl_jobs d !! id) as [j|] eqn:Hj.
  2: { simpl. by destruct d. }
  rewrite (id_is_of d id j Hk Hj). simpl. unfold upsert_dlq.
  rewrite (Hk id j Hj). unfold dlq_row. by rewrite (Hk id j Hj).
Qed.

Lemma reset_job_stmt_spec id now u d :
  keyed Job.ID (tbl_jobs d) →
  reset_job_stmt id now u d
  = match tbl_jobs d !! id with
    | Some j => (inr (reset_row now j), put_job id (reset_row now j) d)
    | None => (inl (ESentinel PgxErrNoRows), d)
    end.
Proof.
  intros Hk. unfold reset_job_stmt. point Hk id.
  destruct (tbl_jobs d !! id) as [j|] eqn:Hj; [|done].
  by rewrite (id_is_of d id j Hk Hj).
Qed.

Lemma cancel_job_stmt_spec tid id now u d :
  keyed Job.ID (tbl_jobs d) →
  cancel_job_stmt tid id now u d
  = match tbl_jobs d !! id with
    | Some j =>
        if decide (Job.TenantID j = tid ∧ Job.Status j = StatusPending)
        then (inr (cancelled_row now j), put_job id (cancelled_row now j) d)
        else (inl (ESentinel PgxErrNoRows), d)
    | None => (inl (ESentinel PgxErrNoRows), d)
    end.
Proof.
  intros Hk. unfold cancel_job_stmt. point Hk id.
  destruct (tbl_jobs d !! id) as [j|] eqn:Hj; [|done].
  rewrite (id_is_of d id j Hk Hj). simpl. unfold tenant_is, status_is.
  case_decide as E; rewrite ?bool_decide_and.
  - destruct E. by rewrite !bool_decide_true.
  - destruct (bool_decide (Job.TenantID j = tid)) eqn:E1; [|done].
    destruct (bool_decide (Job.Status j = StatusPending)) eqn:E2; [|done].
    apply bool_decide_eq_true in E1, E2. tauto.
Qed.

(** The row a tenant may see under [id]. *)
Definition visible (tid id : uuid) (d : DB) : option Job :=
  match tbl_jobs d !! id with
  | Some j => if decide (Job.TenantID j = tid) then Some j else None
  | None => None
  end.

Lemma select_visible tid id d :
  keyed Job.ID (tbl_jobs d) →
  select_where (λ r, id_is id r && tenant_is tid r) (tbl_jobs d)
  = match visible tid id d with Some j => [j] | None => [] end.
Proof.
  intros Hk. rewrite (select_where_key Job.ID _ _ id Hk) by fixes_id. unfold visible.
  destruct (tbl_jobs d !! id) as [j|] eqn:Hj; [|done].
  rewrite (id_is_of d id j Hk Hj). unfold tenant_is. simpl.
  case_decide; [by rewrite bool_decide_true|by rewrite bool_decide_false].
Qed.

Lemma get_job_stmt_spec tid id now u d :
  keyed Job.ID (tbl_jobs d) →
  get_job_stmt tid id now u d
  = (match visible tid id d with Some j => inr j | None => inl (ESentinel PgxErrNoRows) end, d).
Proof.
  intros Hk. unfold get_job_stmt. rewrite select_visible by done. by destruct (visible tid id d).
Qed.

Lemma delete_dlq_stmt_spec id now u d :
  keyed DLQRow.JobID (tbl_dead_letter_queue d) →
  delete_dlq_stmt id now u d
  = (inr tt, {| d with tbl_dead_letter_queue := delete id (tbl_dead_letter_queue d) |}).
Proof.
  intros Hk. unfold delete_dlq_stmt. do 2 f_equal. apply map_eq. intros k.
  apply option_eq. intros q. rewrite lookup_delete_where, lookup_delete_Some, bool_decide_eq_false.
  split; intros [H1 H2]; split; try done.
  - intros <-. apply H2. by eapply Hk.
  - intros E. apply H1. by rewrite <- (Hk _ _ H2), E.
Qed.
End Statements.

(** ** The invariant and the lifecycle, row by row *)

Section Transitions.
Context `{Postgres}.
Context (d : DB) (Hinv : db_inv d).

Lemma put_job_as_update id j j' :
  tbl_jobs d !! id = Some j →
  put_job id j' d = {| d with tbl_jobs := update_where (id_is id) (λ _, j') (tbl_jobs d) |}.
Proof using Hinv.
  intros Hj. unfold put_job. pose proof (inv_jobs_keyed d Hinv) as Hk.
  rewrite (update_where_key Job.ID _ _ _ id j Hk); [done| |done|by eapply id_is_of].
  intros a. apply id_is_true.
Qed.

Section Change.
Context (id : uuid) (j j' : Job).
Hypothesis Hj : tbl_jobs d !! id = Some j.
Hypothesis Hedge : edge j j'.
Hypothesis Hsame : same_identity j j'.

Lemma put_job_inv :
  Job.Status j ≠ StatusFailed → Job.Status j' ≠ StatusFailed → db_inv (put_job id j' d).
Proof using All.
  intros ? ?. rewrite (put_job_as_update id j j' Hj).
  eapply update_preserves_inv; [reflexivity| |done].
  intros k a Ha Hc%id_is_true. pose proof (inv_jobs_keyed d Hinv k a Ha).
  by simplify_eq.
Qed.

Lemma put_job_guar t (o : owner) :
  (Job.Status j = StatusProcessing → o id = Some t) → guar t o d (put_job id j' d).
Proof using Hj Hedge Hsame.
  intros Ho k. unfold put_job. simpl. rewrite lookup_insert. case_decide as E; [subst|].
  - rewrite Hj. split_and!; [done..|]. intros Hp []. auto.
  - destruct (tbl_jobs d !! k); [|done].
    split_and!; [by apply edge_same|apply same_identity_refl|done].
Qed.
End Change.

(** A new row. *)
Lemma insert_job_inv id j :
  tbl_jobs d !! id = None → Job.ID j = id → fresh_row j →
  is_Some (tbl_tenants d !! Job.TenantID j) → db_inv (put_job id j d).
Proof using Hinv.
  intros Hnone Hid Hfresh Hten. unfold put_job. destruct Hinv as [Ikeyed Idlqk Istatus Ibudget Itenant Ifailed Idlq Iacc].
  constructor; simpl; try done.
  - by apply keyed_insert.
  - intros k a [[<- <-]|[_ ?]]%lookup_insert_Some; [by destruct Hfresh as [-> _]|eauto].
  - intros k a [[<- <-]|[_ ?]]%lookup_insert_Some; [by apply fresh_budget|eauto].
  - intros k a [[<- <-]|[_ ?]]%lookup_insert_Some; eauto.
  - intros k a [[<- <-]|[_ ?]]%lookup_insert_Some; [|eauto].
    destruct Hfresh as [-> _]. done.
  - intros k q (a & Ha & Hf)%Idlq. exists a.
    rewrite lookup_insert_ne by congruence. done.
Qed.

Lemma insert_job_guar t (o : owner) id j :
  tbl_jobs d !! id = None → fresh_row j → guar t o d (put_job id j d).
Proof.
  intros Hnone Hfresh k. unfold put_job. simpl. rewrite lookup_insert.
  case_decide; [subst; by rewrite Hnone|].
  destruct (tbl_jobs d !! k); [|done].
  split_and!; [by apply edge_same|apply same_identity_refl|done].
Qed.

(** Dead-lettering: the failed row and its dead-letter row appear together. *)
Definition dead_lettered (now n : Z) (msg : string) (j : Job) : DB :=
  {| (put_job (Job.ID j) (failed_row now n msg j) d) with
     tbl_dead_letter_queue :=
       <[Job.ID j := dlq_row now n msg j (tbl_dead_letter_queue d !! Job.ID j)]>
         (tbl_dead_letter_queue d) |}.

Lemma dead_lettered_inv now n msg j :
  tbl_jobs d !! Job.ID j = Some j → Job.Status j = StatusProcessing →
  n = Job.RetryCount j + 1 → Job.MaxRetries j ≤ n → db_inv (dead_lettered now n msg j).
Proof using Hinv.
  intros Hj Hs Hn Hm.
  assert (edge j (failed_row now n msg j)) as He by (by apply edge_fail).
  assert (tbl_dead_letter_queue d !! Job.ID j = None) as Hq.
  { destruct (tbl_dead_letter_queue d !! Job.ID j) as [q|] eqn:E; [|done].
    destruct (inv_dlq d Hinv _ _ E) as (j0 & Hj0 & Hf).
    rewrite Hj in Hj0. simplify_eq. status_neq. }
  unfold dead_lettered, put_job. rewrite Hq. destruct Hinv as [Ikeyed Idlqk Istatus Ibudget Itenant Ifailed Idlq Iacc].
  constructor; simpl.
  - by apply keyed_insert.
  - by apply keyed_insert.
  - intros k a [[<- <-]|[_ ?]]%lookup_insert_Some; [done|eauto].
  - intros k a [[<- <-]|[_ ?]]%lookup_insert_Some; [|eauto].
    eapply edge_budget; [done|done|eauto].
  - intros k a [[<- <-]|[_ ?]]%lookup_insert_Some; simpl; eauto.
  - intros k a [[<- <-]|[Hne ?]]%lookup_insert_Some Hf.
    + rewrite lookup_insert_eq. by eexists.
    + rewrite lookup_insert_ne by done. eauto.
  - intros k q [[<- <-]|[Hne Hq']]%lookup_insert_Some.
    + rewrite lookup_insert_eq. by eexists.
    + rewrite lookup_insert_ne by done. eauto.
  - done.
Qed.

Lemma dead_lettered_guar t (o : owner) now n msg j :
  tbl_jobs d !! Job.ID j = Some j → Job.Status j = StatusProcessing →
  n = Job.RetryCount j + 1 → Job.MaxRetries j ≤ n → o (Job.ID j) = Some t →
  guar t o d (dead_lettered now n msg j).
Proof.
  intros Hj Hs Hn Hm Ho.
  apply (put_job_guar (Job.ID j) j); [done|by apply edge_fail|by split_and!|done].
Qed.

(** Retrying by hand: the dead-letter row goes as the job becomes pending. *)
Definition revived (now : Z) (j : Job) : DB :=
  {| (put_job (Job.ID j) (reset_row now j) d) with
     tbl_dead_letter_queue := delete (Job.ID j) (tbl_dead_letter_queue d) |}.

Lemma revived_inv now j :
  tbl_jobs d !! Job.ID j = Some j → Job.Status j = StatusFailed → db_inv (revived now j).
Proof using Hinv.
  intros Hj Hs. assert (edge j (reset_row now j)) as He by (by apply edge_reset).
  unfold revived, put_job. destruct Hinv as [Ikeyed Idlqk Istatus Ibudget Itenant Ifailed Idlq Iacc].
  constructor; simpl.
  - by apply keyed_insert.
  - intros k q [_ ?]%lookup_delete_Some. eauto.
  - intros k a [[<- <-]|[_ ?]]%lookup_insert_Some; [done|eauto].
  - intros k a [[<- <-]|[_ ?]]%lookup_insert_Some; [|eauto].
    eapply edge_budget; [done|done|eauto].
  - intros k a [[<- <-]|[_ ?]]%lookup_insert_Some; simpl; eauto.
  - intros k a [[<- <-]|[Hne ?]]%lookup_insert_Some Hf; [done|].
    rewrite lookup_delete_ne by done. eauto.
  - intros k q [Hne Hq]%lookup_delete_Some. rewrite lookup_insert_ne by done. eauto.
  - done.
Qed.

Lemma revived_guar t (o : owner) now j :
  tbl_jobs d !! Job.ID j = Some j → Job.Status j = StatusFailed → guar t o d (revived now j).
Proof.
  intros Hj Hs.
  apply (put_job_guar (Job.ID j) j); [done|by apply edge_reset|by split_and!|].
  intros E. status_neq.
Qed.
End Transitions.

(** ** The two transactions, computed

    Whatever fails inside, the tables are the old ones or those of the whole transaction; and
    an error is reported unless the transaction committed. *)
Lemma head_tail_fault (fs : list fault) (P : fault → Prop) :
  P FOk → (∀ e, P (FLost e)) → (∀ e, P (FUnknown e)) → P (default FOk (head fs)).
Proof. intros. destruct fs as [|[| |] ?]; simpl; auto. Qed.

Section Transactions.
Context `{Postgres}.

(** The outcomes a transaction with final answer [x] and final tables [d'] can have. *)
Definition all_or_nothing {X} (d d' : DB) (x : X) (res : result X * DB) : Prop :=
  (∃ e, res = (inl e, d)) ∨ (∃ e, res = (inl e, d')) ∨ res = (inr x, d').

Lemma dead_letter_tx_atomic d j n msg fs now us :
  keyed Job.ID (tbl_jobs d) → tbl_jobs d !! Job.ID j = Some j → in_int32 n = true →
  all_or_nothing d (dead_lettered d now n msg j) tt
    (run_tx (dead_letter_tx (Job.ID j) n msg) fs now us d).
Proof.
  intros Hk Hj Hn. unfold run_tx, all_or_nothing.
  destruct (default FOk (head fs)); [|by eauto..].
  generalize (tail fs) as fs1. intros fs1. simpl.
  destruct (default FOk (head fs1)); [|by eauto..].
  rewrite fail_job_stmt_spec, Hn, Hj by done. cbn [run_stmts].
  generalize (tail fs1) as fs2. intros fs2.
  destruct (default FOk (head fs2)); [|by eauto..].
  rewrite insert_dlq_stmt_spec, Hn.
  2: { by apply keyed_insert. }
  unfold put_job at 1. simpl. rewrite lookup_insert_eq. cbn [run_stmts].
  generalize (tail fs2) as fs3. intros fs3.
  destruct (default FOk (head fs3)); [| |]; eauto.
Qed.

Lemma retry_job_tx_atomic d tid id fs now us :
  keyed Job.ID (tbl_jobs d) → keyed DLQRow.JobID (tbl_dead_letter_queue d) →
  let res := run_tx (retry_job_tx tid id) fs now us d in
  match visible tid id d with
  | Some j =>
      if decide (Job.Status j = StatusFailed)
      then all_or_nothing d (revived d now j) (reset_row now j) res
      else ∃ e, res = (inl e, d)
  | None => ∃ e, res = (inl e, d)
  end.
Proof.
  intros Hk Hq res. subst res. unfold run_tx, all_or_nothing.
  destruct (default FOk (head fs)).
  2,3: destruct (visible tid id d); [case_decide|]; eauto.
  generalize (tail fs) as fs1. intros fs1. simpl.
  destruct (default FOk (head fs1)).
  2,3: destruct (visible tid id d); [case_decide|]; destruct (errors_Is _ _); simpl; eauto.
  unfold select_status_stmt. rewrite select_visible by done. unfold visible.
  destruct (tbl_jobs d !! id) as [j|] eqn:Hj; [|simpl; eauto].
  destruct (decide (Job.TenantID j = tid)); [|simpl; eauto]. simpl.
  case_decide as Hs; [rewrite bool_decide_true by done|rewrite bool_decide_false by done];
    cbn [negb run_stmts]; [|eauto].
  generalize (tail fs1) as fs2. intros fs2.
  destruct (default FOk (head fs2)); [|by eauto..].
  rewrite reset_job_stmt_spec, Hj by done. cbn [run_stmts].
  generalize (tail fs2) as fs3. intros fs3.
  destruct (default FOk (head fs3)); [|by eauto..].
  rewrite delete_dlq_stmt_spec by done. cbn [run_stmts].
  generalize (tail fs3) as fs4. intros fs4. pose proof (Hk _ _ Hj) as <-.
  destruct (default FOk (head fs4)); [| |]; eauto.
Qed.

(** Without faults they commit. *)
Lemma dead_letter_tx_ok d id j n msg now us :
  keyed Job.ID (tbl_jobs d) → tbl_jobs d !! id = Some j → in_int32 n = true →
  run_tx (dead_letter_tx id n msg) [] now us d = (inr tt, dead_lettered d now n msg j).
Proof.
  intros Hk Hj Hn. pose proof (Hk _ _ Hj) as <-. unfold run_tx. simpl.
  rewrite fail_job_stmt_spec, Hn, Hj by done. cbn [run_stmts head tail default].
  rewrite insert_dlq_stmt_spec, Hn by by apply keyed_insert.
  unfold put_job at 1. simpl. by rewrite lookup_insert_eq.
Qed.

Lemma retry_job_tx_ok d tid id now us :
  keyed Job.ID (tbl_jobs d) → keyed DLQRow.JobID (tbl_dead_letter_queue d) →
  run_tx (retry_job_tx tid id) [] now us d
  = match visible tid id d with
    | None => (inl (ESentinel ErrJobNotFound), d)
    | Some j => if decide (Job.Status j = StatusFailed)
                then (inr (reset_row now j), revived d now j)
                else (inl (ESentinel ErrJobNotRetryable), d)
    end.
Proof.
  intros Hk Hq. unfold run_tx. simpl.
  unfold select_status_stmt. rewrite select_visible by done. unfold visible.
  destruct (tbl_jobs d !! id) as [j|] eqn:Hj; [|done].
  destruct (decide (Job.TenantID j = tid)); [|done]. simpl.
  case_decide as Hs; [rewrite bool_decide_true by done|by rewrite bool_decide_false by done].
  cbn [negb run_stmts head tail default].
  rewrite reset_job_stmt_spec, Hj by done. cbn [run_stmts head tail default].
  rewrite delete_dlq_stmt_spec by done. by rewrite <- (Hk _ _ Hj).
Qed.
End Transactions.
