(* ===== verification/AccountsFacts.v ===== *)
(** * Accounts: the constraints hold, and what the lookups answer

    Every statement keeps the constraints of the account tables and leaves jobs alone; under
    them a lookup by email, token hash or key hash finds the one row there can be. *)
From S2P Require Import Prelude GoStd Models Interfaces Db Effects Lifecycle Accounts.
Open Scope Z_scope.

(** ** Rows selected by a unique column *)

Section Unique.
Context {A : Type}.

Lemma select_where_single (p : A → bool) (t : gmap uuid A) k a :
  t !! k = Some a → p a = true → (∀ k' a', t !! k' = Some a' → p a' = true → k' = k) →
  select_where p t = [a].
Proof.
  intros Hk Hp Hu.
  assert (select_where p (delete k t) = []) as Hrest.
  { apply select_where_none. intros k' a' [Hne Hk']%lookup_delete_Some.
    destruct (p a') eqn:E; [|done]. by destruct Hne; rewrite (Hu k' a'). }
  assert (select_where p t ≡ₚ [a]) as Hperm.
  { unfold select_where, rows in *. rewrite <- (insert_delete_id _ _ _ Hk) at 1.
    rewrite (map_to_list_insert _ _ _ (lookup_delete_eq t k)).
    rewrite fmap_cons, filter_cons, Hrest. simpl. by rewrite Hp. }
  by apply Permutation_singleton_r in Hperm.
Qed.

(** No row, or the one row. *)
Lemma select_where_unique (p : A → bool) (t : gmap uuid A) :
  (∀ k k' a a', t !! k = Some a → t !! k' = Some a' → p a = true → p a' = true → k = k') →
  (select_where p t = [] ∧ ∀ k a, t !! k = Some a → p a = false)
  ∨ ∃ k a, t !! k = Some a ∧ p a = true ∧ select_where p t = [a].
Proof.
  intros Hu. destruct (select_where p t) as [|a l] eqn:E.
  - left. split; [done|]. intros k a Ha. destruct (p a) eqn:Ep; [|done].
    assert (a ∈ select_where p t) as Hin by (apply elem_of_select_where; eauto).
    rewrite E in Hin. by apply elem_of_nil in Hin.
  - right. assert (a ∈ select_where p t) as [Hp [k Hk]]%elem_of_select_where by (rewrite E; left).
    exists k, a. split_and!; [done|done|]. rewrite <- E.
    eapply select_where_single; [done|done|]. intros k' a' Hk' Hp'. by eapply Hu.
Qed.

Lemma select_at_most_one (p : A → bool) (t : gmap uuid A) :
  (∀ k k' a a', t !! k = Some a → t !! k' = Some a' → p a = true → p a' = true → k = k') →
  (length (select_where p t) ≤ 1)%nat.
Proof. intros [[-> _]|(k & a & _ & _ & ->)]%select_where_unique; simpl; lia. Qed.

Lemma unique_on_insert {B} (f : A → B) (t : gmap uuid A) k a :
  unique_on f t → (∀ k' a', t !! k' = Some a' → f a' ≠ f a) → unique_on f (<[k := a]> t).
Proof.
  intros Hu Hf k1 k2 a1 a2 [[<- <-]|[_ H1]]%lookup_insert_Some
    [[<- <-]|[_ H2]]%lookup_insert_Some E; [done|..|eauto].
  - by destruct (Hf _ _ H2).
  - by destruct (Hf _ _ H1).
Qed.

Lemma unique_on_delete_where {B} (f : A → B) p (t : gmap uuid A) :
  unique_on f t → unique_on f (delete_where p t).
Proof. intros Hu k k' a a' [? _]%lookup_delete_where [? _]%lookup_delete_where. eauto. Qed.

Lemma unique_on_update_where {B} (f : A → B) p g (t : gmap uuid A) :
  unique_on f t → (∀ a, f (g a) = f a) → unique_on f (update_where p g t).
Proof.
  intros Hu Hg k k' a a'. rewrite !lookup_update_where.
  intros (b & Hb & ->)%fmap_Some (b' & Hb' & ->)%fmap_Some E.
  apply (Hu k k' b b' Hb Hb'). destruct (p b), (p b'); rewrite ?Hg in E; done.
Qed.

Lemma references_insert {B} (f : A → uuid) (t : gmap uuid A) (t' : gmap uuid B) k a :
  references f t t' → is_Some (t' !! f a) → references f (<[k := a]> t) t'.
Proof. intros Hr Ha k' a' [[_ <-]|[_ ?]]%lookup_insert_Some; eauto. Qed.

Lemma references_grow {B} (f : A → uuid) (t : gmap uuid A) (t' : gmap uuid B) k b :
  references f t t' → references f t (<[k := b]> t').
Proof.
  intros Hr k' a' Ha. rewrite lookup_insert. case_decide; [by eexists|eauto].
Qed.

Lemma references_delete_where {B} (f : A → uuid) p (t : gmap uuid A) (t' : gmap uuid B) :
  references f t t' → references f (delete_where p t) t'.
Proof. intros Hr k a [? _]%lookup_delete_where. eauto. Qed.

Lemma references_update_where {B} (f : A → uuid) p g (t : gmap uuid A) (t' : gmap uuid B) :
  references f t t' → (∀ a, f (g a) = f a) → references f (update_where p g t) t'.
Proof.
  intros Hr Hg k a. rewrite lookup_update_where. intros (b & Hb & ->)%fmap_Some.
  destruct (p b); rewrite ?Hg; eauto.
Qed.
End Unique.

#[export] Hint Resolve unique_on_insert unique_on_delete_where unique_on_update_where
  references_insert references_grow references_delete_where references_update_where : dispatch.

(** ** What the statements keep *)

Section Constraints.
Context `{Postgres}.
Implicit Types d : DB.

Definition accounts (d : DB) : Prop :=
  accounts_ok (tbl_tenants d) (tbl_users d) (tbl_sessions d) (tbl_api_keys d).

(** A change of the account tables that keeps their constraints; tenants are only added. *)
Record account_step (d d' : DB) : Prop := {
  step_jobs : tbl_jobs d' = tbl_jobs d;
  step_dlq : tbl_dead_letter_queue d' = tbl_dead_letter_queue d;
  step_tenants : ∀ id t, tbl_tenants d !! id = Some t → tbl_tenants d' !! id = Some t;
  step_accounts : accounts d → accounts d';
}.

Lemma account_step_refl d : account_step d d.
Proof. by constructor. Qed.

Lemma account_step_trans d1 d2 d3 :
  account_step d1 d2 → account_step d2 d3 → account_step d1 d3.
Proof. intros [] []. constructor; [congruence|congruence|auto|auto]. Qed.

#[local] Hint Resolve account_step_refl : core.

(** The account changes respect the invariant of the tables. *)
Lemma account_step_inv d d' : account_step d d' → db_inv d → db_inv d'.
Proof.
  intros [Ej Ed Ht Ha] Hd. constructor; rewrite ?Ej, ?Ed; try apply Hd; [|by apply Ha, Hd].
  intros id j Hj. destruct (inv_tenant d Hd id j Hj) as [t Ht']. eauto.
Qed.

Lemma select_none_ne {A B} `{EqDecision B} (f : A → B) (x : B) (p : A → bool) (t : gmap uuid A) :
  (∀ a, p a = bool_decide (f a = x)) → select_where p t = [] →
  ∀ k a, t !! k = Some a → f a ≠ x.
Proof.
  intros Hp Hs k a Hk E.
  assert (a ∈ select_where p t) as Hin.
  { apply elem_of_select_where. rewrite Hp. split; [by apply bool_decide_eq_true|eauto]. }
  rewrite Hs in Hin. by apply elem_of_nil in Hin.
Qed.

Lemma insert_tenant_step name now u d : account_step d (insert_tenant_stmt name now u d).2.
Proof.
  unfold insert_tenant_stmt. destruct (tbl_tenants d !! u) as [t|] eqn:Hu; [done|].
  constructor; simpl; [done|done| |].
  - intros id t Ht. rewrite lookup_insert_ne by congruence. done.
  - intros []. constructor; simpl; auto with dispatch.
Qed.

Lemma insert_user_step tid email h now u d :
  account_step d (insert_user_stmt tid email h now u d).2.
Proof.
  unfold insert_user_stmt. destruct (tbl_users d !! u) as [x|] eqn:Hu; [done|].
  destruct (select_where (email_is email) (tbl_users d)) as [|x l] eqn:Hs; [|done].
  destruct (tbl_tenants d !! tid) as [t|] eqn:Ht; [|done].
  constructor; simpl; [done|done|done|]. intros []. constructor; simpl; auto with dispatch.
  - apply unique_on_insert; [done|]. simpl.
    by apply (select_none_ne (λ r, pg_lower (User.Email r)) _ (email_is email)).
Qed.

Lemma insert_session_step uid h t now u d :
  account_step d (insert_session_stmt uid h t now u d).2.
Proof.
  unfold insert_session_stmt. destruct (tbl_sessions d !! u) as [x|] eqn:Hu; [done|].
  destruct (select_where (token_is h) (tbl_sessions d)) as [|x l] eqn:Hs; [|done].
  destruct (tbl_users d !! uid) as [x|] eqn:Ht; [|done].
  constructor; simpl; [done|done|done|]. intros []. constructor; simpl; auto with dispatch.
  - apply unique_on_insert; [done|]. simpl. by apply (select_none_ne _ _ (token_is h)).
Qed.

Lemma delete_session_step h now u d : account_step d (delete_session_stmt h now u d).2.
Proof. constructor; simpl; [done..|]. intros []. constructor; simpl; auto with dispatch. Qed.

Lemma insert_key_step tid name h pre now u d :
  account_step d (insert_key_stmt tid name h pre now u d).2.
Proof.
  unfold insert_key_stmt. destruct (tbl_api_keys d !! u) as [x|] eqn:Hu; [done|].
  destruct (select_where (hash_is h) (tbl_api_keys d)) as [|x l] eqn:Hs; [|done].
  destruct (tbl_tenants d !! tid) as [x|] eqn:Ht; [|done].
  constructor; simpl; [done|done|done|]. intros []. constructor; simpl; auto with dispatch.
  - apply unique_on_insert; [done|]. simpl. by apply (select_none_ne _ _ (hash_is h)).
Qed.

Lemma delete_key_step tid id now u d : account_step d (delete_key_stmt tid id now u d).2.
Proof. constructor; simpl; [done..|]. intros []. constructor; simpl; auto with dispatch. Qed.

#[export] Instance account_step_preorder : PreOrder account_step.
Proof. split; [exact account_step_refl|exact account_step_trans]. Qed.

Lemma touch_key_step id now u d : account_step d (touch_key_stmt id now u d).2.
Proof. constructor; simpl; [done..|]. intros []. constructor; simpl; auto with dispatch. Qed.
Lemma create_account_tx_step email h : tx_keeps account_step (create_account_tx email h).
Proof.
  split; [intros; apply insert_tenant_step|]. intros [e|tn]; [done|].
  split; [intros; apply insert_user_step|]. intros [e|u]; [|done]. by destruct (isUniqueViolation e).
Qed.
End Constraints.

#[export] Hint Resolve account_step_refl insert_tenant_step insert_user_step insert_session_step
  delete_session_step insert_key_step delete_key_step touch_key_step : dispatch.

(** ** CreateAccount: the tenant and its user, or nothing *)

Section CreateAccount.
Context `{Postgres}.
Implicit Types d : DB.

Definition account_created (now : Z) (tid uid : uuid) (email hash : string) (d : DB) : DB :=
  {| d with
     tbl_tenants := <[tid := Tenant.mkTenant tid email now]> (tbl_tenants d);
     tbl_users := <[uid := User.mkUser uid tid email hash now]> (tbl_users d) |}.

(** No user has the email, up to case. *)
Definition email_free (email : string) (d : DB) : Prop :=
  ∀ id u, tbl_users d !! id = Some u → pg_lower (User.Email u) ≠ pg_lower email.

Lemma select_email_free email d :
  email_free email d ↔ select_where (email_is email) (tbl_users d) = [].
Proof.
  split.
  - intros Hf. apply select_where_none. intros k a Ha. apply bool_decide_eq_false. by eapply Hf.
  - intros Hs id u Hu. by eapply (select_none_ne (λ r, pg_lower (User.Email r)) _ (email_is email)).
Qed.

Lemma insert_user_cases tid email h now u d :
  (email_free email d ∧ tbl_users d !! u = None ∧ is_Some (tbl_tenants d !! tid)
   ∧ insert_user_stmt tid email h now u d
     = (inr (User.mkUser u tid email h now),
        {| d with tbl_users := <[u := User.mkUser u tid email h now]> (tbl_users d) |}))
  ∨ ∃ e, insert_user_stmt tid email h now u d = (inl e, d).
Proof.
  unfold insert_user_stmt. destruct (tbl_users d !! u) eqn:Hu; [right; eauto|].
  destruct (select_where _ _) eqn:Hs; [|right; eauto]. apply select_email_free in Hs.
  destruct (tbl_tenants d !! tid); [left; eauto|right; eauto].
Qed.

(** Every outcome of the transaction, whatever fails. *)
Lemma create_account_cases email h fs now us d :
  let '(r, d') := run_tx (create_account_tx email h) fs now us d in
  (d' = d ∧ ∃ e, r = inl e)
  ∨ ∃ tid uid,
      tbl_tenants d !! tid = None ∧ tbl_users d !! uid = None ∧ email_free email d
      ∧ d' = account_created now tid uid email h d
      ∧ (r = inr (Tenant.mkTenant tid email now, User.mkUser uid tid email h now)
         ∨ ∃ e, r = inl e).
Proof.
  unfold run_tx. destruct (default FOk (head fs)); [|left; eauto..].
  unfold create_account_tx. cbn [run_stmts]. generalize (tail fs). clear fs. intros fs.
  destruct (default FOk (head fs)); [|left; simpl; eauto..].
  generalize (default uuid_Nil (head us)). intros tid.
  unfold insert_tenant_stmt at 1. destruct (tbl_tenants d !! tid) as [tn|] eqn:Ht; [left; simpl; eauto|].
  cbn [run_stmts Tenant.ID]. generalize (tail fs) (tail us). clear fs us. intros fs us.
  destruct (default FOk (head fs)) as [|e|e];
    [|cbn [run_stmts]; destruct (isUniqueViolation e); left; simpl; eauto..].
  destruct (insert_user_cases tid email h now (default uuid_Nil (head us))
              {| d with tbl_tenants := <[tid := Tenant.mkTenant tid email now]> (tbl_tenants d) |})
    as [(Hf & Hu & _ & ->)|[e ->]];
    [|cbn; destruct (isUniqueViolation e); left; simpl; eauto].
  cbn [run_stmts]. destruct (default FOk (head (tail fs))); [right|left; eauto|right].
  all: exists tid, (default uuid_Nil (head us)); split_and!; eauto.
Qed.

Lemma create_account_run email h now tid uid us d :
  tbl_tenants d !! tid = None → tbl_users d !! uid = None →
  run_tx (create_account_tx email h) [] now (tid :: uid :: us) d
  = if decide (select_where (email_is email) (tbl_users d) = [])
    then (inr (Tenant.mkTenant tid email now, User.mkUser uid tid email h now),
          account_created now tid uid email h d)
    else (inl (ESentinel ErrEmailTaken), d).
Proof.
  intros Ht Hu. unfold run_tx, create_account_tx, insert_tenant_stmt, insert_user_stmt.
  cbn. rewrite Ht. cbn. rewrite Hu. destruct (select_where _ _) as [|x l] eqn:Hs.
  - rewrite decide_True by done. cbn. by rewrite lookup_insert_eq.
  - by rewrite decide_False.
Qed.

Lemma accounts_created email h now tid uid d :
  accounts d → tbl_tenants d !! tid = None → tbl_users d !! uid = None → email_free email d →
  accounts (account_created now tid uid email h d).
Proof.
  intros Ha Ht Hu Hf%select_email_free.
  pose proof (run_tx_keeps account_step _ [] now [tid; uid] d _
                (create_account_tx_step email h)) as Hs.
  rewrite create_account_run, decide_True in Hs by done. by apply (step_accounts _ _ Hs).
Qed.
End CreateAccount.
