(* ===== verification/AuthFacts.v ===== *)
(** * Authentication: keys and sessions admit their owner and nobody else *)
From S2P Require Import Prelude GoStd Models Interfaces Db Effects Crypto GoStrings Samples.
From S2P Require Import Accounts Auth Http AuthApi KeysApi Lifecycle AccountsFacts.
Open Scope Z_scope.

(** ** Looking up by a unique column *)

Section Lookups.
Context `{Postgres}.
Implicit Types d : DB.

(** A session with this token hash that is alive at [now], with its user. *)
Definition live_session (d : DB) (h : string) (now : Z) (u : User) : Prop := ∃ sid s,
  tbl_sessions d !! sid = Some s ∧ Session.TokenHash s = h ∧ now < Session.ExpiresAt s
  ∧ tbl_users d !! Session.UserID s = Some u.

Definition stored_key (d : DB) (h : string) (k : APIKey) : Prop :=
  tbl_api_keys d !! APIKey.ID k = Some k ∧ APIKey.KeyHash k = h.

Lemma session_user_live d h now x u :
  accounts d → live_session d h now u → session_user_stmt h now x d = (inr u, d).
Proof.
  intros Ha (sid & s & Hs & Hh & Hn & Hu). unfold session_user_stmt.
  rewrite (select_where_single _ _ sid s); [|done| |].
  - cbn. rewrite app_nil_r.
    rewrite (select_where_single _ _ (Session.UserID s) u); [done|done| |].
    + apply bool_decide_eq_true. by apply (acc_users_keyed _ _ _ _ Ha).
    + intros k' a' Hk' E%bool_decide_eq_true. by rewrite <- (acc_users_keyed _ _ _ _ Ha _ _ Hk').
  - unfold token_is. rewrite bool_decide_eq_true_2 by done. simpl. lia.
  - intros k' a' Hk' [E%bool_decide_eq_true _]%andb_true_iff.
    eapply (acc_token _ _ _ _ Ha); [done|done|congruence].
Qed.

Lemma session_user_dead d h now x :
  accounts d → (∀ u, ¬ live_session d h now u) →
  session_user_stmt h now x d = (inl (ESentinel PgxErrNoRows), d).
Proof.
  intros Ha Hno. unfold session_user_stmt. rewrite select_where_none; [done|].
  intros sid s Hs. destruct (token_is h s) eqn:Et; [|done]. apply bool_decide_eq_true in Et.
  destruct (Z.ltb_spec now (Session.ExpiresAt s)) as [Hn|]; [|done].
  destruct (acc_session_user _ _ _ _ Ha _ _ Hs) as [u Hu].
  destruct (Hno u). by exists sid, s.
Qed.

Lemma auth_key_found d h now x k :
  accounts d → stored_key d h k →
  auth_key_stmt h now x d = (inr (APIKey.TenantID k, APIKey.ID k), d).
Proof.
  intros Ha [Hk Hh]. unfold auth_key_stmt. rewrite (select_where_single _ _ _ k Hk); [done| |].
  - by apply bool_decide_eq_true.
  - intros k' a' Hk' E%bool_decide_eq_true. eapply (acc_hash _ _ _ _ Ha); [done|done|congruence].
Qed.

Lemma auth_key_missing d h now x :
  accounts d → (∀ k, ¬ stored_key d h k) →
  auth_key_stmt h now x d = (inl (ESentinel PgxErrNoRows), d).
Proof.
  intros Ha Hno. unfold auth_key_stmt. rewrite select_where_none; [done|].
  intros kid k Hk. apply bool_decide_eq_false. intros E. destruct (Hno k). split; [|done].
  by rewrite (acc_keys_keyed _ _ _ _ Ha _ _ Hk).
Qed.

(** Stamping a key changes its row only. *)
Definition touched (now : Z) (k : APIKey) (d : DB) : DB :=
  {| d with tbl_api_keys :=
       <[APIKey.ID k := {| k with APIKey.LastUsedAt := Some now |}]> (tbl_api_keys d) |}.

Lemma touch_key_row d k now x :
  accounts d → tbl_api_keys d !! APIKey.ID k = Some k →
  touch_key_stmt (APIKey.ID k) now x d = (inr tt, touched now k d).
Proof.
  intros Ha Hk. unfold touch_key_stmt, touched. f_equal.
  assert (∀ t t', t = t' → {| d with tbl_api_keys := t |} = {| d with tbl_api_keys := t' |}) as Hf
    by by intros ? ? ->.
  apply Hf. apply map_eq. intros kid. rewrite lookup_update_where, lookup_insert.
  case_decide as E; [subst kid; rewrite Hk; simpl; by rewrite bool_decide_eq_true_2|].
  destruct (tbl_api_keys d !! kid) as [a|] eqn:Hkid; [|done]. simpl.
  rewrite bool_decide_eq_false_2; [done|]. rewrite (acc_keys_keyed _ _ _ _ Ha _ _ Hkid). congruence.
Qed.

Lemma accounts_touched now k d : accounts d → tbl_api_keys d !! APIKey.ID k = Some k → accounts (touched now k d).
Proof.
  intros Ha Hk. pose proof (touch_key_row d k now uuid_Nil Ha Hk) as E.
  pose proof (step_accounts _ _ (touch_key_step (APIKey.ID k) now uuid_Nil d) Ha) as Hx.
  by rewrite E in Hx.
Qed.
End Lookups.

Section AuthFacts.
Context `{Postgres} `{GoText} `{Bcrypt} {R : Type}.
Implicit Types (w : world R) (r : Request) (e : reply).

Lemma exec_SessionUser h e es w :
  reliable e →
  exec (e :: es) (SessionUser h) w
  = (Some (match (session_user_stmt h (r_now e) (r_uuid e) (w_db w)).1 with
           | inl err => if errors_Is err PgxErrNoRows then inl (ESentinel ErrSessionInvalid)
                        else inl (EWrap "session user" err)
           | inr u => inr u
           end, es), w).
Proof.
  intros He. unfold SessionUser, exec_sql. rewrite exec_request, sql_ok by done.
  simpl. by destruct w.
Qed.

Lemma exec_AuthenticateAPIKey h e es w :
  reliable e →
  exec (e :: es) (AuthenticateAPIKey h) w
  = (Some (match (auth_key_stmt h (r_now e) (r_uuid e) (w_db w)).1 with
           | inl err => if errors_Is err PgxErrNoRows then inl (ESentinel ErrAPIKeyNotFound)
                        else inl (EWrap "authenticate api key" err)
           | inr ids => inr ids
           end, es), w).
Proof.
  intros He. unfold AuthenticateAPIKey, exec_sql. rewrite exec_request, sql_ok by done.
  simpl. by destruct w.
Qed.

Lemma exec_TouchAPIKey k e es w :
  reliable e → accounts (w_db w) → tbl_api_keys (w_db w) !! APIKey.ID k = Some k →
  exec (e :: es) (TouchAPIKey (APIKey.ID k)) w
  = (Some (None, es), with_db (touched (r_now e) k (w_db w)) w).
Proof.
  intros He Ha Hk. unfold TouchAPIKey, exec_sql. rewrite exec_request, sql_ok by done.
  by rewrite touch_key_row.
Qed.

Lemma RequireSession_admits cfg next r token u e es w :
  accounts (w_db w) → reliable e → Cookie r (CookieName cfg) = Some token →
  live_session (w_db w) (HashSessionToken (Secret cfg) token) (r_now e) u →
  exec (e :: es) (RequireSession cfg next r) w
  = exec es (next {| r with Ctx := WithUser (WithTenant (Ctx r) (User.TenantID u)) u |}) w.
Proof.
  intros Ha He Hc Hu. unfold RequireSession. rewrite Hc, exec_bind, exec_SessionUser by done.
  by rewrite (session_user_live _ _ _ _ u).
Qed.

Lemma RequireSession_denies cfg next r token e es w :
  accounts (w_db w) → reliable e → Cookie r (CookieName cfg) = Some token →
  (∀ u, ¬ live_session (w_db w) (HashSessionToken (Secret cfg) token) (r_now e) u) →
  exec (e :: es) (RequireSession cfg next r) w
  = (Some (writeError StatusUnauthorized "authentication required", es), w).
Proof.
  intros Ha He Hc Hu. unfold RequireSession. rewrite Hc, exec_bind, exec_SessionUser by done.
  by rewrite session_user_dead.
Qed.
(** [RequireSession]: without the cookie, or with one that matches no session alive at
    that moment, the answer is the same 401 and the endpoint is not reached; with the cookie of
    a live session the endpoint runs with the session's user and that user's tenant in its
    context. Nothing is written. *)
Theorem RequireSession_admits_live_sessions cfg next r e es w :
  accounts (w_db w) → reliable e →
  let denied := writeError StatusUnauthorized "authentication required" in
  match Cookie r (CookieName cfg) with
  | None => exec (e :: es) (RequireSession cfg next r) w = (Some (denied, e :: es), w)
  | Some token =>
      let h := HashSessionToken (Secret cfg) token in
      (∀ u, live_session (w_db w) h (r_now e) u →
         exec (e :: es) (RequireSession cfg next r) w
         = exec es (next {| r with Ctx := WithUser (WithTenant (Ctx r) (User.TenantID u)) u |}) w)
      ∧ ((∀ u, ¬ live_session (w_db w) h (r_now e) u) →
         exec (e :: es) (RequireSession cfg next r) w = (Some (denied, es), w))
  end.
Proof.
  intros Ha He. cbn zeta. destruct (Cookie r _) as [token|] eqn:Hc.
  - split; [intros u Hu; by eapply RequireSession_admits|intros Hno; by eapply RequireSession_denies].
  - unfold RequireSession. by rewrite Hc.
Qed.

Lemma RequireAPIKey_run next r e1 e2 es w key k :
  accounts (w_db w) → reliable e1 → reliable e2 →
  bearerToken (Authorization r) = Some key → HasPrefix key APIKeyPrefix = true →
  stored_key (w_db w) (HashAPIKey key) k →
  exec (e1 :: e2 :: es) (RequireAPIKey next r) w
  = exec es (next {| r with Ctx := WithTenant (Ctx r) (APIKey.TenantID k) |})
      (with_db (touched (r_now e2) k (w_db w)) w).
Proof.
  intros Ha He1 He2 Hb Hp Hk. unfold RequireAPIKey. rewrite Hb, Hp. cbn [negb].
  rewrite exec_bind, exec_AuthenticateAPIKey, (auth_key_found _ _ _ _ k) by done. cbn [fst].
  by rewrite exec_bind, exec_TouchAPIKey by (done || apply Hk).
Qed.

(** [RequireAPIKey]: a missing or malformed header, a key without the [dk_] scheme (these
    without asking the database) and an unknown key get the same 401 and the endpoint is not
    reached; a stored key runs the endpoint with the key's tenant and no user, after stamping
    the key's [last_used_at]; the endpoint runs also when the stamp fails. *)
Theorem RequireAPIKey_admits_stored_keys next r e1 e2 es w :
  accounts (w_db w) → reliable e1 → reliable e2 →
  let denied := writeError StatusUnauthorized "invalid or missing API key" in
  match bearerToken (Authorization r) with
  | None => exec (e1 :: e2 :: es) (RequireAPIKey next r) w = (Some (denied, e1 :: e2 :: es), w)
  | Some key =>
      if negb (HasPrefix key APIKeyPrefix)
      then exec (e1 :: e2 :: es) (RequireAPIKey next r) w = (Some (denied, e1 :: e2 :: es), w)
      else
        (∀ k, stored_key (w_db w) (HashAPIKey key) k →
           let admitted := next {| r with Ctx := WithTenant (Ctx r) (APIKey.TenantID k) |} in
           exec (e1 :: e2 :: es) (RequireAPIKey next r) w
           = exec es admitted (with_db (touched (r_now e2) k (w_db w)) w)
           ∧ ∀ e3 err, r_fault e3 = FLost err →
               exec (e1 :: e3 :: es) (RequireAPIKey next r) w = exec es admitted w)
        ∧ ((∀ k, ¬ stored_key (w_db w) (HashAPIKey key) k) →
           exec (e1 :: e2 :: es) (RequireAPIKey next r) w = (Some (denied, e2 :: es), w))
  end.
Proof.
  intros Ha He1 He2. destruct (bearerToken _) as [key|] eqn:Hb.
  2: { unfold RequireAPIKey. by rewrite Hb. }
  destruct (HasPrefix key APIKeyPrefix) eqn:Hp; cbn [negb].
  2: { unfold RequireAPIKey. by rewrite Hb, Hp. }
  split; [intros k Hk|intros Hno; unfold RequireAPIKey; rewrite Hb, Hp; cbn [negb]].
  - split.
    + by eapply RequireAPIKey_run.
    + intros e3 err He3. unfold RequireAPIKey. rewrite Hb, Hp. cbn [negb].
      rewrite exec_bind, exec_AuthenticateAPIKey by done.
      rewrite (auth_key_found _ _ _ _ k) by done. cbn [fst]. rewrite exec_bind.
      unfold TouchAPIKey, exec_sql. rewrite exec_request. cbn [interp]. rewrite He3.
      destruct (touch_key_stmt _ _ _ _). simpl. by destruct w.
  - by rewrite exec_bind, exec_AuthenticateAPIKey, auth_key_missing.
Qed.
End AuthFacts.

(** ** Instances *)

(** The sample tables satisfy their constraints. *)
Lemma demo_accounts : accounts demo_db.
Proof.
  constructor; unfold keyed, unique_on, references; simpl; try (by intros ??; rewrite lookup_empty).
  - by intros k a [<- <-]%lookup_singleton_Some.
  - by intros k a [<- <-]%lookup_singleton_Some.
  - by intros k k' a a' [<- _]%lookup_singleton_Some [<- _]%lookup_singleton_Some.
  - intros k a [_ <-]%lookup_singleton_Some. by eexists.
Qed.

(** [GET /api/v1/jobs] with a key and a cookie. *)
Definition sample_get (authorization cookie : string) : Request := {|
  Method := "GET";
  Path := "/api/v1/jobs";
  Authorization := authorization;
  Cookie := λ n, if decide (n = defaultCookieName) then Some cookie else None;
  URLParam := λ _, EmptyString;
  Query := λ _, EmptyString;
  Body := None;
  Ctx := Background;
|}.

Definition sample_sessions : SessionConfig :=
  New_sessions (mkSessionConfig (bytes_of "secret") true 0 EmptyString).

Lemma demo_key_stored : stored_key demo_db (HashAPIKey demo_key) demo_key_row.
Proof. split; [done|]. vm_compute. reflexivity. Qed.

Lemma RequireSession_admits_live_sessions_witness :
  (exec [ok_at 1 0%N] (RequireSession sample_sessions (λ _, Ret no_content)
                         (sample_get EmptyString "forged")) demo_world).1
  = Some (writeError StatusUnauthorized "authentication required", []).
Proof.
  destruct (RequireSession_admits_live_sessions sample_sessions (λ _, Ret no_content)
              (sample_get EmptyString "forged") (ok_at 1 0%N) [] demo_world) as [_ Hdenied].
  - exact demo_accounts.
  - apply ok_at_reliable.
  - rewrite Hdenied; [reflexivity|]. intros u (sid & s & Hs & _).
    simpl in Hs. by rewrite lookup_empty in Hs.
Defined.

Lemma RequireAPIKey_admits_stored_keys_witness :
  exec [ok_at 1 0%N; ok_at 2 0%N]
    (RequireAPIKey (λ r, Ret (writeError 200 (if decide (ctx_tenant (Ctx r) = Some demo_tenant)
                                             then "acme" else "other")))
       (sample_get ("Bearer " +:+ demo_key) EmptyString)) demo_world
  = (Some (writeError 200 "acme", []), with_db (touched 2 demo_key_row demo_db) demo_world).
Proof.
  destruct (RequireAPIKey_admits_stored_keys
              (λ r, Ret (writeError 200 (if decide (ctx_tenant (Ctx r) = Some demo_tenant)
                                         then "acme" else "other")))
              (sample_get ("Bearer " +:+ demo_key) EmptyString) (ok_at 1 0%N) (ok_at 2 0%N) []
              demo_world) as [Hadmit _].
  - exact demo_accounts.
  - apply ok_at_reliable.
  - apply ok_at_reliable.
  - destruct (Hadmit demo_key_row) as [E _]; [exact demo_key_stored|]. exact E.
Defined.
