(* ===== verification/KeysApiFacts.v ===== *)
(** * API keys: what is minted is accepted, and what is revoked is not *)
From S2P Require Import Prelude GoStd Models Interfaces Db Effects Crypto GoStrings Samples.
From S2P Require Import Accounts Auth Http AuthApi KeysApi Lifecycle AccountsFacts AuthFacts.
From Stdlib Require Import Ascii.
Open Scope Z_scope.

(** ** Tokens *)

Lemma random_bytes_length n l : length (random_bytes n l) = n.
Proof. unfold random_bytes. by rewrite length_fmap, length_seq. Qed.

Lemma random_bytes_values n l : Forall is_byte_value (random_bytes n l).
Proof.
  apply Forall_fmap, Forall_true. intros i. unfold is_byte_value. simpl.
  apply Z.mod_pos_bound. lia.
Qed.

(** The token a reply's random bytes make. *)
Definition token_of (e : reply) : string :=
  base64_EncodeToString (random_bytes tokenBytes (r_rand e)).

Lemma token_length e : String.length (token_of e) = 43%nat.
Proof. unfold token_of. by rewrite base64_length, random_bytes_length. Qed.

Lemma token_printable e : printable (token_of e).
Proof. apply base64_printable, random_bytes_values. Qed.

Lemma exec_randomToken {R} e es (w : world R) :
  reliable e → exec (e :: es) randomToken w = (Some (inr (token_of e), es), w).
Proof.
  intros (He & _). unfold randomToken, rand_Read. rewrite exec_request. cbn [interp]. by rewrite He.
Qed.

(** A header with the scheme and a printable token is read back as the token. *)
Lemma bearerToken_reads token :
  printable token → token ≠ EmptyString → bearerToken ("Bearer " +:+ token) = Some token.
Proof.
  intros Hp Hne. unfold bearerToken.
  change (String.length bearer_prefix) with (String.length "Bearer ").
  rewrite take_string_app, drop_string_app, string_length_app, TrimSpace_printable by done.
  replace (_ <? _)%nat with false by (symmetry; apply Nat.ltb_ge; lia).
  change (EqualFold_ascii "Bearer " bearer_prefix) with true. cbn. by rewrite decide_False.
Qed.

Section KeysApiFacts.
Context `{Postgres} `{UUIDLib} `{GoText} {R : Type}.
Implicit Types (w : world R) (r : Request) (e : reply).

Definition put_key (k : APIKey) (d : DB) : DB :=
  {| d with tbl_api_keys := <[APIKey.ID k := k]> (tbl_api_keys d) |}.

Definition hash_free (h : string) (d : DB) : Prop :=
  ∀ id k, tbl_api_keys d !! id = Some k → APIKey.KeyHash k ≠ h.

Lemma insert_key_new tid name h pre now u d :
  tbl_api_keys d !! u = None → hash_free h d → is_Some (tbl_tenants d !! tid) →
  insert_key_stmt tid name h pre now u d
  = (inr (APIKey.mkAPIKey u tid name h pre None now),
     put_key (APIKey.mkAPIKey u tid name h pre None now) d).
Proof.
  intros Hu Hf [t Ht]. unfold insert_key_stmt. rewrite Hu, Ht.
  rewrite select_where_none; [done|]. intros k a Ha. apply bool_decide_eq_false. by eapply Hf.
Qed.

Lemma select_own_key tid id d :
  accounts d →
  select_where (own_key tid id) (tbl_api_keys d)
  = match tbl_api_keys d !! id with
    | Some k => if decide (APIKey.TenantID k = tid) then [k] else []
    | None => []
    end.
Proof.
  intros Ha. pose proof (acc_keys_keyed _ _ _ _ Ha) as Hk.
  rewrite (select_where_key APIKey.ID _ _ id Hk).
  2: { intros k [E%bool_decide_eq_true _]%andb_true_iff. done. }
  destruct (tbl_api_keys d !! id) as [k|] eqn:E; [|done].
  unfold own_key. rewrite bool_decide_eq_true_2 by by apply Hk. simpl.
  case_decide; [by rewrite bool_decide_eq_true_2|by rewrite bool_decide_eq_false_2].
Qed.

Lemma own_key_other tid id kid k d :
  accounts d → tbl_api_keys d !! kid = Some k → kid ≠ id → own_key tid id k = false.
Proof.
  intros Ha Hkid Hne. unfold own_key. rewrite bool_decide_eq_false_2; [done|].
  rewrite (acc_keys_keyed _ _ _ _ Ha _ _ Hkid). congruence.
Qed.

Lemma delete_own_key tid id d :
  accounts d →
  delete_where (own_key tid id) (tbl_api_keys d)
  = match tbl_api_keys d !! id with
    | Some k => if decide (APIKey.TenantID k = tid) then delete id (tbl_api_keys d) else tbl_api_keys d
    | None => tbl_api_keys d
    end.
Proof.
  intros Ha. apply map_eq. intros kid. apply option_eq. intros k. rewrite lookup_delete_where.
  pose proof (own_key_other tid id kid k d Ha) as Hother.
  destruct (tbl_api_keys d !! id) as [k0|] eqn:E.
  2: { split; [tauto|]. intros Hkid. split; [done|]. apply Hother; congruence. }
  assert (own_key tid id k0 = bool_decide (APIKey.TenantID k0 = tid)) as Eown.
  { unfold own_key. by rewrite bool_decide_eq_true_2 by by apply (acc_keys_keyed _ _ _ _ Ha). }
  destruct (decide (APIKey.TenantID k0 = tid)) as [Et|Et].
  - rewrite lookup_delete_Some. split.
    + intros [Hkid Hp]. split; [|done]. intros ->. simplify_eq.
      rewrite Eown, bool_decide_eq_true_2 in Hp; done.
    + intros [Hne Hkid]. auto.
  - split; [tauto|]. intros Hkid. split; [done|].
    destruct (decide (kid = id)) as [->|Hne]; [|by apply Hother].
    simplify_eq. by rewrite Eown, bool_decide_eq_false_2.
Qed.

(** Revoking: only by the owner, only that key. *)
Lemma delete_key_owned tid id now u d :
  accounts d →
  delete_key_stmt tid id now u d
  = match tbl_api_keys d !! id with
    | Some k =>
        if decide (APIKey.TenantID k = tid)
        then (inr 1%nat, {| d with tbl_api_keys := delete id (tbl_api_keys d) |})
        else (inr 0%nat, d)
    | None => (inr 0%nat, d)
    end.
Proof.
  intros Ha. unfold delete_key_stmt. rewrite select_own_key, delete_own_key by done.
  destruct (tbl_api_keys d !! id) as [k|]; [case_decide|]; simpl; [done|by destruct d..].
Qed.

(** ** The life of a key *)

Section Mint.
Context (r : Request) (tid : uuid) (req : createKeyRequest) (e1 e2 : reply) (w : world R).
Hypothesis Hacc : accounts (w_db w).
Hypothesis Htid : tenantFromContext (Ctx r) = Some tid.
Hypothesis Hten : is_Some (tbl_tenants (w_db w) !! tid).
Hypothesis Hbody :
  decode_body decode_key_member (mkCreateKeyRequest EmptyString) (Body r) = inr req.
Hypothesis Hname : TrimSpace (ckrName req) ≠ EmptyString.
Hypothesis Hlen : (String.length (TrimSpace (ckrName req)) ≤ maxKeyNameLen)%nat.
Hypothesis Hok1 : reliable e1.
Hypothesis Hok2 : reliable e2.
Hypothesis Hid : tbl_api_keys (w_db w) !! r_uuid e2 = None.

Definition minted_key (e : reply) : string := APIKeyPrefix +:+ token_of e.
Hypothesis Hfree : hash_free (HashAPIKey (minted_key e1)) (w_db w).

Definition minted_row : APIKey :=
  APIKey.mkAPIKey (r_uuid e2) tid (TrimSpace (ckrName req)) (HashAPIKey (minted_key e1))
    (APIKeyPrefix +:+ take_string prefixDisplayLen (token_of e1)) None (r_now e2).

Lemma createKey_run es :
  exec (e1 :: e2 :: es) (createKey r) w
  = (Some (writeJSON StatusCreated (BKeyCreated
             (mkCreateKeyResponse (r_uuid e2) (TrimSpace (ckrName req)) (minted_key e1)
                (APIKey.KeyPrefix minted_row) (r_now e2))), es),
     with_db (put_key minted_row (w_db w)) w).
Proof.
  unfold createKey, tenantID. rewrite Htid, Hbody, decide_False by done.
  replace (maxKeyNameLen <? _)%nat with false by (symmetry; apply Nat.ltb_ge; lia).
  unfold GenerateAPIKey. rewrite !exec_bind, exec_randomToken by done. cbn [exec].
  unfold CreateAPIKey, exec_sql. rewrite exec_bind, exec_request, sql_ok by done.
  by rewrite insert_key_new.
Qed.

Lemma minted_accounts : accounts (put_key minted_row (w_db w)).
Proof.
  pose proof (step_accounts _ _ (insert_key_step tid (TrimSpace (ckrName req))
    (HashAPIKey (minted_key e1)) (APIKey.KeyPrefix minted_row) (r_now e2) (r_uuid e2) (w_db w)) Hacc)
    as Hx.
  by rewrite insert_key_new in Hx.
Qed.

Lemma minted_printable : printable (minted_key e1).
Proof. apply printable_app; [by repeat constructor|apply token_printable]. Qed.

Lemma minted_bearer r' :
  Authorization r' = "Bearer " +:+ minted_key e1 → bearerToken (Authorization r') = Some (minted_key e1).
Proof. intros ->. by apply bearerToken_reads; [apply minted_printable|]. Qed.

Lemma minted_delete : with_db {| (put_key minted_row (w_db w)) with
    tbl_api_keys := delete (r_uuid e2) (tbl_api_keys (put_key minted_row (w_db w))) |} w = w.
Proof.
  unfold put_key, with_db. simpl. rewrite delete_insert_id by done. by destruct w as [[] ? ?].
Qed.
End Mint.

End KeysApiFacts.

(** ** Instance: a key named [ci] minted for the sample tenant *)

Definition sample_create : Request :=
  {| (sample_get EmptyString EmptyString) with
     Body := Some (JObj [("name", JStr " ci ")])%string; Ctx := WithTenant Background demo_tenant |}.

