(* ===== verification/AuthApiFacts.v ===== *)
(** * Signup, login and logout: sessions from their start to their end *)
From S2P Require Import Prelude GoStd Models Interfaces Db Effects Crypto GoStrings Samples.
From S2P Require Import Accounts Auth Http AuthApi Lifecycle AccountsFacts AuthFacts KeysApiFacts.
Open Scope Z_scope.

(** ** What a client can observe besides the response: the requests made on its behalf *)

Inductive event := EvSql | EvTx | EvRedis | EvNow | EvUUID | EvCtx | EvWait | EvMetric | EvRand | EvBcrypt.

Definition kind {R X} (o : op R X) : event :=
  match o with
  | OSql _ => EvSql | OTx _ => EvTx | ORedis _ => EvRedis | ONow => EvNow | OUUID => EvUUID
  | OCtxErr => EvCtx | OWait _ => EvWait | OMetric _ => EvMetric | ORand _ => EvRand
  | OBcrypt => EvBcrypt
  end.

Fixpoint trace {R A} (es : list reply) (p : prog R A) (w : world R) {struct p} : list event :=
  match p with
  | Call o k =>
      match es with
      | [] => []
      | e :: es' => let '(x, w') := interp o e w in kind o :: trace es' (k x) w'
      end
  | _ => []
  end.

Section AuthApiFacts.
Context `{Postgres} `{GoText} `{Bcrypt} {R : Type} (cfg : SessionConfig).
Implicit Types (w : world R) (r : Request) (e : reply).

Lemma trace_request {X A} (o : op R X) (f : X → prog R A) e es w :
  trace (e :: es) (bind (request o) f) w = kind o :: trace es (f (interp o e w).1) (interp o e w).2.
Proof. simpl. by destruct (interp o e w). Qed.

Lemma bind_assoc {A B C} (p : prog R A) (f : A → prog R B) (g : B → prog R C) es w :
  trace es (bind (bind p f) g) w = trace es (bind p (λ x, bind (f x) g)) w.
Proof.
  revert es w. induction p as [a|msg|X o k IH]; intros es w; [done|done|].
  destruct es as [|e es]; [done|]. simpl. destruct (interp o e w). f_equal. apply IH.
Qed.

(** ** Sessions *)

Definition put_session (s : Session) (d : DB) : DB :=
  {| d with tbl_sessions := <[Session.ID s := s]> (tbl_sessions d) |}.

Definition token_free (h : string) (d : DB) : Prop :=
  ∀ id s, tbl_sessions d !! id = Some s → Session.TokenHash s ≠ h.

Definition token_hash (e : reply) : string := HashSessionToken (Secret cfg) (token_of e).

(** The session made from a token draw, a clock reading and the INSERT. *)
Definition new_session (uid : uuid) (e1 e2 e3 : reply) : Session :=
  Session.mkSession (r_uuid e3) uid (token_hash e1) (r_now e3) (pg_ts (r_now e2 + TTL cfg)).

Definition new_cookie (e1 e2 e4 : reply) : SetCookie :=
  mkSetCookie (CookieName cfg) (token_of e1) "/" (Some (r_now e2 + TTL cfg))
    (seconds_of (r_now e2 + TTL cfg - r_now e4)) true (Secure cfg) true.

Lemma insert_session_new uid h t now x d :
  tbl_sessions d !! x = None → token_free h d → is_Some (tbl_users d !! uid) →
  insert_session_stmt uid h t now x d
  = (inr tt, put_session (Session.mkSession x uid h now (pg_ts t)) d).
Proof.
  intros Hx Hf [u Hu]. unfold insert_session_stmt. rewrite Hx, Hu.
  rewrite select_where_none; [done|]. intros k a Ha. apply bool_decide_eq_false. by eapply Hf.
Qed.

Lemma exec_startSession uid e1 e2 e3 e4 es w :
  reliable e1 → reliable e3 → is_Some (tbl_users (w_db w) !! uid) → tbl_sessions (w_db w) !! r_uuid e3 = None →
  token_free (token_hash e1) (w_db w) →
  exec (e1 :: e2 :: e3 :: e4 :: es) (startSession cfg uid) w
  = (Some (inr (new_cookie e1 e2 e4), es),
     with_db (put_session (new_session uid e1 e2 e3) (w_db w)) w).
Proof.
  intros He1 He3 Hu Hx Hf. unfold startSession, GenerateSessionToken.
  rewrite exec_bind, exec_randomToken by done.
  unfold time_Now. rewrite exec_request. cbn [interp fst snd].
  unfold CreateSession, exec_sql. rewrite exec_bind, exec_request, sql_ok by done.
  by rewrite insert_session_new.
Qed.

Lemma accounts_put_session uid e1 e2 e3 d :
  accounts d → tbl_sessions d !! r_uuid e3 = None → token_free (token_hash e1) d →
  is_Some (tbl_users d !! uid) → accounts (put_session (new_session uid e1 e2 e3) d).
Proof.
  intros Ha Hx Hf Hu.
  pose proof (step_accounts _ _ (insert_session_step uid (token_hash e1) (r_now e2 + TTL cfg)
    (r_now e3) (r_uuid e3) d) Ha) as Hs.
  by rewrite insert_session_new in Hs.
Qed.

(** The one session of a token hash. *)
Lemma live_session_put s d u now :
  accounts (put_session s d) → tbl_users d !! Session.UserID s = Some u →
  (∀ u', live_session (put_session s d) (Session.TokenHash s) now u' →
     u' = u ∧ now < Session.ExpiresAt s)
  ∧ (now < Session.ExpiresAt s → live_session (put_session s d) (Session.TokenHash s) now u).
Proof.
  intros Ha Hu. split.
  - intros u' (sid & s' & Hs' & Ht & Hn & Hu'). simpl in *.
    assert (sid = Session.ID s) as ->.
    { eapply (acc_token _ _ _ _ Ha); [exact Hs'|apply lookup_insert_eq|done]. }
    rewrite lookup_insert_eq in Hs'. simplify_eq. done.
  - intros Hn. exists (Session.ID s), s. simpl. by rewrite lookup_insert_eq.
Qed.

(** ** Logout *)

Lemma exec_logout r token e es w :
  reliable e → Cookie r (CookieName cfg) = Some token →
  exec (e :: es) (logout cfg r) w
  = (Some (with_cookie (clearSessionCookie cfg) no_content, es),
     with_db (delete_session_stmt (HashSessionToken (Secret cfg) token) (r_now e) (r_uuid e)
                (w_db w)).2 w).
Proof.
  intros He Hc. unfold logout. rewrite Hc. unfold DeleteSession, exec_sql.
  by rewrite exec_bind, exec_request, sql_ok.
Qed.

Lemma no_session_after_delete h now x now' u d :
  ¬ live_session (delete_session_stmt h now x d).2 h now' u.
Proof.
  intros (sid & s & Hs & Ht & _). simpl in Hs. apply lookup_delete_where in Hs as [_ Hs].
  apply bool_decide_eq_false in Hs. done.
Qed.

(** ** Signup and login *)

Lemma exec_GetUserByEmail email e es w :
  reliable e →
  exec (e :: es) (GetUserByEmail email) w
  = (Some (match select_where (email_is email) (tbl_users (w_db w)) with
           | [] => inl (ESentinel ErrUserNotFound)
           | u :: _ => inr u
           end, es), w).
Proof.
  intros He. unfold GetUserByEmail, scanUser, exec_sql. rewrite exec_request, sql_ok by done.
  simpl. destruct (select_where _ _); by destruct w.
Qed.

Lemma select_email d id u email :
  accounts d → tbl_users d !! id = Some u → email_is email u = true →
  select_where (email_is email) (tbl_users d) = [u].
Proof.
  intros Ha Hu Hm. apply (select_where_single _ _ id); [done|done|].
  intros k' a' Hk' Hm'. apply bool_decide_eq_true in Hm, Hm'.
  eapply (acc_email _ _ _ _ Ha); [done|done|]. simpl. congruence.
Qed.

Lemma exec_CheckPassword hash pw e es w :
  exec (e :: es) (CheckPassword hash pw) w
  = (Some (bcrypt_CompareHashAndPassword hash pw, es), w).
Proof. done. Qed.

(** C20. Login does not reveal which emails are registered: for an email nobody has and for a
    registered one with a wrong password, the response is the same 401, nothing is written, and
    the same requests are made in the same order, one query and one bcrypt computation, so the
    two cannot be told apart by their timing. *)
Theorem login_hides_registered_emails r req e1 e2 es w1 w2 id u err :
  decodeCredentials r = inr req → reliable e1 → reliable e2 →
  email_free (crEmail req) (w_db w1) →
  accounts (w_db w2) → tbl_users (w_db w2) !! id = Some u → email_is (crEmail req) u = true →
  bcrypt_CompareHashAndPassword (User.PasswordHash u) (crPassword req) = Some err →
  let denied := writeError StatusUnauthorized "invalid email or password" in
  exec (e1 :: e2 :: es) (login cfg r) w1 = (Some (denied, es), w1)
  ∧ exec (e1 :: e2 :: es) (login cfg r) w2 = (Some (denied, es), w2)
  ∧ trace (e1 :: e2 :: es) (login cfg r) w1 = [EvSql; EvBcrypt]
  ∧ trace (e1 :: e2 :: es) (login cfg r) w2 = [EvSql; EvBcrypt].
Proof.
  intros Hreq He1 He2 Hfree%select_email_free Ha Hu Hm Hc. cbn zeta.
  pose proof (select_email _ _ _ _ Ha Hu Hm) as Hs. unfold login. rewrite Hreq. split_and!.
  - rewrite exec_bind, exec_GetUserByEmail, Hfree by done. reflexivity.
  - rewrite exec_bind, exec_GetUserByEmail, Hs by done.
    by rewrite exec_bind, exec_CheckPassword, Hc.
  - unfold GetUserByEmail, scanUser, exec_sql. rewrite bind_assoc, trace_request, sql_ok by done.
    cbn [select_users_stmt fst snd kind]. by rewrite Hfree.
  - unfold GetUserByEmail, scanUser, exec_sql. rewrite bind_assoc, trace_request, sql_ok by done.
    cbn [select_users_stmt fst snd kind]. rewrite Hs. cbn [query_row bind].
    unfold CheckPassword, bcrypt_work. rewrite bind_assoc, trace_request. cbn [interp fst snd bind kind].
    by rewrite Hc.
Qed.

Section Signup.
Context (r : Request) (req : credentialsRequest) (h : string) (p1 p2 p3 p4 p5 p6 p7 : reply) (w : world R).
Context (tid uid : uuid) (us : list uuid).
Hypothesis Hreq : decodeCredentials r = inr req.
Hypothesis Hok1 : reliable p1.
Hypothesis Hok3 : reliable p3.
Hypothesis Hok4 : reliable p4.
Hypothesis Hok6 : reliable p6.
Hypothesis Hhash :
  bcrypt_GenerateFromPassword (random_bytes bcrypt_salt_bytes (r_rand p1)) (crPassword req) = inr h.
Hypothesis Hids : r_uuids p3 = tid :: uid :: us.
Hypothesis Htid : tbl_tenants (w_db w) !! tid = None.
Hypothesis Huid : tbl_users (w_db w) !! uid = None.

Lemma exec_HashPassword es :
  exec (p1 :: p2 :: es) (HashPassword (crPassword req)) w = (Some (inr h, es), w).
Proof.
  unfold HashPassword, rand_Read. rewrite exec_request. cbn [interp fst snd].
  rewrite (proj1 Hok1). unfold bcrypt_work. rewrite exec_request. cbn [exec]. by rewrite Hhash.
Qed.

Lemma exec_CreateAccount es :
  exec (p3 :: es) (CreateAccount (crEmail req) h) w
  = match select_where (email_is (crEmail req)) (tbl_users (w_db w)) with
    | [] => (Some (inr (Tenant.mkTenant tid (crEmail req) (r_now p3),
                        User.mkUser uid tid (crEmail req) h (r_now p3)), es),
             with_db (account_created (r_now p3) tid uid (crEmail req) h (w_db w)) w)
    | _ => (Some (inl (ESentinel ErrEmailTaken), es), w)
    end.
Proof.
  unfold CreateAccount, exec_tx, request. rewrite exec_call, tx_ok, Hids, create_account_run by done.
  destruct (select_where _ _); [by rewrite decide_True|rewrite decide_False by done].
  simpl. by destruct w.
Qed.

Definition signed_up : world R :=
  with_db (account_created (r_now p3) tid uid (crEmail req) h (w_db w)) w.
Definition new_user : User := User.mkUser uid tid (crEmail req) h (r_now p3).

Lemma signup_run es :
  email_free (crEmail req) (w_db w) →
  tbl_sessions (w_db w) !! r_uuid p6 = None → token_free (token_hash p4) (w_db w) →
  exec (p1 :: p2 :: p3 :: p4 :: p5 :: p6 :: p7 :: es) (signup cfg r) w
  = (Some (with_cookie (new_cookie p4 p5 p7) (writeJSON StatusCreated (BUser (json_user new_user))), es),
     with_db (put_session (new_session uid p4 p5 p6) (w_db signed_up)) w).
Proof.
  intros Hfree%select_email_free Hx Hf. unfold signup. rewrite Hreq.
  rewrite exec_bind, exec_HashPassword, exec_bind, exec_CreateAccount, Hfree.
  change (with_db (account_created _ _ _ _ _ _) _) with signed_up.
  rewrite exec_bind, exec_startSession; [done|done|done| |done|done].
  simpl. by rewrite lookup_insert_eq.
Qed.

Definition session_open : world R := with_db (put_session (new_session uid p4 p5 p6) (w_db signed_up)) w.

Lemma session_open_accounts :
  accounts (w_db w) → email_free (crEmail req) (w_db w) →
  tbl_sessions (w_db w) !! r_uuid p6 = None → token_free (token_hash p4) (w_db w) →
  accounts (w_db session_open).
Proof.
  intros Ha Hf Hx Ht. apply (accounts_put_session uid p4 p5 p6 (w_db signed_up)); [|done|done|].
  - by eapply accounts_created.
  - simpl. by rewrite lookup_insert_eq.
Qed.

Lemma session_open_live now :
  accounts (w_db session_open) →
  (∀ u, live_session (w_db session_open) (token_hash p4) now u →
     u = new_user ∧ now < pg_ts (r_now p5 + TTL cfg))
  ∧ (now < pg_ts (r_now p5 + TTL cfg) →
     live_session (w_db session_open) (token_hash p4) now new_user).
Proof.
  intros Ha. apply (live_session_put (new_session uid p4 p5 p6) (w_db signed_up) new_user now Ha).
  simpl. by rewrite lookup_insert_eq.
Qed.
End Signup.

(** C22. A session from signup to its end: signing up with a free email creates the tenant, its
    user and a session, and answers 201 with the user and the session's cookie. Until the
    expiry the cookie admits requests as that user, for that tenant; from the expiry on it is
    refused; and logging out with it removes the session, so that it is refused at once. *)
Theorem signup_opens_a_session r req h p1 p2 p3 p4 p5 p6 p7 tid uid us w es :
  accounts (w_db w) → decodeCredentials r = inr req →
  reliable p1 → reliable p3 → reliable p4 → reliable p6 →
  bcrypt_GenerateFromPassword (random_bytes bcrypt_salt_bytes (r_rand p1)) (crPassword req) = inr h →
  r_uuids p3 = tid :: uid :: us → email_free (crEmail req) (w_db w) →
  tbl_tenants (w_db w) !! tid = None → tbl_users (w_db w) !! uid = None →
  tbl_sessions (w_db w) !! r_uuid p6 = None → token_free (token_hash p4) (w_db w) →
  let user := User.mkUser uid tid (crEmail req) h (r_now p3) in
  let expiry := pg_ts (r_now p5 + TTL cfg) in
  ∃ c w1,
    exec (p1 :: p2 :: p3 :: p4 :: p5 :: p6 :: p7 :: es) (signup cfg r) w
    = (Some (with_cookie c (writeJSON StatusCreated (BUser (json_user user))), es), w1)
    ∧ tbl_tenants (w_db w1) !! tid = Some (Tenant.mkTenant tid (crEmail req) (r_now p3))
    ∧ tbl_users (w_db w1) !! uid = Some user
    ∧ ∀ r' e es', Cookie r' (CookieName cfg) = Some (cValue c) → reliable e →
        (∀ next, exec (e :: es') (RequireSession cfg next r') w1
                 = if r_now e <? expiry
                   then exec es' (next {| r' with Ctx := WithUser (WithTenant (Ctx r') tid) user |}) w1
                   else (Some (writeError StatusUnauthorized "authentication required", es'), w1))
        ∧ ∃ w2,
            exec (e :: es') (logout cfg r') w1
            = (Some (with_cookie (clearSessionCookie cfg) no_content, es'), w2)
            ∧ ∀ next e2 es2, reliable e2 →
                exec (e2 :: es2) (RequireSession cfg next r') w2
                = (Some (writeError StatusUnauthorized "authentication required", es2), w2).
Proof.
  intros Ha Hreq H1' H3' H4' H6' Hh Hids Hfree Ht Hu Hx Htok user expiry.
  pose proof (session_open_accounts req h p3 p4 p5 p6 w tid uid) as Ha1.
  specialize (Ha1 Ht Hu Ha Hfree Hx Htok).
  exists (new_cookie p4 p5 p7), (session_open req h p3 p4 p5 p6 w tid uid).
  split_and!; [by eapply signup_run|simpl; by rewrite lookup_insert_eq..|].
  intros r' e es' Hc He. split.
  - intros next. destruct (Z.ltb_spec (r_now e) expiry) as [Hn|Hn].
    + rewrite (RequireSession_admits cfg next r' (token_of p4) user); [done..|].
      by apply session_open_live.
    + rewrite (RequireSession_denies cfg next r' (token_of p4)); [done..|].
      intros u [_ Hl]%session_open_live; [|done]. subst expiry. lia.
  - eexists. split; [by apply exec_logout|]. intros next e2 es2 He2.
    rewrite (RequireSession_denies cfg next r' (token_of p4)); [done| |done|done|].
    + by apply (step_accounts _ _ (delete_session_step _ _ _ _)).
    + intros u. apply no_session_after_delete.
Qed.

(** C32. Signing up and logging in agree: after a signup the same credentials log in, with the
    email in any spelling that normalises to the same text, and open a second session; a second
    signup with the email, in any case the database identifies, is answered 409 and changes
    nothing. *)
Theorem signup_then_login `{!BcryptLaws} r req h p1 p2 p3 p4 p5 p6 p7 tid uid us w es :
  accounts (w_db w) → decodeCredentials r = inr req →
  reliable p1 → reliable p3 → reliable p4 → reliable p6 →
  bcrypt_GenerateFromPassword (random_bytes bcrypt_salt_bytes (r_rand p1)) (crPassword req) = inr h →
  r_uuids p3 = tid :: uid :: us → email_free (crEmail req) (w_db w) →
  tbl_tenants (w_db w) !! tid = None → tbl_users (w_db w) !! uid = None →
  tbl_sessions (w_db w) !! r_uuid p6 = None → token_free (token_hash p4) (w_db w) →
  let user := User.mkUser uid tid (crEmail req) h (r_now p3) in
  ∃ resp w1,
    exec (p1 :: p2 :: p3 :: p4 :: p5 :: p6 :: p7 :: es) (signup cfg r) w = (Some (resp, es), w1)
    ∧ (∀ r' q1 q2 q3 q4 q5 q6 es', decodeCredentials r' = inr req →
         reliable q1 → reliable q3 → reliable q5 →
         tbl_sessions (w_db w1) !! r_uuid q5 = None → token_free (token_hash q3) (w_db w1) →
         exec (q1 :: q2 :: q3 :: q4 :: q5 :: q6 :: es') (login cfg r') w1
         = (Some (with_cookie (new_cookie q3 q4 q6) (writeJSON StatusOK (BUser (json_user user))), es'),
            with_db (put_session (new_session uid q3 q4 q5) (w_db w1)) w1))
    ∧ ∀ r' req' h' q1 q2 q3 tid' uid' us' es', decodeCredentials r' = inr req' →
        pg_lower (crEmail req') = pg_lower (crEmail req) →
        reliable q1 → reliable q3 → r_uuids q3 = tid' :: uid' :: us' →
        bcrypt_GenerateFromPassword (random_bytes bcrypt_salt_bytes (r_rand q1)) (crPassword req')
        = inr h' →
        tbl_tenants (w_db w1) !! tid' = None → tbl_users (w_db w1) !! uid' = None →
        exec (q1 :: q2 :: q3 :: es') (signup cfg r') w1
        = (Some (writeError StatusConflict "email already registered", es'), w1).
Proof.
  intros Ha Hreq H1' H3' H4' H6' Hh Hids Hfree Ht Hu Hx Htok user.
  pose proof (session_open_accounts req h p3 p4 p5 p6 w tid uid) as Ha1.
  specialize (Ha1 Ht Hu Ha Hfree Hx Htok).
  eexists _, (session_open req h p3 p4 p5 p6 w tid uid). split; [by eapply signup_run|].
  assert (tbl_users (w_db (session_open req h p3 p4 p5 p6 w tid uid)) !! uid = Some user) as Huser
    by (simpl; by rewrite lookup_insert_eq).
  split.
  - intros r' q1 q2 q3 q4 q5 q6 es' Hr' Hq1 Hq3 Hq5 Hxq Htq. unfold login. rewrite Hr'.
    rewrite exec_bind, exec_GetUserByEmail by done.
    rewrite (select_email _ uid user (crEmail req)); [|done|done|by apply bool_decide_eq_true].
    rewrite exec_bind, exec_CheckPassword. change (User.PasswordHash user) with h.
    rewrite (bcrypt_accepts _ _ _ Hh).
    by rewrite exec_bind, exec_startSession.
  - intros r' req' h' q1 q2 q3 tid' uid' us' es' Hr' Hemail Hq1 Hq3 Hids' Hh' Ht' Hu'.
    unfold signup. rewrite Hr', exec_bind, (exec_HashPassword req' h') by done.
    rewrite exec_bind, (exec_CreateAccount req' h' q3 _ tid' uid' us') by done.
    rewrite (select_email _ uid user (crEmail req')); [done|done|done|].
    by apply bool_decide_eq_true.
Qed.
End AuthApiFacts.

(** ** Instances *)

Definition sample_credentials : Request :=
  {| (sample_get EmptyString EmptyString) with
     Body := Some (JObj [("email", JStr " Ada@Example.com "); ("password", JStr "correct horse")])%string |}.

Definition sample_req : credentialsRequest := mkCredentials "ada@example.com" "correct horse".

Definition sample_user : User := User.mkUser 5%N demo_tenant "ada@example.com" "$2a$10$another" 0.

Definition user_db : DB := {| demo_db with tbl_users := {[5%N := sample_user]} |}.

(** A transaction that draws the UUIDs 8 and 9. *)
Definition ok_tx (t : Z) : reply := mkReply FOk t 0%N false [] [8%N; 9%N] [].

Lemma sample_decodes : decodeCredentials sample_credentials = inr sample_req.
Proof. vm_compute. reflexivity. Qed.

Lemma demo_email_free : email_free (crEmail sample_req) demo_db.
Proof. intros id u Hu. simpl in Hu. by rewrite lookup_empty in Hu. Qed.

Lemma demo_token_free h : token_free h demo_db.
Proof. intros id s Hs. simpl in Hs. by rewrite lookup_empty in Hs. Qed.

Lemma user_db_accounts : accounts user_db.
Proof.
  destruct demo_accounts. constructor; unfold keyed, unique_on, references in *; simpl in *; try done.
  - by intros k u [<- <-]%lookup_singleton_Some.
  - by intros k k' u u' [<- _]%lookup_singleton_Some [<- _]%lookup_singleton_Some.
  - intros k u [_ <-]%lookup_singleton_Some. by eexists.
Qed.

Lemma login_hides_registered_emails_witness :
  (exec [ok_at 1 0%N; ok_at 2 0%N] (login sample_sessions sample_credentials) demo_world).1
  = (exec [ok_at 1 0%N; ok_at 2 0%N] (login sample_sessions sample_credentials)
       (with_db user_db demo_world)).1.
Proof.
  destruct (login_hides_registered_emails sample_sessions sample_credentials sample_req
              (ok_at 1 0%N) (ok_at 2 0%N) [] demo_world (with_db user_db demo_world) 5%N sample_user
              (EText "crypto/bcrypt: hashedPassword is not the hash of the given password"))
    as (E1 & E2 & _).
  - exact sample_decodes.
  - apply ok_at_reliable.
  - apply ok_at_reliable.
  - exact demo_email_free.
  - exact user_db_accounts.
  - reflexivity.
  - reflexivity.
  - vm_compute. reflexivity.
  - by rewrite E1, E2.
Defined.

Lemma signup_opens_a_session_witness :
  ∃ c w1,
    exec [ok_at 1 0%N; ok_at 2 0%N; ok_tx 3; ok_at 4 0%N; ok_at 5 0%N; ok_at 6 10%N; ok_at 7 0%N]
      (signup sample_sessions sample_credentials) demo_world
    = (Some (with_cookie c (writeJSON 201
               (BUser (mkUserJSON 9%N 8%N "ada@example.com" 3))), []), w1).
Proof.
  destruct (signup_opens_a_session sample_sessions sample_credentials sample_req
              "$2a$10$correct horse" (ok_at 1 0%N) (ok_at 2 0%N) (ok_tx 3) (ok_at 4 0%N) (ok_at 5 0%N)
              (ok_at 6 10%N) (ok_at 7 0%N) 8%N 9%N [] demo_world [])
    as (c & w1 & Hrun & _).
  - exact demo_accounts.
  - exact sample_decodes.
  - apply ok_at_reliable.
  - by split_and!.
  - apply ok_at_reliable.
  - apply ok_at_reliable.
  - reflexivity.
  - reflexivity.
  - exact demo_email_free.
  - reflexivity.
  - reflexivity.
  - reflexivity.
  - apply demo_token_free.
  - exists c, w1. exact Hrun.
Defined.

Lemma signup_then_login_witness :
  ∃ resp w1,
    exec [ok_at 1 0%N; ok_at 2 0%N; ok_tx 3; ok_at 4 0%N; ok_at 5 0%N; ok_at 6 10%N; ok_at 7 0%N]
      (signup sample_sessions sample_credentials) demo_world = (Some (resp, []), w1).
Proof.
  destruct (signup_then_login sample_sessions sample_credentials sample_req
              "$2a$10$correct horse" (ok_at 1 0%N) (ok_at 2 0%N) (ok_tx 3) (ok_at 4 0%N) (ok_at 5 0%N)
              (ok_at 6 10%N) (ok_at 7 0%N) 8%N 9%N [] demo_world [])
    as (resp & w1 & Hrun & _).
  - exact demo_accounts.
  - exact sample_decodes.
  - apply ok_at_reliable.
  - by split_and!.
  - apply ok_at_reliable.
  - apply ok_at_reliable.
  - reflexivity.
  - reflexivity.
  - exact demo_email_free.
  - reflexivity.
  - reflexivity.
  - reflexivity.
  - apply demo_token_free.
  - exists resp, w1. exact Hrun.
Defined.
