(* ===== verification/JobStore.v ===== *)
(** * What the methods of the store promise to their callers *)
From S2P Require Import Prelude GoStd Models Interfaces Db Effects Samples Store Lifecycle.
From S2P Require Import StoreFacts.
Open Scope Z_scope.

Section JobStore.
Context `{Postgres} {R : Type}.
Implicit Types (w : world R) (e : reply) (d : DB).

(** Claiming is exclusive: of two successive claims of a job, the first one
    that finds it pending moves it to processing and gets the row; the next one, and a claim of
    a job that is not pending or not there, gets [ErrJobNotClaimable] and changes nothing. *)
Theorem ClaimJob_is_exclusive id e1 e2 es w :
  reliable e1 → reliable e2 → keyed Job.ID (tbl_jobs (w_db w)) →
  exec (e1 :: e2 :: es) (let! a := ClaimJob id in let! b := ClaimJob id in Ret (a, b)) w
  = match tbl_jobs (w_db w) !! id with
    | Some j =>
        if decide (Job.Status j = StatusPending) then
          (Some ((inr (claimed_row (r_now e1) j), inl (ESentinel ErrJobNotClaimable)), es),
           with_db (put_job id (claimed_row (r_now e1) j) (w_db w)) w)
        else (Some ((inl (ESentinel ErrJobNotClaimable), inl (ESentinel ErrJobNotClaimable)), es), w)
    | None => (Some ((inl (ESentinel ErrJobNotClaimable), inl (ESentinel ErrJobNotClaimable)), es), w)
    end.
Proof.
  intros He1 He2 Hk. unfold ClaimJob, exec_sql.
  rewrite exec_bind, exec_request, sql_ok, claim_job_stmt_spec by done.
  destruct (tbl_jobs (w_db w) !! id) as [j|] eqn:Hj; [case_decide as Hs|].
  - cbn [exec fst snd]. rewrite exec_bind, exec_request, sql_ok by done.
    rewrite claim_job_stmt_spec.
    + simpl. by rewrite lookup_insert_eq.
    + apply keyed_insert; [done|]. exact (Hk _ _ Hj).
  - cbn [exec fst snd]. rewrite exec_bind, exec_request, sql_ok by done.
    rewrite claim_job_stmt_spec by done. simpl. rewrite Hj, decide_False by done. by destruct w.
  - cbn [exec fst snd]. rewrite exec_bind, exec_request, sql_ok by done.
    rewrite claim_job_stmt_spec by done. simpl. rewrite Hj. by destruct w.
Qed.

(** C25. Dead-lettering is all or nothing: whatever fails inside the transaction, either the
    tables are untouched and an error is reported, or the job is failed and its dead-letter row
    written; without an error it is the latter. *)
Theorem DeadLetter_is_atomic id n reason j e es w :
  keyed Job.ID (tbl_jobs (w_db w)) → tbl_jobs (w_db w) !! id = Some j → in_int32 n = true →
  ∃ err w', exec (e :: es) (DeadLetter id n reason) w = (Some (err, es), w')
    ∧ ((err ≠ None ∧ w' = w)
       ∨ w' = with_db (dead_lettered (w_db w) (r_now e) n reason j) w).
Proof.
  intros Hk Hj Hn. pose proof (Hk _ _ Hj) as Hid. subst id.
  unfold DeadLetter, exec_tx. rewrite exec_request. simpl.
  destruct (dead_letter_tx_atomic (w_db w) j n reason (r_faults e) (r_now e) (r_uuids e) Hk Hj Hn)
    as [[err ->]|[[err ->]| ->]]; eexists _, _; (split; [done|]).
  - left. split; [done|]. by destruct w.
  - by right.
  - by right.
Qed.

(** C26. A manual retry acts only for the owning tenant and only on a failed job: then the job
    is pending again with its budget, error and result cleared and its dead-letter row gone,
    together or not at all; in every other case an error is reported and nothing changes. *)
Theorem RetryJob_revives_only_failed_jobs tid id e es w :
  keyed Job.ID (tbl_jobs (w_db w)) → keyed DLQRow.JobID (tbl_dead_letter_queue (w_db w)) →
  ∃ r w', exec (e :: es) (RetryJob tid id) w = (Some (r, es), w')
    ∧ (∀ j, r = inr j → ∃ j0, tbl_jobs (w_db w) !! id = Some j0 ∧ Job.TenantID j0 = tid
          ∧ Job.Status j0 = StatusFailed ∧ j = reset_row (r_now e) j0
          ∧ w' = with_db (revived (w_db w) (r_now e) j0) w)
    ∧ (w' ≠ w → ∃ j0, tbl_jobs (w_db w) !! id = Some j0 ∧ Job.TenantID j0 = tid
          ∧ Job.Status j0 = StatusFailed ∧ w' = with_db (revived (w_db w) (r_now e) j0) w)
    ∧ (reliable e →
       match visible tid id (w_db w) with
       | None => r = inl (ESentinel ErrJobNotFound)
       | Some j0 => if decide (Job.Status j0 = StatusFailed) then r = inr (reset_row (r_now e) j0)
                    else r = inl (ESentinel ErrJobNotRetryable)
       end).
Proof.
  intros Hk Hq. unfold RetryJob, exec_tx. cbn [request exec interp].
  pose proof (retry_job_tx_atomic (w_db w) tid id (r_faults e) (r_now e) (r_uuids e) Hk Hq) as Ht.
  pose proof (retry_job_tx_ok (w_db w) tid id (r_now e) (r_uuids e) Hk Hq) as Hok.
  destruct (run_tx _ (r_faults e) _ _ _) as [x d'] eqn:Ex. exists x, (with_db d' w).
  split; [done|]. cbn zeta in Ht.
  assert (reliable e → (x, d') = run_tx (retry_job_tx tid id) [] (r_now e) (r_uuids e) (w_db w))
    as Hrel by (intros (_ & E & _); by rewrite <- Ex, E).
  unfold visible in *. destruct (tbl_jobs (w_db w) !! id) as [j0|] eqn:Hj.
  2: { destruct Ht as [err [= -> ->]]. split_and!; [done|by destruct w|].
       intros Hr. rewrite Hok in Hrel. by injection (Hrel Hr) as ->. }
  destruct (decide (Job.TenantID j0 = tid)) as [Htid|Htid].
  2: { destruct Ht as [err [= -> ->]]. split_and!; [done|by destruct w|].
       intros Hr. rewrite Hok in Hrel. by injection (Hrel Hr) as ->. }
  destruct (decide (Job.Status j0 = StatusFailed)) as [Hs|Hs].
  2: { destruct Ht as [err [= -> ->]]. split_and!; [done|by destruct w|].
       intros Hr. rewrite Hok in Hrel. by injection (Hrel Hr) as ->. }
  split_and!.
  - intros j ->. destruct Ht as [[err [=]]|[[err [=]]|[= -> ->]]]. eauto 6.
  - intros Hw. destruct Ht as [[err [= -> ->]]|[[err [= -> ->]]|[= -> ->]]]; [|eauto 6..].
    by destruct w.
  - intros Hr. rewrite Hok in Hrel. by injection (Hrel Hr) as ->.
Qed.

Lemma CancelJob_run tid id e1 e2 es w :
  reliable e1 → reliable e2 → keyed Job.ID (tbl_jobs (w_db w)) →
  exec (e1 :: e2 :: es) (CancelJob tid id) w
  = match visible tid id (w_db w) with
    | None => (Some (inl (ESentinel ErrJobNotFound), es), w)
    | Some j =>
        if decide (Job.Status j = StatusPending) then
          (Some (inr (cancelled_row (r_now e1) j), e2 :: es),
           with_db (put_job id (cancelled_row (r_now e1) j) (w_db w)) w)
        else (Some (inl (ESentinel ErrJobNotCancellable), es), w)
    end.
Proof.
  intros He1 He2 Hk. unfold CancelJob, jobExists, exec_sql.
  rewrite exec_request, sql_ok, cancel_job_stmt_spec by done.
  assert (∀ id', (job_exists_stmt tid id' (r_now e2) (r_uuid e2) (w_db w))
                 = (inr (bool_decide (is_Some (visible tid id' (w_db w)))), w_db w)) as Hex.
  { intros id'. unfold job_exists_stmt. rewrite select_visible by done. by destruct (visible _ _ _). }
  unfold visible in *. specialize (Hex id).
  destruct (tbl_jobs (w_db w) !! id) as [j|] eqn:Hj.
  2: { cbn [fst snd errors_Is]. rewrite bool_decide_true by done.
       rewrite exec_bind, exec_request, sql_ok by done. cbn [with_db w_db]. rewrite Hex.
       simpl. by destruct w. }
  destruct (decide (Job.TenantID j = tid)) as [Ht|Ht].
  - destruct (decide (Job.Status j = StatusPending)) as [Hs|Hs].
    + by rewrite decide_True.
    + rewrite decide_False by tauto. cbn [fst snd errors_Is]. rewrite bool_decide_true by done.
      rewrite exec_bind, exec_request, sql_ok by done. cbn [with_db w_db]. rewrite Hex.
      simpl. by destruct w.
  - rewrite decide_False by tauto. cbn [fst snd errors_Is]. rewrite bool_decide_true by done.
    rewrite exec_bind, exec_request, sql_ok by done. cbn [with_db w_db]. rewrite Hex.
    simpl. by destruct w.
Qed.

(** Cancelling acts only for the owning tenant and only on a pending job; otherwise it
    changes nothing and tells "not found", which covers the jobs of other tenants, from "not
    cancellable". *)
Theorem CancelJob_cancels_only_pending_jobs tid id e1 e2 es w :
  reliable e1 → reliable e2 → keyed Job.ID (tbl_jobs (w_db w)) →
  exec (e1 :: e2 :: es) (CancelJob tid id) w
  = match visible tid id (w_db w) with
    | None => (Some (inl (ESentinel ErrJobNotFound), es), w)
    | Some j =>
        if decide (Job.Status j = StatusPending) then
          (Some (inr (cancelled_row (r_now e1) j), e2 :: es),
           with_db (put_job id (cancelled_row (r_now e1) j) (w_db w)) w)
        else (Some (inl (ESentinel ErrJobNotCancellable), es), w)
    end.
Proof. apply CancelJob_run. Qed.

(** ** Creating and reading *)

(** The parameters and constraints an INSERT checks. *)
Definition insertable (job : Job) (pl : RawMessage) (d : DB) : Prop :=
  in_int32 (Job.MaxRetries job) = true ∧ jsonb_param (Job.Payload job) = inr pl ∧ pl ≠ RawNil
  ∧ tbl_jobs d !! Job.ID job = None ∧ is_Some (tbl_tenants d !! Job.TenantID job).

Lemma insert_job_stmt_ok job pl now u d :
  insertable job pl d →
  insert_job_stmt job now u d
  = (inr (inserted_row job pl now), put_job (Job.ID job) (inserted_row job pl now) d).
Proof.
  intros (Hm & Hp & Hnil & Hnone & [tn Ht]). unfold insert_job_stmt.
  rewrite Hm, Hp, Hnone, Ht. by destruct pl.
Qed.

Lemma jsonb_param_error raw err : jsonb_param raw = inl err → foreign_error err.
Proof.
  destruct raw as [|j|x]; simpl; [done| |by intros [= <-]].
  destruct (pg_jsonb j); [done|]. by intros [= <-].
Qed.

Ltac rejected := right; eexists; (split; [reflexivity|by intros]).

Lemma insert_job_stmt_cases job now u d :
  (∃ pl, insertable job pl d)
  ∨ ∃ err, insert_job_stmt job now u d = (inl err, d) ∧ foreign_error err.
Proof.
  unfold insertable, insert_job_stmt.
  destruct (in_int32 (Job.MaxRetries job)); simpl; [|rejected].
  destruct (jsonb_param (Job.Payload job)) as [e|pl] eqn:E; [right; eauto using jsonb_param_error|].
  destruct (tbl_jobs d !! Job.ID job) as [j|]; [destruct pl; rejected|].
  destruct (tbl_tenants d !! Job.TenantID job) as [tn|]; [|destruct pl; rejected].
  destruct pl as [|x|x]; [rejected|left..]; eexists; by split_and!.
Qed.

Lemma exec_GetJob tid id e es w :
  reliable e → keyed Job.ID (tbl_jobs (w_db w)) →
  exec (e :: es) (GetJob tid id) w
  = (Some (match visible tid id (w_db w) with
           | Some j => inr j
           | None => inl (ESentinel ErrJobNotFound)
           end, es), w).
Proof.
  intros He Hk. unfold GetJob, exec_sql. rewrite exec_request, sql_ok by done.
  rewrite get_job_stmt_spec by done. destruct w. simpl. by destruct (visible _ _ _).
Qed.

(** Insert and read back: a job whose columns are acceptable is stored, pending fields and
    defaults filled, and its tenant, and no other tenant, reads the same row back; any other
    job is rejected with an error and nothing is stored. *)
Theorem CreateJob_then_GetJob job tid e1 e2 es w :
  reliable e1 → reliable e2 → keyed Job.ID (tbl_jobs (w_db w)) →
  (∀ pl, insertable job pl (w_db w) →
     let row := inserted_row job pl (r_now e1) in
     exec (e1 :: e2 :: es) (let! c := CreateJob job in
                            let! g := GetJob tid (Job.ID job) in Ret (c, g)) w
     = (Some ((inr row, if decide (tid = Job.TenantID job) then inr row
                        else inl (ESentinel ErrJobNotFound)), es),
        with_db (put_job (Job.ID job) row (w_db w)) w))
  ∧ ((¬ ∃ pl, insertable job pl (w_db w)) →
     ∃ err, exec (e1 :: es) (CreateJob job) w = (Some (inl err, es), w)).
Proof.
  intros He1 He2 Hk. unfold CreateJob, exec_sql. split.
  - intros pl Hins. rewrite exec_request, sql_ok by done.
    rewrite (insert_job_stmt_ok job pl _ _ _ Hins). cbn [fst snd]. rewrite exec_bind.
    rewrite exec_GetJob; [|done|by apply keyed_insert].
    unfold visible, put_job. simpl. rewrite lookup_insert_eq. simpl.
    destruct (decide (tid = Job.TenantID job)); [by rewrite decide_True|by rewrite decide_False].
  - intros Hno. unfold request. rewrite exec_call, sql_ok by done.
    destruct (insert_job_stmt_cases job (r_now e1) (r_uuid e1) (w_db w)) as [?|(err & -> & _)]; [done|].
    exists err. by destruct w.
Qed.

(** ** Listing *)

(** The jobs a filter asks for: the tenant's, on the queue and in the status if given. *)
Definition matches (tid : uuid) (f : JobFilter) (r : Job) : bool :=
  bool_decide (Job.TenantID r = tid)
  && (bool_decide (Queue f = EmptyString) || bool_decide (Job.QueueName r = Queue f))
  && (bool_decide (StatusF f = EmptyString) || bool_decide (Job.Status r = StatusF f)).

(** The numbered placeholders refer to the right arguments, also when more are appended. *)
Lemma list_where_matches tid f extra r :
  where_holds ((list_where tid f).1 ++ extra) (list_where tid f).2 r = matches tid f r.
Proof.
  unfold list_where, add_cond, matches.
  destruct (decide (Queue f = EmptyString)) as [E1|E1];
    destruct (decide (StatusF f = EmptyString)) as [E2|E2];
    rewrite ?(bool_decide_true _ E1), ?(bool_decide_false _ E1),
            ?(bool_decide_true _ E2), ?(bool_decide_false _ E2);
    simpl; rewrite ?andb_true_r, ?andb_assoc; reflexivity.
Qed.

(** Everything a filter matches, newest first. *)
Definition listing (tid : uuid) (f : JobFilter) (d : DB) : list Job :=
  pg_order_by (λ r, - Job.CreatedAt r) (select_where (matches tid f) (tbl_jobs d)).

Lemma select_where_ext {A} (p q : A → bool) (t : gmap uuid A) :
  (∀ a, p a = q a) → select_where p t = select_where q t.
Proof. intros E. unfold select_where. apply list_filter_iff. intros a. by rewrite E. Qed.

Context `{!PostgresLaws}.

Lemma exec_ListJobs tid f e1 e2 es w :
  reliable e1 → reliable e2 → 0 ≤ Limit f → 0 ≤ Offset f →
  let all := listing tid f (w_db w) in
  exec (e1 :: e2 :: es) (ListJobs tid f) w
  = (Some (inr (take (Z.to_nat (Limit f)) (drop (Z.to_nat (Offset f)) all), Z.of_nat (length all)),
           es), w).
Proof.
  intros He1 He2 Hl Ho all.
  unfold ListJobs. destruct (list_where tid f) as [args conds] eqn:E.
  assert (∀ extra, select_where (where_holds (args ++ extra) conds) (tbl_jobs (w_db w))
                   = select_where (matches tid f) (tbl_jobs (w_db w))) as Hsel.
  { intros extra. apply select_where_ext. intros r.
    rewrite <- (list_where_matches tid f extra r). by rewrite E. }
  pose proof (Hsel []) as Hsel0. rewrite app_nil_r in Hsel0.
  unfold exec_sql. rewrite exec_request, sql_ok by done. unfold count_stmt at 1. cbn [fst].
  unfold exec_sql. rewrite exec_request, sql_ok by done. unfold page_stmt, placeholder.
  cbn [with_db w_db count_stmt snd]. rewrite length_app. simpl (length [_; _]).
  replace (length args + 2 - 1)%nat with (S (length args)) by lia.
  replace (length args + 2)%nat with (S (S (length args))) by lia.
  rewrite !lookup_app_r by lia.
  replace (length args - length args)%nat with 0%nat by lia.
  replace (S (length args) - length args)%nat with 1%nat by lia. simpl.
  destruct (Z.ltb_spec (Limit f) 0); [lia|]. destruct (Z.ltb_spec (Offset f) 0); [lia|].
  simpl. rewrite Hsel0, Hsel. unfold all, listing.
  rewrite (Permutation_length (pg_order_by_perm _ _)). by destruct w.
Qed.

(** C28. Listing: the answer is the requested page of the tenant's matching jobs, newest first,
    and the number of all of them; the generated SQL's placeholders line up with its arguments
    whatever filters are present; every job listed belongs to the tenant. *)
Theorem ListJobs_answers_the_page tid f e1 e2 es w :
  reliable e1 → reliable e2 → 0 ≤ Limit f → 0 ≤ Offset f →
  let all := listing tid f (w_db w) in
  let page := take (Z.to_nat (Limit f)) (drop (Z.to_nat (Offset f)) all) in
  exec (e1 :: e2 :: es) (ListJobs tid f) w = (Some (inr (page, Z.of_nat (length all)), es), w)
  ∧ StronglySorted (key_le (λ r, - Job.CreatedAt r)) all
  ∧ (∀ j, j ∈ all ↔ matches tid f j = true ∧ ∃ id, tbl_jobs (w_db w) !! id = Some j)
  ∧ (∀ j, j ∈ page → Job.TenantID j = tid).
Proof.
  intros He1 He2 Hl Ho all page.
  assert (∀ j, j ∈ all ↔ matches tid f j = true ∧ ∃ id, tbl_jobs (w_db w) !! id = Some j) as Hall.
  { intros j. unfold all, listing. rewrite pg_order_by_perm. apply elem_of_select_where. }
  split_and!; [|apply pg_order_by_sorted|exact Hall|].
  - by apply exec_ListJobs.
  - intros j Hj. assert (j ∈ all) as [Hm _]%Hall.
    { unfold page in Hj. by eapply elem_of_take_drop. }
    unfold matches in Hm. by apply andb_true_iff in Hm as [[?%bool_decide_eq_true _]%andb_true_iff _].
Qed.

(** Pagination loses and repeats nothing: over an unchanged table, the first [k] pages of
    a size put together are the first [k * size] jobs of the listing. *)
Theorem pages_partition_the_listing tid q st size k d :
  concat ((λ i : nat,
      let f := mkJobFilter q st (Z.of_nat size) (Z.of_nat (i * size)) in
      take (Z.to_nat (Limit f)) (drop (Z.to_nat (Offset f)) (listing tid f d))) <$> seq 0 k)
  = take (k * size) (listing tid (mkJobFilter q st 0 0) d).
Proof.
  assert (∀ i, listing tid (mkJobFilter q st (Z.of_nat size) (Z.of_nat (i * size))) d
               = listing tid (mkJobFilter q st 0 0) d) as E by done.
  generalize dependent (listing tid (mkJobFilter q st 0 0) d). intros l E.
  induction k as [|k IH]; [done|].
  rewrite seq_S, fmap_app, concat_app, IH. simpl. rewrite E, app_nil_r, !Nat2Z.id.
  rewrite Nat.add_comm. apply take_take_drop.
Qed.
End JobStore.

(** ** Instances *)

Lemma ClaimJob_is_exclusive_witness :
  let j := sample_job StatusPending 0 3 in
  (exec [ok_at 1 0%N; ok_at 2 0%N]
     (let! a := ClaimJob 7%N in let! b := ClaimJob 7%N in Ret (a, b)) (sample_world j)).1
  = Some ((inr (claimed_row 1 j), inl (ESentinel ErrJobNotClaimable)), []).
Proof.
  intros j. rewrite (ClaimJob_is_exclusive 7%N (ok_at 1 0%N) (ok_at 2 0%N)).
  - vm_compute. reflexivity.
  - apply ok_at_reliable.
  - apply ok_at_reliable.
  - apply sample_keyed.
Defined.

(** The COMMIT's answer is lost. *)
Lemma DeadLetter_is_atomic_witness :
  let j := sample_job StatusProcessing 0 1 in
  let e := mkReply FOk 1 0%N false [FOk; FOk; FOk; FUnknown (EText "timeout")] [] [] in
  ∃ err w', exec [e] (DeadLetter 7%N 1 "boom") (sample_world j) = (Some (err, []), w').
Proof.
  intros j e.
  destruct (DeadLetter_is_atomic 7%N 1 "boom" j e [] (sample_world j)) as (err & w' & Hx & _).
  - apply sample_keyed.
  - apply (sample_lookup j).
  - reflexivity.
  - exists err, w'. exact Hx.
Defined.

Lemma RetryJob_revives_only_failed_jobs_witness :
  let w := sample_world (sample_job StatusPending 0 3) in
  ∃ r w', exec [ok_at 1 0%N] (RetryJob demo_tenant 7%N) w = (Some (r, []), w').
Proof.
  intros w.
  destruct (RetryJob_revives_only_failed_jobs demo_tenant 7%N (ok_at 1 0%N) [] w)
    as (r & w' & Hx & _).
  - apply sample_keyed.
  - apply sample_dlq_keyed.
  - exists r, w'. exact Hx.
Defined.

Lemma CancelJob_cancels_only_pending_jobs_witness :
  let j := sample_job StatusPending 0 3 in
  (exec [ok_at 1 0%N; ok_at 2 0%N] (CancelJob demo_tenant 7%N) (sample_world j)).1
  = Some (inr (cancelled_row 1 j), [ok_at 2 0%N]).
Proof.
  intros j. rewrite (CancelJob_cancels_only_pending_jobs demo_tenant 7%N).
  - vm_compute. reflexivity.
  - apply ok_at_reliable.
  - apply ok_at_reliable.
  - apply sample_keyed.
Defined.

Lemma CreateJob_then_GetJob_witness :
  let j := sample_job StatusPending 0 3 in
  (exec [ok_at 1 0%N; ok_at 2 0%N]
     (let! c := CreateJob j in let! g := GetJob 2%N (Job.ID j) in Ret (c, g)) demo_world).1
  = Some ((inr (inserted_row j (Job.Payload j) 1), inl (ESentinel ErrJobNotFound)), []).
Proof.
  intros j.
  destruct (CreateJob_then_GetJob j 2%N (ok_at 1 0%N) (ok_at 2 0%N) [] demo_world) as [Hc _].
  - apply ok_at_reliable.
  - apply ok_at_reliable.
  - intros k a Ha. unfold demo_world in Ha. simpl in Ha. by rewrite lookup_empty in Ha.
  - rewrite (Hc (Job.Payload j)); [reflexivity|].
    split_and!; [reflexivity|reflexivity|discriminate|reflexivity|by eexists].
Defined.

Lemma ListJobs_answers_the_page_witness :
  let w := sample_world (sample_job StatusPending 0 3) in
  let f := mkJobFilter "default" "pending" 20 0 in
  ∃ page n, exec [ok_at 1 0%N; ok_at 2 0%N] (ListJobs demo_tenant f) w
            = (Some (inr (page, n), []), w).
Proof.
  intros w f.
  destruct (ListJobs_answers_the_page demo_tenant f (ok_at 1 0%N) (ok_at 2 0%N) [] w) as (Hx & _).
  - apply ok_at_reliable.
  - apply ok_at_reliable.
  - discriminate.
  - discriminate.
  - eexists _, _. exact Hx.
Defined.
