(* ===== verification/EnqueueFacts.v ===== *)
(** * The producer path: what [Submit] leaves behind, whatever fails *)
From S2P Require Import Prelude GoStd Models Interfaces Db Effects Samples Store Queue Enqueue.
From S2P Require Import Lifecycle QueueFacts StoreFacts JobStore.
Open Scope Z_scope.

Section EnqueueFacts.
Context `{Postgres} `{UUIDLib} `{GoText} {R : Type} `{Redis R}.
Implicit Types (w : world R) (e : reply) (job : Job).

(** The defaults, given the UUID that is drawn when the job has none. *)
Definition with_defaults (u : uuid) (job : Job) : Job :=
  {| job with
     Job.ID := if decide (Job.ID job = uuid_Nil) then u else Job.ID job;
     Job.QueueName := if decide (Job.QueueName job = EmptyString) then "default"%string
                      else Job.QueueName job;
     Job.Payload := match Job.Payload job with RawNil => RawJSON (JObj []) | p => p end;
     Job.Status := if decide (Job.Status job = EmptyString) then StatusPending
                   else Job.Status job |}.

Lemma wp_applyDefaults E job (Q : option Job → world R → Prop) w :
  Q None w → (∀ u, Q (Some (with_defaults u job)) w) → wp E (applyDefaults job) Q w.
Proof.
  intros Hnone Hsome. unfold applyDefaults, with_defaults in *.
  apply wp_bind. case_decide as Hid.
  - apply wp_bind. split; [done|]. intros e He. cbn.
    specialize (Hsome (r_uuid e)).
    destruct job as [id tid q ty pl st res err rc mr sa sta ca cr up]; simpl in *.
    destruct pl; destruct (decide (q = EmptyString)); simpl in *;
      destruct (decide (st = EmptyString)); exact Hsome.
  - cbn. specialize (Hsome uuid_Nil).
    destruct job as [id tid q ty pl st res err rc mr sa sta ca cr up]; simpl in *.
    destruct pl; destruct (decide (q = EmptyString)); simpl in *;
      destruct (decide (st = EmptyString)); exact Hsome.
Qed.

(** A job without a tenant is refused before anything is asked of Postgres or Redis. *)
Theorem Submit_refuses_tenantless_jobs job es w :
  Job.TenantID job = uuid_Nil →
  match exec es (Submit job) w with
  | (Some ((err, _), _), w') => err = Some (ESentinel ErrMissingTenant) ∧ w' = w
  | (None, w') => w' = w
  end.
Proof.
  intros Ht.
  pose proof (wp_sound (λ _, True) (Submit job)
                (λ o w', match o with
                         | Some (err, _) => err = Some (ESentinel ErrMissingTenant)
                         | None => True
                         end ∧ w' = w) w es) as Hwp.
  assert (Forall (λ _ : reply, True) es) as Hes by by apply Forall_true.
  lapply Hwp; [intros Hwp'; specialize (Hwp' Hes)|].
  - destruct (exec es (Submit job) w) as [[[[err j] rest]|] w']; simpl in *; tauto.
  - unfold Submit. apply wp_bind, wp_applyDefaults; [done|]. intros u.
    cbn [with_defaults Job.TenantID]. by rewrite decide_True.
Qed.

(** Where [Submit] can leave the tables and Redis: as they were; with the row; with the row
    and its id at the end of its queue. *)
Definition persisted (now : Z) (j : Job) (w w' : world R) : Prop :=
  ∃ pl, insertable j pl (w_db w)
      ∧ w_db w' = put_job (Job.ID j) (inserted_row j pl now) (w_db w).
Definition pushed (j : Job) (w w' : world R) : Prop :=
  w_redis w' = LPUSH (queue_key (Job.QueueName j)) (uuid_String (Job.ID j)) (w_redis w).

(** What is true of [Submit]'s outcome [o] and the world it leaves. *)
Definition submit_post (job : Job) (w : world R) (o : option (option error * Job))
    (w' : world R) : Prop :=
  (w_redis w' = w_redis w ∨ ∃ j now, persisted now j w w' ∧ pushed j w w')
  ∧ match o with
    | None => True
    | Some (None, j) =>
        ∃ j0 now, persisted now j0 w w' ∧ pushed j0 w w'
          ∧ tbl_jobs (w_db w') !! Job.ID j = Some j ∧ Job.Status j = StatusPending
          ∧ Job.TenantID j = Job.TenantID job ∧ Job.JobType j = Job.JobType job
          ∧ Job.MaxRetries j = Job.MaxRetries job ∧ Job.RetryCount j = 0
    | Some (Some err, j) =>
        if errors_Is err ErrEnqueueAfterPersist
        then tbl_jobs (w_db w') !! Job.ID j = Some j ∧ Job.Status j = StatusPending
        else w_redis w' = w_redis w
    end.

(** The push that follows a successful INSERT. *)
Lemma submit_push job j pl now w :
  insertable j pl (w_db w) → Job.Status j = StatusPending →
  Job.TenantID j = Job.TenantID job → Job.JobType j = Job.JobType job →
  Job.MaxRetries j = Job.MaxRetries job →
  let row := inserted_row j pl now in
  let w1 := with_db (put_job (Job.ID j) row (w_db w)) w in
  wp foreign
    (let! e := Queue.Enqueue (Job.QueueName row) (uuid_String (Job.ID row)) in
     Ret (match e with
          | Some e => Some (EWrapV ErrEnqueueAfterPersist e)
          | None => None
          end, row)) (submit_post job w) w1.
Proof.
  intros Hins Hs Ht Hty Hm row w1.
  assert (persisted now j w w1) as Hp by by exists pl.
  assert (tbl_jobs (w_db w1) !! Job.ID row = Some row) as Hrow by apply lookup_insert_eq.
  unfold Queue.Enqueue, redis_cmd. apply wp_bind, wp_bind. split; [split; [by left|done]|].
  intros e _. cbn [interp]. destruct (r_fault e) as [|err|err]; cbn.
  - split; [right; by exists j, now|]. exists j, now. by split_and!.
  - by split; [left|].
  - by split; [right; exists j, now|].
Qed.

Lemma Submit_wp job w :
  Job.Status job = EmptyString → wp foreign (Submit job) (submit_post job w) w.
Proof.
  intros Hs. unfold Submit. apply wp_bind, wp_applyDefaults; [by split; [left|]|]. intros u.
  set (j := with_defaults u job).
  assert (Job.Status j = StatusPending) as Hj
    by (unfold j, with_defaults; simpl; by rewrite decide_True).
  case_decide as Ht; [by split; [left|]|].
  apply wp_bind. unfold CreateJob, exec_sql. split; [by split; [left|]|].
  intros e [Hf _]. cbn [interp].
  assert (∀ err, foreign_error err → submit_post job w (Some (Some (EWrap "persist job" err), j)) w)
    as Herr.
  { intros err He. split; [by left|]. simpl. by rewrite He. }
  destruct (insert_job_stmt_cases j (r_now e) (r_uuid e) (w_db w)) as [[pl Hpl]|(err & Hins & Hfo)].
  - rewrite (insert_job_stmt_ok j pl _ _ _ Hpl).
    destruct (r_fault e) as [|err|err]; cbn [faulty].
    + by apply submit_push.
    + simpl. destruct w. by apply Herr.
    + split; [by left|]. simpl in *. by rewrite Hf.
  - rewrite Hins. destruct w as [d s ms].
    destruct (r_fault e) as [|err'|err']; by apply Herr.
Qed.

(** C13. The durability rule of the producer, at every point where it can stop and for every
    failure of a request: Redis changes only once the row is stored; success means the pending
    row is stored and its id queued; [ErrEnqueueAfterPersist] means the row is stored; and any
    other error means the id was not queued. *)
Theorem Submit_persists_before_enqueue job es w :
  Job.Status job = EmptyString → Forall foreign es →
  let '(o, w') := exec es (Submit job) w in
  (w_redis w' = w_redis w ∨ ∃ j now, persisted now j w w' ∧ pushed j w w')
  ∧ match o with
    | None => True
    | Some ((None, j), _) =>
        ∃ j0 now, persisted now j0 w w' ∧ pushed j0 w w'
          ∧ tbl_jobs (w_db w') !! Job.ID j = Some j ∧ Job.Status j = StatusPending
          ∧ Job.TenantID j = Job.TenantID job ∧ Job.JobType j = Job.JobType job
          ∧ Job.MaxRetries j = Job.MaxRetries job ∧ Job.RetryCount j = 0
    | Some ((Some err, j), _) =>
        if errors_Is err ErrEnqueueAfterPersist
        then tbl_jobs (w_db w') !! Job.ID j = Some j ∧ Job.Status j = StatusPending
        else w_redis w' = w_redis w
    end.
Proof.
  intros Hs Hes.
  pose proof (wp_sound foreign (Submit job) _ w es (Submit_wp job w Hs) Hes) as Hx.
  destruct (exec es (Submit job) w) as [[[[[err|] j] rest]|] w']; exact Hx.
Qed.

(** An undisturbed run, for a job without an id. *)
Lemma Submit_run job pl e1 e2 e3 es w :
  Job.ID job = uuid_Nil → Job.TenantID job ≠ uuid_Nil → reliable e2 → reliable e3 →
  let j := with_defaults (r_uuid e1) job in
  insertable j pl (w_db w) →
  exec (e1 :: e2 :: e3 :: es) (Submit job) w
  = (Some ((None, inserted_row j pl (r_now e2)), es),
     with_redis (LPUSH (queue_key (Job.QueueName j)) (uuid_String (r_uuid e1)) (w_redis w))
       (with_db (put_job (r_uuid e1) (inserted_row j pl (r_now e2)) (w_db w)) w)).
Proof.
  intros Hid Ht He2 He3 j Hins. unfold Submit. rewrite exec_bind.
  assert (exec (e1 :: e2 :: e3 :: es) (applyDefaults job) w = (Some (j, e2 :: e3 :: es), w)) as ->.
  { unfold j, with_defaults, applyDefaults.
    destruct job as [id tid q ty p st res er rc mr sa sta ca cr up]; simpl in *.
    rewrite !decide_True by done. simpl.
    destruct p; destruct (decide (q = EmptyString)); simpl;
      destruct (decide (st = EmptyString)); reflexivity. }
  assert (Job.ID j = r_uuid e1) as Hj by (unfold j, with_defaults; simpl; by rewrite decide_True).
  rewrite decide_False by done.
  unfold CreateJob, exec_sql. rewrite exec_request, sql_ok by done.
  rewrite (insert_job_stmt_ok j pl _ _ _ Hins). cbn [fst snd].
  rewrite exec_bind, exec_Enqueue by done. rewrite <- Hj. reflexivity.
Qed.

(** A plain persist failure does not mean that nothing was written: when the answer to the
    INSERT is lost, [Submit] reports the same "persist job" error, but the pending row is in
    Postgres and its id is on no queue. *)
Theorem lost_insert_answer_leaves_an_unqueued_job job pl now u err ms es w :
  Job.ID job ≠ uuid_Nil → Job.TenantID job ≠ uuid_Nil →
  insertable (with_defaults u job) pl (w_db w) →
  let j := with_defaults u job in
  exec (mkReply (FUnknown err) now u false ms [] [] :: es) (Submit job) w
  = (Some ((Some (EWrap "persist job" err), j), es),
     with_db (put_job (Job.ID job) (inserted_row j pl now) (w_db w)) w).
Proof.
  intros Hid Ht Hins j.
  unfold Submit. assert (applyDefaults (R := R) job = Ret j) as ->.
  { unfold applyDefaults, j, with_defaults.
    destruct job as [id tid q ty p st res er rc mr sa sta ca cr up]; simpl in *.
    rewrite !decide_False by done. cbn.
    destruct p; repeat (case_decide; cbn in * ); done. }
  cbn [bind]. rewrite decide_False by done.
  unfold CreateJob, exec_sql. rewrite exec_request. cbn [interp r_fault r_now r_uuid faulty].
  rewrite (insert_job_stmt_ok j pl _ _ _ Hins). cbn [fst snd exec].
  assert (Job.ID j = Job.ID job) as -> by (unfold j, with_defaults; simpl; by rewrite decide_False).
  reflexivity.
Qed.
End EnqueueFacts.

(** ** Instances *)

(** A job as a producer builds it: no id, no status. *)
Definition sample_submission : Job :=
  {| (sample_job EmptyString 0 3) with Job.ID := uuid_Nil |}.

Lemma Submit_refuses_tenantless_jobs_witness :
  let job := {| sample_submission with Job.TenantID := uuid_Nil |} in
  match exec [ok_at 1 9%N] (Submit job) demo_world with
  | (Some ((err, _), _), w') => err = Some (ESentinel ErrMissingTenant) ∧ w' = demo_world
  | (None, w') => w' = demo_world
  end.
Proof.
  intros job. apply (Submit_refuses_tenantless_jobs job [ok_at 1 9%N] demo_world). reflexivity.
Defined.

Lemma Submit_persists_before_enqueue_witness :
  let '(_, w') := exec [ok_at 1 9%N; ok_at 2 0%N] (Submit sample_submission) demo_world in
  w_redis w' = w_redis demo_world
  ∨ ∃ j now, persisted now j demo_world w' ∧ pushed j demo_world w'.
Proof.
  pose proof (Submit_persists_before_enqueue sample_submission [ok_at 1 9%N; ok_at 2 0%N]
                demo_world) as Hs.
  destruct (exec _ (Submit sample_submission) demo_world) as [o w'].
  apply Hs.
  - reflexivity.
  - repeat constructor.
Defined.

Lemma lost_insert_answer_leaves_an_unqueued_job_witness :
  (exec [mkReply (FUnknown (EText "timeout")) 5 0%N false [] [] []]
     (Submit (sample_job EmptyString 0 3)) demo_world).1
  = Some ((Some (EWrap "persist job" (EText "timeout")), sample_job StatusPending 0 3), []).
Proof.
  rewrite (lost_insert_answer_leaves_an_unqueued_job (sample_job EmptyString 0 3)
             (Job.Payload (sample_job EmptyString 0 3)) 5 0%N (EText "timeout") []).
  - reflexivity.
  - discriminate.
  - discriminate.
  - split_and!; [reflexivity|reflexivity|discriminate|reflexivity|by eexists].
Defined.
