(* ===== verification/RegistryFacts.v ===== *)
(** * Handlers and their registry: what [Dispatch] does with a job *)
From S2P Require Import GoStrings.
From S2P Require Import Prelude GoStd Models Interfaces Db Effects Samples Registry.
Open Scope Z_scope.

Section RegistryFacts.
Context `{UUIDLib} `{GoText} {R : Type}.
Implicit Types (w : world R) (r : Registry R) (o : object).

(** The registry: registering adds exactly one job type and panics on a duplicate; [Types]
    lists exactly the registered types, once each, in order; and the wiring of the built-in
    handlers succeeds. *)
Theorem registry_lists_what_was_registered :
  (∀ r ty h, is_Some (handlers r !! ty) ↔ Register r ty h = None)
  ∧ (∀ r ty h r', Register r ty h = Some r' → ∀ ty', ty' ∈ Types r' ↔ ty' = ty ∨ ty' ∈ Types r)
  ∧ (∀ r, Sorted string_le (Types r) ∧ NoDup (Types r)
        ∧ ∀ ty, ty ∈ Types r ↔ is_Some (handlers r !! ty))
  ∧ ∃ r, DefaultRegistry (R := R) = Some r
       ∧ Types r = ["always_fail"; "echo"; "export_pdf"; "send_email"]%string.
Proof.
  assert (∀ r ty, ty ∈ Types r ↔ is_Some (handlers r !! ty)) as Hin.
  { intros r ty. unfold Types. rewrite merge_sort_Permutation, list_elem_of_fmap. split.
    - intros [[k h] [-> Hk%elem_of_map_to_list]]. by exists h.
    - intros [h Hh]. exists (ty, h). by rewrite elem_of_map_to_list. }
  split_and!.
  - intros r ty h. unfold Register. destruct (handlers r !! ty); split; intros; [done|by eexists| |done].
    by destruct H1.
  - intros r ty h r' [Hnone E]%Register_Some ty'. rewrite !Hin, E, lookup_insert.
    case_decide; naive_solver.
  - intros r. split_and!; [| |apply Hin].
    + pose proof string_le_total. apply Sorted_merge_sort. apply _.
    + unfold Types. rewrite merge_sort_Permutation. apply NoDup_fst_map_to_list.
  - eexists. split; [reflexivity|]. vm_compute. reflexivity.
Qed.

(** ** Payloads *)

Lemma obj_get_insert k k' v o :
  obj_get k (obj_insert k' v o) = if decide (k = k') then Some v else obj_get k o.
Proof.
  induction o as [|[k2 v2] o IH]; [done|]. simpl.
  destruct (String.compare k' k2) eqn:E; simpl.
  - apply String.compare_eq_iff in E as <-. by case_decide.
  - done.
  - rewrite IH. destruct (decide (k = k2)) as [->|]; [|done].
    destruct (decide (k2 = k')) as [->|]; [|done].
    pose proof (String.compare_antisym k' k') as Ha. by rewrite E in Ha.
Qed.

(** The loop of [decode_value] over an object's members. *)
Fixpoint decode_obj (kvs : object) (acc : object) : option object :=
  match kvs with
  | [] => Some acc
  | (k, v) :: kvs' => v' ← decode_value v; decode_obj kvs' (obj_insert k v' acc)
  end.

Lemma decode_value_obj kvs : decode_value (JObj kvs) = JObj <$> decode_obj kvs [].
Proof. reflexivity. Qed.

(** The last member with the key. *)
Definition last_member (k : string) (kvs : object) : option json :=
  snd <$> last (filter (λ kv, kv.1 = k) kvs).

Lemma decode_obj_get kvs acc o k :
  decode_obj kvs acc = Some o →
  obj_get k o = match last_member k kvs with
                | Some v => decode_value v
                | None => obj_get k acc
                end.
Proof.
  revert acc. induction kvs as [|[k1 v1] kvs IH]; intros acc; simpl; [by intros [= <-]|].
  destruct (decode_value v1) as [v'|] eqn:Ev; simpl; [|done]. intros Hd.
  rewrite (IH _ Hd), obj_get_insert. unfold last_member. rewrite filter_cons. simpl.
  destruct (decide (k1 = k)) as [->|Hne].
  - rewrite (decide_True (P := k = k)) by done. rewrite last_cons.
    destruct (last (filter _ kvs)) as [[k2 v2]|]; simpl; [done|by rewrite Ev].
  - rewrite (decide_False (P := k = k1)) by congruence. done.
Qed.

(** Payload decoding is JSON's: an object becomes the map in which a repeated key has its
    last value, decoded; null and an empty payload become the empty map; anything else, and an
    object with an unrepresentable number, is an error. *)
Theorem decodePayload_decodes_objects raw :
  match raw with
  | RawJSON (JObj kvs) =>
      match decodePayload raw with
      | inr o => ∀ k, obj_get k o = last_member k kvs ≫= decode_value
      | inl _ => decode_value (JObj kvs) = None
      end
  | RawNil | RawJSON JNull => decodePayload raw = inr []
  | _ => ∃ e, decodePayload raw = inl e
  end.
Proof.
  destruct raw as [|[| | | | |kvs]|s]; try done; try (simpl; by eexists).
  unfold decodePayload. rewrite decode_value_obj.
  destruct (decode_obj kvs []) as [o|] eqn:Hd; simpl; [|done].
  intros k. rewrite (decode_obj_get _ _ _ k Hd). by destruct (last_member k kvs).
Qed.

(** The built-in handlers, run to the end for a decoded payload: [echo] gives it back,
    [always_fail] fails, [send_email] needs a recipient and reports it, [export_pdf] takes three
    seconds unless shut down and names the document; an unknown type and an undecodable payload
    are errors, without a request. *)
Theorem Dispatch_runs_the_builtin_handlers r ty raw e1 e2 es w :
  DefaultRegistry = Some r →
  let run := (exec (e1 :: e2 :: es) (Dispatch r ty raw) w).1 in
  match handlers r !! ty, decodePayload raw with
  | None, _ => ∃ msg, run = Some (inl (EText msg), e1 :: e2 :: es) ∧ ty ∉ Types r
  | Some _, inl err => run = Some (inl err, e1 :: e2 :: es)
  | Some _, inr o =>
      (ty = "echo"%string ∧ run = Some (inr (RawJSON (JObj o)), e1 :: e2 :: es))
      ∨ (ty = "always_fail"%string ∧ ∃ err, run = Some (inl err, e1 :: e2 :: es))
      ∨ (ty = "send_email"%string ∧
         if decide (get_string "to" o = EmptyString)
         then ∃ err, run = Some (inl err, e1 :: e2 :: es)
         else ∃ kvs, run = Some (inr (RawJSON (JObj kvs)), e2 :: es)
                   ∧ obj_get "to" kvs = Some (JStr (get_string "to" o)))
      ∨ (ty = "export_pdf"%string ∧
         if r_done e1 then run = Some (inl (ESentinel ContextCanceled), e2 :: es)
         else ∃ kvs rest, run = Some (inr (RawJSON (JObj kvs)), rest)
                   ∧ (get_string "document_id" o ≠ EmptyString →
                      obj_get "document_id" kvs = Some (JStr (get_string "document_id" o))))
  end.
Proof.
  intros Hr run. subst run. unfold Dispatch, Get.
  destruct (handlers r !! ty) as [h|] eqn:Hh.
  2: { eexists. split; [done|]. unfold Types. rewrite merge_sort_Permutation, list_elem_of_fmap.
       intros [[k h] [-> Hk%elem_of_map_to_list]]. simpl in Hh. congruence. }
  destruct (decodePayload raw) as [err|o]; [done|].
  apply (DefaultRegistry_handlers r) in Hh; [|done].
  destruct Hh as [[-> ->]|[[-> ->]|[[-> ->]|[-> ->]]]].
  - by left.
  - right. left. split; [done|]. by eexists.
  - right. right. left. split; [done|]. unfold SendEmailHandler.
    case_decide as Hto; [by eexists|]. eexists. split; [reflexivity|reflexivity].
  - right. right. right. split; [done|]. unfold ExportPDFHandler. simpl.
    destruct (r_done e1); [done|]. case_decide as Hd.
    + eexists _, _. split; [reflexivity|done].
    + eexists _, _. split; [reflexivity|done].
Qed.
End RegistryFacts.

(** ** Instances *)

Lemma Dispatch_runs_the_builtin_handlers_witness :
  ∃ r : Registry RefRedis.store, DefaultRegistry = Some r
  ∧ ∃ err, (exec [ok_at 1 0%N; ok_at 2 0%N] (Dispatch r "always_fail" RawNil) demo_world).1
           = Some (inl err, [ok_at 1 0%N; ok_at 2 0%N]).
Proof.
  destruct (DefaultRegistry (R := RefRedis.store)) as [r|] eqn:Hr; [|vm_compute in Hr; discriminate].
  exists r. split; [reflexivity|].
  pose proof (Dispatch_runs_the_builtin_handlers r "always_fail" RawNil (ok_at 1 0%N)
                (ok_at 2 0%N) [] demo_world Hr) as Hd. cbv zeta in Hd.
  destruct (handlers r !! "always_fail"%string) eqn:Eh.
  - simpl decodePayload in Hd. cbv iota beta in Hd.
    destruct Hd as [[? _]|[[_ Hd]|[[? _]|[? _]]]]; [discriminate|exact Hd|discriminate|discriminate].
  - vm_compute in Hr. injection Hr as <-. vm_compute in Eh. discriminate.
Defined.
