(* ===== verification/HttpFacts.v ===== *)
(** * Parameters and isolation of the HTTP API *)
From S2P Require Import Prelude GoStd Models Interfaces Db Effects Samples GoStrings Store Queue.
From S2P Require Import Enqueue Http JobsApi Lifecycle StoreFacts JobStore EnqueueFacts.
From stdpp Require Import pretty.
From Stdlib Require Import Ascii.
Open Scope Z_scope.

(** ** [strconv.Atoi] *)

Lemma digit_value_pretty (n : N) :
  (n < 10)%N → digit_value (pretty_N_char n) = Some (Z.of_N n).
Proof.
  intros Hn. assert (n = 0 ∨ n = 1 ∨ n = 2 ∨ n = 3 ∨ n = 4 ∨ n = 5 ∨ n = 6 ∨ n = 7 ∨ n = 8 ∨ n = 9)%N
    as Hc by lia.
  by repeat destruct Hc as [->|Hc]; [..|subst n].
Qed.

Lemma parse_digits_pretty (n : N) s :
  parse_digits (pretty_N_go n s) 0 = parse_digits s (Z.of_N n).
Proof.
  revert s. induction (N.lt_wf_0 n) as [n _ IH]. intros s.
  destruct (decide (n = 0%N)) as [->|Hn]; [by rewrite pretty_N_go_0|].
  rewrite pretty_N_go_step by lia. rewrite IH by (apply N.div_lt; lia). simpl.
  rewrite digit_value_pretty by (apply N.mod_lt; lia). simpl. f_equal.
  rewrite N2Z.inj_div, N2Z.inj_mod. pose proof (Z.div_mod (Z.of_N n) 10). lia.
Qed.

Lemma parse_unsigned_pretty (n : N) : parse_unsigned (pretty n) = Some (Z.of_N n).
Proof.
  unfold pretty, pretty_N. case_decide as Hn; [by subst|].
  pose proof (parse_digits_pretty n EmptyString) as Hp. simpl in Hp.
  destruct (pretty_N_go n EmptyString) as [|c s] eqn:E; [|exact Hp].
  simpl in Hp. injection Hp as Hp. lia.
Qed.

(** A number's digits do not start with a sign. *)
Lemma parse_unsigned_head s n :
  parse_unsigned s = Some n → ∃ c s', s = String c s' ∧ c ≠ "-"%char ∧ c ≠ "+"%char.
Proof.
  destruct s as [|c s]; [done|]. intros Hp. exists c, s.
  split; [done|]. split; intros ->; discriminate.
Qed.

(** [Atoi] inverts the decimal printing of every 64-bit integer, with or without a plus
    sign, and answers only 64-bit integers. *)
Theorem Atoi_reads_decimals :
  (∀ n, in_int64 n = true → Atoi (pretty n) = Some n)
  ∧ (∀ n : N, in_int64 (Z.of_N n) = true → Atoi (String "+" (pretty n)) = Some (Z.of_N n))
  ∧ ∀ s n, Atoi s = Some n → - 2 ^ 63 ≤ n < 2 ^ 63.
Proof.
  split_and!.
  - intros [|p|p] Hn; [done|..]; unfold Atoi.
    + pose proof (parse_unsigned_pretty (Npos p)) as Hp.
      unfold pretty, pretty_Z, pretty, pretty_positive.
      destruct (parse_unsigned_head _ _ Hp) as (c & s' & E & Hm & Hpl).
      rewrite E in *. rewrite !decide_False by done. rewrite Hp. simpl in *. by rewrite Hn.
    + unfold pretty, pretty_Z, pretty, pretty_positive.
      change ("-" +:+ pretty (N.pos p)) with (String "-" (pretty (N.pos p))).
      pose proof (parse_unsigned_pretty (Npos p)) as Hp.
      cbv iota beta. rewrite decide_True by done. rewrite Hp.
      change (Z.opp <$> Some (Z.of_N (N.pos p))) with (Some (Z.neg p)). cbn [mbind option_bind].
      by rewrite Hn.
  - intros n Hn. unfold Atoi. cbv iota beta. rewrite decide_False, decide_True by done.
    rewrite parse_unsigned_pretty. simpl. by rewrite Hn.
  - intros s n. unfold Atoi.
    destruct (match s with EmptyString => _ | String _ _ => _ end) as [m|]; simpl; [|done].
    destruct (in_int64 m) eqn:Hm; [|done]. intros [= <-]. unfold in_int64 in Hm. lia.
Qed.

(** ** List parameters *)

Section Params.
Context `{GoText}.

(** What an optional integer parameter means. *)
Definition int_param (v : string) (dflt n : Z) : Prop :=
  (v = EmptyString ∧ n = dflt) ∨ (v ≠ EmptyString ∧ Atoi v = Some n).

Lemma and_then_inr {A B} (x : result A) (f : A → result B) b :
  and_then x f = inr b ↔ ∃ a, x = inr a ∧ f a = inr b.
Proof. destruct x as [e|a]; simpl; naive_solver. Qed.

Lemma Valid_elem s : Valid s = true ↔ s ∈ AllStatuses.
Proof.
  unfold Valid. rewrite existsb_exists. split.
  - intros (x & Hx & ->%bool_decide_eq_true). by apply list_elem_of_In.
  - intros Hs. exists s. rewrite bool_decide_true by done. by rewrite <- list_elem_of_In.
Qed.

Lemma parse_queue_spec q p p' :
  pQueue p = EmptyString →
  parse_queue q p = inr p' ↔
  (String.length (q "queue"%string) ≤ 100)%nat ∧ p' = {| p with pQueue := q "queue"%string |}.
Proof.
  intros Hp. unfold parse_queue, maxQueueNameLen. destruct p as [pq ps pl po]; simpl in *.
  case_decide as E.
  - rewrite E, Hp. simpl. naive_solver lia.
  - destruct (Nat.ltb_spec 100 (String.length (q "queue"%string))); naive_solver lia.
Qed.

Lemma parse_status_spec q p p' :
  pStatus p = EmptyString →
  parse_status q p = inr p' ↔
  (q "status"%string = EmptyString ∨ q "status"%string ∈ AllStatuses)
  ∧ p' = {| p with pStatus := q "status"%string |}.
Proof.
  intros Hp. unfold parse_status. destruct p as [pq ps pl po]; simpl in *.
  case_decide as E.
  - rewrite E, Hp. naive_solver.
  - rewrite <- Valid_elem. destruct (Valid (q "status"%string)); simpl; naive_solver.
Qed.

Lemma parse_limit_spec q p p' :
  pLimit p = 20 →
  parse_limit q p = inr p' ↔
  ∃ n, int_param (q "limit"%string) 20 n ∧ 1 ≤ n ≤ 100 ∧ p' = {| p with pLimit := n |}.
Proof.
  intros Hp. unfold parse_limit, int_param, maxListLimit. destruct p as [pq ps pl po]; simpl in *.
  case_decide as E.
  - rewrite E, Hp. split; [intros [= <-]; exists 20; naive_solver lia|naive_solver].
  - destruct (Atoi (q "limit"%string)) as [n|]; [|naive_solver].
    destruct (Z.ltb_spec n 1); simpl; [naive_solver lia|].
    destruct (Z.ltb_spec 100 n); simpl; [naive_solver lia|].
    split; [intros [= <-]; exists n; naive_solver lia|naive_solver].
Qed.

Lemma parse_offset_spec q p p' :
  pOffset p = 0 →
  parse_offset q p = inr p' ↔
  ∃ n, int_param (q "offset"%string) 0 n ∧ 0 ≤ n ∧ p' = {| p with pOffset := n |}.
Proof.
  intros Hp. unfold parse_offset, int_param. destruct p as [pq ps pl po]; simpl in *.
  case_decide as E.
  - rewrite E, Hp. split; [intros [= <-]; exists 0; naive_solver lia|naive_solver].
  - destruct (Atoi (q "offset"%string)) as [n|]; [|naive_solver].
    destruct (Z.ltb_spec n 0); [naive_solver lia|].
    split; [intros [= <-]; exists n; naive_solver lia|naive_solver].
Qed.

(** The list endpoint accepts exactly the documented parameters: a queue name of at most
    100 bytes, one of the five statuses, a limit from 1 to 100 (default 20) and an offset from
    0 (default 0); so the page it asks the store for is always valid. *)
Theorem parseListParams_accepts_valid_pages r p :
  parseListParams r = inr p ↔
  pQueue p = Query r "queue" ∧ (String.length (pQueue p) ≤ 100)%nat
  ∧ pStatus p = Query r "status" ∧ (pStatus p = EmptyString ∨ pStatus p ∈ AllStatuses)
  ∧ int_param (Query r "limit") 20 (pLimit p) ∧ 1 ≤ pLimit p ≤ 100
  ∧ int_param (Query r "offset") 0 (pOffset p) ∧ 0 ≤ pOffset p.
Proof.
  unfold parseListParams. split.
  - intros (p1 & Hq & (p2 & Hs & (p3 & Hl & Ho)%and_then_inr)%and_then_inr)%and_then_inr.
    apply parse_queue_spec in Hq as [Hq ->]; [|done].
    apply parse_status_spec in Hs as [Hs ->]; [|done].
    apply parse_limit_spec in Hl as (n & Hl & Hn & ->); [|done].
    apply parse_offset_spec in Ho as (m & Ho & Hm & ->); [|done].
    cbn [pQueue pStatus pLimit pOffset]. split_and!; try done; lia.
  - destruct p as [q st l o]; cbn [pQueue pStatus pLimit pOffset].
    intros (-> & Hq & -> & Hs & Hl & Hl' & Ho & Ho').
    apply and_then_inr. eexists. split; [by apply parse_queue_spec|].
    apply and_then_inr. eexists. split; [by apply parse_status_spec|].
    apply and_then_inr. eexists. split; [apply parse_limit_spec; [done|by exists l]|].
    apply parse_offset_spec; [done|]. by exists o.
Qed.
End Params.
