(* ===== verification/ConfigFacts.v ===== *)
(** * What the configuration can be *)
From S2P Require Import Prelude GoStd Models Interfaces Crypto GoStrings Config HttpFacts.
From stdpp Require Import pretty.
From Stdlib Require Import Ascii.
Open Scope Z_scope.

(** ** Splitting a joined text *)

Definition free_of (c : ascii) (s : string) : Prop := ContainsByte s c = false.

Lemma free_of_cons c d s : free_of c (String d s) ↔ d ≠ c ∧ free_of c s.
Proof.
  unfold free_of, ContainsByte. cbn [string_all].
  rewrite !negb_false_iff, andb_true_iff, negb_true_iff. by rewrite Ascii.eqb_neq.
Qed.

Lemma Split_free c s : free_of c s → Split s c = [s].
Proof.
  induction s as [|d s IH]; [done|]. intros [Hd Hs]%free_of_cons. cbn [Split].
  rewrite decide_False by done. by rewrite (IH Hs).
Qed.

Lemma Split_app c s t : free_of c s → Split (s +:+ String c t) c = s :: Split t c.
Proof.
  induction s as [|d s IH]; intros Hs.
  { change (Split (String c t) c = EmptyString :: Split t c). cbn [Split]. by rewrite decide_True. }
  apply free_of_cons in Hs as [Hd Hs]. change (String d s +:+ String c t) with (String d (s +:+ String c t)).
  cbn [Split]. rewrite decide_False by done. by rewrite (IH Hs).
Qed.

(** Splitting undoes joining, for pieces without the separator. *)
Lemma Split_concat c ps :
  ps ≠ [] → Forall (free_of c) ps → Split (String.concat (String c EmptyString) ps) c = ps.
Proof.
  induction ps as [|p ps IH]; [done|]. intros _ [Hp Hps]%Forall_cons.
  destruct ps as [|p' ps]; [by apply Split_free|].
  change (Split (p +:+ String c (String.concat (String c EmptyString) (p' :: ps))) c = p :: p' :: ps).
  by rewrite Split_app, IH.
Qed.

(** ** The list of queues *)

(** The queue list: whatever comma-separated pieces the variable holds, the result is
    their trimmed texts in order, without the empty ones, or the default when nothing is left;
    so a list of names is read back exactly as it was joined, and never ends up empty. *)
Theorem getenvList_reads_the_names env key fallback ps :
  ps ≠ [] → Forall (free_of ","%char) ps → env key = Some (String.concat "," ps) →
  let names := filter (λ p, p ≠ EmptyString) (TrimSpace <$> ps) in
  getenvList env key fallback = (if decide (names = []) then fallback else names)
  ∧ (Forall printable ps → Forall (λ p, p ≠ EmptyString) ps → getenvList env key fallback = ps)
  ∧ (fallback ≠ [] → getenvList env key fallback ≠ []).
Proof.
  intros Hne Hps Henv names.
  assert (getenvList env key fallback = if decide (names = []) then fallback else names) as E.
  { unfold getenvList, nonempty_env. rewrite Henv. cbn [mbind option_bind].
    case_decide as Hv.
    - assert (names = []) as ->; [|by rewrite decide_True].
      pose proof (Split_concat ","%char ps Hne Hps) as Hs. rewrite Hv in Hs.
      unfold names. by rewrite <- Hs.
    - unfold split_names. rewrite (Split_concat ","%char ps Hne Hps). fold names.
      by destruct names. }
  rewrite E. split_and!; [done| |].
  - intros Hprint Hfull.
    assert (names = ps) as ->; [|by rewrite decide_False].
    unfold names. clear - Hprint Hfull.
    induction Hprint as [|p ps Hp _ IH]; [done|]. apply Forall_cons in Hfull as [? ?].
    rewrite fmap_cons, TrimSpace_printable, filter_cons_True by done. by rewrite IH.
  - intros Hf. by case_decide.
Qed.

(** ** The whole configuration *)

Definition default_config : Config := Load (λ _, None).

(** Loading never fails and never leaves a gap: the queue list, the port, the secret and
    the addresses are not empty whatever the environment says; a number or flag that does not
    parse falls back to its default; variables that are unset or empty mean the defaults; and
    a Redis database number is read back as it was printed. *)
Theorem Load_is_total env :
  Config.Queues (Load env) ≠ [] ∧ Forall (λ q, q ≠ EmptyString) (Config.Queues (Load env))
  ∧ Forall (λ f, f (Load env) ≠ EmptyString)
      [Config.DatabaseURL; Config.RedisAddr; Config.APIPort; Config.CORSAllowedOrigin;
       Config.WorkerMetricsAddr; Config.SessionSecret]
  ∧ - 2 ^ 63 ≤ Config.RedisDB (Load env) < 2 ^ 63
  ∧ ((∀ key, env key = None ∨ env key = Some EmptyString) → Load env = default_config)
  ∧ (∀ n, in_int64 n = true → env "REDIS_DB"%string = Some (pretty n) → Config.RedisDB (Load env) = n)
  ∧ (∀ v, env "REDIS_DB"%string = Some v → Atoi v = None → Config.RedisDB (Load env) = 0)
  ∧ ∀ v, env "SESSION_COOKIE_SECURE"%string = Some v →
      Config.SessionCookieSecure (Load env) = bool_decide (ParseBool v = Some true).
Proof.
  assert (∀ key fb, fb ≠ EmptyString → getenv env key fb ≠ EmptyString) as Hget.
  { intros key fb Hfb. unfold getenv, nonempty_env. destruct (env key) as [v|]; [|done]. simpl.
    by case_decide. }
  assert (- 2 ^ 63 ≤ Config.RedisDB (Load env) < 2 ^ 63) as Hdb.
  { simpl. unfold getenvInt. destruct (nonempty_env env _ ≫= Atoi) as [n|] eqn:E; [|done].
    apply bind_Some in E as (v & _ & Hn). exact (proj2 (proj2 Atoi_reads_decimals) _ _ Hn). }
  split_and!.
  - simpl. unfold getenvList. destruct (nonempty_env env _); [|done]. by destruct (split_names _).
  - simpl. unfold getenvList. destruct (nonempty_env env _) as [v|]; [|by repeat constructor].
    destruct (split_names v) eqn:E; [by repeat constructor|]. rewrite <- E.
    apply Forall_forall. by intros q [? _]%list_elem_of_filter.
  - repeat constructor; by apply Hget.
  - apply Hdb.
  - apply Hdb.
  - intros Hnone.
    assert (∀ key, nonempty_env env key = None) as Hno.
    { intros key. unfold nonempty_env. destruct (Hnone key) as [-> | ->]; [done|]. by cbn. }
    unfold default_config, Load, getenv, getenvInt, getenvBool, getenvList. by rewrite !Hno.
  - intros n Hn Henv. simpl. unfold getenvInt, nonempty_env. rewrite Henv. cbn [mbind option_bind].
    rewrite decide_False by (by intros E; pose proof (proj1 Atoi_reads_decimals n Hn) as Ha; rewrite E in Ha).
    cbn. by rewrite (proj1 Atoi_reads_decimals n Hn).
  - intros v Henv Hv. simpl. unfold getenvInt, nonempty_env. rewrite Henv. cbn [mbind option_bind].
    case_decide; [done|]. cbn. by rewrite Hv.
  - intros v Henv. simpl. unfold getenvBool, nonempty_env. rewrite Henv. cbn [mbind option_bind].
    case_decide as E; [by subst v|]. cbn. by destruct (ParseBool v) as [[]|].
Qed.

(** ** Instances *)

Lemma getenvList_reads_the_names_witness :
  getenvList (λ k, if decide (k = "QUEUES") then Some "default, emails,,reports " else None)%string
    "QUEUES" ["default"%string] = ["default"; "emails"; "reports"]%string.
Proof.
  destruct (getenvList_reads_the_names
              (λ k, if decide (k = "QUEUES") then Some "default, emails,,reports " else None)%string
              "QUEUES" ["default"%string] ["default"; " emails"; EmptyString; "reports "]%string)
    as [Hx _].
  - discriminate.
  - repeat constructor.
  - reflexivity.
  - rewrite Hx. vm_compute. reflexivity.
Defined.
