(* ===== verification/JobsApiFacts.v ===== *)
(** * The job endpoints, answer by answer *)
From S2P Require Import Prelude GoStd Models Interfaces Db Effects Samples Store Queue Enqueue.
From S2P Require Import Http JobsApi Lifecycle QueueFacts StoreFacts JobStore EnqueueFacts.
Open Scope Z_scope.

Section JobsApiFacts.
Context `{Postgres} `{UUIDLib} `{GoText} {R : Type} `{Redis R}.
Implicit Types (w : world R) (e : reply) (r : Request).

Lemma tenantID_some r tid : tenantFromContext (Ctx r) = Some tid → tenantID r = inr tid.
Proof. intros Ht. unfold tenantID. by rewrite Ht. Qed.

Lemma url_job_id_some r id : uuid_Parse (URLParam r "id") = inr id → url_job_id r = inr id.
Proof. intros Hp. unfold url_job_id. by rewrite Hp. Qed.

Section ById.
Context (r : Request) (tid id : uuid) (w : world R) (e1 e2 e3 : reply).
Hypothesis Htid : tenantFromContext (Ctx r) = Some tid.
Hypothesis Hid : uuid_Parse (URLParam r "id") = inr id.
Hypothesis Hkeyed : keyed Job.ID (tbl_jobs (w_db w)).
Hypothesis Hdlq : keyed DLQRow.JobID (tbl_dead_letter_queue (w_db w)).
Hypothesis Hok1 : reliable e1.
Hypothesis Hok2 : reliable e2.
Hypothesis Hok3 : reliable e3.

(** [POST /jobs/{id}/cancel]: 404 for a job the tenant does not have, 409 for one that is
    not pending, both without a change; otherwise 200 with the cancelled job, whose id is gone
    from its queue. *)
Theorem cancelJob_responds es :
  let q j := Job.QueueName j in
  let m j := uuid_String (Job.ID j) in
  exec (e1 :: e2 :: e3 :: es) (cancelJob r) w
  = match visible tid id (w_db w) with
    | None => (Some (writeError StatusNotFound "job not found", e3 :: es), w)
    | Some j =>
        if decide (Job.Status j = StatusPending) then
          (Some (writeJSON StatusOK (BJob (cancelled_row (r_now e1) j)), es),
           with_redis (ZREM (delayed_key (q j)) (m j) (LREM (queue_key (q j)) (m j) (w_redis w)))
             (with_db (put_job id (cancelled_row (r_now e1) j) (w_db w)) w))
        else (Some (writeError StatusConflict "only pending jobs can be cancelled", e3 :: es), w)
    end.
Proof using Htid Hid Hkeyed Hok1 Hok2 Hok3.
  intros q m. unfold cancelJob. rewrite (tenantID_some _ _ Htid), (url_job_id_some _ _ Hid).
  rewrite exec_bind, CancelJob_run by done.
  destruct (visible tid id (w_db w)) as [j|]; [case_decide|]; [|reflexivity..].
  unfold Remove, redis_cmd. rewrite exec_bind, exec_request, redis_ok by done. cbn [fst snd].
  rewrite exec_request, redis_ok by done. reflexivity.
Qed.

(** [POST /jobs/{id}/retry]: 404 for a job the tenant does not have, 409 for one that is
    not failed, both without a change; otherwise 200 with the job pending again, off the
    dead-letter queue and at the end of its work list. *)
Theorem retryJob_responds es :
  exec (e1 :: e2 :: es) (retryJob r) w
  = match visible tid id (w_db w) with
    | None => (Some (writeError StatusNotFound "job not found", e2 :: es), w)
    | Some j =>
        if decide (Job.Status j = StatusFailed) then
          (Some (writeJSON StatusOK (BJob (reset_row (r_now e1) j)), es),
           with_redis (LPUSH (queue_key (Job.QueueName j)) (uuid_String (Job.ID j)) (w_redis w))
             (with_db (revived (w_db w) (r_now e1) j) w))
        else (Some (writeError StatusConflict "only failed jobs can be retried", e2 :: es), w)
    end.
Proof using Htid Hid Hkeyed Hdlq Hok1 Hok2.
  unfold retryJob. rewrite (tenantID_some _ _ Htid), (url_job_id_some _ _ Hid).
  unfold RetryJob, exec_tx. rewrite exec_request, tx_ok, retry_job_tx_ok by done.
  destruct (visible tid id (w_db w)) as [j|].
  2: { simpl. by destruct w. }
  case_decide.
  2: { simpl. by destruct w. }
  cbn [fst snd]. rewrite exec_bind, exec_Enqueue by done. reflexivity.
Qed.
End ById.

(** [POST /jobs]: a body that is not a request and a missing job type are answered 400
    without a request to the stores; an acceptable one is answered 202 with the stored row:
    pending, without attempts, on queue "default" and with payload [{}] and three attempts
    unless given, and its id is at the end of that queue. *)
Theorem enqueueJob_responds r tid e1 e2 e3 es w :
  tenantFromContext (Ctx r) = Some tid → tid ≠ uuid_Nil → reliable e1 → reliable e2 → reliable e3 →
  match decode_enqueueRequest (Body r) with
  | inl _ => exec es (enqueueJob r) w = (Some (writeError StatusBadRequest "invalid JSON body", es), w)
  | inr req =>
      if decide (eqJobType req = EmptyString)
      then exec es (enqueueJob r) w = (Some (writeError StatusBadRequest "job_type is required", es), w)
      else ∀ pl,
        let q := if decide (eqQueueName req = EmptyString) then "default"%string
                 else eqQueueName req in
        let job := with_defaults (r_uuid e1) (requested_job tid req) in
        insertable job pl (w_db w) →
        ∃ row,
          exec (e1 :: e2 :: e3 :: es) (enqueueJob r) w
          = (Some (writeJSON StatusAccepted (BJob row), es),
             with_redis (LPUSH (queue_key q) (uuid_String (r_uuid e1)) (w_redis w))
               (with_db (put_job (r_uuid e1) row (w_db w)) w))
          ∧ Job.ID row = r_uuid e1 ∧ Job.TenantID row = tid ∧ Job.QueueName row = q
          ∧ Job.JobType row = eqJobType req ∧ Job.Status row = StatusPending
          ∧ Job.RetryCount row = 0 ∧ Job.MaxRetries row = default 3 (eqMaxRetries req)
          ∧ jsonb_param (match eqPayload req with RawNil => RawJSON (JObj []) | p => p end)
            = inr (Job.Payload row)
  end.
Proof.
  intros Ht Hnil He1 He2 He3. unfold enqueueJob. rewrite (tenantID_some _ _ Ht).
  destruct (decode_enqueueRequest (Body r)) as [err|req]; [done|].
  case_decide as Hty; [done|]. intros pl Hins.
  set (job := with_defaults (r_uuid e1) (requested_job tid req)) in *.
  exists (inserted_row job pl (r_now e2)). split.
  - rewrite exec_bind, (Submit_run _ pl) by done. reflexivity.
  - destruct Hins as (_ & Hp & _). by split_and!.
Qed.
End JobsApiFacts.

(** ** Instances *)

(** A request by the tenant about job 7. *)
Definition sample_request (body : option json) : Request := {|
  Method := "POST";
  Path := EmptyString;
  Authorization := EmptyString;
  Cookie := λ _, None;
  URLParam := λ _, uuid_String 7%N;
  Query := λ _, EmptyString;
  Body := body;
  Ctx := WithTenant Background demo_tenant;
|}.

Lemma cancelJob_responds_witness :
  StatusCode <$> (fst <$> (exec [ok_at 1 0%N; ok_at 2 0%N; ok_at 3 0%N]
     (cancelJob (sample_request None)) (sample_world (sample_job StatusPending 0 3))).1)
  = Some 200.
Proof.
  rewrite (cancelJob_responds (sample_request None) demo_tenant 7%N
             (sample_world (sample_job StatusPending 0 3))).
  - vm_compute. reflexivity.
  - reflexivity.
  - vm_compute. reflexivity.
  - apply sample_keyed.
  - apply ok_at_reliable.
  - apply ok_at_reliable.
  - apply ok_at_reliable.
Defined.

Lemma retryJob_responds_witness :
  StatusCode <$> (fst <$> (exec [ok_at 1 0%N; ok_at 2 0%N]
     (retryJob (sample_request None)) (sample_world (sample_job StatusPending 0 3))).1)
  = Some 409.
Proof.
  rewrite (retryJob_responds (sample_request None) demo_tenant 7%N
             (sample_world (sample_job StatusPending 0 3))).
  - vm_compute. reflexivity.
  - reflexivity.
  - vm_compute. reflexivity.
  - apply sample_keyed.
  - apply sample_dlq_keyed.
  - apply ok_at_reliable.
  - apply ok_at_reliable.
Defined.

Lemma enqueueJob_responds_witness :
  let r := sample_request (Some (JObj [("job_type", JStr "echo")]%string)) in
  ∃ row, (exec [ok_at 1 9%N; ok_at 2 0%N; ok_at 3 0%N] (enqueueJob r) demo_world).1
         = Some (writeJSON StatusAccepted (BJob row), []) ∧ Job.MaxRetries row = 3.
Proof.
  intros r.
  pose proof (enqueueJob_responds r demo_tenant (ok_at 1 9%N) (ok_at 2 0%N) (ok_at 3 0%N) []
                demo_world eq_refl ltac:(discriminate) (ok_at_reliable _ _) (ok_at_reliable _ _)
                (ok_at_reliable _ _)) as Hx.
  cbn -[exec enqueueJob insertable with_defaults put_job] in Hx.
  destruct (Hx (RawJSON (JObj []))) as (row & Hrun & _ & _ & _ & _ & _ & _ & Hm & _).
  - split_and!; [reflexivity|reflexivity|discriminate|reflexivity|by eexists].
  - exists row. rewrite Hrun. split; [reflexivity|exact Hm].
Defined.
