(* ===== verification/SchedulerFacts.v ===== *)
(** * The scheduler: the cursor of a schedule and what a fire does *)
From S2P Require Import Prelude GoStd Models Interfaces Db Effects Samples Store Queue.
From S2P Require Import Schedules Enqueue Scheduler Lifecycle QueueFacts StoreFacts JobStore.
From S2P Require Import EnqueueFacts.
Open Scope Z_scope.

Section SchedulerFacts.
Context `{Postgres} `{!PostgresLaws} `{UUIDLib} `{GoText} {R : Type} `{Redis R} {Sch : Type}
  `{Cron Sch}.
Implicit Types (w : world R) (e : reply) (d : DB) (sc : JobSchedule).

(** The row with its cursor advanced, and the tables with it. *)
Definition advanced (lastRunAt nextRunAt : Z) (sc : JobSchedule) : JobSchedule :=
  {| sc with JobSchedule.LastRunAt := Some (pg_ts lastRunAt);
     JobSchedule.NextRunAt := pg_ts nextRunAt |}.
Definition put_schedule (id : uuid) (sc : JobSchedule) (d : DB) : DB :=
  {| d with tbl_job_schedules := <[id := sc]> (tbl_job_schedules d) |}.

(** Is the schedule enabled with its cursor at [expected]? *)
Definition cursor_at (expected : Z) (sc : JobSchedule) : bool :=
  JobSchedule.Enabled sc && (JobSchedule.NextRunAt sc =? pg_ts expected).

Lemma claim_schedule_stmt_spec id ex la ne now u d :
  keyed JobSchedule.ID (tbl_job_schedules d) →
  claim_schedule_stmt id ex la ne now u d
  = match tbl_job_schedules d !! id with
    | Some sc => if cursor_at ex sc then (inr 1, put_schedule id (advanced la ne sc) d) else (inr 0, d)
    | None => (inr 0, d)
    end.
Proof.
  intros Hk. unfold claim_schedule_stmt.
  assert (∀ a, claimable id ex a = true → JobSchedule.ID a = id) as Hid.
  { intros a. unfold claimable. rewrite !andb_true_iff, bool_decide_eq_true. tauto. }
  rewrite (select_where_key JobSchedule.ID _ _ id Hk Hid).
  assert (∀ sc, tbl_job_schedules d !! id = Some sc → claimable id ex sc = cursor_at ex sc) as Hc.
  { intros sc Hsc. unfold claimable, cursor_at. by rewrite bool_decide_true by (by apply Hk). }
  destruct (tbl_job_schedules d !! id) as [sc|] eqn:Hsc.
  - rewrite Hc by done. destruct (cursor_at ex sc) eqn:Ec; simpl.
    + assert (claimable id ex sc = true) as Ht by by rewrite Hc.
      unfold put_schedule. by rewrite (update_where_key JobSchedule.ID _ _ _ id sc Hk Hid Hsc Ht).
    + rewrite update_where_none; [by destruct d|].
      intros k a Ha. destruct (claimable id ex a) eqn:E; [|done].
      assert (k = id) as -> by (by rewrite <- (Hk _ _ Ha), (Hid _ E)).
      simplify_eq. rewrite Hc in E by done. congruence.
  - simpl. rewrite update_where_none; [by destruct d|].
    intros k a Ha. destruct (claimable id ex a) eqn:E; [|done].
    assert (k = id) as -> by (by rewrite <- (Hk _ _ Ha), (Hid _ E)). congruence.
Qed.

(** ** Competing claims *)

Record claim := mkClaim { cl_expected : Z; cl_last : Z; cl_next : Z }.

(** Claims of one schedule's runs, in the order the server serializes them, by any number of
    schedulers; the cursors of those that won. *)
Fixpoint run_claims (id : uuid) (cs : list claim) : prog R (list Z) :=
  match cs with
  | [] => Ret []
  | c :: cs' =>
      let! won := ClaimScheduleRun id (cl_expected c) (cl_last c) (cl_next c) in
      let! rest := run_claims id cs' in
      Ret (match won with inr true => pg_ts (cl_expected c) :: rest | _ => rest end)
  end.

(** One claim, with any outcome of its request. *)
Lemma exec_claim id c e es w :
  keyed JobSchedule.ID (tbl_job_schedules (w_db w)) →
  ∃ r w',
    exec (e :: es) (ClaimScheduleRun id (cl_expected c) (cl_last c) (cl_next c)) w
    = (Some (r, es), w')
    ∧ match tbl_job_schedules (w_db w) !! id with
      | Some sc =>
          if cursor_at (cl_expected c) sc
          then (r ≠ inr true ∧ w' = w)
               ∨ w' = with_db (put_schedule id (advanced (cl_last c) (cl_next c) sc) (w_db w)) w
          else r ≠ inr true ∧ w' = w
      | None => r ≠ inr true ∧ w' = w
      end.
Proof.
  intros Hk. unfold ClaimScheduleRun, exec_sql. rewrite exec_request. cbn [interp].
  rewrite claim_schedule_stmt_spec by done.
  destruct (tbl_job_schedules (w_db w) !! id) as [sc|]; [destruct (cursor_at _ sc)|];
    destruct w, (r_fault e); eexists _, _; (split; [reflexivity|]); eauto.
Qed.

Lemma run_claims_wins id cs es w (bound : Z) :
  keyed JobSchedule.ID (tbl_job_schedules (w_db w)) →
  (∀ sc, tbl_job_schedules (w_db w) !! id = Some sc → bound ≤ JobSchedule.NextRunAt sc) →
  Forall (λ c, pg_ts (cl_expected c) < pg_ts (cl_next c)) cs →
  length es = length cs →
  ∃ wins w', exec es (run_claims id cs) w = (Some (wins, []), w')
    ∧ StronglySorted Z.lt wins ∧ Forall (λ x, bound ≤ x) wins.
Proof.
  intros Hk Hb Hcs. revert es w bound Hk Hb.
  induction Hcs as [|c cs Hc _ IH]; intros [|e es] w bound Hk Hb Hlen; try done.
  { eexists _, _. split; [done|]. by repeat constructor. }
  cbn [run_claims]. rewrite exec_bind.
  destruct (exec_claim id c e es w Hk) as (r & w1 & -> & Hr). rewrite exec_bind.
  simpl in Hlen. injection Hlen as Hlen.
  destruct (tbl_job_schedules (w_db w) !! id) as [sc|] eqn:Hsc; [destruct (cursor_at _ sc) eqn:Ec|].
  1: destruct Hr as [[Hr ->]|Hr].
  2: { unfold cursor_at in Ec. apply andb_true_iff in Ec as [_ Ec%Z.eqb_eq].
       specialize (Hb sc eq_refl).
       destruct (IH es w1 (pg_ts (cl_next c))) as (wins & w' & -> & Hs & Hf).
       - subst w1. simpl. apply keyed_insert; [done|]. apply (Hk _ _ Hsc).
       - subst w1. simpl. intros sc'. rewrite lookup_insert_eq. intros [= <-]. simpl. lia.
       - done.
       - cbn [exec]. eexists _, _. split; [done|].
         destruct r as [err|[|]]; split; try done.
         + eapply Forall_impl; [exact Hf|]. simpl. lia.
         + constructor; [done|]. eapply Forall_impl; [exact Hf|]. simpl. lia.
         + constructor; [lia|]. eapply Forall_impl; [exact Hf|]. simpl. lia.
         + eapply Forall_impl; [exact Hf|]. simpl. lia. }
  2,3: destruct Hr as [Hr ->].
  all: destruct (IH es w bound Hk ltac:(rewrite ?Hsc; done) Hlen) as (wins & w' & -> & Hs & Hf).
  all: cbn [exec]; eexists _, _; split; [done|].
  all: destruct r as [err|[|]]; done.
Qed.

(** A run is won at most once: whatever schedulers claim runs of a schedule, in whatever
    order and with whatever failures, the cursors of the claims that were told they won are
    strictly increasing, as long as each claim moves the cursor forward. *)
Theorem schedule_runs_are_claimed_at_most_once id cs es w
    (Hkeyed : keyed JobSchedule.ID (tbl_job_schedules (w_db w)))
    (Hforward : Forall (λ c, pg_ts (cl_expected c) < pg_ts (cl_next c)) cs)
    (Hlen : length es = length cs) :
  ∃ wins w', exec es (run_claims id cs) w = (Some (wins, []), w')
    ∧ StronglySorted Z.lt wins ∧ NoDup wins.
Proof.
  set (bound := match tbl_job_schedules (w_db w) !! id with
                | Some sc => JobSchedule.NextRunAt sc | None => 0 end).
  destruct (run_claims_wins id cs es w bound Hkeyed) as (wins & w' & Hx & Hs & _); [|done..|].
  { intros sc Hsc. subst bound. rewrite Hsc. lia. }
  exists wins, w'. split_and!; [done|done|]. clear Hx.
  induction Hs as [|x l Hs IH Hall]; constructor; [|done].
  intros Hx. rewrite Forall_forall in Hall. specialize (Hall x Hx). lia.
Qed.

(** ** One fire *)

Lemma cron_next_stored `{!CronLaws Sch} s t : pg_ts (cron_Next s t) = cron_Next s t.
Proof. destruct (cron_Next_seconds s t) as [n ->]. apply pg_ts_seconds. Qed.

(** Firing a due schedule: an unreadable expression and a claim that another scheduler won
    change nothing; otherwise the cursor moves to the next activation, the schedule is no longer
    due, and then one pending job of the schedule's tenant, type and payload is stored and its
    id queued on "default". *)
Theorem fireSchedule_fires_once `{!CronLaws Sch} now sc e1 e2 e3 e4 es pl w :
  keyed JobSchedule.ID (tbl_job_schedules (w_db w)) →
  reliable e1 → reliable e2 → reliable e3 → reliable e4 →
  JobSchedule.TenantID sc ≠ uuid_Nil →
  let id := JobSchedule.ID sc in
  let job := with_defaults (r_uuid e2) (fired_job sc) in
  match cron_ParseStandard (JobSchedule.CronExpression sc) with
  | inl _ => exec es (fireSchedule now sc) w = (Some (tt, es), w)
  | inr s =>
      let next := cron_Next s now in
      match tbl_job_schedules (w_db w) !! id with
      | Some sc0 =>
          if cursor_at (JobSchedule.NextRunAt sc) sc0 then
            insertable job pl (w_db w) →
            exec (e1 :: e2 :: e3 :: e4 :: es) (fireSchedule now sc) w
            = (Some (tt, es),
               with_redis (LPUSH (queue_key "default") (uuid_String (r_uuid e2)) (w_redis w))
                 (with_db (put_job (r_uuid e2) (inserted_row job pl (r_now e3))
                             (put_schedule id (advanced now next sc0) (w_db w))) w))
            ∧ (next ≠ time_Zero → is_due now (advanced now next sc0) = false)
          else exec (e1 :: es) (fireSchedule now sc) w = (Some (tt, es), w)
      | None => exec (e1 :: es) (fireSchedule now sc) w = (Some (tt, es), w)
      end
  end.
Proof.
  intros Hk He1 He2 He3 He4 Ht id job. unfold fireSchedule.
  destruct (cron_ParseStandard (JobSchedule.CronExpression sc)) as [err|s]; [done|].
  unfold ClaimScheduleRun, exec_sql.
  destruct (tbl_job_schedules (w_db w) !! id) as [sc0|] eqn:Hsc; [destruct (cursor_at _ sc0) eqn:Ec|].
  - intros Hins. split.
    + rewrite exec_bind, exec_request, sql_ok, claim_schedule_stmt_spec by done.
      subst id. rewrite Hsc, Ec. cbn [fst snd exec].
      change (1 =? 1) with true. cbv iota. rewrite exec_bind.
      rewrite (Submit_run _ pl) by done. reflexivity.
    + intros Hz. unfold is_due. simpl. rewrite cron_next_stored by done.
      destruct (cron_Next_after s now) as [|Hlt]; [done|].
      pose proof (pg_ts_le now). destruct (Z.leb_spec (cron_Next s now) (pg_ts now)); [lia|].
      apply andb_false_r.
  - rewrite exec_bind, exec_request, sql_ok, claim_schedule_stmt_spec by done.
    subst id. rewrite Hsc, Ec. simpl. by destruct w.
  - rewrite exec_bind, exec_request, sql_ok, claim_schedule_stmt_spec by done.
    subst id. rewrite Hsc. simpl. by destruct w.
Qed.

End SchedulerFacts.

(** ** Instances *)

Definition sample_schedule (cron : string) (next : Z) : JobSchedule := {|
  JobSchedule.ID := 5%N;
  JobSchedule.TenantID := demo_tenant;
  JobSchedule.JobType := "echo";
  JobSchedule.Payload := RawJSON (JObj []);
  JobSchedule.CronExpression := cron;
  JobSchedule.Enabled := true;
  JobSchedule.LastRunAt := None;
  JobSchedule.NextRunAt := next;
  JobSchedule.CreatedAt := 0;
|}.

Definition schedule_world (sc : JobSchedule) : world RefRedis.store :=
  with_db {| demo_db with tbl_job_schedules := {[JobSchedule.ID sc := sc]} |} demo_world.

Lemma schedule_lookup sc :
  tbl_job_schedules (w_db (schedule_world sc)) !! JobSchedule.ID sc = Some sc.
Proof. apply lookup_singleton_eq. Qed.

Lemma schedule_keyed sc : keyed JobSchedule.ID (tbl_job_schedules (w_db (schedule_world sc))).
Proof. unfold schedule_world. simpl. by intros k a [<- <-]%lookup_singleton_Some. Qed.

(** Two schedulers claim the same run. *)
Lemma schedule_runs_are_claimed_at_most_once_witness :
  ∃ wins w', exec [ok_at 1 0%N; ok_at 2 0%N]
      (run_claims 5%N [mkClaim 0 1 Minute; mkClaim 0 1 Minute])
      (schedule_world (sample_schedule "* * * * *" 0)) = (Some (wins, []), w') ∧ NoDup wins.
Proof.
  destruct (schedule_runs_are_claimed_at_most_once 5%N [mkClaim 0 1 Minute; mkClaim 0 1 Minute]
              [ok_at 1 0%N; ok_at 2 0%N] (schedule_world (sample_schedule "* * * * *" 0)))
    as (wins & w' & Hx & _ & Hn).
  - apply schedule_keyed.
  - repeat constructor.
  - reflexivity.
  - exists wins, w'. split; [exact Hx|exact Hn].
Defined.

Lemma fireSchedule_fires_once_witness :
  let sc := sample_schedule "* * * * *" 0 in
  let w := schedule_world sc in
  let es := [ok_at 1 0%N; ok_at 2 9%N; ok_at 3 0%N; ok_at 4 0%N] in
  ∃ w', exec es (fireSchedule 1 sc) w = (Some (tt, []), w')
      ∧ rd_list (w_redis w') (queue_key "default") = [uuid_String 9%N].
Proof.
  intros sc w es.
  pose proof (fireSchedule_fires_once 1 sc (ok_at 1 0%N) (ok_at 2 9%N) (ok_at 3 0%N) (ok_at 4 0%N)
                [] (RawJSON (JObj [])) w (schedule_keyed sc) (ok_at_reliable _ _)
                (ok_at_reliable _ _) (ok_at_reliable _ _) (ok_at_reliable _ _)
                ltac:(discriminate)) as Hx.
  cbv zeta in Hx.
  change (cron_ParseStandard (JobSchedule.CronExpression sc)) with (@inr error Z 1) in Hx.
  cbv iota beta in Hx. pose proof (schedule_lookup sc) as Hl. fold w in Hl. rewrite Hl in Hx.
  destruct (cursor_at (JobSchedule.NextRunAt sc) sc) eqn:Ec; [|vm_compute in Ec; discriminate].
  destruct Hx as [Hx _].
  - split_and!; [reflexivity|reflexivity|discriminate|reflexivity|by eexists].
  - eexists. split; [exact Hx|]. vm_compute. reflexivity.
Defined.

