(* ===== verification/WorkerFacts.v ===== *)
(** * The worker's retry policy and processing, branch by branch *)
From S2P Require Import Prelude GoStd Models Interfaces Db Effects Store Queue Registry Worker.
From S2P Require Import Lifecycle StoreFacts Samples.
Open Scope Z_scope.

Lemma shl64_pow2 a : 0 ≤ a < 63 → shl64 1 a = Some (2 ^ a).
Proof.
  intros Ha. unfold shl64. destruct (Z.ltb_spec a 0); [lia|].
  rewrite Z.shiftl_1_l, wrap64_id; [done|].
  pose proof (Z.pow_pos_nonneg 2 a). pose proof (Z.pow_lt_mono_r 2 a 63). lia.
Qed.

Lemma backoff_value a : 0 ≤ a → backoffFor a = Some (Z.min (2 ^ a * Second) maxBackoff).
Proof.
  intros Ha. unfold backoffFor. destruct (Z.leb_spec 30 a).
  - pose proof (Z.pow_le_mono_r 2 30 a). f_equal. unfold maxBackoff, Hour, Minute, Second. lia.
  - rewrite shl64_pow2 by lia. simpl.
    pose proof (Z.pow_pos_nonneg 2 a). pose proof (Z.pow_le_mono_r 2 a 29).
    rewrite wrap64_id by (unfold Second; lia).
    destruct (Z.ltb_spec (2 ^ a * Second) maxBackoff); f_equal; lia.
Qed.

(** C29. The backoff is [min(2^attempt seconds, 1 hour)] for every attempt number a worker can
    reach: neither the shift nor the multiplication overflows, and the delay never shrinks. *)
Theorem backoffFor_is_capped_exponential attempt (Ha : 0 ≤ attempt) :
  backoffFor attempt = Some (Z.min (2 ^ attempt * Second) maxBackoff)
  ∧ ∀ attempt' b b', attempt ≤ attempt' → backoffFor attempt = Some b →
    backoffFor attempt' = Some b' → b ≤ b' ≤ 1 * Hour.
Proof.
  split; [by apply backoff_value|]. intros a' b b' Hle.
  rewrite !backoff_value by lia. intros [= <-] [= <-].
  pose proof (Z.pow_le_mono_r 2 attempt a'). unfold maxBackoff, Second. lia.
Qed.

Lemma backoffFor_is_capped_exponential_witness :
  backoffFor 3 = Some (8 * Second) ∧ backoffFor 62 = Some (1 * Hour).
Proof.
  split.
  - apply (backoffFor_is_capped_exponential 3). lia.
  - apply (backoffFor_is_capped_exponential 62). lia.
Defined.

Section WorkerFacts.
Context `{Postgres} `{UUIDLib} `{GoText} {R : Type} `{Redis R}.
Implicit Types (w : world R) (e : reply).


Section HandleFailure.
Context (job r : Job) (err : error) (w : world R) (e1 e2 e3 : reply).
Hypothesis Hkeyed : keyed Job.ID (tbl_jobs (w_db w)).
Hypothesis Hrow : tbl_jobs (w_db w) !! Job.ID job = Some r.
Hypothesis Hcount : 0 ≤ Job.RetryCount job < 2 ^ 31 - 1.
Hypothesis Hok1 : reliable e1.
Hypothesis Hok2 : reliable e2.
Hypothesis Hok3 : reliable e3.

(** C24. The retry policy: when a handler fails, the attempt is counted; a job with attempts
    left goes back to pending with the error recorded, and then its id is parked in the
    delayed set, scored with the second [min(2^attempts s, 1 h)] from now; a job without is
    failed and dead-lettered in one transaction, and counted as processed. *)
Theorem handleFailure_applies_the_retry_policy es :
  let n := Job.RetryCount job + 1 in
  let id := Job.ID job in
  exec (e1 :: e2 :: e3 :: es) (handleFailure job err) w
  = if decide (Job.MaxRetries job ≤ n) then
      (Some (None, e3 :: es),
       with_metric (IncrementedProcessed StatusFailed)
         (with_db (dead_lettered (w_db w) (r_now e1) n (Error err) r) w))
    else
      (Some (None, es),
       with_redis
         (ZADD (delayed_key (Job.QueueName job))
            (float64_of_int (Unix (r_now e2 + Z.min (2 ^ n * Second) maxBackoff)))
            (uuid_String id) (w_redis w))
         (with_db (put_job id (retried_row (r_now e1) n (Error err) r) (w_db w)) w)).
Proof using All.
  intros n id. unfold handleFailure. rewrite wrap64_id by lia. fold n.
  assert (in_int32 n = true) as Hn by (apply in_int32_spec; lia).
  case_decide as Hm.
  - rewrite (proj2 (Z.leb_le _ _) Hm). unfold DeadLetter, exec_tx.
    rewrite exec_bind, exec_request, tx_ok by done.
    by rewrite (dead_letter_tx_ok _ _ _ _ _ _ _ Hkeyed Hrow Hn).
  - destruct (Z.leb_spec (Job.MaxRetries job) n); [lia|]. rewrite backoff_value by lia.
    unfold MarkForRetry, exec_sql. rewrite exec_bind, exec_request, sql_ok by done.
    rewrite mark_for_retry_stmt_spec, Hn, Hrow by done. cbn [fst snd err_of exec].
    unfold time_Now. rewrite exec_request. cbn [interp fst snd].
    unfold EnqueueDelayed, redis_cmd. rewrite exec_bind, exec_request, redis_ok by done.
    done.
Qed.
End HandleFailure.

(** A job that cannot be claimed is skipped: for an id whose job is cancelled, already
    claimed, finished or absent, processing changes nothing, runs no handler and reports no
    error. *)
Theorem process_skips_unclaimable registry m id e es w :
  uuid_Parse m = inr id → keyed Job.ID (tbl_jobs (w_db w)) → reliable e →
  (∀ j, tbl_jobs (w_db w) !! id = Some j → Job.Status j ≠ StatusPending) →
  exec (e :: es) (process registry m) w = (Some (None, es), w).
Proof.
  intros Hm Hk He Hj. unfold process. rewrite Hm. unfold ClaimJob, exec_sql.
  rewrite exec_bind, exec_request, sql_ok, claim_job_stmt_spec by done.
  destruct (tbl_jobs (w_db w) !! id) as [j|] eqn:E.
  - rewrite decide_False by (by apply Hj). simpl. by destruct w.
  - simpl. by destruct w.
Qed.

Section Complete.
Context (registry : Registry R) (m : string) (id : uuid) (r : Job) (raw res : RawMessage).
Context (w : world R) (e1 e2 e3 e4 e5 e6 : reply) (es1 es : list reply).
Hypothesis Hm : uuid_Parse m = inr id.
Hypothesis Hkeyed : keyed Job.ID (tbl_jobs (w_db w)).
Hypothesis Hrow : tbl_jobs (w_db w) !! id = Some r.
Hypothesis Hpending : Job.Status r = StatusPending.
Hypothesis Hok1 : reliable e1.
Hypothesis Hok5 : reliable e5.
Hypothesis Hres : jsonb_param raw = inr res.
(** The handler's run: it consumes [es1] and returns [raw]. *)
Hypothesis Hdispatch : ∀ w' es', exec (es1 ++ es') (Dispatch registry (Job.JobType r) (Job.Payload r)) w'
                               = (Some (inr raw, es'), w').

(** A pending job whose handler succeeds is claimed, run, timed, stored as completed with
    its result, and counted, in that order; Redis is not touched. *)
Theorem process_completes_job :
  exec (e1 :: e2 :: es1 ++ e3 :: e4 :: e5 :: e6 :: es) (process registry m) w
  = (Some (None, es),
     with_metric (IncrementedProcessed StatusCompleted)
       (with_metric (ObservedLatency (Job.JobType r) (r_now e3 - r_now e2))
         (with_db (put_job id (completed_row (r_now e5) res (claimed_row (r_now e1) r))
                     (w_db w)) w))).
Proof using All.
  unfold process. rewrite Hm. unfold ClaimJob, exec_sql.
  rewrite exec_bind, exec_request, sql_ok, claim_job_stmt_spec, Hrow by done.
  rewrite decide_True by done. cbn [fst snd exec].
  unfold time_Now. rewrite exec_request. cbn [interp fst snd].
  rewrite exec_bind, Hdispatch. rewrite exec_request. cbn [interp fst snd].
  unfold ObserveLatency. rewrite exec_request. cbn [interp fst snd].
  unfold MarkCompleted, exec_sql. rewrite exec_bind, exec_request, sql_ok by done.
  assert (keyed Job.ID (tbl_jobs (put_job id (claimed_row (r_now e1) r) (w_db w)))) as Hk'.
  { apply keyed_insert; [done|]. exact (Hkeyed _ _ Hrow). }
  rewrite mark_completed_stmt_spec by exact Hk'.
  rewrite Hres. simpl. rewrite lookup_insert_eq. unfold put_job. simpl.
  by rewrite insert_insert_eq.
Qed.
End Complete.
End WorkerFacts.

(** ** Instances *)

Lemma handleFailure_applies_the_retry_policy_witness :
  let j := sample_job StatusProcessing 0 3 in
  exec [ok_at 1 0%N; ok_at 2 0%N; ok_at 3 0%N] (handleFailure j (EText "boom")) (sample_world j)
  = (Some (None, []),
     with_redis (ZADD (delayed_key "default") 2 (uuid_String 7%N) RefRedis.empty)
       (with_db (put_job 7%N (retried_row 1 1 "boom" j) (sample_db j)) (sample_world j))).
Proof.
  intros j.
  rewrite (handleFailure_applies_the_retry_policy j j (EText "boom") (sample_world j)).
  - reflexivity.
  - apply sample_keyed.
  - apply sample_lookup.
  - simpl. lia.
  - apply ok_at_reliable.
  - apply ok_at_reliable.
  - apply ok_at_reliable.
Defined.

Lemma process_skips_unclaimable_witness :
  let w := sample_world (sample_job StatusCancelled 0 3) in
  exec [ok_at 1 0%N] (process NewRegistry (uuid_String 7%N)) w = (Some (None, []), w).
Proof.
  intros w. apply (process_skips_unclaimable NewRegistry _ 7%N).
  - vm_compute. reflexivity.
  - apply sample_keyed.
  - apply ok_at_reliable.
  - intros j Hj. apply sample_lookup_Some in Hj as [-> _]. discriminate.
Defined.

Lemma process_completes_job_witness :
  let j := sample_job StatusPending 0 3 in
  ∃ reg : Registry RefRedis.store,
  (exec (ok_at 1 0%N :: ok_at 2 0%N :: [] ++ ok_at 5 0%N :: ok_at 6 0%N :: ok_at 7 0%N
           :: ok_at 8 0%N :: []) (process reg (uuid_String 7%N)) (sample_world j)).1
  = Some (None, []).
Proof.
  intros j. exists (default NewRegistry (Register NewRegistry "echo"%string echoHandler)).
  rewrite (process_completes_job _ _ 7%N j (Job.Payload j) (Job.Payload j)).
  - reflexivity.
  - vm_compute. reflexivity.
  - apply sample_keyed.
  - apply (sample_lookup j).
  - reflexivity.
  - apply ok_at_reliable.
  - apply ok_at_reliable.
  - reflexivity.
  - intros w' es'. vm_compute. reflexivity.
Defined.
