(* ===== verification/Rely.v ===== *)
(** * A rely-guarantee logic for programs that share the world

    [safe t P p Q]: run by thread [t] from a world satisfying the invariant and [P], program
    [p] keeps the invariant at each of its requests, changes job rows only as [guar] allows,
    and ends in [Q]; between two of its requests the other threads may act, so every
    intermediate assertion is stable under their guarantees. Faults and crashes are part of
    the requests it ranges over. *)
From S2P Require Import Prelude GoStd Models Interfaces Db Effects Lifecycle Queue.
Open Scope Z_scope.

Section Rely.
Context `{Postgres} `{UUIDLib} {R : Type} `{Redis R}.

(** ** The shared invariant *)

(** Every id on a queue's list or delayed set names a row of that queue. *)
Definition queued_ids_ok (d : DB) (s : R) : Prop := ∀ q m,
  m ∈ rd_list s (queue_key q) ∨ is_Some (rd_zset s (delayed_key q) !! m) →
  ∃ id j, m = uuid_String id ∧ tbl_jobs d !! id = Some j ∧ Job.QueueName j = q.

Definition inv (w : world R) : Prop := db_inv (w_db w) ∧ queued_ids_ok (w_db w) (w_redis w).

(** ** Assertions of a thread: on the world and on who claimed which job *)
Definition assn : Type := world R → owner → Prop.

Definition rely (t : nat) (w : world R) (o : owner) (w' : world R) (o' : owner) : Prop :=
  ∀ id j, tbl_jobs (w_db w) !! id = Some j →
  ∃ j', tbl_jobs (w_db w') !! id = Some j' ∧ same_identity j j'
      ∧ (Job.Status j = StatusProcessing → o id = Some t → j' = j ∧ o' id = Some t).

Definition stable (t : nat) (P : assn) : Prop :=
  ∀ w o w' o', rely t w o w' o' → P w o → P w' o'.

Definition Top : assn := λ _ _, True.

(** A row with this id exists, on this queue. *)
Definition has_row (id : uuid) (q : string) : assn := λ w _,
  ∃ j, tbl_jobs (w_db w) !! id = Some j ∧ Job.QueueName j = q.

(** This thread is processing the job, whose row is [j]. *)
Definition owns (t : nat) (j : Job) : assn := λ w o,
  tbl_jobs (w_db w) !! Job.ID j = Some j ∧ Job.Status j = StatusProcessing
  ∧ o (Job.ID j) = Some t.

(** What one request of [t] may do. *)
Definition good (t : nat) (o : owner) (w w' : world R) : Prop :=
  inv w' ∧ guar t o (w_db w) (w_db w').

Definition own_after (t : nat) (w w' : world R) (o : owner) : owner :=
  claim_owner t (w_db w) (w_db w') o.

Fixpoint safe {A} (t : nat) (P : assn) (p : prog R A) (Q : A → assn) : Prop :=
  match p with
  | Ret a => ∀ w o, inv w → P w o → Q a w o
  | Panic _ => True
  | Call op k =>
      ∀ e w o, inv w → P w o →
      let '(x, w') := interp op e w in
      good t o w w'
      ∧ ∃ P', stable t P' ∧ P' w' (own_after t w w' o) ∧ safe t P' (k x) Q
  end.

(** A program that leaves the world as it is: job handlers. *)
Fixpoint quiet {A} (p : prog R A) : Prop :=
  match p with
  | Ret _ | Panic _ => True
  | Call op k => (∀ e w, (interp op e w).2 = w) ∧ ∀ x, quiet (k x)
  end.

(** ** Lemmas *)

Context `{!RedisLaws R}.

Lemma queue_key_inj q q' : queue_key q = queue_key q' → q = q'.
Proof using. apply string_app_inj_l. Qed.

Lemma delayed_key_inj q q' : delayed_key q = delayed_key q' → q = q'.
Proof using. apply string_app_inj_l. Qed.

Lemma queue_key_not_worker q w : queue_key q ≠ worker_key w.
Proof using. done. Qed.

Lemma delayed_key_not_worker q w : delayed_key q ≠ worker_key w.
Proof using. done. Qed.

Lemma queue_key_not_delayed q q' : queue_key q ≠ delayed_key q'.
Proof using. done. Qed.

Lemma stable_Top t : stable t Top.
Proof using. by intros w o w' o' _ _. Qed.

Lemma stable_const t (X : Prop) : stable t (λ _ _, X).
Proof using. by intros w o w' o' _. Qed.

Lemma stable_and t P P' : stable t P → stable t P' → stable t (λ w o, P w o ∧ P' w o).
Proof using. intros HP HP' w o w' o' Hr [? ?]. split; eauto. Qed.

Lemma stable_has_row t id q : stable t (has_row id q).
Proof using.
  intros w o w' o' Hr (j & Hj & Hq).
  destruct (Hr id j Hj) as (j' & Hj' & (_ & _ & Eq & _) & _).
  exists j'. by rewrite Eq.
Qed.

Lemma stable_owns t j : stable t (owns t j).
Proof using.
  intros w o w' o' Hr (Hj & Hs & Ho).
  destruct (Hr _ j Hj) as (j' & Hj' & _ & Hown).
  destruct (Hown Hs Ho) as [-> ?]. by split_and!.
Qed.

(** The guarantee of one thread is what another relies on. *)
Lemma guar_rely t t' (o : owner) w w' :
  t ≠ t' → guar t o (w_db w) (w_db w') → rely t' w o w' (own_after t w w' o).
Proof using.
  intros Ht Hg id j Hj. destruct (guar_persist _ _ _ _ _ _ Hg Hj) as (j' & Hj' & _ & Hid & Hsame).
  exists j'. split_and!; [done|done|]. intros Hs Ho.
  assert (j' = j) as -> by (apply Hsame; [done|congruence]).
  split; [done|]. unfold own_after, claim_owner. rewrite Hj', Hj.
  by rewrite !decide_True.
Qed.

Lemma safe_strengthen {A} t (P P' : assn) (p : prog R A) Q :
  (∀ w o, inv w → P w o → P' w o) → safe t P' p Q → safe t P p Q.
Proof using.
  destruct p as [a|msg|X op k]; simpl; [by eauto|done|].
  intros HP Hs e w o Hi Hp. apply Hs; auto.
Qed.

Lemma safe_weaken {A} t P (p : prog R A) (Q Q' : A → assn) :
  (∀ a w o, inv w → Q a w o → Q' a w o) → safe t P p Q → safe t P p Q'.
Proof using.
  intros HQ. revert P. induction p as [a|msg|X op k IH]; intros P; simpl; [eauto|done|].
  intros Hs e w o Hi HP. specialize (Hs e w o Hi HP).
  destruct (interp op e w) as [x w']. destruct Hs as [? (P' & ? & ? & ?)]. eauto 8.
Qed.

Lemma safe_bind {A B} t P (p : prog R A) (f : A → prog R B) Q Q' :
  safe t P p Q → (∀ a, safe t (Q a) (f a) Q') → safe t P (bind p f) Q'.
Proof using.
  intros Hp Hf. revert P Hp. induction p as [a|msg|X op k IH]; intros P; simpl; [|done|].
  - intros Hr. eapply safe_strengthen; [apply Hr|apply Hf].
  - intros Hs e w o Hi HP. specialize (Hs e w o Hi HP).
    destruct (interp op e w) as [x w']. destruct Hs as [? (P' & ? & ? & ?)]. eauto 8.
Qed.

Lemma safe_ret {A} t (P : assn) (a : A) (Q : A → assn) :
  (∀ w o, inv w → P w o → Q a w o) → safe t P (Ret a) Q.
Proof using. done. Qed.

(** *** Requests that do not touch the tables or Redis *)

Lemma own_after_same t w o id j :
  tbl_jobs (w_db w) !! id = Some j → Job.Status j = StatusProcessing →
  own_after t w w o id = o id.
Proof using. intros Hj Hs. unfold own_after, claim_owner. rewrite Hj. by rewrite !decide_True. Qed.

Lemma rely_refl t w w' o : w_db w' = w_db w → rely t w o w' (own_after t w w' o).
Proof using.
  intros E id j Hj. exists j. rewrite E. split_and!; [done|apply same_identity_refl|].
  intros Hs Ho. split; [done|]. unfold own_after, claim_owner. rewrite E, Hj.
  by rewrite !decide_True.
Qed.

Lemma good_same_db t o w w' :
  w_db w' = w_db w → queued_ids_ok (w_db w) (w_redis w') → inv w → good t o w w'.
Proof using. intros E Hq [Hd _]. unfold good, inv. rewrite E. auto with dispatch. Qed.

Lemma safe_quiet {A} t P (p : prog R A) : quiet p → stable t P → safe t P p (λ _, P).
Proof using.
  intros Hq HP. induction p as [a|msg|X op k IH]; simpl in *; [done|done|].
  destruct Hq as [Hw Hk]. intros e w o Hi Hp. specialize (Hw e w).
  destruct (interp op e w) as [x w']. simpl in Hw. subst w'. split.
  - apply good_same_db; [done|apply Hi|done].
  - exists P. split_and!; [done| |by apply IH].
    eapply HP; [|exact Hp]. by apply rely_refl.
Qed.

Lemma quiet_request {X} (op : op R X) : (∀ e w, (interp op e w).2 = w) → quiet (request op).
Proof using. intros Hw. by split. Qed.

Lemma quiet_bind {A B} (p : prog R A) (f : A → prog R B) :
  quiet p → (∀ a, quiet (f a)) → quiet (bind p f).
Proof using.
  intros Hp Hf. induction p as [a|msg|X op k IH]; simpl in *; [done|done|].
  destruct Hp as [? Hk]. split; [done|]. intros x. by apply IH.
Qed.

Lemma quiet_now : quiet (time_Now (R := R)).
Proof using. by apply quiet_request. Qed.
Lemma quiet_uuid : quiet (uuid_New (R := R)).
Proof using. by apply quiet_request. Qed.
Lemma quiet_ctx : quiet (ctx_Err (R := R)).
Proof using. by apply quiet_request. Qed.
Lemma quiet_wait d : quiet (request (OWait (R := R) d)).
Proof using. by apply quiet_request. Qed.

(** A metric changes nothing the invariant reads. *)
Lemma safe_metric t P m (Q : unit → assn) :
  stable t P → (∀ w o, inv w → P w o → Q tt w o) → safe t P (request (OMetric m)) Q.
Proof using.
  intros HP HQ e w o Hi Hp. simpl. split.
  - apply good_same_db; [done|apply Hi|done].
  - exists P. split_and!; [done| |exact HQ]. eapply HP; [|exact Hp]. by apply rely_refl.
Qed.

(** *** SQL requests *)


Lemma queued_ids_guar t o d d' s :
  guar t o d d' → queued_ids_ok d s → queued_ids_ok d' s.
Proof using.
  intros Hg Hq q m Hm. destruct (Hq q m Hm) as (id & j & -> & Hj & Eq).
  destruct (guar_persist _ _ _ _ _ _ Hg Hj) as (j' & Hj' & _ & (_ & _ & Eq' & _) & _).
  exists id, j'. split_and!; [done|done|congruence].
Qed.

Lemma good_db t o w d' :
  inv w → db_inv d' → guar t o (w_db w) d' → good t o w (with_db d' w).
Proof using.
  intros [_ Hq] Hd Hg. split; [|done]. split; [done|].
  by eapply queued_ids_guar.
Qed.

Lemma good_refl t o w : inv w → good t o w w.
Proof using. intros Hi. split; [done|apply guar_refl]. Qed.

Lemma world_eta (w : world R) : with_db (w_db w) w = w.
Proof using. by destruct w. Qed.

(** A statement: what it does when it is answered, and any answer at all after a fault. *)
Lemma safe_sql {X} t (P : assn) (q : sql X) (Post : result X → assn) :
  (∀ x, stable t (Post x)) → (∀ e w o, Post (inl e) w o) →
  (∀ now u w o, inv w → P w o →
     let '(x, d') := q now u (w_db w) in
     db_inv d' ∧ guar t o (w_db w) d' ∧ Post x (with_db d' w) (own_after t w (with_db d' w) o)) →
  safe t P (exec_sql q) Post.
Proof using.
  intros Hst Herr Hq e w o Hi HP. simpl. specialize (Hq (r_now e) (r_uuid e) w o Hi HP).
  destruct (q (r_now e) (r_uuid e) (w_db w)) as [x d'] eqn:Eq.
  destruct Hq as (Hd & Hg & HPost). destruct (r_fault e); simpl.
  - split; [by apply good_db|]. exists (Post x). split_and!; [apply Hst|done|by intros].
  - change (mkWorld _ _ _) with (with_db (w_db w) w). rewrite world_eta. split; [by apply good_refl|].
    exists Top. split_and!; [apply stable_Top|done|]. intros. apply Herr.
  - split; [by apply good_db|]. exists Top. split_and!; [apply stable_Top|done|].
    intros. apply Herr.
Qed.

(** A statement that only reads. *)
Lemma safe_read {X} t (P : assn) (q : sql X) :
  (∀ now u d, (q now u d).2 = d) → safe t P (exec_sql q) (λ _, Top).
Proof using.
  intros Hq. apply safe_sql; [intros; apply stable_Top|done|].
  intros now u w o [Hd _] _. specialize (Hq now u (w_db w)).
  destruct (q now u (w_db w)) as [x d']. simpl in Hq. subst d'.
  split_and!; [done|apply guar_refl|done].
Qed.

(** A transaction: what each of its outcomes does. *)
Lemma safe_tx {X} t (P : assn) (b : tx X) (Post : result X → assn) :
  (∀ x, stable t (Post x)) →
  (∀ fs now us w o, inv w → P w o →
     let '(x, d') := run_tx b fs now us (w_db w) in
     db_inv d' ∧ guar t o (w_db w) d' ∧ Post x (with_db d' w) (own_after t w (with_db d' w) o)) →
  safe t P (exec_tx b) Post.
Proof using.
  intros Hst Hb e w o Hi HP. simpl. specialize (Hb (r_faults e) (r_now e) (r_uuids e) w o Hi HP).
  destruct (run_tx b _ _ _ _) as [x d']. destruct Hb as (Hd & Hg & HPost).
  split; [by apply good_db|]. exists (Post x). split_and!; [apply Hst|done|by intros].
Qed.

(** *** Redis requests *)

Lemma safe_redis {X} t (P : assn) (c : Z → R → X * R) (Post : result X → assn) :
  stable t P → (∀ x w o, P w o → Post x w o) →
  (∀ now w o, inv w → P w o → queued_ids_ok (w_db w) (c now (w_redis w)).2) →
  safe t P (redis_cmd c) Post.
Proof using.
  intros HP HPost Hc e w o Hi Hp. simpl. specialize (Hc (r_now e) w o Hi Hp).
  destruct (c (r_now e) (w_redis w)) as [x s']. simpl in Hc.
  destruct (faulty (r_fault e) (w_redis w) (inr x, s')) as [y s''] eqn:Ef.
  assert (queued_ids_ok (w_db w) s'') as Hs''.
  { destruct (r_fault e); simpl in Ef; simplify_eq; [done|apply Hi|done]. }
  split; [by apply good_same_db|]. exists P. split_and!; [done| |by auto].
  eapply HP; [|exact Hp]. by apply rely_refl.
Qed.

(** The commands keep [queued_ids_ok]. *)
Lemma queued_LPUSH d s q id j :
  queued_ids_ok d s → tbl_jobs d !! id = Some j → Job.QueueName j = q →
  queued_ids_ok d (LPUSH (queue_key q) (uuid_String id) s).
Proof.
  intros Hq Hj Eq q' m. rewrite list_LPUSH, zset_LPUSH. case_decide as E.
  - apply queue_key_inj in E as <-. intros [[->|?]%elem_of_cons|?]; eauto.
  - apply Hq.
Qed.

Lemma queued_ZADD d s q sc id j :
  queued_ids_ok d s → tbl_jobs d !! id = Some j → Job.QueueName j = q →
  queued_ids_ok d (ZADD (delayed_key q) sc (uuid_String id) s).
Proof.
  intros Hq Hj Eq q' m. rewrite list_ZADD, zset_ZADD. case_decide as E.
  - apply delayed_key_inj in E as <-. rewrite lookup_insert. case_decide as E.
    + subst. eauto.
    + apply Hq.
  - apply Hq.
Qed.

Lemma queued_LREM d s k m : queued_ids_ok d s → queued_ids_ok d (LREM k m s).
Proof.
  intros Hq q' m'. rewrite list_LREM, zset_LREM. intros Hm. apply Hq.
  case_decide; [|done]. subst. rewrite list_elem_of_filter in Hm. tauto.
Qed.

Lemma queued_ZREM d s k m : queued_ids_ok d s → queued_ids_ok d (ZREM k m s).
Proof.
  intros Hq q' m'. rewrite list_ZREM, zset_ZREM. intros Hm. apply Hq.
  case_decide; [|done]. subst. destruct Hm as [|[x [_ ?]%lookup_delete_Some]]; eauto.
Qed.

Lemma queued_SETEX d s k x : queued_ids_ok d s → queued_ids_ok d (SETEX k x s).
Proof. intros Hq q' m'. rewrite list_SETEX, zset_SETEX. apply Hq. Qed.

Lemma queued_DEL d s k : queued_ids_ok d s → queued_ids_ok d (DEL k s).
Proof.
  intros Hq q' m'. rewrite list_DEL, zset_DEL. intros Hm. apply Hq.
  repeat case_decide; rewrite ?lookup_empty in Hm; try done.
  all: destruct Hm as [Hm|[? Hm]]; first [by apply elem_of_nil in Hm|done|eauto].
Qed.

Lemma queued_BRPOP d s ks : queued_ids_ok d s → queued_ids_ok d (BRPOP ks s).2.
Proof.
  intros Hq. pose proof (BRPOP_spec ks s) as Hspec.
  destruct (first_nonempty (rd_list s) ks) as [[[k l] m]|] eqn:E; [|by rewrite Hspec].
  destruct Hspec as (s' & -> & Hl & Hz & _). intros q m'. rewrite Hl, Hz.
  intros Hm. apply Hq. case_decide as Ek; [|done].
  subst. apply first_nonempty_Some in E as [_ ->]. set_solver.
Qed.

(** The promotion script moves ids between the two structures of one queue. *)
Lemma queued_promote d s q now lim :
  queued_ids_ok d s →
  queued_ids_ok d (promoteScript (delayed_key q) (queue_key q) now lim s).2.
Proof.
  intros Hq. unfold promoteScript. simpl.
  destruct (ZRANGEBYSCORE_spec (delayed_key q) (float64_of_int now) lim s) as (l & Hl & _ & ->).
  assert (∀ m, m ∈ (limit_take lim l).*1 → ∃ id j, m = uuid_String id
            ∧ tbl_jobs d !! id = Some j ∧ Job.QueueName j = q) as Hall.
  { intros m [[m' sc] [-> Hin]]%list_elem_of_fmap. apply Hq. right.
    assert ((m', sc) ∈ l) as Hin'.
    { unfold limit_take in Hin. destruct (lim <? 0); [done|].
      apply list_elem_of_lookup in Hin as [i Hi].
      apply lookup_take_Some in Hi as [Hi _]. by eapply list_elem_of_lookup_2. }
    rewrite Hl in Hin'. apply due_entries_elem in Hin' as [? _]. simpl. eauto. }
  revert s Hq Hl Hall. generalize ((limit_take lim l).*1). intros ms s Hq _ Hall.
  revert s Hq. induction ms as [|m ms IH]; intros s Hq; [done|]. simpl. apply IH; [set_solver|].
  apply queued_ZREM. destruct (Hall m ltac:(set_solver)) as (id & j & -> & Hj & Eq).
  by eapply queued_LPUSH.
Qed.
End Rely.
