(* ===== verification/Safety.v ===== *)
(** * Each program keeps the invariant and the lifecycle

    The programs of the producers, the worker and the scheduler, and the job endpoints, are
    [safe]: their lemmas are chained by [safe_bind] along the calls of the source. *)
From S2P Require Import Prelude GoStd Models Interfaces Db Effects Store Queue Schedules.
From S2P Require Import Enqueue Registry Worker Scheduler Http JobsApi Lifecycle StoreFacts.
From S2P Require Import Rely.
Open Scope Z_scope.

(** Resolves the stability side conditions. *)
#[export] Hint Resolve stable_Top stable_const stable_and stable_has_row stable_owns : dispatch.

(** The answer leaves the tables as they are. *)
Ltac unchanged := split_and!; [done|apply guar_refl|done].

Section Safety.
Context `{Postgres} `{UUIDLib} `{GoText} {R : Type} `{Redis R} `{!RedisLaws R}.
Context {Sch : Type} `{Cron Sch}.
Implicit Types (t : nat) (w : world R) (o : owner).

(** What a result carries when it is not an error. *)
Definition on_ok {X} (Post : X → assn (R := R)) (r : result X) : assn :=
  match r with inl _ => Top | inr x => Post x end.

Lemma stable_on_ok {X} t (Post : X → assn) (r : result X) :
  (∀ x, stable t (Post x)) → stable t (on_ok Post r).
Proof. intros HP. destruct r; simpl; auto using stable_Top. Qed.

(** What holds once an [error] is nil. *)
Definition on_nil (P : assn (R := R)) (e : option error) : assn :=
  match e with Some _ => Top | None => P end.

Definition row_of (j : Job) : assn (R := R) := has_row (Job.ID j) (Job.QueueName j).

Lemma stable_row_of t j : stable t (row_of j).
Proof. apply stable_has_row. Qed.

Lemma owns_row_of t j w o : owns t j w o → row_of j w o.
Proof. intros (? & _). by exists j. Qed.

#[local] Hint Resolve stable_on_ok stable_row_of : dispatch.

(** A step that ignores what the previous one ensured. *)
Lemma safe_then {A B} t P (p : prog R A) (f : A → prog R B) Q :
  safe t P p Q → (∀ a, safe t Top (f a) (λ _, Top)) → safe t P (bind p f) (λ _, Top).
Proof.
  intros Hp Hf. eapply safe_bind; [exact Hp|]. intros a.
  eapply safe_strengthen; [|apply Hf]. done.
Qed.

Lemma safe_ret_top {A} t P (a : A) : safe t P (Ret (R := R) a) (λ _, Top).
Proof. done. Qed.

(** ** Statements on [jobs] *)

Lemma safe_CreateJob t P job :
  Job.Status job = StatusPending → safe t P (CreateJob job) (on_ok row_of).
Proof.
  intros Hs. apply safe_sql; [auto with dispatch|done|].
  intros now u w o [Hd Hq] _. unfold insert_job_stmt.
  destruct (in_int32 (Job.MaxRetries job)) eqn:Hm; cbn [negb]; [|unchanged].
  apply in_int32_spec in Hm.
  assert (∀ pl, tbl_jobs (w_db w) !! Job.ID job = None →
    is_Some (tbl_tenants (w_db w) !! Job.TenantID job) →
    let r := inserted_row job pl now in
    let d' := put_job (Job.ID job) r (w_db w) in
    db_inv d' ∧ guar t o (w_db w) d'
    ∧ row_of r (with_db d' w) (own_after t w (with_db d' w) o)) as Hins.
  { intros pl Hnone Hten r d'. assert (fresh_row r) by (by subst r).
    split_and!; [by apply insert_job_inv|by apply insert_job_guar|].
    exists r. simpl. by rewrite lookup_insert_eq. }
  destruct (jsonb_param _) as [e|pl]; [unchanged|].
  destruct (tbl_jobs (w_db w) !! Job.ID job) as [j|];
    [destruct pl; unchanged|].
  destruct (tbl_tenants (w_db w) !! Job.TenantID job) as [tn|];
    [|destruct pl; unchanged].
  destruct pl; [unchanged|..]; apply Hins; eauto.
Qed.

Lemma safe_ClaimJob t P id :
  safe t P (ClaimJob id) (on_ok (λ j w o, owns t j w o ∧ Job.ID j = id)).
Proof.
  eapply safe_bind with (Q := on_ok (λ j w o, owns t j w o ∧ Job.ID j = id)).
  2: { intros [e|j]; simpl; [by destruct (errors_Is _ _)|done]. }
  apply safe_sql; [auto 6 with dispatch|done|].
  intros now u w o [Hd Hq] _. rewrite claim_job_stmt_spec by apply Hd.
  destruct (tbl_jobs (w_db w) !! id) as [j|] eqn:Hj; [|unchanged].
  case_decide as Hs; [|unchanged].
  pose proof (inv_jobs_keyed _ Hd _ _ Hj) as Hid.
  assert (edge j (claimed_row now j)) by (by apply edge_claim).
  split_and!.
  - apply (put_job_inv _ Hd id j); [done..|by split_and!| |done].
    intros E. status_neq.
  - apply (put_job_guar _ id j); [done..|by split_and!|]. intros E. status_neq.
  - unfold owns, own_after, claim_owner, put_job. simpl. rewrite Hid, lookup_insert_eq, Hj.
    split_and!; [done|done| |done]. rewrite decide_True by done.
    by rewrite decide_False by (rewrite Hs; done).
Qed.

Lemma safe_MarkCompleted t j res :
  safe t (owns t j) (MarkCompleted (Job.ID j) res) (λ _, Top).
Proof.
  eapply safe_then with (Q := λ _, Top); [|done].
  apply safe_sql; [auto with dispatch|done|].
  intros now u w o [Hd Hq] (Hj & Hs & Ho). rewrite mark_completed_stmt_spec by apply Hd.
  destruct (jsonb_param res) as [e|res']; [unchanged|]. rewrite Hj.
  assert (edge j (completed_row now res' j)) by (by apply edge_complete).
  split_and!; [|by apply (put_job_guar _ _ j)|done].
  apply (put_job_inv _ Hd _ j); [done..|by split_and!| |done]. intros E. status_neq.
Qed.

(** The attempt number the worker computes, under the budget. *)
Lemma attempts_bounds j :
  budget_ok j → Job.Status j = StatusProcessing →
  wrap64 (Job.RetryCount j + 1) = Job.RetryCount j + 1
  ∧ in_int32 (Job.RetryCount j + 1) = true ∧ 1 ≤ Job.RetryCount j + 1.
Proof.
  intros (Hm & Hc0 & _ & Hn) Hs. specialize (Hn ltac:(rewrite Hs; done)).
  split_and!; [apply wrap64_id; lia|apply in_int32_spec; lia|lia].
Qed.

Lemma safe_MarkForRetry t j msg :
  let n := wrap64 (Job.RetryCount j + 1) in
  n < Job.MaxRetries j →
  safe t (owns t j) (MarkForRetry (Job.ID j) n msg) (on_nil (row_of j)).
Proof.
  intros n Hlt. eapply safe_bind with (Q := on_ok (λ _, row_of j)); [|by intros [e|x] w o _ Hp].
  apply safe_sql; [auto with dispatch|done|].
  intros now u w o [Hd Hq] (Hj & Hs & Ho). rewrite mark_for_retry_stmt_spec by apply Hd.
  destruct (attempts_bounds j) as (En & Hn & Hpos); [by eapply inv_budget|done|].
  subst n. rewrite En in *. rewrite Hn, Hj.
  assert (edge j (retried_row now (Job.RetryCount j + 1) msg j)) by (by apply edge_retry).
  split_and!; [|by apply (put_job_guar _ _ j)|].
  - apply (put_job_inv _ Hd _ j); [done..|by split_and!| |done]. intros E. status_neq.
  - eexists. simpl. by rewrite lookup_insert_eq.
Qed.

Lemma safe_DeadLetter t j msg :
  let n := wrap64 (Job.RetryCount j + 1) in
  Job.MaxRetries j ≤ n →
  safe t (owns t j) (DeadLetter (Job.ID j) n msg) (λ _, Top).
Proof.
  intros n Hle. eapply safe_then with (Q := λ _, Top); [|done].
  apply safe_tx; [auto with dispatch|].
  intros fs now us w o [Hd Hq] (Hj & Hs & Ho).
  destruct (attempts_bounds j) as (En & Hn & Hpos); [by eapply inv_budget|done|].
  subst n. rewrite En in *.
  destruct (dead_letter_tx_atomic (w_db w) j (Job.RetryCount j + 1) msg fs now us)
    as [[e ->]|[[e ->]| ->]]; [apply Hd|done|done|unchanged|..].
  all: split_and!; [by apply dead_lettered_inv|by apply dead_lettered_guar|done].
Qed.

Lemma safe_RetryJob t P tid id : safe t P (RetryJob tid id) (on_ok row_of).
Proof.
  apply safe_tx; [auto with dispatch|].
  intros fs now us w o [Hd Hq] _.
  pose proof (retry_job_tx_atomic (w_db w) tid id fs now us) as Ht.
  specialize (Ht ltac:(apply Hd) ltac:(apply Hd)). cbn zeta in Ht.
  destruct (visible tid id (w_db w)) as [j|] eqn:Hv.
  2: { destruct Ht as [e ->]. unchanged. }
  case_decide as Hs.
  2: { destruct Ht as [e ->]. unchanged. }
  assert (tbl_jobs (w_db w) !! Job.ID j = Some j) as Hj.
  { unfold visible in Hv. destruct (tbl_jobs (w_db w) !! id) as [j'|] eqn:Hj; [|done].
    case_decide; simplify_eq. by rewrite (inv_jobs_keyed _ Hd _ _ Hj). }
  destruct Ht as [[e ->]|[[e ->]| ->]]; [unchanged|..].
  all: split_and!; [by apply revived_inv|by apply revived_guar|].
  - done.
  - eexists. simpl. by rewrite lookup_insert_eq.
Qed.

Lemma safe_CancelJob t P tid id : safe t P (CancelJob tid id) (λ _, Top).
Proof.
  eapply safe_then with (Q := λ _, Top).
  - apply safe_sql; [auto with dispatch|done|].
    intros now u w o [Hd Hq] _. rewrite cancel_job_stmt_spec by apply Hd.
    destruct (tbl_jobs (w_db w) !! id) as [j|] eqn:Hj; [|unchanged].
    case_decide as Hs; [|unchanged]. destruct Hs as [_ Hs].
    assert (edge j (cancelled_row now j)) by (by apply edge_cancel).
    split_and!; [..|done].
    + apply (put_job_inv _ Hd id j); [done..|by split_and!| |done]. intros E. status_neq.
    + apply (put_job_guar _ id j); [done..|by split_and!|]. intros E. status_neq.
  - intros [e|j]; [|done]. destruct (errors_Is _ _); [|done].
    eapply safe_then with (Q := λ _, Top); [|done].
    eapply safe_then with (Q := λ _, Top); [|done]. by apply safe_read.
Qed.

(** ** Redis commands *)

Lemma safe_Enqueue t (P : assn) q id :
  stable t P → (∀ w o, P w o → has_row id q w o) →
  safe t P (Queue.Enqueue q (uuid_String id)) (λ _, Top).
Proof.
  intros HP Hrow. eapply safe_then with (Q := λ _, P); [|done].
  apply safe_redis; [done|done|]. intros now w o [_ Hq] Hp.
  destruct (Hrow _ _ Hp) as (j & Hj & Eq). by eapply queued_LPUSH.
Qed.

Lemma safe_EnqueueDelayed t j runAt :
  safe t (row_of j) (EnqueueDelayed (Job.QueueName j) (uuid_String (Job.ID j)) runAt) (λ _, Top).
Proof.
  eapply safe_then with (Q := λ _, row_of j); [|done].
  apply safe_redis; [auto with dispatch|done|]. intros now w o [_ Hq] (j' & Hj' & Eq).
  by eapply queued_ZADD.
Qed.

(** A Redis command that keeps [queued_ids_ok] whatever the tables are. *)
Lemma safe_redis_top {X} t (c : Z → R → X * R) :
  (∀ now d s, queued_ids_ok d s → queued_ids_ok d (c now s).2) →
  safe t Top (redis_cmd c) (λ _, Top).
Proof.
  intros Hc. apply safe_redis; [auto with dispatch|done|]. intros now w o [_ Hq] _. by apply Hc.
Qed.

Lemma safe_top {A} t P (p : prog R A) Q : safe t Top p Q → safe t P p Q.
Proof. by apply safe_strengthen. Qed.

Lemma safe_quiet_top {A} t P (p : prog R A) : quiet p → safe t P p (λ _, Top).
Proof. intros Hq. apply safe_top. apply safe_quiet; auto with dispatch. Qed.

Lemma safe_Dequeue t qs : safe t Top (Dequeue qs) (λ _, Top).
Proof.
  eapply safe_then with (Q := λ _, Top); [|done].
  apply safe_redis_top. intros now d s Hq. by apply queued_BRPOP.
Qed.

Lemma safe_PromoteDue t q now lim : safe t Top (PromoteDue q now lim) (λ _, Top).
Proof.
  eapply safe_then with (Q := λ _, Top); [|done].
  apply safe_redis_top. intros n d s Hq. by apply queued_promote.
Qed.

Lemma safe_Remove t q m : safe t Top (Remove q m) (λ _, Top).
Proof.
  eapply safe_then with (Q := λ _, Top).
  { apply safe_redis_top. intros n d s Hq. by apply queued_LREM. }
  intros [e|[]]; [done|]. eapply safe_then with (Q := λ _, Top); [|done].
  apply safe_redis_top. intros n d s Hq. by apply queued_ZREM.
Qed.

Lemma safe_Heartbeat t wid : safe t Top (Heartbeat wid) (λ _, Top).
Proof.
  eapply safe_then with (Q := λ _, Top); [|done].
  apply safe_redis_top. intros n d s Hq. by apply queued_SETEX.
Qed.

Lemma safe_RemoveWorker t wid : safe t Top (RemoveWorker wid) (λ _, Top).
Proof.
  eapply safe_then with (Q := λ _, Top); [|done].
  apply safe_redis_top. intros n d s Hq. by apply queued_DEL.
Qed.

(** ** The producer *)

Lemma quiet_applyDefaults job : quiet (applyDefaults (R := R) job).
Proof.
  unfold applyDefaults. apply quiet_bind; [|done].
  case_decide; [|done]. apply quiet_bind; [apply quiet_uuid|done].
Qed.

Lemma safe_applyDefaults t job :
  Job.Status job = EmptyString →
  safe t Top (applyDefaults job) (λ job' _ _, Job.Status job' = StatusPending).
Proof.
  intros Hs. unfold applyDefaults.
  eapply safe_bind with (Q := λ job' _ _, Job.Status job' = EmptyString).
  - case_decide; [|by intros w o _ _]. eapply safe_bind; [apply safe_quiet; [apply quiet_uuid|auto with dispatch]|].
    intros u w o _ _. done.
  - intros job'. apply safe_ret. intros w o _ Hs'.
    rewrite decide_True; [done|]. destruct (Job.Payload _); case_decide; done.
Qed.

(** A program whose precondition is a fact about values. *)
Lemma safe_pure {A} t (X : Prop) (p : prog R A) Q :
  (X → safe t Top p Q) → safe t (λ _ _, X) p Q.
Proof.
  intros HX. destruct p as [a|msg|Y op k]; simpl in *; [|done|].
  - intros w o Hi Hx. by apply HX.
  - intros e w o Hi Hx. by apply HX.
Qed.

Lemma safe_swap_pure {A} t (P : assn) (X : Prop) (p : prog R A) Q :
  (X → safe t P p Q) → safe t (λ w o, P w o ∧ X) p Q.
Proof.
  intros HX. destruct p as [a|msg|Y op k]; simpl in *; [|done|].
  - intros w o Hi [Hp Hx]. by apply HX.
  - intros e w o Hi [Hp Hx]. by apply HX.
Qed.

Lemma safe_Submit t P job :
  Job.Status job = EmptyString → safe t P (Submit job) (λ _, Top).
Proof.
  intros Hs. apply safe_top. eapply safe_bind; [by apply safe_applyDefaults|].
  intros job'. apply (safe_pure t (Job.Status job' = StatusPending)). intros Hs'. case_decide; [done|].
  eapply safe_bind; [by apply safe_CreateJob|]. intros [e|j]; [done|].
  eapply safe_then with (Q := λ _, Top); [|done].
  apply safe_Enqueue; [apply stable_row_of|done].
Qed.

(** ** The worker *)

(** Handlers that change neither the tables nor Redis. *)
Definition quiet_registry (r : Registry R) : Prop :=
  ∀ ty h, handlers r !! ty = Some h → ∀ payload, quiet (h payload).

Lemma quiet_Dispatch r ty raw : quiet_registry r → quiet (Dispatch r ty raw).
Proof.
  intros Hr. unfold Dispatch, Get. destruct (handlers r !! ty) as [h|] eqn:Hh; [|done].
  destruct (decodePayload raw) as [e|pl]; [done|].
  apply quiet_bind; [by eapply Hr|]. intros [e|v]; [done|]. by destruct (json_Marshal v).
Qed.

Lemma safe_handleFailure t j err :
  safe t (owns t j) (handleFailure j err) (λ _, Top).
Proof.
  unfold handleFailure. destruct (Z.leb_spec (Job.MaxRetries j) (wrap64 (Job.RetryCount j + 1))).
  - eapply safe_then; [by apply safe_DeadLetter|]. intros [e|]; [done|].
    eapply safe_then with (Q := λ _, Top); [|done]. by apply safe_metric; auto with dispatch.
  - destruct (backoffFor _) as [b|]; [|done].
    eapply safe_bind; [by apply safe_MarkForRetry|]. intros [e|]; [done|].
    eapply safe_bind; [apply safe_quiet; [apply quiet_now|apply stable_row_of]|]. intros now.
    eapply safe_then; [apply safe_EnqueueDelayed|done].
Qed.

Lemma safe_process t registry m :
  quiet_registry registry → safe t Top (process registry m) (λ _, Top).
Proof.
  intros Hr. unfold process. destruct (uuid_Parse m) as [e|id]; [done|].
  eapply safe_bind; [apply safe_ClaimJob|]. intros [e|j]; [by destruct (errors_Is _ _)|].
  eapply safe_bind with (Q := λ _ w o, owns t j w o ∧ Job.ID j = id).
  { apply safe_quiet; [apply quiet_now|auto with dispatch]. }
  intros start. eapply safe_bind with (Q := λ _ w o, owns t j w o ∧ Job.ID j = id).
  { apply safe_quiet; [by apply quiet_Dispatch|auto with dispatch]. }
  intros res. eapply safe_bind with (Q := λ _ w o, owns t j w o ∧ Job.ID j = id).
  { apply safe_quiet; [apply quiet_now|auto with dispatch]. }
  intros stop. eapply safe_bind with (Q := λ _ w o, owns t j w o ∧ Job.ID j = id).
  { apply safe_metric; [auto with dispatch|done]. }
  intros _. apply (safe_swap_pure t (owns t j) (Job.ID j = id)). intros <-. destruct res as [err|res].
  - apply safe_handleFailure.
  - eapply safe_then; [apply safe_MarkCompleted|]. intros [e|]; [done|].
    eapply safe_then with (Q := λ _, Top); [|done]. by apply safe_metric; auto with dispatch.
Qed.

Lemma safe_loop t n (body : prog R bool) :
  safe t Top body (λ _, Top) → safe t Top (loop n body) (λ _, Top).
Proof.
  intros Hb. induction n as [|n IH]; [done|]. cbn [loop].
  eapply safe_bind; [exact Hb|]. intros [|]; [exact IH|done].
Qed.

Lemma safe_consume t n registry qs :
  quiet_registry registry → safe t Top (consume n registry qs) (λ _, Top).
Proof.
  intros Hr. apply safe_loop. unfold consume_once.
  eapply safe_bind; [apply safe_quiet_top, quiet_ctx|]. intros [|]; [done|].
  eapply safe_bind; [apply safe_Dequeue|]. intros [e|[m q]].
  - destruct (errors_Is _ _); [done|].
    eapply safe_bind; [apply safe_quiet_top, quiet_ctx|]. intros [|]; [done|].
    eapply safe_then; [apply safe_quiet_top, quiet_wait|done].
  - eapply safe_then; [by apply safe_process|done].
Qed.

Lemma safe_poll_queues t now qs : safe t Top (poll_queues now qs) (λ _, Top).
Proof.
  induction qs as [|q qs IH]; [done|]. cbn [poll_queues].
  eapply safe_bind; [apply safe_PromoteDue|]. intros [e|k]; [|exact IH].
  eapply safe_bind; [apply safe_quiet_top, quiet_ctx|]. intros [|]; [done|exact IH].
Qed.

Lemma safe_poll t n qs : safe t Top (poll n qs) (λ _, Top).
Proof.
  apply safe_loop. unfold poll_once.
  eapply safe_bind; [apply safe_quiet_top, quiet_wait|]. intros [|]; [done|].
  eapply safe_bind; [apply safe_quiet_top, quiet_now|]. intros now. apply safe_poll_queues.
Qed.

Lemma safe_beat t wid : safe t Top (beat wid) (λ _, Top).
Proof.
  eapply safe_then; [apply safe_Heartbeat|]. intros [e|]; [|done].
  eapply safe_then; [apply safe_quiet_top, quiet_ctx|done].
Qed.

Lemma safe_heartbeat t n wid : safe t Top (heartbeat n wid) (λ _, Top).
Proof.
  eapply safe_then; [apply safe_beat|]. intros _. apply safe_loop.
  eapply safe_bind; [apply safe_quiet_top, quiet_wait|]. intros [|].
  - eapply safe_then; [apply safe_RemoveWorker|done].
  - eapply safe_then; [apply safe_beat|done].
Qed.

(** The built-in handlers are quiet. *)
Lemma quiet_DefaultRegistry r : DefaultRegistry = Some r → quiet_registry r.
Proof.
  intros Hr ty h Hh. apply (DefaultRegistry_handlers r) in Hh; [|done].
  destruct Hh as [[-> ->]|[[-> ->]|[[-> ->]|[-> ->]]]]; intros payload; try done.
  - unfold SendEmailHandler. case_decide; [done|]. apply quiet_bind; [apply quiet_uuid|done].
  - unfold ExportPDFHandler. apply quiet_bind; [apply quiet_wait|]. intros [|]; [done|].
    apply quiet_bind; [|done]. case_decide; [|done]. apply quiet_bind; [apply quiet_uuid|done].
Qed.

(** ** The scheduler *)

Lemma safe_fireSchedule t now sc : safe t Top (fireSchedule now sc) (λ _, Top).
Proof.
  unfold fireSchedule. destruct (cron_ParseStandard _) as [e|s]; [done|].
  eapply safe_bind with (Q := λ _, Top).
  { eapply safe_then with (Q := λ _, Top); [|done].
    apply safe_sql; [auto with dispatch|done|].
    intros n u w o [Hd _] _. simpl. split_and!; [|by apply guar_same_jobs|done].
    destruct Hd. by constructor. }
  intros [e|[|]]; [| |done].
  - eapply safe_then; [apply safe_quiet_top, quiet_ctx|done].
  - eapply safe_then; [by apply safe_Submit|done].
Qed.

Lemma safe_fire_all t now due : safe t Top (fire_all now due) (λ _, Top).
Proof.
  induction due as [|sc due IH]; [done|]. cbn [fire_all].
  eapply safe_bind; [apply safe_quiet_top, quiet_ctx|]. intros [|]; [done|].
  eapply safe_then; [apply safe_fireSchedule|]. by intros [].
Qed.

Lemma safe_handleSchedules t : safe t Top handleSchedules (λ _, Top).
Proof.
  eapply safe_bind; [apply safe_quiet_top, quiet_now|]. intros now.
  eapply safe_bind with (Q := λ _, Top).
  { eapply safe_then with (Q := λ _, Top); [|done]. by apply safe_read. }
  intros [e|scs]; [|apply safe_fire_all].
  eapply safe_then; [apply safe_quiet_top, quiet_ctx|done].
Qed.

Lemma safe_scheduler t n : safe t Top (scheduler n) (λ _, Top).
Proof.
  eapply safe_then; [apply safe_handleSchedules|]. intros _. apply safe_loop.
  eapply safe_bind; [apply safe_quiet_top, quiet_wait|]. intros [|]; [done|].
  eapply safe_then; [apply safe_handleSchedules|done].
Qed.

(** ** The job endpoints *)

Lemma safe_listJobs t r : safe t Top (listJobs r) (λ _, Top).
Proof.
  unfold listJobs. destruct (tenantID r) as [resp|tid]; [done|].
  destruct (parseListParams r) as [e|p]; [done|].
  eapply safe_then with (Q := λ _, Top); [|done]. unfold ListJobs.
  destruct (list_where _ _) as [args conds].
  eapply safe_then with (Q := λ _, Top); [by apply safe_read|]. intros [e|n]; [done|].
  eapply safe_then with (Q := λ _, Top); [|done]. apply safe_read.
  intros now u d. unfold page_stmt. by repeat case_match.
Qed.

Lemma safe_enqueueJob t r : safe t Top (enqueueJob r) (λ _, Top).
Proof.
  unfold enqueueJob. destruct (tenantID r) as [resp|tid]; [done|].
  destruct (decode_enqueueRequest _) as [e|req]; [done|]. case_decide; [done|].
  eapply safe_then; [by apply safe_Submit|]. intros [[e|] j]; [by destruct (errors_Is _ _)|done].
Qed.

Lemma safe_getJob t r : safe t Top (getJob r) (λ _, Top).
Proof.
  unfold getJob. destruct (tenantID r) as [resp|tid]; [done|].
  destruct (url_job_id r) as [resp|id]; [done|].
  eapply safe_then with (Q := λ _, Top).
  - eapply safe_then with (Q := λ _, Top); [by apply safe_read|].
    intros [e|j]; [by destruct (errors_Is _ _)|done].
  - intros [e|j]; [by destruct (errors_Is _ _)|done].
Qed.

Lemma safe_retryJob t r : safe t Top (retryJob r) (λ _, Top).
Proof.
  unfold retryJob. destruct (tenantID r) as [resp|tid]; [done|].
  destruct (url_job_id r) as [resp|id]; [done|].
  eapply safe_bind; [apply safe_RetryJob|].
  intros [e|j]; [by repeat destruct (errors_Is _ _)|].
  eapply safe_then; [apply safe_Enqueue; [apply stable_row_of|done]|]. by intros [|].
Qed.

Lemma safe_cancelJob t r : safe t Top (cancelJob r) (λ _, Top).
Proof.
  unfold cancelJob. destruct (tenantID r) as [resp|tid]; [done|].
  destruct (url_job_id r) as [resp|id]; [done|].
  eapply safe_then; [apply safe_CancelJob|].
  intros [e|j]; [by repeat destruct (errors_Is _ _)|].
  eapply safe_then; [apply safe_Remove|done].
Qed.
End Safety.
