(* ===== verification/SafetyApi.v ===== *)
(** * The API keeps the invariant and the lifecycle

    The account endpoints, the middlewares, the statistics and the router are [safe], like the
    programs of [Safety]. *)
From S2P Require Import Prelude GoStd Models Interfaces Db Effects Crypto GoStrings.
From S2P Require Import Accounts Auth Store Stats Queue Lifecycle AccountsFacts Rely Safety.
From S2P Require Import Http JobsApi AuthApi KeysApi AdminApi ApiMetrics Routes.
Open Scope Z_scope.

Section SafetyApi.
Context `{Postgres} `{UUIDLib} `{GoText} `{Bcrypt} `{Router} {R : Type} `{Redis R} `{!RedisLaws R}.
Implicit Types (t : nat) (r : Request).

(** Statements on the account tables. *)
Lemma safe_account {X} t (q : sql X) :
  (∀ now u d, account_step d (q now u d).2) → safe t Top (exec_sql q) (λ _, Top).
Proof.
  intros Hq. apply safe_sql; [auto with dispatch|done|].
  intros now u w o [Hd _] _. specialize (Hq now u (w_db w)).
  destruct (q now u (w_db w)) as [x d']. simpl in Hq.
  split_and!; [by eapply account_step_inv|by apply guar_same_jobs; destruct Hq|done].
Qed.

Lemma safe_account_tx {X} t (b : tx X) :
  tx_keeps account_step b → safe t Top (exec_tx b) (λ _, Top).
Proof.
  intros Hb. apply safe_tx; [auto with dispatch|].
  intros fs now us w o [Hd _] _.
  pose proof (run_tx_keeps account_step b fs now us (w_db w) _ Hb) as Hq.
  destruct (run_tx b fs now us (w_db w)) as [x d']. simpl in Hq.
  split_and!; [by eapply account_step_inv|by apply guar_same_jobs; destruct Hq|done].
Qed.

(** A request followed by a continuation that is safe whatever the answer. *)
Ltac safe_step := eapply safe_then with (Q := λ _, Top).

Lemma quiet_rand n : quiet (rand_Read (R := R) n).
Proof. by apply quiet_request. Qed.
Lemma quiet_bcrypt : quiet (bcrypt_work (R := R)).
Proof. by apply quiet_request. Qed.

Lemma quiet_randomToken : quiet (randomToken (R := R)).
Proof. apply quiet_bind; [apply quiet_rand|done]. Qed.

Lemma safe_startSession t cfg uid : safe t Top (startSession (R := R) cfg uid) (λ _, Top).
Proof.
  safe_step; [apply safe_quiet_top, quiet_randomToken|]. intros [e|tok]; [done|].
  safe_step; [apply safe_quiet_top, quiet_now|]. intros now.
  safe_step.
  { safe_step; [apply safe_account; intros; apply insert_session_step|done]. }
  intros [e|]; [done|]. safe_step; [|done].
  safe_step; [apply safe_quiet_top, quiet_now|done].
Qed.

Lemma safe_signup t cfg r : safe t Top (signup (R := R) cfg r) (λ _, Top).
Proof.
  unfold signup. destruct (decodeCredentials r) as [resp|req]; [done|].
  safe_step.
  { safe_step; [apply safe_quiet_top, quiet_rand|]. intros [e|salt]; [done|].
    safe_step; [apply safe_quiet_top, quiet_bcrypt|done]. }
  intros [e|h]; [done|].
  safe_step; [apply safe_account_tx, create_account_tx_step|].
  intros [e|[tn u]]; [by destruct (errors_Is _ _)|].
  safe_step; [apply safe_startSession|done].
Qed.

Lemma safe_login t cfg r : safe t Top (login (R := R) cfg r) (λ _, Top).
Proof.
  unfold login. destruct (decodeCredentials r) as [resp|req]; [done|].
  safe_step.
  { safe_step; [by apply safe_read|done]. }
  intros [e|u].
  - destruct (errors_Is _ _); [|done]. safe_step; [apply safe_quiet_top, quiet_bcrypt|done].
  - safe_step; [safe_step; [apply safe_quiet_top, quiet_bcrypt|done]|].
    intros [e|]; [done|]. safe_step; [apply safe_startSession|done].
Qed.

Lemma safe_logout t cfg r : safe t Top (logout (R := R) cfg r) (λ _, Top).
Proof.
  unfold logout. destruct (Cookie r _) as [v|]; [|done].
  safe_step; [|done].
  safe_step; [apply safe_account; intros; apply delete_session_step|done].
Qed.

Lemma safe_me t r : safe t Top (me (R := R) r) (λ _, Top).
Proof.
  unfold me. destruct (user r) as [resp|u]; [done|].
  safe_step; [|done]. safe_step; [by apply safe_read|done].
Qed.

(** ** Middlewares *)

Lemma safe_RequireSession t cfg next r :
  (∀ r', safe t Top (next r') (λ _, Top)) → safe t Top (RequireSession (R := R) cfg next r) (λ _, Top).
Proof.
  intros Hn. unfold RequireSession. destruct (Cookie r _) as [v|]; [|done].
  safe_step; [safe_step; [by apply safe_read|done]|].
  intros [e|u]; [by destruct (errors_Is _ _)|apply Hn].
Qed.

Lemma safe_RequireAPIKey t next r :
  (∀ r', safe t Top (next r') (λ _, Top)) → safe t Top (RequireAPIKey (R := R) next r) (λ _, Top).
Proof.
  intros Hn. unfold RequireAPIKey. destruct (bearerToken _) as [k|]; [|done].
  destruct (negb _); [done|].
  safe_step; [safe_step; [by apply safe_read|done]|].
  intros [e|[tid kid]]; [by destruct (errors_Is _ _)|].
  safe_step; [|intros _; apply Hn].
  safe_step; [apply safe_account; intros; apply touch_key_step|done].
Qed.

(** ** Keys *)

Lemma safe_listKeys t r : safe t Top (listKeys (R := R) r) (λ _, Top).
Proof.
  unfold listKeys. destruct (tenantID r) as [resp|tid]; [done|].
  safe_step; [|done]. safe_step; [by apply safe_read|done].
Qed.

Lemma safe_createKey t r : safe t Top (createKey (R := R) r) (λ _, Top).
Proof.
  unfold createKey. destruct (tenantID r) as [resp|tid]; [done|].
  destruct (decode_body _ _ _) as [e|req]; [done|]. case_decide; [done|].
  destruct (_ <? _)%nat; [done|].
  safe_step; [safe_step; [apply safe_quiet_top, quiet_randomToken|done]|].
  intros [e|[full pre]]; [done|]. safe_step; [|done].
  safe_step; [apply safe_account; intros; apply insert_key_step|done].
Qed.

Lemma safe_deleteKey t r : safe t Top (deleteKey (R := R) r) (λ _, Top).
Proof.
  unfold deleteKey. destruct (tenantID r) as [resp|tid]; [done|].
  destruct (uuid_Parse _) as [e|id]; [done|]. safe_step; [|done].
  safe_step; [apply safe_account; intros; apply delete_key_step|done].
Qed.

(** ** Statistics *)

(** A Redis command that only reads. *)
Lemma safe_redis_read {X} t (c : Z → R → X * R) :
  (∀ now s, (c now s).2 = s) → safe t Top (redis_cmd c) (λ _, Top).
Proof. intros Hc. apply safe_redis_top. intros now d s Hq. by rewrite Hc. Qed.

Lemma safe_read_depths t names : safe t Top (read_depths (R := R) names) (λ _, Top).
Proof.
  induction names as [|q names IH]; [done|]. cbn [read_depths].
  safe_step; [by apply safe_redis_read|]. intros [e|n]; [done|].
  safe_step; [by apply safe_redis_read|]. intros [e|m]; [done|].
  safe_step; [exact IH|done].
Qed.

Lemma safe_scan_workers t n c seen : safe t Top (scan_workers (R := R) n c seen) (λ _, Top).
Proof.
  revert c seen. induction n as [|n IH]; intros c seen; [done|]. cbn [scan_workers].
  safe_step; [by apply safe_redis_read|]. intros [e|[c' ks]]; [done|].
  destruct (c' =? 0); [done|apply IH].
Qed.

Lemma safe_stats t queues n r : safe t Top (stats (R := R) queues n r) (λ _, Top).
Proof.
  unfold stats. destruct (tenantID r) as [resp|tid]; [done|].
  safe_step; [safe_step; [by apply safe_read|done]|]. intros [e|names]; [done|].
  safe_step; [apply safe_read_depths|]. intros [msg|depths]; [done|].
  safe_step; [safe_step; [by apply safe_read|done]|]. intros [e|m]; [done|].
  safe_step; [apply safe_scan_workers|done].
Qed.

Lemma safe_ListJobs t tid f : safe t Top (ListJobs (R := R) tid f) (λ _, Top).
Proof.
  unfold ListJobs. destruct (list_where _ _) as [args conds].
  safe_step; [by apply safe_read|]. intros [e|n]; [done|].
  safe_step; [|done]. apply safe_read. intros now u d. unfold page_stmt. by repeat case_match.
Qed.

Lemma safe_dashboard t r : safe t Top (dashboard (R := R) r) (λ _, Top).
Proof.
  unfold dashboard. destruct (tenantID r) as [resp|tid]; [done|].
  safe_step; [safe_step; [by apply safe_read|done]|]. intros [e|[counts today]]; [done|].
  safe_step; [apply safe_ListJobs|done].
Qed.

Lemma safe_health t r : safe t Top (health (R := R) r) (λ _, Top).
Proof.
  safe_step; [safe_step; [by apply safe_read|done]|]. intros pg.
  safe_step; [safe_step; [by apply safe_redis_read|done]|]. intros rd. by destruct pg, rd.
Qed.

(** ** The router *)

Lemma safe_Routes t api rt r : rt ∈ Routes (R := R) api → safe t Top (rHandler rt r) (λ _, Top).
Proof.
  unfold Routes. rewrite !elem_of_cons, elem_of_nil. intros Hrt.
  repeat (destruct Hrt as [->|Hrt]); [..|done]; cbn [rHandler];
    try (apply safe_RequireSession; intros r'); try (apply safe_RequireAPIKey; intros r').
  - apply safe_health.
  - apply safe_signup.
  - apply safe_login.
  - apply safe_logout.
  - apply safe_me.
  - apply safe_listJobs.
  - apply safe_enqueueJob.
  - apply safe_getJob.
  - apply safe_retryJob.
  - apply safe_cancelJob.
  - apply safe_listKeys.
  - apply safe_createKey.
  - apply safe_deleteKey.
  - apply safe_stats.
  - apply safe_dashboard.
Qed.

Lemma safe_ServeHTTP t api r : safe t Top (ServeHTTP (R := R) api r) (λ _, Top).
Proof.
  unfold ServeHTTP, CORS. case_decide; [done|]. safe_step; [|done].
  unfold route_request. destruct (chi_route _ _ _) as [n param| |]; [|done..].
  destruct (Routes api !! n) as [rt|] eqn:Hrt; [|done].
  apply safe_Routes with api. by eapply list_elem_of_lookup_2.
Qed.

(** ** A scrape of the metrics *)

Lemma safe_read_lens t names acc : safe t Top (read_lens (R := R) names acc) (λ _, Top).
Proof.
  revert acc. induction names as [|name names IH]; intros acc; [done|]. cbn [read_lens].
  safe_step; [by apply safe_redis_read|]. intros [e|n]; [done|apply IH].
Qed.

Lemma safe_Collect t configured n : safe t Top (Collect (R := R) (mkMetricsSource configured n)) (λ _, Top).
Proof.
  safe_step.
  { safe_step; [safe_step; [by apply safe_read|done]|]. intros [e|names]; [done|].
    apply safe_read_lens. }
  intros depths. safe_step; [apply safe_scan_workers|done].
Qed.
End SafetyApi.
