(* ===== verification/System.v ===== *)
(** * The running system: any number of processes over one database and one Redis

    Worker loops, pollers, heartbeats, schedulers, scrapes and HTTP requests run side by side.
    At each step one of them makes its next request, with any outcome; a process may start or
    stop at any time; and the surroundings may change what the program does not own. *)
From S2P Require Import Prelude GoStd Models Interfaces Db Effects Store Queue Schedules.
From S2P Require Import Enqueue Registry Worker Scheduler Http JobsApi Lifecycle StoreFacts.
From S2P Require Import Rely Safety AuthApi ApiMetrics Routes AccountsFacts SafetyApi.
Open Scope Z_scope.

Section System.
Context `{Postgres} `{UUIDLib} `{GoText} `{Bcrypt} `{Router} {R : Type} `{Redis R}.
Context {Sch : Type} `{Cron Sch}.

(** ** What can run *)

(** A goroutine of a worker, a scheduler, a scrape of the API's metrics, or an HTTP request. *)
Inductive service :=
| Consumer (passes : nat) (registry : Registry R) (queues : list string)
| Poller (passes : nat) (queues : list string)
| Heartbeats (passes : nat) (workerID : string)
| SchedulerLoop (ticks : nat)
| Scrape (configured : list string) (rounds : nat)
| HTTP (api : ApiConfig) (r : Request).

Definition body (s : service) : prog R unit :=
  match s with
  | Consumer n registry queues => consume n registry queues
  | Poller n queues => poll n queues
  | Heartbeats n workerID => heartbeat n workerID
  | SchedulerLoop n => scheduler n
  | Scrape configured n => let! _ := Collect (mkMetricsSource configured n) in Ret tt
  | HTTP api r => let! _ := ServeHTTP api r in Ret tt
  end.

(** A worker's handlers leave the tables and Redis alone; the built-in ones do. *)
Definition admissible (s : service) : Prop :=
  match s with
  | Consumer _ registry _ => quiet_registry registry
  | _ => True
  end.

(** ** Configurations

    The world, the processes, and a history variable: who moved each job to [processing]. *)
Record config := mkConfig {
  c_world : world R;
  c_threads : list (prog R unit);
  c_owner : owner;
}.

(** Changes from outside: schedules, accounts being edited within the constraints of their
    tables, Redis losing entries or expiring keys. *)
Definition outside (w w' : world R) : Prop :=
  tbl_jobs (w_db w') = tbl_jobs (w_db w)
  ∧ tbl_dead_letter_queue (w_db w') = tbl_dead_letter_queue (w_db w)
  ∧ (∀ id, is_Some (tbl_tenants (w_db w) !! id) → is_Some (tbl_tenants (w_db w') !! id))
  ∧ accounts (w_db w')
  ∧ (∀ k m, m ∈ rd_list (w_redis w') k → m ∈ rd_list (w_redis w) k)
  ∧ (∀ k m, is_Some (rd_zset (w_redis w') k !! m) → is_Some (rd_zset (w_redis w) k !! m)).

Inductive label := LSpawn | LRun (t : nat) | LStop (t : nat) | LOutside.

Inductive sys_step : label → config → config → Prop :=
| sys_spawn w ts o s :
    admissible s → sys_step LSpawn (mkConfig w ts o) (mkConfig w (ts ++ [body s]) o)
| sys_run w ts o t e p p' w' :
    ts !! t = Some p → step e p w = (p', w') →
    sys_step (LRun t) (mkConfig w ts o)
      (mkConfig w' (<[t := p']> ts) (claim_owner t (w_db w) (w_db w') o))
| sys_stop w ts o t :
    sys_step (LStop t) (mkConfig w ts o) (mkConfig w (<[t := Ret tt]> ts) o)
| sys_outside w w' ts o :
    outside w w' → sys_step LOutside (mkConfig w ts o) (mkConfig w' ts o).

(** No jobs yet, nothing queued, nothing running. *)
Definition initial (c : config) : Prop :=
  tbl_jobs (w_db (c_world c)) = ∅ ∧ tbl_dead_letter_queue (w_db (c_world c)) = ∅
  ∧ accounts (w_db (c_world c)) ∧ (∀ k, rd_list (w_redis (c_world c)) k = []) ∧ (∀ k, rd_zset (w_redis (c_world c)) k = ∅)
  ∧ c_threads c = [].

Inductive reachable : config → Prop :=
| reach_init c : initial c → reachable c
| reach_step l c c' : reachable c → sys_step l c c' → reachable c'.

Definition some_step (c c' : config) : Prop := ∃ l, sys_step l c c'.
Definition steps : config → config → Prop := rtc some_step.

(** The attempts at job [id] since it was created or last retried by hand: a claim starts one. *)
Definition status_in (c : config) (id : uuid) : option Status :=
  Job.Status <$> tbl_jobs (w_db (c_world c)) !! id.

Definition count_attempt (id : uuid) (c c' : config) (n : nat) : nat :=
  if decide (status_in c id = Some StatusPending ∧ status_in c' id = Some StatusProcessing)
  then S n
  else if decide (status_in c id = Some StatusFailed ∧ status_in c' id = Some StatusPending)
  then 0%nat
  else n.

Inductive attempts (id : uuid) : nat → config → Prop :=
| attempts_init c : initial c → attempts id 0 c
| attempts_step l n c c' :
    attempts id n c → sys_step l c c' → attempts id (count_attempt id c c' n) c'.

(** ** Schedules, for computing runs *)

Inductive action := ASpawn (s : service) | ARun (t : nat) (e : reply) | AStop (t : nat).

Definition act (c : config) (a : action) : config :=
  let 'mkConfig w ts o := c in
  match a with
  | ASpawn s => mkConfig w (ts ++ [body s]) o
  | ARun t e =>
      match ts !! t with
      | None => c
      | Some p =>
          let '(p', w') := step e p w in
          mkConfig w' (<[t := p']> ts) (claim_owner t (w_db w) (w_db w') o)
      end
  | AStop t => mkConfig w (<[t := Ret tt]> ts) o
  end.

Definition admissible_action (a : action) : Prop :=
  match a with ASpawn s => admissible s | _ => True end.

(** The jobs of a configuration. *)
Definition job_of (c : config) (id : uuid) : option Job := tbl_jobs (w_db (c_world c)) !! id.
Definition dlq_of (c : config) (id : uuid) : option DLQRow :=
  tbl_dead_letter_queue (w_db (c_world c)) !! id.

Definition label_of (a : action) : label :=
  match a with ASpawn _ => LSpawn | ARun t _ => LRun t | AStop t => LStop t end.

(** The action is a step: its process exists. *)
Definition enabled (c : config) (a : action) : Prop :=
  match a with
  | ASpawn s => admissible s
  | ARun t _ => is_Some (c_threads c !! t)
  | AStop _ => True
  end.

Lemma act_step c a : enabled c a → sys_step (label_of a) c (act c a).
Proof.
  intros Ha. destruct c as [w ts o], a as [s|t e|t]; simpl in *.
  - by apply sys_spawn.
  - destruct Ha as [p Hp]. rewrite Hp. destruct (step e p w) as [p' w'] eqn:E.
    by eapply sys_run.
  - apply sys_stop.
Qed.

Lemma reachable_act c a : reachable c → admissible_action a → reachable (act c a).
Proof.
  intros Hc Ha. destruct c as [w ts o], a as [s|t e|t]; simpl.
  - by eapply reach_step, sys_spawn.
  - destruct (ts !! t) as [p|] eqn:Hp; [|done]. destruct (step e p w) as [p' w'] eqn:E.
    by eapply reach_step, sys_run.
  - eapply reach_step, sys_stop. exact Hc.
Qed.

Lemma reachable_acts c l :
  reachable c → Forall admissible_action l → reachable (foldl act c l).
Proof.
  revert c. induction l as [|a l IH]; intros c Hc; [done|].
  intros [? ?]%Forall_cons. apply IH; [by apply reachable_act|done].
Qed.

Lemma act_enabled c a : admissible_action a → act c a = c ∨ enabled c a.
Proof.
  destruct c as [w ts o], a as [s|t e|t]; simpl; intros Ha; [by right| |by right].
  destruct (ts !! t); [right; eauto|by left].
Qed.

Lemma steps_acts c l : Forall admissible_action l → steps c (foldl act c l).
Proof.
  revert c. induction l as [|a l IH]; intros c; [by constructor|].
  intros [Ha Hl]%Forall_cons. simpl. specialize (IH (act c a) Hl).
  assert (act c a = c ∨ enabled c a) as [E|He] by by apply act_enabled.
  - by rewrite E in *.
  - eapply rtc_l; [|exact IH]. eexists. by apply act_step.
Qed.

Lemma attempts_acts id n c l :
  attempts id n c → Forall admissible_action l → ∃ n', attempts id n' (foldl act c l).
Proof.
  revert n c. induction l as [|a l IH]; intros n c Hn; [eauto|].
  intros [Ha Hl]%Forall_cons. simpl.
  assert (act c a = c ∨ enabled c a) as [E|He] by by apply act_enabled.
  - rewrite E. eauto.
  - eapply IH; [|done]. eapply attempts_step; [exact Hn|]. by apply act_step.
Qed.

Context `{!RedisLaws R}.

(** ** The invariant of the system *)

Definition thread_ok (t : nat) (w : world R) (o : owner) (p : prog R unit) : Prop :=
  ∃ P Q, stable t P ∧ P w o ∧ safe t P p Q.

Definition sys_inv (c : config) : Prop :=
  inv (c_world c)
  ∧ ∀ t p, c_threads c !! t = Some p → thread_ok t (c_world c) (c_owner c) p.

Lemma safe_body t s : admissible s → safe t Top (body s) (λ _, Top).
Proof.
  destruct s as [n reg qs|n qs|n wid|n|qs n|api r]; cbn [body admissible]; intros Ha.
  - by apply safe_consume.
  - apply safe_poll.
  - apply safe_heartbeat.
  - apply safe_scheduler.
  - eapply safe_then; [apply safe_Collect|done].
  - eapply safe_then; [apply safe_ServeHTTP|done].
Qed.

(** One request of a safe program. *)
Lemma safe_step t e p w (o : owner) p' w' :
  inv w → thread_ok t w o p → step e p w = (p', w') →
  good t o w w' ∧ thread_ok t w' (own_after t w w' o) p'.
Proof.
  intros Hi (P & Q & Hst & HP & Hs) Hstep. destruct p as [a|msg|X op k]; simpl in Hstep.
  - simplify_eq. split; [by apply good_refl|]. exists P, Q. split_and!; [done| |done].
    eapply Hst; [|exact HP]. by apply rely_refl.
  - simplify_eq. split; [by apply good_refl|]. exists P, Q. split_and!; [done| |done].
    eapply Hst; [|exact HP]. by apply rely_refl.
  - specialize (Hs e w o Hi HP). destruct (interp op e w) as [x w1]. simplify_eq.
    destruct Hs as [Hg (P' & ? & ? & ?)]. split; [done|]. by exists P', Q.
Qed.

Lemma rely_outside t w w' (o : owner) : outside w w' → rely t w o w' o.
Proof.
  intros (E & _) id j Hj. exists j. rewrite E. split_and!; [done|apply same_identity_refl|done].
Qed.

Lemma inv_outside w w' : outside w w' → inv w → inv w'.
Proof.
  intros (Ej & Ed & Ht & Ha & Hl & Hz) [[] Hq]. split.
  - constructor; rewrite ?Ej, ?Ed; eauto.
  - intros q m Hm. rewrite Ej. apply Hq. destruct Hm; eauto.
Qed.

Lemma sys_inv_step l c c' : sys_inv c → sys_step l c c' → sys_inv c'.
Proof.
  intros [Hi Ht] Hstep. destruct Hstep as [w ts o s Ha|w ts o t e p p' w' Hp Hstep|w ts o t|w w' ts o Ho];
    simpl in *.
  - split; [done|]. simpl. intros t p [[_ ?]|[-> Hp]]%lookup_snoc_Some; [by apply Ht|]. subst p.
    exists Top, (λ _, Top). split_and!; [apply stable_Top|done|by apply safe_body].
  - destruct (safe_step _ _ _ _ _ _ _ Hi (Ht _ _ Hp) Hstep) as [[Hi' Hg] Hok].
    split; [done|]. simpl. intros t' p2 Hp2.
    destruct (decide (t = t')) as [<-|Hne].
    + rewrite list_lookup_insert_eq in Hp2 by (by eapply lookup_lt_Some). by simplify_eq.
    + rewrite list_lookup_insert_ne in Hp2 by done.
      destruct (Ht _ _ Hp2) as (P & Q & Hst & HP & Hs). exists P, Q. split_and!; [done| |done].
      eapply Hst; [|exact HP]. by apply guar_rely.
  - split; [done|]. simpl. intros t' p2 Hp2.
    destruct (decide (t = t')) as [<-|Hne].
    + apply list_lookup_insert_Some in Hp2 as [(_ & <- & _)|[? _]]; [|done].
      exists Top, (λ _, Top). split_and!; [apply stable_Top|done|done].
    + rewrite list_lookup_insert_ne in Hp2 by done. by apply Ht.
  - split; [by eapply inv_outside|]. simpl. intros t p Hp.
    destruct (Ht _ _ Hp) as (P & Q & Hst & HP & Hs). exists P, Q. split_and!; [done| |done].
    eapply Hst; [|exact HP]. by apply rely_outside.
Qed.

Lemma reachable_inv c : reachable c → sys_inv c.
Proof.
  induction 1 as [c (Ej & Ed & Ea & El & Ez & Et)|]; [|by eapply sys_inv_step].
  split; [split|].
  - constructor; rewrite ?Ej, ?Ed; try done; intros ??; rewrite lookup_empty; done.
  - intros q m. rewrite El, Ez, lookup_empty. intros [?%elem_of_nil|[? ?]]; done.
  - rewrite Et. intros t p. by rewrite lookup_nil.
Qed.

(** What a step does to the job rows. *)
Lemma sys_step_guar l c c' :
  reachable c → sys_step l c c' →
  ∃ t, guar t (c_owner c) (w_db (c_world c)) (w_db (c_world c'))
     ∧ (l = LRun t ∨ tbl_jobs (w_db (c_world c')) = tbl_jobs (w_db (c_world c))).
Proof.
  intros [Hi Ht]%reachable_inv Hstep.
  destruct Hstep as [w ts o s Ha|w ts o t e p p' w' Hp Hstep|w ts o t|w w' ts o Ho]; simpl in *.
  - exists 0%nat. auto with dispatch.
  - exists t. split; [|by left].
    by destruct (safe_step _ _ _ _ _ _ _ Hi (Ht _ _ Hp) Hstep) as [[_ Hg] _].
  - exists 0%nat. auto with dispatch.
  - destruct Ho as [E _]. exists 0%nat. auto with dispatch.
Qed.

Lemma job_step l c c' id j :
  reachable c → sys_step l c c' → job_of c id = Some j →
  ∃ j', job_of c' id = Some j' ∧ edge j j' ∧ same_identity j j'
      ∧ (Job.Status j = StatusProcessing → (∀ t, l = LRun t → c_owner c id ≠ Some t) → j' = j).
Proof.
  intros Hc Hl Hj. destruct (sys_step_guar _ _ _ Hc Hl) as (t & Hg & Hcase).
  destruct (guar_persist _ _ _ _ _ _ Hg Hj) as (j' & Hj' & He & Hid & Hown).
  exists j'. split_and!; [done..|]. intros Hs Hne.
  destruct Hcase as [->|E]; [by apply Hown; auto|].
  unfold job_of in *. rewrite E, Hj in Hj'. by simplify_eq.
Qed.

Lemma reachable_steps c c' : reachable c → steps c c' → reachable c'.
Proof. intros Hc. induction 1 as [|c1 c2 c3 [l Hl] _ IH]; [done|]. by eapply IH, reach_step. Qed.

(** A property of a job's row that no legal change of the row invalidates is kept. *)
Lemma steps_keep (P : Job → Prop) c c' id j :
  (∀ j1 j2, P j1 → edge j1 j2 → same_identity j1 j2 → P j2) →
  reachable c → steps c c' → job_of c id = Some j → P j →
  ∃ j', job_of c' id = Some j' ∧ P j'.
Proof.
  intros HP Hc Hsteps. revert Hc j.
  induction Hsteps as [c|c1 c2 c3 [l Hl] _ IH]; intros Hc j Hj Hp; [eauto|].
  destruct (job_step _ _ _ _ _ Hc Hl Hj) as (j2 & Hj2 & He & Hid & _).
  eapply IH; [by eapply reach_step|done|eauto].
Qed.

Lemma attempts_reachable id n c : attempts id n c → reachable c.
Proof. induction 1; [by apply reach_init|by eapply reach_step]. Qed.

(** The attempt a job is in, or was completed by, is not in its [retry_count]. *)
Definition attempt_open (s : Status) : Z :=
  if decide (s = StatusProcessing ∨ s = StatusCompleted) then 1 else 0.

Lemma attempts_count id n c :
  attempts id n c →
  match job_of c id with
  | None => n = 0%nat
  | Some j => Z.of_nat n = Job.RetryCount j + attempt_open (Job.Status j)
  end.
Proof.
  induction 1 as [c (Ej & _)|l n c c' Hn IH Hl].
  { unfold job_of. by rewrite Ej, lookup_empty. }
  pose proof (attempts_reachable _ _ _ Hn) as Hc.
  unfold count_attempt, status_in. fold (job_of c id) (job_of c' id).
  destruct (job_of c id) as [j|] eqn:Hj; cbn [fmap option_fmap option_map].
  - destruct (job_step _ _ _ _ _ Hc Hl Hj) as (j' & -> & He & _). cbn [fmap option_fmap option_map].
    destruct He as [->|Hs Hs' Hr|Hs Hs' Hr|Hs Hs' Hr|Hs Hs' Hr Hlt|Hs Hs' Hr Hle|Hs Hs' Hr].
    { rewrite !decide_False; [done|..]; intros [[= E1] [= E2]]; rewrite E1 in E2; discriminate. }
    all: unfold attempt_open in *; rewrite Hs in *; rewrite Hs' in *; rewrite Hr; clear - IH.
    all: repeat case_decide; try lia; exfalso; intuition discriminate.
  - subst n. destruct (sys_step_guar _ _ _ Hc Hl) as (t & Hg & _). specialize (Hg id).
    unfold job_of in *. rewrite Hj in Hg.
    destruct (tbl_jobs (w_db (c_world c')) !! id) as [j'|]; [|by rewrite !decide_False by naive_solver].
    destruct Hg as (Hs & Hr & _). rewrite !decide_False by naive_solver.
    unfold attempt_open. rewrite Hs, Hr. done.
Qed.

(** A stopped process stays stopped, and does nothing. *)
Lemma stopped_step l c c' t :
  sys_step l c c' → c_threads c !! t = Some (Ret tt) →
  c_threads c' !! t = Some (Ret tt)
  ∧ (l = LRun t → c_world c' = c_world c).
Proof.
  intros Hl Ht.
  destruct Hl as [w ts o s Ha|w ts o t' e p p' w' Hp Hs|w ts o t'|w w' ts o Ho]; simpl in *.
  - split; [by apply lookup_app_l_Some|done].
  - destruct (decide (t = t')) as [->|Hne].
    + rewrite Ht in Hp. injection Hp as <-. simpl in Hs. injection Hs as <- <-. split; [|done].
      rewrite list_lookup_insert_eq; [done|]. by eapply lookup_lt_Some.
    + rewrite list_lookup_insert_ne by done. split; [done|]. intros [=]. congruence.
  - split; [|done]. destruct (decide (t = t')) as [->|Hne].
    + rewrite list_lookup_insert_eq; [done|]. by eapply lookup_lt_Some.
    + by rewrite list_lookup_insert_ne.
  - done.
Qed.

(** The job of a stopped process. *)
Lemma orphan_step l c c' t id j :
  reachable c → sys_step l c c' → c_threads c !! t = Some (Ret tt) →
  job_of c id = Some j → Job.Status j = StatusProcessing → c_owner c id = Some t →
  job_of c' id = Some j ∧ c_owner c' id = Some t.
Proof.
  intros Hc Hl Ht Hj Hs Ho.
  assert (job_of c' id = Some j) as Hj'.
  { destruct (job_step _ _ _ _ _ Hc Hl Hj) as (j' & Hj' & _ & _ & Hown).
    destruct l as [|t1|t1|]; try (rewrite (Hown Hs) in Hj' by done; exact Hj').
    destruct (decide (t1 = t)) as [->|Hne].
    - unfold job_of. by rewrite (proj2 (stopped_step _ _ _ _ Hl Ht)).
    - rewrite (Hown Hs) in Hj'; [done|]. intros t' [= <-] E. congruence. }
  split; [done|]. destruct Hl; simpl in *; try done.
  unfold job_of in *. simpl in *. unfold claim_owner. rewrite Hj', Hj. by rewrite !decide_True.
Qed.
End System.
