(* ===== verification/Processes.v ===== *)
(** * Starting the processes ([cmd/api/main.go], [cmd/worker/main.go], [cmd/scheduler/main.go])

    What each command does before its loops run, and which loops it starts, from the
    configuration it loads. A fatal log message ends the process. *)
From S2P Require Import Prelude GoStd Models Interfaces Crypto Db Effects Config.
From S2P Require Import Stats WorkerMetrics Queue Registry Migrate Http AuthApi Routes Rely Safety System.
Open Scope Z_scope.

(** The session settings and queues [runServer] hands to the API; [rounds] is how many SCAN
    rounds are watched. *)
Definition api_config (cfg : Config) (rounds : nat) : ApiConfig := {|
  sessions := mkSessionConfig (bytes_of (Config.SessionSecret cfg))
                (Config.SessionCookieSecure cfg) 0 EmptyString;
  configured_queues := Config.Queues cfg;
  allowedOrigin := Config.CORSAllowedOrigin cfg;
  scan_rounds := rounds;
|}.

(** [pgxpool.New]: its error on a connection string it cannot use. *)
Class PgxPool := { pgxpool_New : string → option error }.

Section Processes.
Context `{Postgres} `{UUIDLib} `{GoText} {R : Type} `{Redis R} `{SqlScripts} `{PgxPool} `{Prometheus}.

(** [store.New]: the pool, verified with a ping. *)
Definition store_New (databaseURL : string) : prog R (option error) :=
  match pgxpool_New databaseURL with
  | Some e => Ret (Some (EWrap "connect postgres" e))
  | None =>
      let! err := Stats.Ping in
      Ret match err with Some e => Some (EWrap "ping postgres" e) | None => None end
  end.

(** Postgres, then Redis; the error that ends the process. *)
Definition connect (cfg : Config) (redis_prefix : option string) : prog R (option error) :=
  let! err := store_New (Config.DatabaseURL cfg) in
  match err with
  | Some e => Ret (Some e)
  | None =>
      let! err := Queue.Ping in
      Ret match err with
          | Some e => Some match redis_prefix with Some p => EWrap p e | None => e end
          | None => None
          end
  end.

(** ** The worker *)

(** The goroutines the worker starts, each watched for [passes] passes. The registry's panic on
    a duplicate type and the client library's on bad buckets are panics of the process. The
    fourth goroutine serves the instruments. *)
Definition worker_main (env : Env) (passes : nat) : prog R (error + list (service (R := R))) :=
  let cfg := Load env in
  let! err := connect cfg (Some "redis"%string) in
  match err with
  | Some e => Ret (inl (EWrap "worker" e))
  | None =>
      match DefaultRegistry with
      | None => Panic "duplicate job type"
      | Some registry =>
          let! workerID := uuid_New in
          match Instruments.NewWorker with
          | None => Panic "histogram buckets must be in increasing order"
          | Some _ =>
          Ret (inr [Consumer passes registry (Config.Queues cfg);
                    Poller passes (Config.Queues cfg);
                    Heartbeats passes (uuid_String workerID)])
          end
      end
  end.

(** ** The scheduler *)
Definition scheduler_main (env : Env) (ticks : nat) : prog R (error + list (service (R := R))) :=
  let cfg := Load env in
  let! err := connect cfg (Some "redis"%string) in
  match err with
  | Some e => Ret (inl (EWrap "scheduler" e))
  | None => Ret (inr [SchedulerLoop ticks])
  end.

(** ** The API *)

(** [runServer]: the service that answers a request to the mux: [/metrics] is the scrape,
    everything else the router. *)
Definition api_serves (cfg : Config) (rounds : nat) (r : Request) : service (R := R) :=
  if decide (Path r = "/metrics"%string) then Scrape (Config.Queues cfg) rounds
  else HTTP (api_config cfg rounds) r.

Definition runServer (cfg : Config) (rounds : nat)
    : prog R (error + (Request → service (R := R))) :=
  let! err := connect cfg None in
  Ret match err with Some e => inl e | None => inr (api_serves cfg rounds) end.

Definition runMigrate (cfg : Config) (fsys : FS) : prog R (option error) :=
  let! err := store_New (Config.DatabaseURL cfg) in
  match err with
  | Some e => Ret (Some (EWrap "migrate" e))
  | None =>
      let! err := Migrate fsys in
      Ret match err with Some e => Some (EWrap "migrate" e) | None => None end
  end.
(** [main]: [os.Args] decides between the migrations and the server. *)
Definition api_main (env : Env) (args : list string) (rounds : nat) (fsys : FS)
    : prog R (error + option (Request → service (R := R))) :=
  let cfg := Load env in
  if decide (args !! 1%nat = Some "migrate"%string) then
    let! err := runMigrate cfg fsys in
    Ret match err with Some e => inl e | None => inr None end
  else
    let! res := runServer cfg rounds in
    Ret match res with inl e => inl e | inr serve => inr (Some serve) end.
End Processes.

(** ** What the processes start belongs to the system of [System] *)

Section Admissible.
Context `{Postgres} `{UUIDLib} `{GoText} `{Bcrypt} `{Router} {R : Type} `{Redis R}.
Context `{SqlScripts} `{PgxPool} `{Prometheus} `{!PrometheusLaws} {Sch : Type} `{Cron Sch}.
Implicit Types (w : world R).

Lemma quiet_connect cfg p : quiet (connect (R := R) cfg p).
Proof.
  unfold connect, store_New. destruct (pgxpool_New _); [done|].
  apply quiet_bind; [|intros [e|]; [done|apply quiet_bind; [|by intros [e|]]]].
  - apply quiet_bind; [apply quiet_bind|by intros [e|]]; [|done].
    apply quiet_request. intros e w. simpl. by destruct (r_fault e), w.
  - apply quiet_bind; [|done]. apply quiet_request. intros e w. simpl. by destruct (r_fault e), w.
Qed.

Lemma calm_connect cfg p : answers (λ _, False) (λ _, True) (connect (R := R) cfg p).
Proof.
  unfold connect, store_New. destruct (pgxpool_New _); [done|]. intros [e|x]; simpl; [done|].
  by intros [e|x'].
Qed.

(** What a process can start. *)
Definition starts (F : service (R := R) → Prop) (res : error + list service) : Prop :=
  match res with inl _ => True | inr ss => Forall F ss end.

(** Starting a worker leaves the tables and Redis alone, cannot panic, and starts services of
    the system. *)
Lemma worker_main_starts env n :
  quiet (worker_main (R := R) env n)
  ∧ answers (λ _, False) (starts admissible) (worker_main (R := R) env n).
Proof.
  unfold worker_main. destruct NewWorker_no_panic as (h & _ & Hw).
  destruct DefaultRegistry as [registry|] eqn:Hr; [|vm_compute in Hr; done].
  split.
  - apply quiet_bind; [apply quiet_connect|]. intros [e|]; [done|].
    apply quiet_bind; [apply quiet_uuid|]. intros id. by rewrite Hw.
  - apply (answers_any _ _ _ _ (calm_connect _ _)). intros [e|]; [done|]. intros id. rewrite Hw. simpl.
    repeat constructor. simpl. by apply quiet_DefaultRegistry.
Qed.

Lemma scheduler_main_starts env n :
  quiet (scheduler_main (R := R) env n)
  ∧ answers (λ _, False) (starts admissible) (scheduler_main (R := R) env n).
Proof.
  unfold scheduler_main. split.
  - apply quiet_bind; [apply quiet_connect|]. by intros [e|].
  - apply (answers_any _ _ _ _ (calm_connect _ _)). intros [e|]; [done|]. by repeat constructor.
Qed.

(** The server answers every request with a service of the system. *)
Lemma api_serves_admissible cfg rounds r : admissible (api_serves (R := R) cfg rounds r).
Proof. unfold api_serves. by destruct (decide _). Qed.
End Admissible.
