(* ===== verification/Demo.v ===== *)
(** * A concrete run

    The reference instances of the libraries, one tenant, and a schedule of steps through the
    system: a job accepted over HTTP, claimed by a worker, and failed or completed. The
    theorems about reachable configurations are instantiated with it. *)
From S2P Require Import Prelude GoStd Models Interfaces Db Effects Store Queue Schedules.
From S2P Require Import Enqueue Registry Worker Scheduler Http JobsApi Lifecycle StoreFacts.
From S2P Require Import Crypto Auth AuthApi Routes AccountsFacts AuthFacts.
From S2P Require Import Rely Safety System Samples.
Open Scope Z_scope.

Definition demo_start : config (R := RefRedis.store) := mkConfig demo_world [] (λ _, None).

(** The API as [cmd/api] wires it. *)
Definition demo_api : ApiConfig := {|
  sessions := mkSessionConfig (bytes_of "dev-insecure-change-me") false 0 EmptyString;
  configured_queues := ["default"%string];
  allowedOrigin := "http://localhost:3000";
  scan_rounds := 1;
|}.

(** [POST /api/v1/jobs/enqueue] with the tenant's key. *)
Definition demo_request (jobType : string) (maxRetries : string) : Request := {|
  Method := "POST";
  Path := "/api/v1/jobs/enqueue";
  Authorization := "Bearer " +:+ demo_key;
  Cookie := λ _, None;
  URLParam := λ _, EmptyString;
  Query := λ _, EmptyString;
  Body := Some (JObj [("job_type", JStr jobType); ("max_retries", JNum maxRetries);
                      ("payload", JObj [("n", JNum "1")])]%string);
  Ctx := Background;
|}.

(** The built-in handlers. *)
Definition demo_registry : Registry RefRedis.store := default NewRegistry DefaultRegistry.

Definition demo_enqueue (jobType maxRetries : string) : list (action (R := RefRedis.store)) :=
  [ASpawn (HTTP demo_api (demo_request jobType maxRetries));
   ARun 0 (ok_at 1 0%N); ARun 0 (ok_at 1 0%N);
   ARun 0 (ok_at 1 7%N); ARun 0 (ok_at 2 0%N); ARun 0 (ok_at 3 0%N)].

Definition demo_claim : list (action (R := RefRedis.store)) :=
  [ASpawn (Consumer 1 demo_registry ["default"%string]);
   ARun 1 (ok_at 4 0%N); ARun 1 (ok_at 5 0%N); ARun 1 (ok_at 6 0%N)].

(** Two clock readings around the handler, the latency metric, the outcome. *)
Definition demo_outcome : list (action (R := RefRedis.store)) :=
  [ARun 1 (ok_at 7 0%N); ARun 1 (ok_at 8 0%N); ARun 1 (ok_at 9 0%N); ARun 1 (ok_at 10 0%N)].

Definition demo_queued : config (R := RefRedis.store) := foldl act demo_start (demo_enqueue "always_fail" "1").
Definition demo_processing : config (R := RefRedis.store) := foldl act demo_queued demo_claim.
Definition demo_failed : config (R := RefRedis.store) := foldl act demo_processing demo_outcome.
Definition demo_completed : config (R := RefRedis.store) :=
  foldl act demo_start (demo_enqueue "echo" "3" ++ demo_claim ++ demo_outcome).

(** The worker dies while it has the job. *)
Definition demo_orphan : config (R := RefRedis.store) := act demo_processing (AStop 1).

Lemma demo_registry_quiet : quiet_registry demo_registry.
Proof.
  unfold demo_registry. destruct DefaultRegistry as [r|] eqn:E; simpl.
  - by apply quiet_DefaultRegistry.
  - intros ty h Hh. simpl in Hh. by rewrite lookup_empty in Hh.
Qed.

Lemma demo_start_initial : initial demo_start.
Proof. split_and!; try done. apply demo_accounts. Qed.

Lemma demo_claim_admissible : Forall admissible_action demo_claim.
Proof. repeat constructor. exact demo_registry_quiet. Qed.

Lemma demo_queued_reachable : reachable demo_queued.
Proof. apply reachable_acts; [by apply reach_init, demo_start_initial|by repeat constructor]. Qed.

Lemma demo_processing_reachable : reachable demo_processing.
Proof. apply reachable_acts; [apply demo_queued_reachable|apply demo_claim_admissible]. Qed.

Lemma demo_failed_reachable : reachable demo_failed.
Proof. apply reachable_acts; [apply demo_processing_reachable|by repeat constructor]. Qed.

Lemma demo_completed_reachable : reachable demo_completed.
Proof.
  apply reachable_acts; [by apply reach_init, demo_start_initial|].
  apply Forall_app. split; [by repeat constructor|].
  apply Forall_app. split; [apply demo_claim_admissible|by repeat constructor].
Qed.

Lemma demo_orphan_reachable : reachable demo_orphan.
Proof. apply reachable_act; [apply demo_processing_reachable|done]. Qed.

Lemma demo_failed_attempts : ∃ n, attempts 7%N n demo_failed.
Proof.
  destruct (attempts_acts 7%N 0 demo_start
              (demo_enqueue "always_fail" "1" ++ demo_claim ++ demo_outcome)) as [n Hn].
  - by apply attempts_init, demo_start_initial.
  - apply Forall_app. split; [by repeat constructor|].
    apply Forall_app. split; [apply demo_claim_admissible|by repeat constructor].
  - exists n. by rewrite !foldl_app in Hn.
Qed.

(** One well-formed pending job. *)
Lemma sample_inv j :
  is_Some (tbl_tenants demo_db !! Job.TenantID j) → fresh_row j → db_inv (sample_db j).
Proof.
  intros Ht Hf. apply (insert_job_inv demo_db); [|done..].
  constructor; simpl; try apply demo_accounts; intros k a; rewrite lookup_empty; done.
Qed.

(** What the run does, computed. *)
Example demo_queued_ids : rd_list (w_redis (c_world demo_queued)) (queue_key "default")
                          = [uuid_String 7%N].
Proof. vm_compute. reflexivity. Qed.

Example demo_statuses :
  (status_in demo_queued 7%N, status_in demo_processing 7%N, status_in demo_failed 7%N,
   status_in demo_completed 7%N)
  = (Some StatusPending, Some StatusProcessing, Some StatusFailed, Some StatusCompleted).
Proof. vm_compute. reflexivity. Qed.
