(* ===== verification/MigrateFacts.v ===== *)
(** * Migrations run once, in order, and all or nothing *)
From S2P Require Import Prelude GoStd Models Interfaces Db Effects GoStrings Migrate Samples.
Open Scope Z_scope.

(** ** Versions *)

Lemma TrimSuffix_app s suffix : HasSuffix s suffix = true → TrimSuffix s suffix +:+ suffix = s.
Proof.
  intros Hs. unfold TrimSuffix. rewrite Hs. apply bool_decide_eq_true in Hs.
  rewrite <- Hs at 2. apply take_drop_string.
Qed.

Definition version_of (name : string) : string := TrimSuffix name up_suffix.

Lemma version_of_inj n n' :
  HasSuffix n up_suffix = true → HasSuffix n' up_suffix = true → version_of n = version_of n' → n = n'.
Proof.
  unfold version_of. intros Hn Hn' E. rewrite <- (TrimSuffix_app n up_suffix Hn).
  by rewrite E, TrimSuffix_app.
Qed.

Lemma migration_names_spec (fsys : FS) :
  NoDup (migration_names fsys) ∧ StronglySorted string_le (migration_names fsys)
  ∧ ∀ n, n ∈ migration_names fsys ↔ HasSuffix n up_suffix = true ∧ is_Some (fsys !! n).
Proof.
  unfold migration_names. split_and!.
  - rewrite merge_sort_Permutation. apply NoDup_filter, NoDup_fst_map_to_list.
  - apply StronglySorted_merge_sort; apply _.
  - intros n. rewrite merge_sort_Permutation, list_elem_of_filter, list_elem_of_fmap.
    split; intros [? Hn]; (split; [done|]).
    + destruct Hn as ([k t] & -> & Hk%elem_of_map_to_list). eauto.
    + destruct Hn as [t Ht]. exists (n, t). split; [done|]. by apply elem_of_map_to_list.
Qed.

Lemma migration_names_length (fsys : FS) : (length (migration_names fsys) ≤ size fsys)%nat.
Proof.
  unfold migration_names. rewrite merge_sort_Permutation. etrans; [apply length_filter|].
  rewrite length_fmap. apply Nat.eq_le_incl, (length_map_to_list (M := gmap string)).
Qed.

Section MigrateFacts.
Context `{SqlScripts} `{!SqlScriptsLaws} {R : Type} (fsys : FS).
Implicit Types (d : DB) (w : world R) (ns names : list string).

(** ** What a run leaves behind *)

Definition recorded d (name : string) : bool :=
  match tbl_schema_migrations d with
  | Some t => bool_decide (is_Some (t !! version_of name))
  | None => false
  end.

(** The files still to be applied, in order. *)
Definition still_pending d names : list string := filter (λ n, recorded d n = false) names.
Definition pending d : list string := still_pending d (migration_names fsys).

(** The files, in order, each executed once, completely, and recorded with it. *)
Inductive applied : list string → DB → DB → Prop :=
| applied_nil d : applied [] d d
| applied_cons name ns text now u d d1 t d' :
    fsys !! name = Some text → exec_script text now u d = (inr tt, d1) →
    tbl_schema_migrations d = Some t → recorded d name = false →
    applied ns {| d1 with tbl_schema_migrations := Some (<[version_of name := now]> t) |} d' →
    applied (name :: ns) d d'.

(** The tables with the runner's own one. *)
Definition with_table d : DB :=
  {| d with tbl_schema_migrations := Some (default ∅ (tbl_schema_migrations d)) |}.

Lemma applied_app ns ns' d d' d'' :
  applied ns d d' → applied ns' d' d'' → applied (ns ++ ns') d d''.
Proof. induction 1; [done|]. intros ?. eapply applied_cons; eauto. Qed.

(** Applying records exactly the files applied. *)
Lemma applied_recorded ns d d' name :
  applied ns d d' → is_Some (tbl_schema_migrations d) →
  is_Some (tbl_schema_migrations d')
  ∧ recorded d' name = recorded d name || bool_decide (version_of name ∈ version_of <$> ns).
Proof.
  induction 1 as [d|n ns text now u d d1 t d' Hf Hx Ht Hr _ IH]; intros Hd.
  { split; [done|]. by rewrite orb_false_r. }
  destruct IH as [Hs E]; [by eexists|]. split; [done|]. rewrite E.
  unfold recorded in *. rewrite Ht in *. cbn [tbl_schema_migrations].
  rewrite lookup_insert, fmap_cons. destruct (decide (version_of n = version_of name)) as [Ev|Ev].
  - rewrite (bool_decide_true (is_Some (Some now))) by eauto.
    rewrite (bool_decide_true (_ ∈ _ :: _)) by set_solver. by rewrite orb_true_r.
  - f_equal. apply bool_decide_ext. set_solver.
Qed.

(** ** One migration *)

Lemma apply_migration_tx_atomic name text fs now us d t :
  tbl_schema_migrations d = Some t → recorded d name = false → fsys !! name = Some text →
  let '(r, d') := run_tx (apply_migration_tx (version_of name) text) fs now us d in
  (d' = d ∧ ∃ e, r = inl e) ∨ applied [name] d d'.
Proof.
  intros Ht Hr Hf. unfold run_tx, apply_migration_tx.
  destruct (default FOk (head fs)); [|left; eauto..]. cbn [run_stmts].
  destruct (default FOk (head (tail fs))); [|left; eauto..].
  pose proof (script_keeps_record text now (default uuid_Nil (head us)) d) as Hk.
  destruct (exec_script text now _ d) as [[e|[]] d1] eqn:Hx; cbn [run_stmts]; [left; eauto|].
  destruct (default FOk (head _)); [|left; eauto..].
  unfold record_version_stmt. cbn [snd] in Hk. rewrite Hk, Ht.
  assert (t !! version_of name = None) as Hno.
  { unfold recorded in Hr. rewrite Ht in Hr. apply bool_decide_eq_false in Hr. by apply eq_None_not_Some. }
  rewrite Hno. cbn [run_stmts].
  assert (applied [name] d {| d1 with tbl_schema_migrations := Some (<[version_of name := now]> t) |}) as Ha.
  { eapply applied_cons; [done..|]. apply applied_nil. }
  destruct (default FOk (head _)); [by right|left; eauto|by right].
Qed.

(** ** A run *)

Definition progress names d (o : option (option error)) d' : Prop :=
  ∃ ns, ns `prefix_of` still_pending d names ∧ applied ns d d'
      ∧ (o = Some None → ns = still_pending d names).

Lemma progress_stop names d o : o ≠ Some None → progress names d o d.
Proof. intros Ho. exists []. split_and!; [apply prefix_nil|apply applied_nil|done]. Qed.

Lemma still_pending_cons d name names :
  still_pending d (name :: names)
  = (if recorded d name then [] else [name]) ++ still_pending d names.
Proof. unfold still_pending. rewrite filter_cons. by destruct (recorded d name). Qed.

(** Files keep their status while another one is applied. *)
Lemma still_pending_after name d d' names :
  applied [name] d d' → is_Some (tbl_schema_migrations d) →
  (∀ n, n ∈ name :: names → HasSuffix n up_suffix = true) → name ∉ names →
  still_pending d' names = still_pending d names.
Proof.
  intros Ha Hd Hsuf Hname. unfold still_pending. induction names as [|n names IH]; [done|].
  rewrite !filter_cons. destruct (applied_recorded _ _ _ n Ha Hd) as [_ E]. rewrite E.
  rewrite (bool_decide_false (version_of n ∈ _)), orb_false_r.
  - rewrite IH; [done|set_solver|set_solver].
  - intros Hv%list_elem_of_singleton. apply Hname.
    rewrite (version_of_inj name n); [by left|apply Hsuf; set_solver..|done].
Qed.

Lemma interp_is_applied name e w :
  is_Some (tbl_schema_migrations (w_db w)) →
  ∃ r, interp (OSql (is_applied_stmt (version_of name))) e w = (r, w)
     ∧ (r = inr (recorded (w_db w) name) ∨ ∃ err, r = inl err).
Proof.
  intros [t Ht]. simpl. unfold is_applied_stmt, recorded. rewrite Ht.
  destruct w as [d r m], (r_fault e); simpl in *; rewrite ?Ht; eauto.
Qed.

Lemma interp_apply name text e w :
  is_Some (tbl_schema_migrations (w_db w)) → recorded (w_db w) name = false →
  fsys !! name = Some text →
  ∃ r d', interp (OTx (apply_migration_tx (version_of name) text)) e w = (r, with_db d' w)
        ∧ ((d' = w_db w ∧ ∃ err, r = inl err) ∨ applied [name] (w_db w) d').
Proof.
  intros [t Ht] Hr Hf. simpl.
  pose proof (apply_migration_tx_atomic name text (r_faults e) (r_now e) (r_uuids e) _ t Ht Hr Hf) as Ha.
  destruct (run_tx _ _ _ _ _) as [r d']. exists r, d'. done.
Qed.

Lemma progress_after name names d d' o d'' :
  applied [name] d d' → is_Some (tbl_schema_migrations d) → recorded d name = false →
  (∀ n, n ∈ name :: names → HasSuffix n up_suffix = true) → name ∉ names →
  progress names d' o d'' → progress (name :: names) d o d''.
Proof.
  intros Ha Hd Hr Hsuf Hname (ns & Hpre & Hns & Hall).
  rewrite (still_pending_after _ _ _ _ Ha Hd Hsuf Hname) in *.
  exists (name :: ns). rewrite still_pending_cons, Hr. split_and!.
  - by apply prefix_cons.
  - by apply (applied_app [name]) with d'.
  - intros Ho. simpl. by rewrite Hall.
Qed.

Lemma wp_migrate_files names w :
  NoDup names → (∀ n, n ∈ names → HasSuffix n up_suffix = true ∧ is_Some (fsys !! n)) →
  is_Some (tbl_schema_migrations (w_db w)) →
  wp (λ _, True) (migrate_files fsys names)
    (λ o w', progress names (w_db w) o (w_db w') ∧ w_redis w' = w_redis w) w.
Proof.
  revert w. induction names as [|name names IH]; intros w Hnd Hnames Hd.
  { split; [|done]. exists []. split_and!; [done|apply applied_nil|done]. }
  apply NoDup_cons in Hnd as [Hname Hnd]. destruct (Hnames name) as [_ [text Hf]]; [by left|].
  assert (∀ n, n ∈ name :: names → HasSuffix n up_suffix = true) as Hsuf by naive_solver.
  cbn [migrate_files]. fold (version_of name). apply wp_bind.
  split; [split; [by apply progress_stop|done]|]. intros e _.
  destruct (interp_is_applied name e w Hd) as (r & -> & [->|[err ->]]); cbn [wp].
  2: { split; [by apply progress_stop|done]. }
  destruct (recorded (w_db w) name) eqn:Hr.
  - eapply wp_mono; [|apply IH; [done|set_solver|done]]. intros o w' [(ns & ? & ? & ?) ?].
    split; [|done]. exists ns. by rewrite still_pending_cons, Hr.
  - rewrite Hf. apply wp_bind, wp_bind. split; [split; [by apply progress_stop|done]|]. intros e2 _.
    destruct (interp_apply name text e2 w Hd Hr Hf) as (r & d' & -> & Hcase). cbn [wp].
    destruct r as [err|[]]; cbn [err_of].
    + split; [|done]. destruct Hcase as [[-> _]|Ha]; [by apply progress_stop|].
      exists [name]. rewrite still_pending_cons, Hr. split_and!; [|done|done].
      apply (prefix_app_r [name]). done.
    + destruct Hcase as [[_ [? ?]]|Ha]; [done|].
      eapply wp_mono; [|apply IH; [done|set_solver|by apply (applied_recorded _ _ _ name Ha Hd)]].
      intros o w' [? ?]. split; [|done]. by eapply progress_after.
Qed.

(** One run from any state, with any faults, stopping anywhere. *)
Definition run_result d (o : option (option error)) d' : Prop :=
  (d' = d ∧ o ≠ Some None) ∨ progress (migration_names fsys) (with_table d) o d'.

Lemma wp_Migrate w :
  wp (λ _, True) (Migrate fsys)
    (λ o w', run_result (w_db w) o (w_db w') ∧ w_redis w' = w_redis w) w.
Proof.
  destruct (migration_names_spec fsys) as (Hnd & _ & Hin).
  assert (wp (λ _, True) (migrate_files fsys (migration_names fsys))
            (λ o w', run_result (w_db w) o (w_db w') ∧ w_redis w' = w_redis w)
            (with_db (with_table (w_db w)) w)) as Hfiles.
  { eapply wp_mono; [|apply wp_migrate_files; [done| |by eexists]].
    - intros o w' [? ?]. split; [by right|done].
    - intros n Hn. by apply Hin. }
  unfold Migrate. apply wp_bind. split; [split; [by left|done]|]. intros e _.
  cbn [interp]. destruct (r_fault e) as [|err|err]; cbn [faulty create_migrations_stmt snd wp].
  - exact Hfiles.
  - split; [by left|done].
  - split; [right; by apply progress_stop|done].
Qed.

(** ** Runs one after another *)

Lemma still_pending_rest ns rest names d d' :
  applied ns d d' → is_Some (tbl_schema_migrations d) → NoDup names →
  (∀ n, n ∈ names → HasSuffix n up_suffix = true) →
  still_pending d names = ns ++ rest → still_pending d' names = rest.
Proof.
  intros Ha Hd Hnd Hsuf E.
  assert (∀ n, n ∈ ns ++ rest → n ∈ names) as Hsub.
  { intros n. rewrite <- E. unfold still_pending. by intros [_ ?]%list_elem_of_filter. }
  assert (still_pending d' names = filter (λ n, n ∉ ns) (still_pending d names)) as ->.
  { unfold still_pending. rewrite list_filter_filter. apply filter_iff_in.
    intros n Hn. destruct (applied_recorded _ _ _ n Ha Hd) as [_ ->].
    rewrite orb_false_iff, bool_decide_eq_false, list_elem_of_fmap. split.
    - intros [? Hv]. split; [|done]. intros ?. apply Hv. eauto.
    - intros [Hv ?]. split; [done|]. intros (n' & Ev & Hn'). apply Hv.
      rewrite (version_of_inj n n'); [done|auto|apply Hsuf, Hsub; set_solver|done]. }
  assert (NoDup (ns ++ rest)) as (_ & Hdisj & _)%NoDup_app.
  { rewrite <- E. by apply NoDup_filter. }
  rewrite E, filter_app. rewrite (filter_none_in _ ns), (filter_all_in _ rest); naive_solver.
Qed.

Lemma with_table_same d : is_Some (tbl_schema_migrations d) → with_table d = d.
Proof. intros [t Ht]. unfold with_table. rewrite Ht. destruct d; simpl in *. by subst. Qed.

Lemma pending_with_table d : pending (with_table d) = pending d.
Proof.
  unfold pending, still_pending. apply list_filter_iff. intros n. unfold recorded, with_table. simpl.
  destruct (tbl_schema_migrations d); [done|]. simpl. by rewrite lookup_empty.
Qed.

(** From [d], the files [ns] have been applied. *)
Definition caught_up ns d d' : Prop :=
  ns `prefix_of` pending d ∧ ((ns = [] ∧ d' = d) ∨ applied ns (with_table d) d').

Lemma caught_up_run ns d d' o d'' :
  caught_up ns d d' → run_result d' o d'' →
  ∃ ns', caught_up ns' d d'' ∧ (o = Some None → ns' = pending d).
Proof.
  intros [Hpre Hcase] Hrun.
  destruct Hrun as [[-> Ho]|(ns' & Hpre' & Ha' & Hall)]; [by exists ns|].
  fold (pending (with_table d')) in *. rewrite pending_with_table in *.
  destruct Hcase as [[-> ->]|Ha].
  { exists ns'. split; [split; [done|by right]|done]. }
  destruct Hpre as [rest Hrest].
  destruct (applied_recorded _ _ _ EmptyString Ha) as [Hd' _]; [by eexists|].
  rewrite (with_table_same d' Hd') in Ha'.
  assert (pending d' = rest) as E.
  { destruct (migration_names_spec fsys) as (Hnd & _ & Hin).
    apply (still_pending_rest ns rest _ (with_table d)); [done|by eexists|done|naive_solver|].
    rewrite <- Hrest. apply pending_with_table. }
  rewrite E in *. exists (ns ++ ns'). split; [split|].
  - rewrite Hrest. by apply prefix_app.
  - right. by eapply applied_app.
  - intros Ho. by rewrite (Hall Ho).
Qed.

Definition reruns (runs : list (list reply)) w : world R :=
  foldl (λ w es, (exec es (Migrate fsys) w).2) w runs.

Lemma run_Migrate es w :
  let '(o, w') := exec es (Migrate fsys) w in
  run_result (w_db w) (fst <$> o) (w_db w') ∧ w_redis w' = w_redis w.
Proof.
  apply (wp_sound (λ _, True) _
           (λ o w', run_result (w_db w) o (w_db w') ∧ w_redis w' = w_redis w));
    [apply wp_Migrate|by apply Forall_true].
Qed.

Lemma caught_up_reruns runs w :
  ∃ ns, caught_up ns (w_db w) (w_db (reruns runs w)) ∧ w_redis (reruns runs w) = w_redis w.
Proof.
  induction runs as [|es runs IH] using rev_ind.
  { exists []. split; [|done]. split; [apply prefix_nil|by left]. }
  destruct IH as (ns & Hc & Hr). unfold reruns in *. rewrite foldl_snoc.
  pose proof (run_Migrate es (foldl (λ w es, (exec es (Migrate fsys) w).2) w runs)) as Hrun.
  destruct (exec es _ _) as [o w']. destruct Hrun as [Hrun Hr'].
  destruct (caught_up_run _ _ _ _ _ Hc Hrun) as (ns' & ? & _).
  exists ns'. split; [done|]. by rewrite <- Hr.
Qed.

(** A run that meets no failure applies everything. *)
Definition scripts_succeed : Prop :=
  ∀ name text now u d, fsys !! name = Some text → (exec_script text now u d).1 = inr tt.

Lemma exec_migrate_files_ok names es w :
  scripts_succeed → NoDup names →
  (∀ n, n ∈ names → HasSuffix n up_suffix = true ∧ is_Some (fsys !! n)) →
  is_Some (tbl_schema_migrations (w_db w)) → Forall reliable es → (2 * length names ≤ length es)%nat →
  ∃ rest w', exec es (migrate_files fsys names) w = (Some (None, rest), w').
Proof.
  intros Hok. revert es w. induction names as [|name names IH]; intros es w Hnd Hnames Hd Hes Hlen.
  { eexists _, _. done. }
  apply NoDup_cons in Hnd as [Hname Hnd]. destruct (Hnames name) as [Hsuf [text Hf]]; [by left|].
  assert (∀ n, n ∈ names → HasSuffix n up_suffix = true ∧ is_Some (fsys !! n)) as Hnames' by (intros; apply Hnames; by right).
  destruct es as [|e1 [|e2 es]]; [simpl in Hlen; lia..|].
  apply Forall_cons in Hes as [He1 [He2 Hes]%Forall_cons].
  cbn [migrate_files]. fold (version_of name). unfold exec_sql. rewrite exec_request, sql_ok by done.
  destruct w as [d r m], Hd as [t Ht]. simpl in Ht.
  unfold is_applied_stmt. cbn [fst snd w_db with_db]. rewrite Ht. case_bool_decide as Hr.
  - apply IH; [done..|by eexists|by constructor|simpl in *; lia].
  - rewrite Hf, exec_bind. unfold applyMigration, exec_tx.
    rewrite exec_request, tx_ok by done.
    cbn [w_db with_db].
    assert (recorded d name = false) as Hrec by (unfold recorded; rewrite Ht; by apply bool_decide_eq_false).
    pose proof (apply_migration_tx_atomic name text [] (r_now e2) (r_uuids e2) d t Ht Hrec Hf) as Ha.
    pose proof (Hok name text (r_now e2) (default uuid_Nil (head (r_uuids e2))) d Hf) as Hx.
    unfold run_tx, apply_migration_tx in *. cbn [head default tail run_stmts] in *.
    destruct (exec_script text _ _ d) as [x d1] eqn:Es. simpl in Hx. subst x.
    pose proof (script_keeps_record text (r_now e2) (default uuid_Nil (head (r_uuids e2))) d) as Hk.
    rewrite Es in Hk. cbn [snd] in Hk. cbn [run_stmts] in *. unfold record_version_stmt in *.
    rewrite Hk, Ht in *.
    destruct (t !! version_of name) eqn:El; [by destruct Hr; eexists|].
    cbn [fst snd exec run_stmts err_of]. apply IH; [done..|by eexists|done|simpl in *; lia].
Qed.

(** C18. Migrations run once, in order, all or nothing: after any number of runs, each with any
    failures or stopped anywhere, the database is the one it was with the first few pending
    files executed in order of name, each once, completely, and recorded; when the last run
    reports success it is all of them; and a run that meets no failure reports success. *)
Theorem migrations_run_once_in_order runs es w :
  let '(o, w') := exec es (Migrate fsys) (reruns runs w) in
  (∃ ns, ns `prefix_of` pending (w_db w)
     ∧ ((ns = [] ∧ w_db w' = w_db w) ∨ applied ns (with_table (w_db w)) (w_db w'))
     ∧ (fst <$> o = Some None → ns = pending (w_db w)))
  ∧ w_redis w' = w_redis w
  ∧ NoDup (pending (w_db w)) ∧ StronglySorted string_le (migration_names fsys)
  ∧ (scripts_succeed → Forall reliable es → (2 * size fsys < length es)%nat →
     fst <$> o = Some None).
Proof.
  destruct (caught_up_reruns runs w) as (ns & Hc & Hr). set (w1 := reruns runs w) in *.
  destruct (migration_names_spec fsys) as (Hnd & Hsort & Hin).
  pose proof (run_Migrate es w1) as Hrun. destruct (exec es (Migrate fsys) w1) as [o w'] eqn:Hx.
  destruct Hrun as [Hrun Hr']. destruct (caught_up_run _ _ _ _ _ Hc Hrun) as (ns' & [? ?] & Hall).
  split_and!; [by exists ns'|congruence|by apply NoDup_filter|done|].
  intros Hok Hes Hlen. destruct es as [|e es]; [simpl in Hlen; lia|].
  apply Forall_cons in Hes as [He Hes]. unfold Migrate, exec_sql in Hx.
  rewrite exec_request, sql_ok in Hx by done. cbn [create_migrations_stmt fst snd] in Hx.
  destruct (exec_migrate_files_ok (migration_names fsys) es (with_db (with_table (w_db w1)) w1))
    as (rest & w2 & E); [done|done|naive_solver|by eexists|done| |].
  - pose proof (migration_names_length fsys). simpl in Hlen. lia.
  - unfold with_table in E. rewrite E in Hx. by injection Hx as <- <-.
Qed.
End MigrateFacts.

(** ** Instances *)

(** Scripts that add a tenant named after their text; one does not parse. *)
Module RefScripts.
#[export] Instance lib : SqlScripts := {|
  exec_script := λ text now u d,
    if decide (text = "bad"%string) then (inl (EPg "42601"), d)
    else (inr tt, {| d with tbl_tenants := <[u := Tenant.mkTenant u text now]> (tbl_tenants d) |});
|}.

#[export] Instance laws : SqlScriptsLaws.
Proof. constructor. intros text now u d. simpl. by case_decide. Qed.
End RefScripts.
Import RefScripts.

Definition demo_files : FS :=
  list_to_map [("0002_users.up.sql", "users"); ("0001_jobs.up.sql", "jobs");
               ("0001_jobs.down.sql", "drop")]%string.

(** A first run loses the answer of its second COMMIT; a second run finds nothing to do. *)
Lemma migrations_run_once_in_order_witness :
  let e us := mkReply FOk 5 0%N false [] us [] in
  let lost := mkReply FOk 5 0%N false [FOk; FOk; FOk; FUnknown (EText "timeout")] [9%N] [] in
  let w := mkWorld empty_db RefRedis.empty [] in
  let w' := reruns demo_files [[e []; e []; e [8%N]; e []; lost]] w in
  ∃ ns, ns `prefix_of` ["0001_jobs.up.sql"; "0002_users.up.sql"]%string
      ∧ ns = pending demo_files empty_db
      ∧ (Tenant.Name <$> tbl_tenants (w_db w') !! 8%N, Tenant.Name <$> tbl_tenants (w_db w') !! 9%N)
        = (Some "jobs", Some "users")%string.
Proof.
  intros e lost w w'.
  pose proof (migrations_run_once_in_order demo_files [[e []; e []; e [8%N]; e []; lost]]
                [e []; e []; e []] w) as Hm.
  assert (exec [e []; e []; e []] (Migrate demo_files) w'
          = (Some (None, []), w')) as Hx by (vm_compute; reflexivity).
  unfold w' in *. rewrite Hx in Hm. destruct Hm as [(ns & Hpre & _ & Hall) _].
  exists ns. split_and!; [exact Hpre|by apply Hall|vm_compute; reflexivity].
Defined.
