(* ===== verification/AdminFacts.v ===== *)
(** * What the statistics report *)
From S2P Require Import Prelude GoStd Models Interfaces Float64 Float64Facts Db Effects GoStrings Store Stats.
From S2P Require Import Queue QueueFacts Http AdminApi ApiMetrics Samples StoreFacts JobStore Lifecycle HttpFacts.
From S2P Require Import System Demo.
Open Scope Z_scope.

(** ** Merging the queue names *)

(** The names of both lists, but the empty one. *)
Definition name_set (a b : list string) : gset string :=
  (list_to_set a ∪ list_to_set b) ∖ {[EmptyString]}.

Lemma foldl_add_unique_spec l out :
  NoDup out →
  NoDup (foldl add_unique out l)
  ∧ ∀ v, v ∈ foldl add_unique out l ↔ v ∈ out ∨ (v ∈ l ∧ v ≠ EmptyString).
Proof.
  revert out. induction l as [|x l IH]; intros out Hout; [set_solver|]. cbn [foldl].
  assert (NoDup (add_unique out x)) as Hnd.
  { unfold add_unique. case_decide as E; [|done]. apply NoDup_app.
    split_and!; [done|set_solver|apply NoDup_singleton]. }
  destruct (IH _ Hnd) as [? Hin]. split; [done|]. intros v. rewrite Hin.
  unfold add_unique. case_decide as E; [set_solver|].
  split; [set_solver|]. intros [?|[[->|?]%elem_of_cons ?]]; [by left| |by right].
  destruct (decide (x ∈ out)); [by left|]. by destruct E.
Qed.

Lemma mergeQueues_spec a b :
  NoDup (mergeQueues a b) ∧ ∀ v, v ∈ mergeQueues a b ↔ v ∈ name_set a b.
Proof.
  unfold mergeQueues, name_set.
  destruct (foldl_add_unique_spec a [] (NoDup_nil_2)) as [Ha Hina].
  destruct (foldl_add_unique_spec b _ Ha) as [Hb Hinb].
  split; [done|]. intros v. rewrite Hinb, Hina. set_solver.
Qed.

Lemma mergeQueues_perm a b : mergeQueues a b ≡ₚ elements (name_set a b).
Proof.
  apply NoDup_Permutation; [apply mergeQueues_spec|apply NoDup_elements|].
  intros v. rewrite elem_of_elements. apply mergeQueues_spec.
Qed.

Lemma mergeUnique_perm a b : mergeUnique a b ≡ₚ elements (name_set a b).
Proof. unfold mergeUnique. rewrite merge_sort_Permutation. apply mergeQueues_perm. Qed.

Lemma string_sort_sorted l : StronglySorted string_le (merge_sort string_le l).
Proof. apply StronglySorted_merge_sort; apply _. Qed.

(** Sorting forgets the order. *)
Lemma string_sort_perm l l' : l ≡ₚ l' → merge_sort string_le l = merge_sort string_le l'.
Proof.
  intros E. apply (StronglySorted_unique string_le); [apply string_sort_sorted..|].
  by rewrite !merge_sort_Permutation.
Qed.

Lemma mergeUnique_sorted a b :
  mergeUnique a b = merge_sort string_le (elements (name_set a b)).
Proof. apply string_sort_perm, mergeQueues_perm. Qed.

(** [mergeUnique] computes the sorted list of a set: it depends only on which names occur,
    not on their order or repetition; it is what sorting the elements of the union without the
    empty name gives, in ascending order and without repetition. *)
Theorem mergeUnique_is_the_sorted_union a b :
  mergeUnique a b = merge_sort string_le (elements (name_set a b))
  ∧ StronglySorted string_le (mergeUnique a b) ∧ NoDup (mergeUnique a b)
  ∧ (∀ v, v ∈ mergeUnique a b ↔ v ≠ EmptyString ∧ (v ∈ a ∨ v ∈ b)).
Proof.
  split_and!; [apply mergeUnique_sorted|apply string_sort_sorted| |].
  - rewrite mergeUnique_perm. apply NoDup_elements.
  - intros v. rewrite mergeUnique_perm, elem_of_elements. unfold name_set. set_solver.
Qed.

(** ** Reading Redis *)

Section RedisReads.
Context {R : Type} `{Redis R} `{!RedisLaws R} `{GoText}.
Implicit Types (w : world R) (es : list reply).

(** Replies of one instant, without faults. *)
Definition at_once (now : Z) (es : list reply) : Prop :=
  Forall (λ e, reliable e ∧ r_now e = now) es.

Lemma exec_scan_workers now w c n ks :
  scan_run workerKeyPrefix now (w_redis w) c n ks →
  ∀ fuel seen es rest, (n ≤ fuel)%nat → length es = n → at_once now es →
  exec (es ++ rest) (scan_workers fuel c seen) w
  = (Some (inr (Z.of_nat (size (list_to_set ks ∪ seen))), rest), w).
Proof.
  induction 1 as [c ks Hs|c c' n ks ks' Hs Hc _ IH];
    intros [|fuel] seen [|e es] rest Hf [= Hl] Hes; try (simpl in *; lia).
  all: apply Forall_cons in Hes as [[He <-] Hes]; cbn [scan_workers app]; unfold redis_cmd.
  all: rewrite exec_request, redis_ok by done; cbn [fst snd]; rewrite Hs.
  - destruct es; [|done]. rewrite Z.eqb_refl. by destruct w.
  - rewrite (proj2 (Z.eqb_neq _ _) Hc). change (with_redis (w_redis w) w) with (mkWorld (w_db w) (w_redis w) (w_metrics w)).
    assert (mkWorld (w_db w) (w_redis w) (w_metrics w) = w) as -> by (by destruct w).
    rewrite IH by (done || lia). rewrite list_to_set_app_L.
    by rewrite (assoc_L (∪)), (comm_L (∪) (list_to_set ks')).
Qed.

(** Cutting a common prefix off loses no key. *)
Lemma size_trimmed (p : string) (ks : list string) :
  (∀ k, k ∈ ks → ∃ t, k = p +:+ t) →
  size (list_to_set ks : gset string)
  = size (list_to_set ((λ k, TrimPrefix k p) <$> ks) : gset string).
Proof.
  intros Hks. set (f := λ k, TrimPrefix k p).
  assert (list_to_set ks =@{gset string} list_to_set (remove_dups ks)) as ->.
  { apply set_eq. intros k. by rewrite !elem_of_list_to_set, elem_of_remove_dups. }
  assert (list_to_set (f <$> ks) =@{gset string} list_to_set (f <$> remove_dups ks)) as ->.
  { apply set_eq. intros k. rewrite !elem_of_list_to_set, !list_elem_of_fmap.
    by setoid_rewrite elem_of_remove_dups. }
  pose proof (NoDup_remove_dups ks) as Hnd.
  rewrite (size_list_to_set (remove_dups ks)), size_list_to_set; [by rewrite length_fmap| |done].
  apply NoDup_fmap_2_strong; [|done].
  intros k k' Hk Hk'. rewrite elem_of_remove_dups in Hk, Hk'.
  destruct (Hks _ Hk) as [t ->], (Hks _ Hk') as [t' ->]. unfold f.
  rewrite !TrimPrefix_app. by intros ->.
Qed.

(** The ids of the workers whose heartbeat key is there. *)
Definition live_worker (now : Z) (r : R) (id : string) : Prop := key_exists now r (worker_key id).

Lemma count_workers_run w now :
  ∃ n (live : gset string),
    (∀ id, id ∈ live ↔ live_worker now (w_redis w) id)
    ∧ ∀ fuel es rest, (n ≤ fuel)%nat → length es = n → at_once now es →
       exec (es ++ rest) (CountActiveWorkers fuel) w
       = (Some (inr (Z.of_nat (size live)), rest), w).
Proof.
  destruct (SCAN_full workerKeyPrefix now (w_redis w)) as (n & ks & Hrun & Hks).
  exists n, (list_to_set ((λ k, TrimPrefix k workerKeyPrefix) <$> ks)).
  assert (∀ id, id ∈ (list_to_set ((λ k, TrimPrefix k workerKeyPrefix) <$> ks) : gset string)
                ↔ live_worker now (w_redis w) id) as Hlive.
  { intros id. rewrite elem_of_list_to_set, list_elem_of_fmap. split.
    - intros (k & -> & [Hp Hk]%Hks). apply HasPrefix_split in Hp as [s ->].
      unfold live_worker, worker_key. by rewrite TrimPrefix_app.
    - intros Hk. exists (worker_key id). split; [unfold worker_key; by rewrite TrimPrefix_app|].
      apply Hks. split; [apply HasPrefix_app|done]. }
  split; [exact Hlive|].
  intros fuel es rest Hf Hl Hes. unfold CountActiveWorkers.
  rewrite (exec_scan_workers _ _ _ _ _ Hrun) by done. do 5 f_equal.
  rewrite union_empty_r_L. apply size_trimmed. intros k [Hk _]%Hks. by apply HasPrefix_split.
Qed.

(** C33. Counting workers ends and is exact: SCAN may take many rounds and return a key several
    times, but with enough rounds the loop ends and answers the number of workers whose key is
    there; a worker counts for 30 seconds after its last beat, and no longer once it has
    deregistered. *)
Theorem CountActiveWorkers_counts_live_workers w now :
  ∃ n (live : gset string),
    (∀ id, id ∈ live ↔ live_worker now (w_redis w) id)
    ∧ (∀ fuel es rest, (n ≤ fuel)%nat → length es = n → at_once now es →
       exec (es ++ rest) (CountActiveWorkers fuel) w
       = (Some (inr (Z.of_nat (size live)), rest), w))
    ∧ ∀ id, rd_list (w_redis w) (worker_key id) = [] → rd_zset (w_redis w) (worker_key id) = ∅ →
        id ∈ live ↔ ∃ t, rd_deadline (w_redis w) (worker_key id) = Some t ∧ now < t.
Proof.
  destruct (count_workers_run w now) as (n & live & Hlive & Hrun). exists n, live.
  split_and!; [done..|]. intros id El Ez. rewrite Hlive. unfold live_worker, key_exists.
  rewrite El, Ez. naive_solver.
Qed.
End RedisReads.

(** *** Depths *)

Definition depth_of {R} `{Redis R} (r : R) (name : string) : queueDepth :=
  mkQueueDepth name (Z.of_nat (length (rd_list r (queue_key name))))
    (Z.of_nat (size (rd_zset r (delayed_key name)))).

Section Depths.
Context {R : Type} `{Redis R} `{!RedisLaws R} `{GoText}.
Implicit Types (w : world R) (es : list reply).

Lemma with_redis_same w : with_redis (w_redis w) w = w.
Proof. by destruct w. Qed.

Lemma exec_Len name e es w :
  reliable e →
  exec (e :: es) (Len name) w
  = (Some (inr (Z.of_nat (length (rd_list (w_redis w) (queue_key name)))), es), w).
Proof.
  intros He. unfold Len, redis_cmd, request. rewrite exec_call, redis_ok by done.
  cbn [fst snd exec]. by rewrite LLEN_spec, with_redis_same.
Qed.

Lemma exec_DelayedLen name e es w :
  reliable e →
  exec (e :: es) (DelayedLen name) w
  = (Some (inr (Z.of_nat (size (rd_zset (w_redis w) (delayed_key name)))), es), w).
Proof.
  intros He. unfold DelayedLen, redis_cmd, request. rewrite exec_call, redis_ok by done.
  cbn [fst snd exec]. by rewrite ZCARD_spec, with_redis_same.
Qed.

Lemma exec_read_depths names ds rest w :
  length ds = (2 * length names)%nat → Forall reliable ds →
  exec (ds ++ rest) (read_depths names) w = (Some (inr (depth_of (w_redis w) <$> names), rest), w).
Proof.
  revert ds. induction names as [|name names IH]; intros [|d1 [|d2 ds]] Hl Hd; try (simpl in *; lia);
    [done|].
  apply Forall_cons in Hd as [Hd1 [Hd2 Hd]%Forall_cons]. cbn [read_depths app].
  rewrite exec_bind, exec_Len by done. rewrite exec_bind, exec_DelayedLen by done.
  rewrite exec_bind, IH by (simpl in *; lia || done). done.
Qed.

(** The scrape's reading: the length of each queue. *)
Lemma exec_read_lens names ds acc w :
  length ds = length names → Forall reliable ds →
  ∃ depths, (∀ rest, exec (ds ++ rest) (read_lens names acc) w = (Some (inr depths, rest), w))
    ∧ ∀ q, depths !! q = if decide (q ∈ names)
                         then Some (Z.of_nat (length (rd_list (w_redis w) (queue_key q))))
                         else acc !! q.
Proof.
  revert ds acc. induction names as [|name names IH]; intros [|d ds] acc Hl Hd; try discriminate Hl;
    [by exists acc|].
  injection Hl as Hl. apply Forall_cons in Hd as [Hd1 Hd]. cbn [read_lens app].
  edestruct (IH ds) as (depths & Hx & Hq); [done|done|].
  exists depths. split.
  { intros rest. by rewrite exec_bind, exec_Len, Hx by done. } intros q. rewrite Hq, lookup_insert.
  repeat case_decide; subst; set_solver.
Qed.
End Depths.

(** ** Counting *)

Definition sum_over {A} (f : A → Z) (l : list A) : Z := foldr (λ a s, f a + s) 0 l.

Lemma count_where_cons p r rs : count_where p (r :: rs) = (if p r then 1 else 0) + count_where p rs.
Proof. unfold count_where. rewrite filter_cons. destruct (p r); simpl; lia. Qed.

Lemma filter_all {A} (l : list A) : filter (λ _, true = true) l = l.
Proof. induction l as [|a l IH]; [done|]. by rewrite filter_cons, IH. Qed.

Lemma sum_over_add {A} (f g : A → Z) l :
  sum_over (λ a, f a + g a) l = sum_over f l + sum_over g l.
Proof. induction l as [|a l IH]; simpl; [done|]. rewrite IH. lia. Qed.

Lemma sum_over_ext {A} (f g : A → Z) l : (∀ a, a ∈ l → f a = g a) → sum_over f l = sum_over g l.
Proof.
  induction l as [|a l IH]; simpl; intros E; [done|]. rewrite E by set_solver.
  rewrite IH; [done|set_solver].
Qed.

Lemma sum_over_zero {A} (f : A → Z) l : (∀ a, a ∈ l → f a = 0) → sum_over f l = 0.
Proof.
  induction l as [|a l IH]; simpl; [done|]. intros Hf. rewrite (Hf a) by set_solver.
  rewrite IH; [done|set_solver].
Qed.

(** The counts of the rows by status add up to the count of all the rows. *)
Lemma sum_over_status (p : Job → bool) (sts : list Status) rs :
  NoDup sts → (∀ r, r ∈ rs → Job.Status r ∈ sts) →
  sum_over (λ st, count_where (λ r, status_is st r && p r) rs) sts = count_where p rs.
Proof.
  intros Hnd. induction rs as [|r rs IH]; intros Hin.
  { apply sum_over_zero. done. }
  rewrite count_where_cons, <- IH by set_solver.
  assert (sum_over (λ st, if status_is st r && p r then 1 else 0) sts = if p r then 1 else 0) as <-.
  { assert (Job.Status r ∈ sts) as Hs by (apply Hin; set_solver). clear - Hnd Hs.
    induction Hnd as [|st sts Hst _ IH]; [set_solver|]. simpl. unfold status_is at 1.
    case_bool_decide as E; simpl.
    - rewrite sum_over_zero; [lia|]. intros st' Hst'. unfold status_is.
      rewrite bool_decide_false; [done|]. congruence.
    - rewrite IH by set_solver. lia. }
  rewrite <- sum_over_add. apply sum_over_ext. intros st _. apply count_where_cons.
Qed.

(** ** The dashboard *)

Lemma collect_counts_spec (c t : Status → Z) sts acc :
  let r := foldl (λ acc row, (<[row.1.1 := row.1.2]> acc.1, acc.2 + row.2)) acc
             ((λ st, (st, c st, t st)) <$> sts) in
  (∀ st, r.1 !! st = if decide (st ∈ sts) then Some (c st) else (acc : gmap string Z * Z).1 !! st)
  ∧ r.2 = acc.2 + sum_over t sts.
Proof.
  revert acc. induction sts as [|s sts IH]; intros acc; [simpl; split; [done|lia]|].
  cbn [fmap list_fmap foldl]. edestruct IH as [IH1 IH2]. split.
  - intros st. rewrite IH1. cbn [fst snd]. rewrite lookup_insert.
    repeat case_decide; subst; set_solver.
  - rewrite IH2. simpl. lia.
Qed.

Lemma totals_by_status_spec counts st :
  totals_by_status counts !! st
  = if decide (st ∈ AllStatuses) then Some (default 0 (counts !! st)) else None.
Proof.
  unfold totals_by_status.
  assert (∀ l acc, foldl (λ m s, <[s := default 0 (counts !! s)]> m) acc l !! st
                   = if decide (st ∈ l) then Some (default 0 (counts !! st))
                     else (acc : gmap string Z) !! st) as Hl.
  { intros l. induction l as [|s l IH]; intros acc; [done|]. cbn [foldl]. rewrite IH.
    rewrite lookup_insert. repeat case_decide; subst; set_solver. }
  by rewrite Hl, lookup_empty.
Qed.

Section Dashboard.
Context `{Postgres} `{!PostgresLaws} `{GoText} {R : Type} `{Redis R}.
Implicit Types (w : world R) (e : reply) (d : DB).

Definition tenant_jobs (tid : uuid) d : list Job := select_where (tenant_is tid) (tbl_jobs d).

(** The jobs of the tenant in each status that occurs, and those created today. *)
Lemma exec_StatusCounts tid e es w :
  reliable e →
  let jobs := tenant_jobs tid (w_db w) in
  ∃ counts,
    exec (e :: es) (StatusCounts tid) w
    = (Some (inr (counts,
         count_where (λ r, pg_day_start (r_now e) <=? Job.CreatedAt r) jobs), es), w)
    ∧ ∀ st, default 0 (counts !! st) = count_where (status_is st) jobs.
Proof.
  intros He jobs.
  set (sts := remove_dups (Job.Status <$> jobs)).
  set (c := λ st, count_where (status_is st) jobs).
  set (t := λ st, count_where (λ r, status_is st r && (pg_day_start (r_now e) <=? Job.CreatedAt r)) jobs).
  destruct (collect_counts_spec c t sts (∅, 0)) as [Hc Ht].
  assert (∀ r, r ∈ jobs → Job.Status r ∈ sts) as Hin.
  { intros r Hr. apply elem_of_remove_dups, list_elem_of_fmap. eauto. }
  exists (collect_counts ((λ st, (st, c st, t st)) <$> sts)).1. split.
  - unfold StatusCounts, exec_sql. rewrite exec_request, sql_ok by done.
    unfold status_counts_stmt. cbn [fst snd exec]. fold (tenant_jobs tid (w_db w)).
    fold jobs sts. fold c t.
    rewrite <- (sum_over_status _ sts) by (done || apply NoDup_remove_dups). fold t.
    unfold collect_counts in *. destruct (foldl _ _ _) as [cs n]. cbn [snd fst] in *.
    rewrite Ht. by destruct w.
  - intros st. unfold collect_counts. rewrite Hc. case_decide as Hst; [done|].
    cbn [fst]. rewrite lookup_empty. symmetry. unfold c, count_where.
    assert (filter (λ r, status_is st r = true) jobs = []) as ->; [|done].
    apply elem_of_nil_inv. intros r [Hr Hj]%list_elem_of_filter.
    apply bool_decide_eq_true in Hr as <-. by apply Hst, Hin.
Qed.

(** The dashboard: every status the program uses, with the number of the tenant's jobs in
    it, zeros included, adding up to all of its jobs; how many of them were created today; and
    its ten newest jobs. Nothing of another tenant counts. *)
Theorem dashboard_reports_the_tenant r tid e1 e2 e3 es w :
  db_inv (w_db w) → tenantFromContext (Ctx r) = Some tid →
  reliable e1 → reliable e2 → reliable e3 →
  let jobs := tenant_jobs tid (w_db w) in
  let newest := listing tid (mkJobFilter EmptyString EmptyString recentJobsLimit 0) (w_db w) in
  ∃ totals,
    exec (e1 :: e2 :: e3 :: es) (dashboard r) w
    = (Some (writeJSON StatusOK (BDashboard (mkDashboardResponse totals
         (count_where (λ j, pg_day_start (r_now e1) <=? Job.CreatedAt j) jobs)
         (take 10 newest))), es), w)
    ∧ (∀ st, totals !! st = if decide (st ∈ AllStatuses)
                            then Some (count_where (status_is st) jobs) else None)
    ∧ sum_over (λ st, default 0 (totals !! st)) AllStatuses = Z.of_nat (length jobs).
Proof.
  intros Hinv Hctx He1 He2 He3 jobs newest. unfold dashboard, tenantID. rewrite Hctx.
  destruct (exec_StatusCounts tid e1 (e2 :: e3 :: es) w He1) as (counts & Hx & Hc).
  exists (totals_by_status counts). split_and!.
  - rewrite exec_bind, Hx. cbn [exec]. rewrite exec_bind, exec_ListJobs by done. done.
  - intros st. rewrite totals_by_status_spec. by rewrite Hc.
  - rewrite (sum_over_ext _ (λ st, count_where (λ j, status_is st j && true) jobs)).
    + rewrite sum_over_status.
      * unfold count_where. simpl. by rewrite filter_all.
      * repeat (apply NoDup_cons; split; [set_solver|]). by apply NoDup_nil.
      * intros j [_ [id Hj]]%elem_of_select_where. by apply Valid_elem, (inv_status _ Hinv id).
    + intros st Hst. rewrite totals_by_status_spec, decide_True, Hc by done. simpl.
      unfold count_where. do 2 f_equal. apply list_filter_iff. intros j. by rewrite andb_true_r.
Qed.
End Dashboard.

(** ** The statistics and the gauges *)

Section Statistics.
Context `{Postgres} `{!PostgresLaws} `{GoText} {R : Type} `{Redis R} `{!RedisLaws R}.
Implicit Types (w : world R) (e : reply) (d : DB).

(** The names of the queues that jobs satisfying the condition were put on. *)
Definition job_queues (cond : Job → bool) d : list string :=
  Job.QueueName <$> select_where cond (tbl_jobs d).

Lemma exec_scanQueueNames cond w :
  ∃ names, (∀ e es, reliable e → exec (e :: es) (scanQueueNames cond) w = (Some (inr names, es), w))
         ∧ ∀ q, q ∈ names ↔ q ∈ job_queues cond (w_db w).
Proof.
  unfold scanQueueNames, exec_sql. eexists. split.
  - intros e es He. rewrite exec_request, sql_ok by done. unfold queue_names_stmt. cbn [fst snd exec].
    by destruct w.
  - intros q. by rewrite pg_order_text_perm, elem_of_remove_dups.
Qed.

Lemma name_set_ext a b b' : (∀ q, q ∈ b ↔ q ∈ b') → name_set a b = name_set a b'.
Proof. intros E. unfold name_set. set_solver. Qed.

(** Failed over ended. *)
Definition failure_rate (completed failed : Z) : float64 :=
  if 0 <? completed + failed then f64_div (f64_of_Z failed) (f64_of_Z (completed + failed))
  else f64_zero.

(** C38. The statistics: one entry for each configured queue and each queue the tenant has used,
    in order of name, with the lengths of its work list and delayed set; the tenant's
    completions of the last minute and the average latency over the last hour; its failures of the last hour over its completions and
    failures; and the number of live workers. *)
Theorem stats_reports_the_queues queues r tid w e1 ds e2 :
  tenantFromContext (Ctx r) = Some tid → reliable e1 → reliable e2 →
  let names := merge_sort string_le
                 (elements (name_set queues (job_queues (tenant_is tid) (w_db w)))) in
  length ds = (2 * length names)%nat → Forall reliable ds →
  let jobs := tenant_jobs tid (w_db w) in
  let count st window := count_where (ended_within st window (r_now e2)) jobs in
  let latencies :=
    omap latency (filter (λ j, ended_within StatusCompleted Hour (r_now e2) j = true) jobs) in
  let average := coalesce_avg latencies in
  ∀ now, ∃ n (live : gset string),
    (∀ id, id ∈ live ↔ live_worker now (w_redis w) id)
    ∧ ∀ rounds ss es, (n ≤ rounds)%nat → length ss = n → at_once now ss →
      exec (e1 :: ds ++ e2 :: ss ++ es) (stats queues rounds r) w
      = (Some (writeJSON StatusOK (BStats (mkStatsResponse (depth_of (w_redis w) <$> names)
           (count StatusCompleted Minute) (round (f64_mul average (f64_of_Z 1000)) 2)
           (round (failure_rate (count StatusCompleted Hour) (count StatusFailed Hour)) 4)
           (Z.of_nat (size live)))), es), w).
Proof.
  intros Hctx He1 He2 names Hl Hds jobs count latencies average now.
  destruct (count_workers_run w now) as (n & live & Hlive & Hrun).
  destruct (exec_scanQueueNames (tenant_is tid) w) as (dbn & Hn & Hin).
  exists n, live. split; [exact Hlive|]. intros rounds ss es Hr Hls Hss.
  unfold stats, tenantID. rewrite Hctx. unfold QueueNames. rewrite exec_bind.
  rewrite Hn by done. cbn iota beta. rewrite mergeUnique_sorted.
  rewrite (name_set_ext _ _ _ Hin). fold names.
  rewrite exec_bind, exec_read_depths by done. cbn iota beta.
  unfold JobMetrics, exec_sql. rewrite exec_bind, exec_request, sql_ok by done.
  unfold job_metrics_stmt. cbn [fst snd exec w_db with_db].
  change (with_db (w_db w) w) with (mkWorld (w_db w) (w_redis w) (w_metrics w)).
  assert (mkWorld (w_db w) (w_redis w) (w_metrics w) = w) as -> by (by destruct w).
  rewrite exec_bind, Hrun by done. done.
Qed.

(** C39. A scrape: the gauges report the length of every configured queue and of every queue
    any tenant's job was put on, each once, and the number of live workers; when Postgres fails
    the depth is marked invalid, not reported as zero, and the workers are still counted. *)
Theorem Collect_samples_every_queue configured w e1 ds :
  let queues := name_set configured (job_queues (λ _, true) (w_db w)) in
  length ds = size queues → Forall reliable ds →
  ∀ now, ∃ n (live : gset string) (depths : gmap string Z),
    (∀ id, id ∈ live ↔ live_worker now (w_redis w) id)
    ∧ (∀ q, depths !! q = if decide (q ∈ queues)
                          then Some (Z.of_nat (length (rd_list (w_redis w) (queue_key q)))) else None)
    ∧ ∀ rounds ss es, (n ≤ rounds)%nat → length ss = n → at_once now ss →
      let workers := Gauge workers_active None (float64_of_int (Z.of_nat (size live))) in
      (reliable e1 →
         exec (e1 :: ds ++ ss ++ es) (Collect (mkMetricsSource configured rounds)) w
         = (Some (((λ kv, Gauge job_queue_depth (Some kv.1) (float64_of_int kv.2))
                     <$> map_to_list depths) ++ [workers], es), w))
      ∧ ∀ err, r_fault e1 = FLost err →
         exec (e1 :: ss ++ es) (Collect (mkMetricsSource configured rounds)) w
         = (Some ([InvalidMetric job_queue_depth (EWrap "queue names" err); workers], es), w).
Proof.
  intros queues Hl Hds now.
  destruct (count_workers_run w now) as (n & live & Hlive & Hrun).
  destruct (exec_scanQueueNames (λ _, true) w) as (dbn & Hn & Hin).
  assert (∀ q, q ∈ mergeQueues configured dbn ↔ q ∈ queues) as Hq.
  { intros q. unfold queues. rewrite <- (name_set_ext _ _ _ Hin). apply mergeQueues_spec. }
  assert (length ds = length (mergeQueues configured dbn)) as Hlen.
  { rewrite Hl, (Permutation_length (mergeQueues_perm _ _)), (name_set_ext _ _ _ Hin). done. }
  destruct (exec_read_lens (mergeQueues configured dbn) ds ∅ w Hlen Hds) as (depths & Hx & Hd).
  exists n, live, depths. split_and!; [exact Hlive| |].
  { intros q. rewrite Hd, lookup_empty. repeat case_decide; naive_solver. }
  intros rounds ss es Hr Hls Hss workers.
  unfold Collect. cbn [src_QueueDepths src_ActiveWorkers metricsSource_Source].
  unfold QueueDepths, AllQueueNames, ActiveWorkers.
  cbn [ApiMetrics.configured ApiMetrics.rounds]. split.
  - intros He1. rewrite exec_bind, exec_bind, Hn by done. cbn iota beta. rewrite Hx.
    cbn iota beta. rewrite exec_bind, Hrun by done. done.
  - intros err Herr. unfold scanQueueNames, exec_sql. rewrite exec_bind, exec_bind, exec_request.
    simpl (interp _ _ _). rewrite Herr. cbn [faulty fst snd exec].
    assert (mkWorld (w_db w) (w_redis w) (w_metrics w) = w) as -> by (by destruct w).
    rewrite exec_bind, Hrun by done. done.
Qed.
End Statistics.

(** ** The failure rate is a number *)

Definition ten_thousandths (k : Z) : float64 := f64_div (f64_of_Z k) (math_Pow10 4).

Lemma ten_thousandths_are_rates k :
  0 ≤ k ≤ 10 ^ 4 →
  f64_leb f64_zero (ten_thousandths k) = true ∧ f64_leb (ten_thousandths k) (f64_of_Z 1) = true.
Proof.
  intros Hk. destruct (Z.eq_dec k 0) as [->|?]; [split; vm_compute; reflexivity|].
  destruct (Z.eq_dec k (10 ^ 4)) as [->|?]; [split; vm_compute; reflexivity|].
  apply (proper_ratio k (10 ^ 4)); lia.
Qed.

(** C37. The failure rate that is reported is a rate: for any counts of at most 2^32 jobs, the
    float64 arithmetic ends in the float64 nearest to k / 10000, for an integer k that is nearest
    to 10000 times the true ratio of failed to ended jobs, and 0 when no job ended; in
    particular it is finite and between 0 and 1. *)
Theorem failure_rate_is_the_rounded_ratio m :
  let ended := Metrics.CompletedLastHour m + Metrics.FailedLastHour m in
  0 ≤ Metrics.CompletedLastHour m → 0 ≤ Metrics.FailedLastHour m → ended ≤ 2 ^ 32 →
  ∃ k, round (failureRate m) 4 = f64_div (f64_of_Z k) (f64_of_Z 10000)
    ∧ 2 * Z.abs (k * ended - 10000 * Metrics.FailedLastHour m) ≤ ended ∧ 0 ≤ k ≤ 10000
    ∧ (ended = 0 → k = 0)
    ∧ f64_leb f64_zero (round (failureRate m) 4) = true
    ∧ f64_leb (round (failureRate m) 4) (f64_of_Z 1) = true.
Proof.
  intros ended Hc Hf Hle. set (failed := Metrics.FailedLastHour m) in *.
  cut (∃ k, round (failureRate m) 4 = ten_thousandths k
         ∧ 2 * Z.abs (k * ended - 10000 * failed) ≤ ended ∧ 0 ≤ k ≤ 10000 ∧ (ended = 0 → k = 0)).
  { intros (k & E & Hk & Hr & Hz). destruct (ten_thousandths_are_rates k Hr). exists k. rewrite E.
    split; [reflexivity|]. split; [exact Hk|]. by split. }
  unfold round, failureRate. fold failed. change (_ + failed) with ended. unfold ten_thousandths.
  destruct (Z.eq_dec failed 0) as [E0|Hpos].
  { exists 0. split; [|lia]. rewrite E0. cbv zeta. destruct (Z.ltb_spec 0 ended); [|done].
    destruct (f64_of_Z_spec ended) as (m2 & b & -> & _); [lia|]. done. }
  rewrite (proj2 (Z.ltb_lt 0 ended)) by lia.
  destruct (rounded_ratio failed ended (10 ^ 4)) as (k & E & Hk & Hnear); [lia..|].
  exists k. cbv zeta. unfold math_Pow10. rewrite E. split; [done|]. change (10 ^ 4) with 10000 in Hnear.
  split; [exact Hnear|]. split; [nia|lia].
Qed.

(** ** Instances *)

(** One pending job of the tenant, some queued ids, one live worker and one that has lapsed. *)
Definition stats_world : world RefRedis.store :=
  mkWorld (sample_db (sample_job StatusPending 0 3))
    (SETEX (worker_key "w1") 100 (SETEX (worker_key "w2") 1 sample_queue)) [].

Definition tenant_request : Request := {|
  Method := "GET"; Path := EmptyString; Authorization := EmptyString; Cookie := λ _, None;
  URLParam := λ _, EmptyString; Query := λ _, EmptyString; Body := None;
  Ctx := WithTenant Background demo_tenant |}.

Lemma at_once_replicate n now : at_once now (replicate n (ok_at now 0%N)).
Proof. apply Forall_replicate. done. Qed.

Lemma CountActiveWorkers_counts_live_workers_witness :
  ∃ n count, exec (replicate n (ok_at 50 0%N) ++ []) (CountActiveWorkers n) stats_world
             = (Some (inr count, []), stats_world).
Proof.
  destruct (CountActiveWorkers_counts_live_workers stats_world 50) as (n & live & _ & Hx & _).
  eexists n, _. apply Hx; [reflexivity|apply length_replicate|apply at_once_replicate].
Defined.

Lemma dashboard_reports_the_tenant_witness :
  ∃ resp, exec [ok_at 1 0%N; ok_at 2 0%N; ok_at 3 0%N] (dashboard tenant_request) stats_world
          = (Some (resp, []), stats_world).
Proof.
  destruct (dashboard_reports_the_tenant tenant_request demo_tenant (ok_at 1 0%N) (ok_at 2 0%N)
              (ok_at 3 0%N) [] stats_world) as (totals & Hx & _).
  - apply (sample_inv (sample_job StatusPending 0 3)).
    + by eexists.
    + vm_compute. split_and!; [reflexivity|reflexivity|discriminate|reflexivity].
  - reflexivity.
  - apply ok_at_reliable.
  - apply ok_at_reliable.
  - apply ok_at_reliable.
  - eexists. exact Hx.
Defined.

Lemma stats_reports_the_queues_witness :
  ∃ n resp,
    exec (ok_at 1 0%N :: replicate 4 (ok_at 2 0%N) ++ ok_at 3 0%N :: replicate n (ok_at 50 0%N) ++ [])
      (stats ["emails"%string] n tenant_request) stats_world
    = (Some (resp, []), stats_world).
Proof.
  destruct (stats_reports_the_queues ["emails"%string] tenant_request demo_tenant stats_world
              (ok_at 1 0%N) (replicate 4 (ok_at 2 0%N)) (ok_at 3 0%N)) with (now := 50)
    as (n & live & _ & Hx).
  - reflexivity.
  - apply ok_at_reliable.
  - apply ok_at_reliable.
  - vm_compute. reflexivity.
  - repeat constructor.
  - eexists n, _. apply Hx; [reflexivity|apply length_replicate|apply at_once_replicate].
Defined.

Lemma Collect_samples_every_queue_witness :
  ∃ n samples,
    exec (ok_at 1 0%N :: replicate 2 (ok_at 2 0%N) ++ replicate n (ok_at 50 0%N) ++ [])
      (Collect (mkMetricsSource ["emails"%string] n)) stats_world
    = (Some (samples, []), stats_world).
Proof.
  destruct (Collect_samples_every_queue ["emails"%string] stats_world
              (ok_at 1 0%N) (replicate 2 (ok_at 2 0%N))) with (now := 50)
    as (n & live & depths & _ & _ & Hx).
  - vm_compute. reflexivity.
  - repeat constructor.
  - eexists n, _.
    destruct (Hx n (replicate n (ok_at 50 0%N)) []) as [Hok _];
      [reflexivity|apply length_replicate|apply at_once_replicate|].
    apply Hok, ok_at_reliable.
Defined.

(** One failed job of three: 0.3333. *)
Lemma failure_rate_is_the_rounded_ratio_witness :
  round (failureRate (Metrics.mkMetrics 0 2 1 f64_zero)) 4 = f64_div (f64_of_Z 3333) (f64_of_Z 10000).
Proof.
  destruct (failure_rate_is_the_rounded_ratio (Metrics.mkMetrics 0 2 1 f64_zero)) as (k & E & Hk & _).
  - apply (bool_decide_unpack _). vm_compute. exact I.
  - apply (bool_decide_unpack _). vm_compute. exact I.
  - apply (bool_decide_unpack _). vm_compute. exact I.
  - rewrite E. simpl in Hk. assert (k = 3333) as -> by lia. reflexivity.
Defined.
