(* ===== verification/Guarantees.v ===== *)
(** * What the running system guarantees

    Theorems about every reachable configuration: whatever processes run, in whatever
    interleaving, with requests failing or taking effect unseen, and processes stopping
    anywhere. *)
From S2P Require Import Prelude GoStd Models Interfaces Db Effects Store Queue Schedules.
From S2P Require Import Enqueue Registry Worker Scheduler Http JobsApi Lifecycle StoreFacts.
From S2P Require Import Rely Safety System Samples Demo Accounts AccountsFacts Auth.
Open Scope Z_scope.

Section Guarantees.
Context `{Postgres} `{UUIDLib} `{GoText} {R : Type} `{Redis R} `{!RedisLaws R}.
Context {Sch : Type} `{Cron Sch}.
Implicit Types c : config (R := R).

(** C1. Persist before enqueue: every id on a queue's work list or in its delayed set is the
    text of a stored job's id, and the job belongs to that queue. No interleaving, failure or
    crash leaves a queued id that points at nothing. *)
Theorem queued_ids_name_jobs c (Hc : reachable c) q m :
  m ∈ rd_list (w_redis (c_world c)) (queue_key q)
  ∨ is_Some (rd_zset (w_redis (c_world c)) (delayed_key q) !! m) →
  ∃ id j, m = uuid_String id ∧ job_of c id = Some j ∧ Job.QueueName j = q.
Proof. destruct (reachable_inv c Hc) as [[_ Hq] _]. apply Hq. Qed.

(** C7. The lifecycle: a job row is created pending with no attempts, is never deleted, keeps
    its tenant, queue, type, payload and retry budget, and changes only along the edges
    pending -> processing -> completed, processing -> pending (retry), processing -> failed,
    pending -> cancelled and failed -> pending (manual retry). *)
Theorem job_rows_follow_the_lifecycle c (Hc : reachable c) l c' (Hl : sys_step l c c') id :
  match job_of c id with
  | None => ∀ j', job_of c' id = Some j' → fresh_row j'
  | Some j => ∃ j', job_of c' id = Some j' ∧ same_identity j j' ∧ edge j j'
  end.
Proof.
  destruct (job_of c id) as [j|] eqn:Hj.
  - destruct (job_step _ _ _ _ _ Hc Hl Hj) as (j' & ? & ? & ? & _). eauto.
  - intros j' Hj'. destruct (sys_step_guar _ _ _ Hc Hl) as (t & Hg & _).
    specialize (Hg id). unfold job_of in *. by rewrite Hj, Hj' in Hg.
Qed.

(** C11. Completed and cancelled are final: whatever runs afterwards, the row of a completed
    or cancelled job stays exactly as it is. *)
Theorem settled_jobs_never_change c (Hc : reachable c) c' (Hs : steps c c') id j :
  job_of c id = Some j →
  Job.Status j = StatusCompleted ∨ Job.Status j = StatusCancelled →
  job_of c' id = Some j.
Proof.
  intros Hj Hset.
  destruct (steps_keep (λ j', j' = j) c c' id j) as (j' & Hj' & ->); [|done..].
  intros j1 j2 -> He _. destruct Hset; destruct He; by status_neq.
Qed.

(** C8. Mutual exclusion: while a job is processing, only the process that claimed it changes
    its row, and no other process becomes its owner. *)
Theorem processing_job_is_exclusive c (Hc : reachable c) t c' (Hl : sys_step (LRun t) c c') id j :
  job_of c id = Some j → Job.Status j = StatusProcessing → c_owner c id ≠ Some t →
  job_of c' id = Some j ∧ c_owner c' id = c_owner c id.
Proof.
  intros Hj Hs Hne. destruct (job_step _ _ _ _ _ Hc Hl Hj) as (j' & Hj' & _ & _ & Hown).
  rewrite (Hown Hs) in Hj' by (intros t' [= <-]; done). split; [done|].
  inversion Hl; subst. unfold job_of in *. simpl in *.
  unfold claim_owner. rewrite Hj', Hj. by rewrite !decide_True.
Qed.

(** C10. The dead-letter queue is exact: a job is failed if and only if it has a dead-letter
    row, which then carries the job's tenant, its attempt count and its error message. *)
Theorem failed_iff_dead_lettered c (Hc : reachable c) id :
  (∀ j, job_of c id = Some j → Job.Status j = StatusFailed →
     ∃ q, dlq_of c id = Some q ∧ DLQRow.TenantID q = Job.TenantID j
        ∧ DLQRow.Attempts q = Job.RetryCount j ∧ Job.ErrorMessage j = Some (DLQRow.Reason q))
  ∧ (is_Some (dlq_of c id) → ∃ j, job_of c id = Some j ∧ Job.Status j = StatusFailed).
Proof.
  destruct (reachable_inv c Hc) as [[Hd _] _]. split.
  - apply (inv_failed _ Hd).
  - intros [q Hq]. by eapply inv_dlq.
Qed.

(** The retry budget: a stored job has recorded fewer than [max 1 max_retries] failed
    attempts, and exactly that many once it is failed; so [retry_count] never overflows its
    INTEGER column. *)
Theorem retry_budget_is_respected c (Hc : reachable c) id j :
  job_of c id = Some j →
  0 ≤ Job.RetryCount j < 2 ^ 31
  ∧ (if decide (Job.Status j = StatusFailed)
     then Job.RetryCount j = Z.max 1 (Job.MaxRetries j)
     else Job.RetryCount j < Z.max 1 (Job.MaxRetries j)).
Proof.
  destruct (reachable_inv c Hc) as [[Hd _] _]. intros Hj.
  destruct (inv_budget _ Hd _ _ Hj) as (Hm & H0' & Hf & Hn).
  case_decide as Hs; [specialize (Hf Hs)|specialize (Hn Hs)]; lia.
Qed.

(** Isolation at the source: every stored job belongs to a tenant that exists, carries one
    of the five statuses the program uses, and keeps its tenant for good. *)
Theorem jobs_belong_to_tenants c (Hc : reachable c) c' (Hs : steps c c') id j :
  job_of c id = Some j →
  is_Some (tbl_tenants (w_db (c_world c)) !! Job.TenantID j) ∧ Valid (Job.Status j) = true
  ∧ ∃ j', job_of c' id = Some j' ∧ Job.TenantID j' = Job.TenantID j.
Proof.
  intros Hj. destruct (reachable_inv c Hc) as [[Hd _] _]. split_and!.
  - by eapply inv_tenant.
  - by eapply inv_status.
  - eapply (steps_keep (λ j', Job.TenantID j' = Job.TenantID j)); [|done..].
    intros j1 j2 E _ (_ & -> & _). done.
Qed.

(** C9. Attempts: [retry_count] counts exactly the failed ones. Since its creation, or its last
    manual retry, a job has been claimed [retry_count] times, once more while it is processing
    or completed; so it is never tried more than [max 1 max_retries] times. *)
Theorem attempts_are_bounded n c id (Hn : attempts id n c) j :
  job_of c id = Some j →
  Z.of_nat n = Job.RetryCount j + attempt_open (Job.Status j)
  ∧ Z.of_nat n ≤ Z.max 1 (Job.MaxRetries j).
Proof.
  intros Hj. pose proof (attempts_count _ _ _ Hn) as E. rewrite Hj in E. split; [done|].
  destruct (reachable_inv c (attempts_reachable _ _ _ Hn)) as [[Hd _] _].
  destruct (inv_budget _ Hd _ _ Hj) as (_ & _ & Hf & Hnf). rewrite E.
  unfold attempt_open. case_decide as Hs.
  - specialize (Hnf ltac:(intros E'; rewrite E' in Hs; naive_solver)). lia.
  - destruct (decide (Job.Status j = StatusFailed)) as [E'|E'];
      [specialize (Hf E')|specialize (Hnf E')]; lia.
Qed.

(** C30. A claimed job depends on its worker: if the process that claimed a job stops before
    recording the outcome, the job stays in processing, its row unchanged, for ever. Nothing in
    the program picks it up again: not another worker, not a retry, not a cancel. *)
Theorem orphaned_job_is_stuck c (Hc : reachable c) c' (Hs : steps c c') t id j :
  c_threads c !! t = Some (Ret tt) → c_owner c id = Some t →
  job_of c id = Some j → Job.Status j = StatusProcessing →
  job_of c' id = Some j.
Proof.
  revert Hc. induction Hs as [c|c1 c2 c3 [l Hl] _ IH]; intros Hc Ht Ho Hj Hp; [done|].
  destruct (orphan_step _ _ _ _ _ _ Hc Hl Ht Hj Hp Ho) as [Hj2 Ho2].
  apply IH; [by eapply reach_step|by eapply stopped_step|done..].
Qed.

(** C17. The tables stay consistent: in every reachable configuration an email, the hash of a
    session token and the hash of an API key each select at most one row; users and API keys
    belong to an existing tenant and sessions to an existing user; and every job belongs to an
    existing tenant and has one of the program's statuses. *)
Theorem tables_stay_consistent c (Hc : reachable c) :
  let d := w_db (c_world c) in
  (∀ email, length (select_where (email_is email) (tbl_users d)) ≤ 1)%nat
  ∧ (∀ h, length (select_where (token_is h) (tbl_sessions d)) ≤ 1)%nat
  ∧ (∀ h, length (select_where (hash_is h) (tbl_api_keys d)) ≤ 1)%nat
  ∧ (∀ id u, tbl_users d !! id = Some u → is_Some (tbl_tenants d !! User.TenantID u))
  ∧ (∀ id k, tbl_api_keys d !! id = Some k → is_Some (tbl_tenants d !! APIKey.TenantID k))
  ∧ (∀ id s, tbl_sessions d !! id = Some s → is_Some (tbl_users d !! Session.UserID s))
  ∧ ∀ id j, tbl_jobs d !! id = Some j →
      is_Some (tbl_tenants d !! Job.TenantID j) ∧ Valid (Job.Status j) = true.
Proof.
  intros d. destruct (reachable_inv c Hc) as [[Hd _] _]. fold d in Hd.
  pose proof (inv_accounts d Hd) as Ha. split_and!; [..|intros id j Hj; split].
  - intros email. apply select_at_most_one. intros k k' a a' Ha1 Ha2 E1 E2.
    apply bool_decide_eq_true in E1, E2. eapply (acc_email _ _ _ _ Ha); [done..|congruence].
  - intros h. apply select_at_most_one. intros k k' a a' Ha1 Ha2 E1 E2.
    apply bool_decide_eq_true in E1, E2. eapply (acc_token _ _ _ _ Ha); [done..|congruence].
  - intros h. apply select_at_most_one. intros k k' a a' Ha1 Ha2 E1 E2.
    apply bool_decide_eq_true in E1, E2. eapply (acc_hash _ _ _ _ Ha); [done..|congruence].
  - apply (acc_user_tenant _ _ _ _ Ha).
  - apply (acc_key_tenant _ _ _ _ Ha).
  - apply (acc_session_user _ _ _ _ Ha).
  - by eapply inv_tenant.
  - by eapply inv_status.
Qed.
End Guarantees.

(** ** Instances on the concrete run *)

Lemma queued_ids_name_jobs_witness :
  ∃ id j, uuid_String 7%N = uuid_String id ∧ job_of demo_queued id = Some j
        ∧ Job.QueueName j = "default"%string.
Proof.
  apply (queued_ids_name_jobs demo_queued demo_queued_reachable).
  left. rewrite demo_queued_ids. by left.
Defined.

Lemma job_rows_follow_the_lifecycle_witness :
  match job_of demo_failed 7%N with
  | None => True
  | Some j => ∃ j', job_of (act demo_failed (AStop 0)) 7%N = Some j'
                  ∧ same_identity j j' ∧ edge j j'
  end.
Proof.
  pose proof (job_rows_follow_the_lifecycle demo_failed demo_failed_reachable _ _
                (act_step demo_failed (AStop 0) I) 7%N) as Hj.
  destruct (job_of demo_failed 7%N); [exact Hj|exact I].
Defined.

Lemma settled_jobs_never_change_witness :
  job_of (foldl act demo_completed demo_claim) 7%N = job_of demo_completed 7%N.
Proof.
  destruct (job_of demo_completed 7%N) as [j|] eqn:Hj; [|vm_compute in Hj; discriminate].
  apply (settled_jobs_never_change demo_completed demo_completed_reachable);
    [apply steps_acts, demo_claim_admissible|exact Hj|].
  left. vm_compute in Hj. injection Hj as <-. reflexivity.
Defined.

Lemma processing_job_is_exclusive_witness :
  job_of (act demo_processing (ARun 0 (ok_at 20 0%N))) 7%N = job_of demo_processing 7%N.
Proof.
  destruct (job_of demo_processing 7%N) as [j|] eqn:Hj; [|vm_compute in Hj; discriminate].
  apply (processing_job_is_exclusive demo_processing demo_processing_reachable 0
           (act demo_processing (ARun 0 (ok_at 20 0%N)))); [|exact Hj|..].
  - apply (act_step demo_processing (ARun 0 (ok_at 20 0%N))). vm_compute. by eexists.
  - vm_compute in Hj. injection Hj as <-. reflexivity.
  - vm_compute. discriminate.
Defined.

Lemma failed_iff_dead_lettered_witness :
  ∃ j, job_of demo_failed 7%N = Some j ∧ Job.Status j = StatusFailed.
Proof.
  apply (failed_iff_dead_lettered demo_failed demo_failed_reachable 7%N).
  vm_compute. by eexists.
Defined.

Lemma retry_budget_is_respected_witness :
  ∃ j, job_of demo_failed 7%N = Some j ∧ 0 ≤ Job.RetryCount j < 2 ^ 31.
Proof.
  destruct (job_of demo_failed 7%N) as [j|] eqn:Hj; [|vm_compute in Hj; discriminate].
  exists j. split; [reflexivity|].
  apply (retry_budget_is_respected demo_failed demo_failed_reachable 7%N j Hj).
Defined.

Lemma jobs_belong_to_tenants_witness :
  ∃ j, job_of demo_failed 7%N = Some j ∧ Valid (Job.Status j) = true.
Proof.
  destruct (job_of demo_failed 7%N) as [j|] eqn:Hj; [|vm_compute in Hj; discriminate].
  exists j. split; [reflexivity|].
  apply (jobs_belong_to_tenants demo_failed demo_failed_reachable demo_failed
           (rtc_refl _ _) 7%N j Hj).
Defined.

Lemma tables_stay_consistent_witness :
  ∃ j t, job_of demo_failed 7%N = Some j
    ∧ tbl_tenants (w_db (c_world demo_failed)) !! Job.TenantID j = Some t
    ∧ (length (select_where (hash_is (HashAPIKey demo_key))
                 (tbl_api_keys (w_db (c_world demo_failed)))) ≤ 1)%nat.
Proof.
  destruct (tables_stay_consistent demo_failed demo_failed_reachable)
    as (_ & _ & Hkey & _ & _ & _ & Hjob).
  destruct (job_of demo_failed 7%N) as [j|] eqn:Hj; [|vm_compute in Hj; discriminate].
  destruct (Hjob 7%N j Hj) as [[t Ht] _]. exists j, t. split_and!; [reflexivity|exact Ht|].
  apply Hkey.
Defined.

Lemma attempts_are_bounded_witness :
  ∃ n j, job_of demo_failed 7%N = Some j ∧ Z.of_nat n ≤ Z.max 1 (Job.MaxRetries j).
Proof.
  destruct demo_failed_attempts as [n Hn].
  destruct (job_of demo_failed 7%N) as [j|] eqn:Hj; [|vm_compute in Hj; discriminate].
  exists n, j. split; [reflexivity|].
  apply (attempts_are_bounded n demo_failed 7%N Hn j Hj).
Defined.

Lemma orphaned_job_is_stuck_witness :
  job_of (foldl act demo_orphan (demo_enqueue "echo" "3")) 7%N = job_of demo_orphan 7%N.
Proof.
  destruct (job_of demo_orphan 7%N) as [j|] eqn:Hj; [|vm_compute in Hj; discriminate].
  apply (orphaned_job_is_stuck demo_orphan demo_orphan_reachable) with (t := 1%nat).
  - apply steps_acts. by repeat constructor.
  - vm_compute. reflexivity.
  - vm_compute. reflexivity.
  - exact Hj.
  - vm_compute in Hj. injection Hj as <-. reflexivity.
Defined.
