(* ===== verification/Responses.v ===== *)
(** * The type of the API

    For each route, the answers its endpoint can give whatever the outside does: the status and
    kind of body of a success, whether a cookie is set, and the statuses of its errors. *)
From S2P Require Import Prelude GoStd Models Interfaces Crypto Db Effects Auth Accounts.
From S2P Require Import Store Stats Queue Enqueue Http JobsApi AuthApi KeysApi AdminApi Routes.
From S2P Require Import Samples Demo.
Open Scope Z_scope.

Create HintDb answers discriminated.

(** Case analysis down to the requests and the values returned, unfolding the program. *)
Ltac head_of p := lazymatch p with ?f _ => head_of f | _ => p end.

Ltac answers_step :=
  lazymatch goal with
  | |- ∀ _, _ => intros ?
  | |- answers _ _ (Ret ?a) =>
      lazymatch a with context [match ?x with _ => _ end] => destruct x end
  | |- answers _ _ (request _) => intros ?
  | |- answers _ _ (bind _ _) =>
      first [eapply answers_bind; [solve [eauto with answers]|]
            |apply answers_any; [solve [calm]|]]
  | |- answers _ _ (match ?x with _ => _ end) =>
      lazymatch type of x with
      | (Response + _)%type => destruct x eqn:?
      | _ => destruct x
      end
  | |- answers _ _ (let _ := _ in _) => cbv zeta
  | |- answers _ _ ?p => let f := head_of p in unfold f
  end
(** A program whose value does not matter. *)
with calm := repeat answers_step; exact I.

(** ** The types of the routes *)

Inductive kind :=
| KJob | KJobList | KUser | KMe | KKeyList | KKeyCreated | KStats | KDashboard | KHealth
| KNothing.

Definition kind_of (b : RespBody) : option kind :=
  match b with
  | BError _ => None
  | BJob _ => Some KJob
  | BJobList _ => Some KJobList
  | BUser _ => Some KUser
  | BMe _ _ => Some KMe
  | BKeyList _ => Some KKeyList
  | BKeyCreated _ => Some KKeyCreated
  | BStats _ => Some KStats
  | BDashboard _ => Some KDashboard
  | BHealth _ _ _ => Some KHealth
  | BEmpty => Some KNothing
  end.

Record RouteType := mkRouteType {
  t_status : Z; t_kind : kind; t_cookie : bool; t_errors : list Z }.

(** In the order of [Routes]. *)
Definition route_types : list RouteType := [
  mkRouteType 200 KHealth false [];
  mkRouteType 201 KUser true [400; 409; 500];
  mkRouteType 200 KUser true [400; 401; 500];
  mkRouteType 204 KNothing true [401; 500];
  mkRouteType 200 KMe false [401; 500];
  mkRouteType 200 KJobList false [400; 401; 500];
  mkRouteType 202 KJob false [400; 401; 500];
  mkRouteType 200 KJob false [400; 401; 404; 500];
  mkRouteType 200 KJob false [400; 401; 404; 409; 500];
  mkRouteType 200 KJob false [400; 401; 404; 409; 500];
  mkRouteType 200 KKeyList false [401; 500];
  mkRouteType 201 KKeyCreated false [400; 401; 500];
  mkRouteType 204 KNothing false [400; 401; 404; 500];
  mkRouteType 200 KStats false [401; 500];
  mkRouteType 200 KDashboard false [401; 500]
].

Definition json_header : list (string * string) := [("Content-Type", "application/json")%string].

(** The attributes of every cookie the API sets. *)
Definition api_cookie (cfg : SessionConfig) (c : SetCookie) : Prop :=
  cName c = CookieName cfg ∧ cPath c = "/"%string ∧ cHttpOnly c = true
  ∧ cSecure c = Secure cfg ∧ cSameSiteLax c = true.

(** [typed cfg t resp]: [resp] is a success of the type [t], one of its errors, or the health
    check's report of a service that is down. *)
Inductive typed (cfg : SessionConfig) (t : RouteType) : Response → Prop :=
| typed_plain body :
    t_kind t ≠ KNothing → t_cookie t = false → kind_of body = Some (t_kind t) →
    typed cfg t (writeJSON (t_status t) body)
| typed_cookie body c :
    t_kind t ≠ KNothing → t_cookie t = true → kind_of body = Some (t_kind t) →
    api_cookie cfg c →
    typed cfg t (with_cookie c (writeJSON (t_status t) body))
| typed_nothing :
    t_kind t = KNothing → t_cookie t = false → t_status t = 204 → typed cfg t no_content
| typed_nothing_cookie c :
    t_kind t = KNothing → t_cookie t = true → t_status t = 204 → api_cookie cfg c →
    typed cfg t (with_cookie c no_content)
| typed_error status msg : status ∈ t_errors t → typed cfg t (writeError status msg)
| typed_degraded pg rd :
    t_kind t = KHealth → (pg = "down"%string ∨ rd = "down"%string) →
    typed cfg t (writeJSON 503 (BHealth "degraded" pg rd)).

(** The only panic of the model of the API is a SCAN that does not come back to its start. *)
Definition may_scan (t : RouteType) (msg : string) : Prop :=
  t_kind t = KStats ∧ msg = "still scanning"%string.

Section Responses.
Context `{Postgres} `{UUIDLib} `{GoText} `{Bcrypt} `{Router} {R : Type} `{Redis R}.
Context (cfg : SessionConfig) (F : string → Prop).
Implicit Types (r : Request) (t : RouteType).

Lemma calm_scan n cursor seen :
  F "still scanning"%string → answers F (λ _, True) (scan_workers (R := R) n cursor seen).
Proof.
  intros HF. revert cursor seen. induction n as [|n IH]; intros cursor seen; [done|].
  cbn [scan_workers]. repeat first [apply IH|answers_step]; exact I.
Qed.

Lemma calm_read_depths names : answers F (λ _, True) (read_depths (R := R) names).
Proof.
  induction names as [|name names IH]; [done|]. cbn [read_depths].
  repeat first [apply IH|answers_step]; exact I.
Qed.

Lemma cookie_setSessionCookie tok at_ :
  answers F (api_cookie cfg) (setSessionCookie (R := R) cfg tok at_).
Proof. repeat answers_step. by split_and!. Qed.
Local Hint Resolve cookie_setSessionCookie calm_read_depths : answers.

Lemma cookie_startSession uid :
  answers F (λ c, match c with inl _ => True | inr c => api_cookie cfg c end)
    (startSession (R := R) cfg uid).
Proof. repeat answers_step; try exact I. done. Qed.
Local Hint Resolve cookie_startSession : answers.

(** *** The error responses of the parsers *)

Lemma tenantID_error r resp : tenantID r = inl resp → ∃ msg, resp = writeError 500 msg.
Proof. unfold tenantID. destruct (tenantFromContext _); intros [= <-]; eauto. Qed.

Lemma user_error r resp : user r = inl resp → ∃ msg, resp = writeError 500 msg.
Proof. unfold user. destruct (userFromContext _); intros [= <-]; eauto. Qed.

Lemma url_job_id_bad_request r resp : url_job_id r = inl resp → ∃ msg, resp = writeError 400 msg.
Proof. unfold url_job_id. destruct (uuid_Parse _); intros [= <-]; eauto. Qed.

Lemma decodeCredentials_error r resp :
  decodeCredentials r = inl resp → ∃ msg, resp = writeError 400 msg.
Proof. unfold decodeCredentials. intros ?. repeat case_match; simplify_eq; eauto. Qed.

(** *** The endpoints *)

Ltac typed :=
  repeat match goal with
         | H : tenantID _ = inl _ |- _ => apply tenantID_error in H as [? ->]
         | H : user _ = inl _ |- _ => apply user_error in H as [? ->]
         | H : url_job_id _ = inl _ |- _ => apply url_job_id_bad_request in H as [? ->]
         | H : decodeCredentials _ = inl _ |- _ => apply decodeCredentials_error in H as [? ->]
         end;
  simpl;
  first [by apply typed_plain|by apply typed_nothing|by apply typed_cookie
        |by apply typed_nothing_cookie|by apply typed_degraded; auto
        |apply typed_error; set_solver].
Ltac endpoint := repeat answers_step; typed.

Lemma typed_health r : answers F (typed cfg (mkRouteType 200 KHealth false [])) (health (R := R) r).
Proof. endpoint. Qed.

Lemma typed_signup r :
  answers F (typed cfg (mkRouteType 201 KUser true [400; 409; 500])) (signup (R := R) cfg r).
Proof. endpoint. Qed.

Lemma typed_login r :
  answers F (typed cfg (mkRouteType 200 KUser true [400; 401; 500])) (login (R := R) cfg r).
Proof. endpoint. Qed.

Lemma typed_logout r :
  answers F (typed cfg (mkRouteType 204 KNothing true [401; 500])) (logout (R := R) cfg r).
Proof. endpoint. Qed.

Lemma typed_me r :
  answers F (typed cfg (mkRouteType 200 KMe false [401; 500])) (me (R := R) r).
Proof. endpoint. Qed.

Lemma typed_listJobs r :
  answers F (typed cfg (mkRouteType 200 KJobList false [400; 401; 500])) (listJobs (R := R) r).
Proof. endpoint. Qed.

Lemma typed_enqueueJob r :
  answers F (typed cfg (mkRouteType 202 KJob false [400; 401; 500])) (enqueueJob (R := R) r).
Proof. endpoint. Qed.

Lemma typed_getJob r :
  answers F (typed cfg (mkRouteType 200 KJob false [400; 401; 404; 500])) (getJob (R := R) r).
Proof. endpoint. Qed.

Lemma typed_retryJob r :
  answers F (typed cfg (mkRouteType 200 KJob false [400; 401; 404; 409; 500]))
    (retryJob (R := R) r).
Proof. endpoint. Qed.

Lemma typed_cancelJob r :
  answers F (typed cfg (mkRouteType 200 KJob false [400; 401; 404; 409; 500]))
    (cancelJob (R := R) r).
Proof. endpoint. Qed.

Lemma typed_listKeys r :
  answers F (typed cfg (mkRouteType 200 KKeyList false [401; 500])) (listKeys (R := R) r).
Proof. endpoint. Qed.

Lemma typed_createKey r :
  answers F (typed cfg (mkRouteType 201 KKeyCreated false [400; 401; 500]))
    (createKey (R := R) r).
Proof. endpoint. Qed.

Lemma typed_deleteKey r :
  answers F (typed cfg (mkRouteType 204 KNothing false [400; 401; 404; 500]))
    (deleteKey (R := R) r).
Proof. endpoint. Qed.

Lemma typed_stats queues n r :
  F "still scanning"%string →
  answers F (typed cfg (mkRouteType 200 KStats false [401; 500])) (stats (R := R) queues n r).
Proof. intros HF. pose proof calm_scan. endpoint. Qed.

Lemma typed_dashboard r :
  answers F (typed cfg (mkRouteType 200 KDashboard false [401; 500])) (dashboard (R := R) r).
Proof. endpoint. Qed.

Lemma typed_RequireSession t next r :
  401 ∈ t_errors t → 500 ∈ t_errors t → (∀ r, answers F (typed cfg t) (next r)) →
  answers F (typed cfg t) (RequireSession (R := R) cfg next r).
Proof. intros ?? Hn. repeat first [apply Hn|answers_step]; by apply typed_error. Qed.

Lemma typed_RequireAPIKey t next r :
  401 ∈ t_errors t → 500 ∈ t_errors t → (∀ r, answers F (typed cfg t) (next r)) →
  answers F (typed cfg t) (RequireAPIKey (R := R) next r).
Proof. intros ?? Hn. repeat first [apply Hn|answers_step]; by apply typed_error. Qed.
End Responses.

(** ** The router *)

Section RouterType.
Context `{Postgres} `{UUIDLib} `{GoText} `{Bcrypt} `{Router} {R : Type} `{Redis R}.
Context (api : ApiConfig).

Definition well_typed (t : RouteType) (rt : Route (R := R)) : Prop :=
  ∀ r, answers (may_scan t) (typed (session_config api) t) (rHandler rt r).

Lemma routes_well_typed : Forall2 well_typed route_types (Routes api).
Proof.
  repeat constructor; intros r; cbn [rHandler].
  - eapply typed_health.
  - eapply typed_signup.
  - eapply typed_login.
  - eapply typed_RequireSession; [set_solver..|eapply typed_logout].
  - eapply typed_RequireSession; [set_solver..|eapply typed_me].
  - eapply typed_RequireAPIKey; [set_solver..|eapply typed_listJobs].
  - eapply typed_RequireAPIKey; [set_solver..|eapply typed_enqueueJob].
  - eapply typed_RequireAPIKey; [set_solver..|eapply typed_getJob].
  - eapply typed_RequireAPIKey; [set_solver..|eapply typed_retryJob].
  - eapply typed_RequireAPIKey; [set_solver..|eapply typed_cancelJob].
  - eapply typed_RequireSession; [set_solver..|eapply typed_listKeys].
  - eapply typed_RequireSession; [set_solver..|eapply typed_createKey].
  - eapply typed_RequireSession; [set_solver..|eapply typed_deleteKey].
  - eapply typed_RequireSession; [set_solver..|]. intros ?. by eapply typed_stats.
  - eapply typed_RequireSession; [set_solver..|eapply typed_dashboard].
Qed.

(** Where the router sends a request: the type of the route, if it is one of the table. *)
Definition route_type (r : Request) : option RouteType :=
  match chi_route ((λ rt, (rMethod rt, rPattern rt)) <$> Routes (R := R) api) (Method r) (Path r) with
  | RouteTo n _ => route_types !! n
  | _ => None
  end.

(** The answer before the CORS headers are added. *)
Definition routed (r : Request) (resp : Response) : Prop :=
  match route_type r with
  | Some t => typed (session_config api) t resp
  | None => resp = notFound ∨ resp = methodNotAllowed
  end.

Definition may_panic (r : Request) (msg : string) : Prop :=
  ∃ t, route_type r = Some t ∧ may_scan t msg.

Lemma answers_route_request r :
  answers (may_panic r) (routed r) (route_request (R := R) api r).
Proof.
  unfold route_request. 
  destruct (chi_route _ _ _) as [n param| |] eqn:E.
  - destruct (Routes api !! n) as [rt|] eqn:Hn.
    + destruct (Forall2_lookup_r _ _ _ _ _ routes_well_typed Hn) as (t & Ht & Hw).
      assert (route_type r = Some t) as Hr by (unfold route_type; by rewrite E).
      eapply answers_mono; [..|apply Hw].
      * intros resp. unfold routed. by rewrite Hr.
      * intros msg Hm. by exists t.
    + assert (route_types !! n = None) as Ht.
      { apply lookup_ge_None_2. apply lookup_ge_None_1 in Hn.
        by rewrite (Forall2_length _ _ _ routes_well_typed). }
      unfold routed, route_type. rewrite E, Ht. by left.
  - unfold routed, route_type. rewrite E. by left.
  - unfold routed, route_type. rewrite E. by right.
Qed.

(** C16. Whatever the outside does, an answer of the API has the CORS headers followed by an
    answer of the type of its route: the documented success with its kind of body, its cookie
    (HTTP-only, SameSite=Lax, the configured name and Secure flag) or none, or an error of one
    of the route's statuses with a JSON message. A request outside the table gets 404 or 405,
    a preflight an empty 204. No request makes the program panic; the model's only panic is a
    SCAN that outlasts the rounds watched, on the statistics route. *)
Theorem ServeHTTP_is_well_typed (r : Request) es (w : world R) :
  (∀ resp es' w', exec es (ServeHTTP api r) w = (Some (resp, es'), w') →
     ∃ resp0, resp = {| resp0 with Headers := cors_headers (allowedOrigin api) ++ Headers resp0 |}
       ∧ if decide (Method r = "OPTIONS"%string) then resp0 = no_content else routed r resp0)
  ∧ (panics es (ServeHTTP api r) w → ∃ t, route_type r = Some t ∧ t_kind t = KStats).
Proof.
  assert (answers (may_panic r) (λ resp, ∃ resp0,
    resp = {| resp0 with Headers := cors_headers (allowedOrigin api) ++ Headers resp0 |}
    ∧ if decide (Method r = "OPTIONS"%string) then resp0 = no_content else routed r resp0)
    (ServeHTTP api r)) as Ha.
  { unfold ServeHTTP, CORS. destruct (decide _); [by exists no_content|].
    eapply answers_bind; [apply answers_route_request|]. intros resp Hr. by exists resp. }
  destruct (answers_sound _ _ _ es w Ha) as [Hx Hp]. split; [exact Hx|].
  intros (msg & t & Ht & Hk & _)%Hp. eauto.
Qed.
End RouterType.

(** A job submitted with the demo tenant's key, and the type of its answer. *)
Definition demo_submission : option (Response * list reply) :=
  (exec [ok_at 1 0%N; ok_at 1 0%N; ok_at 1 7%N; ok_at 2 0%N; ok_at 3 0%N]
     (ServeHTTP demo_api (demo_request "echo" "3")) demo_world).1.

Lemma ServeHTTP_is_well_typed_witness :
  ∃ resp es resp0, demo_submission = Some (resp, es) ∧ StatusCode resp = 202
    ∧ resp = {| resp0 with Headers := cors_headers (allowedOrigin demo_api) ++ Headers resp0 |}
    ∧ routed (R := RefRedis.store) demo_api (demo_request "echo" "3") resp0.
Proof.
  destruct (ServeHTTP_is_well_typed (R := RefRedis.store) demo_api (demo_request "echo" "3")
    [ok_at 1 0%N; ok_at 1 0%N; ok_at 1 7%N; ok_at 2 0%N; ok_at 3 0%N] demo_world) as [Hx _].
  unfold demo_submission.
  destruct (exec _ _ _) as [[[resp es]|] w] eqn:E.
  - destruct (Hx _ _ _ eq_refl) as (resp0 & Hr & Ht). exists resp, es, resp0.
    split_and!; [done| |done|exact Ht]. revert E. vm_compute. by intros [= <- _ _].
  - revert E. vm_compute. discriminate.
Defined.
