(* ===== verification/Liveness.v ===== *)
(** * Progress: without failures, work gets done

    One worker over its queues, whose requests succeed: everything that is waiting is processed. *)
From S2P Require Import Prelude GoStd Models Interfaces Db Effects Samples Store Queue Registry.
From S2P Require Import Worker Lifecycle StoreFacts QueueFacts WorkerFacts Rely Safety System Demo.
Open Scope Z_scope.

Section Liveness.
Context `{Postgres} `{UUIDLib} `{!UUIDLaws} `{GoText} {R : Type} `{Redis R} `{!RedisLaws R}.
Implicit Types (w : world R) (e : reply).

(** Every handler comes to an end, and Postgres can store what it returns. *)
Definition finishing (registry : Registry R) : Prop := ∀ ty raw w,
  twp reliable (Dispatch registry ty raw)
    (λ res w', w' = w ∧ match res with
                        | inl _ => True
                        | inr encoded => ∃ res', jsonb_param encoded = inr res'
                        end) w.

(** The id waits in its queue's delayed set. *)
Definition parked w (q m : string) : Prop := is_Some (rd_zset (w_redis w) (delayed_key q) !! m).

(** What attempts leave a pending job [j] as. *)
Definition attempted w (j j' : Job) : Prop :=
  same_identity j j'
  ∧ (Job.Status j' = StatusCompleted ∨ Job.Status j' = StatusFailed
     ∨ (Job.Status j' = StatusPending ∧ Job.RetryCount j < Job.RetryCount j' < Job.MaxRetries j
        ∧ parked w (Job.QueueName j) (uuid_String (Job.ID j)))).

(** Work lists as they are, delayed sets no smaller, other jobs untouched. *)
Definition frame (id : uuid) w w' : Prop :=
  (∀ k, rd_list (w_redis w') k = rd_list (w_redis w) k)
  ∧ (∀ k m, is_Some (rd_zset (w_redis w) k !! m) → is_Some (rd_zset (w_redis w') k !! m))
  ∧ ∀ id', id' ≠ id → tbl_jobs (w_db w') !! id' = tbl_jobs (w_db w) !! id'.

Definition processed (id : uuid) (j : Job) w w' : Prop :=
  frame id w w' ∧ ∃ j', tbl_jobs (w_db w') !! id = Some j' ∧ attempted w' j j'.

(** ** One attempt *)

(** The tables and Redis after a failed attempt, the [n]th, of job [r] at the times [E] allows. *)
Definition failed_attempt (E : reply → Prop) (r : Job) (n : Z) (msg : string) w w' : Prop :=
  if decide (Job.MaxRetries r ≤ n) then
    w_redis w' = w_redis w ∧ ∃ now, w_db w' = dead_lettered (w_db w) now n msg r
  else ∃ now e, E e
    ∧ w_db w' = put_job (Job.ID r) (retried_row now n msg r) (w_db w)
    ∧ w_redis w' = ZADD (delayed_key (Job.QueueName r))
                     (float64_of_int (Unix (r_now e + Z.min (2 ^ n * Second) maxBackoff)))
                     (uuid_String (Job.ID r)) (w_redis w).

Section Attempt.
Context (E : reply → Prop) `{!Reliably E}.

Lemma twp_handleFailure r err w :
  keyed Job.ID (tbl_jobs (w_db w)) → tbl_jobs (w_db w) !! Job.ID r = Some r →
  0 ≤ Job.RetryCount r < 2 ^ 31 - 1 →
  twp E (handleFailure r err)
    (λ o w', o = None ∧ failed_attempt E r (Job.RetryCount r + 1) (Error err) w w') w.
Proof.
  intros Hk Hr Hc. unfold handleFailure, failed_attempt. rewrite wrap64_id by lia.
  assert (in_int32 (Job.RetryCount r + 1) = true) as Hn by (apply in_int32_spec; lia).
  case_decide as Hm.
  - rewrite (proj2 (Z.leb_le _ _) Hm). unfold DeadLetter. apply twp_bind, twp_bind, twp_tx; [done|].
    intros now us. rewrite (dead_letter_tx_ok _ _ r) by done. cbn [fst snd err_of twp].
    intros e _. cbn [interp twp]. split_and!; [done|done|by exists now].
  - destruct (Z.leb_spec (Job.MaxRetries r) (Job.RetryCount r + 1)); [lia|].
    rewrite backoff_value by lia. unfold MarkForRetry. apply twp_bind, twp_bind, twp_sql; [done|].
    intros now u. rewrite mark_for_retry_stmt_spec, Hn, Hr by done. cbn [fst snd err_of twp].
    apply twp_bind, twp_now. intros e He. apply twp_bind. unfold EnqueueDelayed.
    apply twp_bind, twp_redis; [done|]. intros now'. cbn [fst snd twp wrap_err].
    split; [done|]. by exists now, e.
Qed.

(** Up to the handler's answer. *)
Lemma twp_process_claimed registry id j w (Q : option error → world R → Prop) :
  keyed Job.ID (tbl_jobs (w_db w)) → tbl_jobs (w_db w) !! id = Some j →
  Job.Status j = StatusPending →
  (∀ now, twp E (Dispatch registry (Job.JobType j) (Job.Payload j))
     (λ res w1, ∀ m, twp E
        match res with
        | inl handlerErr => handleFailure (claimed_row now j) handlerErr
        | inr res =>
            let! err := MarkCompleted id res in
            match err with
            | Some e => Ret (Some e)
            | None => let! _ := IncProcessed StatusCompleted in Ret None
            end
        end Q (with_metric m w1))
     (with_db (put_job id (claimed_row now j) (w_db w)) w)) →
  twp E (process registry (uuid_String id)) Q w.
Proof.
  intros Hk Hj Hs HQ. unfold process. rewrite uuid_Parse_String. unfold ClaimJob.
  apply twp_bind, twp_bind, twp_sql; [done|]. intros now u.
  rewrite claim_job_stmt_spec, Hj, decide_True by done. cbn [fst snd twp].
  apply twp_bind, twp_now. intros start _. apply twp_bind. eapply twp_mono; [|apply HQ].
  intros res w1 Hres. apply twp_bind, twp_now. intros stop _. apply twp_bind. intros e _.
  cbn [interp twp]. apply Hres.
Qed.
End Attempt.

Lemma twp_process registry id j w :
  finishing registry → keyed Job.ID (tbl_jobs (w_db w)) → tbl_jobs (w_db w) !! id = Some j →
  budget_ok j →
  twp reliable (process registry (uuid_String id))
    (λ _ w', if decide (Job.Status j = StatusPending) then processed id j w w' else w' = w) w.
Proof.
  intros Hreg Hk Hj Hb. pose proof (Hk _ _ Hj) as <-.
  destruct (decide (Job.Status j = StatusPending)) as [Hs|Hs].
  2: { unfold process. rewrite uuid_Parse_String. unfold ClaimJob.
       apply twp_bind, twp_bind, twp_sql; [apply _|]. intros now u.
       rewrite claim_job_stmt_spec, Hj, decide_False by done. by destruct w. }
  apply (twp_process_claimed reliable registry (Job.ID j) j); [done..|]. intros now.
  eapply twp_mono; [|apply Hreg]. intros res w1 [-> Hres] m.
  set (w1 := with_metric m _).
  assert (keyed Job.ID (tbl_jobs (w_db w1))) as Hk1 by (by apply keyed_insert).
  assert (tbl_jobs (w_db w1) !! Job.ID j = Some (claimed_row now j)) as Hj1 by apply lookup_insert_eq.
  assert (∀ id', id' ≠ Job.ID j → tbl_jobs (w_db w1) !! id' = tbl_jobs (w_db w) !! id') as Hne1.
  { intros id' Hne. simpl. by rewrite lookup_insert_ne. }
  assert (w_redis w1 = w_redis w) as Er1 by done. clearbody w1.
  destruct res as [err|encoded].
  - eapply twp_mono; [|apply (twp_handleFailure reliable (claimed_row now j)); [exact Hk1|exact Hj1|]].
    2: { destruct Hb as (Hm & H0' & _ & Hn). specialize (Hn ltac:(by rewrite Hs)). simpl. lia. }
    intros o w' [_ Hf]. unfold failed_attempt in Hf. case_decide.
    + destruct Hf as [Er [now' Ed]]. split; [split_and!|].
      * intros k. by rewrite Er, Er1.
      * intros k x. by rewrite Er, Er1.
      * intros id' Hne. rewrite Ed. simpl. rewrite lookup_insert_ne by done. auto.
      * eexists. split; [rewrite Ed; apply lookup_insert_eq|]. split; [done|]. by right; left.
    + destruct Hf as (now' & e & _ & Ed & Er). split; [split_and!|].
      * intros k. by rewrite Er, list_ZADD, Er1.
      * intros k x Hx. rewrite Er, zset_ZADD, Er1. case_decide as Ek; [subst k|done].
        rewrite lookup_insert. case_decide; [by eexists|done].
      * intros id' Hne. rewrite Ed. simpl. rewrite lookup_insert_ne by done. auto.
      * eexists. split; [rewrite Ed; apply lookup_insert_eq|]. split; [done|].
        right; right. split_and!; [done|simpl in *; lia..|]. unfold parked. rewrite Er, zset_ZADD.
        rewrite decide_True by done. rewrite lookup_insert_eq. by eexists.
  - unfold MarkCompleted. apply twp_bind, twp_bind, twp_sql; [apply _|]. intros now' u'.
    destruct Hres as [res' Hres]. rewrite mark_completed_stmt_spec by exact Hk1.
    rewrite Hres, Hj1. cbn [fst snd err_of twp]. intros e2 _. cbn [interp twp]. split.
    + split_and!; [by rewrite <- Er1..|]. intros id' Hne. simpl.
      rewrite lookup_insert_ne by done. auto.
    + eexists. split; [apply lookup_insert_eq|]. split; [done|]. by left.
Qed.

(** ** Draining a queue *)

(** A safe program keeps the invariant while it makes progress. *)
Lemma safe_twp {A} E t P (p : prog R A) Q Q' w o :
  safe t P p Q → inv w → P w o → twp E p Q' w →
  twp E p (λ a w', Q' a w' ∧ inv w') w.
Proof.
  revert P w o. induction p as [a|msg|X op k IH]; intros P w o Hs Hi HP Ht; simpl in *; [done|done|].
  intros e He. specialize (Hs e w o Hi HP). specialize (Ht e He).
  destruct (interp op e w) as [x w']. destruct Hs as [[Hi' _] (P' & _ & HP' & Hs)].
  by eapply IH.
Qed.

(** From [w0], with the ids [D] served: jobs that were not pending are as they were; a pending
    one has been attempted, or is untouched and not among [D]; there are no others; and what was
    parked is. *)
Definition served w0 (D : list string) w : Prop :=
  inv w
  ∧ (∀ k m, is_Some (rd_zset (w_redis w0) k !! m) → is_Some (rd_zset (w_redis w) k !! m))
  ∧ (∀ id, tbl_jobs (w_db w0) !! id = None → tbl_jobs (w_db w) !! id = None)
  ∧ ∀ id j0, tbl_jobs (w_db w0) !! id = Some j0 →
    ∃ j, tbl_jobs (w_db w) !! id = Some j
       ∧ if decide (Job.Status j0 = StatusPending)
         then attempted w j0 j ∨ (j = j0 ∧ uuid_String id ∉ D)
         else j = j0.

Lemma served_refl w : inv w → served w [] w.
Proof.
  intros Hi. split_and!; [done..|]. intros id j Hj. exists j. split; [done|].
  case_decide; [right|done]. split; [done|apply not_elem_of_nil].
Qed.

Lemma attempted_frame w w' j j' :
  (∀ k m, is_Some (rd_zset (w_redis w) k !! m) → is_Some (rd_zset (w_redis w') k !! m)) →
  attempted w j j' → attempted w' j j'.
Proof.
  intros Fz [Hid [?|[?|(? & ? & Hp)]]]; (split; [done|]); [by left|by right; left|].
  right; right. split_and!; [done|lia..|]. by apply Fz.
Qed.

Lemma attempted_again w w' j0 j1 j2 :
  attempted w j0 j1 → Job.Status j1 = StatusPending → attempted w' j1 j2 → attempted w' j0 j2.
Proof.
  intros [Hid Ha] Hs [Hid' Hb]. split; [by eapply same_identity_trans|].
  destruct Ha as [E|[E|(_ & Hc & _)]]; [by rewrite Hs in E..|].
  destruct Hid as (Eid & _ & Eq & _ & _ & Em & _). rewrite Eid, Eq, Em in Hb.
  destruct Hb as [?|[?|(? & ? & ?)]]; [by left|by right; left|right; right].
  split_and!; [done|lia..|done].
Qed.

Lemma served_step w0 D w w' id1 j1 :
  served w0 D w → tbl_jobs (w_db w) !! id1 = Some j1 → inv w' →
  (if decide (Job.Status j1 = StatusPending) then processed id1 j1 w w' else w' = w) →
  served w0 (uuid_String id1 :: D) w'.
Proof.
  intros (Hi & Hz & Hn & Hs) Hj1 Hi' Hp.
  assert (frame id1 w w') as F.
  { destruct (decide (Job.Status j1 = StatusPending)); [apply Hp|]. subst w'. by split_and!. }
  destruct F as (_ & Fz & Fj). split_and!; [done|by auto| |].
  { intros id Hid%Hn. by rewrite Fj by congruence. }
  intros id j0 Hj0. destruct (Hs id j0 Hj0) as (j & Hj & Hcase). destruct (decide (id = id1)) as [->|Hne].
  - rewrite Hj1 in Hj. injection Hj as <-.
    destruct (decide (Job.Status j0 = StatusPending)) as [H0'|H0'].
    + destruct (decide (Job.Status j1 = StatusPending)) as [Hs1|Hs1].
      * destruct Hp as [_ (j' & Hj' & Ha)]. exists j'. split; [done|left].
        destruct Hcase as [Ha0|[-> _]]; [by eapply attempted_again|done].
      * subst w'. exists j1. split; [done|]. destruct Hcase as [?|[-> _]]; [by left|done].
    + subst j1. rewrite decide_False in Hp by done. subst w'. by exists j0.
  - exists j. split; [by rewrite Fj|].
    case_decide; [|done]. destruct Hcase as [Ha|[-> Hd]]; [left; by eapply attempted_frame|right].
    split; [done|]. intros [E|?]%elem_of_cons; [by apply uuid_String_inj in E|done].
Qed.

Lemma served_pop w0 D w s :
  served w0 D w → queued_ids_ok (w_db w) s → (∀ k, rd_zset s k = rd_zset (w_redis w) k) →
  served w0 D (with_redis s w).
Proof.
  intros ([Hd _] & Hz & Hn & Hs) Hq Ez.
  split_and!; [by split|intros k m; simpl; rewrite Ez; auto|done|].
  intros id j0 Hj0. destruct (Hs id j0 Hj0) as (j & Hj & Hcase). exists j. split; [done|].
  case_decide; [|done]. destruct Hcase as [Ha|?]; [left|by right].
  eapply attempted_frame; [|exact Ha]. intros k m. simpl. by rewrite Ez.
Qed.

(** A pass over empty queues changes nothing. *)
Lemma twp_consume_idle registry qs w :
  NoDup qs → backlog qs (w_redis w) = [] →
  twp reliable (consume_once registry qs) (λ go w', go = true ∧ w' = w) w.
Proof.
  intros Hnd Hb. unfold consume_once. apply twp_bind, twp_ctx; [apply _|]. cbn iota.
  pose proof (BRPOP_backlog qs (w_redis w) Hnd) as Hp. rewrite Hb in Hp.
  unfold Dequeue. apply twp_bind, twp_bind, twp_redis; [apply _|]. intros now.
  change ((λ q, keyPrefix +:+ q) <$> qs) with (queue_key <$> qs). rewrite Hp. cbn [fst snd twp].
  simpl. split; [done|]. by destruct w.
Qed.

Lemma twp_consume_once registry qs m l w0 D w :
  finishing registry → quiet_registry registry → NoDup qs → served w0 D w →
  backlog qs (w_redis w) = m :: l →
  twp reliable (consume_once registry qs)
    (λ go w', go = true ∧ served w0 (m :: D) w' ∧ backlog qs (w_redis w') = l) w.
Proof.
  intros Hf Hquiet Hnd Hs Hw. unfold consume_once. apply twp_bind, twp_ctx; [apply _|]. cbn iota.
  pose proof (BRPOP_backlog qs (w_redis w) Hnd) as Hpop. rewrite Hw in Hpop.
  destruct Hpop as (q & s & Hpop & _ & Hin & Hl & Hz).
  unfold Dequeue. apply twp_bind, twp_bind, twp_redis; [apply _|]. intros now.
  change ((λ q, keyPrefix +:+ q) <$> qs) with (queue_key <$> qs). rewrite Hpop. cbn [fst snd twp].
  pose proof Hs as [[Hd Hq] _].
  assert (served w0 D (with_redis s w)) as Hs'.
  { apply served_pop; [done| |done].
    pose proof (queued_BRPOP (w_db w) (w_redis w) (queue_key <$> qs) Hq) as Hb. by rewrite Hpop in Hb. }
  destruct (Hq q m) as (id & j & -> & Hj & _); [left; by apply elem_of_reverse|].
  apply twp_bind. eapply twp_mono.
  2: { apply (safe_twp reliable 0 Top) with (Q := λ _, Top) (o := λ _, None).
       - by apply safe_process.
       - apply Hs'.
       - done.
       - apply (twp_process registry id j); [done| |exact Hj|].
         + apply (inv_jobs_keyed _ Hd).
         + by apply (inv_budget _ Hd id). }
  intros r w' [Hp Hi']. cbn [twp]. split_and!; [done|by eapply served_step|].
  rewrite <- Hl. apply backlog_ext. intros q' _.
  destruct (decide (Job.Status j = StatusPending)); [by destruct Hp as [[Fl _] _]|by subst w'].
Qed.

(** As many passes as there are ids, or more, empty the queues. *)
Lemma twp_consume n registry qs w0 D w l :
  finishing registry → quiet_registry registry → NoDup qs → served w0 D w →
  backlog qs (w_redis w) = l → (length l ≤ n)%nat →
  twp reliable (consume n registry qs)
    (λ _ w', served w0 (reverse l ++ D) w' ∧ backlog qs (w_redis w') = []) w.
Proof.
  intros Hf Hquiet Hnd. unfold consume. revert D w l. induction n as [|n IH]; intros D w [|m l] Hs Hw Hn;
    cbn [length] in Hn; [done|lia|cbn [loop]; apply twp_bind..].
  - eapply twp_mono; [|by apply twp_consume_idle]. intros go w' [-> ->]. apply (IH D w []); [done..|].
    simpl. lia.
  - eapply twp_mono; [|by apply twp_consume_once]. intros go w' (-> & Hs' & Hw').
    rewrite reverse_cons, <- app_assoc. apply (IH (m :: D)); [done..|lia].
Qed.

(** The built-in handlers come to an end. *)
Lemma finishing_DefaultRegistry r :
  (∀ v, is_Some (pg_jsonb v)) → DefaultRegistry = Some r → finishing r.
Proof.
  intros Hjson Hr ty raw w. unfold Dispatch, Get.
  assert (∀ j, ∃ res, jsonb_param (RawJSON j) = inr res) as Hj.
  { intros j. simpl. destruct (Hjson j) as [j' ->]. by eexists. }
  destruct (handlers r !! ty) as [h|] eqn:Hh; [|done].
  destruct (decodePayload raw) as [err|o]; [done|].
  apply (DefaultRegistry_handlers r) in Hh; [|done]. apply twp_bind.
  destruct Hh as [[-> ->]|[[-> ->]|[[-> ->]|[-> ->]]]].
  - split; [done|apply Hj].
  - done.
  - unfold SendEmailHandler. case_decide; [done|]. intros e _. split; [done|apply Hj].
  - unfold ExportPDFHandler. apply twp_bind, twp_wait; [apply _|]. cbn iota. apply twp_bind.
    case_decide; [intros e _|]; (split; [done|apply Hj]).
Qed.
End Liveness.

Section Drain.
Context `{Postgres} `{UUIDLib} `{!UUIDLaws} `{GoText} `{Bcrypt} `{Router} {R : Type}
  `{Redis R} `{!RedisLaws R} {Sch : Type} `{Cron Sch}.

(** Queues are drained: from any reachable configuration, a worker that serves some queues
    and runs without failures, for at least as many passes as ids are waiting on them, comes to
    an end with their work lists empty; every pending job whose id was waiting has been attempted: it is
    completed, failed, or pending again with more attempts counted, short of its maximum, and
    its id parked for a retry; and no other job that was settled or in progress has changed. *)
Theorem worker_drains_its_queue (c : config (R := R)) registry qs passes (s : nat → reply) :
  reachable c → finishing registry → quiet_registry registry → NoDup qs → (∀ i, reliable (s i)) →
  let ids := backlog qs (w_redis (c_world c)) in
  (length ids ≤ passes)%nat →
  ∃ n w', exec (s <$> seq 0 n) (consume passes registry qs) (c_world c) = (Some (tt, []), w')
    ∧ backlog qs (w_redis w') = []
    ∧ ∀ id j, job_of c id = Some j → ∃ j', tbl_jobs (w_db w') !! id = Some j'
        ∧ (Job.Status j ≠ StatusPending → j' = j)
        ∧ (Job.Status j = StatusPending → uuid_String id ∈ ids → attempted w' j j').
Proof.
  intros [Hi _]%reachable_inv Hf Hq Hnd Hs ids Hn.
  destruct (twp_sound _ _ _ _ s Hs
              (twp_consume passes registry qs _ [] _ ids Hf Hq Hnd (served_refl _ Hi) eq_refl Hn))
    as (n & [] & w' & Hx & (_ & _ & _ & Hdone) & Hempty).
  exists n, w'. split_and!; [done..|]. intros id j Hj.
  destruct (Hdone id j Hj) as (j' & Hj' & Hcase). exists j'. split; [done|].
  case_decide as Hp; [|done]. split; [done|]. intros _ Hin.
  destruct Hcase as [?|[_ Hno]]; [done|]. destruct Hno. rewrite app_nil_r. by apply elem_of_reverse.
Qed.
End Drain.

(** ** Instances *)

Lemma worker_drains_its_queue_witness :
  ∃ n w' j j', exec ((λ i : nat, ok_at (Z.of_nat i) 0%N) <$> seq 0 n)
         (consume 2 demo_registry ["urgent"; "default"]%string) (c_world demo_queued)
       = (Some (tt, []), w')
    ∧ job_of demo_queued 7%N = Some j ∧ tbl_jobs (w_db w') !! 7%N = Some j' ∧ attempted w' j j'.
Proof.
  destruct (job_of demo_queued 7%N) as [j|] eqn:Hj; [|vm_compute in Hj; discriminate].
  assert (backlog ["urgent"; "default"]%string (w_redis (c_world demo_queued)) = [uuid_String 7%N])
    as Hb by (vm_compute; reflexivity).
  destruct (worker_drains_its_queue demo_queued demo_registry ["urgent"; "default"]%string 2
              (λ i : nat, ok_at (Z.of_nat i) 0%N)) as (n & w' & Hx & _ & Hdone).
  - exact demo_queued_reachable.
  - unfold demo_registry. destruct DefaultRegistry as [r|] eqn:E; [|vm_compute in E; discriminate].
    apply (finishing_DefaultRegistry r); [by eexists|done].
  - exact demo_registry_quiet.
  - apply (bool_decide_unpack _). vm_compute. exact I.
  - intros i. apply ok_at_reliable.
  - rewrite Hb. apply le_S, le_n.
  - destruct (Hdone 7%N j Hj) as (j' & Hj' & _ & Ha). exists n, w', j, j'. rewrite Hb in Ha.
    split_and!; [exact Hx|reflexivity|exact Hj'|]. apply Ha; [|by left].
    vm_compute in Hj. injection Hj as <-. reflexivity.
Defined.
