(* ===== verification/EndToEnd.v ===== *)
(** * A job from its submission to its result

    A client submits a job with an API key, a worker takes it off its queue and runs it, and
    the client looks it up: the whole path through the API, Postgres, Redis and the worker. *)
From S2P Require Import Prelude GoStd Models Interfaces Db Effects Samples Store Queue Enqueue.
From S2P Require Import Registry Worker Accounts Auth Http JobsApi AuthApi Lifecycle StoreFacts.
From S2P Require Import AccountsFacts AuthFacts JobStore QueueFacts EnqueueFacts JobsApiFacts.
From S2P Require Import WorkerFacts Liveness System Demo.
Open Scope Z_scope.

Section EndToEnd.
Context `{Postgres} `{UUIDLib} `{!UUIDLaws} `{GoText} {R : Type} `{Redis R} `{!RedisLaws R}.
Implicit Types (w : world R) (e : reply).

(** ** The client and the worker *)

(** [GET /api/v1/jobs/{id}] with the same credentials. *)
Definition get_request (authorization : string) (id : uuid) : Request := {|
  Method := "GET";
  Path := "/api/v1/jobs/" +:+ uuid_String id;
  Authorization := authorization;
  Cookie := λ _, None;
  URLParam := λ _, uuid_String id;
  Query := λ _, EmptyString;
  Body := None;
  Ctx := Background;
|}.

(** Submit, let a worker make one pass over the job's queue, and look the job up. *)
Definition submit_run_show (registry : Registry R) (post : Request)
    : prog R (Response * option Response) :=
  let! accepted := RequireAPIKey enqueueJob post in
  match RespBody_ accepted with
  | BJob j =>
      let! _ := consume 1 registry [Job.QueueName j] in
      let! shown := RequireAPIKey getJob (get_request (Authorization post) (Job.ID j)) in
      Ret (accepted, Some shown)
  | _ => Ret (accepted, None)
  end.

(** Replies without faults whose UUIDs are new. *)
Definition drawing_fresh w e : Prop :=
  reliable e ∧ tbl_jobs (w_db w) !! r_uuid e = None ∧ r_uuid e ≠ uuid_Nil.

#[local] Instance drawing_fresh_reliably w : Reliably (drawing_fresh w).
Proof. by intros e [? _]. Qed.

(** ** The steps *)

Section Steps.
Context (E : reply → Prop) `{!Reliably E}.

Lemma twp_RequireAPIKey next r key k Q w :
  accounts (w_db w) → bearerToken (Authorization r) = Some key →
  HasPrefix key APIKeyPrefix = true → stored_key (w_db w) (HashAPIKey key) k →
  (∀ now, twp E (next {| r with Ctx := WithTenant (Ctx r) (APIKey.TenantID k) |}) Q
            (with_db (touched now k (w_db w)) w)) →
  twp E (RequireAPIKey next r) Q w.
Proof.
  intros Ha Hb Hp Hk HQ. unfold RequireAPIKey. rewrite Hb, Hp. cbn [negb].
  unfold AuthenticateAPIKey. apply twp_bind, twp_bind, twp_sql; [done|]. intros now u.
  rewrite (auth_key_found _ _ _ _ k) by done. cbn [fst snd twp].
  unfold TouchAPIKey. apply twp_bind, twp_bind, twp_sql; [done|]. intros now' u'.
  rewrite touch_key_row by (done || apply Hk). cbn [fst snd twp]. apply HQ.
Qed.

Lemma twp_applyDefaults job Q w :
  Job.ID job = uuid_Nil → (∀ e, E e → Q (with_defaults (r_uuid e) job) w) →
  twp E (applyDefaults job) Q w.
Proof.
  intros Hid HQ. unfold applyDefaults. rewrite decide_True by done. apply twp_bind, twp_bind.
  intros e He. cbn [interp twp]. specialize (HQ e He). unfold with_defaults in HQ.
  destruct job as [id tid q ty p st res er rc mr sa sta ca cr up]; simpl in *.
  rewrite decide_True in HQ by done.
  destruct p; destruct (decide (q = EmptyString)); simpl in *;
    destruct (decide (st = EmptyString)); exact HQ.
Qed.

Lemma twp_Submit job pl Q w :
  Job.ID job = uuid_Nil → Job.TenantID job ≠ uuid_Nil →
  (∀ e, E e → insertable (with_defaults (r_uuid e) job) pl (w_db w)) →
  (∀ e now, E e →
     let j := with_defaults (r_uuid e) job in
     let row := inserted_row j pl now in
     Q (None, row)
       (with_redis (LPUSH (queue_key (Job.QueueName j)) (uuid_String (r_uuid e)) (w_redis w))
          (with_db (put_job (r_uuid e) row (w_db w)) w))) →
  twp E (Submit job) Q w.
Proof.
  intros Hid Ht Hins HQ. unfold Submit. apply twp_bind, twp_applyDefaults; [done|]. intros e He.
  specialize (Hins e He). specialize (HQ e). set (j := with_defaults (r_uuid e) job) in *.
  assert (Job.ID j = r_uuid e) as Hj by (unfold j, with_defaults; simpl; by rewrite decide_True).
  rewrite decide_False by done. unfold CreateJob. apply twp_bind, twp_sql; [done|]. intros now u.
  rewrite (insert_job_stmt_ok j pl _ _ _ Hins). cbn [fst snd]. apply twp_bind.
  unfold Queue.Enqueue. apply twp_bind, twp_redis; [done|]. intros now'. cbn [fst snd twp wrap_err].
  specialize (HQ now He). cbv zeta in HQ. rewrite <- Hj in HQ. exact HQ.
Qed.
(** One pass over a queue with one id, whose job's handler answers [raw]. *)
Lemma twp_consume_one registry q id j raw res w (Q : unit → world R → Prop) :
  keyed Job.ID (tbl_jobs (w_db w)) → tbl_jobs (w_db w) !! id = Some j →
  Job.Status j = StatusPending → waiting q (w_redis w) = [uuid_String id] →
  (∀ w', twp E (Dispatch registry (Job.JobType j) (Job.Payload j))
           (λ r w'', r = inr raw ∧ w'' = w') w') →
  jsonb_param raw = inr res →
  (∀ started ended s ms, waiting q s = [] →
     Q tt (mkWorld (put_job id (completed_row ended res (claimed_row started j)) (w_db w)) s ms)) →
  twp E (consume 1 registry [q]) Q w.
Proof.
  intros Hk Hj Hs Hw Hd Hres HQ. pose proof (Hk _ _ Hj) as Eid.
  unfold consume. cbn [loop]. apply twp_bind.
  unfold consume_once. apply twp_bind, twp_ctx; [done|]. cbn iota.
  destruct (BRPOP_one q (w_redis w) _ _ Hw) as (s & Hpop & Hl & _).
  unfold Dequeue. apply twp_bind, twp_bind, twp_redis; [done|]. intros now.
  fold (queue_key q). cbn [fmap list_fmap]. fold (queue_key q). rewrite Hpop. cbn [fst snd twp].
  apply twp_bind, (twp_process_claimed E registry id j); [done..|]. intros started.
  eapply twp_mono; [|apply Hd]. intros r w1 [-> ->] m. unfold MarkCompleted.
  apply twp_bind, twp_bind, twp_sql; [done|]. intros ended u.
  rewrite mark_completed_stmt_spec by (by apply keyed_insert). rewrite Hres. simpl.
  rewrite lookup_insert_eq. cbn [fst snd err_of twp]. intros e He. cbn [interp twp].
  unfold put_job. simpl. rewrite insert_insert_eq. by apply HQ.
Qed.
End Steps.

(** ** The whole path *)

Section Path.
Context (registry : Registry R) (post : Request) (key : string) (k : APIKey).
Context (req : enqueueRequest) (pl raw res : RawMessage) (w : world R).
Let q := if decide (eqQueueName req = EmptyString) then "default"%string else eqQueueName req.

Hypothesis Hdb : db_inv (w_db w).
Hypothesis Hbearer : bearerToken (Authorization post) = Some key.
Hypothesis Hprefix : HasPrefix key APIKeyPrefix = true.
Hypothesis Hkey : stored_key (w_db w) (HashAPIKey key) k.
Hypothesis Htenant : APIKey.TenantID k ≠ uuid_Nil.
Hypothesis Hbody : decode_enqueueRequest (Body post) = inr req.
Hypothesis Htype : eqJobType req ≠ EmptyString.
Hypothesis Hmax : in_int32 (default DefaultMaxRetries (eqMaxRetries req)) = true.
Hypothesis Hpayload :
  jsonb_param (match eqPayload req with RawNil => RawJSON (JObj []) | p => p end) = inr pl.
Hypothesis Hpl : pl ≠ RawNil.
Hypothesis Hempty : waiting q (w_redis w) = [].
(** The handler's answer, and Postgres can store it. *)
Hypothesis Hhandler : ∀ w', twp (drawing_fresh w) (Dispatch registry (eqJobType req) pl)
                              (λ r w'', r = inr raw ∧ w'' = w') w'.
Hypothesis Hres : jsonb_param raw = inr res.

Lemma accepted_insertable now e :
  drawing_fresh w e →
  insertable (with_defaults (r_uuid e) (requested_job (APIKey.TenantID k) req)) pl
    (touched now k (w_db w)).
Proof.
  intros (_ & Hnone & _). pose proof (inv_accounts _ Hdb) as Ha.
  split_and!; [done|exact Hpayload|done| |].
  - exact Hnone.
  - destruct Hkey as [Hk _]. exact (acc_key_tenant _ _ _ _ Ha _ _ Hk).
Qed.

Definition shown_as (accepted : Response) (shown : option Response) (w' : world R) : Prop :=
  ∃ j0 j, accepted = writeJSON StatusAccepted (BJob j0) ∧ shown = Some (writeJSON StatusOK (BJob j))
    ∧ Job.Status j0 = StatusPending ∧ same_identity j0 j
    ∧ Job.TenantID j = APIKey.TenantID k ∧ Job.JobType j = eqJobType req ∧ Job.Payload j = pl
    ∧ Job.QueueName j = q ∧ Job.Status j = StatusCompleted ∧ Job.Result j = res
    ∧ Job.RetryCount j = 0
    ∧ tbl_jobs (w_db w') !! Job.ID j = Some j ∧ waiting q (w_redis w') = [].

Lemma twp_submit_run_show :
  twp (drawing_fresh w) (submit_run_show registry post) (λ rs w', shown_as rs.1 rs.2 w') w.
Proof using All.
  unfold submit_run_show. pose proof (inv_accounts _ Hdb) as Ha.
  apply twp_bind, (twp_RequireAPIKey _ _ _ key k); [done..|]. intros t1.
  unfold enqueueJob. rewrite (tenantID_some _ (APIKey.TenantID k)) by done.
  cbn [Body]. rewrite Hbody, decide_False by done.
  apply twp_bind, (twp_Submit _ _ pl); [done|done|apply accepted_insertable|].
  intros e t2 He j row. cbn [twp fst snd RespBody_ writeJSON].
  assert (Job.QueueName row = q) as -> by done.
  assert (Job.ID row = r_uuid e) as Hid by done.
  assert (accounts (touched t1 k (w_db w))) as Ha1 by (apply accounts_touched; [done|apply Hkey]).
  set (w1 := with_redis _ _).
  apply twp_bind.
  apply (twp_consume_one _ _ _ (r_uuid e) row raw res); [| | | | |done|].
  - apply keyed_insert; [apply (inv_jobs_keyed _ Hdb)|done].
  - apply lookup_insert_eq.
  - done.
  - unfold w1. cbn [w_redis with_redis with_db].
    change (Job.QueueName j) with q. rewrite waiting_LPUSH, decide_True by done.
    by rewrite Hempty.
  - exact Hhandler.
  - intros t3 t4 s ms Hs. cbn [w_db w_redis].
    apply twp_bind, (twp_RequireAPIKey _ _ _ key {| k with APIKey.LastUsedAt := Some t1 |});
      [done..| |].
    + split; [apply lookup_insert_eq|apply Hkey].
    + intros t5. unfold getJob. rewrite (tenantID_some _ (APIKey.TenantID k)) by done.
      rewrite (url_job_id_some _ (r_uuid e)) by (apply uuid_Parse_String).
      unfold GetJob. apply twp_bind, twp_bind, twp_sql; [apply _|]. intros now u.
      rewrite get_job_stmt_spec
        by (do 2 (apply keyed_insert; [|done]); apply (inv_jobs_keyed _ Hdb)).
      unfold visible. cbn [tbl_jobs w_db with_db touched put_job].
      rewrite lookup_insert_eq, decide_True by done. cbn [fst snd twp].
      exists row, (completed_row t4 res (claimed_row t3 row)).
      split_and!; try done. apply lookup_insert_eq.
Qed.

(** C14. From submission to result: a job submitted with a stored key on an idle queue is
    accepted as pending; one pass of a worker runs its handler and completes it; and the same
    key then sees it completed, with the handler's result, the submitted type and payload, and
    no failed attempt, as the row in Postgres says. All of it ends when requests do not fail. *)
Theorem submitted_job_runs_and_is_shown (s : nat → reply) :
  (∀ i, drawing_fresh w (s i)) →
  ∃ n accepted shown w',
    exec (s <$> seq 0 n) (submit_run_show registry post) w = (Some ((accepted, shown), []), w')
    ∧ shown_as accepted shown w'.
Proof using All.
  intros Hs. destruct (twp_sound _ _ _ w s Hs twp_submit_run_show) as (n & [a b] & w' & Hx & Ha).
  exists n, a, b, w'. by split.
Qed.
End Path.
End EndToEnd.

(** ** Instance: the demo tenant submits an echo job *)

Lemma submitted_job_runs_and_is_shown_witness :
  ∃ n accepted j w',
    exec ((λ i : nat, ok_at (Z.of_nat i) 7%N) <$> seq 0 n)
      (submit_run_show demo_registry (demo_request "echo" "3")) demo_world
    = (Some ((accepted, Some (writeJSON StatusOK (BJob j))), []), w')
    ∧ Job.Status j = StatusCompleted.
Proof.
  destruct (submitted_job_runs_and_is_shown demo_registry (demo_request "echo" "3") demo_key
    demo_key_row (mkEnqueueRequest EmptyString "echo" (RawJSON (JObj [("n"%string, JNum "1")])) (Some 3))
    (RawJSON (JObj [("n"%string, JNum "1")])) (RawJSON (JObj [("n"%string, JNum "1")]))
    (RawJSON (JObj [("n"%string, JNum "1")])) demo_world) with (s := λ i : nat, ok_at (Z.of_nat i) 7%N)
    as (n & accepted & shown & w' & Hx & j0 & j & _ & -> & _ & _ & _ & _ & _ & _ & Hj & _).
  - destruct (reachable_inv demo_start (reach_init _ demo_start_initial)) as [[Hd _] _]. exact Hd.
  - vm_compute. reflexivity.
  - vm_compute. reflexivity.
  - exact demo_key_stored.
  - discriminate.
  - vm_compute. reflexivity.
  - discriminate.
  - reflexivity.
  - vm_compute. reflexivity.
  - discriminate.
  - vm_compute. reflexivity.
  - intros w'. vm_compute. by split.
  - vm_compute. reflexivity.
  - intros i. split; [apply ok_at_reliable|]. split; [reflexivity|discriminate].
  - exists n, accepted, j, w'. by split.
Defined.
