(* ===== verification/Retries.v ===== *)
(** * A job that keeps failing comes to an end

    One round of a queue: a pass of the consume loop, and later a tick of the poller. *)
From S2P Require Import Prelude GoStd Models Interfaces Db Effects Samples Store Queue Registry.
From S2P Require Import Worker Lifecycle StoreFacts QueueFacts WorkerFacts Rely Safety Liveness.
From S2P Require Import System Demo.
Open Scope Z_scope.

Section Retries.
Context `{Postgres} `{UUIDLib} `{!UUIDLaws} `{GoText} {R : Type} `{Redis R} `{!RedisLaws R}.
Implicit Types (w : world R) (e : reply).
Context (registry : Registry R) (j : Job).
Abbreviation q := (Job.QueueName j).
Abbreviation m := (uuid_String (Job.ID j)).

(** The job's handler always ends with an error. *)
Definition never_succeeds : Prop := ∀ w,
  twp reliable (Dispatch registry (Job.JobType j) (Job.Payload j))
    (λ res w', w' = w ∧ ∃ err, res = inl err) w.

(** The times the clock shows; scores are exact there. *)
Definition in_epoch e : Prop := 0 ≤ r_now e ≤ 2 ^ 52 * Second.

(** Requests succeed, and the poller comes at least the longest backoff later. *)
Definition retry_round w w' : Prop := ∃ es1 es2 w1,
  Forall reliable es1 ∧ Forall reliable es2 ∧ Forall in_epoch es1 ∧ Forall in_epoch es2
  ∧ (∀ e1 e2, e1 ∈ es1 → e2 ∈ es2 → r_now e1 + maxBackoff ≤ r_now e2)
  ∧ exec es1 (consume_once registry [q]) w = (Some (true, []), w1)
  ∧ exec es2 (poll_once [q]) w1 = (Some (true, []), w').

(** Pending after [k] failed attempts, its id the only one waiting, nothing parked. *)
Definition waiting_after (k : Z) w : Prop :=
  keyed Job.ID (tbl_jobs (w_db w))
  ∧ waiting q (w_redis w) = [m] ∧ rd_zset (w_redis w) (delayed_key q) = ∅
  ∧ ∃ r, tbl_jobs (w_db w) !! Job.ID j = Some r ∧ same_identity j r
       ∧ Job.Status r = StatusPending ∧ Job.RetryCount r = k.

(** Failed with [k] attempts, dead-lettered, and nowhere in Redis. *)
Definition given_up_after (k : Z) w : Prop :=
  waiting q (w_redis w) = [] ∧ rd_zset (w_redis w) (delayed_key q) = ∅
  ∧ ∃ r row, tbl_jobs (w_db w) !! Job.ID j = Some r ∧ same_identity j r
       ∧ Job.Status r = StatusFailed ∧ Job.RetryCount r = k
       ∧ tbl_dead_letter_queue (w_db w) !! Job.ID j = Some row ∧ DLQRow.Attempts row = k.

(** ** The two halves of a round *)

(** After the consumer: parked until a time in [times] at the latest, or given up. *)
Definition parked_after (k : Z) (times : Z → Prop) w : Prop :=
  keyed Job.ID (tbl_jobs (w_db w))
  ∧ waiting q (w_redis w) = []
  ∧ (∃ sc t, rd_zset (w_redis w) (delayed_key q) = {[m := sc]} ∧ times t ∧ sc ≤ Unix t)
  ∧ ∃ r, tbl_jobs (w_db w) !! Job.ID j = Some r ∧ same_identity j r
       ∧ Job.Status r = StatusPending ∧ Job.RetryCount r = k.

Definition half_round (k : Z) (times : Z → Prop) w : Prop :=
  if decide (Job.MaxRetries j ≤ k) then given_up_after k w else parked_after k times w.

Lemma Unix_epoch t : 0 ≤ t ≤ 2 ^ 52 * Second + maxBackoff → float64_of_int (Unix t) = Unix t.
Proof.
  intros Ht. apply float64_of_int_exact. unfold Unix.
  assert (0 ≤ t / Second) by (apply Z.div_pos; [lia|done]).
  assert (t / Second ≤ (2 ^ 52 * Second + maxBackoff) / Second) as Hle.
  { apply Z.div_le_mono; [done|lia]. }
  change ((2 ^ 52 * Second + maxBackoff) / Second) with (2 ^ 52 + 3600) in Hle. lia.
Qed.

Lemma score_bound e n :
  in_epoch e →
  float64_of_int (Unix (r_now e + Z.min (2 ^ n * Second) maxBackoff)) ≤ Unix (r_now e + maxBackoff).
Proof.
  intros [H0' H1'].
  assert (0 ≤ Z.min (2 ^ n * Second) maxBackoff ≤ maxBackoff) as Hb.
  { assert (0 ≤ 2 ^ n * Second) by (apply Z.mul_nonneg_nonneg; [by apply Z.pow_nonneg|done]).
    assert (0 ≤ maxBackoff) by done. lia. }
  rewrite Unix_epoch by lia. unfold Unix. apply Z.div_le_mono; [unfold Second; lia|]. lia.
Qed.

Lemma twp_failing_consume E `{!Reliably E} k (times : Z → Prop) w :
  never_succeeds → waiting_after k w → 0 ≤ k < 2 ^ 31 - 1 →
  (∀ e, E e → in_epoch e ∧ times (r_now e + maxBackoff)) →
  twp E (consume_once registry [q]) (λ go w', go = true ∧ half_round (k + 1) times w') w.
Proof.
  intros Hnever (Hk & Hw & Hz & r & Hr & Hid & Hs & Hc) Hk0 HE.
  pose proof Hid as (EID & ETen & EQ & ETy & EPl & EM & ECr).
  unfold consume_once. apply twp_bind, twp_ctx; [done|]. cbn iota.
  destruct (BRPOP_one q (w_redis w) m [] Hw) as (s & Hpop & Hs0 & Hlk & Hzs).
  unfold Dequeue. apply twp_bind, twp_bind, twp_redis; [done|]. intros now.
  cbn [fmap list_fmap]. fold (queue_key q). rewrite Hpop. cbn [fst snd twp]. apply twp_bind.
  apply (twp_process_claimed E registry (Job.ID j) r); [exact Hk|exact Hr|exact Hs|].
  intros now1. rewrite ETy, EPl.
  eapply twp_mono; [|apply (twp_weaken reliable); [by intros e He; apply reliably|apply Hnever]].
  intros res w1 [-> [err ->]] mt. set (w1 := with_metric mt _).
  assert (keyed Job.ID (tbl_jobs (w_db w1))) as Hk1.
  { apply keyed_insert; [exact Hk|]. done. }
  assert (Job.ID (claimed_row now1 r) = Job.ID j) as EID1 by done.
  assert (tbl_jobs (w_db w1) !! Job.ID j = Some (claimed_row now1 r)) as Hr1 by apply lookup_insert_eq.
  assert (w_redis w1 = s) as Es by done. clearbody w1.
  eapply twp_mono;
    [|apply (twp_handleFailure E (claimed_row now1 r)); [exact Hk1|by rewrite EID1|simpl; lia]].
  intros o w' [_ Hf]. cbn [twp]. split; [done|]. unfold failed_attempt, half_round in *.
  change (Job.MaxRetries (claimed_row now1 r)) with (Job.MaxRetries r) in Hf.
  change (Job.RetryCount (claimed_row now1 r)) with (Job.RetryCount r) in Hf.
  rewrite EM, Hc in Hf.
  case_decide as Hm.
  - destruct Hf as [Er [now2 Ed]]. split_and!; [by rewrite Er, Es|by rewrite Er, Es, Hzs|].
    eexists _, _. rewrite Ed. split; [simpl; rewrite EID; apply lookup_insert_eq|].
    split; [exact Hid|]. split; [done|]. split; [done|]. simpl. rewrite EID.
    split; [apply lookup_insert_eq|]. unfold dlq_row. by destruct (tbl_dead_letter_queue (w_db w1) !! Job.ID j).
  - destruct Hf as (now2 & e & He & Ed & Er). destruct (HE e He) as [He0 Hlim].
    split_and!.
    + rewrite Ed. apply keyed_insert; [exact Hk1|done].
    + unfold waiting in *. by rewrite Er, list_ZADD, Es.
    + eexists _, _. rewrite Er, zset_ZADD.
      change (Job.QueueName (claimed_row now1 r)) with (Job.QueueName r). rewrite EID1.
      rewrite EQ, decide_True, Es, Hzs, Hz by done. split; [apply insert_empty|].
      split; [exact Hlim|by apply score_bound].
    + eexists. rewrite Ed. simpl. rewrite EID. split; [apply lookup_insert_eq|].
      by split; [exact Hid|].
Qed.

Lemma twp_promote_parked E `{!Reliably E} k (times : Z → Prop) w :
  half_round k times w → (∀ e, E e → in_epoch e ∧ ∀ t, times t → t ≤ r_now e) →
  twp E (poll_once [q])
    (λ go w', go = true
       ∧ if decide (Job.MaxRetries j ≤ k) then given_up_after k w' else waiting_after k w') w.
Proof.
  intros Hh HE. unfold poll_once. apply twp_bind, twp_wait; [done|]. cbn iota.
  apply twp_bind, twp_now. intros e He. destruct (HE e He) as [[He0 He1] Hlim].
  cbn [poll_queues]. unfold PromoteDue. apply twp_bind, twp_bind, twp_redis; [done|]. intros now.
  cbn [fst snd twp]. split; [done|]. unfold promoteScript.
  fold (delayed_key q) (queue_key q). rewrite Unix_epoch by (unfold maxBackoff, Hour, Minute, Second in *; lia).
  destruct (ZRANGEBYSCORE_spec (delayed_key q) (Unix (r_now e)) promoteBatch (w_redis w))
    as (l & Hperm & _ & ->).
  unfold half_round in Hh. case_decide as Hm.
  - destruct Hh as (Hw & Hz & Hrow). rewrite Hz in Hperm. apply Permutation_nil_r in Hperm as ->.
    by split_and!.
  - destruct Hh as (Hk & Hw & (sc & t & Hz & Ht & Hsc) & Hrow).
    assert (sc ≤ Unix (r_now e)) as Hdue.
    { etrans; [exact Hsc|]. unfold Unix. apply Z.div_le_mono; [done|by apply Hlim]. }
    assert (due_entries (rd_zset (w_redis w) (delayed_key q)) (Unix (r_now e)) = [(m, sc)]) as E1.
    { unfold due_entries. rewrite Hz, map_to_list_singleton. by rewrite filter_cons_True. }
    rewrite E1 in Hperm. apply Permutation_singleton_r in Hperm as ->. cbn [limit_take].
    change (limit_take promoteBatch [(m, sc)]) with [(m, sc)]. cbn [fmap list_fmap foldl fst].
    split; [done|]. simpl. split_and!; [| |done].
    + unfold waiting in *. rewrite list_ZREM, list_LPUSH, decide_True by done.
      by rewrite reverse_cons, Hw.
    + rewrite zset_ZREM, zset_LPUSH, decide_True, Hz by done. apply delete_singleton_eq.
Qed.

(** ** Rounds *)

Lemma retry_round_step k w w' :
  never_succeeds → waiting_after k w → 0 ≤ k < 2 ^ 31 - 1 → retry_round w w' →
  if decide (Job.MaxRetries j ≤ k + 1) then given_up_after (k + 1) w' else waiting_after (k + 1) w'.
Proof.
  intros Hn Hw Hk (es1 & es2 & w1 & R1 & R2 & T1 & T2 & Hle & Hx1 & Hx2).
  rewrite !Forall_forall in *.
  set (times := λ t, ∃ e, e ∈ es1 ∧ t = r_now e + maxBackoff).
  assert (Reliably (λ e, e ∈ es1)) by (intros e He; auto).
  assert (Reliably (λ e, e ∈ es2)) by (intros e He; auto).
  eapply twp_exec in Hx1;
    [|apply (twp_failing_consume (λ e, e ∈ es1) k times w Hn Hw Hk)|by apply Forall_forall].
  2: { intros e He. split; [auto|by exists e]. }
  destruct Hx1 as [_ Hhalf].
  eapply twp_exec in Hx2;
    [|apply (twp_promote_parked (λ e, e ∈ es2) (k + 1) times w1 Hhalf)|by apply Forall_forall].
  2: { intros e He. split; [auto|]. intros t (e1 & ? & ->). auto. }
  apply Hx2.
Qed.

(** At any time of the epoch a round can happen. *)
Lemma retry_round_exists k w t :
  never_succeeds → waiting_after k w → 0 ≤ k < 2 ^ 31 - 1 →
  0 ≤ t → t + maxBackoff ≤ 2 ^ 52 * Second → ∃ w', retry_round w w'.
Proof.
  intros Hn Hw Hk Ht0 Ht. assert (0 ≤ maxBackoff) by done.
  set (e1 := ok_at t uuid_Nil). set (e2 := ok_at (t + maxBackoff) uuid_Nil).
  assert (Reliably (λ e, e = e1)) by (intros e ->; done).
  assert (Reliably (λ e, e = e2)) by (intros e ->; done).
  set (times := λ x, x = t + maxBackoff).
  assert (∀ e, e = e1 → in_epoch e ∧ times (r_now e + maxBackoff)) as HE1.
  { intros e ->. split; [|done]. unfold in_epoch. simpl. lia. }
  assert (∀ e, e = e2 → in_epoch e ∧ ∀ x, times x → x ≤ r_now e) as HE2.
  { intros e ->. split; [|by intros x ->]. unfold in_epoch. simpl. lia. }
  destruct (twp_sound (λ e, e = e1) _ _ _ (λ _, e1) (λ _, eq_refl)
              (twp_failing_consume _ k times w Hn Hw Hk HE1)) as (n1 & go1 & w1 & Hx1 & -> & Hhalf).
  destruct (twp_sound (λ e, e = e2) _ _ _ (λ _, e2) (λ _, eq_refl)
              (twp_promote_parked _ (k + 1) times w1 Hhalf HE2)) as (n2 & go2 & w2 & Hx2 & -> & _).
  assert (∀ (e : reply) n x, x ∈ (λ _ : nat, e) <$> seq 0 n → x = e) as Hin.
  { intros e n x (? & -> & _)%list_elem_of_fmap. done. }
  exists w2, ((λ _, e1) <$> seq 0 n1), ((λ _, e2) <$> seq 0 n2), w1.
  rewrite !Forall_forall. split_and!; try done.
  - by intros e ->%Hin.
  - by intros e ->%Hin.
  - intros e ->%Hin. unfold in_epoch. simpl. lia.
  - intros e ->%Hin. unfold in_epoch. simpl. lia.
  - intros x y ->%Hin ->%Hin. done.
Qed.

(** C19. Retries end: a job whose handler always fails, alone on its queue, waiting with [k]
    attempts behind it, is given up after exactly [max 1 max_retries - k] rounds: it is then
    failed with that many attempts in all, dead-lettered, and gone from Redis; after fewer
    rounds it is pending and waiting again. Such rounds can always take place. *)
Theorem retries_end_in_the_dead_letter_queue k w (n : nat) :
  never_succeeds → waiting_after k w → 0 ≤ k < Z.max 1 (Job.MaxRetries j) →
  Job.MaxRetries j < 2 ^ 31 → Z.of_nat n = Z.max 1 (Job.MaxRetries j) - k →
  (∃ w', nsteps retry_round n w w')
  ∧ (∀ w', nsteps retry_round n w w' → given_up_after (Z.max 1 (Job.MaxRetries j)) w')
  ∧ ∀ i w', (i < n)%nat → nsteps retry_round i w w' → waiting_after (k + Z.of_nat i) w'.
Proof.
  intros Hn Hw Hk Hm Hlen.
  assert (∀ i w', (i < n)%nat → nsteps retry_round i w w' → waiting_after (k + Z.of_nat i) w') as Hwait.
  { intros i. induction i as [|i IH]; intros w' Hi Hsteps.
    - inversion Hsteps; subst. by rewrite Z.add_0_r.
    - apply nsteps_inv_r in Hsteps as (w1 & Hs1 & Hround).
      apply (retry_round_step _ _ _ Hn (IH w1 ltac:(lia) Hs1)) in Hround; [|lia].
      rewrite decide_False in Hround by lia.
      by replace (k + Z.of_nat (S i)) with (k + Z.of_nat i + 1) by lia. }
  destruct n as [|n]; [lia|]. split_and!; [| |exact Hwait].
  - assert (∀ i, (i ≤ S n)%nat → ∃ w', nsteps retry_round i w w') as Hex; [|by apply Hex].
    intros i. induction i as [|i IH]; intros Hi; [exists w; constructor|].
    destruct (IH ltac:(lia)) as [w1 Hs1].
    destruct (retry_round_exists (k + Z.of_nat i) w1 0) as [w2 Hround];
      [done|by apply Hwait|lia|done|done|].
    exists w2. by eapply nsteps_r.
  - intros w' (w1 & Hs1 & Hround)%nsteps_inv_r.
    apply (retry_round_step _ _ _ Hn (Hwait n w1 ltac:(lia) Hs1)) in Hround; [|lia].
    rewrite decide_True in Hround by lia.
    by replace (Z.max 1 (Job.MaxRetries j)) with (k + Z.of_nat n + 1) by lia.
Qed.
End Retries.

(** ** Instances *)

(** A job of type [always_fail] with two attempts, waiting on the default queue. *)
Definition doomed_job : Job :=
  let s := sample_job StatusPending 0 2 in {| s with Job.JobType := "always_fail"%string |}.

Definition doomed_world : world RefRedis.store :=
  mkWorld (sample_db doomed_job) (LPUSH (queue_key "default") (uuid_String 7%N) RefRedis.empty) [].

Lemma doomed_never_succeeds : never_succeeds demo_registry doomed_job.
Proof.
  intros w.
  assert (∃ err, Dispatch demo_registry (Job.JobType doomed_job) (Job.Payload doomed_job)
                 = Ret (inl err)) as [err ->] by (eexists; vm_compute; reflexivity).
  split; [done|by exists err].
Qed.

Lemma retries_end_in_the_dead_letter_queue_witness :
  ∃ w', nsteps (retry_round demo_registry doomed_job) 2 doomed_world w'
      ∧ given_up_after doomed_job 2 w'.
Proof.
  destruct (retries_end_in_the_dead_letter_queue demo_registry doomed_job 0 doomed_world 2)
    as ([w' Hex] & Hend & _).
  - exact doomed_never_succeeds.
  - split_and!; [apply sample_keyed|vm_compute; reflexivity|vm_compute; reflexivity|].
    exists doomed_job. split_and!; [apply (sample_lookup doomed_job)|by split_and!|done|done].
  - vm_compute. split; [discriminate|reflexivity].
  - reflexivity.
  - reflexivity.
  - exists w'. split; [exact Hex|]. exact (Hend w' Hex).
Defined.
