(* ===== verification/Stranded.v ===== *)
(** * A pending job whose id is on no queue is never run

    Between the INSERT and the push of its id, between the pop of its id and the claim, or when
    Redis loses it, a job can be pending while no queue holds its id. Whatever processes are
    started afterwards, none of them runs it. *)
From S2P Require Import Prelude GoStd Models Interfaces Db Effects Store Queue Schedules.
From S2P Require Import Enqueue Registry Worker Scheduler Http JobsApi AuthApi KeysApi AdminApi.
From S2P Require Import ApiMetrics Routes Accounts Auth Stats Lifecycle StoreFacts AccountsFacts.
From S2P Require Import QueueFacts Rely Safety System Samples Demo.
Open Scope Z_scope.

Section Stranded.
Context `{Postgres} `{UUIDLib} `{!UUIDLaws} `{GoText} `{Bcrypt} `{Router} {R : Type}.
Context `{Redis R} `{!RedisLaws R} {Sch : Type} `{Cron Sch}.
Implicit Types (w : world R) (e : reply) (s : R).

(** The job, as it was found: its id and its row. *)
Context (id : uuid) (j : Job).
Hypothesis Hid : Job.ID j = id.
Hypothesis Hpending : Job.Status j = StatusPending.

(** The row is as it was, or cancelled; and no queue holds the id. *)
Definition untouched (d : DB) : Prop :=
  ∃ j', tbl_jobs d !! id = Some j' ∧ (j' = j ∨ Job.Status j' = StatusCancelled).
Definition unqueued (s : R) : Prop := ∀ q,
  (uuid_String id ∉ rd_list s (queue_key q)) ∧ (rd_zset s (delayed_key q) !! uuid_String id) = None.
Definition strand w : Prop := untouched (w_db w) ∧ unqueued (w_redis w).

(** ** Programs that leave it stranded, whatever the other processes do between two requests *)
Fixpoint upholds {A} (Post : A → Prop) (p : prog R A) : Prop :=
  match p with
  | Ret a => Post a
  | Panic _ => True
  | Call o k => ∀ e w, inv w → strand w →
      let '(x, w') := interp o e w in strand w' ∧ upholds Post (k x)
  end.

Definition any {A} (_ : A) : Prop := True.

Lemma upholds_mono {A} (Post Post' : A → Prop) (p : prog R A) :
  (∀ a, Post a → Post' a) → upholds Post p → upholds Post' p.
Proof.
  intros HP. induction p as [a|msg|X o k IH]; simpl; [auto|done|].
  intros Hp e w Hi Hs. specialize (Hp e w Hi Hs). destruct (interp o e w). naive_solver.
Qed.

Lemma upholds_bind {A B} (Post : A → Prop) (Post' : B → Prop) (p : prog R A) f :
  upholds Post p → (∀ a, Post a → upholds Post' (f a)) → upholds Post' (bind p f).
Proof.
  intros Hp Hf. induction p as [a|msg|X o k IH]; simpl in *; [auto|done|].
  intros e w Hi Hs. specialize (Hp e w Hi Hs). destruct (interp o e w). naive_solver.
Qed.

Lemma upholds_then {A B} (Post' : B → Prop) (p : prog R A) f :
  upholds any p → (∀ a, upholds Post' (f a)) → upholds Post' (bind p f).
Proof. intros Hp Hf. eapply upholds_bind; [exact Hp|auto]. Qed.

Lemma upholds_any {A} (Post : A → Prop) (p : prog R A) : upholds Post p → upholds any p.
Proof. by apply upholds_mono. Qed.

Lemma upholds_quiet {A} (p : prog R A) : quiet p → upholds any p.
Proof.
  induction p as [a|msg|X o k IH]; simpl; [done|done|]. intros [Hw Hk] e w _ Hs.
  specialize (Hw e w). destruct (interp o e w) as [x w']. simpl in Hw. subst. auto.
Qed.

Lemma upholds_metric m : upholds any (request (OMetric m)).
Proof. by intros e w _ Hs. Qed.

(** *** Statements and transactions *)

Lemma upholds_sql {X} (q : sql X) (Post : result X → Prop) :
  (∀ err, Post (inl err)) →
  (∀ now u w, inv w → strand w → untouched (q now u (w_db w)).2 ∧ Post (q now u (w_db w)).1) →
  upholds Post (exec_sql q).
Proof.
  intros Herr Hq e w Hi [Hd Hs].
  destruct (Hq (r_now e) (r_uuid e) w Hi (conj Hd Hs)) as [Hu Hp].
  simpl. destruct (q _ _ _) as [x d']. destruct (r_fault e); simpl in *; (split; [by split|auto]).
Qed.

Lemma upholds_same_jobs {X} (q : sql X) :
  (∀ now u d, tbl_jobs (q now u d).2 = tbl_jobs d) → upholds any (exec_sql q).
Proof.
  intros Hq. apply upholds_sql; [done|]. intros now u w _ [(j' & Hj & Hc) _].
  split; [|done]. exists j'. by rewrite Hq.
Qed.

Lemma upholds_read {X} (q : sql X) :
  (∀ now u d, (q now u d).2 = d) → upholds any (exec_sql q).
Proof. intros Hq. apply upholds_same_jobs. intros. by rewrite Hq. Qed.

Lemma upholds_account {X} (q : sql X) :
  (∀ now u d, account_step d (q now u d).2) → upholds any (exec_sql q).
Proof. intros Hq. apply upholds_same_jobs. intros. apply Hq. Qed.

Lemma upholds_tx {X} (b : tx X) (Post : result X → Prop) :
  (∀ fs now us w, inv w → strand w →
     untouched (run_tx b fs now us (w_db w)).2 ∧ Post (run_tx b fs now us (w_db w)).1) →
  upholds Post (exec_tx b).
Proof.
  intros Hb e w Hi [Hd Hs].
  destruct (Hb (r_faults e) (r_now e) (r_uuids e) w Hi (conj Hd Hs)) as [Hu Hp].
  simpl. destruct (run_tx _ _ _ _ _) as [x d']. (split; [by split|auto]).
Qed.

(** A change of the rows of other jobs. *)
Definition leaves (d d' : DB) : Prop :=
  ∀ j', tbl_jobs d !! id = Some j' → Job.ID j' = id → tbl_jobs d' !! id = Some j'.

#[local] Instance leaves_preorder : PreOrder leaves.
Proof. split; [by intros d j'|]. intros d1 d2 d3 Ha Hb j' Hj Hk. apply Hb; [by apply Ha|done]. Qed.

Lemma leaves_untouched w d' : inv w → strand w → leaves (w_db w) d' → untouched d'.
Proof.
  intros [Hd _] [(j' & Hj & Hc) _] Hl. exists j'. split; [|done]. apply Hl; [done|].
  by eapply inv_jobs_keyed.
Qed.

Lemma leaves_update id' cond set now d :
  id' ≠ id → (∀ r, cond r = true → Job.ID r = id') → leaves d (update_jobs cond set now d).2.
Proof.
  intros Hne Hc j' Hj Ek. unfold update_jobs. simpl. rewrite lookup_update_where, Hj. simpl.
  destruct (cond j') eqn:E; [|done]. specialize (Hc j' E). congruence.
Qed.


(** *** The statements on [jobs] *)

(** What is known of a result that is not an error. *)
Definition on_row (P : Job → Prop) (r : result Job) : Prop :=
  match r with inl _ => True | inr x => P x end.

Definition other (r : Job) : Prop := Job.ID r ≠ id.

Lemma upholds_CreateJob job : upholds (on_row other) (CreateJob job).
Proof.
  apply upholds_sql; [done|]. intros now u w Hi Hs. pose proof Hs as [(j' & Hj & Hc) _].
  unfold insert_job_stmt.
  destruct (in_int32 _); cbn [negb]; [|by split; [by exists j'|]].
  destruct (jsonb_param _) as [err|pl]; [by split; [by exists j'|]|].
  destruct (tbl_jobs (w_db w) !! Job.ID job) as [j1|] eqn:E1;
    [destruct pl; by split; [by exists j'|]|].
  assert (Job.ID job ≠ id) as Hne by congruence.
  destruct (tbl_tenants _ !! _) as [tn|]; [|destruct pl; by split; [by exists j'|]].
  destruct pl; simpl; (split; [|done]); exists j'; simpl; by rewrite ?lookup_insert_ne.
Qed.

Lemma upholds_ClaimJob id' :
  id' ≠ id → upholds (on_row (λ r, Job.ID r = id')) (ClaimJob id').
Proof.
  intros Hne. eapply upholds_bind with (Post := on_row (λ r, Job.ID r = id')).
  2: { intros [err|r]; simpl; [by destruct (errors_Is _ _)|done]. }
  apply upholds_sql; [done|]. intros now u w Hi Hs. split.
  - eapply leaves_untouched; [done..|]. apply (leaves_update id'); [done|].
    by intros r [? _]%andb_true_iff; apply id_is_true.
  - rewrite claim_job_stmt_spec by apply Hi. destruct (tbl_jobs (w_db w) !! id') as [r|] eqn:Hr; [|done].
    case_decide; [|done]. simpl. by eapply inv_jobs_keyed; [apply Hi|].
Qed.

Lemma upholds_MarkCompleted id' res : id' ≠ id → upholds any (MarkCompleted id' res).
Proof.
  intros Hne. apply upholds_then; [|done]. apply upholds_sql; [done|]. intros now u w Hi Hs.
  split; [|done]. unfold mark_completed_stmt. destruct (jsonb_param res); [apply Hs|].
  eapply leaves_untouched; [done..|]. apply (leaves_update id'); [done|]. apply id_is_true.
Qed.

Lemma upholds_MarkForRetry id' n msg : id' ≠ id → upholds any (MarkForRetry id' n msg).
Proof.
  intros Hne. apply upholds_then; [|done]. apply upholds_sql; [done|]. intros now u w Hi Hs.
  split; [|done]. unfold mark_for_retry_stmt. destruct (in_int32 n); [|apply Hs].
  eapply leaves_untouched; [done..|]. apply (leaves_update id'); [done|]. apply id_is_true.
Qed.

Lemma upholds_DeadLetter id' n msg : id' ≠ id → upholds any (DeadLetter id' n msg).
Proof.
  intros Hne. apply upholds_then; [|done]. apply upholds_tx. intros fs now us w Hi Hs.
  split; [|done]. eapply leaves_untouched; [done..|]. apply run_tx_keeps; [apply _|].
  split.
  - intros n' u d. unfold fail_job_stmt. destruct (in_int32 _); [|done].
    apply (leaves_update id'); [done|]. apply id_is_true.
  - intros [err|[]]; [done|]. split; [|by intros [err|[]]].
    intros n' u d. unfold insert_dlq_stmt. destruct (in_int32 _); [by intros ?|done].
Qed.

Lemma upholds_RetryJob tid id' : upholds (on_row other) (RetryJob tid id').
Proof.
  apply upholds_tx. intros fs now us w Hi Hs. pose proof Hs as [(j' & Hj & Hc) _].
  pose proof (retry_job_tx_atomic (w_db w) tid id' fs now us) as Ht.
  specialize (Ht ltac:(apply Hi) ltac:(apply Hi)). cbn zeta in Ht.
  destruct (visible tid id' (w_db w)) as [r|] eqn:Hv; [case_decide as Hf|].
  2,3: destruct Ht as [err ->]; split; [by exists j'|done].
  assert (tbl_jobs (w_db w) !! Job.ID r = Some r) as Hr.
  { unfold visible in Hv. destruct (tbl_jobs (w_db w) !! id') as [r'|] eqn:Hr; [|done].
    case_decide; simplify_eq. by rewrite (inv_jobs_keyed _ (proj1 Hi) _ _ Hr). }
  assert (Job.ID r ≠ id) as Hne.
  { intros E. rewrite E in Hr. simplify_eq. destruct Hc as [->|Hc]; status_neq. }
  assert (untouched (revived (w_db w) now r)) as Hu.
  { exists j'. split; [|done]. simpl. by rewrite lookup_insert_ne. }
  destruct Ht as [[err ->]|[[err ->]| ->]]; (split; [|done]); [by exists j'|done..].
Qed.

Lemma upholds_CancelJob tid id' : upholds any (CancelJob tid id').
Proof.
  apply upholds_then.
  - apply upholds_sql; [done|]. intros now u w Hi Hs. split; [|done].
    pose proof Hs as [(j' & Hj & Hc) _]. rewrite cancel_job_stmt_spec by apply Hi.
    destruct (tbl_jobs (w_db w) !! id') as [r|] eqn:Hr; [|by exists j'].
    case_decide; [|by exists j']. destruct (decide (id' = id)) as [->|Hne].
    + eexists. simpl. rewrite lookup_insert_eq. split; [done|]. by right.
    + exists j'. simpl. by rewrite lookup_insert_ne.
  - intros [err|r]; [|done]. destruct (errors_Is _ _); [|done].
    apply upholds_then; [|done]. apply upholds_then; [by apply upholds_read|done].
Qed.

(** *** Redis *)

Lemma upholds_redis {X} (c : Z → R → X * R) (Post : result X → Prop) :
  (∀ err, Post (inl err)) →
  (∀ now w, inv w → strand w →
     unqueued (c now (w_redis w)).2 ∧ Post (inr (c now (w_redis w)).1)) →
  upholds Post (redis_cmd c).
Proof.
  intros Herr Hc e w Hi [Hd Hs]. destruct (Hc (r_now e) w Hi (conj Hd Hs)) as [Hu Hp].
  simpl. destruct (c _ _) as [x s']. destruct (r_fault e); simpl in *; (split; [by split|auto]).
Qed.

Lemma upholds_redis_any {X} (c : Z → R → X * R) :
  (∀ now s, unqueued s → unqueued (c now s).2) → upholds any (redis_cmd c).
Proof. intros Hc. apply upholds_redis; [done|]. intros now w _ [_ Hs]. split; [by apply Hc|done]. Qed.

Lemma upholds_redis_read {X} (c : Z → R → X * R) :
  (∀ now s, (c now s).2 = s) → upholds any (redis_cmd c).
Proof. intros Hc. apply upholds_redis_any. intros now s. by rewrite Hc. Qed.

Lemma upholds_Enqueue q id' : id' ≠ id → upholds any (Queue.Enqueue q (uuid_String id')).
Proof.
  intros Hne. apply upholds_then; [|done]. apply upholds_redis_any. intros now s Hs q'. simpl.
  rewrite list_LPUSH, zset_LPUSH. split; [|apply Hs]. case_decide; [|apply Hs].
  fold (queue_key q). rewrite not_elem_of_cons. split; [|apply Hs].
  intros E. apply Hne. symmetry. by apply uuid_String_inj.
Qed.

Lemma upholds_EnqueueDelayed q id' t :
  id' ≠ id → upholds any (EnqueueDelayed q (uuid_String id') t).
Proof.
  intros Hne. apply upholds_then; [|done]. apply upholds_redis_any. intros now s Hs q'. simpl.
  rewrite list_ZADD, zset_ZADD. split; [apply Hs|]. case_decide; [|apply Hs].
  fold (delayed_key q). rewrite lookup_insert_ne; [apply Hs|].
  intros E. apply Hne. symmetry. by apply uuid_String_inj.
Qed.


Lemma upholds_PromoteDue q now lim : upholds any (PromoteDue q now lim).
Proof.
  apply upholds_then; [|done]. apply upholds_redis_any. intros n s Hs.
  fold (delayed_key q) (queue_key q). unfold promoteScript. cbn [snd].
  destruct (ZRANGEBYSCORE_spec (delayed_key q) (float64_of_int (Unix now)) lim s)
    as (l & Hl & _ & ->).
  assert (uuid_String id ∉ (limit_take lim l).*1) as Hno.
  { intros ([m d] & Em & Hin)%list_elem_of_fmap. simpl in Em. subst m.
    assert ((uuid_String id, d) ∈ l) as Hin'.
    { unfold limit_take in Hin. destruct (lim <? 0); [done|].
      by eapply (elem_of_take_drop _ 0), Hin. }
    rewrite Hl in Hin'. apply due_entries_elem in Hin' as [Hd _].
    destruct (Hs q) as [_ Hz]. congruence. }
  destruct (move_all (delayed_key q) (queue_key q) (limit_take lim l).*1 s) as (Hlist & Hz & _).
  intros q'. rewrite Hlist, Hz. destruct (Hs q') as [Hl' Hz']. split.
  - case_decide; [|done]. rewrite elem_of_app, elem_of_reverse. tauto.
  - by case_decide.
Qed.

(** A popped id is that of another job. *)
Definition popped_other (r : result (string * string)) : Prop :=
  match r with inl _ => True | inr (m, _) => ∃ id', m = uuid_String id' ∧ id' ≠ id end.

Lemma upholds_Dequeue qs : upholds popped_other (Dequeue qs).
Proof.
  unfold Dequeue. set (ks := _ <$> qs). assert (ks = queue_key <$> qs) as -> by done.
  eapply upholds_bind with (Post := λ r, match r with
    | inr (Some (k, m)) => ∃ id', m = uuid_String id' ∧ id' ≠ id
    | _ => True
    end); [|by intros [err|[[k m]|]]].
  apply upholds_redis; [done|]. intros now w [_ Hq] [_ Hs].
  pose proof (BRPOP_spec (queue_key <$> qs) (w_redis w)) as Hspec.
  destruct (first_nonempty _ _) as [[[k l] m]|] eqn:E; [|by rewrite Hspec].
  destruct Hspec as (s' & -> & Hl & Hz & _).
  apply first_nonempty_Some in E as [(q & -> & _)%list_elem_of_fmap Ek]. cbn [fst snd]. split.
  - intros q'. rewrite Hl, Hz. destruct (Hs q') as [Hl' Hz']. split; [|done].
    case_decide as Eq; [|done]. rewrite <- Eq, Ek in Hl'. set_solver.
  - destruct (Hq q m) as (id' & j' & -> & _ & _); [left; rewrite Ek; set_solver|].
    exists id'. split; [done|]. intros ->. destruct (Hs q) as [Hl' _]. rewrite Ek in Hl'. set_solver.
Qed.

Lemma upholds_Remove q m : upholds any (Remove q m).
Proof.
  apply upholds_then.
  - apply upholds_redis_any. intros now s Hs q'. simpl. rewrite list_LREM, zset_LREM.
    split; [|apply Hs]. case_decide as E; [|apply Hs]. rewrite E, list_elem_of_filter.
    intros [_ Hin]. by apply (Hs q').
  - intros [err|[]]; [done|]. apply upholds_then; [|done]. apply upholds_redis_any.
    intros now s Hs q'. simpl. rewrite list_ZREM, zset_ZREM. split; [apply Hs|].
    case_decide as E; [|apply Hs]. rewrite E, lookup_delete. by case_decide; [|apply Hs].
Qed.

Lemma upholds_Heartbeat i : upholds any (Heartbeat i).
Proof.
  apply upholds_then; [|done]. apply upholds_redis_any. intros now s Hs q'. simpl.
  rewrite list_SETEX, zset_SETEX. apply Hs.
Qed.

Lemma upholds_RemoveWorker i : upholds any (RemoveWorker i).
Proof.
  apply upholds_then; [|done]. apply upholds_redis_any. intros now s Hs q'. simpl.
  rewrite list_DEL, zset_DEL. split; (rewrite decide_False by done); apply Hs.
Qed.

(** ** The worker and the scheduler *)

Lemma upholds_loop n (b : prog R bool) : upholds any b → upholds any (loop n b).
Proof.
  intros Hb. induction n as [|n IH]; [done|]. cbn [loop].
  apply upholds_then; [done|]. by intros [|].
Qed.

Lemma upholds_Submit job : upholds any (Submit job).
Proof.
  apply upholds_then; [apply upholds_quiet, quiet_applyDefaults|]. intros job'. case_decide; [done|].
  eapply upholds_bind; [apply upholds_CreateJob|]. intros [err|r]; [done|]. intros Hr.
  apply upholds_then; [by apply upholds_Enqueue|done].
Qed.

Lemma upholds_handleFailure r err : Job.ID r ≠ id → upholds any (handleFailure r err).
Proof.
  intros Hr. unfold handleFailure. destruct (_ <=? _).
  - apply upholds_then; [by apply upholds_DeadLetter|]. intros [e|]; [done|].
    apply upholds_then; [apply upholds_metric|done].
  - destruct (backoffFor _) as [b|]; [|done].
    apply upholds_then; [by apply upholds_MarkForRetry|]. intros [e|]; [done|].
    apply upholds_then; [apply upholds_quiet, quiet_now|]. intros now.
    apply upholds_then; [by apply upholds_EnqueueDelayed|done].
Qed.

Lemma upholds_process registry id' :
  quiet_registry registry → id' ≠ id → upholds any (process registry (uuid_String id')).
Proof.
  intros Hreg Hne. unfold process. rewrite uuid_Parse_String.
  eapply upholds_bind; [by apply upholds_ClaimJob|].
  intros [err|r]; [by destruct (errors_Is _ _)|]. intros Er.
  apply upholds_then; [apply upholds_quiet, quiet_now|]. intros start.
  apply upholds_then; [by apply upholds_quiet, quiet_Dispatch|]. intros res.
  apply upholds_then; [apply upholds_quiet, quiet_now|]. intros stop.
  apply upholds_then; [apply upholds_metric|]. intros _.
  destruct res as [err|res]; [apply upholds_handleFailure; congruence|].
  apply upholds_then; [by apply upholds_MarkCompleted|]. intros [err|]; [done|].
  apply upholds_then; [apply upholds_metric|done].
Qed.

Lemma upholds_consume n registry qs :
  quiet_registry registry → upholds any (consume n registry qs).
Proof.
  intros Hreg. apply upholds_loop. unfold consume_once.
  apply upholds_then; [apply upholds_quiet, quiet_ctx|]. intros [|]; [done|].
  eapply upholds_bind; [apply upholds_Dequeue|]. intros [err|[m q]].
  - intros _. destruct (errors_Is _ _); [done|].
    apply upholds_then; [apply upholds_quiet, quiet_ctx|]. intros [|]; [done|].
    apply upholds_then; [apply upholds_quiet, quiet_wait|done].
  - intros (id' & -> & Hne). apply upholds_then; [by apply upholds_process|done].
Qed.

Lemma upholds_poll n qs : upholds any (poll n qs).
Proof.
  apply upholds_loop. unfold poll_once.
  apply upholds_then; [apply upholds_quiet, quiet_wait|]. intros [|]; [done|].
  apply upholds_then; [apply upholds_quiet, quiet_now|]. intros now.
  induction qs as [|q qs IH]; [done|]. cbn [poll_queues].
  apply upholds_then; [apply upholds_PromoteDue|]. intros [err|k]; [|exact IH].
  apply upholds_then; [apply upholds_quiet, quiet_ctx|]. by intros [|].
Qed.

Lemma upholds_beat i : upholds any (beat i).
Proof.
  apply upholds_then; [apply upholds_Heartbeat|]. intros [err|]; [|done].
  apply upholds_then; [apply upholds_quiet, quiet_ctx|done].
Qed.

Lemma upholds_heartbeat n i : upholds any (heartbeat n i).
Proof.
  apply upholds_then; [apply upholds_beat|]. intros _. apply upholds_loop.
  apply upholds_then; [apply upholds_quiet, quiet_wait|]. intros [|].
  - apply upholds_then; [apply upholds_RemoveWorker|done].
  - apply upholds_then; [apply upholds_beat|done].
Qed.

Lemma upholds_handleSchedules : upholds any handleSchedules.
Proof.
  apply upholds_then; [apply upholds_quiet, quiet_now|]. intros now.
  apply upholds_then; [apply upholds_then; [by apply upholds_read|done]|].
  intros [err|scs].
  { apply upholds_then; [apply upholds_quiet, quiet_ctx|done]. }
  induction scs as [|sc scs IH]; [done|]. cbn [fire_all].
  apply upholds_then; [apply upholds_quiet, quiet_ctx|]. intros [|]; [done|].
  apply upholds_then; [|by intros []]. unfold fireSchedule.
  destruct (cron_ParseStandard _) as [e|cron]; [done|].
  apply upholds_then; [apply upholds_then; [by apply upholds_same_jobs|done]|].
  intros [e|[|]]; [| |done].
  - apply upholds_then; [apply upholds_quiet, quiet_ctx|done].
  - apply upholds_then; [apply upholds_Submit|done].
Qed.

Lemma upholds_scheduler n : upholds any (scheduler n).
Proof.
  apply upholds_then; [apply upholds_handleSchedules|]. intros _. apply upholds_loop.
  apply upholds_then; [apply upholds_quiet, quiet_wait|]. intros [|]; [done|].
  apply upholds_then; [apply upholds_handleSchedules|done].
Qed.

(** ** The API *)

Lemma upholds_create_account email h : upholds any (exec_tx (create_account_tx email h)).
Proof.
  apply upholds_tx. intros fs now us w _ [(j' & Hj & Hc) _]. split; [|done]. exists j'.
  pose proof (run_tx_keeps account_step (create_account_tx email h) fs now us (w_db w) _
                (create_account_tx_step email h)) as Hst.
  by rewrite (step_jobs _ _ Hst).
Qed.

Lemma upholds_page args conds lim off : upholds any (exec_sql (page_stmt args conds lim off)).
Proof. apply upholds_read. intros now u d. unfold page_stmt. by repeat case_match. Qed.

Create HintDb upholds discriminated.
#[local] Hint Resolve upholds_CancelJob upholds_Remove upholds_Submit upholds_create_account
  upholds_page : upholds.

(** Case analysis down to the requests, unfolding the program. *)
Ltac head_of p := lazymatch p with ?f _ => head_of f | _ => p end.

Ltac upholds_step :=
  lazymatch goal with
  | |- ∀ _, _ => intros ?
  | |- upholds _ (Ret _) => exact I
  | |- upholds _ (bind _ _) => apply upholds_then
  | |- upholds _ (match ?x with _ => _ end) => destruct x
  | |- upholds _ (let _ := _ in _) => cbv zeta
  | |- upholds _ (src_QueueDepths _) => cbn [src_QueueDepths metricsSource_Source]
  | |- upholds _ (src_ActiveWorkers _) => cbn [src_ActiveWorkers metricsSource_Source]
  | |- upholds _ (redis_cmd _) => by apply upholds_redis_read
  | |- upholds _ (request _) => by apply upholds_quiet, quiet_request
  | |- upholds _ (exec_sql _) =>
      first [by apply upholds_read|solve [apply upholds_account; auto with dispatch]
            |solve [eauto with upholds]]
  | |- upholds _ ?p =>
      first [solve [eauto with upholds]|let f := head_of p in unfold f]
  end.
Ltac upholds_all := repeat first [match goal with IH : context [upholds] |- _ => apply IH end|upholds_step].

Lemma upholds_scan n c seen : upholds any (scan_workers (R := R) n c seen).
Proof. revert c seen. induction n as [|n IH]; intros c seen; [done|]. cbn [scan_workers]. upholds_all. Qed.

Lemma upholds_read_depths names : upholds any (read_depths (R := R) names).
Proof. induction names as [|q names IH]; [done|]. cbn [read_depths]. upholds_all. Qed.

Lemma upholds_read_lens names acc : upholds any (read_lens (R := R) names acc).
Proof. revert acc. induction names as [|q names IH]; intros acc; [done|]. cbn [read_lens]. upholds_all. Qed.

#[local] Hint Resolve upholds_scan upholds_read_depths upholds_read_lens : upholds.

Lemma upholds_retryJob r : upholds any (retryJob (R := R) r).
Proof.
  unfold retryJob. destruct (tenantID r) as [resp|tid]; [done|].
  destruct (url_job_id r) as [resp|id']; [done|].
  eapply upholds_bind; [apply upholds_RetryJob|].
  intros [err|r']; [by repeat destruct (errors_Is _ _)|]. intros Hr.
  apply upholds_then; [by apply upholds_Enqueue|]. by intros [|].
Qed.

Lemma upholds_Routes api rt r : rt ∈ Routes (R := R) api → upholds any (rHandler rt r).
Proof.
  unfold Routes. rewrite !elem_of_cons, elem_of_nil. intros Hrt.
  repeat (destruct Hrt as [->|Hrt]); [..|done]; cbn [rHandler].
  9: { unfold RequireAPIKey. pose proof upholds_retryJob. upholds_all. }
  all: upholds_all.
Qed.

Lemma upholds_ServeHTTP api r : upholds any (ServeHTTP (R := R) api r).
Proof.
  unfold ServeHTTP, CORS. case_decide; [done|]. apply upholds_then; [|done].
  unfold route_request. destruct (chi_route _ _ _) as [n param| |]; [|done..].
  destruct (Routes api !! n) as [rt|] eqn:Hrt; [|done].
  apply upholds_Routes with api. by eapply list_elem_of_lookup_2.
Qed.

Lemma upholds_body (sv : service (R := R)) : admissible sv → upholds any (body sv).
Proof.
  destruct sv as [n reg qs|n qs|n wid|n|qs n|api r]; cbn [body admissible]; intros Ha.
  - by apply upholds_consume.
  - apply upholds_poll.
  - apply upholds_heartbeat.
  - apply upholds_scheduler.
  - upholds_all.
  - apply upholds_then; [apply upholds_ServeHTTP|done].
Qed.

(** ** The system *)

(** The job is stranded, and every process leaves it so. *)
Definition all_uphold (c : config (R := R)) : Prop :=
  strand (c_world c) ∧ ∀ t p, c_threads c !! t = Some p → upholds any p.

Lemma all_uphold_step l c c' : reachable c → sys_step l c c' → all_uphold c → all_uphold c'.
Proof.
  intros [Hi _]%reachable_inv Hstep [Hs Ht].
  destruct Hstep as [w ts o sv Ha|w ts o t e p p' w' Hp Hstep|w ts o t|w w' ts o Ho]; simpl in *.
  - split; [done|]. simpl. intros t p [[_ ?]|[_ <-]]%lookup_snoc_Some; [by eapply Ht|].
    by apply upholds_body.
  - assert (strand w' ∧ upholds any p') as [Hs' Hp'].
    { specialize (Ht _ _ Hp). destruct p as [a|msg|X op k]; simpl in Hstep; [by simplify_eq..|].
      specialize (Ht e w Hi Hs). destruct (interp op e w). by simplify_eq. }
    split; [done|]. simpl.
    intros t' p2 [(_ & <- & _)|[_ ?]]%list_lookup_insert_Some; [done|by eapply Ht].
  - split; [done|]. simpl.
    intros t' p2 [(_ & <- & _)|[_ ?]]%list_lookup_insert_Some; [done|by eapply Ht].
  - split; [|done]. destruct Hs as [Hu Hq], Ho as (Ej & _ & _ & _ & Hl & Hz). split.
    + destruct Hu as (j' & Hj & Hc). exists j'. simpl. by rewrite Ej.
    + intros q. destruct (Hq q) as [Hl' Hz']. split; [by intros ?%Hl|].
      apply eq_None_not_Some. intros Hx%Hz. by rewrite Hz' in Hx; destruct Hx.
Qed.

Lemma all_uphold_steps c c' : reachable c → steps c c' → all_uphold c → all_uphold c'.
Proof.
  intros Hc Hs. revert Hc. induction Hs as [c|c c1 c' [l Hl] _ IH]; intros Hc Hu; [done|].
  apply IH; [by eapply reach_step|by eapply all_uphold_step].
Qed.
End Stranded.

Section NeverRun.
Context `{Postgres} `{UUIDLib} `{!UUIDLaws} `{GoText} `{Bcrypt} `{Router} {R : Type}.
Context `{Redis R} `{!RedisLaws R} {Sch : Type} `{Cron Sch}.

End NeverRun.

(** ** Instance: the worker stops between the pop and the claim *)

Definition demo_popped : config (R := RefRedis.store) :=
  foldl act demo_queued
    [ASpawn (Consumer 1 demo_registry ["default"%string]);
     ARun 1 (ok_at 4 0%N); ARun 1 (ok_at 5 0%N); AStop 1].

