(* ===== verification/Custody.v ===== *)
(** * Where each job is: on its queue, in the hands of one process, or lost to one failure

    A job that is to be run is always in exactly one place: its id is once on its queue's work
    list or in its delayed set, or one process has it in hand, or a failure made a process drop
    it. [hand] is what a process has taken over and not yet passed on; [accounted] balances the
    hands, the dropped ones included, with the rows, the queues and the worker's counters;
    [tends h p Q] says that program [p], started with hand [h], keeps the balance at each of its
    requests, and drops one hand at most when the request reports a failure. *)
From S2P Require Import Prelude GoStd Models Interfaces Db Effects Store WorkerMetrics Queue.
From S2P Require Import Lifecycle.
From S2P Require Import StoreFacts QueueFacts Rely.
Open Scope Z_scope.

(** A reply without faults; the context may be done, that is, the process is told to stop. *)
Definition sound (f : fault) : bool := match f with FOk => true | _ => false end.
Definition smooth (e : reply) : bool := sound (r_fault e) && forallb sound (r_faults e).

(** A reply counts as one failure when it reports any. *)
Definition failures (e : reply) : nat := if smooth e then 0 else 1.

(** ** Hands *)

Inductive hand :=
| Empty
| Carrying (id : uuid) (q : string)
| Running (j : Job)
| Removing (id : uuid)
| Counting (s : Status).

Definition indicator (P : Prop) `{!Decision P} : nat := if decide P then 1 else 0.

Lemma indicator_no (P : Prop) `{!Decision P} : ¬ P → indicator P = 0%nat.
Proof. intros HP. unfold indicator. by rewrite decide_False. Qed.

Lemma indicator_yes (P : Prop) `{!Decision P} : P → indicator P = 1%nat.
Proof. intros HP. unfold indicator. by rewrite decide_True. Qed.

Lemma indicator_one (P : Prop) `{!Decision P} : indicator P = 1%nat → P.
Proof. unfold indicator. by case_decide. Qed.

(** Does the hand hold the id; is it running the job; is it about to count an outcome. *)
Definition holds (id : uuid) (h : hand) : nat :=
  match h with
  | Carrying id' _ => indicator (id' = id)
  | Running j => indicator (Job.ID j = id)
  | _ => 0
  end.
Definition runs (id : uuid) (h : hand) : nat :=
  match h with Running j => indicator (Job.ID j = id) | _ => 0 end.
Definition counts (s : Status) (h : hand) : nat :=
  match h with Counting s' => indicator (s' = s) | _ => 0 end.

Definition held (id : uuid) (hs : list hand) : nat := sum_list_with (holds id) hs.
Definition running (id : uuid) (hs : list hand) : nat := sum_list_with (runs id) hs.
Definition counting (s : Status) (hs : list hand) : nat := sum_list_with (counts s) hs.

(** How often a job in status [st] is queued ([n]), held ([h]) and run ([r]). *)
Definition settles (st : Status) (n h r : nat) : Prop :=
  if decide (st = StatusPending) then (n + h = 1)%nat
  else if decide (st = StatusProcessing) then n = 0%nat ∧ h = 1%nat ∧ r = 1%nat
  else if decide (st = StatusCancelled) then (n + h ≤ 1)%nat
  else n = 0%nat ∧ h = 0%nat.

(** The number of jobs in a status. *)
Definition matching {A} (P : uuid * A → Prop) `{!∀ x, Decision (P x)} (m : gmap uuid A) : nat :=
  size (filter P m).
Definition tally (s : Status) (d : DB) : nat :=
  matching (λ kv, Job.Status kv.2 = s) (tbl_jobs d).

Lemma matching_insert {A} (P : uuid * A → Prop) `{!∀ x, Decision (P x)} (m : gmap uuid A) k a :
  (matching P (<[k := a]> m) + from_option (λ b, indicator (P (k, b))) 0 (m !! k)
   = matching P m + indicator (P (k, a)))%nat.
Proof.
  unfold matching.
  assert (∀ (m' : gmap uuid A) b, m' !! k = None →
    size (filter P (<[k := b]> m')) = (size (filter P m') + indicator (P (k, b)))%nat) as Hnew.
  { intros m' b Hm. rewrite map_filter_insert. unfold indicator. destruct (decide (P (k, b))).
    - rewrite map_size_insert_None; [lia|]. apply map_lookup_filter_None. by left.
    - rewrite delete_id by done. lia. }
  destruct (m !! k) as [b|] eqn:Hb; simpl; [|rewrite Hnew by done; lia].
  rewrite <- (insert_delete_id m k b Hb) at 2. rewrite <- insert_delete_eq.
  rewrite !Hnew by apply lookup_delete_eq. lia.
Qed.

Lemma tally_insert (s : Status) d d' id j' :
  tbl_jobs d' = <[id := j']> (tbl_jobs d) →
  (tally s d' + from_option (λ j, indicator (Job.Status j = s)) 0 (tbl_jobs d !! id)
   = tally s d + indicator (Job.Status j' = s))%nat.
Proof.
  intros E. unfold tally. rewrite E. exact (matching_insert (λ kv, Job.Status kv.2 = s) _ id j').
Qed.

Lemma runs_holds id h : (runs id h ≤ holds id h)%nat.
Proof. destruct h; simpl; lia. Qed.

Lemma running_held id hs : (running id hs ≤ held id hs)%nat.
Proof. induction hs as [|h hs IH]; simpl; [done|]. pose proof (runs_holds id h). unfold running, held in *. simpl. lia. Qed.

Lemma runs_in id j hs : Running j ∈ hs → Job.ID j = id → (1 ≤ running id hs)%nat.
Proof.
  intros Hin <-. apply (sum_list_with_in _ (runs (Job.ID j))) in Hin. simpl in Hin.
  unfold indicator in Hin. rewrite decide_True in Hin by done. done.
Qed.

Lemma list_delete_insert {A} (l : list A) i x : delete i (<[i := x]> l) = delete i l.
Proof. revert i. induction l as [|y l IH]; intros [|i]; simpl; try done. f_equal. auto. Qed.

Section Custody.
Context `{Postgres} `{UUIDLib} `{!UUIDLaws} `{GoText} {R : Type} `{Redis R} `{!RedisLaws R}.
Implicit Types (w : world R) (e : reply) (s : R) (h : hand) (hs : list hand).

(** ** The balance *)

(** How often the id is on the queue's work list and in its delayed set. *)
Definition copies s (q m : string) : nat :=
  (length (filter (λ x, x = m) (rd_list s (queue_key q)))
   + indicator (is_Some (rd_zset s (delayed_key q) !! m)))%nat.

Definition truth w h : Prop :=
  match h with
  | Carrying id q => ∃ j, tbl_jobs (w_db w) !! id = Some j ∧ Job.QueueName j = q
  | Running j => tbl_jobs (w_db w) !! Job.ID j = Some j ∧ Job.Status j = StatusProcessing
  | Removing id => ∃ j, tbl_jobs (w_db w) !! id = Some j ∧ Job.Status j = StatusCancelled
  | Empty | Counting _ => True
  end.

Definition ledger w hs (id : uuid) : Prop :=
  match tbl_jobs (w_db w) !! id with
  | None => held id hs = 0%nat
  | Some j => settles (Job.Status j) (copies (w_redis w) (Job.QueueName j) (uuid_String id))
                (held id hs) (running id hs)
  end.

Definition tallied w hs : Prop :=
  tally StatusCompleted (w_db w)
    = (processed_total StatusCompleted (w_metrics w) + counting StatusCompleted hs)%nat
  ∧ (tally StatusFailed (w_db w)
     ≤ processed_total StatusFailed (w_metrics w) + counting StatusFailed hs)%nat.

Record accounted w hs : Prop := {
  acc_ledger : ∀ id, ledger w hs id;
  acc_truth : Forall (truth w) hs;
  acc_tally : tallied w hs;
}.

(** The order of the processes does not matter. *)
#[export] Instance accounted_proper w : Proper ((≡ₚ) ==> iff) (accounted w).
Proof.
  intros hs hs' E.
  assert (∀ l l' : list hand, l ≡ₚ l' → accounted w l → accounted w l') as Himp.
  { intros l l' E' [Hl Ht Hc]. split; [|by rewrite <- E'|].
    - intros id. specialize (Hl id). unfold ledger, held, running in *.
      destruct (tbl_jobs (w_db w) !! id); by rewrite <- !E'.
    - unfold tallied, counting in *. by rewrite <- !E'. }
  by split; apply Himp.
Qed.

(** ** Programs that keep the balance *)
Fixpoint tends {A} h (p : prog R A) (Q : A → hand → Prop) : Prop :=
  match p with
  | Ret a => Q a h
  | Panic _ => True
  | Call op k => ∀ e w hs, inv w → accounted w (h :: hs) →
      let '(x, w') := interp op e w in
      ∃ h' dropped, (length dropped ≤ failures e)%nat ∧ accounted w' (h' :: dropped ++ hs)
        ∧ tends h' (k x) Q
  end.

(** Nothing is dropped. *)
Lemma tends_passes {A} h' w' hs e (p : prog R A) Q :
  accounted w' (h' :: hs) → tends h' p Q →
  ∃ h' dropped, (length dropped ≤ failures e)%nat ∧ accounted w' (h' :: dropped ++ hs)
    ∧ tends h' p Q.
Proof. exists h', []. split; [simpl; lia|done]. Qed.

Lemma passes w' h hs e :
  accounted w' (h :: hs) →
  ∃ h' dropped, (length dropped ≤ failures e)%nat ∧ accounted w' (h' :: dropped ++ hs) ∧ h' = h.
Proof. intros Ha. exact (tends_passes h _ _ _ (Ret tt) (λ _ h', h' = h) Ha eq_refl). Qed.

(** What was in hand is dropped. *)
Lemma accounted_drop w h hs : accounted w (h :: hs) → accounted w (Empty :: h :: hs).
Proof. intros [Hl Ht Hc]. split; [exact Hl|by constructor|exact Hc]. Qed.

Lemma tends_drops {A} h w' hs e (p : prog R A) Q :
  smooth e = false → accounted w' (h :: hs) → tends Empty p Q →
  ∃ h' dropped, (length dropped ≤ failures e)%nat ∧ accounted w' (h' :: dropped ++ hs)
    ∧ tends h' p Q.
Proof.
  intros He Ha Hp. exists Empty, [h]. unfold failures. rewrite He.
  split_and!; [done|by apply accounted_drop|done].
Qed.

Lemma tends_mono {A} h (p : prog R A) (Q Q' : A → hand → Prop) :
  (∀ a h', Q a h' → Q' a h') → tends h p Q → tends h p Q'.
Proof.
  intros HQ. revert h. induction p as [a|msg|X op k IH]; intros h; simpl; [auto|done|].
  intros Hp e w hs Hi Ha. specialize (Hp e w hs Hi Ha).
  destruct (interp op e w). destruct Hp as (h' & dropped & ? & ? & ?). exists h', dropped. auto.
Qed.

Lemma tends_bind {A B} h (p : prog R A) (f : A → prog R B) Q Q' :
  tends h p Q → (∀ a h', Q a h' → tends h' (f a) Q') → tends h (bind p f) Q'.
Proof.
  intros Hp Hf. revert h Hp. induction p as [a|msg|X op k IH]; intros h; simpl; [auto|done|].
  intros Hp e w hs Hi Ha. specialize (Hp e w hs Hi Ha).
  destruct (interp op e w). destruct Hp as (h' & dropped & ? & ? & ?). exists h', dropped. auto.
Qed.

(** A program that ends with the hand it started with. *)
Definition keeps {A} h (p : prog R A) : Prop := tends h p (λ _ h', h' = h).

Lemma tends_then {A B} h (p : prog R A) (f : A → prog R B) Q :
  keeps h p → (∀ a, tends h (f a) Q) → tends h (bind p f) Q.
Proof. intros Hp Hf. eapply tends_bind; [exact Hp|]. by intros a h' ->. Qed.

Lemma keeps_quiet {A} h (p : prog R A) : quiet p → keeps h p.
Proof.
  intros Hq. induction p as [a|msg|X op k IH]; simpl in *; [done|done|].
  destruct Hq as [Hw Hk]. intros e w hs _ Ha. specialize (Hw e w).
  destruct (interp op e w) as [x w']. simpl in Hw. subst w'. apply (tends_passes h); [done|by apply IH].
Qed.

(** Answers that hold whatever the outside does hold here too. *)
Lemma keeps_quiet_answers {A} h F (P : A → Prop) (p : prog R A) :
  quiet p → answers F P p → tends h p (λ a h', h' = h ∧ P a).
Proof.
  intros Hq Hp. induction p as [a|msg|X op k IH]; simpl in *; [done|done|].
  destruct Hq as [Hw Hk]. intros e w hs _ Ha. specialize (Hw e w).
  destruct (interp op e w) as [x w']. simpl in Hw. subst w'. apply (tends_passes h); [done|by apply IH].
Qed.

(** ** Moving one job *)

Lemma accounted_same w w' hs :
  tbl_jobs (w_db w') = tbl_jobs (w_db w) → w_metrics w' = w_metrics w →
  (∀ q m, copies (w_redis w') q m = copies (w_redis w) q m) →
  accounted w hs → accounted w' hs.
Proof.
  intros Ej Em Ec [Hl Ht Hc]. split.
  - intros id. specialize (Hl id). unfold ledger in *. rewrite Ej.
    destruct (tbl_jobs (w_db w) !! id); [|done]. by rewrite Ec.
  - eapply Forall_impl; [exact Ht|]. intros h. destruct h; simpl; by rewrite ?Ej.
  - unfold tallied, tally in *. by rewrite Ej, Em.
Qed.

(** Only jobs being processed are run. *)
Lemma running_idle w hs id j :
  Forall (truth w) hs → tbl_jobs (w_db w) !! id = Some j → Job.Status j ≠ StatusProcessing →
  running id hs = 0%nat.
Proof.
  intros Ht Hj Hs. induction Ht as [|h hs Hh _ IH]; [done|].
  unfold running in *. simpl. rewrite IH.
  destruct h as [|id' q|j'|id'|s']; try done. simpl in *. unfold indicator. case_decide as E; [|done].
  destruct Hh as [Hh ?]. rewrite E, Hj in Hh. congruence.
Qed.

(** One row, its queue entries and one hand change; the rest is as it was. *)
Lemma accounted_move id j j' w w' h h' hs :
  accounted w (h :: hs) → tbl_jobs (w_db w) !! id = Some j →
  tbl_jobs (w_db w') = <[id := j']> (tbl_jobs (w_db w)) → w_metrics w' = w_metrics w →
  Job.QueueName j' = Job.QueueName j →
  (Job.Status j = StatusCancelled → Job.Status j' = StatusCancelled) →
  running id hs = 0%nat ∨ j' = j →
  (∀ id' q, id' ≠ id → copies (w_redis w') q (uuid_String id') = copies (w_redis w) q (uuid_String id')) →
  (∀ id', id' ≠ id → holds id' h' = holds id' h ∧ runs id' h' = runs id' h) →
  (∀ x r, running id hs = r → (r ≤ x)%nat →
     settles (Job.Status j) (copies (w_redis w) (Job.QueueName j) (uuid_String id)) (holds id h + x) (runs id h + r) →
     settles (Job.Status j') (copies (w_redis w') (Job.QueueName j) (uuid_String id)) (holds id h' + x) (runs id h' + r)) →
  truth w' h' →
  (indicator (Job.Status j' = StatusCompleted) + counts StatusCompleted h
   = indicator (Job.Status j = StatusCompleted) + counts StatusCompleted h')%nat →
  (indicator (Job.Status j' = StatusFailed) + counts StatusFailed h
   ≤ indicator (Job.Status j = StatusFailed) + counts StatusFailed h')%nat →
  accounted w' (h' :: hs).
Proof.
  intros [Hl Ht [Hc Hf]] Hj Ej Em Eq Hcan Hrun Hcopies Hothers Hset Hh' Htc Htf.
  apply Forall_cons in Ht as [_ Ht]. split.
  - intros id'. specialize (Hl id'). unfold ledger, held, running in *. cbn [sum_list_with] in *.
    rewrite Ej, lookup_insert. destruct (decide (id = id')) as [<-|E].
    + rewrite Hj in Hl. rewrite Eq. apply Hset; [done|apply running_held|done].
    + destruct (Hothers id') as [-> ->]; [congruence|].
      destruct (tbl_jobs (w_db w) !! id'); [|done]. by rewrite Hcopies by congruence.
  - constructor; [done|]. apply Forall_forall. intros h2 Hin. rewrite Forall_forall in Ht. specialize (Ht h2 Hin).
    destruct h2 as [|id2 q|j2|id2|s']; simpl in *; rewrite ?Ej; try done.
    + destruct Ht as (j2 & Hj2 & Hq). rewrite lookup_insert. destruct (decide (id = id2)) as [<-|E]; [|by exists j2].
      exists j'. split; [done|]. rewrite Hj in Hj2. by simplify_eq.
    + rewrite lookup_insert. destruct (decide (id = Job.ID j2)) as [E|E]; [|done]. destruct Hrun as [Hrun| ->].
      * pose proof (runs_in id j2 hs Hin (eq_sym E)). lia.
      * destruct Ht as [Ht ?]. rewrite <- E, Hj in Ht. by simplify_eq.
    + destruct Ht as (j2 & Hj2 & Hq). rewrite lookup_insert. destruct (decide (id = id2)) as [<-|E]; [|by exists j2].
      exists j'. split; [done|]. rewrite Hj in Hj2. simplify_eq. auto.
  - unfold tallied, counting in *. cbn [sum_list_with] in *. rewrite Em.
    pose proof (tally_insert StatusCompleted _ _ id j' Ej) as HC.
    pose proof (tally_insert StatusFailed _ _ id j' Ej) as HF.
    rewrite Hj in HC, HF. cbn [from_option] in HC, HF. lia.
Qed.

(** A row is created. *)
Lemma accounted_create id j' w w' h' hs :
  inv w → accounted w (Empty :: hs) → tbl_jobs (w_db w) !! id = None →
  tbl_jobs (w_db w') = <[id := j']> (tbl_jobs (w_db w)) → w_redis w' = w_redis w →
  w_metrics w' = w_metrics w → Job.Status j' = StatusPending →
  h' = Carrying id (Job.QueueName j') →
  accounted w' (h' :: hs).
Proof.
  intros [_ Hq] [Hl Ht [Hc Hf]] Hj Ej Er Em Es ->. apply Forall_cons in Ht as [_ Ht].
  assert (copies (w_redis w) (Job.QueueName j') (uuid_String id) = 0%nat) as Ec.
  { assert (∀ m, m = uuid_String id → ¬ (m ∈ rd_list (w_redis w) (queue_key (Job.QueueName j'))
        ∨ is_Some (rd_zset (w_redis w) (delayed_key (Job.QueueName j')) !! m))) as Hno.
    { intros m -> Hm. destruct (Hq _ _ Hm) as (id' & j & E & Hj2 & _).
      apply uuid_String_inj in E. congruence. }
    unfold copies. rewrite filter_none_in by (intros x Hx ->; eapply Hno; eauto).
    unfold indicator. rewrite decide_False; [done|]. intros Hx. eapply Hno; eauto. }
  split.
  - intros id'. specialize (Hl id'). unfold ledger, held, running in *. cbn [sum_list_with holds runs] in *.
    rewrite Ej, lookup_insert. unfold indicator in *. destruct (decide (id = id')) as [<-|E].
    + rewrite Hj in Hl. rewrite Es, Er, Ec. unfold settles. simpl. lia.
    + rewrite Er. exact Hl.
  - constructor; [exists j'; by rewrite Ej, lookup_insert_eq|]. eapply Forall_impl; [exact Ht|].
    assert (∀ id2 (P : Job → Prop), (∃ j, tbl_jobs (w_db w) !! id2 = Some j ∧ P j) →
      ∃ j, tbl_jobs (w_db w') !! id2 = Some j ∧ P j) as Hkeep.
    { intros id2 P (j & Hj2 & HP). exists j. rewrite Ej, lookup_insert_ne by congruence. done. }
    intros [|id2 q|j2|id2|s']; simpl; try done; [apply Hkeep| |apply Hkeep].
    intros [Hj2 ?]. rewrite Ej, lookup_insert_ne by congruence. done.
  - unfold tallied, counting in *. cbn [sum_list_with counts] in *. rewrite Em.
    pose proof (tally_insert StatusCompleted _ _ id j' Ej) as HC.
    pose proof (tally_insert StatusFailed _ _ id j' Ej) as HF.
    rewrite Hj, Es in HC, HF. cbn [from_option] in HC, HF. unfold indicator in *. simpl in *. lia.
Qed.

(** ** Requests *)

Lemma smooth_sound e : smooth e = true → r_fault e = FOk ∧ Forall (λ f, f = FOk) (r_faults e).
Proof.
  unfold smooth. intros [Hf Hfs]%andb_true_iff. split; [by destruct (r_fault e)|].
  rewrite forallb_forall in Hfs. apply Forall_forall. intros f Hf'. specialize (Hfs f).
  rewrite list_elem_of_In in Hf'. specialize (Hfs Hf'). by destruct f.
Qed.

Lemma faulty_smooth e : sound (r_fault e) = false → smooth e = false.
Proof. unfold smooth. by intros ->. Qed.

Lemma run_tx_smooth {X} (b : tx X) fs now us d :
  Forall (λ f, f = FOk) fs → run_tx b fs now us d = run_tx b [] now us d.
Proof.
  assert (∀ fs us d0 d, Forall (λ f, f = FOk) fs →
    run_stmts b fs now us d0 d = run_stmts b [] now us d0 d) as Hs.
  { clear. induction b as [x|err|Y q k IH]; intros fs us d0 d [|f fs' -> Hfs]; try done; simpl.
    destruct (q _ _ _). by apply IH. }
  intros [|f fs' -> Hfs]; [done|]. unfold run_tx. simpl. by rewrite Hs.
Qed.

(** A statement: what it does when it succeeds; an error leaves the process empty-handed. *)
Lemma tends_sql {X} h (q : sql X) (Q : result X → hand → Prop) :
  (∀ now u w hs, inv w → accounted w (h :: hs) →
     let '(x, d') := q now u (w_db w) in ∃ h', accounted (with_db d' w) (h' :: hs) ∧ Q x h') →
  (∀ err, Q (inl err) Empty) →
  tends h (exec_sql q) Q.
Proof.
  intros Hq Herr e w hs Hi Ha. specialize (Hq (r_now e) (r_uuid e) w hs Hi Ha). simpl.
  destruct (q _ _ _) as [x d']. destruct Hq as (h' & Ha' & Hx).
  destruct (r_fault e) as [|err|err] eqn:Ef; simpl; rewrite ?world_eta.
  - by apply (tends_passes h' _ _ _ (Ret x)).
  - apply (tends_drops h _ _ _ (Ret (inl err))); [by apply faulty_smooth; rewrite Ef|by destruct w|apply Herr].
  - apply (tends_drops h' _ _ _ (Ret (inl err))); [by apply faulty_smooth; rewrite Ef|done|apply Herr].
Qed.

(** A transaction: what it does without faults, and what can come of it with them. *)
Lemma tends_tx {X} h (b : tx X) (Q : result X → hand → Prop) :
  (∀ now us w hs, inv w → accounted w (h :: hs) →
     let '(x, d') := run_tx b [] now us (w_db w) in
     ∃ h', accounted (with_db d' w) (h' :: hs) ∧ Q x h') →
  (∀ fs now us w hs, inv w → accounted w (h :: hs) →
     let '(x, d') := run_tx b fs now us (w_db w) in
     ∃ h', accounted (with_db d' w) (h' :: hs) ∧ ((∃ err, x = inl err) ∨ Q x h')) →
  (∀ err, Q (inl err) Empty) →
  tends h (exec_tx b) Q.
Proof.
  intros Hok Hany Herr e w hs Hi Ha. simpl. destruct (smooth e) eqn:He.
  - destruct (smooth_sound e He) as [_ Hfs]. rewrite run_tx_smooth by done.
    specialize (Hok (r_now e) (r_uuids e) w hs Hi Ha). destruct (run_tx _ _ _ _ _) as [x d'].
    destruct Hok as (h' & Ha' & Hx). by apply (tends_passes h' _ _ _ (Ret x)).
  - specialize (Hany (r_faults e) (r_now e) (r_uuids e) w hs Hi Ha).
    destruct (run_tx _ _ _ _ _) as [x d']. destruct Hany as (h' & Ha' & [[err ->]|Hx]).
    + apply (tends_drops h' _ _ _ (Ret (inl err))); [done|done|apply Herr].
    + by apply (tends_passes h' _ _ _ (Ret x)).
Qed.

Lemma tends_redis {X} h (c : Z → R → X * R) (Q : result X → hand → Prop) :
  (∀ now w hs, inv w → accounted w (h :: hs) →
     let '(x, s') := c now (w_redis w) in
     ∃ h', accounted (with_redis s' w) (h' :: hs) ∧ Q (inr x) h') →
  (∀ err, Q (inl err) Empty) →
  tends h (redis_cmd c) Q.
Proof.
  intros Hc Herr e w hs Hi Ha. specialize (Hc (r_now e) w hs Hi Ha). simpl.
  destruct (c _ _) as [x s']. destruct Hc as (h' & Ha' & Hx).
  destruct (r_fault e) as [|err|err] eqn:Ef; simpl.
  - by apply (tends_passes h' _ _ _ (Ret (inr x))).
  - apply (tends_drops h _ _ _ (Ret (inl err))); [by apply faulty_smooth; rewrite Ef|by destruct w|apply Herr].
  - apply (tends_drops h' _ _ _ (Ret (inl err))); [by apply faulty_smooth; rewrite Ef|done|apply Herr].
Qed.

(** Requests that concern no job, failing or not. *)
Lemma keeps_same_jobs {X} h (q : sql X) :
  (∀ now u d, tbl_jobs (q now u d).2 = tbl_jobs d) → keeps h (exec_sql q).
Proof.
  intros Hq e w hs _ Ha. specialize (Hq (r_now e) (r_uuid e) (w_db w)). simpl.
  destruct (q _ _ _) as [x d']. destruct (r_fault e); simpl;
    (apply passes; eapply (accounted_same w); [done..|exact Ha]).
Qed.

Lemma keeps_sql_read {X} h (q : sql X) : (∀ now u d, (q now u d).2 = d) → keeps h (exec_sql q).
Proof. intros Hq. apply keeps_same_jobs. intros. by rewrite Hq. Qed.

(** A command that moves nothing in or out of a queue. *)
Lemma keeps_redis_cmd {X} h (c : Z → R → X * R) :
  (∀ now s q m, copies (c now s).2 q m = copies s q m) → keeps h (redis_cmd c).
Proof.
  intros Hc e w hs _ Ha. specialize (Hc (r_now e) (w_redis w)). simpl.
  destruct (c _ _) as [x s']. destruct (r_fault e); simpl;
    (apply passes; eapply (accounted_same w); [done|done|first [exact Hc|done]|exact Ha]).
Qed.

Lemma keeps_redis_read {X} h (c : Z → R → X * R) :
  (∀ now s, (c now s).2 = s) → keeps h (redis_cmd c).
Proof. intros Hc. apply keeps_redis_cmd. intros. by rewrite Hc. Qed.

(** *** The statements on [jobs] *)

(** What the ledger says of a job in some hand. *)
Lemma held_row w h hs id :
  accounted w (h :: hs) → holds id h = 1%nat →
  ∃ j, tbl_jobs (w_db w) !! id = Some j
     ∧ settles (Job.Status j) (copies (w_redis w) (Job.QueueName j) (uuid_String id))
         (1 + held id hs) (runs id h + running id hs).
Proof.
  intros [Hl _ _] Hh. specialize (Hl id). unfold ledger, held, running in *.
  cbn [sum_list_with] in *. rewrite Hh in Hl. destruct (tbl_jobs (w_db w) !! id) as [j|]; [eauto|lia].
Qed.

(** The hands of the other processes, when the job is not one of theirs. *)
Lemma alone w h hs id j :
  accounted w (h :: hs) → tbl_jobs (w_db w) !! id = Some j → holds id h = 1%nat →
  Job.Status j ≠ StatusProcessing ∨ runs id h = 1%nat → running id hs = 0%nat.
Proof.
  intros Ha Hj Hh [Hs|Hr].
  - destruct Ha as [_ [_ Ht]%Forall_cons _]. by eapply running_idle.
  - destruct (held_row _ _ _ _ Ha Hh) as (j' & _ & Hset). pose proof (running_held id hs).
    unfold settles in Hset. rewrite Hr in Hset. repeat case_decide; lia.
Qed.

Lemma tends_CreateJob job :
  Job.Status job = StatusPending →
  tends Empty (CreateJob job) (λ r h', match r with
    | inl _ => h' = Empty
    | inr x => h' = Carrying (Job.ID x) (Job.QueueName x)
    end).
Proof.
  intros Hs. apply tends_sql; [|done]. intros now u w hs Hi Ha. unfold insert_job_stmt.
  assert (accounted (with_db (w_db w) w) (Empty :: hs)) as Hsame by by rewrite world_eta.
  destruct (in_int32 _); cbn [negb]; [|by exists Empty].
  destruct (jsonb_param _) as [err|pl]; [by exists Empty|].
  destruct (tbl_jobs (w_db w) !! Job.ID job) as [j1|] eqn:E1; [destruct pl; by exists Empty|].
  destruct (tbl_tenants _ !! _) as [tn|]; [|destruct pl; by exists Empty].
  destruct pl; [by exists Empty|..]; (eexists; split; [|reflexivity]);
    by eapply (accounted_create (Job.ID job) _ w).
Qed.

Lemma tends_ClaimJob id q :
  tends (Carrying id q) (ClaimJob id) (λ r h', match r with
    | inl _ => h' = Empty
    | inr x => h' = Running x ∧ Job.ID x = id ∧ 0 ≤ Job.RetryCount x < 2 ^ 31 - 1
    end).
Proof.
  eapply tends_bind with (Q := λ r h', match r with
    | inl _ => h' = Empty
    | inr x => h' = Running x ∧ Job.ID x = id ∧ 0 ≤ Job.RetryCount x < 2 ^ 31 - 1
    end).
  2: { intros [err|x] h'; [|done]. intros ->. by destruct (errors_Is _ _). }
  apply tends_sql; [|done]. intros now u w hs Hi Ha.
  assert (holds id (Carrying id q) = 1%nat) as Hh.
  { simpl. unfold indicator. by rewrite decide_True. }
  destruct (held_row _ _ _ id Ha Hh) as (j & Hj & Hset).
  pose proof (inv_jobs_keyed _ (proj1 Hi) _ _ Hj) as Hid.
  pose proof (inv_budget _ (proj1 Hi) _ _ Hj) as Hb.
  rewrite claim_job_stmt_spec, Hj by apply Hi.
  case_decide as Hs.
  - exists (Running (claimed_row now j)). split.
    + eapply (accounted_move id j (claimed_row now j) w); try done.
      * by rewrite Hs.
      * left. eapply alone; [exact Ha|done|done|]. left. intros E. status_neq.
      * intros id' Hne. simpl. rewrite Hid. unfold indicator. by rewrite !decide_False.
      * intros x r _ Hr. rewrite Hh. unfold settles. rewrite Hs. simpl. unfold indicator.
        rewrite decide_True by done. lia.
      * simpl. rewrite Hid. by rewrite lookup_insert_eq.
      * rewrite Hs. done.
      * rewrite Hs. simpl. lia.
    + split_and!; [done|done|..]; destruct Hb as (Hm & H0' & _ & Hn); simpl; [done|].
      specialize (Hn ltac:(by rewrite Hs)). lia.
  - exists Empty. split; [|done]. rewrite world_eta.
    pose proof (accounted_move id j j w w (Carrying id q) Empty hs Ha Hj) as Hm.
    apply Hm; try done; [by rewrite insert_id|by right|..].
    + intros id' Hne. simpl. unfold indicator. by rewrite decide_False.
    + intros x r _ Hr. rewrite Hh. simpl. unfold settles. repeat case_decide; try done; lia.
Qed.
(** The outcome of an attempt: the job is to be queued again, or counted. *)
Definition passed_on (j j' : Job) : hand :=
  if decide (Job.Status j' = StatusPending) then Carrying (Job.ID j) (Job.QueueName j)
  else Counting (Job.Status j').

Lemma running_row w j hs :
  accounted w (Running j :: hs) →
  tbl_jobs (w_db w) !! Job.ID j = Some j ∧ Job.Status j = StatusProcessing.
Proof. intros [_ [Ht _]%Forall_cons _]. exact Ht. Qed.

Lemma accounted_outcome w j j' d' hs :
  accounted w (Running j :: hs) → tbl_jobs d' = <[Job.ID j := j']> (tbl_jobs (w_db w)) →
  Job.QueueName j' = Job.QueueName j →
  Job.Status j' ∈ [StatusPending; StatusCompleted; StatusFailed] →
  accounted (with_db d' w) (passed_on j j' :: hs).
Proof.
  intros Ha Ed Eq Hs'. pose proof (running_row _ _ _ Ha) as [Hj Hs].
  assert (holds (Job.ID j) (Running j) = 1%nat) as Hh.
  { simpl. unfold indicator. by rewrite decide_True. }
  assert (running (Job.ID j) hs = 0%nat) as Hrun.
  { eapply alone; [exact Ha|done|done|]. by right. }
  assert (∀ id', id' ≠ Job.ID j → holds id' (passed_on j j') = 0%nat ∧ runs id' (passed_on j j') = 0%nat) as Hoth.
  { intros id' Hne. unfold passed_on. case_decide; [|done]. simpl. unfold indicator.
    by rewrite decide_False. }
  rewrite !elem_of_cons, elem_of_nil in Hs'.
  eapply (accounted_move (Job.ID j) j j' w); try done.
  - intros E. status_neq.
  - by left.
  - intros id' Hne. destruct (Hoth id' Hne) as [-> ->]. simpl. unfold indicator.
    by rewrite decide_False.
  - intros x r _ Hr. rewrite Hh. unfold settles at 1, passed_on. rewrite Hs.
    cbn [decide StatusPending StatusProcessing]. simpl. intros (Hn & Hx & _). rewrite Hn.
    assert (x = 0%nat) as -> by lia. assert (r = 0%nat) as -> by lia.
    destruct Hs' as [E|[E|[E|[]]]]; rewrite E; unfold settles; simpl; unfold indicator; [|done..].
    by rewrite decide_True.
  - unfold passed_on. case_decide; [|done]. exists j'. simpl. rewrite Ed. by rewrite lookup_insert_eq.
  - rewrite Hs. unfold passed_on. destruct Hs' as [E|[E|[E|[]]]]; rewrite E; done.
  - rewrite Hs. unfold passed_on. destruct Hs' as [E|[E|[E|[]]]]; rewrite E; simpl; unfold indicator; simpl; lia.
Qed.

(** What a process has in hand once the outcome is recorded; nothing after an error. *)
Definition recorded (h' : hand) (o : option error) h : Prop :=
  h = match o with None => h' | Some _ => Empty end.

Lemma tends_MarkCompleted j res res' :
  jsonb_param res = inr res' →
  tends (Running j) (MarkCompleted (Job.ID j) res) (recorded (Counting StatusCompleted)).
Proof.
  intros Hres. eapply tends_bind with (Q := λ r, recorded (Counting StatusCompleted) (err_of r));
    [|by intros r h'].
  apply tends_sql; [|done]. intros now u w hs Hi Ha. pose proof (running_row _ _ _ Ha) as [Hj _].
  rewrite mark_completed_stmt_spec, Hres, Hj by apply Hi.
  exists (Counting StatusCompleted). split; [|done].
  apply (accounted_outcome w j (completed_row now res' j)); [done|done|done|set_solver].
Qed.

Lemma tends_MarkForRetry j n msg :
  in_int32 n = true →
  tends (Running j) (MarkForRetry (Job.ID j) n msg)
    (recorded (Carrying (Job.ID j) (Job.QueueName j))).
Proof.
  intros Hn. eapply tends_bind
    with (Q := λ r, recorded (Carrying (Job.ID j) (Job.QueueName j)) (err_of r));
    [|by intros r h'].
  apply tends_sql; [|done]. intros now u w hs Hi Ha. pose proof (running_row _ _ _ Ha) as [Hj _].
  rewrite mark_for_retry_stmt_spec, Hn, Hj by apply Hi.
  exists (Carrying (Job.ID j) (Job.QueueName j)). split; [|done].
  apply (accounted_outcome w j (retried_row now n msg j)); [done|done|done|set_solver].
Qed.

Lemma tends_DeadLetter j n msg :
  in_int32 n = true →
  tends (Running j) (DeadLetter (Job.ID j) n msg) (recorded (Counting StatusFailed)).
Proof.
  intros Hn. eapply tends_bind with (Q := λ r, recorded (Counting StatusFailed) (err_of r));
    [|by intros r h'].
  assert (∀ now w hs, accounted w (Running j :: hs) →
    accounted (with_db (dead_lettered (w_db w) now n msg j) w) (Counting StatusFailed :: hs)) as Hdead.
  { intros now w hs Ha.
    apply (accounted_outcome w j (failed_row now n msg j)); [done|done|done|set_solver]. }
  apply tends_tx; [..|done].
  - intros now us w hs Hi Ha. pose proof (running_row _ _ _ Ha) as [Hj _].
    rewrite (dead_letter_tx_ok _ _ j) by (done || apply Hi).
    exists (Counting StatusFailed). split; [by apply Hdead|done].
  - intros fs now us w hs Hi Ha. pose proof (running_row _ _ _ Ha) as [Hj _].
    destruct (dead_letter_tx_atomic (w_db w) j n msg fs now us) as [[e ->]|[[e ->]| ->]];
      [apply (proj1 Hi)|done|done|..].
    + exists (Running j). rewrite world_eta. eauto.
    + exists (Counting StatusFailed). split; [by apply Hdead|eauto].
    + exists (Counting StatusFailed). split; [by apply Hdead|by right].
Qed.

(** A failed job is taken up again. *)
Lemma accounted_revive w j now hs :
  inv w → accounted w (Empty :: hs) → tbl_jobs (w_db w) !! Job.ID j = Some j →
  Job.Status j = StatusFailed →
  accounted (with_db (revived (w_db w) now j) w) (Carrying (Job.ID j) (Job.QueueName j) :: hs).
Proof.
  intros Hi Ha Hj Hs. eapply (accounted_move (Job.ID j) j (reset_row now j) w); try done.
  - intros E. status_neq.
  - left. destruct Ha as [_ [_ Ht]%Forall_cons _]. eapply running_idle; [done|exact Hj|].
    intros E. status_neq.
  - intros id' Hne. simpl. unfold indicator. by rewrite decide_False.
  - intros x r _ Hr. unfold settles. rewrite Hs. simpl. unfold indicator. rewrite decide_True by done. lia.
  - exists (reset_row now j). simpl. by rewrite lookup_insert_eq.
  - rewrite Hs. done.
  - rewrite Hs. simpl. lia.
Qed.

Lemma visible_row w tid id j :
  inv w → visible tid id (w_db w) = Some j → tbl_jobs (w_db w) !! Job.ID j = Some j.
Proof.
  intros Hi Hv. unfold visible in Hv. destruct (tbl_jobs (w_db w) !! id) as [j2|] eqn:Hj; [|done].
  case_decide; simplify_eq. by rewrite (inv_jobs_keyed _ (proj1 Hi) _ _ Hj).
Qed.

Lemma tends_RetryJob tid id :
  tends Empty (RetryJob tid id) (λ r h', match r with
    | inl _ => h' = Empty
    | inr x => h' = Carrying (Job.ID x) (Job.QueueName x)
    end).
Proof.
  apply tends_tx; [..|done].
  - intros now us w hs Hi Ha. rewrite retry_job_tx_ok by apply Hi.
    destruct (visible tid id (w_db w)) as [j|] eqn:Hv; [|exists Empty; by rewrite world_eta].
    case_decide as Hs; [|exists Empty; by rewrite world_eta].
    exists (Carrying (Job.ID j) (Job.QueueName j)). split; [|done].
    apply accounted_revive; [done|done|by eapply visible_row|done].
  - intros fs now us w hs Hi Ha.
    pose proof (retry_job_tx_atomic (w_db w) tid id fs now us) as Ht.
    specialize (Ht ltac:(apply Hi) ltac:(apply Hi)). cbn zeta in Ht.
    assert (∀ err : error, ∃ h', accounted (with_db (w_db w) w) (h' :: hs)
      ∧ ((∃ err', @inl error Job err = inl err') ∨ h' = Empty)) as Hsame.
    { intros err. exists Empty. rewrite world_eta. eauto. }
    destruct (visible tid id (w_db w)) as [j|] eqn:Hv; [|destruct Ht as [e ->]; apply Hsame].
    case_decide as Hs; [|destruct Ht as [e ->]; apply Hsame].
    assert (accounted (with_db (revived (w_db w) now j) w)
              (Carrying (Job.ID j) (Job.QueueName j) :: hs)) as Hrev.
    { apply accounted_revive; [done|done|by eapply visible_row|done]. }
    destruct Ht as [[e ->]|[[e ->]| ->]]; [apply Hsame|..].
    + eexists. split; [exact Hrev|eauto].
    + eexists. split; [exact Hrev|by right].
Qed.

Lemma tends_CancelJob tid id :
  tends Empty (CancelJob tid id) (λ r h', match r with
    | inl _ => h' = Empty
    | inr x => h' = Removing (Job.ID x)
    end).
Proof.
  eapply tends_bind with (Q := λ r h', match r with
    | inl _ => h' = Empty
    | inr x => h' = Removing (Job.ID x)
    end).
  - apply tends_sql; [|done]. intros now u w hs Hi Ha. rewrite cancel_job_stmt_spec by apply Hi.
    rewrite <- (world_eta w) in Ha.
    destruct (tbl_jobs (w_db w) !! id) as [j|] eqn:Hj; [|by exists Empty].
    case_decide as Hs; [destruct Hs as [_ Hs]|by exists Empty]. rewrite world_eta in Ha.
    pose proof (inv_jobs_keyed _ (proj1 Hi) _ _ Hj) as Hid.
    eexists. split; [|reflexivity].
    eapply (accounted_move id j (cancelled_row now j) w); try done.
    + left. destruct Ha as [_ [_ Ht]%Forall_cons _]. eapply running_idle; [done|exact Hj|].
      intros E. status_neq.
    + intros x r _ Hr. unfold settles. rewrite Hs. simpl. lia.
    + exists (cancelled_row now j). simpl. rewrite Hid. by rewrite lookup_insert_eq.
    + rewrite Hs. done.
    + rewrite Hs. simpl. lia.
  - intros [err|x] h'; [|done]. intros ->. destruct (errors_Is _ _); [|done].
    apply tends_then; [|by intros [|[|]]]. apply tends_then; [by apply keeps_sql_read|done].
Qed.

(** *** Redis *)

Lemma copies_LPUSH s q m q' m' :
  copies (LPUSH (queue_key q) m s) q' m'
  = (copies s q' m' + indicator (q = q' ∧ m = m'))%nat.
Proof.
  unfold copies. rewrite list_LPUSH, zset_LPUSH.
  destruct (decide (queue_key q = queue_key q')) as [E|E].
  - apply queue_key_inj in E as <-. rewrite filter_cons. destruct (decide (m = m')) as [<-|Hne].
    + rewrite (indicator_yes (q = q ∧ m = m)) by done. simpl. lia.
    + rewrite (indicator_no (q = q ∧ m = m')) by tauto. lia.
  - rewrite (indicator_no (q = q' ∧ m = m')); [lia|]. by intros [-> _].
Qed.

Lemma copies_ZADD s q sc m q' m' :
  rd_zset s (delayed_key q) !! m = None →
  copies (ZADD (delayed_key q) sc m s) q' m'
  = (copies s q' m' + indicator (q = q' ∧ m = m'))%nat.
Proof.
  intros Hnone. unfold copies. rewrite list_ZADD, zset_ZADD.
  destruct (decide (delayed_key q = delayed_key q')) as [E|E].
  - apply delayed_key_inj in E as <-. rewrite lookup_insert.
    destruct (decide (m = m')) as [<-|Hne].
    + rewrite Hnone, (indicator_yes (q = q ∧ m = m)) by done.
      rewrite indicator_yes by done. rewrite indicator_no by by intros [? ?]. lia.
    + rewrite (indicator_no (q = q ∧ m = m')) by tauto. lia.
  - rewrite (indicator_no (q = q' ∧ m = m')); [lia|]. by intros [-> _].
Qed.

Lemma copies_LREM s q m q' m' :
  copies (LREM (queue_key q) m s) q' m' = copies s q' m' ∨
  m' = m ∧ (copies (LREM (queue_key q) m s) q' m' ≤ copies s q' m')%nat.
Proof.
  unfold copies. rewrite list_LREM, zset_LREM.
  destruct (decide (queue_key q = queue_key q')) as [E|E]; [|by left].
  apply queue_key_inj in E as <-. destruct (decide (m' = m)) as [->|Hne].
  - right. split; [done|]. rewrite filter_none_in; [simpl; lia|].
    intros x [? _]%list_elem_of_filter. done.
  - left. f_equal. rewrite list_filter_filter. f_equal. apply filter_iff_in. naive_solver.
Qed.

Lemma copies_ZREM s q m q' m' :
  copies (ZREM (delayed_key q) m s) q' m' = copies s q' m' ∨
  m' = m ∧ (copies (ZREM (delayed_key q) m s) q' m' ≤ copies s q' m')%nat.
Proof.
  unfold copies. rewrite list_ZREM, zset_ZREM.
  destruct (decide (delayed_key q = delayed_key q')) as [E|E]; [|by left].
  apply delayed_key_inj in E as <-. rewrite lookup_delete.
  destruct (decide (m = m')) as [->|Hne]; [right|by left].
  split; [done|]. unfold indicator. rewrite decide_False by by intros [? ?]. lia.
Qed.

(** What is carried is put back. *)
Lemma accounted_put_back w s' id q hs :
  accounted w (Carrying id q :: hs) →
  (∀ q' m', copies s' q' m' = copies (w_redis w) q' m' + indicator (q = q' ∧ uuid_String id = m'))%nat →
  accounted (with_redis s' w) (Empty :: hs).
Proof.
  intros Ha Hc.
  assert (holds id (Carrying id q) = 1%nat) as Hh.
  { simpl. unfold indicator. by rewrite decide_True. }
  destruct (held_row _ _ _ id Ha Hh) as (j & Hj & _).
  assert (Job.QueueName j = q) as Eq.
  { destruct Ha as [_ [(j2 & Hj2 & Hq) _]%Forall_cons _]. congruence. }
  eapply (accounted_move id j j w); try done.
  - simpl. by rewrite insert_id.
  - by right.
  - intros id' q' Hne. simpl. rewrite Hc. unfold indicator. rewrite decide_False; [lia|].
    intros [_ E]. by apply uuid_String_inj in E.
  - intros id' Hne. simpl. unfold indicator. by rewrite decide_False.
  - intros x r _ Hr. rewrite Hh. simpl. rewrite Hc, Eq. unfold indicator.
    rewrite decide_True by done. unfold settles. repeat case_decide; lia.
Qed.

Lemma tends_Enqueue id q :
  tends (Carrying id q) (Queue.Enqueue q (uuid_String id)) (λ _ h', h' = Empty).
Proof.
  eapply tends_bind; [|by intros r h' E; exact E]. apply tends_redis; [|done]. intros now w hs Hi Ha.
  exists Empty. split; [|done]. eapply accounted_put_back; [exact Ha|]. intros q' m'.
  apply copies_LPUSH.
Qed.

Lemma tends_EnqueueDelayed id q t :
  tends (Carrying id q) (EnqueueDelayed q (uuid_String id) t) (λ _ h', h' = Empty).
Proof.
  eapply tends_bind; [|by intros r h' E; exact E]. apply tends_redis; [|done]. intros now w hs Hi Ha.
  exists Empty. split; [|done]. eapply accounted_put_back; [exact Ha|]. intros q' m'.
  apply copies_ZADD.
  assert (holds id (Carrying id q) = 1%nat) as Hh.
  { simpl. unfold indicator. by rewrite decide_True. }
  destruct (held_row _ _ _ id Ha Hh) as (j & Hj & Hset).
  assert (Job.QueueName j = q) as Eq.
  { destruct Ha as [_ [(j2 & Hj2 & Hq) _]%Forall_cons _]. congruence. }
  assert (copies (w_redis w) q (uuid_String id) = 0%nat) as Hc.
  { rewrite Eq in Hset. unfold settles in Hset. repeat case_decide; lia. }
  unfold copies, indicator in Hc. apply eq_None_not_Some. intros Hz.
  rewrite decide_True in Hc by exact Hz. lia.
Qed.

Lemma keeps_Heartbeat h i : keeps h (Heartbeat i).
Proof.
  apply tends_then; [|done]. apply keeps_redis_cmd. intros now s q m. unfold copies. simpl.
  by rewrite list_SETEX, zset_SETEX.
Qed.

Lemma keeps_RemoveWorker h i : keeps h (RemoveWorker i).
Proof.
  apply tends_then; [|done]. apply keeps_redis_cmd. intros now s q m. unfold copies. simpl.
  rewrite list_DEL, zset_DEL. by rewrite !decide_False by done.
Qed.

(** An id is taken from a queue. *)
Lemma accounted_take w s' id q hs j :
  accounted w (Empty :: hs) → tbl_jobs (w_db w) !! id = Some j → Job.QueueName j = q →
  (∀ q' m', copies (w_redis w) q' m' = copies s' q' m' + indicator (q = q' ∧ uuid_String id = m'))%nat →
  accounted (with_redis s' w) (Carrying id q :: hs).
Proof.
  intros Ha Hj Eq Hc. eapply (accounted_move id j j w); try done.
  - simpl. by rewrite insert_id.
  - by right.
  - intros id' q' Hne. simpl. rewrite Hc, indicator_no; [lia|].
    intros [_ E]. by apply uuid_String_inj in E.
  - intros id' Hne. simpl. by rewrite indicator_no.
  - intros x r _ Hr. rewrite Hc. simpl. rewrite Eq, !indicator_yes by done.
    unfold settles. repeat case_decide; lia.
  - by exists j.
Qed.

Lemma copies_pop s s' q l m q' m' :
  rd_list s (queue_key q) = l ++ [m] →
  (∀ k, rd_list s' k = if decide (queue_key q = k) then l else rd_list s k) →
  (∀ k, rd_zset s' k = rd_zset s k) →
  copies s q' m' = (copies s' q' m' + indicator (q = q' ∧ m = m'))%nat.
Proof.
  intros El Hl Hz. unfold copies. rewrite Hl, Hz.
  destruct (decide (queue_key q = queue_key q')) as [E|E].
  - apply queue_key_inj in E as <-. rewrite El, filter_app, length_app. cbn [filter list_filter].
    destruct (decide (m = m')) as [<-|Hne].
    + rewrite (indicator_yes (q = q ∧ m = m)) by done. simpl. lia.
    + rewrite (indicator_no (q = q ∧ m = m')) by tauto. simpl. lia.
  - rewrite (indicator_no (q = q' ∧ m = m')); [lia|]. by intros [-> _].
Qed.

Lemma tends_Dequeue qs :
  tends Empty (Dequeue qs) (λ r h', match r with
    | inl _ => h' = Empty
    | inr (m, _) => ∃ id q, m = uuid_String id ∧ h' = Carrying id q
    end).
Proof.
  unfold Dequeue. set (ks := _ <$> qs). assert (ks = queue_key <$> qs) as -> by done.
  eapply tends_bind with (Q := λ r h', match r with
    | inr (Some (k, m)) => ∃ id q, m = uuid_String id ∧ h' = Carrying id q
    | _ => h' = Empty
    end); [|by intros [err|[[k m]|]] h'].
  apply tends_redis; [|done]. intros now w hs Hi Ha.
  pose proof (BRPOP_spec (queue_key <$> qs) (w_redis w)) as Hspec.
  destruct (first_nonempty _ _) as [[[k l] m]|] eqn:E.
  2: { rewrite Hspec. exists Empty. split; [by destruct w|done]. }
  destruct Hspec as (s' & -> & Hl & Hz & _).
  apply first_nonempty_Some in E as [(q & -> & _)%list_elem_of_fmap Ek].
  destruct (proj2 Hi q m) as (id & j & -> & Hj & Eq); [left; rewrite Ek; set_solver|].
  exists (Carrying id q). split; [|by exists id, q].
  eapply accounted_take; [exact Ha|exact Hj|done|]. intros q' m'. by eapply copies_pop.
Qed.

Lemma length_filter_NoDup (m : string) (l : list string) :
  NoDup l → length (filter (λ x, x = m) l) = indicator (m ∈ l).
Proof.
  induction 1 as [|x l Hx Hl IH]; [by rewrite indicator_no by apply not_elem_of_nil|].
  rewrite filter_cons. destruct (decide (x = m)) as [->|Hne].
  - simpl. rewrite IH, indicator_no, indicator_yes by (done || by left). done.
  - rewrite IH. unfold indicator. apply decide_ext. set_solver.
Qed.

Lemma NoDup_due z max lim l :
  l ≡ₚ due_entries z max → NoDup (limit_take lim l).*1.
Proof.
  intros Hl. assert (NoDup l.*1) as Hn.
  { rewrite Hl. apply due_entries_NoDup. }
  unfold limit_take. destruct (lim <? 0); [done|].
  eapply sublist_NoDup; [exact Hn|]. apply fmap_sublist, sublist_take.
Qed.

Lemma copies_promote s q now lim q' m :
  copies (promoteScript (delayed_key q) (queue_key q) now lim s).2 q' m = copies s q' m.
Proof.
  unfold promoteScript. cbn [snd].
  destruct (ZRANGEBYSCORE_spec (delayed_key q) (float64_of_int now) lim s) as (l & Hl & _ & ->).
  pose proof (NoDup_due _ _ lim _ Hl) as Hnd.
  assert (∀ m, m ∈ (limit_take lim l).*1 → is_Some (rd_zset s (delayed_key q) !! m)) as Hin.
  { intros m' ([m2 d] & -> & Hin)%list_elem_of_fmap. simpl.
    assert ((m2, d) ∈ l) as Hin'.
    { unfold limit_take in Hin. destruct (lim <? 0); [done|]. by eapply (elem_of_take_drop _ 0), Hin. }
    rewrite Hl in Hin'. apply due_entries_elem in Hin' as [-> _]. by eexists. }
  destruct (move_all (delayed_key q) (queue_key q) (limit_take lim l).*1 s) as (Hlist & Hz & _).
  unfold copies. rewrite Hlist, Hz. destruct (decide (q = q')) as [<-|Hne].
  - rewrite decide_True by done. rewrite filter_app, length_app, length_filter_NoDup
      by by rewrite reverse_Permutation.
    destruct (decide (m ∈ (limit_take lim l).*1)) as [Hm|Hm].
    + rewrite decide_True, (indicator_no (is_Some None)) by (done || by intros [? ?]).
      rewrite (indicator_yes (m ∈ _)), (indicator_yes (is_Some _)); [lia|auto|by apply elem_of_reverse].
    + rewrite decide_False by tauto. rewrite (indicator_no (m ∈ _)); [lia|]. by rewrite elem_of_reverse.
  - rewrite !decide_False; [done|..].
    + intros [E _]. by apply delayed_key_inj in E.
    + intros E. by apply queue_key_inj in E.
Qed.

Lemma keeps_PromoteDue h q now lim : keeps h (PromoteDue q now lim).
Proof.
  apply tends_then; [|done]. apply keeps_redis_cmd. intros n s q' m. apply copies_promote.
Qed.

(** A cancelled job's id may go. *)
Lemma accounted_remove w s' id hs h' :
  accounted w (Removing id :: hs) → h' = Removing id ∨ h' = Empty →
  (∀ q m, copies s' q m = copies (w_redis w) q m
          ∨ m = uuid_String id ∧ copies s' q m ≤ copies (w_redis w) q m)%nat →
  accounted (with_redis s' w) (h' :: hs).
Proof.
  intros Ha Hh Hc. pose proof (acc_truth _ _ Ha) as [(j & Hj & Hs) _]%Forall_cons.
  eapply (accounted_move id j j w); try done; try (by destruct Hh as [-> | ->]).
  - simpl. by rewrite insert_id.
  - by right.
  - intros id' q Hne. destruct (Hc q (uuid_String id')) as [E|[E _]]; [done|].
    by apply uuid_String_inj in E.
  - intros x r _ Hr. assert (holds id h' = 0%nat ∧ runs id h' = 0%nat) as [-> ->] by by destruct Hh as [-> | ->].
    unfold settles. rewrite Hs. simpl. intros Hx.
    destruct (Hc (Job.QueueName j) (uuid_String id)) as [E|[_ E]]; lia.
  - destruct Hh as [-> | ->]; [by exists j|done].
Qed.

Lemma tends_Remove id q :
  tends (Removing id) (Remove q (uuid_String id)) (λ _ h', h' = Removing id ∨ h' = Empty).
Proof.
  eapply tends_bind with (Q := λ r h', h' = Removing id ∨ is_Some (err_of r) ∧ h' = Empty).
  - apply tends_redis; [|by eauto]. intros now w hs Hi Ha. exists (Removing id). split; [|by left].
    eapply accounted_remove; [exact Ha|by left|]. intros q' m. apply copies_LREM.
  - intros [err|[]] h'; [by intros [->|[_ ->]]; [left|right]|]. intros [->|[[? ?] _]]; [|done].
    eapply tends_bind with (Q := λ _ h', h' = Empty); [|by right].
    apply tends_redis; [|done]. intros now w hs Hi Ha. exists Empty. split; [|done].
    eapply accounted_remove; [exact Ha|by right|]. intros q' m. apply copies_ZREM.
Qed.

(** *** Metrics *)

Lemma tends_IncProcessed st : st = StatusCompleted ∨ st = StatusFailed →
  tends (Counting st) (request (OMetric (R := R) (IncrementedProcessed st))) (λ _ h', h' = Empty).
Proof.
  intros Hst e w hs _ [Hl [_ Ht]%Forall_cons [Hc Hf]]. apply passes. split.
  - intros id. specialize (Hl id). exact Hl.
  - by constructor.
  - unfold tallied, processed_total, counting in *. cbn [w_metrics w_db] in *.
    rewrite !filter_cons. cbn [sum_list_with counts] in *.
    destruct Hst as [-> | ->]; simpl in *; unfold indicator in *; simpl in *; lia.
Qed.

Lemma keeps_ObserveLatency h ty d : keeps h (request (OMetric (R := R) (ObservedLatency ty d))).
Proof.
  intros e w hs _ [Hl Ht Hc]. apply passes. split; [exact Hl|exact Ht|].
  unfold tallied, processed_total in *. cbn [w_metrics w_db] in *.
  by rewrite !filter_cons_False by done.
Qed.
End Custody.
