(* ===== verification/Balance.v ===== *)
(** * A failure loses at most one job, and the counters agree with the table

    Every program keeps the balance of [Custody]. So in a run of the system in which the requests
    that fail and the processes that are killed are counted, every job to be run is on its queue
    once, or in the hands of one process, or lost, and as many are lost at most as there were
    failures; and [jobs_processed_total] counts the jobs that came to an end. *)
From S2P Require Import Prelude GoStd Models Interfaces Db Effects Store Queue Schedules.
From S2P Require Import Enqueue Registry Worker Scheduler Http JobsApi AuthApi KeysApi AdminApi.
From S2P Require Import ApiMetrics Routes Accounts Auth Stats Lifecycle StoreFacts AccountsFacts.
From S2P Require Import QueueFacts Rely Safety SafetyApi System Samples Demo WorkerMetrics Custody.
Open Scope Z_scope.

Section Balance.
Context `{Postgres} `{UUIDLib} `{!UUIDLaws} `{GoText} `{Bcrypt} `{Router} {R : Type}.
Context `{Redis R} `{!RedisLaws R} {Sch : Type} `{Cron Sch}.

(** Every result of a handler can be stored in a JSONB column. *)
Definition storable (registry : Registry R) : Prop := ∀ ty raw,
  answers (λ _, True)
    (λ res, match res with
            | inl _ => True
            | inr encoded => ∃ res', jsonb_param encoded = inr res'
            end) (Dispatch registry ty raw).

(** ** The worker *)

Lemma keeps_loop h n (b : prog R bool) : keeps h b → keeps h (loop n b).
Proof.
  intros Hb. induction n as [|n IH]; [done|]. cbn [loop].
  apply tends_then; [done|]. by intros [|].
Qed.

Lemma tends_applyDefaults job :
  Job.Status job = EmptyString →
  tends Empty (applyDefaults (R := R) job) (λ job' h', h' = Empty ∧ Job.Status job' = StatusPending).
Proof.
  intros Hs. eapply keeps_quiet_answers with (F := λ _, True); [apply quiet_applyDefaults|].
  unfold applyDefaults. eapply answers_bind with (Q := λ job', Job.Status job' = EmptyString).
  - case_decide; [|done]. by intros u.
  - intros job' Hs'. simpl. rewrite decide_True; [done|]. destruct (Job.Payload _); case_decide; done.
Qed.

Lemma keeps_Submit job : Job.Status job = EmptyString → keeps Empty (Submit (R := R) job).
Proof.
  intros Hs. eapply tends_bind; [by apply tends_applyDefaults|]. intros job' h' [-> Hs'].
  case_decide; [done|]. eapply tends_bind; [by apply tends_CreateJob|].
  intros [err|r] h' ->; [done|]. eapply tends_bind; [apply tends_Enqueue|]. by intros e h' ->.
Qed.

Lemma tends_handleFailure j err :
  0 ≤ Job.RetryCount j < 2 ^ 31 - 1 →
  tends (Running j) (handleFailure (R := R) j err) (λ _ h', h' = Empty).
Proof.
  intros Hc. unfold handleFailure. rewrite wrap64_id by lia.
  assert (in_int32 (Job.RetryCount j + 1) = true) as Hn by (apply in_int32_spec; lia).
  destruct (_ <=? _).
  - eapply tends_bind; [by apply tends_DeadLetter|]. intros [e|] h' ->; [done|].
    eapply tends_bind; [apply tends_IncProcessed; by right|]. by intros [] h' ->.
  - destruct (backoffFor _) as [b|]; [|done].
    eapply tends_bind; [by apply tends_MarkForRetry|]. intros [e|] h' ->; [done|].
    apply tends_then; [apply keeps_quiet, quiet_now|]. intros now.
    eapply tends_bind; [apply tends_EnqueueDelayed|]. by intros e h' ->.
Qed.

Lemma tends_process registry id q :
  quiet_registry registry → storable registry →
  tends (Carrying id q) (process registry (uuid_String id)) (λ _ h', h' = Empty).
Proof.
  intros Hq Hst. unfold process. rewrite uuid_Parse_String.
  eapply tends_bind; [apply tends_ClaimJob|].
  intros [err|j] h'; [intros ->; by destruct (errors_Is _ _)|]. intros (-> & <- & Hc).
  apply tends_then; [apply keeps_quiet, quiet_now|]. intros start.
  eapply tends_bind; [by eapply keeps_quiet_answers; [apply quiet_Dispatch|apply Hst]|].
  intros res h' [-> Hres].
  apply tends_then; [apply keeps_quiet, quiet_now|]. intros stop.
  apply tends_then; [apply keeps_ObserveLatency|]. intros _.
  destruct res as [err|res]; [by apply tends_handleFailure|]. destruct Hres as [res' Hres].
  eapply tends_bind; [by eapply tends_MarkCompleted|]. intros [e|] h' ->; [done|].
  eapply tends_bind; [apply tends_IncProcessed; by left|]. by intros [] h' ->.
Qed.

Lemma keeps_consume n registry qs :
  quiet_registry registry → storable registry → keeps Empty (consume n registry qs).
Proof.
  intros Hq Hst. apply keeps_loop. unfold consume_once.
  apply tends_then; [apply keeps_quiet, quiet_ctx|]. intros [|]; [done|].
  eapply tends_bind; [apply tends_Dequeue|]. intros [err|[m q]] h'.
  - intros ->. destruct (errors_Is _ _); [done|].
    apply tends_then; [apply keeps_quiet, quiet_ctx|]. intros [|]; [done|].
    apply tends_then; [apply keeps_quiet, quiet_wait|done].
  - intros (id & q' & -> & ->). eapply tends_bind; [by apply tends_process|]. by intros o h' ->.
Qed.

Lemma keeps_poll n qs : keeps Empty (poll (R := R) n qs).
Proof.
  apply keeps_loop. unfold poll_once.
  apply tends_then; [apply keeps_quiet, quiet_wait|]. intros [|]; [done|].
  apply tends_then; [apply keeps_quiet, quiet_now|]. intros now.
  induction qs as [|q qs IH]; [done|]. cbn [poll_queues].
  apply tends_then; [apply keeps_PromoteDue|]. intros [err|k]; [|exact IH].
  apply tends_then; [apply keeps_quiet, quiet_ctx|]. by intros [|].
Qed.

Lemma keeps_beat i : keeps Empty (beat (R := R) i).
Proof.
  apply tends_then; [apply keeps_Heartbeat|]. intros [err|]; [|done].
  apply tends_then; [apply keeps_quiet, quiet_ctx|done].
Qed.

Lemma keeps_heartbeat n i : keeps Empty (heartbeat (R := R) n i).
Proof.
  apply tends_then; [apply keeps_beat|]. intros _. apply keeps_loop.
  apply tends_then; [apply keeps_quiet, quiet_wait|]. intros [|].
  - apply tends_then; [apply keeps_RemoveWorker|done].
  - apply tends_then; [apply keeps_beat|done].
Qed.

(** ** The scheduler *)

Lemma keeps_handleSchedules : keeps Empty (handleSchedules (R := R)).
Proof.
  apply tends_then; [apply keeps_quiet, quiet_now|]. intros now.
  apply tends_then; [apply tends_then; [by apply keeps_sql_read|done]|].
  intros [err|scs].
  { apply tends_then; [apply keeps_quiet, quiet_ctx|done]. }
  induction scs as [|sc scs IH]; [done|]. cbn [fire_all].
  apply tends_then; [apply keeps_quiet, quiet_ctx|]. intros [|]; [done|].
  apply tends_then; [|by intros []]. unfold fireSchedule.
  destruct (cron_ParseStandard _) as [e|cron]; [done|].
  apply tends_then; [apply tends_then; [by apply keeps_same_jobs|done]|].
  intros [e|[|]]; [| |done].
  - apply tends_then; [apply keeps_quiet, quiet_ctx|done].
  - apply tends_then; [by apply keeps_Submit|done].
Qed.

Lemma keeps_scheduler n : keeps Empty (scheduler (R := R) n).
Proof.
  apply tends_then; [apply keeps_handleSchedules|]. intros _. apply keeps_loop.
  apply tends_then; [apply keeps_quiet, quiet_wait|]. intros [|]; [done|].
  apply tends_then; [apply keeps_handleSchedules|done].
Qed.

(** ** The API *)

(** A hand with nothing in it that others wait for. *)
Definition light (h : hand) : Prop := h = Empty ∨ ∃ id, h = Removing id.

Lemma keeps_account {X} h (q : sql X) :
  (∀ now u d, account_step d (q now u d).2) → keeps (R := R) h (exec_sql q).
Proof. intros Hq. apply keeps_same_jobs. intros. apply Hq. Qed.

Lemma keeps_create_account email pw :
  keeps (R := R) Empty (exec_tx (create_account_tx email pw)).
Proof.
  assert (∀ fs now us w hs, accounted w (Empty :: hs) →
    let '(x, d') := run_tx (create_account_tx email pw) fs now us (w_db w) in
    accounted (with_db d' w) (Empty :: hs)) as Hany.
  { intros fs now us w hs Ha.
    pose proof (run_tx_keeps account_step (create_account_tx email pw) fs now us (w_db w) _
                  (create_account_tx_step email pw)) as Hst.
    destruct (run_tx _ _ _ _ _) as [x d']. eapply (accounted_same w); [apply Hst|done|done|done]. }
  apply tends_tx; [..|done].
  - intros now us w hs _ Ha. specialize (Hany [] now us w hs Ha).
    destruct (run_tx _ _ _ _ _) as [x d']. by exists Empty.
  - intros fs now us w hs _ Ha. specialize (Hany fs now us w hs Ha).
    destruct (run_tx _ _ _ _ _) as [x d']. exists Empty. auto.
Qed.

Lemma keeps_page args conds lim off : keeps (R := R) Empty (exec_sql (page_stmt args conds lim off)).
Proof. apply keeps_sql_read. intros now u d. unfold page_stmt. by repeat case_match. Qed.

Create HintDb keeps discriminated.
#[local] Hint Resolve keeps_Submit keeps_create_account keeps_page : keeps.

(** Case analysis down to the requests, unfolding the program. *)
Ltac keeps_step :=
  lazymatch goal with
  | |- ∀ _, _ => intros ?
  | |- keeps _ (Ret _) => reflexivity
  | |- keeps _ (Panic _) => exact I
  | |- keeps _ (bind _ _) => apply tends_then
  | |- tends ?h ?p (λ _ h', h' = ?h) => change (keeps h p)
  | |- keeps _ (match ?x with _ => _ end) => destruct x
  | |- keeps _ (let _ := _ in _) => cbv zeta
  | |- keeps _ (src_QueueDepths _) => cbn [src_QueueDepths metricsSource_Source]
  | |- keeps _ (src_ActiveWorkers _) => cbn [src_ActiveWorkers metricsSource_Source]
  | |- keeps _ (redis_cmd _) => by apply keeps_redis_read
  | |- keeps _ (request _) => by apply keeps_quiet, quiet_request
  | |- keeps _ (exec_sql _) =>
      first [by apply keeps_sql_read|solve [apply keeps_account; auto with dispatch]
            |solve [eauto with keeps]]
  | |- keeps _ ?p => first [solve [eauto with keeps]|let f := program_of p in unfold f]
  end.
Ltac keeps_all := repeat first [match goal with IH : context [keeps] |- _ => apply IH end|keeps_step].

Lemma keeps_scan n c seen : keeps Empty (scan_workers (R := R) n c seen).
Proof. revert c seen. induction n as [|n IH]; intros c seen; [done|]. cbn [scan_workers]. keeps_all. Qed.

Lemma keeps_read_depths names : keeps Empty (read_depths (R := R) names).
Proof. induction names as [|q names IH]; [done|]. cbn [read_depths]. keeps_all. Qed.

Lemma keeps_read_lens names acc : keeps Empty (read_lens (R := R) names acc).
Proof. revert acc. induction names as [|q names IH]; intros acc; [done|]. cbn [read_lens]. keeps_all. Qed.

#[local] Hint Resolve keeps_scan keeps_read_depths keeps_read_lens : keeps.

Lemma tends_retryJob r : keeps Empty (retryJob (R := R) r).
Proof.
  unfold retryJob. destruct (tenantID r) as [resp|tid]; [done|].
  destruct (url_job_id r) as [resp|id]; [done|].
  eapply tends_bind; [apply tends_RetryJob|].
  intros [err|x] h' ->; [by repeat destruct (errors_Is _ _)|].
  eapply tends_bind; [apply tends_Enqueue|]. by intros [|] h' ->.
Qed.

Lemma tends_cancelJob r : tends Empty (cancelJob (R := R) r) (λ _ h', light h').
Proof.
  unfold cancelJob. destruct (tenantID r) as [resp|tid]; [by left|].
  destruct (url_job_id r) as [resp|id]; [by left|].
  eapply tends_bind; [apply tends_CancelJob|]. intros [err|x] h' ->; [by left|].
  eapply tends_bind; [apply tends_Remove|]. intros o h' [-> | ->]; [right; by eexists|by left].
Qed.

Lemma keeps_light {A} (p : prog R A) : keeps Empty p → tends Empty p (λ _ h', light h').
Proof. apply tends_mono. by left. Qed.

Lemma tends_RequireAPIKey next r (Q : Response → hand → Prop) :
  (∀ r', tends Empty (next r') Q) → (∀ resp, Q resp Empty) →
  tends Empty (RequireAPIKey (R := R) next r) Q.
Proof.
  intros Hn HQ. unfold RequireAPIKey. destruct (bearerToken _); [|apply HQ].
  destruct (negb _); [apply HQ|]. apply tends_then; [keeps_all|].
  intros [err|[tid kid]]; [destruct (errors_Is _ _); apply HQ|].
  apply tends_then; [keeps_all|]. intros _. apply Hn.
Qed.

Lemma tends_Routes api rt r :
  rt ∈ Routes (R := R) api → tends Empty (rHandler rt r) (λ _ h', light h').
Proof.
  unfold Routes. rewrite !elem_of_cons, elem_of_nil. intros Hrt.
  repeat (destruct Hrt as [->|Hrt]); [..|done]; cbn [rHandler].
  9: { apply tends_RequireAPIKey; [|by left]. intros r'. apply keeps_light, tends_retryJob. }
  9: { apply tends_RequireAPIKey; [apply tends_cancelJob|by left]. }
  all: apply keeps_light; keeps_all.
Qed.

Lemma tends_ServeHTTP api r : tends Empty (ServeHTTP (R := R) api r) (λ _ h', light h').
Proof.
  unfold ServeHTTP, CORS. case_decide; [by left|].
  eapply tends_bind with (Q := λ _ h', light h'); [|done].
  unfold route_request. destruct (chi_route _ _ _) as [n param| |]; [|by left..].
  destruct (Routes api !! n) as [rt|] eqn:Hrt; [|by left].
  apply tends_Routes with api. by eapply list_elem_of_lookup_2.
Qed.

(** ** The system, with its failures counted *)

(** A worker's handlers leave the tables and Redis alone and return what can be stored. *)
Definition diligent (s : service (R := R)) : Prop :=
  admissible s ∧ match s with Consumer _ registry _ => storable registry | _ => True end.

(** A process starts; one makes a request, which may fail; one is killed, which is a failure;
    accounts and schedules are edited. *)
Inductive counted_step : nat → config (R := R) → config → Prop :=
| counted_spawn w ts o s :
    diligent s → counted_step 0 (mkConfig w ts o) (mkConfig w (ts ++ [body s]) o)
| counted_run w ts o t e p p' w' :
    ts !! t = Some p → step e p w = (p', w') →
    counted_step (failures e) (mkConfig w ts o)
      (mkConfig w' (<[t := p']> ts) (claim_owner t (w_db w) (w_db w') o))
| counted_stop w ts o t :
    counted_step 1 (mkConfig w ts o) (mkConfig w (<[t := Ret tt]> ts) o)
| counted_outside w w' ts o :
    outside w w' → w_metrics w' = w_metrics w →
    (∀ k, rd_list (w_redis w') k = rd_list (w_redis w) k) →
    (∀ k, rd_zset (w_redis w') k = rd_zset (w_redis w) k) →
    counted_step 0 (mkConfig w ts o) (mkConfig w' ts o).

(** A run with [n] failures at most. *)
Inductive run_within : nat → config → config → Prop :=
| run_within_refl n c : run_within n c c
| run_within_step n m c c1 c' :
    run_within n c c1 → counted_step m c1 c' → run_within (n + m) c c'.

Lemma run_within_weaken n m c c' : (n ≤ m)%nat → run_within n c c' → run_within m c c'.
Proof.
  intros Hle Hrun. revert m Hle. induction Hrun as [n c|n k c c1 c' _ IH Hstep]; intros m Hle.
  - constructor.
  - replace m with ((m - k) + k)%nat by lia. econstructor; [|exact Hstep]. apply IH. lia.
Qed.

Lemma counted_step_sys n c c' : counted_step n c c' → some_step c c'.
Proof.
  destruct 1 as [w ts o s [? _]|w ts o t e p p' w' ? ?|w ts o t|w w' ts o ? _ _ _].
  - eexists. by apply sys_spawn.
  - eexists. by eapply sys_run.
  - eexists. apply sys_stop.
  - eexists. by apply sys_outside.
Qed.

Lemma reachable_within n c c' : reachable c → run_within n c c' → reachable c'.
Proof.
  intros Hc Hrun. induction Hrun as [|n m c c1 c' _ IH Hstep]; [done|].
  destruct (counted_step_sys _ _ _ Hstep) as [l Hl]. eapply reach_step; [by apply IH|exact Hl].
Qed.

Definition finished (p : prog R unit) : bool := match p with Ret _ => true | _ => false end.

(** Every process has a hand, and keeps the balance with it; [n] hands were dropped at most. *)
Definition balanced (n : nat) (c : config (R := R)) : Prop := ∃ hs dropped,
  (length dropped ≤ n)%nat
  ∧ accounted (c_world c) (hs ++ dropped)
  ∧ Forall2 (λ p h, tends h p (λ _ h', light h')) (c_threads c) hs.

Lemma tends_body s : diligent s → tends Empty (body s) (λ _ h', light h').
Proof.
  destruct s as [n reg qs|n qs|n wid|n|qs n|api r]; cbn [body]; intros [Ha Hst].
  - by apply keeps_light, keeps_consume.
  - apply keeps_light, keeps_poll.
  - apply keeps_light, keeps_heartbeat.
  - apply keeps_light, keeps_scheduler.
  - apply keeps_light. keeps_all.
  - eapply tends_bind; [apply tends_ServeHTTP|]. by intros.
Qed.

Lemma insert_Permutation (hs : list hand) t h h' :
  hs !! t = Some h → <[t := h']> hs ≡ₚ h' :: delete t hs.
Proof.
  intros Hh. assert (<[t := h']> hs !! t = Some h') as Hlk.
  { apply list_lookup_insert_eq. by eapply lookup_lt_Some. }
  rewrite (delete_Permutation _ _ _ Hlk). by rewrite list_delete_insert.
Qed.

Lemma balanced_step n m c c' :
  reachable c → counted_step m c c' → balanced n c → balanced (n + m) c'.
Proof.
  intros [Hi _]%reachable_inv Hstep (hs & dropped & Hn & Ha & Ht).
  destruct Hstep as [w ts o s Hd|w ts o t e p p' w' Hp Hstep|w ts o t|w w' ts o Ho Em El Ez];
    simpl in *.
  - exists (hs ++ [Empty]), dropped. split_and!; [lia| |].
    + rewrite <- app_assoc. cbn [c_world app]. rewrite <- Permutation_middle.
      destruct Ha as [Hl Htr Hc]. split; [exact Hl|by constructor|exact Hc].
    + apply Forall2_app; [done|]. constructor; [by apply tends_body|done].
  - destruct (Forall2_lookup_l _ _ _ _ _ Ht Hp) as (h & Hh & Hph).
    rewrite (delete_Permutation _ _ _ Hh) in Ha.
    assert (∃ h' more, (length more ≤ failures e)%nat
      ∧ accounted w' (h' :: more ++ delete t hs ++ dropped)
      ∧ tends h' p' (λ _ h', light h')) as (h' & more & Hm & Ha' & Hp').
    { destruct p as [a|msg|X op k]; simpl in Hstep;
        [simplify_eq; exists h, []; split_and!; [simpl; lia|exact Ha|done]..|].
      specialize (Hph e w _ Hi Ha). destruct (interp op e w). by simplify_eq. }
    exists (<[t := h']> hs), (more ++ dropped). split_and!; [rewrite length_app; lia| |].
    + cbn [c_world]. rewrite (insert_Permutation _ _ _ _ Hh). cbn [app].
      by rewrite app_assoc, (Permutation_app_comm (delete t hs) more), <- app_assoc.
    + by apply Forall2_insert.
  - destruct (ts !! t) as [p|] eqn:Hp.
    + destruct (Forall2_lookup_l _ _ _ _ _ Ht Hp) as (h & Hh & _).
      rewrite (delete_Permutation _ _ _ Hh) in Ha.
      exists (<[t := Empty]> hs), (h :: dropped). split_and!; [simpl; lia| |].
      * cbn [c_world]. rewrite (insert_Permutation _ _ _ _ Hh). cbn [app].
        rewrite <- Permutation_middle. by apply accounted_drop.
      * apply Forall2_insert; [done|]. by left.
    + exists hs, dropped. split_and!; [lia|done|].
      by rewrite list_insert_ge by by apply lookup_ge_None.
  - exists hs, dropped. split_and!; [lia| |done]. destruct Ho as (Ej & _).
    eapply (accounted_same w); [done|done| |done]. intros q k. unfold copies. by rewrite El, Ez.
Qed.

Lemma initial_balanced c : initial c → w_metrics (c_world c) = [] → balanced 0 c.
Proof.
  intros (Ej & _ & _ & _ & _ & Et) Em. exists [], []. rewrite Et. split_and!; [done| |done]. split; [|done|].
  - intros id. unfold ledger. by rewrite Ej, lookup_empty.
  - unfold tallied, tally, matching. by rewrite Ej, Em, map_filter_empty, map_size_empty.
Qed.

Lemma balanced_weaken n m c : (n ≤ m)%nat → balanced n c → balanced m c.
Proof. intros Hle (hs & dropped & Hn & Hb). exists hs, dropped. split; [lia|done]. Qed.

Lemma run_balanced n c0 c :
  initial c0 → w_metrics (c_world c0) = [] → run_within n c0 c → balanced n c.
Proof.
  intros Hi Hm Hrun. assert (reachable c0) as Hr by by apply reach_init.
  assert (balanced 0 c0) as Hb by by apply initial_balanced. clear Hi Hm.
  induction Hrun as [n c|n m c c1 c' Hrun IH Hstep]; [eapply balanced_weaken; [|done]; lia|].
  eapply balanced_step; [by eapply reachable_within|exact Hstep|by apply IH].
Qed.

(** ** What follows from the balance *)

(** The process that has the job in hand. *)
Definition holder_among (hs : list hand) (id : uuid) : option nat :=
  fst <$> list_find (λ h, holds id h = 1%nat) hs.

Lemma holder_Some hs id t :
  holder_among hs id = Some t → ∃ h, hs !! t = Some h ∧ holds id h = 1%nat.
Proof.
  intros ([t' h] & (Ht & Hh & _)%list_find_Some & ->)%fmap_Some. by exists h.
Qed.

Lemma holds_01 id h : holds id h = 0%nat ∨ holds id h = 1%nat.
Proof. destruct h; simpl; try (by left); unfold indicator; case_decide; tauto. Qed.

Lemma holder_None hs id : holder_among hs id = None → held id hs = 0%nat.
Proof.
  intros Hn. unfold holder_among in Hn. apply fmap_None, list_find_None in Hn.
  induction Hn as [|h hs Hh _ IH]; [done|]. unfold held in *. simpl. rewrite IH.
  destruct (holds_01 id h); lia.
Qed.

Lemma holder_held hs id t : holder_among hs id = Some t → (1 ≤ held id hs)%nat.
Proof.
  intros (h & Hin%list_elem_of_lookup_2 & Hh)%holder_Some.
  apply (sum_list_with_in _ (holds id)) in Hin. unfold held. lia.
Qed.

(** A process has a job in hand exactly once or not at all. *)
Lemma holder_indicator hs id :
  (held id hs ≤ 1)%nat → held id hs = indicator (is_Some (holder_among hs id)).
Proof.
  intros Hle. destruct (holder_among hs id) as [t|] eqn:Hh.
  - rewrite indicator_yes by by eexists. pose proof (holder_held _ _ _ Hh). lia.
  - rewrite indicator_no by by intros [? ?]. by apply holder_None.
Qed.

(** The job a hand is for. *)
Definition claims (h : hand) : option uuid :=
  match h with Carrying id _ => Some id | Running j => Some (Job.ID j) | _ => None end.

Lemma holds_claims id h : holds id h = indicator (claims h = Some id).
Proof.
  destruct h; simpl; try (by rewrite indicator_no by done); unfold indicator; apply decide_ext;
    naive_solver.
Qed.

Lemma claims_indicator hs id :
  (held id hs ≤ 1)%nat → held id hs = indicator (id ∈ omap claims hs).
Proof.
  induction hs as [|h hs IH]; [by rewrite indicator_no by apply not_elem_of_nil|].
  unfold held in *. cbn [sum_list_with omap list_omap]. rewrite holds_claims. intros Hle.
  specialize (IH ltac:(lia)). destruct (claims h) as [id'|] eqn:Ec.
  - unfold indicator in *. destruct (decide (Some id' = Some id)) as [[= ->]|Hne].
    + rewrite (decide_True (P := id ∈ id :: _)) by by left. lia.
    + rewrite IH. apply decide_ext. rewrite elem_of_cons. naive_solver.
  - rewrite indicator_no by done. exact IH.
Qed.

Lemma length_omap_claims hs : (length (omap claims hs) ≤ length hs)%nat.
Proof. induction hs as [|h hs IH]; [done|]. cbn [omap list_omap]. destruct (claims h); simpl; lia. Qed.

Lemma counting_length st hs : (counting st hs ≤ length hs)%nat.
Proof.
  induction hs as [|h hs IH]; [done|]. unfold counting in *. cbn [sum_list_with length].
  assert (counts st h ≤ 1)%nat; [|lia]. destruct h; simpl; try lia. unfold indicator. case_decide; lia.
Qed.

Lemma holds_one id id' h : holds id h = 1%nat → holds id' h = 1%nat → id = id'.
Proof.
  destruct h; simpl; try done; unfold indicator; repeat case_decide; congruence.
Qed.

(** A process that has ended holds nothing and owes no count. *)
Lemma finished_light (p : prog R unit) h :
  tends h p (λ _ h', light h') → finished p = true →
  (∀ id, holds id h = 0%nat) ∧ ∀ s, counts s h = 0%nat.
Proof. destruct p as [a|msg|X op k]; simpl; [|done..]. by intros [->|[id ->]] _. Qed.

(** The processes that have not ended. *)
Definition busy (c : config (R := R)) : nat :=
  length (filter (λ p, finished p = false) (c_threads c)).

Lemma busy_bound (f : hand → nat) ps hs :
  (∀ h, f h = 0%nat ∨ f h = 1%nat) →
  (∀ h, (∀ id, holds id h = 0%nat) → (∀ s, counts s h = 0%nat) → f h = 0%nat) →
  Forall2 (λ (p : prog R unit) h, tends h p (λ _ h', light h')) ps hs →
  (sum_list_with f hs ≤ length (filter (λ p, finished p = false) ps))%nat.
Proof.
  intros H01 Hl. induction 1 as [|p h ps hs Hp _ IH]; [done|]. cbn [sum_list_with].
  rewrite filter_cons. case_decide as Hf; cbn [length].
  - destruct (H01 h); lia.
  - apply not_false_iff_true in Hf. destruct (finished_light _ _ Hp Hf) as [Hh Hc].
    by rewrite (Hl h Hh Hc).
Qed.

Lemma counting_busy s ps hs :
  Forall2 (λ (p : prog R unit) h, tends h p (λ _ h', light h')) ps hs →
  (counting s hs ≤ length (filter (λ p, finished p = false) ps))%nat.
Proof.
  apply busy_bound; [|auto]. intros []; simpl; try (by left). unfold indicator. case_decide; auto.
Qed.

Lemma held_busy id ps hs :
  Forall2 (λ (p : prog R unit) h, tends h p (λ _ h', light h')) ps hs →
  (held id hs ≤ length (filter (λ p, finished p = false) ps))%nat.
Proof. apply busy_bound; [apply holds_01|auto]. Qed.
End Balance.

(** ** The built-in handlers, and runs computed from actions *)

Section Runs.
Context `{Postgres} `{UUIDLib} `{GoText} `{Bcrypt} `{Router} {R : Type}.
Context `{Redis R} {Sch : Type} `{Cron Sch}.

Lemma storable_DefaultRegistry (r : Registry R) :
  (∀ v, is_Some (pg_jsonb v)) → DefaultRegistry = Some r → storable r.
Proof.
  intros Hjson Hr ty raw. unfold Dispatch, Get.
  assert (∀ j, ∃ res, jsonb_param (RawJSON j) = inr res) as Hj.
  { intros j. simpl. destruct (Hjson j) as [j' ->]. by eexists. }
  destruct (handlers r !! ty) as [h|] eqn:Hh; [|done].
  destruct (decodePayload raw) as [err|o]; [done|].
  apply (DefaultRegistry_handlers r) in Hh; [|done].
  eapply answers_bind with (Q := λ res, match res with inr VUnsupported => False | _ => True end).
  2: { intros [err|[j|]]; [done|intros _; apply Hj|by intros []]. }
  destruct Hh as [[-> ->]|[[-> ->]|[[-> ->]|[-> ->]]]]; [done|done|..].
  - unfold SendEmailHandler. case_decide; [done|]. by intros u.
  - intros [|]; simpl; [done|]. case_decide; [by intros u|done].
Qed.

Definition careful (a : action (R := R)) : Prop :=
  match a with ASpawn s => diligent s | _ => True end.

Definition action_failures (a : action (R := R)) : nat :=
  match a with ASpawn _ => 0 | ARun _ e => failures e | AStop _ => 1 end.

Lemma act_within n (c0 c : config (R := R)) a :
  careful a → run_within n c0 c → run_within (n + action_failures a) c0 (act c a).
Proof.
  intros Ha Hrun. destruct c as [w ts o], a as [s|t e|t]; cbn [act action_failures c_threads].
  - econstructor; [exact Hrun|]. by apply counted_spawn.
  - destruct (ts !! t) as [p|] eqn:Hp; [|eapply run_within_weaken; [|exact Hrun]; lia].
    destruct (step e p w) as [p' w'] eqn:E. econstructor; [exact Hrun|]. by eapply counted_run.
  - econstructor; [exact Hrun|]. apply counted_stop.
Qed.

Lemma acts_within (c : config (R := R)) l :
  Forall careful l → run_within (sum_list_with action_failures l) c (foldl act c l).
Proof.
  induction l as [|a l IH] using rev_ind; intros Hl; [constructor|].
  apply Forall_app in Hl as [Hl [Ha _]%Forall_cons]. rewrite foldl_app, sum_list_with_app.
  cbn [foldl sum_list_with]. rewrite Nat.add_0_r. apply act_within; auto.
Qed.
End Runs.

Section Claims.
Context `{Postgres} `{UUIDLib} `{!UUIDLaws} `{GoText} `{Bcrypt} `{Router} {R : Type}.
Context `{Redis R} `{!RedisLaws R} {Sch : Type} `{Cron Sch}.


End Claims.

(** ** Instances *)

Lemma demo_claim_careful : Forall careful demo_claim.
Proof.
  repeat constructor; try exact demo_registry_quiet.
  unfold demo_registry. destruct DefaultRegistry as [r|] eqn:E; [|vm_compute in E; discriminate].
  apply (storable_DefaultRegistry r); [by eexists|done].
Qed.

Lemma demo_enqueue_careful ty n : Forall careful (demo_enqueue ty n).
Proof. by repeat constructor. Qed.

Lemma demo_queued_within : run_within 0 demo_start demo_queued.
Proof. exact (acts_within demo_start _ (demo_enqueue_careful _ _)). Qed.

Lemma demo_processing_within : run_within 0 demo_start demo_processing.
Proof.
  unfold demo_processing, demo_queued. rewrite <- foldl_app.
  eapply run_within_weaken; [|apply acts_within, Forall_app;
                               split; [apply demo_enqueue_careful|apply demo_claim_careful]].
  vm_compute. apply le_n.
Qed.


(** One job completed and counted, nothing at work any more. *)
Definition demo_counted : config (R := RefRedis.store) :=
  foldl act demo_start
    (demo_enqueue "echo" "3" ++ demo_claim ++ demo_outcome ++ [ARun 1 (ok_at 11 0%N)]).

