(* ===== verification/Settling.v ===== *)
(** * Every job comes to an end

    Rounds of some queues: the poller promotes what is due, the worker drains the work lists. A
    number of rounds bounded by the attempts that jobs have left settles every pending job whose
    id is queued; where nothing was lost (the balance of [Custody] and [Balance]), every job. *)
From S2P Require Import Prelude GoStd Models Interfaces Db Effects Samples Store Queue Registry.
From S2P Require Import Worker Lifecycle StoreFacts QueueFacts Rely Safety Liveness System Demo.
From S2P Require Import Custody Balance.
Open Scope Z_scope.

(** ** When every parked id is due *)

(** Rounding loses less than half of a number. *)
Lemma float64_of_int_half z : 0 ≤ z → z / 2 ≤ float64_of_int z.
Proof.
  intros Hz. unfold float64_of_int. rewrite Z.abs_eq by done.
  destruct (Z.leb_spec z (2 ^ 53)) as [Hle|Hgt]; [apply Z.div_le_upper_bound; lia|].
  assert (53 ≤ Z.log2 z) as Hlog by (apply Z.log2_le_pow2; lia).
  pose proof (Z.log2_spec z ltac:(lia)) as [Hpow _].
  set (e := Z.log2 z - 52). cbv zeta.
  assert (2 * 2 ^ e ≤ z) as He.
  { etrans; [|exact Hpow]. rewrite <- Z.pow_succ_r by lia. apply Z.pow_le_mono_r; lia. }
  assert (0 < 2 ^ e) as Hp by (apply Z.pow_pos_nonneg; lia).
  rewrite Z.sgn_pos, Z.mul_1_l, !Z.shiftl_mul_pow2, !Z.shiftr_div_pow2 by lia.
  pose proof (Z.mul_succ_div_gt z (2 ^ e) Hp).
  assert (z - 2 ^ e ≤ z / 2 ^ e * 2 ^ e) by lia.
  assert (z / 2 ≤ z - 2 ^ e) by (apply Z.div_le_upper_bound; lia).
  destruct (_ || _); lia.
Qed.

(** A score is due from some time on. *)
Lemma score_is_due sc : ∃ T, ∀ t, T ≤ t → sc ≤ float64_of_int (Unix t).
Proof.
  exists (2 * Z.max 0 sc * Second). intros t Ht.
  assert (2 * Z.max 0 sc ≤ Unix t) as Hu.
  { unfold Unix. apply Z.div_le_lower_bound; [done|lia]. }
  etrans; [|apply float64_of_int_half; lia].
  etrans; [|apply Z.div_le_mono; [done|exact Hu]]. rewrite Z.mul_comm, Z.div_mul; lia.
Qed.

Definition all_due (T : Z) (z : gmap string Z) : Prop := ∀ m sc,
  z !! m = Some sc → ∀ t, T ≤ t → sc ≤ float64_of_int (Unix t).

Lemma all_due_exists z : ∃ T, all_due T z.
Proof.
  induction z as [|m sc z _ IH] using map_ind; [exists 0; intros m sc; by rewrite lookup_empty|].
  destruct IH as [T1 H1], (score_is_due sc) as [T2 H2]. exists (Z.max T1 T2).
  intros m' sc'. rewrite lookup_insert. case_decide; [intros [= <-] t Ht; apply H2; lia|].
  intros Hm t Ht. eapply H1; [done|lia].
Qed.

Lemma all_due_anti T z z' : z' ⊆ z → all_due T z → all_due T z'.
Proof. intros Hsub Hz m sc Hm. eapply Hz. by eapply lookup_weaken. Qed.

Lemma due_entries_all z now :
  (∀ m sc, z !! m = Some sc → sc ≤ now) → due_entries z now = map_to_list z.
Proof.
  intros Hz. unfold due_entries. assert (∀ x, x ∈ map_to_list z → x.2 ≤ now) as Hall.
  { intros [m sc] Hin%elem_of_map_to_list. by eapply Hz. }
  induction (map_to_list z) as [|x l IH]; [done|].
  rewrite filter_cons_True by (apply Hall; by left). f_equal. apply IH. intros y ?. apply Hall. by right.
Qed.

Section Rounds.
Context `{Postgres} `{UUIDLib} `{!UUIDLaws} `{GoText} {R : Type} `{Redis R} `{!RedisLaws R}.
Implicit Types (w : world R) (e : reply) (s : R) (qs : list string).

(** The request succeeds, at [T] or later. *)
Definition late (T : Z) e : Prop := reliable e ∧ T ≤ r_now e.

#[export] Instance late_reliably T : Reliably (late T).
Proof. by intros e [? _]. Qed.

(** ** Promotion empties the delayed sets *)

(** The id is on the queue's work list or parked. *)
Definition queued s (q m : string) : Prop :=
  m ∈ waiting q s ∨ is_Some (rd_zset s (delayed_key q) !! m).

(** Ids stay queued, delayed sets shrink, and those of [qs] by one id at least. *)
Record promoted qs s s' : Prop := {
  promoted_queued q m : queued s q m → queued s' q m;
  promoted_sub q : rd_zset s' (delayed_key q) ⊆ rd_zset s (delayed_key q);
  promoted_size q : q ∈ qs →
    (size (rd_zset s' (delayed_key q)) ≤ pred (size (rd_zset s (delayed_key q))))%nat;
}.

Lemma promoted_nil s : promoted [] s s.
Proof. split; [done..|]. by intros q ?%elem_of_nil. Qed.

Lemma promoted_trans qs1 qs2 s1 s2 s3 :
  promoted qs1 s1 s2 → promoted qs2 s2 s3 → promoted (qs1 ++ qs2) s1 s3.
Proof.
  intros [A1 B1 C1] [A2 B2 C2]. split; [by eauto|intros q; etrans; [apply B2|apply B1]|].
  intros q Hq. pose proof (map_subseteq_size _ _ (B1 q)). pose proof (map_subseteq_size _ _ (B2 q)).
  apply elem_of_app in Hq as [?%C1|?%C2]; lia.
Qed.

Lemma promoteScript_promotes q now s :
  (∀ m sc, rd_zset s (delayed_key q) !! m = Some sc → sc ≤ float64_of_int now) →
  promoted [q] s (promoteScript (delayed_key q) (queue_key q) now promoteBatch s).2.
Proof.
  intros Hdue. unfold promoteScript. cbn [snd].
  destruct (ZRANGEBYSCORE_spec (delayed_key q) (float64_of_int now) promoteBatch s)
    as (l & Hl & _ & ->). rewrite due_entries_all in Hl by done.
  set (ms := (limit_take promoteBatch l).*1).
  destruct (move_all (delayed_key q) (queue_key q) ms s) as (Hlist & Hz & _). split.
  - intros q' m [Hm|[sc Hm]].
    + left. unfold waiting in *. rewrite Hlist. rewrite elem_of_reverse in *.
      case_decide; [|done]. apply elem_of_app. by right.
    + destruct (decide (delayed_key q' = delayed_key q ∧ m ∈ ms)) as [[Ek Hin]|Hno].
      * left. apply string_app_inj_l in Ek as ->. unfold waiting. rewrite Hlist, decide_True by done.
        rewrite reverse_app, reverse_involutive. apply elem_of_app. by right.
      * right. rewrite Hz, decide_False by done. by eexists.
  - intros q'. apply map_subseteq_spec. intros m sc. rewrite Hz. by case_decide.
  - intros q' ->%list_elem_of_singleton. destruct l as [|[m sc] l].
    + apply Permutation_nil_l in Hl. symmetry in Hl. apply map_to_list_empty_iff in Hl.
      subst ms. simpl. rewrite Hl. done.
    + assert (rd_zset s (delayed_key q) !! m = Some sc) as Hm.
      { apply elem_of_map_to_list. rewrite <- Hl. by left. }
      assert (pred (size (rd_zset s (delayed_key q))) = size (delete m (rd_zset s (delayed_key q))))
        as -> by (by rewrite map_size_delete, Hm).
      apply map_subseteq_size, map_subseteq_spec. intros m' sc'. rewrite Hz.
      case_decide as Hno; [done|]. intros Hm'. apply lookup_delete_Some. split; [|done].
      intros <-. apply Hno. split; [done|by left].
Qed.

Lemma twp_poll_queues E `{!Reliably E} qs now w :
  (∀ q m sc, q ∈ qs → rd_zset (w_redis w) (delayed_key q) !! m = Some sc →
     sc ≤ float64_of_int (Unix now)) →
  twp E (poll_queues now qs)
    (λ go w', go = true ∧ w_db w' = w_db w ∧ promoted qs (w_redis w) (w_redis w')) w.
Proof.
  revert w. induction qs as [|q qs IH]; intros w Hdue.
  { split_and!; [done..|apply promoted_nil]. }
  cbn [poll_queues]. apply twp_bind. unfold PromoteDue. apply twp_bind, twp_redis; [done|].
  intros now'. cbn [fst snd twp]. fold (delayed_key q) (queue_key q).
  assert (promoted [q] (w_redis w)
            (promoteScript (delayed_key q) (queue_key q) (Unix now) promoteBatch (w_redis w)).2) as Hp.
  { apply promoteScript_promotes. intros m sc. apply Hdue. by left. }
  destruct (promoteScript _ _ _ _ _) as [n s]. cbn [fst snd] in *. cbn iota.
  eapply twp_mono; [|apply IH].
  - intros go w' (-> & Ed & Hps). split_and!; [done..|]. by eapply (promoted_trans [q]).
  - intros q' m sc Hq' Hm. eapply (Hdue q' m); [by right|]. eapply lookup_weaken; [exact Hm|].
    apply (promoted_sub _ _ _ Hp).
Qed.

Lemma twp_poll n qs T w :
  (∀ q, q ∈ qs → all_due T (rd_zset (w_redis w) (delayed_key q))
               ∧ (size (rd_zset (w_redis w) (delayed_key q)) ≤ n)%nat) →
  twp (late T) (poll n qs)
    (λ _ w', w_db w' = w_db w ∧ (∀ q m, queued (w_redis w) q m → queued (w_redis w') q m)
       ∧ ∀ q, q ∈ qs → rd_zset (w_redis w') (delayed_key q) = ∅) w.
Proof.
  unfold poll. revert w. induction n as [|n IH]; intros w Hq.
  { split_and!; [done..|]. intros q Hin. apply map_size_empty_inv. destruct (Hq q Hin). lia. }
  cbn [loop]. apply twp_bind. unfold poll_once. apply twp_bind, twp_wait; [apply _|]. cbn iota.
  apply twp_bind, twp_now. intros e [_ Hlate].
  eapply twp_mono; [|apply twp_poll_queues; [apply _|]].
  2: { intros q m sc Hin Hm. destruct (Hq q Hin) as [Hdue _]. by eapply Hdue. }
  intros go w' (-> & Ed & Hp). eapply twp_mono; [|apply IH].
  - intros _ w2 (Ed2 & Hq2 & Hz). split_and!; [congruence| |done].
    intros q m Hm. by apply Hq2, (promoted_queued _ _ _ Hp).
  - intros q Hin. destruct (Hq q Hin) as [Hdue Hn]. split.
    + eapply all_due_anti; [apply (promoted_sub _ _ _ Hp)|done].
    + pose proof (promoted_size _ _ _ Hp q Hin). lia.
Qed.
(** ** A round *)

(** A round brings the world to [Q]: late enough, any poller that ticks often enough, and then
    any worker that makes passes enough. *)
Definition round (registry : Registry R) qs (Q : world R → Prop) w : Prop :=
  ∃ T ticks, ∀ n, (ticks ≤ n)%nat → twp (late T) (poll n qs)
    (λ _ w1, ∃ passes, ∀ m, (passes ≤ m)%nat →
       twp (late T) (consume m registry qs) (λ _ w2, Q w2) w1) w.

(** So do [k] rounds, one after the other. *)
Fixpoint rounds (registry : Registry R) qs (k : nat) (Q : world R → Prop) w : Prop :=
  match k with
  | O => Q w
  | S k' => round registry qs (rounds registry qs k' Q) w
  end.

Lemma rounds_mono registry qs k (Q Q' : world R → Prop) w :
  (∀ w', Q w' → Q' w') → rounds registry qs k Q w → rounds registry qs k Q' w.
Proof.
  intros HQ. revert w. induction k as [|k IH]; intros w; [apply HQ|]. cbn [rounds].
  intros (T & ticks & Hr). exists T, ticks. intros n Hn. eapply twp_mono; [|by apply Hr].
  intros _ w1 [passes Hp]. exists passes. intros m Hm. eapply twp_mono; [|by apply Hp].
  intros ? w2. apply IH.
Qed.

Lemma due_from qs s :
  ∃ T, ∀ q, q ∈ qs → all_due T (rd_zset s (delayed_key q)).
Proof.
  induction qs as [|q qs [T HT]]; [exists 0; by intros q ?%elem_of_nil|].
  destruct (all_due_exists (rd_zset s (delayed_key q))) as [T' HT']. exists (Z.max T T').
  intros q' [->|Hq]%elem_of_cons m sc Hm t Ht; [eapply HT'|eapply (HT q')]; eauto with lia; lia.
Qed.

Lemma parked_bound qs s :
  ∃ n, ∀ q, q ∈ qs → (size (rd_zset s (delayed_key q)) ≤ n)%nat.
Proof.
  exists (sum_list_with (λ q, size (rd_zset s (delayed_key q))) qs). intros q Hq.
  by apply (sum_list_with_in _ (λ q, size (rd_zset s (delayed_key q)))).
Qed.

Definition over (st : Status) : Prop :=
  st = StatusCompleted ∨ st = StatusFailed ∨ st = StatusCancelled.

(** Jobs keep their identity; only pending ones change. *)
Definition advanced w w' : Prop := ∀ id j, tbl_jobs (w_db w) !! id = Some j →
  ∃ j', tbl_jobs (w_db w') !! id = Some j' ∧ same_identity j j'
      ∧ (Job.Status j ≠ StatusPending → j' = j).

Lemma advanced_refl w : advanced w w.
Proof. intros id j Hj. exists j. by split_and!. Qed.

Lemma advanced_trans w1 w2 w3 : advanced w1 w2 → advanced w2 w3 → advanced w1 w3.
Proof.
  intros A1 A2 id j Hj. destruct (A1 id j Hj) as (j1 & Hj1 & I1 & E1).
  destruct (A2 id j1 Hj1) as (j2 & Hj2 & I2 & E2). exists j2.
  split_and!; [done|by eapply same_identity_trans|]. intros Hs. specialize (E1 Hs) as ->. by apply E2.
Qed.

(** The jobs of the queues [qs] that are looked at. *)
Section Tracked.
Context (tracked : uuid → Prop) (qs : list string).

(** None of them is being processed, and a pending one's id is queued. *)
Definition orderly w : Prop :=
  inv w ∧ ∀ id j, tracked id → tbl_jobs (w_db w) !! id = Some j → Job.QueueName j ∈ qs →
    Job.Status j ≠ StatusProcessing
    ∧ (Job.Status j = StatusPending → queued (w_redis w) (Job.QueueName j) (uuid_String id)).

(** The attempts that a pending one has left are [k] at most, and one at least. *)
Definition attempts_left (k : Z) w : Prop := ∀ id j,
  tracked id → tbl_jobs (w_db w) !! id = Some j → Job.QueueName j ∈ qs → Job.Status j = StatusPending →
  Z.max 1 (Job.MaxRetries j - Job.RetryCount j) ≤ k.

(** The state in which the poller leaves the queues: everything to be run is on a work list. *)
Lemma promoted_orderly w w1 :
  orderly w → inv w1 → w_db w1 = w_db w →
  (∀ q m, queued (w_redis w) q m → queued (w_redis w1) q m) →
  (∀ q, q ∈ qs → rd_zset (w_redis w1) (delayed_key q) = ∅) →
  ∀ id j, tracked id → tbl_jobs (w_db w1) !! id = Some j → Job.QueueName j ∈ qs →
    Job.Status j ≠ StatusProcessing
    ∧ (Job.Status j = StatusPending → uuid_String id ∈ backlog qs (w_redis w1)).
Proof.
  intros [_ Ho] _ Ed Hq Hz id j Htr Hj Hin. rewrite Ed in Hj. destruct (Ho id j Htr Hj Hin) as [Hp Hm].
  split; [done|]. intros Hs. apply backlog_elem. exists (Job.QueueName j). split; [done|].
  destruct (Hq _ _ (Hm Hs)) as [?|[sc Hsc]]; [done|]. by rewrite Hz in Hsc.
Qed.

(** The worker has served all of it. *)
Lemma served_orderly k w1 D w2 :
  (∀ id j, tracked id → tbl_jobs (w_db w1) !! id = Some j → Job.QueueName j ∈ qs →
    Job.Status j ≠ StatusProcessing ∧ (Job.Status j = StatusPending → uuid_String id ∈ D)) →
  attempts_left (k + 1) w1 → keyed Job.ID (tbl_jobs (w_db w1)) →
  served w1 D w2 → orderly w2 ∧ attempts_left k w2 ∧ advanced w1 w2.
Proof.
  intros Hall Hleft Hkey (Hi & _ & Hnone & Hs).
  assert (∀ id j2, tracked id → tbl_jobs (w_db w2) !! id = Some j2 → Job.QueueName j2 ∈ qs →
    Job.Status j2 ≠ StatusProcessing
    ∧ (Job.Status j2 = StatusPending →
       queued (w_redis w2) (Job.QueueName j2) (uuid_String id)
       ∧ Z.max 1 (Job.MaxRetries j2 - Job.RetryCount j2) ≤ k)) as Hjobs.
  { intros id j2 Htr Hj2 Hin. destruct (tbl_jobs (w_db w1) !! id) as [j1|] eqn:Hj1.
    2: { apply Hnone in Hj1. congruence. }
    destruct (Hs id j1 Hj1) as (j & Hj & Hcase). rewrite Hj2 in Hj. injection Hj as <-.
    case_decide as Hp.
    - destruct Hcase as [[Hid Ha]|[-> Hno]].
      2: { destruct Hno. by apply (Hall id j1 Htr). }
      pose proof Hid as (_ & _ & Eq & _ & _ & Em & _). rewrite Eq in Hin.
      specialize (Hleft id j1 Htr Hj1 Hin Hp).
      destruct Ha as [E|[E|(E & Hc & Hpark)]]; rewrite E; [done..|]. split; [done|]. intros _.
      split; [|lia]. right. rewrite Eq, <- (Hkey id j1 Hj1). exact Hpark.
    - subst j2. destruct (Hall id j1 Htr Hj1 Hin) as [Hpr _]. by split. }
  split_and!.
  - split; [done|]. intros id j Htr Hj Hin. destruct (Hjobs id j Htr Hj Hin) as [? Hq].
    split; [done|]. intros Hp. by apply Hq.
  - intros id j Htr Hj Hin Hp. by apply (Hjobs id j Htr Hj Hin).
  - intros id j Hj. destruct (Hs id j Hj) as (j' & Hj' & Hcase). exists j'. split; [done|].
    case_decide; [|by subst j'; split]. destruct Hcase as [[? _]|[-> _]]; by split.
Qed.

Lemma round_settles registry (k : Z) w (Q : world R → Prop) :
  finishing registry → quiet_registry registry → NoDup qs →
  orderly w → attempts_left (k + 1) w →
  (∀ w', orderly w' → attempts_left k w' → advanced w w' → Q w') →
  round registry qs Q w.
Proof.
  intros Hf Hquiet Hnd Ho Hleft HQ. destruct (due_from qs (w_redis w)) as [T HT].
  destruct (parked_bound qs (w_redis w)) as [ticks Hn]. exists T, ticks. intros n Hle.
  eapply twp_mono.
  2: { apply (safe_twp (late T) 0 Top) with (Q := λ _, Top) (o := λ _, None);
         [apply safe_poll|apply Ho|done|apply twp_poll].
       intros q Hq. split; [auto|]. specialize (Hn q Hq). lia. }
  intros _ w1 [(Ed & Hq & Hz) Hi1]. exists (length (backlog qs (w_redis w1))). intros m Hm.
  apply (twp_weaken reliable); [by intros e [? _]|].
  eapply twp_mono; [|by apply (twp_consume m registry qs w1 [] w1 (backlog qs (w_redis w1)));
                      try apply served_refl].
  intros _ w2 [Hs _]. rewrite app_nil_r in Hs.
  assert (attempts_left (k + 1) w1) as Hleft1 by (intros id j; rewrite Ed; apply Hleft).
  pose proof (promoted_orderly w w1 Ho Hi1 Ed Hq Hz) as Hall.
  destruct (served_orderly k w1 (reverse (backlog qs (w_redis w1))) w2)
    as (Ho2 & Hleft2 & Ha); [|done|by apply (inv_jobs_keyed _ (proj1 Hi1))|done|].
  - intros id j Htr Hj Hin. destruct (Hall id j Htr Hj Hin) as [? Hp]. split; [done|]. intros Hs'.
    by apply elem_of_reverse, Hp.
  - apply HQ; [done..|]. intros id j. rewrite <- Ed. apply Ha.
Qed.

(** They are over, and those that were over before are unchanged. *)
Definition all_over w w' : Prop := ∀ id j,
  tracked id → tbl_jobs (w_db w) !! id = Some j → Job.QueueName j ∈ qs →
  ∃ j', tbl_jobs (w_db w') !! id = Some j' ∧ same_identity j j' ∧ over (Job.Status j')
      ∧ (over (Job.Status j) → j' = j).

Lemma nothing_left w w' :
  orderly w' → attempts_left 0 w' → advanced w w' → all_over w w'.
Proof.
  intros [[Hd _] Ho] Hleft Ha id j Htr Hj Hin. destruct (Ha id j Hj) as (j' & Hj' & Hid & He).
  pose proof Hid as (_ & _ & Eq & _). rewrite <- Eq in Hin.
  destruct (Ho id j' Htr Hj' Hin) as [Hp _].
  exists j'. split_and!; [done..| |].
  - assert (Job.Status j' ≠ StatusPending) as Hnp.
    { intros Hs. specialize (Hleft id j' Htr Hj' Hin Hs). lia. }
    pose proof (inv_status _ Hd id j' Hj') as Hv. unfold over.
    unfold Valid in Hv. rewrite existsb_exists in Hv. destruct Hv as (st & Hin' & E%bool_decide_eq_true).
    destruct Hin' as [<-|[<-|[<-|[<-|[<-|[]]]]]];
      [done|done|by left|by right; left|by right; right].
  - intros Hover. apply He. by destruct Hover as [-> | [-> | ->]].
Qed.

Lemma rounds_settle registry k w w0 :
  finishing registry → quiet_registry registry → NoDup qs →
  orderly w → attempts_left (Z.of_nat k) w → advanced w0 w →
  rounds registry qs k (all_over w0) w.
Proof.
  intros Hf Hquiet Hnd. revert w. induction k as [|k IH]; intros w Ho Hleft Ha.
  { by apply nothing_left. }
  cbn [rounds]. eapply (round_settles _ (Z.of_nat k)); [done..| |].
  { by replace (Z.of_nat k + 1) with (Z.of_nat (S k)) by lia. }
  intros w' Ho' Hleft' Ha'. apply IH; [done..|]. by eapply advanced_trans.
Qed.
End Tracked.
End Rounds.

Section Claims.
Context `{Postgres} `{UUIDLib} `{!UUIDLaws} `{GoText} `{Bcrypt} `{Router} {R : Type}.
Context `{Redis R} `{!RedisLaws R} {Sch : Type} `{Cron Sch}.

Lemma copies_queued (s : R) q m : copies s q m ≠ 0%nat → queued s q m.
Proof.
  unfold copies, queued, waiting. intros Hc. rewrite elem_of_reverse.
  destruct (decide (is_Some (rd_zset s (delayed_key q) !! m))) as [?|Hno]; [by right|left].
  rewrite indicator_no in Hc by done. destruct (filter _ _) as [|x l] eqn:E; [simpl in Hc; lia|].
  assert (x ∈ filter (λ x, x = m) (rd_list s (queue_key q))) as Hx by (rewrite E; by left).
  by apply list_elem_of_filter in Hx as [-> ?].
Qed.

Lemma unclaimed id hs : id ∉ omap claims hs → held id hs = 0%nat.
Proof.
  induction hs as [|h hs IH]; [done|]. unfold held in *. cbn [sum_list_with omap list_omap].
  rewrite holds_claims. intros Hid. destruct (claims h) as [id'|].
  - apply not_elem_of_cons in Hid as [Hne Hid]. rewrite IH, indicator_no; [done|congruence|done].
  - by rewrite IH, indicator_no.
Qed.

(** Where every process has ended, what the balance says of a hand goes for the queues, but for
    the jobs that were lost. *)
Lemma balanced_orderly n (c : config (R := R)) :
  inv (c_world c) → balanced n c → busy c = 0%nat →
  ∃ lost : list uuid, (length lost ≤ n)%nat ∧ ∀ qs, orderly (λ id, id ∉ lost) qs (c_world c).
Proof.
  intros Hi (hs & dropped & Hn & [Hl _ _] & Ht) Hb. exists (omap claims dropped).
  split; [pose proof (length_omap_claims dropped); lia|]. intros qs.
  split; [done|]. intros id j Hid Hj _.
  pose proof (held_busy id _ _ Ht) as Hh. fold (busy c) in Hh. rewrite Hb in Hh.
  pose proof (unclaimed id dropped Hid) as Hd.
  specialize (Hl id). unfold ledger in Hl. rewrite Hj in Hl. unfold settles, held in Hl.
  rewrite sum_list_with_app in Hl. fold (held id hs) (held id dropped) in Hl.
  split; intros Hs; rewrite Hs in Hl; simpl in Hl; [lia|]. apply copies_queued. lia.
Qed.


End Claims.

(** ** Instances *)

Lemma demo_registry_finishing : finishing demo_registry.
Proof.
  unfold demo_registry. destruct DefaultRegistry as [r|] eqn:E; [|vm_compute in E; discriminate].
  apply (finishing_DefaultRegistry r); [by eexists|done].
Qed.

Lemma demo_attempts_left id j :
  job_of demo_queued id = Some j → Z.max 1 (Job.MaxRetries j - Job.RetryCount j) ≤ 3.
Proof.
  assert (map_Forall (λ _ j, Z.max 1 (Job.MaxRetries j - Job.RetryCount j) ≤ 3)
            (tbl_jobs (w_db (c_world demo_queued)))) as Hall
    by (apply (bool_decide_unpack _); vm_compute; exact I).
  exact (Hall id j).
Qed.


