(* ===== verification/Passes.v ===== *)
(** * A pass of the scheduler, and the jobs it fires

    What one call of [handleSchedules] does when no request fails: each due schedule whose
    expression can be read fires once, and the jobs it fires come to an end. *)
From S2P Require Import Prelude GoStd Models Interfaces Db Effects Samples Store Queue Schedules.
From S2P Require Import Enqueue Registry Worker Scheduler Lifecycle QueueFacts StoreFacts JobStore.
From S2P Require Import EnqueueFacts AuthFacts SchedulerFacts Rely Safety Liveness System Demo Settling.
Open Scope Z_scope.

Section Passes.
Context `{Postgres} `{!PostgresLaws} `{UUIDLib} `{GoText} {R : Type} `{Redis R} {Sch : Type}
  `{Cron Sch}.
Implicit Types (w : world R) (e : reply) (d : DB) (sc : JobSchedule) (js : list Job).

(** ** What a pass should do *)

(** The next activation of a schedule that fires at [now]. *)
Definition next_run (now : Z) sc : option Z :=
  if is_due now sc then
    match cron_ParseStandard (JobSchedule.CronExpression sc) with
    | inl _ => None
    | inr s => Some (cron_Next s now)
    end
  else None.

Definition fires (now : Z) sc : bool :=
  match next_run now sc with Some _ => true | None => false end.

(** The row of a schedule after a pass. *)
Definition after_pass (now : Z) sc : JobSchedule :=
  match next_run now sc with Some next => SchedulerFacts.advanced now next sc | None => sc end.

(** A job fired from a schedule, as it is stored. *)
Definition fired_from sc (j : Job) : Prop :=
  ∃ u now, j = inserted_row (with_defaults u (fired_job sc)) (JobSchedule.Payload sc) now.

(** Jobs stored and queued, one after the other. *)
Definition stored js (t : gmap uuid Job) : gmap uuid Job :=
  foldl (λ t j, <[Job.ID j := j]> t) t js.
Definition pushed_all js (s : R) : R :=
  foldl (λ s j, LPUSH (queue_key "default") (uuid_String (Job.ID j)) s) s js.

(** The world with [js] stored and queued and the schedules [scs] in the table. *)
Definition fired_world (scs : gmap uuid JobSchedule) js w : world R :=
  with_redis (pushed_all js (w_redis w))
    (with_db {| (w_db w) with tbl_jobs := stored js (tbl_jobs (w_db w));
                tbl_job_schedules := scs |} w).

Definition passed (now : Z) (due : list JobSchedule) (t : gmap uuid JobSchedule)
    : gmap uuid JobSchedule :=
  foldl (λ t sc, <[JobSchedule.ID sc := after_pass now sc]> t) t due.

(** ** Hypotheses of a pass *)

(** A row of the schedules table as its columns allow it: the template belongs to a tenant, its
    payload is a JSONB value and its cursor a TIMESTAMPTZ. *)
Record template_ok d sc : Prop := {
  template_tenant : is_Some (tbl_tenants d !! JobSchedule.TenantID sc);
  template_owned : JobSchedule.TenantID sc ≠ uuid_Nil;
  template_payload : ∃ v, JobSchedule.Payload sc = RawJSON v ∧ pg_jsonb v = Some v;
  template_cursor : pg_ts (JobSchedule.NextRunAt sc) = JobSchedule.NextRunAt sc;
}.

Definition schedules_ok d : Prop :=
  keyed JobSchedule.ID (tbl_job_schedules d)
  ∧ ∀ id sc, tbl_job_schedules d !! id = Some sc → template_ok d sc.

(** Requests succeed, and no UUID that is drawn has been drawn before. *)
Definition undisturbed (es : list reply) (t : gmap uuid Job) : Prop :=
  Forall reliable es ∧ NoDup (r_uuid <$> es) ∧ ∀ u, u ∈ r_uuid <$> es → t !! u = None.

(** ** Bookkeeping *)

Lemma lookup_stored js (t : gmap uuid Job) u :
  u ∉ Job.ID <$> js → stored js t !! u = t !! u.
Proof.
  unfold stored. revert t. induction js as [|j js IH]; intros t Hu; [done|]. cbn [foldl].
  apply not_elem_of_cons in Hu as [Hne Hu]. rewrite IH by done. by apply lookup_insert_ne.
Qed.

Lemma lookup_stored_in js (t : gmap uuid Job) j :
  NoDup (Job.ID <$> js) → j ∈ js → stored js t !! Job.ID j = Some j.
Proof.
  revert t. induction js as [|j' js IH]; intros t; [by intros _ ?%elem_of_nil|].
  intros [Hno Hnd]%NoDup_cons [->|Hj]%elem_of_cons; unfold stored; cbn [foldl]; fold (stored js).
  - etrans; [by apply lookup_stored|]. apply lookup_insert_eq.
  - by apply IH.
Qed.

Lemma undisturbed_app used es js t :
  undisturbed (used ++ es) t → (∀ j, j ∈ js → Job.ID j ∈ r_uuid <$> used) →
  undisturbed es (stored js t).
Proof.
  intros (Hr & Hnd & Hfree) Hjs. apply Forall_app in Hr as [_ Hr].
  rewrite fmap_app in Hnd, Hfree. apply NoDup_app in Hnd as (_ & Hsep & Hnd). split_and!; [done..|].
  intros u Hu. rewrite lookup_stored.
  - apply Hfree, elem_of_app. by right.
  - intros (j & -> & Hj)%list_elem_of_fmap. by apply (Hsep (Job.ID j)); [apply Hjs|].
Qed.

Lemma template_insertable d sc u :
  template_ok d sc → tbl_jobs d !! u = None →
  insertable (with_defaults u (fired_job sc)) (JobSchedule.Payload sc) d.
Proof.
  intros [Ht _ (v & Ev & Hv) _] Hu. unfold insertable, with_defaults, fired_job.
  cbn [Job.ID Job.Payload Job.TenantID Job.MaxRetries]. rewrite Ev, decide_True by done.
  split_and!; [done|simpl; by rewrite Hv|done|done|done].
Qed.

(** ** One schedule *)

Lemma fire_one `{!CronLaws Sch} now sc es w :
  keyed JobSchedule.ID (tbl_job_schedules (w_db w)) →
  tbl_job_schedules (w_db w) !! JobSchedule.ID sc = Some sc →
  is_due now sc = true → template_ok (w_db w) sc →
  undisturbed es (tbl_jobs (w_db w)) → (4 ≤ length es)%nat →
  ∃ js used es', es = used ++ es' ∧ (length used ≤ 4)%nat
    ∧ exec es (fireSchedule now sc) w
      = (Some (tt, es'), fired_world (passed now [sc] (tbl_job_schedules (w_db w))) js w)
    ∧ Forall2 fired_from (filter (λ sc, fires now sc = true) [sc]) js
    ∧ (∀ j, j ∈ js → Job.ID j ∈ r_uuid <$> used) ∧ NoDup (Job.ID <$> js).
Proof.
  intros Hk Hsc Hdue Htpl (Hr & _ & Hfree) Hlen.
  destruct es as [|e1 [|e2 [|e3 [|e4 es]]]]; try (simpl in Hlen; lia).
  rewrite !Forall_cons in Hr. destruct Hr as (He1 & He2 & He3 & He4 & _).
  pose proof (fireSchedule_fires_once now sc e1 e2 e3 e4 es (JobSchedule.Payload sc) w Hk
                He1 He2 He3 He4 (template_owned _ _ Htpl)) as Hx.
  assert (∀ next, next_run now sc = next →
    filter (λ sc, fires now sc = true) [sc] = match next with Some _ => [sc] | None => [] end) as Hfil.
  { intros next Hn. rewrite filter_cons, filter_nil. unfold fires. rewrite Hn. by destruct next. }
  unfold passed, after_pass. cbn [foldl]. unfold next_run in *. rewrite Hdue in *.
  destruct (cron_ParseStandard (JobSchedule.CronExpression sc)) as [err|s] eqn:Hparse; cbv zeta in Hx.
  - exists [], [], (e1 :: e2 :: e3 :: e4 :: es). rewrite insert_id by done. split_and!; try done.
    + simpl. lia.
    + unfold fireSchedule. rewrite Hparse. by destruct w as [[] ? ?].
    + rewrite (Hfil None) by done. constructor.
    + by intros j ?%elem_of_nil.
    + constructor.
  - rewrite Hsc in Hx. unfold cursor_at in Hx. rewrite (template_cursor _ _ Htpl), Z.eqb_refl in Hx.
    assert (JobSchedule.Enabled sc = true) as Hen by (unfold is_due in Hdue; by destruct (JobSchedule.Enabled sc)).
    rewrite Hen in Hx. cbn [andb] in Hx. destruct Hx as [Hx _].
    { apply template_insertable; [done|]. apply Hfree. simpl. right. by left. }
    eexists [_], [e1; e2; e3; e4], es. split_and!; [done|simpl; lia|exact Hx| | |].
    + rewrite (Hfil (Some (cron_Next s now))) by done. constructor; [|constructor].
      by exists (r_uuid e2), (r_now e3).
    + intros j ->%list_elem_of_singleton. simpl. right. by left.
    + apply NoDup_singleton.
Qed.

(** ** All of them *)

Lemma fired_world_app now due1 due2 js1 js2 w :
  let w1 := fired_world (passed now due1 (tbl_job_schedules (w_db w))) js1 w in
  fired_world (passed now due2 (tbl_job_schedules (w_db w1))) js2 w1
  = fired_world (passed now (due1 ++ due2) (tbl_job_schedules (w_db w))) (js1 ++ js2) w.
Proof.
  unfold fired_world, passed, stored, pushed_all. rewrite !foldl_app. reflexivity.
Qed.

Lemma fire_all_run `{!CronLaws Sch} now due es w :
  keyed JobSchedule.ID (tbl_job_schedules (w_db w)) → NoDup (JobSchedule.ID <$> due) →
  (∀ sc, sc ∈ due → tbl_job_schedules (w_db w) !! JobSchedule.ID sc = Some sc
                  ∧ is_due now sc = true ∧ template_ok (w_db w) sc) →
  undisturbed es (tbl_jobs (w_db w)) → (5 * length due ≤ length es)%nat →
  ∃ js es', exec es (fire_all now due) w
      = (Some (tt, es'), fired_world (passed now due (tbl_job_schedules (w_db w))) js w)
    ∧ Forall2 fired_from (filter (λ sc, fires now sc = true) due) js
    ∧ NoDup (Job.ID <$> js) ∧ ∀ j, j ∈ js → Job.ID j ∈ r_uuid <$> es.
Proof.
  revert es w. induction due as [|sc due IH]; intros es w Hk Hnd Hdue Hes Hlen.
  { exists [], es. split_and!; [by destruct w as [[] ? ?]|constructor..|by intros j ?%elem_of_nil]. }
  destruct es as [|e es]; [simpl in Hlen; lia|]. apply NoDup_cons in Hnd as [Hno Hnd].
  destruct (Hdue sc) as (Hsc & Hd & Htpl); [by left|].
  assert (undisturbed es (tbl_jobs (w_db w))) as Hes1.
  { by apply (undisturbed_app [e] es [] _ Hes); intros j ?%elem_of_nil. }
  destruct Hes as ((He & _)%Forall_cons & _ & _).
  destruct (fire_one now sc es w) as (js1 & used & es1 & -> & Hused & Hx & Hf1 & Hin1 & Hnd1);
    [done..|simpl in Hlen; lia|].
  set (w1 := fired_world _ js1 w) in Hx.
  destruct (IH es1 w1) as (js2 & es2 & Hx2 & Hf2 & Hnd2 & Hin2).
  - apply keyed_insert; [done|]. unfold after_pass. by destruct (next_run now sc).
  - done.
  - intros sc' Hsc'. destruct (Hdue sc') as (Hl & ? & [? ? ? ?]); [by right|]. split_and!; [|done..].
    simpl. rewrite lookup_insert_ne; [done|]. intros E. apply Hno. rewrite E. by apply list_elem_of_fmap_2.
  - by eapply undisturbed_app.
  - simpl in Hlen. rewrite length_app in Hlen. lia.
  - exists (js1 ++ js2), es2. split_and!.
    + cbn [fire_all]. unfold ctx_Err. rewrite exec_request. cbn [interp fst snd].
      destruct He as (_ & _ & ->). rewrite exec_bind, Hx, Hx2.
      f_equal. apply (fired_world_app now [sc] due).
    + rewrite (filter_app _ [sc] due). by apply Forall2_app.
    + rewrite fmap_app. apply NoDup_app. split_and!; [done| |done].
      intros u (j & -> & Hj)%list_elem_of_fmap (j2 & E & Hj2)%list_elem_of_fmap.
      destruct Hes1 as (_ & Hu & _). rewrite fmap_app in Hu. apply NoDup_app in Hu as (_ & Hsep & _).
      apply (Hsep (Job.ID j)); [by apply Hin1|]. rewrite E. by apply Hin2.
    + intros j [Hj|Hj]%elem_of_app; rewrite fmap_cons, fmap_app; right; apply elem_of_app; auto.
Qed.

(** ** The pass *)

Lemma keyed_rows_NoDup {A} (key : A → uuid) (t : gmap uuid A) :
  keyed key t → NoDup (key <$> rows t).
Proof.
  intros Hk. unfold rows. rewrite <- list_fmap_compose.
  assert (key ∘ snd <$> map_to_list t = (map_to_list t).*1) as ->.
  { apply list_fmap_ext. intros i [k a] Hi. apply (Hk k a), elem_of_map_to_list.
    by eapply list_elem_of_lookup_2. }
  apply NoDup_fst_map_to_list.
Qed.

Lemma lookup_passed now due t id :
  NoDup (JobSchedule.ID <$> due) →
  passed now due t !! id
  = match list_find (λ sc, JobSchedule.ID sc = id) due with
    | Some (_, sc) => Some (after_pass now sc)
    | None => t !! id
    end.
Proof.
  unfold passed. revert t. induction due as [|sc due IH]; intros t Hnd; [done|]. cbn [foldl].
  apply NoDup_cons in Hnd as [Hno Hnd]. rewrite IH by done. cbn [list_find]. case_decide as E.
  - subst id. destruct (list_find _ due) as [[i sc']|] eqn:Ef; [|apply lookup_insert_eq].
    apply list_find_Some in Ef as (Hi & E & _). destruct Hno. rewrite <- E.
    eapply list_elem_of_fmap_2, list_elem_of_lookup_2, Hi.
  - destruct (list_find _ due) as [[i sc']|]; [done|]. by apply lookup_insert_ne.
Qed.

Lemma passed_all now due t :
  keyed JobSchedule.ID t → due ≡ₚ select_where (is_due now) t → NoDup (JobSchedule.ID <$> due) →
  passed now due t = after_pass now <$> t.
Proof.
  intros Hk Hperm Hnd. apply map_eq. intros id. rewrite lookup_passed, lookup_fmap by done.
  destruct (list_find _ due) as [[i sc]|] eqn:Ef.
  - apply list_find_Some in Ef as (Hi & <- & _). apply list_elem_of_lookup_2 in Hi.
    rewrite Hperm in Hi. apply elem_of_select_where in Hi as (_ & k & Hsc).
    by rewrite (Hk _ _ Hsc), Hsc.
  - apply list_find_None in Ef. destruct (t !! id) as [sc|] eqn:Hsc; [|done]. simpl. f_equal.
    unfold after_pass, next_run. destruct (is_due now sc) eqn:Ed; [|done]. exfalso.
    rewrite Forall_forall in Ef. apply (Ef sc); [|by apply Hk].
    rewrite Hperm. apply elem_of_select_where. eauto.
Qed.

Lemma advanced_not_due `{!CronLaws Sch} now s sc :
  cron_Next s now ≠ time_Zero →
  is_due now (SchedulerFacts.advanced now (cron_Next s now) sc) = false.
Proof.
  intros Hz. unfold is_due. simpl. rewrite cron_next_stored by done.
  destruct (cron_Next_after s now) as [|Hlt]; [done|]. pose proof (pg_ts_le now).
  destruct (Z.leb_spec (cron_Next s now) (pg_ts now)); [lia|]. apply andb_false_r.
Qed.

Lemma handleSchedules_run `{!CronLaws Sch} e es w :
  schedules_ok (w_db w) → undisturbed (e :: es) (tbl_jobs (w_db w)) →
  let t := tbl_job_schedules (w_db w) in
  let due := pg_order_by JobSchedule.NextRunAt (select_where (is_due (r_now e)) t) in
  (1 + 5 * size t ≤ length es)%nat →
  ∃ js es',
    exec (e :: es) handleSchedules w
    = (Some (tt, es'), fired_world (after_pass (r_now e) <$> t) js w)
    ∧ Forall2 fired_from (filter (λ sc, fires (r_now e) sc = true) due) js
    ∧ NoDup (Job.ID <$> js) ∧ ∀ j, j ∈ js → tbl_jobs (w_db w) !! Job.ID j = None.
Proof.
  intros [Hk Htpl] Hes t due Hlen.
  assert (due ≡ₚ select_where (is_due (r_now e)) t) as Hperm by apply pg_order_by_perm.
  destruct es as [|e1 es]; [simpl in Hlen; lia|].
  pose proof (proj1 Hes) as Hr. rewrite !Forall_cons in Hr. destruct Hr as (_ & He1 & _).
  assert (undisturbed es (tbl_jobs (w_db w))) as Hes1.
  { apply (undisturbed_app [e; e1] es [] _ Hes). by intros j ?%elem_of_nil. }
  assert (NoDup (JobSchedule.ID <$> due)) as Hids.
  { rewrite Hperm. eapply sublist_NoDup; [by apply (keyed_rows_NoDup JobSchedule.ID t)|].
    apply fmap_sublist, sublist_filter. }
  destruct (fire_all_run (r_now e) due es w) as (js & es' & Hx & Hf & Hnd & Hin);
    [done|done|..|done| |].
  - intros sc Hsc. rewrite Hperm in Hsc. apply elem_of_select_where in Hsc as (Hd & k & Hsc).
    split_and!; [by rewrite (Hk _ _ Hsc)|done|by eapply Htpl].
  - assert (length due ≤ size t)%nat; [|simpl in Hlen; lia]. rewrite Hperm.
    unfold select_where, rows. rewrite length_filter. by rewrite length_fmap, length_map_to_list.
  - exists js, es'. split_and!; [|done|done|].
    + unfold handleSchedules, time_Now, DueSchedules, exec_sql.
      rewrite exec_request. cbn [interp fst snd]. rewrite exec_bind, exec_request, sql_ok by done.
      unfold due_schedules_stmt. cbn [fst snd exec]. fold t due.
      rewrite passed_all in Hx by done. fold t in Hx. rewrite <- Hx. by destruct w.
    + intros j Hj. apply Hes1. by apply Hin.
Qed.

(** C23. A pass of the scheduler in which no request fails: the due schedules whose expression
    can be read fire once each, earliest first, and no other schedule fires; each fire stores one
    pending job from the schedule's template under a new id and queues that id on "default"; the
    cursors of the schedules that fired are at their next activation, so that none of them is
    due any more (unless it has no activation at all), every other schedule is unchanged (one
    whose expression cannot be read does not stop the pass), and so is everything else. *)
Theorem handleSchedules_fires_what_is_due `{!CronLaws Sch} e es w :
  schedules_ok (w_db w) → undisturbed (e :: es) (tbl_jobs (w_db w)) →
  let t := tbl_job_schedules (w_db w) in
  let now := r_now e in
  (1 + 5 * size t ≤ length es)%nat →
  ∃ due js es',
    exec (e :: es) handleSchedules w = (Some (tt, es'), fired_world (after_pass now <$> t) js w)
    ∧ due ≡ₚ select_where (is_due now) t ∧ StronglySorted (key_le JobSchedule.NextRunAt) due
    ∧ Forall2 fired_from (filter (λ sc, fires now sc = true) due) js
    ∧ NoDup (Job.ID <$> js) ∧ (∀ j, j ∈ js → tbl_jobs (w_db w) !! Job.ID j = None)
    ∧ ∀ id sc, t !! id = Some sc → next_run now sc ≠ Some time_Zero →
        next_run now (after_pass now sc) = None.
Proof.
  intros Hok Hes t now Hlen. destruct (handleSchedules_run e es w Hok Hes Hlen) as (js & es' & Hx & Hjs).
  eexists _, js, es'. split_and!; [done|apply pg_order_by_perm|apply pg_order_by_sorted|apply Hjs..|].
  intros id sc Hsc Hz. unfold after_pass. destruct (next_run now sc) as [next|] eqn:En; [|done].
  unfold next_run in En. destruct (is_due now sc); [|done].
  destruct (cron_ParseStandard _) as [|s]; [done|]. injection En as <-.
  unfold next_run. rewrite advanced_not_due; [done|]. intros E. by rewrite E in Hz.
Qed.
End Passes.

(** ** The jobs a pass fires come to an end *)

Section Settled.
Context `{Postgres} `{!PostgresLaws} `{UUIDLib} `{!UUIDLaws} `{GoText} `{Bcrypt} `{Router}.
Context {R : Type} `{Redis R} `{!RedisLaws R} {Sch : Type} `{Cron Sch} `{!CronLaws Sch}.

(** A safe program leaves the invariant behind, wherever it stops. *)
Lemma safe_run {A} t P (p : prog R A) Q es w o :
  safe t P p Q → inv w → P w o → inv (exec es p w).2.
Proof.
  revert es P w o. induction p as [a|msg|X op k IH]; intros es P w o Hs Hi HP; [done|done|].
  destruct es as [|e es]; [done|]. simpl in *. specialize (Hs e w o Hi HP).
  destruct (interp op e w) as [x w']. destruct Hs as [[Hi' _] (P' & _ & HP' & Hs)].
  by eapply IH.
Qed.

Lemma pushed_all_elem js (s : R) m :
  m ∈ rd_list s (queue_key "default") ∨ m ∈ uuid_String ∘ Job.ID <$> js →
  m ∈ rd_list (pushed_all js s) (queue_key "default").
Proof.
  unfold pushed_all. revert s. induction js as [|j js IH]; intros s; cbn [foldl].
  { intros [?|?%elem_of_nil]; done. }
  rewrite fmap_cons, elem_of_cons. intros Hm. apply IH. rewrite list_LPUSH, decide_True by done.
  rewrite elem_of_cons. tauto.
Qed.

Lemma pass_orderly qs js scs (w : world R) :
  inv (fired_world scs js w) → NoDup (Job.ID <$> js) →
  (∀ j, j ∈ js → Job.QueueName j = "default"%string ∧ Job.Status j = StatusPending) →
  orderly (λ id, id ∈ Job.ID <$> js) qs (fired_world scs js w).
Proof.
  intros Hi Hnd Hjs. split; [done|]. intros id j0 (j & -> & Hj)%list_elem_of_fmap.
  cbn [fired_world with_redis with_db w_db tbl_jobs]. rewrite lookup_stored_in by done.
  intros [= <-] _. destruct (Hjs j Hj) as [Eq Es]. rewrite Es. split; [done|]. intros _. left.
  unfold waiting. rewrite Eq, elem_of_reverse. apply pushed_all_elem. right.
  by apply (list_elem_of_fmap_2 (uuid_String ∘ Job.ID)).
Qed.

(** What is fired from a schedule is a new pending job of the scheduler's queue. *)
Lemma fired_from_row sc j :
  fired_from sc j →
  Job.QueueName j = "default"%string ∧ Job.Status j = StatusPending
  ∧ Job.MaxRetries j = DefaultMaxRetries ∧ Job.RetryCount j = 0.
Proof. by intros (u & now & ->). Qed.

Lemma Forall2_elem_l {A B} (P : A → B → Prop) l k x :
  Forall2 P l k → x ∈ l → ∃ y, y ∈ k ∧ P x y.
Proof.
  intros HF (i & Hi)%list_elem_of_lookup. destruct (Forall2_lookup_l _ _ _ _ _ HF Hi) as (y & Hy & ?).
  exists y. split; [by eapply list_elem_of_lookup_2|done].
Qed.

Lemma Forall2_elem_r {A B} (P : A → B → Prop) l k y :
  Forall2 P l k → y ∈ k → ∃ x, x ∈ l ∧ P x y.
Proof. intros HF%Forall2_flip. by apply (Forall2_elem_l (flip P)). Qed.

End Settled.

(** ** Instances *)

(** Two schedules that are due: one every minute, one whose expression cannot be read. *)
Definition readable_schedule : JobSchedule := sample_schedule "* * * * *" 0.
Definition unreadable_schedule : JobSchedule :=
  {| (sample_schedule "every minute" 0) with JobSchedule.ID := 6%N |}.

Definition pass_world : world RefRedis.store :=
  with_db {| demo_db with tbl_job_schedules :=
    {[5%N := readable_schedule; 6%N := unreadable_schedule]} |} demo_world.

Definition pass_start : config (R := RefRedis.store) := mkConfig pass_world [] (λ _, None).

Definition pass_reply (i : nat) : reply := ok_at (Z.of_nat i) (N.of_nat (100 + i)).

Lemma pass_schedules id sc :
  tbl_job_schedules (w_db pass_world) !! id = Some sc →
  id = 5%N ∧ sc = readable_schedule ∨ id = 6%N ∧ sc = unreadable_schedule.
Proof.
  unfold pass_world. cbn [with_db w_db tbl_job_schedules].
  intros [[<- <-]|[_ [<- <-]%lookup_singleton_Some]]%lookup_insert_Some; [by left|by right].
Qed.

Lemma pass_schedules_ok : schedules_ok (w_db pass_world).
Proof.
  split; [by intros id sc [[-> ->]|[-> ->]]%pass_schedules|].
  assert (is_Some (tbl_tenants (w_db pass_world) !! demo_tenant)) as Ht by by eexists.
  intros id sc [[-> ->]|[-> ->]]%pass_schedules; split; [done|done|by eexists|done|done|done|by eexists|done].
Qed.

Lemma pass_undisturbed n : undisturbed (pass_reply <$> seq 0 n) (tbl_jobs (w_db pass_world)).
Proof.
  split_and!.
  - apply Forall_forall. by intros e (i & -> & _)%list_elem_of_fmap.
  - rewrite <- list_fmap_compose. apply NoDup_fmap; [|apply NoDup_seq].
    intros i j E. unfold compose, pass_reply, ok_at in E. simpl in E. lia.
  - intros u _. apply lookup_empty.
Qed.

Lemma pass_start_reachable : reachable pass_start.
Proof. apply reach_init. split_and!; try done. apply demo_accounts. Qed.

(** The first is fired and the second left alone. *)
Lemma handleSchedules_fires_what_is_due_witness :
  ∃ js es', exec (pass_reply <$> seq 0 12) handleSchedules pass_world
    = (Some (tt, es'), fired_world (after_pass 0 <$> tbl_job_schedules (w_db pass_world)) js pass_world)
    ∧ length js = 1%nat.
Proof.
  destruct (handleSchedules_fires_what_is_due (pass_reply 0) (pass_reply <$> seq 1 11) pass_world)
    as (due & js & es' & Hx & Hperm & _ & Hf & _).
  - exact pass_schedules_ok.
  - exact (pass_undisturbed 12).
  - vm_compute. exact (le_n 11).
  - exists js, es'. split; [exact Hx|]. rewrite <- (Forall2_length _ _ _ Hf).
    rewrite Hperm. vm_compute. reflexivity.
Defined.

