(* ===== verification/Fires.v ===== *)
(** * What pays for a fired job

    A logic of the runs a scheduler has won: a request of a scheduler does nothing to schedules
    and jobs, or wins a run by moving the cursor of its schedule forward, or turns the run in
    hand into one job of the schedule's template. No other program touches the schedules. *)
From S2P Require Import Prelude GoStd Models Interfaces Db Effects Store Queue Schedules.
From S2P Require Import Enqueue Registry Worker Scheduler Http JobsApi AuthApi KeysApi AdminApi.
From S2P Require Import ApiMetrics Routes Accounts Auth Stats Lifecycle StoreFacts JobStore.
From S2P Require Import QueueFacts EnqueueFacts SchedulerFacts Rely Safety System.
Open Scope Z_scope.

(** ** Programs that leave the schedules alone *)

Section Spares.
Context {R : Type}.

Definition same_schedules (d d' : DB) : Prop := tbl_job_schedules d' = tbl_job_schedules d.

#[export] Instance same_schedules_preorder : PreOrder same_schedules.
Proof. split; [by intros d|]. unfold same_schedules. intros d1 d2 d3. congruence. Qed.

Fixpoint spares {A} (p : prog R A) : Prop :=
  match p with
  | Ret _ | Panic _ => True
  | Call o k => (∀ e w, same_schedules (w_db w) (w_db (interp o e w).2)) ∧ ∀ x, spares (k x)
  end.

Lemma spares_bind {A B} (p : prog R A) (f : A → prog R B) :
  spares p → (∀ a, spares (f a)) → spares (bind p f).
Proof.
  intros Hp Hf. induction p as [a|msg|X o k IH]; simpl in *; [done|done|].
  destruct Hp. split; [done|]. auto.
Qed.

Lemma spares_sql {X} (q : sql X) :
  (∀ now u d, same_schedules d (q now u d).2) → spares (exec_sql q).
Proof.
  intros Hq. split; [|done]. intros e w. simpl. specialize (Hq (r_now e) (r_uuid e) (w_db w)).
  destruct (q _ _ _) as [x d]. by destruct (r_fault e).
Qed.

Lemma spares_tx {X} (b : tx X) : tx_keeps same_schedules b → spares (exec_tx b).
Proof.
  intros Hb. split; [|done]. intros e w. simpl.
  pose proof (run_tx_keeps same_schedules b (r_faults e) (r_now e) (r_uuids e) (w_db w) _ Hb) as Hd.
  by destruct (run_tx _ _ _ _ _).
Qed.

Lemma spares_redis {X} (c : Z → R → X * R) : spares (redis_cmd c).
Proof.
  split; [|done]. intros e w. simpl. destruct (c _ _). by destruct (faulty _ _ _).
Qed.

Lemma spares_request {X} (o : op R X) : (∀ e w, (interp o e w).2 = w) → spares (request o).
Proof. intros Ho. split; [|done]. intros e w. by rewrite Ho. Qed.

Lemma spares_metric m : spares (request (OMetric m)).
Proof. by split. Qed.

Lemma spares_quiet {A} (p : prog R A) : quiet p → spares p.
Proof.
  induction p as [a|msg|X o k IH]; simpl; [done|done|]. intros [Ho Hk]. split; [|auto].
  intros e w. by rewrite Ho.
Qed.

Lemma spares_loop n (b : prog R bool) : spares b → spares (loop n b).
Proof.
  intros Hb. induction n as [|n IH]; [done|]. cbn [loop]. apply spares_bind; [done|]. by intros [|].
Qed.
End Spares.

Create HintDb spares discriminated.

(** A statement that changes other tables only. *)
Ltac spare_stmt :=
  intros; lazymatch goal with
          | |- same_schedules _ (?q _ _ _).2 => let f := program_of q in try unfold f
          end;
  repeat (reflexivity || case_match).

Ltac spares_tx :=
  lazymatch goal with
  | |- tx_keeps _ (TxStmt _ _) => split; [spare_stmt|intros ?]
  | |- tx_keeps _ (match ?x with _ => _ end) => destruct x
  | |- tx_keeps _ (TxCommit _) => exact I
  | |- tx_keeps _ (TxFail _) => exact I
  | |- tx_keeps _ ?b => let f := program_of b in unfold f
  end.

(** Case analysis down to the requests, unfolding the program. *)
Ltac spares_step :=
  lazymatch goal with
  | |- ∀ _, _ => intros ?
  | |- spares (Ret _) => exact I
  | |- spares (Panic _) => exact I
  | |- spares (bind _ _) => apply spares_bind
  | |- spares (match ?x with _ => _ end) => destruct x
  | |- spares (let _ := _ in _) => cbv zeta
  | |- spares (loop _ _) => apply spares_loop
  | |- spares (src_QueueDepths _) => cbn [src_QueueDepths metricsSource_Source]
  | |- spares (src_ActiveWorkers _) => cbn [src_ActiveWorkers metricsSource_Source]
  | |- spares (redis_cmd _) => apply spares_redis
  | |- spares (request (OMetric _)) => apply spares_metric
  | |- spares (request _) => by apply spares_request
  | |- spares (exec_sql _) => apply spares_sql; spare_stmt
  | |- spares (exec_tx _) => apply spares_tx; repeat spares_tx
  | |- spares ?p => first [solve [auto with spares nocore]|let f := program_of p in unfold f]
  end.
Ltac spares_all := repeat first [match goal with IH : context [spares] |- _ => apply IH end|spares_step].

Section Programs.
Context `{Postgres} `{UUIDLib} `{GoText} `{Bcrypt} `{Router} {R : Type} `{Redis R}.
Context {Sch : Type} `{Cron Sch}.

Lemma spares_CreateJob (job : Job) : spares (CreateJob (R := R) job).
Proof. spares_all. Qed.

Lemma spares_Dispatch (registry : Registry R) ty raw :
  quiet_registry registry → spares (Dispatch registry ty raw).
Proof. intros Hq. by apply spares_quiet, quiet_Dispatch. Qed.

Lemma spares_poll_queues now qs : spares (poll_queues (R := R) now qs).
Proof. induction qs as [|q qs IH]; [done|]. cbn [poll_queues]. spares_all. Qed.

Lemma spares_scan n c seen : spares (scan_workers (R := R) n c seen).
Proof. revert c seen. induction n as [|n IH]; intros c seen; [done|]. cbn [scan_workers]. spares_all. Qed.

Lemma spares_read_depths names : spares (read_depths (R := R) names).
Proof. induction names as [|q names IH]; [done|]. cbn [read_depths]. spares_all. Qed.

Lemma spares_read_lens names acc : spares (read_lens (R := R) names acc).
Proof. revert acc. induction names as [|q names IH]; intros acc; [done|]. cbn [read_lens]. spares_all. Qed.

#[local] Hint Resolve spares_poll_queues spares_scan spares_read_depths spares_read_lens : spares.

Lemma spares_process registry m :
  quiet_registry registry → spares (process (R := R) registry m).
Proof. intros Hq. pose proof (λ ty raw, spares_Dispatch registry ty raw Hq) as Hd. spares_all. Qed.

Lemma spares_consume n registry qs :
  quiet_registry registry → spares (consume (R := R) n registry qs).
Proof. intros Hq. pose proof (λ m, spares_process registry m Hq) as Hp. spares_all. Qed.

Lemma spares_ServeHTTP api r : spares (ServeHTTP (R := R) api r).
Proof.
  unfold ServeHTTP, CORS. case_decide; [done|]. apply spares_bind; [|done].
  unfold route_request. destruct (chi_route _ _ _) as [n param| |]; [|done..].
  destruct (Routes api !! n) as [rt|] eqn:Hrt; [|done].
  apply list_elem_of_lookup_2 in Hrt. revert Hrt. unfold Routes.
  rewrite !elem_of_cons, elem_of_nil. intros Hrt.
  repeat (destruct Hrt as [->|Hrt]); [..|done]; cbn [rHandler]; spares_all.
Qed.

Definition is_scheduler (s : service (R := R)) : bool :=
  match s with SchedulerLoop _ => true | _ => false end.

Lemma spares_body s : admissible s → is_scheduler s = false → spares (body s).
Proof.
  destruct s as [n reg qs|n qs|n wid|n|qs n|api r]; cbn [body admissible]; intros Ha Hs; [|..|].
  - by apply spares_consume.
  - spares_all.
  - spares_all.
  - done.
  - spares_all.
  - apply spares_bind; [apply spares_ServeHTTP|done].
Qed.
End Programs.

(** ** Programs that pay for the jobs they create *)

(** A run of a schedule: its id and the cursor at which the schedule was due. *)
Definition run : Type := uuid * Z.

(** A schedule without its cursor, which is all that a fire changes of it. *)
Definition template (sc : JobSchedule) : JobSchedule :=
  {| sc with JobSchedule.LastRunAt := None; JobSchedule.NextRunAt := 0 |}.

Section Spends.
Context `{Postgres} `{!PostgresLaws} `{UUIDLib} `{GoText} {R : Type} `{Redis R}.
Context {Sch : Type} `{Cron Sch} `{!CronLaws Sch}.
Implicit Types (w : world R) (d : DB) (sc : JobSchedule) (hand : option run).

(** The job carries the schedule's tenant, type and payload. *)
Definition made_from sc (j : Job) : Prop :=
  Job.TenantID j = JobSchedule.TenantID sc ∧ Job.JobType j = JobSchedule.JobType sc
  ∧ jsonb_param (match JobSchedule.Payload sc with RawNil => RawJSON (JObj []) | p => p end)
    = inr (Job.Payload j).

(** Whatever its expression is read as has a next activation after any time. *)
Definition recurs sc : Prop := ∀ s,
  cron_ParseStandard (JobSchedule.CronExpression sc) = inr s → ∀ t, t < cron_Next s t.

(** The templates of the schedules are [T]. *)
Section Templates.
Context (T : gmap uuid JobSchedule) (Hrecurs : ∀ id sc, T !! id = Some sc → recurs sc).

Definition fixed d : Prop :=
  keyed JobSchedule.ID (tbl_job_schedules d) ∧ template <$> tbl_job_schedules d = T.

(** What one request may do, with a run in hand or none, and the hand it leaves. *)
Inductive effect hand d d' : option run → Prop :=
| effect_idle :
    same_schedules d d' → tbl_jobs d' = tbl_jobs d → effect hand d d' hand
| effect_take id sc sc' hand' :
    tbl_job_schedules d !! id = Some sc → template sc' = template sc →
    JobSchedule.NextRunAt sc < JobSchedule.NextRunAt sc' →
    tbl_job_schedules d' = <[id := sc']> (tbl_job_schedules d) → tbl_jobs d' = tbl_jobs d →
    hand' = None ∨ hand' = Some (id, JobSchedule.NextRunAt sc) →
    effect hand d d' hand'
| effect_pay id cursor sc j :
    hand = Some (id, cursor) → T !! id = Some sc → made_from sc j →
    tbl_jobs d !! Job.ID j = None → tbl_jobs d' = <[Job.ID j := j]> (tbl_jobs d) →
    same_schedules d d' → effect hand d d' None.

Fixpoint spends {A} hand (p : prog R A) (Q : A → option run → Prop) : Prop :=
  match p with
  | Ret a => Q a hand
  | Panic _ => True
  | Call o k =>
      ∀ e w, fixed (w_db w) →
        let '(x, w') := interp o e w in
        ∃ hand', effect hand (w_db w) (w_db w') hand' ∧ spends hand' (k x) Q
  end.

Lemma spends_bind {A B} hand (p : prog R A) (f : A → prog R B) Q Q' :
  spends hand p Q → (∀ a hand', Q a hand' → spends hand' (f a) Q') → spends hand (bind p f) Q'.
Proof.
  intros Hp Hf. revert hand Hp. induction p as [a|msg|X o k IH]; intros hand Hp; simpl in *; [auto|done|].
  intros e w Hw. specialize (Hp e w Hw). destruct (interp o e w) as [x w'].
  destruct Hp as (hand' & He & Hp). exists hand'. split; [done|]. by apply IH.
Qed.

(** A program that does nothing to the tables, whatever it answers. *)
Lemma spends_quiet {A} hand (p : prog R A) : quiet p → spends hand p (λ _ hand', hand' = hand).
Proof.
  induction p as [a|msg|X o k IH]; simpl; [done|done|]. intros [Ho Hk] e w _.
  specialize (Ho e w). destruct (interp o e w) as [x w']. simpl in Ho. subst w'. exists hand.
  split; [by apply effect_idle|]. by apply IH.
Qed.

Lemma spends_redis {X} hand (c : Z → R → X * R) :
  spends hand (redis_cmd c) (λ _ hand', hand' = hand).
Proof.
  intros e w _. simpl. destruct (c _ _). destruct (faulty _ _ _). exists hand.
  split; [by apply effect_idle|done].
Qed.

(** A statement, by its effect when it is executed. *)
Lemma spends_sql {X} hand (q : sql X) (Q : result X → option run → Prop) :
  (∀ e, Q (inl e) hand) →
  (∀ now u d, fixed d → ∃ hand', effect hand d (q now u d).2 hand' ∧ Q (q now u d).1 hand'
                               ∧ ∀ e, Q (inl e) hand') →
  spends hand (exec_sql q) Q.
Proof.
  intros Herr Hq e w Hw. simpl. destruct (Hq (r_now e) (r_uuid e) _ Hw) as (hand' & He & Hx & He').
  destruct (q _ _ _) as [x d]. simpl in *. destruct (r_fault e) as [|err|err]; simpl.
  - by exists hand'.
  - exists hand. split; [by apply effect_idle|done].
  - by exists hand'.
Qed.
(** ** The scheduler *)

(** What a pass knows of a schedule it has read as due. *)
Definition due_at (now : Z) sc : Prop :=
  T !! JobSchedule.ID sc = Some (template sc) ∧ JobSchedule.NextRunAt sc ≤ pg_ts now.

Lemma spends_Submit sc cursor :
  T !! JobSchedule.ID sc = Some (template sc) →
  spends (Some (JobSchedule.ID sc, cursor)) (Submit (R := R) (fired_job sc)) (λ _ _, True).
Proof.
  intros HT. unfold Submit.
  eapply spends_bind with (Q := λ job hand',
    hand' = Some (JobSchedule.ID sc, cursor) ∧ ∃ u, job = with_defaults u (fired_job sc)).
  { intros e w _. cbn [interp]. eexists. split; [by apply effect_idle|].
    unfold with_defaults, fired_job. cbn. destruct (JobSchedule.Payload sc); split; eauto. }
  intros job hand' (-> & u & ->). case_decide; [done|].
  apply spends_bind with (Q := λ _ _, True).
  - apply spends_sql; [done|]. intros now u' d Hd.
    destruct (insert_job_stmt_cases (with_defaults u (fired_job sc)) now u' d)
      as [[pl Hpl]|(err & -> & _)]; [|by eexists; split; [by apply effect_idle|]].
    rewrite (insert_job_stmt_ok _ pl _ _ _ Hpl). destruct Hpl as (_ & Hpl & _ & Hnone & _).
    eexists. split; [|done].
    apply (effect_pay _ _ _ (JobSchedule.ID sc) cursor (template sc)
             (inserted_row (with_defaults u (fired_job sc)) pl now)); [done|exact HT| |exact Hnone|done|done].
    by split_and!.
  - intros [e|j] hand' _; [done|]. apply spends_bind with (Q := λ _ _, True); [|by intros].
    eapply spends_bind; [apply spends_redis|by intros].
Qed.

Lemma spends_claim hand now sc next :
  due_at now sc → now < next → pg_ts next = next →
  spends hand (exec_sql (R := R)
                 (claim_schedule_stmt (JobSchedule.ID sc) (JobSchedule.NextRunAt sc) now next))
    (λ x hand', x = inr 1 → ∃ cursor, hand' = Some (JobSchedule.ID sc, cursor)).
Proof.
  intros [_ Hdue] Hnext Hstored. apply spends_sql; [done|]. intros now' u d [Hk _].
  rewrite claim_schedule_stmt_spec by done.
  destruct (tbl_job_schedules d !! JobSchedule.ID sc) as [sc0|] eqn:Hsc;
    [|by exists hand; split; [by apply effect_idle|]].
  destruct (cursor_at _ sc0) eqn:Ec; [|by exists hand; split; [by apply effect_idle|]].
  unfold cursor_at in Ec. apply andb_true_iff in Ec as [_ Ec%Z.eqb_eq].
  exists (Some (JobSchedule.ID sc, JobSchedule.NextRunAt sc0)). split; [|by eauto].
  apply (effect_take _ _ _ (JobSchedule.ID sc) sc0 (advanced now next sc0)); [done|done| |done|done|by right].
  simpl. rewrite Hstored, Ec. pose proof (pg_ts_le (JobSchedule.NextRunAt sc)).
  pose proof (pg_ts_le now). lia.
Qed.

Lemma spends_fire hand now sc :
  due_at now sc → spends hand (fireSchedule (R := R) now sc) (λ _ _, True).
Proof.
  intros Hsc. pose proof Hsc as [HT _]. unfold fireSchedule.
  destruct (cron_ParseStandard _) as [err|s] eqn:Hs; [done|].
  pose proof (Hrecurs _ _ HT s Hs now) as Hlt.
  eapply spends_bind with (Q := λ r hand', r = inr true → ∃ cursor, hand' = Some (JobSchedule.ID sc, cursor)).
  { eapply spends_bind; [by apply spends_claim, cron_next_stored|].
    intros [e|n] hand' Hn; [done|]. intros [= Hone%Z.eqb_eq]. apply Hn. congruence. }
  intros [e|[|]] hand' Hhand; [| |done].
  - eapply spends_bind; [apply spends_quiet, quiet_ctx|by intros].
  - destruct Hhand as [cursor ->]; [done|]. eapply spends_bind; [by apply spends_Submit|by intros].
Qed.

Lemma spends_fire_all hand now due :
  Forall (due_at now) due → spends hand (fire_all (R := R) now due) (λ _ _, True).
Proof.
  intros Hdue. revert hand. induction Hdue as [|sc due Hsc _ IH]; intros hand; [done|]. cbn [fire_all].
  eapply spends_bind; [apply spends_quiet, quiet_ctx|]. intros [|] hand' _; [done|].
  eapply spends_bind; [by apply spends_fire|]. intros _ hand2 _. apply IH.
Qed.

Lemma spends_handleSchedules hand : spends hand (handleSchedules (R := R)) (λ _ _, True).
Proof.
  unfold handleSchedules. eapply spends_bind; [apply spends_quiet, quiet_now|]. intros now hand1 _.
  eapply spends_bind with (Q := λ r _, ∀ scs, r = inr scs → Forall (due_at now) scs).
  { eapply spends_bind with (Q := λ r _, ∀ scs, r = inr scs → Forall (due_at now) scs).
    - apply spends_sql; [done|]. intros now' u d [Hk HT]. exists hand1. split; [by apply effect_idle|].
      split; [|done]. intros scs [= <-]. apply Forall_forall. intros sc. rewrite pg_order_by_perm.
      intros (Hd & k & Hsc)%elem_of_select_where. apply andb_true_iff in Hd as [_ Hd%Z.leb_le].
      split; [|done]. by rewrite <- HT, lookup_fmap, (Hk _ _ Hsc), Hsc.
    - intros [e|scs] hand' Hr; [done|]. intros scs' [= <-]. by apply Hr. }
  intros [e|scs] hand2 Hscs; [|by apply spends_fire_all, Hscs].
  eapply spends_bind; [apply spends_quiet, quiet_ctx|by intros].
Qed.

Lemma spends_scheduler n hand : spends hand (scheduler (R := R) n) (λ _ _, True).
Proof.
  unfold scheduler. eapply spends_bind; [apply spends_handleSchedules|]. intros _ hand1 _.
  revert hand1. induction n as [|n IH]; intros hand1; [done|]. cbn [loop].
  apply spends_bind with (Q := λ _ _, True); [|by intros [|] hand2 _].
  eapply spends_bind; [apply spends_quiet, quiet_wait|]. intros [|] hand2 _; [done|].
  eapply spends_bind; [apply spends_handleSchedules|by intros].
Qed.
End Templates.
End Spends.
