(* ===== verification/Runs.v ===== *)
(** * One job per run of a schedule, whatever runs

    The running system of [System], watched: which of its processes are schedulers, which runs of
    schedules have been won (a cursor moved), and which jobs schedulers have created. *)
From S2P Require Import Prelude GoStd Models Interfaces Db Effects Store Queue Schedules.
From S2P Require Import Enqueue Scheduler Lifecycle StoreFacts Samples AuthFacts.
From S2P Require Import SchedulerFacts Rely Safety System Demo Passes Fires.
Open Scope Z_scope.

(** ** What is watched *)

Record history := mkHistory {
  h_schedulers : gset nat;
  h_runs : list run;
  h_fired : gset uuid;
}.

(** The schedules whose cursor a step moved, with the cursor they had. *)
Definition moved (t t' : gmap uuid JobSchedule) : list run :=
  (λ kv : uuid * JobSchedule, (kv.1, JobSchedule.NextRunAt kv.2))
    <$> filter (λ kv : uuid * JobSchedule,
                  JobSchedule.NextRunAt <$> t' !! kv.1 ≠ Some (JobSchedule.NextRunAt kv.2))
          (map_to_list t).

(** Process [t] made a step from tables [d] to [d']. *)
Definition after_run (t : nat) (d d' : DB) (h : history) : history := {|
  h_schedulers := h_schedulers h;
  h_runs := h_runs h ++ moved (tbl_job_schedules d) (tbl_job_schedules d');
  h_fired :=
    if decide (t ∈ h_schedulers h) then h_fired h ∪ (dom (tbl_jobs d') ∖ dom (tbl_jobs d))
    else h_fired h;
|}.

Section Runs.
Context `{Postgres} `{!PostgresLaws} `{UUIDLib} `{GoText} `{Bcrypt} `{Router} {R : Type}.
Context `{Redis R} `{!RedisLaws R} {Sch : Type} `{Cron Sch} `{!CronLaws Sch}.
Implicit Types (c : config (R := R)) (h : history).

Definition after_spawn (t : nat) (s : service (R := R)) h : history :=
  if is_scheduler s
  then mkHistory ({[t]} ∪ h_schedulers h) (h_runs h) (h_fired h) else h.

(** Runs of the system from its start, with any processes, interleaving, faults and crashes;
    nobody edits the schedules, each of which recurs. *)
Inductive watched : history → config → Prop :=
| watched_init c :
    initial c → keyed JobSchedule.ID (tbl_job_schedules (w_db (c_world c))) →
    (∀ id sc, tbl_job_schedules (w_db (c_world c)) !! id = Some sc → recurs sc) →
    watched (mkHistory ∅ [] ∅) c
| watched_spawn h w ts o s :
    watched h (mkConfig w ts o) → admissible s →
    watched (after_spawn (length ts) s h) (mkConfig w (ts ++ [body s]) o)
| watched_run h w ts o t e p p' w' :
    watched h (mkConfig w ts o) → ts !! t = Some p → step e p w = (p', w') →
    watched (after_run t (w_db w) (w_db w') h)
      (mkConfig w' (<[t := p']> ts) (claim_owner t (w_db w) (w_db w') o))
| watched_stop h w ts o t :
    watched h (mkConfig w ts o) → watched h (mkConfig w (<[t := Ret tt]> ts) o)
| watched_outside h w w' ts o :
    watched h (mkConfig w ts o) → outside w w' →
    tbl_job_schedules (w_db w') = tbl_job_schedules (w_db w) →
    watched h (mkConfig w' ts o).

Lemma watched_reachable h c : watched h c → reachable c.
Proof.
  induction 1 as [c Hi|h w ts o s _ IH Ha|h w ts o t e p p' w' _ IH Hp Hs|h w ts o t _ IH
                 |h w w' ts o _ IH Ho _].
  - by apply reach_init.
  - by eapply reach_step, sys_spawn.
  - by eapply reach_step, sys_run.
  - eapply reach_step, sys_stop. exact IH.
  - by eapply reach_step, sys_outside.
Qed.

(** ** The cursors that moved *)

Lemma moved_same (t : gmap uuid JobSchedule) : moved t t = [].
Proof.
  unfold moved. rewrite filter_none_in; [done|]. intros [k sc] Hk%elem_of_map_to_list Hne.
  simpl in *. apply Hne. by rewrite Hk.
Qed.

Lemma moved_insert (t : gmap uuid JobSchedule) id sc sc' :
  t !! id = Some sc → JobSchedule.NextRunAt sc ≠ JobSchedule.NextRunAt sc' →
  moved t (<[id := sc']> t) = [(id, JobSchedule.NextRunAt sc)].
Proof.
  intros Hsc Hne. apply Permutation_singleton_r. unfold moved.
  assert (map_to_list t ≡ₚ (id, sc) :: map_to_list (delete id t)) as ->.
  { rewrite <- (insert_delete_id _ _ _ Hsc) at 1. by rewrite map_to_list_insert by apply lookup_delete_eq. }
  rewrite filter_cons_True by (simpl; rewrite lookup_insert_eq; simpl; congruence).
  rewrite filter_none_in; [done|]. intros [k a] Hk%elem_of_map_to_list Hno. simpl in *.
  apply lookup_delete_Some in Hk as [Hk Ha]. apply Hno. by rewrite lookup_insert_ne, Ha.
Qed.
(** ** The account *)

(** What became of a run: it paid for a job, or a process has it in hand (or lost it). *)
Inductive holder := PaidFor (id : uuid) | HeldBy (t : nat).

Section Account.
Context (T : gmap uuid JobSchedule).

Definition thread_account (use : gmap run holder) h (t : nat) (p : prog R unit) : Prop :=
  if decide (t ∈ h_schedulers h)
  then ∃ hand, spends T hand p (λ _ _, True) ∧ ∀ r, hand = Some r → use !! r = Some (HeldBy t)
  else spares p.

(** The job was made from the template of the schedule whose run paid for it. *)
Definition paid (use : gmap run holder) c (id : uuid) : Prop :=
  ∃ sid cursor sc j, use !! (sid, cursor) = Some (PaidFor id) ∧ T !! sid = Some sc
    ∧ job_of c id = Some j ∧ made_from sc j.

Record account (use : gmap run holder) h c : Prop := {
  acc_fixed : fixed T (w_db (c_world c));
  acc_runs : NoDup (h_runs h);
  acc_past id cursor : (id, cursor) ∈ h_runs h →
    ∃ sc, tbl_job_schedules (w_db (c_world c)) !! id = Some sc ∧ cursor < JobSchedule.NextRunAt sc;
  acc_use r : is_Some (use !! r) → r ∈ h_runs h;
  acc_fired id : id ∈ h_fired h → paid use c id;
  acc_threads t p : c_threads c !! t = Some p → thread_account use h t p;
  acc_schedulers t : t ∈ h_schedulers h → (t < length (c_threads c))%nat;
}.

(** Rows of jobs keep what they were made from. *)
Lemma paid_step use l c c' id :
  reachable c → sys_step l c c' → paid use c id → paid use c' id.
Proof.
  intros Hc Hl (sid & cur & sc & j & Hu & HT & Hj & Hm).
  destruct (job_step _ _ _ _ _ Hc Hl Hj) as (j' & Hj' & _ & (_ & Et & _ & Ety & Ep & _) & _).
  exists sid, cur, sc, j'. split_and!; [done..|]. unfold made_from in *. by rewrite Et, Ety, Ep.
Qed.

Lemma paid_use use use' c id :
  (∀ r id', use !! r = Some (PaidFor id') → use' !! r = Some (PaidFor id')) →
  paid use c id → paid use' c id.
Proof.
  intros Hu (sid & cur & sc & j & Hid & Hrest). exists sid, cur, sc, j. split; [by apply Hu|exact Hrest].
Qed.

(** The threads other than the one that moved. *)
Lemma threads_step use use' h h' t (ts : list (prog R unit)) p' :
  (∀ t' p, ts !! t' = Some p → thread_account use h t' p) →
  h_schedulers h' = h_schedulers h →
  (∀ t' r, t' ≠ t → use !! r = Some (HeldBy t') → use' !! r = Some (HeldBy t')) →
  thread_account use' h' t p' →
  ∀ t' p, <[t := p']> ts !! t' = Some p → thread_account use' h' t' p.
Proof.
  intros Hts Es Hu Hp' t' p. rewrite list_lookup_insert. case_decide as E.
  - destruct E as [<- _]. by intros [= <-].
  - destruct (decide (t = t')) as [->|Hne].
    { intros Hl. destruct E. split; [done|]. by eapply lookup_lt_Some. }
    intros Hp%Hts. unfold thread_account in *. rewrite Es. case_decide; [|done].
    destruct Hp as (hand & Hs & Hh). exists hand. split; [done|]. intros r Hr. apply Hu; auto.
Qed.
(** *** A step of a process *)

Section Step.
Context (use : gmap run holder) (h : history) (w w' : world R) (ts : list (prog R unit)).
Context (o o' : owner) (t : nat) (p' : prog R unit) (l : label).
Abbreviation before := (mkConfig w ts o).
Abbreviation after := (mkConfig w' (<[t := p']> ts) o').
Abbreviation h' := (after_run t (w_db w) (w_db w') h).
Context (Hr : reachable before) (Hstep : sys_step l before after) (Ha : account use h before).

Lemma account_idle :
  same_schedules (w_db w) (w_db w') →
  (t ∈ h_schedulers h → tbl_jobs (w_db w') = tbl_jobs (w_db w)) →
  thread_account use h t p' → account use h' after.
Proof.
  intros Es Ej Hp. destruct Ha as [[Hk HT] Hnd Hpast Huse Hfired Hts Hsch].
  assert (h_runs h' = h_runs h) as Er by (simpl; by rewrite Es, moved_same, app_nil_r).
  assert (∀ id, id ∈ h_fired h' ↔ id ∈ h_fired h) as Ef.
  { intros id. simpl. case_decide; [|done]. rewrite Ej by done. set_solver. }
  split; rewrite ?Er; cbn [c_world c_threads] in *; [|done| |done| |by eapply threads_step|by rewrite length_insert].
  - split; by rewrite Es.
  - rewrite Es. exact Hpast.
  - intros id Hid%Ef. by eapply paid_step, Hfired.
Qed.

Lemma account_take id sc sc' hand' :
  t ∈ h_schedulers h →
  tbl_job_schedules (w_db w) !! id = Some sc → template sc' = template sc →
  JobSchedule.NextRunAt sc < JobSchedule.NextRunAt sc' →
  tbl_job_schedules (w_db w') = <[id := sc']> (tbl_job_schedules (w_db w)) →
  tbl_jobs (w_db w') = tbl_jobs (w_db w) →
  hand' = None ∨ hand' = Some (id, JobSchedule.NextRunAt sc) →
  spends T hand' p' (λ _ _, True) → ∃ use', account use' h' after.
Proof.
  intros Ht Hsc Etpl Hlt Es Ej Hhand Hp. destruct Ha as [[Hk HT] Hnd Hpast Huse Hfired Hts Hsch].
  set (r := (id, JobSchedule.NextRunAt sc)).
  assert (h_runs h' = h_runs h ++ [r]) as Er.
  { simpl. rewrite Es, (moved_insert _ _ sc); [done|done|lia]. }
  assert (r ∉ h_runs h) as Hnew.
  { intros (sc1 & Hsc1 & Hlt1)%Hpast. simpl in Hsc1. rewrite Hsc in Hsc1. injection Hsc1 as <-. lia. }
  assert (∀ r', is_Some (use !! r') → r' ≠ r) as Hne by (intros r' Hr' ->; by apply Hnew, Huse).
  assert (∀ id, id ∈ h_fired h' ↔ id ∈ h_fired h) as Ef.
  { intros id'. simpl. case_decide; [|done]. rewrite Ej. set_solver. }
  assert (JobSchedule.ID sc' = id) as Eid.
  { rewrite <- (Hk id sc Hsc). apply (f_equal JobSchedule.ID) in Etpl. exact Etpl. }
  exists (<[r := HeldBy t]> use). split; rewrite ?Er; cbn [c_world c_threads] in *.
  - split; [rewrite Es; by apply keyed_insert|]. rewrite Es, fmap_insert, Etpl, insert_id; [done|].
    by rewrite lookup_fmap, Hsc.
  - apply NoDup_app. split_and!; [done| |by apply NoDup_singleton].
    by intros r' Hr' ->%list_elem_of_singleton.
  - intros id' cur [Hin|[= -> ->]%list_elem_of_singleton]%elem_of_app.
    + destruct (Hpast _ _ Hin) as (sc1 & Hsc1 & Hlt1). rewrite Es.
      destruct (decide (id' = id)) as [->|Hneq].
      * exists sc'. rewrite lookup_insert_eq. split; [done|]. rewrite Hsc in Hsc1. injection Hsc1 as <-. lia.
      * exists sc1. by rewrite lookup_insert_ne.
    + exists sc'. rewrite Es, lookup_insert_eq. done.
  - intros r' Hr'. apply elem_of_app. destruct (decide (r' = r)) as [->|Hneq]; [right; by left|left].
    rewrite lookup_insert_ne in Hr' by done. by apply Huse.
  - intros id' Hid'%Ef. eapply paid_step; [done..|]. eapply paid_use; [|by apply Hfired].
    intros r' id2 Hu. rewrite lookup_insert_ne; [done|]. apply not_eq_sym, Hne. by eexists.
  - eapply threads_step; [done..| |].
    + intros t' r' _ Hu. rewrite lookup_insert_ne; [done|]. apply not_eq_sym, Hne. by eexists.
    + unfold thread_account. cbn [h_schedulers after_run]. rewrite decide_True by done. exists hand'. split; [done|].
      intros r' Er'. destruct Hhand as [->| ->]; [done|]. injection Er' as <-. apply lookup_insert_eq.
  - by rewrite length_insert.
Qed.

Lemma account_pay hand id cursor sc j :
  t ∈ h_schedulers h → use !! (id, cursor) = Some (HeldBy t) → hand = Some (id, cursor) →
  T !! id = Some sc → made_from sc j → tbl_jobs (w_db w) !! Job.ID j = None →
  tbl_jobs (w_db w') = <[Job.ID j := j]> (tbl_jobs (w_db w)) →
  same_schedules (w_db w) (w_db w') → spends T None p' (λ _ _, True) →
  ∃ use', account use' h' after.
Proof.
  intros Ht Hheld -> Hsc Hmade Hnone Ej Es Hp. destruct Ha as [[Hk HT] Hnd Hpast Huse Hfired Hts Hsch].
  assert (h_runs h' = h_runs h) as Er by (simpl; by rewrite Es, moved_same, app_nil_r).
  set (r := (id, cursor)) in *. exists (<[r := PaidFor (Job.ID j)]> use).
  split; rewrite ?Er; cbn [c_world c_threads] in *; [split; by rewrite Es|done|by rewrite Es| | | |
    by rewrite length_insert].
  - intros r' Hr'. apply Huse. destruct (decide (r' = r)) as [->|Hneq]; [by eexists|].
    by rewrite lookup_insert_ne in Hr'.
  - intros id' Hid'. simpl in Hid'. rewrite decide_True in Hid' by done.
    apply elem_of_union in Hid' as [Hid'|Hid'].
    + eapply paid_step; [done..|]. eapply paid_use; [|by apply Hfired].
      intros r' id2 Hu. rewrite lookup_insert_ne; [done|]. intros <-. by pose proof (eq_trans (eq_sym Hu) Hheld).
    + assert (id' = Job.ID j) as ->.
      { rewrite Ej, dom_insert in Hid'. set_solver. }
      exists id, cursor, sc, j. rewrite lookup_insert_eq. split_and!; [done|done| |done].
      unfold job_of. simpl. by rewrite Ej, lookup_insert_eq.
  - eapply threads_step; [done..| |].
    + intros t' r' Hne Hu. rewrite lookup_insert_ne; [done|]. intros <-.
      pose proof (eq_trans (eq_sym Hu) Hheld) as [= ->]. done.
    + unfold thread_account. cbn [h_schedulers after_run]. rewrite decide_True by done. by exists None.
Qed.
End Step.

Lemma account_run use h w ts o t e p p' w' :
  reachable (mkConfig w ts o) → account use h (mkConfig w ts o) →
  ts !! t = Some p → step e p w = (p', w') →
  ∃ use', account use' (after_run t (w_db w) (w_db w') h)
            (mkConfig w' (<[t := p']> ts) (claim_owner t (w_db w) (w_db w') o)).
Proof.
  intros Hr Ha Hp Hs. assert (sys_step (LRun t) (mkConfig w ts o)
    (mkConfig w' (<[t := p']> ts) (claim_owner t (w_db w) (w_db w') o))) as Hstep
    by by eapply sys_run.
  pose proof (acc_threads _ _ _ Ha t p Hp) as Hacc.
  assert (p' = p ∧ w' = w ∨ ∃ X (op : op R X) k, p = Call op k ∧ p' = k (interp op e w).1
    ∧ w' = (interp op e w).2) as [[-> ->]|(X & op & k & -> & Ep & Ew)].
  { destruct p as [a|msg|X op k]; simpl in Hs; [left; by simplify_eq..|right].
    destruct (interp op e w) eqn:Ei. simplify_eq. eexists _, _, _. by rewrite Ei. }
  { exists use. by eapply account_idle. }
  unfold thread_account in Hacc. case_decide as Ht.
  - destruct Hacc as (hand & Hspends & Hhand). specialize (Hspends e w (acc_fixed _ _ _ Ha)).
    destruct (interp op e w) as [x w1]. simpl in Ep, Ew. subst p' w'.
    destruct Hspends as (hand' & Heff & Hk). destruct Heff as [Es Ej|id sc sc' hand' Hsc Et Hlt Es Ej Hh
      |id cur sc j Eh HT Hm Hn Ej Es].
    + exists use. eapply account_idle; [done..|]. unfold thread_account. rewrite decide_True by done.
      by exists hand.
    + by eapply account_take.
    + by eapply account_pay with (hand := hand); [..|exact Hk]; try done; apply Hhand.
  - destruct Hacc as [Hsp Hk]. specialize (Hsp e w). subst p' w'. exists use.
    eapply account_idle; [done..|]. unfold thread_account. by rewrite decide_False.
Qed.
End Account.

Lemma watched_account h c :
  watched h c → ∃ T use, (∀ id sc, T !! id = Some sc → recurs sc) ∧ account T use h c.
Proof.
  induction 1 as [c Hi Hk Hrec|h w ts o s Hw IH Ha|h w ts o t e p p' w' Hw IH Hp Hs|h w ts o t Hw IH
                 |h w w' ts o Hw IH Ho Es].
  - exists (template <$> tbl_job_schedules (w_db (c_world c))), ∅. split.
    { intros id sc. rewrite lookup_fmap. intros (sc0 & Hsc & ->)%fmap_Some. exact (Hrec id sc0 Hsc). }
    destruct Hi as (_ & _ & _ & _ & _ & Et). split; simpl; [done|constructor|..].
    + by intros id cur ?%elem_of_nil.
    + intros r. rewrite lookup_empty. by intros [? ?].
    + intros id. set_solver.
    + intros t p. by rewrite Et, lookup_nil.
    + intros t. set_solver.
  - destruct IH as (T & use & Hrec & [Hf Hnd Hpast Huse Hfired Hts Hsch]). exists T, use. split; [done|].
    assert (h_runs (after_spawn (length ts) s h) = h_runs h
            ∧ h_fired (after_spawn (length ts) s h) = h_fired h) as [Er Ef]
      by (unfold after_spawn; by destruct (is_scheduler s)).
    assert (∀ t, t ∈ h_schedulers (after_spawn (length ts) s h)
                 ↔ t ∈ h_schedulers h ∨ (t = length ts ∧ is_scheduler s = true)) as Hmem.
    { intros t. unfold after_spawn. destruct (is_scheduler s); simpl; set_solver. }
    split; rewrite ?Er, ?Ef; cbn [c_world c_threads] in *; [done..|exact Hfired| |].
    + intros t p [[Hlt Hp]|[-> <-]]%lookup_snoc_Some; unfold thread_account.
      * specialize (Hts t p Hp). unfold thread_account in Hts.
        assert (t ∈ h_schedulers (after_spawn (length ts) s h) ↔ t ∈ h_schedulers h) as Hiff
          by (rewrite Hmem; split; [intros [?|[? _]]; [done|lia]|by left]).
        destruct (decide (t ∈ h_schedulers h)); [rewrite decide_True by by apply Hiff|
          rewrite decide_False by by rewrite Hiff]; done.
      * destruct (is_scheduler s) eqn:Esch.
        { rewrite decide_True by (apply Hmem; by right). exists None. split; [|done].
          destruct s; try done. by apply spends_scheduler. }
        rewrite decide_False; [by apply spares_body|]. rewrite Hmem. intros [Hin|[_ ?]]; [|done].
        apply Hsch in Hin. lia.
    + intros t [Hin|[-> _]]%Hmem; rewrite length_app; simpl; [apply Hsch in Hin|]; lia.
  - destruct IH as (T & use & Hrec & Ha). exists T.
    destruct (account_run T use h w ts o t e p p' w') as [use' Ha']; [by eapply watched_reachable|done..|].
    by exists use'.
  - destruct IH as (T & use & Hrec & [Hf Hnd Hpast Huse Hfired Hts Hsch]). exists T, use. split; [done|].
    split; cbn [c_world c_threads] in *; [done..| |by rewrite length_insert].
    eapply threads_step; [done..|]. unfold thread_account. case_decide; [by exists None|done].
  - destruct IH as (T & use & Hrec & [[Hk HT] Hnd Hpast Huse Hfired Hts Hsch]). exists T, use. split; [done|].
    split; cbn [c_world c_threads] in *; [split; by rewrite Es|done|by rewrite Es|done| |done|done].
    intros id Hid. eapply paid_step; [by eapply watched_reachable|by apply sys_outside|by apply Hfired].
Qed.

(** C6. A run of a schedule makes at most one job, whatever runs: take any number of schedulers
    side by side with any other processes, interleaved request by request, starting, failing and
    crashing at any time. Every run of a schedule is won once at most; every job that a scheduler
    created was paid for by a run that was won, of a schedule with the job's tenant, type and
    payload; and no run paid for two jobs. *)
Theorem one_job_per_run h c :
  watched h c →
  NoDup (h_runs h)
  ∧ ∃ paid_by : gmap run uuid, ∀ id, id ∈ h_fired h →
      ∃ sid cursor sc j, (sid, cursor) ∈ h_runs h ∧ paid_by !! (sid, cursor) = Some id
        ∧ tbl_job_schedules (w_db (c_world c)) !! sid = Some sc
        ∧ cursor < JobSchedule.NextRunAt sc
        ∧ job_of c id = Some j ∧ made_from sc j.
Proof.
  intros (T & use & _ & [[_ HT] Hnd Hpast Huse Hfired _ _])%watched_account. split; [done|].
  exists (omap (λ u, match u with PaidFor id => Some id | HeldBy _ => None end) use).
  intros id (sid & cur & sc0 & j & Hu & Hsc & Hj & Hm)%Hfired.
  assert ((sid, cur) ∈ h_runs h) as Hin by (apply Huse; by eexists).
  destruct (Hpast _ _ Hin) as (sc & Hrow & Hlt). exists sid, cur, sc, j.
  rewrite lookup_omap, Hu. split_and!; [done..|].
  rewrite <- HT, lookup_fmap, Hrow in Hsc. simpl in Hsc. injection Hsc as <-. exact Hm.
Qed.
End Runs.

(** ** Instances *)

(** One action, watched. *)
Definition watch `{Postgres} `{UUIDLib} `{GoText} `{Bcrypt} `{Router} {R} `{Redis R} {Sch}
    `{Cron Sch} (hc : history * config (R := R)) (a : action (R := R)) : history * config :=
  let '(h, c) := hc in
  (match a with
   | ASpawn s => after_spawn (length (c_threads c)) s h
   | ARun t e =>
       match c_threads c !! t with
       | Some p => after_run t (w_db (c_world c)) (w_db (step e p (c_world c)).2) h
       | None => h
       end
   | AStop _ => h
   end, act c a).

Lemma watched_acts `{Postgres} `{UUIDLib} `{GoText} `{Bcrypt} `{Router} {R} `{Redis R} {Sch}
    `{Cron Sch} (hc : history * config (R := R)) l :
  watched hc.1 hc.2 → Forall admissible_action l →
  watched (foldl watch hc l).1 (foldl watch hc l).2.
Proof.
  revert hc. induction l as [|a l IH]; intros [h c] Hw; [done|]. intros [Ha Hl]%Forall_cons.
  apply IH; [|done]. clear IH Hl. destruct c as [w ts o], a as [s|t e|t]; simpl in *.
  - by apply watched_spawn.
  - destruct (ts !! t) as [p|] eqn:Hp; [|done]. destruct (step e p w) as [p' w'] eqn:Es.
    by eapply watched_run.
  - by apply watched_stop.
Qed.

(** Two schedulers read the same schedule as due and both claim its run; the first one wins, and
    fires job 9. *)
Definition race_start : config (R := RefRedis.store) :=
  mkConfig (schedule_world (sample_schedule "* * * * *" 0)) [] (λ _, None).

Definition race : list (action (R := RefRedis.store)) :=
  [ASpawn (SchedulerLoop 0); ASpawn (SchedulerLoop 0);
   ARun 0 (ok_at 1 0%N); ARun 1 (ok_at 1 0%N); ARun 0 (ok_at 2 0%N); ARun 1 (ok_at 2 0%N);
   ARun 0 (ok_at 3 0%N); ARun 1 (ok_at 3 0%N); ARun 0 (ok_at 4 0%N); ARun 1 (ok_at 5 0%N);
   ARun 0 (ok_at 6 9%N); ARun 0 (ok_at 7 0%N); ARun 0 (ok_at 8 0%N)].

Definition raced : history * config (R := RefRedis.store) :=
  foldl watch (mkHistory ∅ [] ∅, race_start) race.

Example raced_runs : h_runs raced.1 = [(5%N, 0)].
Proof. vm_compute. reflexivity. Qed.
Example raced_fired : (9%N : uuid) ∈ h_fired raced.1 ∧ size (h_fired raced.1) = 1%nat.
Proof. split; [apply (bool_decide_unpack _); vm_compute; exact I|vm_compute; reflexivity]. Qed.

Lemma every_minute_recurs : recurs (sample_schedule "* * * * *" 0).
Proof.
  intros s Hs t. assert (s = 1) as ->.
  { assert (∀ x : result Z, x = inr 1 → x = inr s → s = 1) as Hx by (intros x ->; congruence).
    apply (Hx _ eq_refl Hs). }
  assert (0 < 1 * Minute) as Hm by done. pose proof (Z.mul_succ_div_gt t (1 * Minute) Hm) as Hlt.
  assert (cron_Next 1 t = (t / (1 * Minute) + 1) * (1 * Minute)) as -> by reflexivity.
  lia.
Qed.

Lemma race_start_watched : watched (mkHistory ∅ [] ∅) race_start.
Proof.
  apply watched_init.
  - split_and!; try done. apply demo_accounts.
  - apply schedule_keyed.
  - intros id sc. unfold race_start, schedule_world. cbn [c_world with_db w_db tbl_job_schedules].
    intros [_ <-]%lookup_singleton_Some. exact every_minute_recurs.
Qed.

Lemma one_job_per_run_witness :
  NoDup (h_runs raced.1) ∧ ∃ sid cursor sc j, (sid, cursor) ∈ h_runs raced.1
    ∧ job_of raced.2 9%N = Some j ∧ made_from sc j.
Proof.
  destruct (one_job_per_run raced.1 raced.2) as (Hnd & paid_by & Hp).
  - apply (watched_acts (mkHistory ∅ [] ∅, race_start)); [exact race_start_watched|].
    repeat constructor.
  - split; [exact Hnd|].
    destruct (Hp 9%N) as (sid & cursor & sc & j & Hin & _ & _ & _ & Hj & Hm).
    + exact (proj1 raced_fired).
    + exists sid, cursor, sc, j. split; [exact Hin|]. split; [exact Hj|exact Hm].
Defined.
