(* ===== verification/Shutdown.v ===== *)
(** * Stopping

    What happens after a process is told to stop: the loops of the worker and of the scheduler
    end after a bounded number of further requests, and the API's server lets the requests in
    flight finish before [runServer] returns. *)
From S2P Require Import Prelude GoStd Models Interfaces Db Effects Store Schedules Queue Enqueue.
From S2P Require Import Registry Worker Scheduler System Samples Demo.
Open Scope Z_scope.

Section Stopping.
Context {R : Type}.
Implicit Types (w : world R) (e : reply).

(** The context is done, and each check of it says so. *)
Definition told (e : reply) : Prop := r_done e = true.

(** Told to stop now, [p] makes at most [k] more requests and returns a value in [Q]. *)
Fixpoint stops {A} (k : nat) (p : prog R A) (Q : A → Prop) {struct p} : Prop :=
  match p with
  | Ret a => Q a
  | Panic _ => True
  | Call op cont =>
      match k with
      | O => False
      | S k' => ∀ e w, told e → stops k' (cont (interp op e w).1) Q
      end
  end.

(** Wherever [p] is when it is told, it stops within [k] requests. *)
Fixpoint prompt {A} (k : nat) (p : prog R A) : Prop :=
  match p with
  | Ret _ | Panic _ => True
  | Call op cont => stops k p (λ _, True) ∧ ∀ x, prompt k (cont x)
  end.

(** At most [k] requests on any path. *)
Fixpoint within {A} (k : nat) (p : prog R A) {struct p} : Prop :=
  match p with
  | Ret _ | Panic _ => True
  | Call op cont => match k with O => False | S k' => ∀ x, within k' (cont x) end
  end.

Lemma stops_mono {A} k k' (p : prog R A) (Q Q' : A → Prop) :
  (k ≤ k')%nat → (∀ a, Q a → Q' a) → stops k p Q → stops k' p Q'.
Proof.
  intros Hk HQ. revert k k' Hk. induction p as [a|msg|X op cont IH]; intros k k' Hk; simpl; [auto|done|].
  destruct k as [|k]; [done|]. destruct k' as [|k']; [lia|]. intros Hp e w He.
  eapply IH; [|by apply Hp]. lia.
Qed.

Lemma stops_bind {A B} k k' (p : prog R A) (f : A → prog R B) Q Q' :
  stops k p Q → (∀ a, Q a → stops k' (f a) Q') → stops (k + k') (bind p f) Q'.
Proof.
  intros Hp Hf. revert k Hp. induction p as [a|msg|X op cont IH]; intros k; simpl; [|done|].
  - intros Ha. eapply stops_mono; [| |by apply Hf]; [lia|done].
  - destruct k as [|k]; [done|]. intros Hp e w He. simpl. apply IH. by apply Hp.
Qed.

Lemma prompt_mono {A} k k' (p : prog R A) : (k ≤ k')%nat → prompt k p → prompt k' p.
Proof.
  intros Hk. induction p as [a|msg|X op cont IH]; [done|done|]. intros [Hs Hp].
  split; [by eapply stops_mono|]. intros x. apply IH, Hp.
Qed.

Lemma within_stops {A} k (p : prog R A) : within k p → stops k p (λ _, True).
Proof.
  revert k. induction p as [a|msg|X op cont IH]; intros k; simpl; [done|done|].
  destruct k as [|k]; [done|]. intros Hp e w _. apply IH, Hp.
Qed.

Lemma within_mono {A} k k' (p : prog R A) : (k ≤ k')%nat → within k p → within k' p.
Proof.
  revert k k'. induction p as [a|msg|X op cont IH]; intros k k' Hk; simpl; [done|done|].
  destruct k as [|k]; [done|]. destruct k' as [|k']; [lia|]. intros Hp x.
  eapply IH; [|by apply Hp]. lia.
Qed.

Lemma within_prompt {A} k (p : prog R A) : within k p → prompt k p.
Proof.
  revert k. induction p as [a|msg|X op cont IH]; intros k; [done|done|].
  intros Hp. split; [by apply within_stops|]. intros x. destruct k as [|k]; [done|].
  apply IH. eapply within_mono; [|apply Hp]. lia.
Qed.

Lemma within_bind {A B} k k' (p : prog R A) (f : A → prog R B) :
  within k p → (∀ a, within k' (f a)) → within (k + k') (bind p f).
Proof.
  intros Hp Hf. revert k Hp. induction p as [a|msg|X op cont IH]; intros k; simpl; [|done|].
  - intros _. eapply within_mono; [|by apply Hf]. lia.
  - destruct k as [|k]; [done|]. intros Hp x. simpl. apply IH. by apply Hp.
Qed.

Lemma within_last {A B} k (p : prog R A) (f : A → prog R B) :
  within k p → (∀ a, within 0 (f a)) → within k (bind p f).
Proof. rewrite <- (Nat.add_0_r k) at 2. apply within_bind. Qed.

Lemma prompt_bind {A B} k k' (p : prog R A) (f : A → prog R B) :
  prompt k p → (∀ a, stops k' (f a) (λ _, True)) → (∀ a, prompt (k + k') (f a)) →
  prompt (k + k') (bind p f).
Proof.
  intros Hp Hs Hf. induction p as [a|msg|X op cont IH]; simpl in Hp; [apply Hf|done|].
  destruct Hp as [Hst Hp]. split.
  - change (Call op (λ x, bind (cont x) f)) with (bind (Call op cont) f).
    eapply stops_bind; [exact Hst|auto].
  - intros x. apply IH, Hp.
Qed.

(** A loop whose body returns when it is told. *)
Lemma stops_loop k n (b : prog R bool) :
  stops k b (λ go, go = false) → stops k (loop n b) (λ _, True).
Proof.
  intros Hb. destruct n as [|n]; [done|]. cbn [loop]. rewrite <- (Nat.add_0_r k).
  eapply stops_bind; [exact Hb|]. by intros go ->.
Qed.

Lemma prompt_loop k k' n (b : prog R bool) :
  prompt k b → stops k' b (λ go, go = false) → prompt (k + k') (loop n b).
Proof.
  intros Hb Hs. induction n as [|n IH]; [done|]. cbn [loop].
  apply prompt_bind; [done|..]; intros [|]; [by apply stops_loop|done|exact IH|done].
Qed.

(** What it means for a run: the replies before the process is told, then enough after. *)
Lemma prompt_run {A} k (p : prog R A) es ds w :
  prompt k p → Forall told ds → (k ≤ length ds)%nat →
  (∃ r w', exec (es ++ ds) p w = (Some r, w')) ∨ panics (es ++ ds) p w.
Proof.
  assert (∀ (p : prog R A) k ds w Q, stops k p Q → Forall told ds → (k ≤ length ds)%nat →
    (∃ r w', exec ds p w = (Some r, w')) ∨ panics ds p w) as Hstop.
  { clear. induction p as [a|msg|X op cont IH]; intros k ds w Q; simpl; [eauto|by right|].
    destruct k as [|k]; [done|]. intros Hp Hds Hk. destruct ds as [|e ds]; [simpl in Hk; lia|].
    apply Forall_cons in Hds as [He Hds]. specialize (Hp e w He).
    destruct (interp op e w) as [x w']. eapply IH; [exact Hp|done|]. simpl in Hk. lia. }
  intros Hp Hds Hk. revert es w. induction p as [a|msg|X op cont IH]; intros es w.
  - left. by exists (a, es ++ ds), w.
  - by right.
  - destruct Hp as [Hs Hp]. destruct es as [|e es].
    + by eapply Hstop.
    + simpl. destruct (interp op e w) as [x w']. by apply IH.
Qed.
End Stopping.

Section Loops.
Context `{Postgres} `{UUIDLib} `{GoText} {R : Type} `{Redis R} {Sch : Type} `{Cron Sch}.

(** No handler makes more than [n] requests. *)
Definition handlers_within (n : nat) (registry : Registry R) : Prop := ∀ ty raw,
  within n (Dispatch registry ty raw).

(** One request, then the rest. *)
Lemma within_request {X B} k (op : Effects.op R X) (f : X → prog R B) :
  (∀ x, within k (f x)) → within (S k) (bind (request op) f).
Proof. intros Hf x. apply Hf. Qed.

Lemma within_Submit job : within 3 (Submit (R := R) job).
Proof.
  unfold Submit, applyDefaults. apply (within_bind 1).
  - apply within_last; [|done]. case_decide; [|done]. by apply within_request.
  - intros job'. case_decide; [done|]. apply within_request. intros [err|r]; [done|].
    apply within_last; [|done]. by apply within_request.
Qed.

Lemma within_handleFailure j err : within 3 (handleFailure (R := R) j err).
Proof.
  unfold handleFailure. destruct (_ <=? _).
  - apply (within_bind 1); [by apply within_request|]. intros [e|]; [done|]. by apply within_request.
  - destruct (backoffFor _); [|done]. apply (within_bind 1); [by apply within_request|].
    intros [e|]; [done|]. apply within_request. intros now. apply within_last; [|done].
    by apply within_request.
Qed.

Lemma within_process n registry m :
  handlers_within n registry → within (n + 7) (process registry m).
Proof.
  intros Hn. unfold process. destruct (uuid_Parse m) as [e|id]; [done|].
  replace (n + 7)%nat with (1 + (1 + (n + 5)))%nat by lia.
  apply (within_bind 1); [by apply within_request|]. intros [e|j]; [by destruct (errors_Is _ _)|].
  apply within_request. intros start. apply within_bind; [apply Hn|]. intros res.
  apply within_request. intros stop. apply within_request. intros _.
  destruct res as [err|res]; [apply within_handleFailure|].
  apply (within_bind 1); [by apply within_request|]. intros [e|]; [done|].
  apply (within_mono 1); [lia|]. by apply within_request.
Qed.

Lemma prompt_consume passes n registry qs :
  handlers_within n registry → prompt (n + 10) (consume passes registry qs).
Proof.
  intros Hn. unfold consume. replace (n + 10)%nat with (n + 9 + 1)%nat by lia.
  apply prompt_loop.
  - apply within_prompt. replace (n + 9)%nat with (1 + (1 + (n + 7)))%nat by lia.
    unfold consume_once. apply within_request. intros [|]; [done|].
    apply (within_bind 1); [by apply within_request|]. intros [err|[m q]].
    + destruct (errors_Is _ _); [done|]. apply (within_mono 2); [lia|].
      apply within_request. intros [|]; [done|]. by apply within_request.
    + apply within_last; [by apply within_process|done].
  - intros e w He. simpl. by rewrite He.
Qed.

Lemma within_poll_queues now qs : within (2 * length qs) (poll_queues (R := R) now qs).
Proof.
  induction qs as [|q qs IH]; [done|]. cbn [poll_queues length].
  replace (2 * S (length qs))%nat with (1 + (1 + 2 * length qs))%nat by lia.
  apply (within_bind 1); [by apply within_request|]. intros [err|k].
  - apply within_request. by intros [|].
  - eapply within_mono; [|exact IH]. lia.
Qed.

Lemma prompt_poll passes qs : prompt (2 * length qs + 3) (poll (R := R) passes qs).
Proof.
  replace (2 * length qs + 3)%nat with (S (S (2 * length qs)) + 1)%nat by lia.
  apply prompt_loop.
  - apply within_prompt. apply within_request. intros [|]; [done|].
    apply within_request. intros now. apply within_poll_queues.
  - intros e w He. simpl. by rewrite He.
Qed.

Lemma within_beat i : within 2 (beat (R := R) i).
Proof.
  apply (within_bind 1); [by apply within_request|]. intros [err|]; [|done]. by apply within_request.
Qed.

Lemma stops_heartbeat_once i : stops 2 (heartbeat_once (R := R) i) (λ go, go = false).
Proof. intros e w He. simpl. rewrite He. by intros e' w' _. Qed.

Lemma prompt_heartbeat passes i : prompt 5 (heartbeat (R := R) passes i).
Proof.
  assert (prompt 5 (loop passes (heartbeat_once (R := R) i))) as Hl.
  { apply (prompt_loop 3 2); [|apply stops_heartbeat_once]. apply within_prompt.
    apply within_request. intros [|].
    - apply within_last; [|done]. apply (within_mono 1); [lia|]. by apply within_request.
    - apply within_last; [apply within_beat|done]. }
  unfold heartbeat. apply (prompt_bind 3 2); [|intros _; apply stops_loop, stops_heartbeat_once|done].
  apply (prompt_mono 2); [lia|]. apply within_prompt, within_beat.
Qed.

Lemma within_fireSchedule now sc : within 4 (fireSchedule (R := R) now sc).
Proof.
  unfold fireSchedule. destruct (cron_ParseStandard _) as [e|sch]; [done|].
  apply (within_bind 1); [by apply within_request|]. intros [e|[|]]; [| |done].
  - apply (within_mono 1); [lia|]. by apply within_request.
  - apply within_last; [apply within_Submit|done].
Qed.

Lemma stops_fire_all now scs : stops 1 (fire_all (R := R) now scs) (λ _, True).
Proof. destruct scs as [|sc scs]; [done|]. intros e w He. simpl. by rewrite He. Qed.

(** However many schedules are due. *)
Lemma prompt_fire_all now scs : prompt 5 (fire_all (R := R) now scs).
Proof.
  induction scs as [|sc scs IH]; [done|]. split.
  { apply (stops_mono 1 5 _ (λ _, True)); [lia|done|]. apply (stops_fire_all now (sc :: scs)). }
  intros [|]; [done|]. simpl. apply (prompt_bind 4 1); [apply within_prompt, within_fireSchedule|..].
  - intros _. apply stops_fire_all.
  - intros _. exact IH.
Qed.

Lemma prompt_handleSchedules : prompt 5 (handleSchedules (R := R)).
Proof.
  unfold handleSchedules, DueSchedules.
  assert (∀ now (r : result (list JobSchedule)), stops 1 (R := R)
    match r with inl _ => let! _ := ctx_Err in Ret tt | inr scs => fire_all now scs end (λ _, True)) as Hs.
  { intros now [err|scs]; [by intros e w He|apply stops_fire_all]. }
  apply (prompt_bind 1 4); [apply within_prompt; by apply (within_request 0)|..].
  - intros now. apply (stops_mono 2 4 _ (λ _, True)); [lia|done|].
    eapply (stops_bind 1 1); [apply within_stops, within_last; [by apply (within_request 0)|done]|].
    intros r _. apply Hs.
  - intros now. apply (prompt_bind 1 4).
    + apply within_prompt. apply within_last; [by apply within_request|done].
    + intros r. eapply stops_mono; [| |apply Hs]; [lia|done].
    + intros [err|scs]; [|apply prompt_fire_all]. apply (prompt_mono 1); [lia|].
      apply within_prompt. by apply within_request.
Qed.

Lemma stops_handleSchedules : stops 3 (handleSchedules (R := R)) (λ _, True).
Proof.
  unfold handleSchedules, DueSchedules.
  eapply (stops_bind 1 2); [apply within_stops; by apply (within_request 0)|]. intros now _.
  eapply (stops_bind 1 1); [apply within_stops, within_last; [by apply (within_request 0)|done]|].
  intros [err|scs] _; [by intros e' w' He|apply stops_fire_all].
Qed.

Lemma prompt_scheduler ticks : prompt 6 (scheduler (R := R) ticks).
Proof.
  assert (stops 1 (scheduler_tick (R := R)) (λ go, go = false)) as Hs.
  { intros e w He. simpl. by rewrite He. }
  apply (prompt_bind 5 1); [apply prompt_handleSchedules|intros _; by apply stops_loop|intros _].
  apply (prompt_loop 5 1); [|exact Hs].
  apply (prompt_bind 1 4); [apply within_prompt; by apply within_request|..].
  - intros [|]; [done|]. apply (stops_bind 3 1 _ _ (λ _, True)); [apply stops_handleSchedules|done].
  - intros [|]; [done|]. apply (prompt_bind 5 0); [apply prompt_handleSchedules|done|done].
Qed.
End Loops.

(** The built-in handlers make at most two requests. *)
Lemma DefaultRegistry_within `{UUIDLib} `{GoText} {R} (r : Registry R) :
  DefaultRegistry = Some r → handlers_within 2 r.
Proof.
  intros Hr ty raw. unfold Dispatch, Get. destruct (handlers r !! ty) as [h|] eqn:Hh; [|done].
  destruct (decodePayload raw) as [err|o]; [done|].
  apply (DefaultRegistry_handlers r) in Hh; [|done]. apply within_last; [|by intros].
  destruct Hh as [[-> ->]|[[-> ->]|[[-> ->]|[-> ->]]]]; [done|done|..].
  - unfold SendEmailHandler. case_decide; [done|]. apply (within_mono 1); [lia|]. by apply within_request.
  - intros [|]; simpl; [done|]. case_decide; [|done]. by intros u.
Qed.

(** The run is over: the program returned (or a panic ended the process). *)
Definition over {R A} (es : list reply) (p : prog R A) (w : world R) : Prop :=
  (∃ r w', exec es p w = (Some r, w')) ∨ panics es p w.

Section Stop.
Context `{Postgres} `{UUIDLib} `{GoText} {R : Type} `{Redis R} {Sch : Type} `{Cron Sch}.

(** C34. Processes end when they are told to: whatever a loop of the worker or the scheduler
    was doing, for however many passes it was to run and whatever was answered before, once its
    checks of the context say that it is done the loop makes a bounded number of further
    requests and returns. The bound depends on what one pass does (the requests of a handler,
    the number of queues), not on how many jobs wait or schedules are due. *)
Theorem told_processes_stop passes (registry : Registry R) qs workerID n es ds w :
  handlers_within n registry → Forall told ds →
  ((n + 10 ≤ length ds)%nat → over (es ++ ds) (consume passes registry qs) w)
  ∧ ((2 * length qs + 3 ≤ length ds)%nat → over (es ++ ds) (poll passes qs) w)
  ∧ ((5 ≤ length ds)%nat → over (es ++ ds) (heartbeat passes workerID) w)
  ∧ ((6 ≤ length ds)%nat → over (es ++ ds) (scheduler passes) w).
Proof.
  intros Hn Hds.
  split_and!; intros Hk; eapply prompt_run; try done.
  - by apply prompt_consume.
  - apply prompt_poll.
  - apply prompt_heartbeat.
  - apply prompt_scheduler.
Qed.
End Stop.

(** A reply of a context that is done. *)
Definition told_at (t : Z) : reply := mkReply FOk t 0%N true [] [] [].

(** A worker that was to run a thousand passes is told to stop while it has a job in hand. *)
Lemma told_processes_stop_witness :
  over (((λ t, ok_at t 0%N) <$> [4; 5; 6]) ++ (told_at <$> seqZ 7 12))
    (consume 1000 demo_registry ["default"%string]) (c_world demo_queued).
Proof.
  assert (handlers_within 2 demo_registry) as Hn.
  { unfold demo_registry. destruct DefaultRegistry as [r|] eqn:E; [|vm_compute in E; discriminate].
    by apply DefaultRegistry_within. }
  assert (Forall told (told_at <$> seqZ 7 12)) as Hds by (by repeat constructor).
  apply (proj1 (told_processes_stop 1000 demo_registry ["default"%string] "" 2 _ _ _ Hn Hds)).
  rewrite length_fmap. vm_compute. lia.
Defined.

(** ** The API's server ([runServer] of [cmd/api/main.go], from [ListenAndServe] on)

    Two goroutines and the requests in flight. [net/http]: [Shutdown] closes the listener, so
    [ListenAndServe] returns [ErrServerClosed] and nothing new is accepted; it returns nil once
    no request is in flight, or the context's error when its ten seconds are over. A request
    that runs into them is left running. *)
Module ApiServer.

Inductive main_at :=
| Listening                           (* in srv.ListenAndServe *)
| Receiving                           (* in <-shutdownErr *)
| Returned (err : option error).      (* runServer has returned *)

Inductive stopper_at := AwaitingSignal | InShutdown | Sent.

Record server := mkServer {
  main : main_at;
  stopper : stopper_at;
  shutdownErr : option (option error);  (* the buffered channel *)
  open : bool;                          (* the listener *)
  in_flight : nat;
}.

Definition start : server := mkServer Listening AwaitingSignal None true 0.

(** What [runServer] does with the error of [ListenAndServe]. *)
Definition on_listen_error (closed : bool) (err : error) : main_at :=
  if closed then Receiving else Returned (Some err).

Definition returned (s : server) : bool :=
  match main s with Returned _ => true | _ => false end.

Inductive step : server → server → Prop :=
| accept s :
    returned s = false → open s = true →
    step s (mkServer (main s) (stopper s) (shutdownErr s) (open s) (S (in_flight s)))
| respond s n :
    returned s = false → in_flight s = S n →
    step s (mkServer (main s) (stopper s) (shutdownErr s) (open s) n)
| signal s :
    returned s = false → stopper s = AwaitingSignal →
    step s (mkServer (main s) InShutdown (shutdownErr s) false (in_flight s))
| drained s :
    returned s = false → stopper s = InShutdown → in_flight s = 0%nat →
    step s (mkServer (main s) Sent (Some None) (open s) (in_flight s))
| timed_out s err :
    returned s = false → stopper s = InShutdown →
    step s (mkServer (main s) Sent (Some (Some err)) (open s) (in_flight s))
| listener_closed s err :
    main s = Listening → open s = false →
    step s (mkServer (on_listen_error true err) (stopper s) (shutdownErr s) (open s) (in_flight s))
| listener_failed s err :
    main s = Listening → open s = true →
    step s (mkServer (on_listen_error false err) (stopper s) (shutdownErr s) false (in_flight s))
| receive s r :
    main s = Receiving → shutdownErr s = Some r →
    step s (mkServer (Returned r) (stopper s) (shutdownErr s) (open s) (in_flight s)).

Inductive reachable : server → Prop :=
| reach_start : reachable start
| reach_step s s' : reachable s → step s s' → reachable s'.

(** The phases a run goes through: serving, shutting down, told the result; or the listener has
    failed. *)
Definition consistent (s : server) : Prop :=
  match stopper s, shutdownErr s, open s with
  | AwaitingSignal, None, true => main s = Listening
  | AwaitingSignal, None, false => ∃ err, main s = Returned (Some err)
  | InShutdown, None, false => main s = Listening ∨ main s = Receiving
  | Sent, Some r, false =>
      (r = None → in_flight s = 0%nat)
      ∧ (main s = Listening ∨ main s = Receiving ∨ main s = Returned r)
  | _, _, _ => False
  end.

Lemma reachable_consistent s : reachable s → consistent s.
Proof.
  induction 1 as [|s s' _ IH Hstep]; [done|]. unfold consistent in *.
  destruct Hstep as [[m st ch o n]|[m st ch o n] k|[m st ch o n]|[m st ch o n]|[m st ch o n] err
    |[m st ch o n] err|[m st ch o n] err|[m st ch o n] r]; unfold returned in *; simpl in *;
    destruct st, ch, o; try done; simplify_eq.
  - destruct IH as [H0 IH]. split; [|exact IH]. intros E. specialize (H0 E). lia.
  - by left.
  - by destruct IH as [? ->].
  - split; [done|tauto].
  - split; [done|tauto].
  - by destruct IH.
  - by right.
  - destruct IH as [Hn _]. split; [done|tauto].
  - by exists err.
  - destruct IH as [Hn _]. split; [done|tauto].
Qed.

(** What is left to do after the signal. *)
Definition to_do (s : server) : nat :=
  (in_flight s + (match stopper s with AwaitingSignal => 2 | InShutdown => 1 | Sent => 0 end)
   + (match main s with Listening => 2 | Receiving => 1 | Returned _ => 0 end))%nat.

Lemma step_to_do s s' :
  consistent s → stopper s ≠ AwaitingSignal → step s s' → (to_do s' < to_do s)%nat.
Proof.
  intros Hc Hs Hstep. unfold consistent, to_do in *.
  destruct Hstep as [[m st ch o n]|[m st ch o n] k|[m st ch o n]|[m st ch o n]|[m st ch o n] err
    |[m st ch o n] err|[m st ch o n] err|[m st ch o n] r]; simpl in *;
    destruct st, ch, o, m; try done; simplify_eq; simpl; lia.
Qed.
End ApiServer.

Section Graceful.
Import ApiServer.

(** C36. Graceful shutdown of the API: in every run of [runServer] from [ListenAndServe] on, if
    it returns nil then a shutdown was asked for and every request that had been accepted was
    answered; once the signal has arrived nothing new is accepted, each step brings the end
    closer, and as long as [runServer] has not returned some goroutine can go on, so it returns
    after finitely many steps: neither goroutine waits for the other for ever. Before the signal
    it returns only the listener's own error. *)
Theorem shutdown_is_graceful (s : server) (Hs : reachable s) :
  (main s = Returned None → stopper s = Sent ∧ in_flight s = 0%nat)
  ∧ (stopper s = AwaitingSignal → returned s = true → ∃ err, main s = Returned (Some err))
  ∧ (stopper s ≠ AwaitingSignal →
     (∀ s', step s s' → (in_flight s' ≤ in_flight s)%nat ∧ stopper s' ≠ AwaitingSignal
                        ∧ (to_do s' < to_do s)%nat)
     ∧ (returned s = false → ∃ s', step s s')).
Proof.
  pose proof (reachable_consistent s Hs) as Hc. split_and!.
  - intros Hm. unfold consistent in Hc. rewrite Hm in Hc.
    destruct (stopper s), (shutdownErr s) as [r|], (open s); try done.
    + by destruct Hc.
    + by destruct Hc.
    + destruct Hc as [Hn [?|[?|[= <-]]]]; [done..|]. auto.
  - intros Hst Hr. unfold consistent, returned in *. rewrite Hst in Hc.
    destruct (shutdownErr s), (open s); try done. by rewrite Hc in Hr.
  - intros Hst. split; [intros s' Hstep; split_and!|].
    + unfold consistent in Hc. destruct Hstep; simpl; try lia.
      by destruct (stopper s), (shutdownErr s), (open s).
    + destruct Hstep; simpl; congruence.
    + by apply step_to_do.
    + intros Hr. unfold consistent, returned in *.
      destruct (stopper s) eqn:E, (shutdownErr s) as [r|] eqn:Er, (open s) eqn:Eo; try done.
      * eexists. apply (timed_out s (EText "context deadline exceeded")); [exact Hr|exact E].
      * destruct Hc as [_ [Hm|[Hm|Hm]]].
        -- eexists. apply (listener_closed s (EText "http: Server closed")); done.
        -- eexists. by apply (receive s r).
        -- by rewrite Hm in Hr.
Qed.
End Graceful.

(** A request is accepted, the signal arrives, the request is answered, the server returns. *)
Lemma shutdown_is_graceful_witness :
  ∃ s, ApiServer.reachable s ∧ ApiServer.main s = ApiServer.Returned None
    ∧ ApiServer.in_flight s = 0%nat.
Proof.
  assert (ApiServer.reachable
            (ApiServer.mkServer (ApiServer.Returned None) ApiServer.Sent (Some None) false 0)) as Hs.
  { eapply ApiServer.reach_step; [|apply (ApiServer.receive
      (ApiServer.mkServer ApiServer.Receiving ApiServer.Sent (Some None) false 0) None); done].
    eapply ApiServer.reach_step; [|apply (ApiServer.listener_closed
      (ApiServer.mkServer ApiServer.Listening ApiServer.Sent (Some None) false 0)
      (EText "http: Server closed")); done].
    eapply ApiServer.reach_step; [|apply (ApiServer.drained
      (ApiServer.mkServer ApiServer.Listening ApiServer.InShutdown None false 0)); done].
    eapply ApiServer.reach_step; [|apply (ApiServer.respond
      (ApiServer.mkServer ApiServer.Listening ApiServer.InShutdown None false 1) 0); done].
    eapply ApiServer.reach_step; [|apply (ApiServer.signal
      (ApiServer.mkServer ApiServer.Listening ApiServer.AwaitingSignal None true 1)); done].
    eapply ApiServer.reach_step; [apply ApiServer.reach_start|].
    apply (ApiServer.accept ApiServer.start); done. }
  eexists. split; [exact Hs|]. split; [reflexivity|].
  exact (proj2 (proj1 (shutdown_is_graceful _ Hs) eq_refl)).
Defined.
