(* ===== verification/Keeps.v ===== *)
(** * Programs that keep a property of the tables

    [keeps E I p Post]: through every request of [p] with a reply that satisfies [E], and
    wherever [p] stops, the tables satisfy [I], and a value [p] returns satisfies [Post]. *)
From S2P Require Import Prelude GoStd Models Interfaces Db Effects.
Open Scope Z_scope.

Section Keeps.
Context {R : Type} (E : reply → Prop) (I : DB → Prop).

Definition keeps {A} (p : prog R A) (Post : A → Prop) : Prop := ∀ w : world R,
  I (w_db w) →
  wp E p (λ o w', I (w_db w') ∧ match o with Some a => Post a | None => True end) w.

Lemma keeps_ret {A} (a : A) (Post : A → Prop) : Post a → keeps (Ret a) Post.
Proof. by intros Ha w Hi. Qed.

Lemma keeps_bind {A B} (p : prog R A) (f : A → prog R B) (Post : A → Prop) (Post' : B → Prop) :
  keeps p Post → (∀ a, Post a → keeps (f a) Post') → keeps (bind p f) Post'.
Proof.
  intros Hp Hf w Hi. apply wp_bind. eapply wp_mono; [|by apply Hp].
  intros [a|] w' [Hi' Ha]; [by apply Hf|done].
Qed.

(** A step whose answer does not matter. *)
Lemma keeps_then {A B} (p : prog R A) (f : A → prog R B) (Post' : B → Prop) :
  keeps p (λ _, True) → (∀ a, keeps (f a) Post') → keeps (bind p f) Post'.
Proof. intros Hp Hf. eapply keeps_bind; [exact Hp|]. intros a _. apply Hf. Qed.

Lemma keeps_weaken {A} (p : prog R A) (Post Post' : A → Prop) :
  (∀ a, Post a → Post' a) → keeps p Post → keeps p Post'.
Proof.
  intros HP Hp w Hi. eapply wp_mono; [|by apply Hp]. intros [a|] w' [? ?]; auto.
Qed.

Lemma keeps_request {X} (o : op R X) (Post : X → Prop) :
  (∀ e w, E e → I (w_db w) → I (w_db (interp o e w).2) ∧ Post (interp o e w).1) →
  keeps (request o) Post.
Proof.
  intros Ho w Hi. split; [done|]. intros e He. specialize (Ho e w He Hi).
  destruct (interp o e w) as [x w']. exact Ho.
Qed.

Lemma keeps_sql {X} (q : sql X) (Post : result X → Prop) :
  (∀ e, Post (inl e)) →
  (∀ e u d, E e → I d → I (q (r_now e) u d).2 ∧ Post (q (r_now e) u d).1) →
  keeps (exec_sql q) Post.
Proof.
  intros Herr Hq. apply keeps_request. intros e w He Hi. simpl.
  destruct (Hq e (r_uuid e) _ He Hi) as [Hi' Hp].
  destruct (q (r_now e) (r_uuid e) (w_db w)) as [x d']. by destruct (r_fault e); simpl; auto.
Qed.

(** A statement that only reads. *)
Lemma keeps_read {X} (q : sql X) : (∀ now u d, (q now u d).2 = d) → keeps (exec_sql q) (λ _, True).
Proof. intros Hq. apply keeps_sql; [done|]. intros e u d _ Hi. by rewrite Hq. Qed.

Lemma keeps_tx {X} (b : tx X) (Post : result X → Prop) :
  (∀ fs e us d, E e → I d →
     I (run_tx b fs (r_now e) us d).2 ∧ Post (run_tx b fs (r_now e) us d).1) →
  keeps (exec_tx b) Post.
Proof.
  intros Hb. apply keeps_request. intros e w He Hi. simpl.
  specialize (Hb (r_faults e) e (r_uuids e) _ He Hi).
  destruct (run_tx _ _ _ _ _) as [x d']. exact Hb.
Qed.

(** Requests that do not touch the tables. *)
Lemma keeps_other {X} (o : op R X) :
  (∀ e w, w_db (interp o e w).2 = w_db w) → keeps (request o) (λ _, True).
Proof. intros Ho. apply keeps_request. intros e w _ Hi. by rewrite Ho. Qed.

Lemma keeps_redis {X} (c : Z → R → X * R) : keeps (redis_cmd c) (λ _, True).
Proof.
  apply keeps_other. intros e w. simpl. destruct (c _ _). by destruct (faulty _ _ _).
Qed.

Lemma keeps_uuid : keeps uuid_New (λ _, True).
Proof. by apply keeps_other. Qed.
Lemma keeps_now : keeps time_Now (λ _, True).
Proof. by apply keeps_other. Qed.
Lemma keeps_rand n : keeps (rand_Read n) (λ _, True).
Proof. by apply keeps_other. Qed.
Lemma keeps_bcrypt : keeps bcrypt_work (λ _, True).
Proof. by apply keeps_other. Qed.

(** What a run of the program shows. *)
Lemma keeps_exec {A} (p : prog R A) (Post : A → Prop) es w :
  keeps p Post → Forall E es → I (w_db w) →
  let '(o, w') := exec es p w in
  I (w_db w') ∧ match o with Some (a, _) => Post a | None => True end.
Proof.
  intros Hp Hes Hi. pose proof (wp_sound _ _ _ _ es (Hp w Hi) Hes) as Hx.
  destruct (exec es p w) as [[[a rest]|] w']; exact Hx.
Qed.
End Keeps.

(** ** Tables whose rows with a given property stay as they are *)

Section KeptRows.
Context {A : Type} (own : A → Prop).

Definition kept_rows (t t' : gmap uuid A) : Prop := ∀ k a, own a → t !! k = Some a ↔ t' !! k = Some a.

Lemma kept_rows_refl t : kept_rows t t.
Proof. by intros k a _. Qed.

Lemma kept_rows_trans t1 t2 t3 : kept_rows t1 t2 → kept_rows t2 t3 → kept_rows t1 t3.
Proof. intros H1 H2 k a Ha. by rewrite (H1 k a Ha), (H2 k a Ha). Qed.

Lemma kept_rows_insert t k a :
  ¬ own a → (∀ a0, t !! k = Some a0 → ¬ own a0) → kept_rows t (<[k := a]> t).
Proof.
  intros Ha Hold k' a' Ha'. rewrite lookup_insert. case_decide as Ek; [subst|done].
  split; intros Hk; [by destruct (Hold _ Hk)|by simplify_eq].
Qed.

Lemma kept_rows_delete t k : (∀ a0, t !! k = Some a0 → ¬ own a0) → kept_rows t (delete k t).
Proof.
  intros Hold k' a' Ha'. rewrite lookup_delete_Some. split; [|tauto].
  intros Hk. split; [|done]. intros ->. by destruct (Hold _ Hk).
Qed.

Lemma kept_rows_delete_where t p :
  (∀ k a, t !! k = Some a → p a = true → ¬ own a) → kept_rows t (delete_where p t).
Proof.
  intros Hp k a Ha. rewrite lookup_delete_where. split; [|tauto].
  intros Hk. split; [done|]. destruct (p a) eqn:E; [|done]. by destruct (Hp k a Hk E).
Qed.

Lemma kept_rows_update_where t p f :
  (∀ k a, t !! k = Some a → p a = true → ¬ own a ∧ ¬ own (f a)) →
  kept_rows t (update_where p f t).
Proof.
  intros Hp k a Ha. rewrite lookup_update_where. destruct (t !! k) as [b|] eqn:Hk; [|done].
  simpl. destruct (p b) eqn:E; [|done]. destruct (Hp k b Hk E).
  split; intros; by simplify_eq.
Qed.
End KeptRows.

#[export] Hint Resolve kept_rows_refl : dispatch.
