(* ===== verification/Confined.v ===== *)
(** * Endpoints that act for one tenant leave the others alone

    A protected tenant [tid] and the tables [d0] at the start; the lemmas say that a program
    that acts for another tenant keeps every row of [tid] and answers nothing of it. *)
From S2P Require Import Prelude GoStd Models Interfaces Db Effects Crypto GoStrings.
From S2P Require Import Store Stats Queue Enqueue Accounts Auth Http JobsApi AuthApi KeysApi.
From S2P Require Import AdminApi Lifecycle StoreFacts AccountsFacts JobStore Keeps.
Open Scope Z_scope.

(** The rows of tenant [tid], and the sessions of its users, are the same in both. *)
Record rows_kept (tid : uuid) (d d' : DB) : Prop := {
  kept_jobs : kept_rows (λ j, Job.TenantID j = tid) (tbl_jobs d) (tbl_jobs d');
  kept_dlq : kept_rows (λ q, DLQRow.TenantID q = tid)
               (tbl_dead_letter_queue d) (tbl_dead_letter_queue d');
  kept_keys : kept_rows (λ k, APIKey.TenantID k = tid) (tbl_api_keys d) (tbl_api_keys d');
  kept_users : kept_rows (λ u, User.TenantID u = tid) (tbl_users d) (tbl_users d');
  kept_sessions :
    kept_rows (λ s, ∃ u, tbl_users d !! Session.UserID s = Some u ∧ User.TenantID u = tid)
      (tbl_sessions d) (tbl_sessions d');
  kept_tenant : tbl_tenants d' !! tid = tbl_tenants d !! tid;
}.

(** A response tells nothing about the tenant's jobs, users, keys or the tenant itself. *)
Definition hides (tid : uuid) (resp : Response) : Prop :=
  match RespBody_ resp with
  | BJob j => Job.TenantID j ≠ tid
  | BJobList l => ∀ j, j ∈ Jobs l → Job.TenantID j ≠ tid
  | BUser u => uTenantID u ≠ tid
  | BMe u t => uTenantID u ≠ tid ∧ Tenant.ID t ≠ tid
  | BKeyList ks => ∀ k, k ∈ ks → kTenantID k ≠ tid
  | BDashboard d => ∀ j, j ∈ RecentJobs d → Job.TenantID j ≠ tid
  | _ => True
  end.

Lemma rows_kept_refl tid d : rows_kept tid d d.
Proof. constructor; auto with dispatch. Qed.

Section Confined.
Context `{Postgres} `{!PostgresLaws} `{UUIDLib} `{GoText} `{Bcrypt} {R : Type} `{Redis R}.
Context (tid : uuid) (d0 : DB) (E : reply → Prop).

Definition apart (d : DB) : Prop :=
  db_inv d ∧ rows_kept tid d0 d ∧ is_Some (tbl_tenants d !! tid).

Abbreviation kept := (keeps (R := R) E apart).

(** A result that belongs to another tenant, when there is one. *)
Definition foreign_result {X} (owner_of : X → uuid) (r : result X) : Prop :=
  ∀ x, r = inr x → owner_of x ≠ tid.

(** ** Rows of [jobs] and [dead_letter_queue] *)

Lemma apart_put d id j :
  apart d → db_inv (put_job id j d) → Job.TenantID j ≠ tid →
  (∀ j0, tbl_jobs d !! id = Some j0 → Job.TenantID j0 ≠ tid) →
  apart (put_job id j d).
Proof.
  intros (_ & [] & Ht) Hd Hj Hold. split_and!; [done| |done]. constructor; try done.
  eapply kept_rows_trans; [done|]. by apply kept_rows_insert.
Qed.

Lemma confined_CreateJob job :
  Job.TenantID job ≠ tid → Job.Status job = StatusPending →
  kept (CreateJob job) (foreign_result Job.TenantID).
Proof.
  intros Ht Hs. apply keeps_sql; [by intros ? ?|]. intros e u d _ Hi.
  destruct (insert_job_stmt_cases job (r_now e) u d) as [[pl Hpl]|(err & -> & _)]; [|done].
  rewrite (insert_job_stmt_ok job pl _ _ _ Hpl). destruct Hpl as (Hm & _ & _ & Hnone & Hten).
  apply in_int32_spec in Hm. split; [|by intros j [= <-]].
  apply apart_put; [done|by apply insert_job_inv; [apply Hi|..]|done|].
  intros j0 Hj0. simpl in Hj0. congruence.
Qed.

Lemma confined_GetJob act id : act ≠ tid → kept (GetJob act id) (foreign_result Job.TenantID).
Proof.
  intros Ha. apply keeps_bind with (Post := foreign_result Job.TenantID).
  - apply keeps_sql; [by intros ? ?|]. intros e u d _ Hi. rewrite get_job_stmt_spec by apply Hi.
    split; [done|]. intros j. unfold visible. simpl.
    destruct (tbl_jobs d !! id) as [j0|]; [|done]. case_decide; [|done]. by intros [= <-]; subst.
  - intros [e|j] Hr; apply keeps_ret; [by destruct (errors_Is _ _)|done].
Qed.

Lemma confined_RetryJob act id : act ≠ tid → kept (RetryJob act id) (foreign_result Job.TenantID).
Proof.
  intros Ha. apply keeps_tx. intros fs e us d _ Hi. pose proof Hi as (Hd & Hk & Htn).
  pose proof (retry_job_tx_atomic d act id fs (r_now e) us) as Ht.
  specialize (Ht ltac:(apply Hd) ltac:(apply Hd)). cbn zeta in Ht.
  destruct (visible act id d) as [j0|] eqn:Hv; [|by destruct Ht as [? ->]].
  case_decide as Hs; [|by destruct Ht as [? ->]].
  assert (tbl_jobs d !! Job.ID j0 = Some j0 ∧ Job.TenantID j0 = act) as [Hj0 Ht0].
  { unfold visible in Hv. destruct (tbl_jobs d !! id) as [j|] eqn:Hj; [|done].
    case_decide; simplify_eq. by rewrite (inv_jobs_keyed _ Hd _ _ Hj). }
  assert (apart (revived d (r_now e) j0)) as Hrev.
  { split_and!; [by apply revived_inv| |done]. destruct Hk. constructor; try done.
    - eapply kept_rows_trans; [done|]. apply kept_rows_insert; simpl; [congruence|].
      intros j. congruence.
    - eapply kept_rows_trans; [done|]. apply kept_rows_delete. intros q Hq.
      destruct (inv_failed _ Hd _ _ Hj0 Hs) as (q' & Hq' & Eq & _). congruence. }
  destruct Ht as [[? ->]|[[? ->]| ->]]; [done|done|]. split; [done|].
  intros j [= <-]. simpl. congruence.
Qed.

Lemma confined_CancelJob act id :
  act ≠ tid → kept (CancelJob act id) (foreign_result Job.TenantID).
Proof.
  intros Ha. apply keeps_bind with (Post := foreign_result Job.TenantID).
  - apply keeps_sql; [by intros ? ?|]. intros e u d _ Hi. rewrite cancel_job_stmt_spec by apply Hi.
    destruct (tbl_jobs d !! id) as [j0|] eqn:Hj; [|done].
    case_decide as Hs; [|done]. destruct Hs as [Ht Hs].
    assert (edge j0 (cancelled_row (r_now e) j0)) by (by apply edge_cancel).
    split; [|by intros j [= <-]; simpl; congruence].
    apply apart_put; [done| |simpl; congruence|intros j; congruence].
    apply (put_job_inv _ (proj1 Hi) id j0); [done..|by split_and!| |done]. intros Ef. status_neq.
  - intros [e|j] Hr; [|by apply keeps_ret].
    destruct (errors_Is _ _); [|by apply keeps_ret].
    eapply keeps_then; [eapply keeps_then; [by apply keeps_read|intros [|]; by apply keeps_ret]|].
    intros [e'|[|]]; by apply keeps_ret.
Qed.

Lemma confined_ListJobs act f :
  act ≠ tid → kept (ListJobs act f) (λ r, ∀ js n, r = inr (js, n) → ∀ j, j ∈ js → Job.TenantID j ≠ tid).
Proof.
  intros Ha. unfold ListJobs. destruct (list_where act f) as [args conds] eqn:El.
  apply keeps_then; [by apply keeps_read|]. intros [e|n]; [by apply keeps_ret|].
  apply keeps_bind with (Post := λ r, ∀ js, r = inr js → ∀ j, j ∈ js → Job.TenantID j ≠ tid).
  - apply keeps_sql; [done|]. intros e u d _ Hd. unfold page_stmt.
    destruct (placeholder _ _) as [[| |l]|]; [done..| |done].
    destruct (placeholder _ _) as [[| |o]|]; [done..| |done].
    destruct (l <? 0); [done|]. destruct (o <? 0); [done|]. split; [done|].
    intros js [= <-] j Hj%elem_of_take_drop. rewrite pg_order_by_perm in Hj.
    apply elem_of_select_where in Hj as [Hj _].
    pose proof (list_where_matches act f [ArgInt (Limit f); ArgInt (Offset f)] j) as Hm.
    rewrite El in Hm. simpl in Hm. rewrite Hm in Hj. unfold matches in Hj.
    apply andb_true_iff in Hj as [[?%bool_decide_eq_true _]%andb_true_iff _]. congruence.
  - intros [e|js] Hr; apply keeps_ret; [done|]. intros js' n' [= <- <-]. by apply Hr.
Qed.

Lemma confined_Submit job :
  Job.TenantID job ≠ tid → Job.Status job = EmptyString →
  kept (Submit job) (λ r, r.1 = None → Job.TenantID r.2 ≠ tid).
Proof.
  intros Ht Hs. unfold Submit.
  apply keeps_bind with (Post := λ j, Job.TenantID j ≠ tid ∧ Job.Status j = StatusPending).
  - unfold applyDefaults.
    apply keeps_bind with (Post := λ j, Job.TenantID j ≠ tid ∧ Job.Status j = EmptyString).
    + case_decide; [|by apply keeps_ret].
      eapply keeps_then; [apply keeps_uuid|]. intros u. by apply keeps_ret.
    + intros j [Hj Hj']. apply keeps_ret. rewrite decide_True; [|by destruct (Job.Payload _); case_decide].
      destruct (Job.Payload _); case_decide; done.
  - intros j [Hj Hj']. case_decide; [by apply keeps_ret|].
    eapply keeps_bind; [by apply confined_CreateJob|]. intros [e|j'] Hr; [by apply keeps_ret|].
    eapply keeps_then; [eapply keeps_then; [apply keeps_redis|intros x; by apply keeps_ret]|].
    intros e. apply keeps_ret. intros _. by apply Hr.
Qed.

(** ** Job endpoints under the context of another tenant *)

Definition acts_for (act : uuid) (r : Request) : Prop := tenantFromContext (Ctx r) = Some act.

Lemma acts_for_tenantID act r : acts_for act r → tenantID r = inr act.
Proof. unfold acts_for, tenantID. by intros ->. Qed.

Lemma hides_error status msg : hides tid (writeError status msg).
Proof. done. Qed.

#[local] Hint Resolve hides_error : core.

Section Endpoints.
Context (act : uuid) (r : Request) (Hact : act ≠ tid) (Hr : acts_for act r).

Lemma confined_listJobs : kept (listJobs r) (hides tid).
Proof.
  unfold listJobs. rewrite (acts_for_tenantID act r Hr).
  destruct (parseListParams r) as [e|p]; [by apply keeps_ret|].
  eapply keeps_bind; [by apply confined_ListJobs|]. intros [e|[js n]] Hx; apply keeps_ret; [done|].
  intros j Hj. by eapply Hx.
Qed.

Lemma confined_enqueueJob : kept (enqueueJob r) (hides tid).
Proof.
  unfold enqueueJob. rewrite (acts_for_tenantID act r Hr).
  destruct (decode_enqueueRequest _) as [e|req]; [by apply keeps_ret|].
  case_decide; [by apply keeps_ret|].
  eapply keeps_bind; [by apply confined_Submit|]. intros [[e|] j] Hx; apply keeps_ret.
  - by destruct (errors_Is _ _).
  - by apply Hx.
Qed.

Lemma url_job_id_error resp : url_job_id r = inl resp → hides tid resp.
Proof. unfold url_job_id. by destruct (uuid_Parse _); intros; simplify_eq. Qed.

Lemma confined_getJob : kept (getJob r) (hides tid).
Proof.
  unfold getJob. rewrite (acts_for_tenantID act r Hr).
  destruct (url_job_id r) as [resp|id] eqn:Eu; [by apply keeps_ret, url_job_id_error|].
  eapply keeps_bind; [by apply confined_GetJob|]. intros [e|j] Hx; apply keeps_ret.
  - by destruct (errors_Is _ _).
  - by apply Hx.
Qed.

Lemma confined_retryJob : kept (retryJob r) (hides tid).
Proof.
  unfold retryJob. rewrite (acts_for_tenantID act r Hr).
  destruct (url_job_id r) as [resp|id] eqn:Eu; [by apply keeps_ret, url_job_id_error|].
  eapply keeps_bind; [by apply confined_RetryJob|]. intros [e|j] Hx.
  - apply keeps_ret. by repeat destruct (errors_Is _ _).
  - eapply keeps_then; [eapply keeps_then; [apply keeps_redis|intros x; by apply keeps_ret]|].
    intros [e|]; apply keeps_ret; [done|]. by apply Hx.
Qed.

Lemma confined_cancelJob : kept (cancelJob r) (hides tid).
Proof.
  unfold cancelJob. rewrite (acts_for_tenantID act r Hr).
  destruct (url_job_id r) as [resp|id] eqn:Eu; [by apply keeps_ret, url_job_id_error|].
  eapply keeps_bind; [by apply confined_CancelJob|]. intros [e|j] Hx.
  - apply keeps_ret. by repeat destruct (errors_Is _ _).
  - eapply keeps_then; [|intros x; apply keeps_ret; by apply Hx].
    eapply keeps_then; [apply keeps_redis|]. intros [e|x]; [by apply keeps_ret|].
    eapply keeps_then; [apply keeps_redis|]. intros y. by apply keeps_ret.
Qed.

(** ** Key management and statistics *)

Lemma confined_listKeys : kept (listKeys r) (hides tid).
Proof.
  unfold listKeys. rewrite (acts_for_tenantID act r Hr).
  apply keeps_bind with (Post := λ x, ∀ ks, x = inr ks → ∀ k, k ∈ ks → APIKey.TenantID k ≠ tid).
  - apply keeps_bind with (Post := λ x, ∀ ks, x = inr ks → ∀ k, k ∈ ks → APIKey.TenantID k ≠ tid).
    2: { intros [e|ks] Hx; by apply keeps_ret. }
    apply keeps_sql; [done|]. intros e u d _ Hi. split; [done|].
    intros ks [= <-] k (k0 & -> & Hk0)%list_elem_of_fmap. rewrite pg_order_by_perm in Hk0.
    apply elem_of_select_where in Hk0 as [Hk0%bool_decide_eq_true _]. simpl. congruence.
  - intros [e|ks] Hx; apply keeps_ret; [done|].
    intros k (k0 & -> & Hk0)%list_elem_of_fmap. by eapply Hx.
Qed.

Lemma confined_createKey : kept (createKey r) (hides tid).
Proof.
  unfold createKey. rewrite (acts_for_tenantID act r Hr).
  destruct (decode_body _ _ _) as [e|req]; [by apply keeps_ret|].
  case_decide; [by apply keeps_ret|]. destruct (_ <? _)%nat; [by apply keeps_ret|].
  eapply keeps_then.
  { eapply keeps_then; [|intros x; by apply keeps_ret].
    eapply keeps_then; [apply keeps_rand|intros x; by apply keeps_ret]. }
  intros [e|[full pre]]; [by apply keeps_ret|].
  eapply keeps_then; [|intros [e|k]; by apply keeps_ret].
  eapply keeps_then; [|intros x; by apply keeps_ret].
  apply keeps_sql; [done|]. intros e u d _ Hi. split; [|done].
  split; [eapply account_step_inv; [apply insert_key_step|apply Hi]|].
  unfold insert_key_stmt. destruct Hi as (Hd & [] & Ht).
  destruct (tbl_api_keys d !! u) eqn:Hu; [by split|].
  destruct (select_where _ _); [|by split]. destruct (tbl_tenants d !! act); [|by split].
  split; [|done]. constructor; try done.
  eapply kept_rows_trans; [done|]. apply kept_rows_insert; [done|]. intros a0. congruence.
Qed.

Lemma confined_deleteKey : kept (deleteKey r) (hides tid).
Proof.
  unfold deleteKey. rewrite (acts_for_tenantID act r Hr).
  destruct (uuid_Parse _) as [e|id]; [by apply keeps_ret|].
  eapply keeps_then.
  2: { intros [e|]; apply keeps_ret; [by destruct (errors_Is _ _)|done]. }
  eapply keeps_then; [|intros [e|[|n]]; by apply keeps_ret].
  apply keeps_sql; [done|]. intros e u d _ (Hd & [] & Ht). split; [|done].
  split; [eapply account_step_inv; [apply delete_key_step|done]|]. split; [|done].
  constructor; try done. eapply kept_rows_trans; [done|]. simpl.
  apply kept_rows_delete_where. intros k a _ [_ Ha%bool_decide_eq_true]%andb_true_iff. congruence.
Qed.

Lemma confined_read_depths names : kept (read_depths names) (λ _, True).
Proof.
  induction names as [|q names IH]; [by apply keeps_ret|]. cbn [read_depths].
  eapply keeps_then; [apply keeps_redis|]. intros [e|n]; [by apply keeps_ret|].
  eapply keeps_then; [apply keeps_redis|]. intros [e|m]; [by apply keeps_ret|].
  eapply keeps_then; [exact IH|]. intros [e|ds]; by apply keeps_ret.
Qed.

Lemma confined_scan_workers n c seen : kept (scan_workers n c seen) (λ _, True).
Proof.
  revert c seen. induction n as [|n IH]; intros c seen; [done|]. cbn [scan_workers].
  eapply keeps_then; [apply keeps_redis|]. intros [e|[c' ks]]; [by apply keeps_ret|].
  destruct (c' =? 0); [by apply keeps_ret|apply IH].
Qed.

Lemma confined_stats queues n : kept (stats queues n r) (hides tid).
Proof.
  unfold stats. rewrite (acts_for_tenantID act r Hr).
  eapply keeps_then; [eapply keeps_then; [by apply keeps_read|intros x; by apply keeps_ret]|].
  intros [e|names]; [by apply keeps_ret|].
  eapply keeps_then; [apply confined_read_depths|]. intros [msg|ds]; [by apply keeps_ret|].
  eapply keeps_then; [eapply keeps_then; [by apply keeps_read|intros x; by apply keeps_ret]|].
  intros [e|m]; [by apply keeps_ret|].
  eapply keeps_then; [apply confined_scan_workers|]. intros [e|k]; by apply keeps_ret.
Qed.

Lemma confined_dashboard : kept (dashboard r) (hides tid).
Proof.
  unfold dashboard. rewrite (acts_for_tenantID act r Hr).
  eapply keeps_then; [eapply keeps_then; [by apply keeps_read|intros x; by apply keeps_ret]|].
  intros [e|[counts today]]; [by apply keeps_ret|].
  eapply keeps_bind; [by apply confined_ListJobs|]. intros [e|[js n]] Hx; apply keeps_ret; [done|].
  intros j Hj. by eapply Hx.
Qed.
End Endpoints.
End Confined.
