(* ===== verification/Isolation.v ===== *)
(** * Tenant isolation of the whole API

    A request through the router and its middlewares reaches a tenant only with a credential
    of that tenant: one of its API keys, a live session of one of its users, or the email and
    password of one. Without any, the request changes no row of the tenant and its response
    shows none. *)
From S2P Require Import Prelude GoStd Models Interfaces Db Effects Crypto GoStrings Samples.
From S2P Require Import Store Stats Queue Enqueue Accounts Auth Http JobsApi AuthApi KeysApi.
From S2P Require Import AdminApi Routes Lifecycle StoreFacts AccountsFacts JobStore Keeps.
From S2P Require Import Confined System Demo.
Open Scope Z_scope.

Section Isolation.
Context `{Postgres} `{!PostgresLaws} `{UUIDLib} `{GoText} `{Bcrypt} `{Router} {R : Type} `{Redis R}.

(** ** Credentials for a tenant in the tables [d] *)

Definition has_key (tid : uuid) (d : DB) (r : Request) : Prop := ∃ key id row,
  bearerToken (Authorization r) = Some key ∧ tbl_api_keys d !! id = Some row
  ∧ APIKey.KeyHash row = HashAPIKey key ∧ APIKey.TenantID row = tid.

(** The cookie of a session that has not expired at [t0]. *)
Definition has_session (cfg : SessionConfig) (tid : uuid) (d : DB) (t0 : Z) (r : Request) : Prop :=
  ∃ token id s u,
  Cookie r (CookieName cfg) = Some token ∧ tbl_sessions d !! id = Some s
  ∧ Session.TokenHash s = HashSessionToken (Secret cfg) token ∧ t0 < Session.ExpiresAt s
  ∧ tbl_users d !! Session.UserID s = Some u ∧ User.TenantID u = tid.

Definition has_password (tid : uuid) (d : DB) (r : Request) : Prop := ∃ req id u,
  decodeCredentials r = inr req ∧ tbl_users d !! id = Some u ∧ email_is (crEmail req) u = true
  ∧ bcrypt_CompareHashAndPassword (User.PasswordHash u) (crPassword req) = None
  ∧ User.TenantID u = tid.

Definition has_credential (cfg : SessionConfig) (tid : uuid) (d : DB) (t0 : Z) (r : Request) : Prop :=
  has_key tid d r ∨ has_session cfg tid d t0 r ∨ has_password tid d r.

(** ** Account endpoints and middlewares without the credential *)

Section OneTenant.
Context (tid : uuid) (d0 : DB) (t0 : Z) (cfg : SessionConfig).

Definition from_t0 (e : reply) : Prop := t0 ≤ r_now e.

Abbreviation kept := (keeps (R := R) from_t0 (apart tid d0)).

(** The user is not one of the protected tenant, at the start and now. *)
Definition other_user (u : User) : Prop :=
  User.TenantID u ≠ tid ∧ ∀ u0, tbl_users d0 !! User.ID u = Some u0 → User.TenantID u0 ≠ tid.

Lemma other_user_intro d u :
  apart tid d0 d → tbl_users d !! User.ID u = Some u → User.TenantID u ≠ tid → other_user u.
Proof.
  intros (_ & Hk & _) Hu Hne. split; [done|]. intros u0 Hu0 E.
  apply (kept_users _ _ _ Hk _ u0 E) in Hu0. congruence.
Qed.

Lemma confined_startSession u :
  other_user u → kept (startSession cfg (User.ID u)) (λ _, True).
Proof.
  intros [_ Hu]. unfold startSession.
  eapply keeps_then.
  { eapply keeps_then; [apply keeps_rand|intros x; by apply keeps_ret]. }
  intros [e|tok]; [by apply keeps_ret|]. eapply keeps_then; [apply keeps_now|]. intros now.
  eapply keeps_then.
  { eapply keeps_then; [|intros x; by apply keeps_ret]. apply keeps_sql; [done|].
    intros e u' d _ (Hd & Hk & Ht). split; [|done].
    split; [eapply account_step_inv; [apply insert_session_step|done]|].
    unfold insert_session_stmt. destruct (tbl_sessions d !! u') eqn:Hu'; [done|].
    destruct (select_where _ _); [|done]. destruct (tbl_users d !! User.ID u); [|done].
    split; [|done]. destruct Hk. constructor; try done.
    eapply kept_rows_trans; [done|]. apply kept_rows_insert; simpl; [|intros a0; congruence].
    intros (ux & Hux & Ex). by apply (Hu ux Hux). }
  intros [e|]; [by apply keeps_ret|].
  eapply keeps_then; [eapply keeps_then; [apply keeps_now|intros x; by apply keeps_ret]|].
  intros x. by apply keeps_ret.
Qed.

Lemma confined_CreateAccount email h :
  kept (CreateAccount email h) (λ r, ∀ t u, r = inr (t, u) → other_user u).
Proof.
  apply keeps_tx. intros fs e us d _ (Hd & Hk & Htn).
  pose proof (create_account_cases email h fs (r_now e) us d) as Hc.
  pose proof (run_tx_keeps account_step (create_account_tx email h) fs (r_now e) us d
                _ (create_account_tx_step email h)) as Hs.
  destruct (run_tx _ _ _ _ _) as [x d']. simpl in *.
  destruct Hc as [[-> [err ->]]|(t & uid & Hnt & Hnu & _ & -> & Hx)]; [done|].
  assert (t ≠ tid) as Hne by (intros ->; rewrite Hnt in Htn; by destruct Htn).
  assert (apart tid d0 (account_created (r_now e) t uid email h d)) as Ha.
  { split_and!; [by eapply account_step_inv| |simpl; by rewrite lookup_insert_ne].
    destruct Hk. constructor; try done.
    - eapply kept_rows_trans; [done|]. simpl. apply kept_rows_insert; [done|]. intros a0. congruence.
    - simpl. by rewrite lookup_insert_ne. }
  split; [done|]. destruct Hx as [->|[err ->]]; [|done]. intros t' u [= <- <-].
  eapply other_user_intro; [exact Ha| |done]. simpl. by rewrite lookup_insert_eq.
Qed.

Lemma confined_signup r : kept (signup cfg r) (hides tid).
Proof.
  unfold signup. destruct (decodeCredentials r) as [resp|req] eqn:Ed.
  { apply keeps_ret. unfold decodeCredentials in Ed. by repeat case_match; simplify_eq. }
  eapply keeps_then.
  { eapply keeps_then; [apply keeps_rand|]. intros [e|salt]; [by apply keeps_ret|].
    eapply keeps_then; [apply keeps_bcrypt|]. intros x. by apply keeps_ret. }
  intros [e|h]; [by apply keeps_ret|].
  eapply keeps_bind; [apply confined_CreateAccount|]. intros [e|[tn u]] Hu.
  { apply keeps_ret. by destruct (errors_Is _ _). }
  specialize (Hu tn u eq_refl). eapply keeps_then; [by apply confined_startSession|].
  intros [e|c]; apply keeps_ret; [done|]. exact (proj1 Hu).
Qed.

Lemma confined_login r : ¬ has_password tid d0 r → kept (login cfg r) (hides tid).
Proof.
  intros Hno. unfold login. destruct (decodeCredentials r) as [resp|req] eqn:Ed.
  { apply keeps_ret. unfold decodeCredentials in Ed. by repeat case_match; simplify_eq. }
  apply keeps_bind with (Post := λ x, ∀ u, x = inr u →
    bcrypt_CompareHashAndPassword (User.PasswordHash u) (crPassword req) = None → other_user u).
  { apply keeps_bind with (Post := λ x, ∀ u, x = inr u →
      bcrypt_CompareHashAndPassword (User.PasswordHash u) (crPassword req) = None → other_user u).
    2: { intros [e|u] Hu; apply keeps_ret; [by destruct (errors_Is _ _)|done]. }
    apply keeps_sql; [done|]. intros e x d _ Hi. split; [done|]. intros u. simpl.
    destruct (select_where _ _) as [|u1 l] eqn:Es; [done|]. intros [= ->] Hc.
    assert (u ∈ select_where (email_is (crEmail req)) (tbl_users d)) as [Hm [id Hu]]%elem_of_select_where
      by (rewrite Es; left).
    destruct Hi as (Hd & Hk & Ht). pose proof (acc_users_keyed _ _ _ _ (inv_accounts _ Hd) _ _ Hu) as Hid.
    apply other_user_intro with d; [done|by rewrite Hid|]. intros E. apply Hno.
    exists req, id, u. split_and!; try done. by apply (kept_users _ _ _ Hk id u E). }
  intros [e|u] Hu.
  - destruct (errors_Is _ _); [|by apply keeps_ret].
    eapply keeps_then; [apply keeps_bcrypt|]. intros x. by apply keeps_ret.
  - apply keeps_bind with (Post := λ x,
      x = bcrypt_CompareHashAndPassword (User.PasswordHash u) (crPassword req)).
    { eapply keeps_then; [apply keeps_bcrypt|]. intros x. by apply keeps_ret. }
    intros [e|] Hx; [by apply keeps_ret|]. symmetry in Hx. specialize (Hu u eq_refl Hx).
    eapply keeps_then; [by apply confined_startSession|].
    intros [e|c]; apply keeps_ret; [done|]. exact (proj1 Hu).
Qed.

(** No session of the protected tenant has this token hash. *)
Definition other_token (h : string) : Prop := ∀ sid s,
  tbl_sessions d0 !! sid = Some s → Session.TokenHash s = h →
  ¬ ∃ u, tbl_users d0 !! Session.UserID s = Some u ∧ User.TenantID u = tid.

(** What a session of the presented cookie resolves to is not the protected tenant. *)
Lemma confined_SessionUser r token :
  ¬ has_session cfg tid d0 t0 r → Cookie r (CookieName cfg) = Some token →
  let h := HashSessionToken (Secret cfg) token in
  kept (SessionUser h) (λ x, ∀ u, x = inr u → other_user u ∧ other_token h).
Proof.
  intros Hno Hc h. apply keeps_bind with (Post := λ x, ∀ u, x = inr u → other_user u ∧ other_token h).
  2: { intros [e|u] Hu; apply keeps_ret; [by destruct (errors_Is _ _)|done]. }
  apply keeps_sql; [done|]. intros e x d Hnow Hi. split; [done|]. intros u. simpl.
  destruct (select_where _ (tbl_sessions d) ≫= _) as [|u1 l] eqn:Es; [done|]. intros [= ->].
  assert (u ∈ select_where (λ s, token_is h s && (r_now e <? Session.ExpiresAt s)) (tbl_sessions d)
                ≫= λ s, select_where (λ u, bool_decide (User.ID u = Session.UserID s)) (tbl_users d))
    as (s & Hu & Hs)%list_elem_of_bind by (rewrite Es; left).
  apply elem_of_select_where in Hs as [[Htok%bool_decide_eq_true Hexp]%andb_true_iff [sid Hs]].
  apply elem_of_select_where in Hu as [Huid%bool_decide_eq_true [id Hu]].
  pose proof Hi as (Hd & Hk & Ht). pose proof (inv_accounts _ Hd) as Hacc.
  pose proof (acc_users_keyed _ _ _ _ Hacc _ _ Hu) as Hid. rewrite <- Hid, Huid in Hu.
  assert (User.TenantID u ≠ tid) as Hne.
  { intros E. apply Hno. apply (kept_users _ _ _ Hk _ u E) in Hu.
    exists token, sid, s, u. unfold from_t0 in Hnow. split_and!; try done; [|lia].
    apply (kept_sessions _ _ _ Hk sid s); [by exists u|done]. }
  split; [apply other_user_intro with d; [done|by rewrite Huid|done]|].
  intros sid' s' Hs' Htok' (u' & Hu' & E). apply (kept_sessions _ _ _ Hk sid' s') in Hs'; [|by exists u'].
  assert (sid' = sid) as -> by (eapply (acc_token _ _ _ _ Hacc); [done|done|congruence]).
  apply (kept_users _ _ _ Hk _ u' E) in Hu'. congruence.
Qed.

Lemma confined_RequireSession next r :
  ¬ has_session cfg tid d0 t0 r →
  (∀ u token, other_user u → Cookie r (CookieName cfg) = Some token →
     other_token (HashSessionToken (Secret cfg) token) →
     kept (next {| r with Ctx := WithUser (WithTenant (Ctx r) (User.TenantID u)) u |}) (hides tid)) →
  kept (RequireSession cfg next r) (hides tid).
Proof.
  intros Hno Hn. unfold RequireSession. destruct (Cookie r _) as [tok|] eqn:Hc; [|by apply keeps_ret].
  eapply keeps_bind; [by eapply confined_SessionUser|].
  intros [e|u] Hu; [by destruct (errors_Is _ _); apply keeps_ret|].
  destruct (Hu u eq_refl). by apply (Hn u tok).
Qed.

Lemma confined_logout r token :
  Cookie r (CookieName cfg) = Some token → other_token (HashSessionToken (Secret cfg) token) →
  kept (logout cfg r) (hides tid).
Proof.
  intros Hc Hother. unfold logout. rewrite Hc.
  eapply keeps_then; [|intros [e|]; by apply keeps_ret].
  eapply keeps_then; [|intros x; by apply keeps_ret].
  apply keeps_sql; [done|]. intros e x d _ (Hd & Hk & Ht). split; [|done].
  split; [eapply account_step_inv; [apply delete_session_step|done]|]. split; [|done].
  destruct Hk. constructor; try done. eapply kept_rows_trans; [done|].
  apply kept_rows_delete_where. intros k a Ha E%bool_decide_eq_true Hown.
  apply (kept_sessions _ _ Hown) in Ha. by apply (Hother k a Ha E).
Qed.

Lemma confined_me r u :
  userFromContext (Ctx r) = Some u → other_user u → kept (me r) (hides tid).
Proof.
  intros Hr [Hu _]. unfold me, user. rewrite Hr.
  apply keeps_bind with (Post := λ x, ∀ t, x = inr t → Tenant.ID t = User.TenantID u).
  - apply keeps_bind with (Post := λ x, ∀ t, x = inr t → Tenant.ID t = User.TenantID u).
    2: { intros [e|t] Ht; apply keeps_ret; [by destruct (errors_Is _ _)|done]. }
    apply keeps_sql; [done|]. intros e x d _ Hi. split; [done|]. intros t. simpl.
    destruct (select_where _ _) as [|t1 l] eqn:Es; [done|]. intros [= ->].
    assert (t ∈ select_where (λ t, bool_decide (Tenant.ID t = User.TenantID u)) (tbl_tenants d))
      as [E%bool_decide_eq_true _]%elem_of_select_where by (rewrite Es; left). done.
  - intros [e|t] Ht; apply keeps_ret; [done|]. split; [done|]. by rewrite (Ht t eq_refl).
Qed.

Lemma confined_RequireAPIKey next r :
  ¬ has_key tid d0 r →
  (∀ act, act ≠ tid → kept (next {| r with Ctx := WithTenant (Ctx r) act |}) (hides tid)) →
  kept (RequireAPIKey next r) (hides tid).
Proof.
  intros Hno Hn. unfold RequireAPIKey. destruct (bearerToken _) as [key|] eqn:Hb; [|by apply keeps_ret].
  destruct (negb _); [by apply keeps_ret|].
  pose (Post := λ x : result (uuid * uuid), ∀ act kid, x = inr (act, kid) →
    act ≠ tid ∧ ∀ row, tbl_api_keys d0 !! kid = Some row → APIKey.TenantID row ≠ tid).
  apply keeps_bind with (Post := Post).
  { apply keeps_bind with (Post := Post).
    2: { intros [e|u] Hu; apply keeps_ret; [by destruct (errors_Is _ _)|done]. }
    apply keeps_sql; [done|]. intros e x d _ Hi. split; [done|]. intros act kid. simpl.
    destruct (select_where _ _) as [|k l] eqn:Es; [done|]. intros [= <- <-].
    assert (k ∈ select_where (hash_is (HashAPIKey key)) (tbl_api_keys d))
      as [Hm%bool_decide_eq_true [id Hk]]%elem_of_select_where by (rewrite Es; left).
    destruct Hi as (Hd & [] & Ht).
    pose proof (acc_keys_keyed _ _ _ _ (inv_accounts _ Hd) _ _ Hk) as Hid. rewrite Hid.
    assert (APIKey.TenantID k ≠ tid) as Hne.
    { intros E. apply Hno. exists key, id, k. split_and!; try done. by apply (kept_keys _ _ E). }
    split; [done|]. intros row Hrow E. apply (kept_keys _ _ E) in Hrow. congruence. }
  intros [e|[act kid]] Hx; [by destruct (errors_Is _ _); apply keeps_ret|].
  destruct (Hx act kid eq_refl) as [Hne Hrow]. eapply keeps_then; [|intros x; by apply Hn].
  eapply keeps_then; [|intros x; by apply keeps_ret].
  apply keeps_sql; [done|]. intros e x d _ (Hd & Hk & Ht). split; [|done].
  split; [eapply account_step_inv; [apply touch_key_step|done]|]. split; [|done].
  destruct Hk. constructor; try done. eapply kept_rows_trans; [done|].
  apply kept_rows_update_where. intros k a Ha E%bool_decide_eq_true. simpl.
  pose proof (acc_keys_keyed _ _ _ _ (inv_accounts _ Hd) _ _ Ha) as Hid.
  assert (APIKey.TenantID a ≠ tid) as Hna; [|done].
  intros Et. apply (kept_keys _ _ Et) in Ha. rewrite <- Hid, E in Ha. by apply (Hrow a Ha).
Qed.

Lemma confined_health r : kept (health r) (hides tid).
Proof.
  eapply keeps_then; [eapply keeps_then; [by apply keeps_read|intros x; by apply keeps_ret]|].
  intros pg. eapply keeps_then; [eapply keeps_then; [apply keeps_redis|intros x; by apply keeps_ret]|].
  intros rd. by destruct pg, rd; apply keeps_ret.
Qed.

(** ** Every route *)

Lemma confined_Routes api rt r :
  cfg = session_config api → ¬ has_credential cfg tid d0 t0 r → rt ∈ Routes (R := R) api →
  kept (rHandler rt r) (hides tid).
Proof.
  intros Ecfg Hno. unfold has_credential in Hno.
  assert (¬ has_key tid d0 r ∧ ¬ has_session cfg tid d0 t0 r ∧ ¬ has_password tid d0 r)
    as (Hk & Hs & Hp) by tauto.
  unfold Routes. rewrite <- Ecfg, !elem_of_cons, elem_of_nil. intros Hrt.
  repeat (destruct Hrt as [->|Hrt]); [..|done]; cbn [rHandler];
    try (apply confined_RequireSession; [done|]; intros u token Hu Hc Ht; pose proof (proj1 Hu));
    try (apply confined_RequireAPIKey; [done|]; intros act Hact).
  - apply confined_health.
  - apply confined_signup.
  - by apply confined_login.
  - by eapply confined_logout.
  - by eapply confined_me.
  - by eapply confined_listJobs.
  - by eapply confined_enqueueJob.
  - by eapply confined_getJob.
  - by eapply confined_retryJob.
  - by eapply confined_cancelJob.
  - by eapply confined_listKeys.
  - by eapply confined_createKey.
  - by eapply confined_deleteKey.
  - by eapply confined_stats.
  - by eapply confined_dashboard.
Qed.

Lemma confined_ServeHTTP api r :
  cfg = session_config api → ¬ has_credential cfg tid d0 t0 r →
  kept (ServeHTTP api r) (hides tid).
Proof.
  intros Ecfg Hno. unfold ServeHTTP, CORS. case_decide; [by apply keeps_ret|].
  apply keeps_bind with (Post := hides tid); [|intros resp Hr; by apply keeps_ret].
  unfold route_request. destruct (chi_route _ _ _) as [n param| |]; [|by apply keeps_ret..].
  destruct (Routes api !! n) as [rt|] eqn:Hrt; [|by apply keeps_ret].
  apply confined_Routes with api; [done|exact Hno|]. by eapply list_elem_of_lookup_2.
Qed.
End OneTenant.

End Isolation.

(** ** Instance: a stranger's key asks for the sample tenant's job *)

